(* ===== verification/_CoqProject ===== *)
-Q . S2P
Prelude.v
Lexer.v
LexerFacts.v
LexerProps.v
SyntaxTree.v
ParserCore.v
ParserSteps.v
Parser.v
ParserTotal.v
ParserFacts.v
Roundtrip.v
ParserProps.v
ParserRun.v
ParserExpr.v
ParserExprProps.v
SyntaxView.v
SyntaxViewFacts.v
SyntaxViewProps.v
TokenCategory.v
Doctest.v
DoctestProps.v
WasmEncode.v
WasmProps.v
Format.v
FormatAlign.v
FormatFacts.v
FormatProps.v
SemTypes.v
SemTypesFacts.v
SemTypesProps.v
Hir.v
WasmGen.v
WasmSem.v
HirSem.v
WasmGenFacts.v
WasmGenLits.v
WasmGenSim.v
WasmGenStmt.v
WasmGenRun.v
WasmGenPrint.v
WasmGenBody.v
WasmGenModule.v
WasmGenFuel.v
WasmGenProps.v
