(* ===== verification/Prelude.v ===== *)
(** * A verification library for the Arche compiler

    ** The program

    Arche is a small systems language whose compiler, formatter, editor tools and runtime are written
    in C under [src/]. One front end serves them all:

    - the lexer ([lexer/lexer.c]) turns a source text into tokens;
    - the parser ([parser/parser.c]) pulls tokens one at a time and pushes leaves and nodes into a
      builder ([syntax/syntax_tree.c]); the result is a lossless concrete syntax tree and a list of
      diagnostics;
    - the tools read that tree: the round-trip check ([arche_syntax_roundtrip.c]), the formatter
      ([syntax/format_syntax.c]), the highlighter ([syntax/token_category.c],
      [arche_syntax_tokens.c]), the extraction of doc tests ([doctest/doctest_extract.c]) - most of them
      through the accessors of [syntax/syntax_view.c];
    - the analysis ([semantic/]) gives types, interned in the arena of [semantic/sem_types.c];
    - the lowering ([lower/lower.c]) produces the intermediate representation of [hir/hir.h];
    - two back ends read that: LLVM text ([codegen/codegen.c]) and WebAssembly
      ([codegen/wasmgen.c], over the module writer [codegen/wasm_encode.c]).

    The library models the front end, the tools, the type arena, the intermediate representation and
    the WebAssembly back end. All of it is executable.

    ** The files

    Front end:
    - [Prelude]: machine integers, C strings, generic lemmas, tactics.
    - [Lexer] / [LexerFacts] / [LexerProps]: [lexer/lexer.c]. A [Lexer] is the cursor with the
      text left, one function per scanning routine under its C name; [lexer_tokenize] is the
      whole-buffer entry point, [arche_int_lit] the integer decoder.
    - [SyntaxTree]: [syntax/syntax_tree.c]. [SyntaxElem] is a token leaf or a node;
      [CstBuilder] carries the process-wide node counter; the facts on leaves, spans and ids that every
      later file uses.
    - [ParserCore]: the [Parser] record and the primitives of [parser/parser.c] up to the grammar
      (token pump, comments, errors, synchronization) and the state monad of the grammar.
      [Parser]: every [parse_] function of the grammar in the order of the source. [ParserSteps]: the
      same state changes as a step relation, and the rules to run a grammar function symbolically.
      [ParserTotal]: each function meets its contract. [ParserFacts]: the invariants of the steps by
      rule induction. [ParserProps]: the theorems. [ParserRun]: what each primitive does on a known run
      of tokens; [ParserExpr] and [ParserExprProps]: precedence climbing against a reference grouping.
    - [Roundtrip]: [arche_syntax_roundtrip.c].

    Readers of the tree:
    - [SyntaxView] / [SyntaxViewFacts] / [SyntaxViewProps]: [syntax/syntax_view.c]: children by
      index, tokens, positions, the name of a declaration, doc comments.
    - [TokenCategory]: [syntax/token_category.c] and the walk of [arche_syntax_tokens.c].
    - [Doctest] / [DoctestProps]: [doctest/doctest_extract.c], from sources and from Markdown.
    - [Format]: leaf collection, spacing and the printer loop of [syntax/format_syntax.c];
      [FormatAlign]: its second pass, which re-lexes the printed text. [FormatFacts], [FormatProps].

    Types:
    - [SemTypes] / [SemTypesFacts] / [SemTypesProps]: [semantic/sem_types.c]. [TypeArena] is the arena
      with its string pool, an id is an index. The specification is the set [ty] of structural types;
      [denote] reads an id as one.

    Back end:
    - [Hir]: [hir/hir.h] as inductive types, [hir_type_create] of [hir/hir.c], and the type-name
      parser and the string decoder of [lower/lower.c].
    - [WasmEncode] / [WasmProps]: [codegen/wasm_encode.c], with reference decoders.
    - [WasmGen]: the whole of [codegen/wasmgen.c], its state [Wg] passed through every emitter.
    - [WasmSem]: the instructions the generator uses, their binary format and a machine for them. The
      arithmetic on doubles is the class [F64Ops] with the law [F64Law], instantiated with the
      Standard Library's IEEE operations in [WasmGenProps].
    - [HirSem]: the reference: a static check and an evaluator of the covered fragment of the HIR, and
      the [#run] schedule ([ScheduleTree]) that decides which systems run and in which order.
    - [WasmGenFacts], [WasmGenLits], [WasmGenSim], [WasmGenStmt], [WasmGenRun], [WasmGenPrint],
      [WasmGenBody], [WasmGenModule]: the simulation, from single instructions to the whole module;
      [WasmGenFuel]: termination; [WasmGenProps]: the theorems.

    ** What is shown

    - Front end: the tokens of a text partition it; the parser returns on every text and its tree
      holds the tokens in order, every node with its exact span and a fresh id; diagnostics point into
      the source; binary expressions group by precedence; literals decode to their values; the round-trip
      check accepts every parse.
    - Readers: the accessors enumerate the children; the doc lines of a declaration are the longest
      run of doc comments above it; the name of a declaration is found behind its decorators; every
      leaf is highlighted; extraction is memory safe and inverts the writing of a Markdown document.
    - Formatter: the program's text is kept up to spaces, trailing commas and the terminators after
      the closing brace of a top-level declaration, and separators are aligned.
    - Types: the constructors implement structural types up to equality of ids, ids are canonical and
      stable, the subtype relation terminates and decides its specification, a display is exact
      precisely when no nested buffer is too small.
    - Back end: the bytes of a module decode to what was added. The module generated for a program of
      the checked fragment whose schedule runs its systems once in declaration order loads, validates in
      the machine and makes exactly the host calls for the texts the evaluator prints; with any other
      schedule it still runs all of them in that order. The generator returns when the constants do not
      form a cycle.
    - Deviations from what the code means to do are theorems or checked examples too: statements lost
      after a stray semicolon, the schedule the generator ignores, string literals decoded twice or
      changed by the formatter, doc tests filed under a decorator, tables that ignore scopes.

    ** Conventions

    - A C string is the list of the bytes before its NUL; a borrowed slice is its text; a position in a
      source is an offset from its start. Sources are shorter than 4 GiB where offsets are stored in 32
      bits; the bound is a hypothesis of the theorems that need it.
    - Machine integers keep their width where the code can overflow ([u32], [u64], [s64], the 32-bit
      arithmetic of [HirSem] and [WasmSem]); counters bounded by the memory do not.
    - A pointer tested for null is an [option]; a union with its tag is an inductive type.
    - Memory allocation always succeeds and memory release is left out.

    ** Fuel

    - The lexer's loops run on the length of the text left, plus one.
    - The grammar's recursion is bounded by a depth and its loops by the measure [toks_left];
      [ParserTotal] shows that neither is ever used up, so [parse_source] always returns.
    - [SyntaxView] and [Doctest] count children or lines; every round takes one.
    - [wb_u] and [wb_i] take at most ten rounds for 64 bits.
    - The subtype relation and the display of types follow ids that are smaller than the one they
      start from; the number of nodes is enough.
    - The WebAssembly generator follows references between constants, which may be cyclic: its fuel is
      an argument, [NoFuel] is a value, and [WasmGenFuel] gives a bound in the absence of cycles. The
      evaluator of [HirSem] and the machine of [WasmSem] bound the rounds of each loop; the theorem
      covers every program whose evaluation ends within some bound.

    ** Not modelled

    - The rest of the analysis ([semantic/semantic.c], [semantic/tycheck.c] and the diagnostics), of the
      lowering and of the LLVM back end: programs of ten thousand lines and more over one mutable
      model; the type checker, the module resolution, the variant selection and the parsing of the
      command line are the next parts to model.
    - The runner of doc tests, the compile driver, the language server's loop, the runtime, hot
      reloading and the GPU runtime: processes, sockets, files and devices.
    - Reading inputs and writing outputs of every tool. *)

From Stdlib Require Export List Bool Arith ZArith NArith Lia Ascii String.
Export ListNotations.
#[global] Open Scope bool_scope.
#[global] Open Scope nat_scope.
#[global] Open Scope list_scope.

(** ** Machine integers *)

(** C's conversion to [uint32_t]: reduction modulo 2^32. *)
Definition u32 (z : Z) : Z := (z mod 2 ^ 32)%Z.

(** C's conversion to [uint64_t]. *)
Definition u64 (z : Z) : Z := (z mod 2 ^ 64)%Z.

(** Two's-complement reading of a 64-bit pattern as [long long] / [int64_t]. *)
Definition s64 (z : Z) : Z :=
  (let u := z mod 2 ^ 64 in if u <? 2 ^ 63 then u else u - 2 ^ 64)%Z.

(** Two's-complement reading of an 8-bit pattern as a (signed) [char]. *)
Definition s8 (z : Z) : Z :=
  (let u := z mod 2 ^ 8 in if u <? 2 ^ 7 then u else u - 2 ^ 8)%Z.

(** ** Characters and C strings *)

(** A C string is the list of the bytes before its terminator. *)
Definition cstr : Type := list ascii.

Definition NUL : ascii := "000"%char.
Definition NL : ascii := "010"%char.

Definition lit (s : string) : cstr := list_ascii_of_string s.

Fixpoint cstr_eqb (a b : cstr) : bool :=
  match a, b with
  | [], [] => true
  | x :: a', y :: b' => Ascii.eqb x y && cstr_eqb a' b'
  | _, _ => false
  end.

Definition code (c : ascii) : Z := Z.of_N (N_of_ascii c).

(** The [<ctype.h>] classifiers the lexer uses, in the "C" locale. *)
Definition isdigit (c : ascii) : bool := (48 <=? code c)%Z && (code c <=? 57)%Z.
Definition isupper (c : ascii) : bool := (65 <=? code c)%Z && (code c <=? 90)%Z.
Definition islower (c : ascii) : bool := (97 <=? code c)%Z && (code c <=? 122)%Z.
Definition isalpha (c : ascii) : bool := isupper c || islower c.
Definition isalnum (c : ascii) : bool := isalpha c || isdigit c.

(** The [n] bytes of a text from position [pos]. *)
Definition slice (src : cstr) (pos n : Z) : cstr := firstn (Z.to_nat n) (skipn (Z.to_nat pos) src).

(** Decimal printing: [%d] of a value below 10^fuel. *)
Definition digit_char (d : Z) : ascii := ascii_of_N (Z.to_N (48 + d)).

Fixpoint show_dec (fuel : nat) (n : Z) : cstr :=
  match fuel with
  | O => []
  | S f => if (n <? 10)%Z then [digit_char n] else show_dec f (n / 10) ++ [digit_char (n mod 10)]
  end.

Definition show_int (n : Z) : cstr :=
  if (n <? 0)%Z then "-"%char :: show_dec 20 (- n) else show_dec 20 n.

(** [n] bytes of [z], least significant first. *)
Fixpoint le_bytes (n : nat) (z : Z) : list Z :=
  match n with O => [] | S m => (z mod 256)%Z :: le_bytes m (z / 256)%Z end.

(** ** Generic lemmas *)

Lemma cstr_eqb_eq a b : cstr_eqb a b = true <-> a = b.
Proof.
  revert b; induction a as [|x a IH]; intros [|y b]; cbn; try (split; congruence).
  rewrite andb_true_iff, IH, Ascii.eqb_eq. split; [intros [-> ->] | injection 1]; auto.
Qed.

Lemma cstr_eqb_refl a : cstr_eqb a a = true.
Proof. now apply cstr_eqb_eq. Qed.

Lemma u32_small z : (0 <= z < 2 ^ 32)%Z -> u32 z = z.
Proof. intros H. now apply Z.mod_small. Qed.

Lemma s64_small z : (0 <= z < 2 ^ 63)%Z -> s64 z = z.
Proof.
  intros H. unfold s64. rewrite Z.mod_small by lia.
  now destruct (Z.ltb_spec z (2 ^ 63)); [|lia].
Qed.

Lemma skipn_app_exact {A} (a b : list A) : skipn (List.length a) (a ++ b) = b.
Proof. now rewrite skipn_app, skipn_all, Nat.sub_diag. Qed.

Lemma firstn_app_exact {A} (a b : list A) : firstn (List.length a) (a ++ b) = a.
Proof. now rewrite firstn_app, firstn_all, Nat.sub_diag, app_nil_r. Qed.

Lemma slice_extend src pos n :
  (0 <= pos)%Z -> (0 <= n)%Z ->
  firstn (Z.to_nat pos) src ++ slice src pos n = firstn (Z.to_nat (pos + n)) src.
Proof.
  intros Hp Hn. unfold slice. rewrite Z2Nat.inj_add by lia.
  generalize (Z.to_nat pos) as a, (Z.to_nat n) as b. clear. intros a. revert src.
  induction a as [|a IH]; intros src b; [reflexivity|]. destruct src as [|c src]; cbn; [now rewrite firstn_nil|].
  now rewrite IH.
Qed.

(** ** Automation *)

(** Split conjunctions and existentials of the context. *)
Ltac split_hyps :=
  repeat match goal with
    | H : _ /\ _ |- _ => destruct H
    | H : exists _, _ |- _ => destruct H
    end.

(** Case on the innermost scrutinee of a [match] or [if] of the goal. *)
Ltac case_goal :=
  match goal with
  | |- context [match ?x with _ => _ end] =>
      lazymatch x with
      | context [match _ with _ => _ end] => fail
      | _ => let E := fresh "E" in destruct x eqn:E
      end
  end.

(** Case on the outermost condition of the goal. *)
Ltac case_if :=
  match goal with |- context [if ?b then _ else _] => let E := fresh "E" in destruct b eqn:E end.

Ltac bool_hyps :=
  repeat match goal with
    | H : _ && _ = true |- _ => apply andb_true_iff in H; destruct H
    | H : _ || _ = false |- _ => apply orb_false_iff in H; destruct H
    | H : negb _ = true |- _ => apply negb_true_iff in H
    | H : negb _ = false |- _ => apply negb_false_iff in H
    end.

Create HintDb arche.
Create Rewrite HintDb arche_rw.
#[export] Hint Rewrite @length_app @app_nil_r @skipn_app_exact @firstn_app_exact : arche_rw.

Definition is_some {A} (o : option A) : bool := match o with Some _ => true | None => false end.
