(* ===== verification/Lexer.v ===== *)
(** * The lexer ([src/lexer/lexer.h], [src/lexer/lexer.c])

    The token type, the cursor, every scanning routine, the whole-buffer tokenizer, the
    doc-comment predicates and the integer-literal decoder. [LexerFacts] proves what they
    guarantee. *)

From S2P Require Import Prelude.

(** ** Tokens *)

Inductive TokenKind : Type :=
  | TOK_EOF
  | TOK_ERROR
  | TOK_IDENT
  | TOK_NUMBER
  | TOK_STRING
  | TOK_CHAR_LIT
  | TOK_COMMENT
  | TOK_ARCHETYPE
  | TOK_PROC
  | TOK_MAP
  | TOK_SYSTEM
  | TOK_QUERY
  | TOK_FUNC
  | TOK_LET
  | TOK_FOR
  | TOK_IF
  | TOK_ELSE
  | TOK_IN
  | TOK_BREAK
  | TOK_CONTINUE
  | TOK_MOVE
  | TOK_OWN
  | TOK_COPY
  | TOK_ALIAS
  | TOK_RETURN
  | TOK_USE
  | TOK_EACH_FIELD
  | TOK_RUN
  | TOK_ENUM
  | TOK_MATCH
  | TOK_POLICY
  | TOK_LPAREN
  | TOK_RPAREN
  | TOK_LBRACE
  | TOK_RBRACE
  | TOK_LBRACKET
  | TOK_RBRACKET
  | TOK_COMMA
  | TOK_DOT
  | TOK_DOTDOTDOT
  | TOK_COLON
  | TOK_SEMI
  | TOK_AT
  | TOK_HASH
  | TOK_HASH_MODULE
  | TOK_HASH_FILE
  | TOK_HASH_FOREIGN
  | TOK_HASH_LINK
  | TOK_HASH_CFLAGS
  | TOK_HASH_RUN
  | TOK_EQ
  | TOK_PLUS_EQ
  | TOK_MINUS_EQ
  | TOK_STAR_EQ
  | TOK_SLASH_EQ
  | TOK_PERCENT_EQ
  | TOK_PLUS
  | TOK_MINUS
  | TOK_STAR
  | TOK_SLASH
  | TOK_PERCENT
  | TOK_EQ_EQ
  | TOK_BANG_EQ
  | TOK_LT
  | TOK_GT
  | TOK_LT_EQ
  | TOK_GT_EQ
  | TOK_AMP_AMP
  | TOK_PIPE_PIPE
  | TOK_PIPE_GT
  | TOK_ARROW
  | TOK_BANG
  | TOK_QUESTION.

Scheme Equality for TokenKind.

Inductive TriviaKind : Type :=
  | TRIVIA_LINE_COMMENT
  | TRIVIA_BLOCK_COMMENT
  | TRIVIA_BLANK_LINES.

(** What a [const char *] of a token or trivia entry points at: a place of the source buffer
    (by its offset), the literal of an error message, or nothing. *)
Inductive CharPtr : Type :=
  | InSrc (off : nat)
  | InMsg (msg : string)
  | NullPtr.

Record Trivia : Type := mkTrivia {
  tr_kind : TriviaKind;
  tr_start : CharPtr;
  tr_length : nat;
  tr_line : Z;
  tr_column : Z;
  tr_blank_count : Z
}.

Record Token : Type := mkToken {
  tok_kind : TokenKind;
  tok_start : CharPtr;
  tok_length : nat;
  tok_line : Z;
  tok_column : Z;
  tok_int_val : Z;
  tok_leading : list Trivia
}.

(** The lexer's state. [lx_pos] is the offset [cur - src] and [lx_rest] the text from [cur] to
    the terminator; [lx_pending] is [pending_tokens[pending_pos .. pending_count)]. The unused
    string buffer is left out. *)
Record Lexer : Type := mkLexer {
  lx_src : cstr;
  lx_pos : nat;
  lx_rest : cstr;
  lx_line : Z;
  lx_column : Z;
  lx_pending : list Token
}.

(** ** Cursor *)

Definition peek (lx : Lexer) : ascii :=
  match lx_rest lx with [] => NUL | c :: _ => c end.

Definition is_at_end (lx : Lexer) : bool := Ascii.eqb (peek lx) NUL.

Definition peek_next (lx : Lexer) : ascii :=
  if is_at_end lx || Ascii.eqb (nth 1 (lx_rest lx) NUL) NUL then NUL
  else nth 1 (lx_rest lx) NUL.

(** The character is [peek lx] before the call; this is the state after it. *)
Definition advance (lx : Lexer) : Lexer :=
  let c := peek lx in
  if Ascii.eqb c NUL then lx
  else if Ascii.eqb c NL then
    mkLexer (lx_src lx) (S (lx_pos lx)) (tl (lx_rest lx)) (lx_line lx + 1) 1 (lx_pending lx)
  else
    mkLexer (lx_src lx) (S (lx_pos lx)) (tl (lx_rest lx)) (lx_line lx) (lx_column lx + 1) (lx_pending lx).

(** [lexer->cur--; lexer->column--;] after [c] was consumed. *)
Definition step_back (c : ascii) (lx : Lexer) : Lexer :=
  mkLexer (lx_src lx) (pred (lx_pos lx)) (c :: lx_rest lx) (lx_line lx) (lx_column lx - 1) (lx_pending lx).

(** [while (cond) advance(lexer);]. The fuel [S (length rest)] is one more than the number of
    characters left, and [loop_exit] shows that every loop of the lexer stops within it. *)
Fixpoint loop (fuel : nat) (cond : Lexer -> bool) (lx : Lexer) : Lexer :=
  match fuel with
  | O => lx
  | S f => if cond lx then loop f cond (advance lx) else lx
  end.

Definition advance_while (cond : Lexer -> bool) (lx : Lexer) : Lexer :=
  loop (S (List.length (lx_rest lx))) cond lx.

Definition make_token (kind : TokenKind) (start : nat) (length : nat) (line column : Z) : Token :=
  mkToken kind (InSrc start) length line column 0 [].

Definition error_token (message : string) (line column : Z) : Token :=
  mkToken TOK_ERROR (InMsg message) (String.length message) line column 0 [].

(** The token that starts where [lx0] is and ends where [lx] is. *)
Definition token_to (kind : TokenKind) (lx0 lx : Lexer) : Token :=
  make_token kind (lx_pos lx0) (lx_pos lx - lx_pos lx0) (lx_line lx0) (lx_column lx0).

(** ** Scanning *)

Definition is_blank (c : ascii) : bool :=
  Ascii.eqb c " " || Ascii.eqb c "013" || Ascii.eqb c "009" || Ascii.eqb c NL.

Definition skip_whitespace (lx : Lexer) : Lexer :=
  advance_while (fun l => is_blank (peek l)) lx.

Definition lex_comment (lx : Lexer) : Token * Lexer :=
  let l2 := advance (advance lx) in
  let l3 := advance_while (fun l => negb (Ascii.eqb (peek l) NL) && negb (is_at_end l)) l2 in
  (token_to TOK_COMMENT lx l3, l3).

Definition arche_is_doc_comment (text : cstr) : bool :=
  let len := List.length text in
  if (len <? 3)%nat then false
  else if negb (Ascii.eqb (nth 0 text NUL) "/") || negb (Ascii.eqb (nth 1 text NUL) "/")
          || negb (Ascii.eqb (nth 2 text NUL) "/") then false
  else if (4 <=? len)%nat && Ascii.eqb (nth 3 text NUL) "/" then false
  else true.

Definition arche_is_inner_doc_comment (text : cstr) : bool :=
  if (List.length text <? 3)%nat then false
  else Ascii.eqb (nth 0 text NUL) "/" && Ascii.eqb (nth 1 text NUL) "/" && Ascii.eqb (nth 2 text NUL) "!".

Fixpoint block_comment_loop (fuel : nat) (lx : Lexer) : Lexer :=
  match fuel with
  | O => lx
  | S f =>
      if is_at_end lx then lx
      else if Ascii.eqb (peek lx) "*" && Ascii.eqb (peek_next lx) "/" then advance (advance lx)
      else block_comment_loop f (advance lx)
  end.

Definition lex_block_comment (lx : Lexer) : Token * Lexer :=
  let l2 := advance (advance lx) in
  let l3 := block_comment_loop (S (List.length (lx_rest l2))) l2 in
  (token_to TOK_COMMENT lx l3, l3).

Definition is_ident_start (c : ascii) : bool := isalpha c || Ascii.eqb c "_".
Definition is_ident_char (c : ascii) : bool := isalnum c || Ascii.eqb c "_".

(** [length == n && strncmp(start, word, n) == 0], the word being [n] bytes long. *)
Definition text_is (text : cstr) (word : string) : bool := cstr_eqb text (lit word).

Definition keyword_kind (text : cstr) : TokenKind :=
  if text_is text "arche" then TOK_ARCHETYPE
  else if text_is text "proc" then TOK_PROC
  else if text_is text "map" then TOK_MAP
  else if text_is text "system" then TOK_SYSTEM
  else if text_is text "query" then TOK_QUERY
  else if text_is text "func" then TOK_FUNC
  else if text_is text "policy" then TOK_POLICY
  else if text_is text "enum" then TOK_ENUM
  else if text_is text "match" then TOK_MATCH
  else if text_is text "let" then TOK_LET
  else if text_is text "for" then TOK_FOR
  else if text_is text "if" then TOK_IF
  else if text_is text "else" then TOK_ELSE
  else if text_is text "in" then TOK_IN
  else if text_is text "break" then TOK_BREAK
  else if text_is text "continue" then TOK_CONTINUE
  else if text_is text "move" then TOK_MOVE
  else if text_is text "own" then TOK_OWN
  else if text_is text "copy" then TOK_COPY
  else if text_is text "alias" then TOK_ALIAS
  else if text_is text "return" then TOK_RETURN
  else TOK_IDENT.

Definition lex_identifier (lx : Lexer) : Token * Lexer :=
  let l2 := advance_while (fun l => is_ident_char (peek l)) lx in
  let text := firstn (lx_pos l2 - lx_pos lx) (lx_rest lx) in
  (token_to (keyword_kind text) lx l2, l2).

Definition is_hex_digit (c : ascii) : bool :=
  isdigit c || ((97 <=? code c)%Z && (code c <=? 102)%Z) || ((65 <=? code c)%Z && (code c <=? 70)%Z).

Definition is_x (n : ascii) : bool := Ascii.eqb n "x" || Ascii.eqb n "X".
Definition is_b (n : ascii) : bool := Ascii.eqb n "b" || Ascii.eqb n "B".
Definition is_o (n : ascii) : bool := Ascii.eqb n "o" || Ascii.eqb n "O".

Definition base_digit_ok (n c : ascii) : bool :=
  if is_x n then is_hex_digit c
  else if is_b n then Ascii.eqb c "0" || Ascii.eqb c "1"
  else (48 <=? code c)%Z && (code c <=? 55)%Z.

Definition digit_or_sep (c : ascii) : bool := isdigit c || Ascii.eqb c "_".

Definition lex_number (lx : Lexer) : Token * Lexer :=
  let n := peek_next lx in
  if Ascii.eqb (peek lx) "0" && (is_x n || is_b n || is_o n) then
    let l2 := advance (advance lx) in
    let l3 := advance_while (fun l => base_digit_ok n (peek l) || Ascii.eqb (peek l) "_") l2 in
    (token_to TOK_NUMBER lx l3, l3)
  else
    let l2 := advance_while (fun l => digit_or_sep (peek l)) lx in
    let l3 :=
      if Ascii.eqb (peek l2) "." && isdigit (peek_next l2) then
        advance_while (fun l => digit_or_sep (peek l)) (advance l2)
      else l2 in
    (token_to TOK_NUMBER lx l3, l3).

(** The two quote characters. *)
Definition QUOTE : ascii := "039"%char.
Definition DQUOTE : ascii := "034"%char.

Definition escape_value (escaped : ascii) : Z :=
  if Ascii.eqb escaped "n" then 10
  else if Ascii.eqb escaped "t" then 9
  else if Ascii.eqb escaped "r" then 13
  else if Ascii.eqb escaped "\" then 92
  else if Ascii.eqb escaped QUOTE then 39
  else s8 (code escaped).

Definition set_int_val (t : Token) (v : Z) : Token :=
  mkToken (tok_kind t) (tok_start t) (tok_length t) (tok_line t) (tok_column t) v (tok_leading t).

(** The closing quote of a character literal whose value is known. *)
Definition lex_char_close (lx l : Lexer) (char_value : Z) : Token * Lexer :=
  if negb (Ascii.eqb (peek l) QUOTE) then
    (error_token "Unterminated character literal" (lx_line lx) (lx_column lx), l)
  else
    let l2 := advance l in
    (set_int_val (token_to TOK_CHAR_LIT lx l2) char_value, l2).

Definition lex_char_lit (lx : Lexer) : Token * Lexer :=
  let l1 := advance lx in
  if Ascii.eqb (peek l1) "\" then
    let l2 := advance l1 in
    if negb (is_at_end l2) then lex_char_close lx (advance l2) (escape_value (peek l2))
    else lex_char_close lx l2 0
  else if negb (Ascii.eqb (peek l1) QUOTE) && negb (is_at_end l1) then
    lex_char_close lx (advance l1) (s8 (code (peek l1)))
  else (error_token "Empty character literal" (lx_line lx) (lx_column lx), l1).

Fixpoint string_loop (fuel : nat) (lx : Lexer) : Lexer :=
  match fuel with
  | O => lx
  | S f =>
      if negb (Ascii.eqb (peek lx) DQUOTE) && negb (is_at_end lx) then
        if Ascii.eqb (peek lx) "\" && negb (is_at_end lx) then
          let l1 := advance lx in
          string_loop f (if negb (is_at_end l1) then advance l1 else l1)
        else string_loop f (advance lx)
      else lx
  end.

Definition lex_string (lx : Lexer) : Token * Lexer :=
  let l1 := advance lx in
  let l2 := string_loop (S (List.length (lx_rest l1))) l1 in
  if is_at_end l2 then (error_token "Unterminated string" (lx_line lx) (lx_column lx), l2)
  else
    let l3 := advance l2 in
    (token_to TOK_STRING lx l3, l3).

(** ** The tokenizer's entry points *)

Definition lexer_init (src : cstr) : Lexer := mkLexer src 0 src 1 1 [].

Definition directive_kind (word : cstr) : TokenKind :=
  if text_is word "import" then TOK_USE
  else if text_is word "each_field" then TOK_EACH_FIELD
  else if text_is word "module" then TOK_HASH_MODULE
  else if text_is word "file" then TOK_HASH_FILE
  else if text_is word "foreign" then TOK_HASH_FOREIGN
  else if text_is word "link" then TOK_HASH_LINK
  else if text_is word "cflags" then TOK_HASH_CFLAGS
  else if text_is word "run" then TOK_HASH_RUN
  else TOK_HASH.

(** The [#] case: [lx] is before the [#] and [l1] after it. *)
Definition lex_directive (lx l1 : Lexer) : Token * Lexer :=
  let l2 := advance_while (fun l => is_ident_char (peek l)) l1 in
  let word := firstn (lx_pos l2 - lx_pos l1) (lx_rest l1) in
  (token_to (directive_kind word) lx l2, l2).

(** The token of [length] characters that starts where [lx] is. *)
Definition tok_at (kind : TokenKind) (length : nat) (lx : Lexer) : Token :=
  make_token kind (lx_pos lx) length (lx_line lx) (lx_column lx).

(** One character, or two when [next] follows. *)
Definition one_or_two (next : ascii) (k2 k1 : TokenKind) (lx l1 : Lexer) : Token * Lexer :=
  if Ascii.eqb (peek l1) next then let l2 := advance l1 in (tok_at k2 2 lx, l2)
  else (tok_at k1 1 lx, l1).

(** [cur += 2; column += 2;] over two characters known not to be newlines. *)
Definition skip2 (l : Lexer) : Lexer :=
  mkLexer (lx_src l) (lx_pos l + 2) (skipn 2 (lx_rest l)) (lx_line l) (lx_column l + 2) (lx_pending l).

(** The [switch (c)] of [lexer_next_token]; [lx] is the state before [c], [l1] after it. *)
Definition lex_operator (c : ascii) (lx l1 : Lexer) : Token * Lexer :=
  let one k := (tok_at k 1 lx, l1) in
  let err m := (error_token m (lx_line lx) (lx_column lx), l1) in
  if Ascii.eqb c "(" then one TOK_LPAREN
  else if Ascii.eqb c ")" then one TOK_RPAREN
  else if Ascii.eqb c "{" then one TOK_LBRACE
  else if Ascii.eqb c "}" then one TOK_RBRACE
  else if Ascii.eqb c "[" then one TOK_LBRACKET
  else if Ascii.eqb c "]" then one TOK_RBRACKET
  else if Ascii.eqb c "," then one TOK_COMMA
  else if Ascii.eqb c "." then
    if Ascii.eqb (nth 0 (lx_rest l1) NUL) "." && Ascii.eqb (nth 1 (lx_rest l1) NUL) "." then
      let l2 := skip2 l1 in (tok_at TOK_DOTDOTDOT 3 lx, l2)
    else one TOK_DOT
  else if Ascii.eqb c ":" then one TOK_COLON
  else if Ascii.eqb c ";" then one TOK_SEMI
  else if Ascii.eqb c "@" then one TOK_AT
  else if Ascii.eqb c "?" then one TOK_QUESTION
  else if Ascii.eqb c "#" then lex_directive lx l1
  else if Ascii.eqb c "+" then one_or_two "=" TOK_PLUS_EQ TOK_PLUS lx l1
  else if Ascii.eqb c "-" then
    if Ascii.eqb (peek l1) ">" then let l2 := advance l1 in (tok_at TOK_ARROW 2 lx, l2)
    else one_or_two "=" TOK_MINUS_EQ TOK_MINUS lx l1
  else if Ascii.eqb c "*" then one_or_two "=" TOK_STAR_EQ TOK_STAR lx l1
  else if Ascii.eqb c "/" then one_or_two "=" TOK_SLASH_EQ TOK_SLASH lx l1
  else if Ascii.eqb c "%" then one_or_two "=" TOK_PERCENT_EQ TOK_PERCENT lx l1
  else if Ascii.eqb c "=" then one_or_two "=" TOK_EQ_EQ TOK_EQ lx l1
  else if Ascii.eqb c "!" then one_or_two "=" TOK_BANG_EQ TOK_BANG lx l1
  else if Ascii.eqb c "<" then one_or_two "=" TOK_LT_EQ TOK_LT lx l1
  else if Ascii.eqb c ">" then one_or_two "=" TOK_GT_EQ TOK_GT lx l1
  else if Ascii.eqb c "&" then
    if Ascii.eqb (peek l1) "&" then let l2 := advance l1 in (tok_at TOK_AMP_AMP 2 lx, l2)
    else err "unexpected character (did you mean `&&`?)"%string
  else if Ascii.eqb c "|" then
    if Ascii.eqb (peek l1) "|" then let l2 := advance l1 in (tok_at TOK_PIPE_PIPE 2 lx, l2)
    else if Ascii.eqb (peek l1) ">" then let l2 := advance l1 in (tok_at TOK_PIPE_GT 2 lx, l2)
    else err "unexpected character (did you mean `||` or `|>`?)"%string
  else err "unexpected character"%string.

Definition lexer_next_token (lexer : Lexer) : Token * Lexer :=
  match lx_pending lexer with
  | tok :: pending =>
      (tok, mkLexer (lx_src lexer) (lx_pos lexer) (lx_rest lexer) (lx_line lexer) (lx_column lexer) pending)
  | [] =>
      let lx := skip_whitespace lexer in
      if is_at_end lx then (tok_at TOK_EOF 0 lx, lx)
      else if Ascii.eqb (peek lx) "/" && Ascii.eqb (peek_next lx) "*" then lex_block_comment lx
      else if Ascii.eqb (peek lx) "/" && Ascii.eqb (peek_next lx) "/" then lex_comment lx
      else
        let c := peek lx in
        let l1 := advance lx in
        if is_ident_start c then lex_identifier (step_back c l1)
        else if isdigit c then lex_number (step_back c l1)
        else if Ascii.eqb c DQUOTE then lex_string (step_back c l1)
        else if Ascii.eqb c QUOTE then lex_char_lit (step_back c l1)
        else lex_operator c lx l1
  end.

Definition token_kind_name (kind : TokenKind) : string :=
  match kind with
  | TOK_EOF => "TOK_EOF"
  | TOK_ERROR => "TOK_ERROR"
  | TOK_IDENT => "TOK_IDENT"
  | TOK_NUMBER => "TOK_NUMBER"
  | TOK_STRING => "TOK_STRING"
  | TOK_COMMENT => "TOK_COMMENT"
  | TOK_ARCHETYPE => "TOK_ARCHETYPE"
  | TOK_PROC => "TOK_PROC"
  | TOK_MAP => "TOK_MAP"
  | TOK_SYSTEM => "TOK_SYSTEM"
  | TOK_QUERY => "TOK_QUERY"
  | TOK_FUNC => "TOK_FUNC"
  | TOK_POLICY => "TOK_POLICY"
  | TOK_ENUM => "TOK_ENUM"
  | TOK_MATCH => "TOK_MATCH"
  | TOK_LET => "TOK_LET"
  | TOK_FOR => "TOK_FOR"
  | TOK_IF => "TOK_IF"
  | TOK_IN => "TOK_IN"
  | TOK_BREAK => "TOK_BREAK"
  | TOK_CONTINUE => "TOK_CONTINUE"
  | TOK_MOVE => "TOK_MOVE"
  | TOK_OWN => "TOK_OWN"
  | TOK_COPY => "TOK_COPY"
  | TOK_ALIAS => "TOK_ALIAS"
  | TOK_RETURN => "TOK_RETURN"
  | TOK_EACH_FIELD => "TOK_EACH_FIELD"
  | TOK_CHAR_LIT => "TOK_CHAR_LIT"
  | TOK_LPAREN => "TOK_LPAREN"
  | TOK_RPAREN => "TOK_RPAREN"
  | TOK_LBRACE => "TOK_LBRACE"
  | TOK_RBRACE => "TOK_RBRACE"
  | TOK_LBRACKET => "TOK_LBRACKET"
  | TOK_RBRACKET => "TOK_RBRACKET"
  | TOK_COMMA => "TOK_COMMA"
  | TOK_DOT => "TOK_DOT"
  | TOK_DOTDOTDOT => "TOK_DOTDOTDOT"
  | TOK_COLON => "TOK_COLON"
  | TOK_SEMI => "TOK_SEMI"
  | TOK_AT => "TOK_AT"
  | TOK_HASH => "TOK_HASH"
  | TOK_HASH_MODULE => "TOK_HASH_MODULE"
  | TOK_HASH_FILE => "TOK_HASH_FILE"
  | TOK_HASH_FOREIGN => "TOK_HASH_FOREIGN"
  | TOK_HASH_LINK => "TOK_HASH_LINK"
  | TOK_HASH_CFLAGS => "TOK_HASH_CFLAGS"
  | TOK_HASH_RUN => "TOK_HASH_RUN"
  | TOK_EQ => "TOK_EQ"
  | TOK_PLUS_EQ => "TOK_PLUS_EQ"
  | TOK_MINUS_EQ => "TOK_MINUS_EQ"
  | TOK_STAR_EQ => "TOK_STAR_EQ"
  | TOK_SLASH_EQ => "TOK_SLASH_EQ"
  | TOK_PERCENT_EQ => "TOK_PERCENT_EQ"
  | TOK_PLUS => "TOK_PLUS"
  | TOK_MINUS => "TOK_MINUS"
  | TOK_STAR => "TOK_STAR"
  | TOK_SLASH => "TOK_SLASH"
  | TOK_PERCENT => "TOK_PERCENT"
  | TOK_EQ_EQ => "TOK_EQ_EQ"
  | TOK_BANG_EQ => "TOK_BANG_EQ"
  | TOK_LT => "TOK_LT"
  | TOK_GT => "TOK_GT"
  | TOK_LT_EQ => "TOK_LT_EQ"
  | TOK_GT_EQ => "TOK_GT_EQ"
  | TOK_AMP_AMP => "TOK_AMP_AMP"
  | TOK_PIPE_PIPE => "TOK_PIPE_PIPE"
  | TOK_ARROW => "TOK_ARROW"
  | TOK_BANG => "TOK_BANG"
  | TOK_QUESTION => "TOK_QUESTION"
  | _ => "TOK_UNKNOWN"
  end.

Definition kind_is (k : TokenKind) (t : Token) : bool := TokenKind_beq (tok_kind t) k.

(** [lexer_tokenize]'s loop: append tokens up to and including [TOK_EOF]. Every other token
    consumes a character, so [S (length src)] rounds are enough ([lexer_tokenize_complete]). *)
Fixpoint tokenize_loop (fuel : nat) (lx : Lexer) : option (list Token * Lexer) :=
  match fuel with
  | O => None
  | S f =>
      let (tok, lx') := lexer_next_token lx in
      if kind_is TOK_EOF tok then Some ([tok], lx')
      else option_map (fun '(ts, l) => (tok :: ts, l)) (tokenize_loop f lx')
  end.

Definition lexer_tokenize (src : cstr) : option (list Token) :=
  option_map fst (tokenize_loop (S (List.length src)) (lexer_init src)).

(** ** Integer literals *)

Definition digit_value (c : ascii) : option Z :=
  if (48 <=? code c)%Z && (code c <=? 57)%Z then Some (code c - 48)%Z
  else if (97 <=? code c)%Z && (code c <=? 102)%Z then Some (code c - 97 + 10)%Z
  else if (65 <=? code c)%Z && (code c <=? 70)%Z then Some (code c - 65 + 10)%Z
  else None.

(** The digit loop: the unsigned accumulator [v] and the flag [any]. *)
Fixpoint int_lit_digits (base : Z) (p : cstr) (v : Z) (any : bool) : option (Z * bool) :=
  match p with
  | [] => Some (v, any)
  | c :: p' =>
      if Ascii.eqb c "_" then int_lit_digits base p' v any
      else
        match digit_value c with
        | None => None
        | Some d =>
            if (base <=? d)%Z then None
            else int_lit_digits base p' (u64 (v * base + d)) true
        end
  end.

(** [base] and the text after its prefix. *)
Definition int_lit_base (p : cstr) : Z * cstr :=
  if Ascii.eqb (nth 0 p NUL) "0" && is_x (nth 1 p NUL) then (16%Z, skipn 2 p)
  else if Ascii.eqb (nth 0 p NUL) "0" && is_b (nth 1 p NUL) then (2%Z, skipn 2 p)
  else if Ascii.eqb (nth 0 p NUL) "0" && is_o (nth 1 p NUL) then (8%Z, skipn 2 p)
  else (10%Z, p).

(** The negation of the least [long long], undefined in C, is given its two's-complement value. *)
Definition arche_int_lit (lex : cstr) : option Z :=
  match lex with
  | [] => None
  | c :: lex' =>
      let neg := Ascii.eqb c "-" in
      let p := if Ascii.eqb c "+" || neg then lex' else lex in
      let (base, digits) := int_lit_base p in
      match int_lit_digits base digits 0 false with
      | Some (v, true) => Some (if neg then s64 (- s64 v) else s64 v)
      | _ => None
      end
  end.
