(* ===== verification/LexerFacts.v ===== *)
(** * What the lexer guarantees

    Progress, exact source spans, line and column numbers, gaps made of blanks only,
    completeness of [lexer_tokenize], and the value [arche_int_lit] decodes. *)

From S2P Require Import Prelude Lexer.


(** The line and column after reading a text. *)
Definition upd (c : ascii) (lc : Z * Z) : Z * Z :=
  if Ascii.eqb c NL then (fst lc + 1, 1)%Z else (fst lc, snd lc + 1)%Z.

Definition updates (txt : cstr) (lc : Z * Z) : Z * Z := fold_left (fun p c => upd c p) txt lc.

(** [lx'] is [lx] after reading [txt]. *)
Record spans (lx : Lexer) (txt : cstr) (lx' : Lexer) : Prop := mkSpans {
  sp_rest : lx_rest lx = txt ++ lx_rest lx';
  sp_pos : lx_pos lx' = lx_pos lx + List.length txt;
  sp_lc : (lx_line lx', lx_column lx') = updates txt (lx_line lx, lx_column lx);
  sp_src : lx_src lx' = lx_src lx;
  sp_pending : lx_pending lx' = lx_pending lx;
  sp_text : ~ In NUL txt
}.

(** ** Cursor lemmas *)

Lemma spans_refl lx : spans lx [] lx.
Proof. constructor; cbn; auto. Qed.

Lemma spans_trans lx a lx1 b lx2 : spans lx a lx1 -> spans lx1 b lx2 -> spans lx (a ++ b) lx2.
Proof.
  intros [R1 P1 L1 S1 N1 T1] [R2 P2 L2 S2 N2 T2]. constructor.
  - now rewrite R1, R2, app_assoc.
  - rewrite length_app; lia.
  - unfold updates in *. rewrite fold_left_app, <- L1. exact L2.
  - congruence.
  - congruence.
  - rewrite in_app_iff; tauto.
Qed.

Lemma spans_advance lx : peek lx <> NUL -> spans lx [peek lx] (advance lx).
Proof.
  destruct lx as [s p r l c pe]. unfold advance, peek. cbn. destruct r as [|x r]; [congruence|].
  intros Hx. destruct (Ascii.eqb_spec x NUL) as [|_]; [congruence|].
  destruct (Ascii.eqb_spec x NL) as [->|n]; constructor; cbn; try lia; auto;
    try (intuition congruence); unfold upd; cbn.
  now destruct (Ascii.eqb_spec x NL).
Qed.

Lemma advance_at_end lx : is_at_end lx = true -> advance lx = lx.
Proof. unfold is_at_end, advance. now intros ->. Qed.

Lemma not_at_end lx : is_at_end lx = false -> peek lx <> NUL.
Proof. unfold is_at_end. intros H%Ascii.eqb_neq; auto. Qed.

Lemma advance_spans_any lx : exists txt, spans lx txt (advance lx).
Proof.
  destruct (is_at_end lx) eqn:E.
  - exists []. rewrite advance_at_end by auto. apply spans_refl.
  - exists [peek lx]. now apply spans_advance, not_at_end.
Qed.

Lemma advance_shorter lx : peek lx <> NUL -> List.length (lx_rest (advance lx)) < List.length (lx_rest lx).
Proof. intros H. destruct (spans_advance lx H) as [R _ _ _ _ _]. rewrite R. cbn. lia. Qed.

Lemma peek_rest lx : peek lx <> NUL -> exists r, lx_rest lx = peek lx :: r.
Proof. unfold peek. destruct (lx_rest lx); [congruence|eauto]. Qed.

Lemma step_back_advance lx c r :
  lx_rest lx = c :: r -> c <> NUL -> c <> NL -> step_back c (advance lx) = lx.
Proof.
  destruct lx as [s p r' l k pe]. cbn. intros -> H1 H2. unfold advance, step_back, peek. cbn.
  rewrite (proj2 (Ascii.eqb_neq c NUL) H1), (proj2 (Ascii.eqb_neq c NL) H2). cbn.
  f_equal; lia.
Qed.

(** ** Loops *)

Lemma loop_spans fuel cond lx :
  exists txt, spans lx txt (loop fuel cond lx).
Proof.
  revert lx; induction fuel as [|f IH]; intros lx; cbn; [exists []; apply spans_refl|].
  destruct (cond lx); [|exists []; apply spans_refl].
  destruct (advance_spans_any lx) as [a Ha], (IH (advance lx)) as [b Hb].
  exists (a ++ b). eapply spans_trans; eauto.
Qed.

Lemma advance_while_spans cond lx : exists txt, spans lx txt (advance_while cond lx).
Proof. apply loop_spans. Qed.

(** A loop whose condition fails at the terminator stops within its fuel. *)
Lemma loop_exit fuel cond lx :
  (forall l, is_at_end l = true -> cond l = false) ->
  List.length (lx_rest lx) < fuel -> cond (loop fuel cond lx) = false.
Proof.
  intros Hend; revert lx; induction fuel as [|f IH]; intros lx Hf; [lia|]. cbn.
  destruct (cond lx) eqn:E; [|exact E].
  apply IH. assert (is_at_end lx = false) as H.
  { destruct (is_at_end lx) eqn:E'; auto. rewrite Hend in E by auto. discriminate. }
  apply not_at_end, advance_shorter in H. lia.
Qed.

Lemma advance_while_exit cond lx :
  (forall l, is_at_end l = true -> cond l = false) -> cond (advance_while cond lx) = false.
Proof. intros H. apply loop_exit; auto. Qed.

(** When the condition looks at the current character only, the text read satisfies it. *)
Lemma advance_while_text p lx txt :
  spans lx txt (advance_while (fun l => p (peek l)) lx) -> p NUL = false ->
  Forall (fun c => p c = true) txt.
Proof.
  intros Hs Hn. unfold advance_while in Hs.
  remember (S (List.length (lx_rest lx))) as fuel eqn:Hf. clear Hf. revert lx txt Hs.
  induction fuel as [|f IH]; intros lx txt; cbn.
  - intros [R _ _ _ _ _]. assert (txt = []) as ->; [|constructor].
    apply (f_equal (@List.length _)) in R. rewrite length_app in R. destruct txt; cbn in R; [auto|lia].
  - destruct (p (peek lx)) eqn:E; intros Hs.
    + assert (peek lx <> NUL) as Hp by (intros H; rewrite H in E; congruence).
      destruct (loop_spans f (fun l => p (peek l)) (advance lx)) as [b Hb].
      pose proof (IH _ _ Hb) as Fb.
      pose proof (spans_trans _ _ _ _ _ (spans_advance _ Hp) Hb) as Hab.
      assert (txt = [peek lx] ++ b) as ->.
      { destruct Hs as [R1 _ _ _ _ _], Hab as [R2 _ _ _ _ _]. rewrite R1 in R2.
        now apply app_inv_tail in R2. }
      constructor; auto.
    + destruct Hs as [R _ _ _ _ _]. assert (txt = []) as ->; [|constructor].
      apply (f_equal (@List.length _)) in R. rewrite length_app in R. destruct txt; cbn in R; [auto|lia].
Qed.

Lemma block_comment_loop_spans fuel lx : exists txt, spans lx txt (block_comment_loop fuel lx).
Proof.
  revert lx; induction fuel as [|f IH]; intros lx; cbn; [exists []; apply spans_refl|].
  destruct (is_at_end lx); [exists []; apply spans_refl|].
  destruct (advance_spans_any lx) as [a Ha].
  destruct (_ && _).
  - destruct (advance_spans_any (advance lx)) as [b Hb]. exists (a ++ b). eapply spans_trans; eauto.
  - destruct (IH (advance lx)) as [b Hb]. exists (a ++ b). eapply spans_trans; eauto.
Qed.

Lemma string_loop_spans fuel lx : exists txt, spans lx txt (string_loop fuel lx).
Proof.
  revert lx; induction fuel as [|f IH]; intros lx; cbn; [exists []; apply spans_refl|].
  destruct (_ && _); [|exists []; apply spans_refl].
  destruct (advance_spans_any lx) as [a Ha].
  destruct (_ && _).
  - destruct (negb _).
    + destruct (advance_spans_any (advance lx)) as [b Hb], (IH (advance (advance lx))) as [c Hc].
      exists (a ++ b ++ c). eauto using spans_trans.
    + destruct (IH (advance lx)) as [c Hc]. exists (a ++ c). eauto using spans_trans.
  - destruct (IH (advance lx)) as [c Hc]. exists (a ++ c). eauto using spans_trans.
Qed.

(** ** One token *)

(** [tok] describes the text [txt] read from [lx]: it starts there and is as long, unless it
    is an error token, whose pointer and length are its message's. *)
Definition describes (lx : Lexer) (txt : cstr) (tok : Token) : Prop :=
  tok_line tok = lx_line lx /\ tok_column tok = lx_column lx /\ tok_kind tok <> TOK_EOF /\
  (tok_kind tok <> TOK_ERROR -> tok_start tok = InSrc (lx_pos lx) /\ tok_length tok = List.length txt).

(** A scanning routine called at [lx] reads a non-empty text and returns its token. *)
Definition scanned (lx : Lexer) (r : Token * Lexer) : Prop :=
  exists txt, txt <> [] /\ spans lx txt (snd r) /\ describes lx txt (fst r).

Lemma spans_first lx txt lx' : peek lx <> NUL -> spans (advance lx) txt lx' -> spans lx (peek lx :: txt) lx'.
Proof. intros H. apply (spans_trans _ [peek lx]). now apply spans_advance. Qed.

Lemma advance_while_first cond lx :
  cond lx = true -> peek lx <> NUL ->
  exists txt, txt <> [] /\ spans lx txt (advance_while cond lx).
Proof.
  intros Hc Hp. unfold advance_while. cbn. rewrite Hc.
  destruct (loop_spans (List.length (lx_rest lx)) cond (advance lx)) as [b Hb].
  exists (peek lx :: b). split; [discriminate|]. now apply spans_first.
Qed.

Lemma describes_token_to k lx txt lx' :
  spans lx txt lx' -> k <> TOK_EOF -> describes lx txt (token_to k lx lx').
Proof.
  intros [_ P _ _ _ _] Hk. repeat split; cbn; auto. rewrite P. f_equal. lia.
Qed.

Lemma describes_tok_at k lx txt n :
  k <> TOK_EOF -> n = List.length txt -> describes lx txt (tok_at k n lx).
Proof. intros Hk ->. repeat split; cbn; auto. Qed.

Lemma describes_error lx txt m : describes lx txt (error_token m (lx_line lx) (lx_column lx)).
Proof. unfold describes. cbn. intuition congruence. Qed.

#[export] Hint Resolve describes_token_to describes_error spans_refl : arche.
#[export] Hint Extern 1 (_ <> _) => discriminate : arche.

(** Two or more successive advances from a character that is not the terminator. *)
Ltac spans_of l :=
  lazymatch l with
  | advance ?l0 =>
      let a := fresh "a" in let Ha := fresh "Ha" in destruct (advance_spans_any l0) as [a Ha]; spans_of l0
  | advance_while ?c ?l0 =>
      let a := fresh "a" in let Ha := fresh "Ha" in destruct (advance_while_spans c l0) as [a Ha]; spans_of l0
  | block_comment_loop ?f ?l0 =>
      let a := fresh "a" in let Ha := fresh "Ha" in destruct (block_comment_loop_spans f l0) as [a Ha]; spans_of l0
  | string_loop ?f ?l0 =>
      let a := fresh "a" in let Ha := fresh "Ha" in destruct (string_loop_spans f l0) as [a Ha]; spans_of l0
  | _ => idtac
  end.

(** A scanner that starts with [advance] from a real character and ends at [l]. *)
Lemma scanned_intro lx txt (r : Token * Lexer) :
  peek lx <> NUL -> spans (advance lx) txt (snd r) -> describes lx (peek lx :: txt) (fst r) -> scanned lx r.
Proof. intros Hp Hs Hd. exists (peek lx :: txt). split; [discriminate|split; auto]. now apply spans_first. Qed.

Lemma lex_comment_scanned lx : peek lx <> NUL -> scanned lx (lex_comment lx).
Proof.
  intros Hp. unfold lex_comment. cbv zeta.
  match goal with |- scanned _ (_, ?l) => spans_of l end.
  eapply scanned_intro; cbn [fst snd]; eauto using spans_trans, spans_first with arche.
Qed.

Lemma lex_block_comment_scanned lx : peek lx <> NUL -> scanned lx (lex_block_comment lx).
Proof.
  intros Hp. unfold lex_block_comment. cbv zeta.
  match goal with |- scanned _ (_, ?l) => spans_of l end.
  eapply scanned_intro; cbn [fst snd]; eauto using spans_trans, spans_first with arche.
Qed.

Lemma lex_string_scanned lx : peek lx <> NUL -> scanned lx (lex_string lx).
Proof.
  intros Hp. unfold lex_string. cbv zeta. destruct (is_at_end _).
  - match goal with |- scanned _ (_, ?l) => spans_of l end.
    eapply scanned_intro; cbn [fst snd]; eauto with arche.
  - match goal with |- scanned _ (_, ?l) => spans_of l end.
    eapply scanned_intro; cbn [fst snd]; eauto using spans_trans, spans_first with arche.
Qed.

Lemma lex_char_close_scanned lx l v txt :
  peek lx <> NUL -> spans (advance lx) txt l -> scanned lx (lex_char_close lx l v).
Proof.
  intros Hp Hs. unfold lex_char_close. destruct (negb _); cbv zeta.
  - eapply scanned_intro; cbn [fst snd]; eauto with arche.
  - destruct (advance_spans_any l) as [a Ha]. eapply scanned_intro; cbn [fst snd]; eauto using spans_trans.
    assert (describes lx (peek lx :: txt ++ a) (token_to TOK_CHAR_LIT lx (advance l))) as D
      by (eauto using spans_trans, spans_first with arche).
    unfold describes in *. cbn in *. intuition.
Qed.

Lemma lex_char_lit_scanned lx : peek lx <> NUL -> scanned lx (lex_char_lit lx).
Proof.
  intros Hp. unfold lex_char_lit. cbv zeta.
  repeat match goal with |- context [if ?b then _ else _] => destruct b end;
    try (match goal with |- scanned _ (lex_char_close _ ?l _) => spans_of l end;
         eapply lex_char_close_scanned; eauto using spans_refl, spans_trans).
  eapply scanned_intro; cbn [fst snd]; eauto with arche.
Qed.

Lemma keyword_kind_not_end t : keyword_kind t <> TOK_EOF.
Proof. unfold keyword_kind. repeat case_goal; discriminate. Qed.

Lemma directive_kind_not_end t : directive_kind t <> TOK_EOF.
Proof. unfold directive_kind. repeat case_goal; discriminate. Qed.

Lemma ident_char_not_nul c : is_ident_char c = true -> c <> NUL.
Proof. intros H ->. discriminate. Qed.

Lemma lex_identifier_scanned lx : is_ident_char (peek lx) = true -> scanned lx (lex_identifier lx).
Proof.
  intros Hc. unfold lex_identifier. cbv zeta.
  destruct (advance_while_first (fun l => is_ident_char (peek l)) lx Hc) as (txt & Hne & Hs);
    [now apply ident_char_not_nul|].
  exists txt. cbn [fst snd]. eauto using keyword_kind_not_end with arche.
Qed.

Lemma lex_number_scanned lx : isdigit (peek lx) = true -> scanned lx (lex_number lx).
Proof.
  intros Hd. assert (peek lx <> NUL) as Hp by (intros H; rewrite H in Hd; discriminate).
  unfold lex_number. cbv zeta. case_if.
  - match goal with |- scanned _ (_, ?l) => spans_of l end.
    eapply scanned_intro; cbn [fst snd]; eauto using spans_trans, spans_first with arche.
  - destruct (advance_while_first (fun l => digit_or_sep (peek l)) lx) as (txt & Hne & Hs); auto.
    { unfold digit_or_sep. now rewrite Hd. }
    case_if.
    + set (l2 := advance_while _ lx) in *.
      destruct (advance_spans_any l2) as [a Ha].
      destruct (advance_while_spans (fun l => digit_or_sep (peek l)) (advance l2)) as [b Hb].
      exists (txt ++ a ++ b). cbn [fst snd]. split; [destruct txt; [congruence|discriminate]|].
      split; [eauto using spans_trans|]. apply describes_token_to; eauto using spans_trans with arche.
    + exists txt. cbn [fst snd]. eauto with arche.
Qed.

Lemma one_scanned lx k : peek lx <> NUL -> k <> TOK_EOF -> scanned lx (tok_at k 1 lx, advance lx).
Proof.
  intros Hp Hk. eapply (scanned_intro _ []); cbn [fst snd]; auto using describes_tok_at with arche.
Qed.

Lemma two_scanned lx k :
  peek lx <> NUL -> peek (advance lx) <> NUL -> k <> TOK_EOF ->
  scanned lx (tok_at k 2 lx, advance (advance lx)).
Proof.
  intros Hp Hq Hk. eapply (scanned_intro _ [peek (advance lx)]); cbn [fst snd];
    auto using describes_tok_at, spans_advance.
Qed.

Lemma error_scanned lx m :
  peek lx <> NUL -> scanned lx (error_token m (lx_line lx) (lx_column lx), advance lx).
Proof. intros Hp. eapply (scanned_intro _ []); cbn [fst snd]; auto with arche. Qed.

Lemma peek_is_not_nul l c : Ascii.eqb (peek l) c = true -> c <> NUL -> peek l <> NUL.
Proof. intros ->%Ascii.eqb_eq; auto. Qed.

Lemma one_or_two_scanned c k2 k1 lx :
  peek lx <> NUL -> c <> NUL -> k1 <> TOK_EOF -> k2 <> TOK_EOF ->
  scanned lx (one_or_two c k2 k1 lx (advance lx)).
Proof.
  intros. unfold one_or_two. case_if; eauto using one_scanned, two_scanned, peek_is_not_nul.
Qed.

Lemma skip2_spans l :
  Ascii.eqb (nth 0 (lx_rest l) NUL) "." && Ascii.eqb (nth 1 (lx_rest l) NUL) "." = true ->
  spans l (lit "..") (skip2 l).
Proof.
  destruct l as [s p r li co pe]. cbn [lx_rest]. intros H. bool_hyps.
  destruct r as [|a [|b r]]; cbn [nth] in *; try discriminate.
  apply Ascii.eqb_eq in H, H0. subst. constructor; cbn; auto; [f_equal; lia|intuition discriminate].
Qed.

Lemma lex_directive_scanned lx : peek lx <> NUL -> scanned lx (lex_directive lx (advance lx)).
Proof.
  intros Hp. unfold lex_directive. cbv zeta.
  match goal with |- scanned _ (_, ?l) => spans_of l end.
  eapply scanned_intro; cbn [fst snd];
    eauto using spans_trans, spans_first, directive_kind_not_end with arche.
Qed.

#[export] Hint Resolve one_scanned two_scanned error_scanned one_or_two_scanned lex_directive_scanned
  peek_is_not_nul : arche.

Lemma lex_operator_scanned lx c : peek lx <> NUL -> scanned lx (lex_operator c lx (advance lx)).
Proof.
  intros Hp. unfold lex_operator. cbv zeta.
  repeat case_if; try solve [eauto with arche].
  (* the ellipsis *)
  eapply (scanned_intro _ (lit "..")); cbn [fst snd]; auto using skip2_spans, describes_tok_at with arche.
Qed.

(** What one call of [lexer_next_token] does: it skips blanks [gap], reads [txt], and returns
    the token of [txt]; [txt] is empty at the end of the source only. *)
Record next_spec (lx : Lexer) (tok : Token) (lx' : Lexer) (gap txt : cstr) (mid : Lexer) : Prop := mkNext {
  nx_gap : spans lx gap mid;
  nx_blank : Forall (fun c => is_blank c = true) gap;
  nx_text : spans mid txt lx';
  nx_line : tok_line tok = lx_line mid;
  nx_column : tok_column tok = lx_column mid;
  nx_src : tok_kind tok <> TOK_ERROR -> tok_start tok = InSrc (lx_pos mid) /\ tok_length tok = List.length txt;
  nx_eof : tok_kind tok = TOK_EOF -> txt = [] /\ is_at_end mid = true;
  nx_progress : tok_kind tok <> TOK_EOF -> txt <> [];
  nx_start : is_blank (peek mid) = false
}.

Lemma skip_whitespace_spans lx :
  exists gap, spans lx gap (skip_whitespace lx) /\ Forall (fun c => is_blank c = true) gap.
Proof.
  destruct (advance_while_spans (fun l => is_blank (peek l)) lx) as [g Hg].
  exists g. split; [exact Hg|]. now apply (advance_while_text is_blank lx).
Qed.

Lemma skip_whitespace_exit lx : is_blank (peek (skip_whitespace lx)) = false.
Proof.
  apply (advance_while_exit (fun l => is_blank (peek l))).
  unfold is_at_end. now intros l ->%Ascii.eqb_eq.
Qed.

Lemma scanned_next lx gap mid r :
  spans lx gap mid -> Forall (fun c => is_blank c = true) gap -> is_blank (peek mid) = false -> scanned mid r ->
  exists txt, next_spec lx (fst r) (snd r) gap txt mid.
Proof.
  intros Hg Hb Hx (txt & Hne & Hs & Hl & Hc & Hk & Ht). exists txt. constructor; auto. contradiction.
Qed.

Lemma next_token_spec lx :
  lx_pending lx = [] ->
  exists gap txt mid, next_spec lx (fst (lexer_next_token lx)) (snd (lexer_next_token lx)) gap txt mid.
Proof.
  intros Hpe. unfold lexer_next_token. rewrite Hpe. cbv zeta.
  destruct (skip_whitespace_spans lx) as (gap & Hg & Hb).
  pose proof (skip_whitespace_exit lx) as Hx. set (mid := skip_whitespace lx) in *.
  exists gap.
  match goal with |- context [fst ?r] =>
    enough (exists txt, next_spec lx (fst r) (snd r) gap txt mid) as [txt H] by eauto end.
  destruct (is_at_end mid) eqn:Eend.
  { exists []. constructor; cbn; auto using spans_refl; congruence. }
  apply not_at_end in Eend.
  apply scanned_next; auto.
  case_if; [now apply lex_block_comment_scanned|].
  case_if; [now apply lex_comment_scanned|].
  destruct (peek_rest mid Eend) as [r Hr].
  rewrite (step_back_advance mid _ r Hr Eend) by (intros Hn; rewrite Hn in Hx; discriminate).
  case_if; [apply lex_identifier_scanned|].
  { unfold is_ident_start, is_ident_char, isalnum in *. destruct (isalpha (peek mid)); cbn in *; auto.
    now rewrite E1, orb_true_r. }
  case_if; [now apply lex_number_scanned|].
  case_if; [now apply lex_string_scanned|].
  case_if; [now apply lex_char_lit_scanned|].
  now apply lex_operator_scanned.
Qed.

(** ** The token stream *)

Lemma next_token_pending lx :
  lx_pending lx = [] -> lx_pending (snd (lexer_next_token lx)) = [].
Proof.
  intros H. destruct (next_token_spec lx H) as (g & t & m & N).
  rewrite (sp_pending _ _ _ (nx_text _ _ _ _ _ _ N)), (sp_pending _ _ _ (nx_gap _ _ _ _ _ _ N)). exact H.
Qed.

(** Every token but the last consumes at least one character. *)
Lemma next_token_progress lx :
  lx_pending lx = [] -> tok_kind (fst (lexer_next_token lx)) <> TOK_EOF ->
  List.length (lx_rest (snd (lexer_next_token lx))) < List.length (lx_rest lx).
Proof.
  intros H Hk. destruct (next_token_spec lx H) as (g & t & m & N).
  rewrite (sp_rest _ _ _ (nx_gap _ _ _ _ _ _ N)), (sp_rest _ _ _ (nx_text _ _ _ _ _ _ N)).
  rewrite !length_app. pose proof (nx_progress _ _ _ _ _ _ N Hk). destruct t; [congruence|cbn; lia].
Qed.

Lemma kind_is_eq k t : kind_is k t = true <-> tok_kind t = k.
Proof.
  unfold kind_is. split; [apply internal_TokenKind_dec_bl|apply internal_TokenKind_dec_lb].
Qed.

Lemma kind_is_neq k t : kind_is k t = false <-> tok_kind t <> k.
Proof. rewrite <- kind_is_eq. destruct (kind_is k t); intuition congruence. Qed.

Lemma tokenize_loop_total fuel lx :
  lx_pending lx = [] -> List.length (lx_rest lx) < fuel -> exists r, tokenize_loop fuel lx = Some r.
Proof.
  revert lx; induction fuel as [|f IH]; intros lx Hp Hf; [lia|]. cbn.
  pose proof (next_token_progress lx Hp) as Hlt. pose proof (next_token_pending lx Hp) as Hp'.
  destruct (lexer_next_token lx) as [tok lx']. cbn in *.
  destruct (kind_is TOK_EOF tok) eqn:E; [eauto|].
  apply kind_is_neq in E. specialize (Hlt E).
  destruct (IH lx' Hp') as [[ts l] ->]; [lia|]. cbn. eauto.
Qed.

Lemma tokenize_loop_fuel f1 f2 lx r1 r2 :
  tokenize_loop f1 lx = Some r1 -> tokenize_loop f2 lx = Some r2 -> r1 = r2.
Proof.
  revert f2 lx r1 r2; induction f1 as [|f1 IH]; intros [|f2] lx r1 r2; cbn; try discriminate.
  destruct (lexer_next_token lx) as [tok lx']. destruct (kind_is TOK_EOF tok); [congruence|].
  destruct (tokenize_loop f1 lx') as [[ts1 l1]|] eqn:E1, (tokenize_loop f2 lx') as [[ts2 l2]|] eqn:E2;
    cbn; try discriminate.
  pose proof (IH _ _ _ _ E1 E2) as H. congruence.
Qed.

(** The tokens a lexer still has to deliver, [TOK_EOF] included. *)
Definition tokens_from (lx : Lexer) : list Token :=
  match tokenize_loop (S (List.length (lx_rest lx))) lx with Some (ts, _) => ts | None => [] end.

Lemma tokens_from_step lx :
  lx_pending lx = [] ->
  tokens_from lx =
    let (tok, lx') := lexer_next_token lx in
    if kind_is TOK_EOF tok then [tok] else tok :: tokens_from lx'.
Proof.
  intros Hp. unfold tokens_from at 1. cbn [tokenize_loop].
  pose proof (next_token_progress lx Hp) as Hlt. pose proof (next_token_pending lx Hp) as Hp'.
  destruct (lexer_next_token lx) as [tok lx']. cbn in *.
  destruct (kind_is TOK_EOF tok) eqn:E; [reflexivity|]. apply kind_is_neq in E.
  destruct (tokenize_loop_total _ lx' Hp' (Hlt E)) as [[ts l] Hts].
  destruct (tokenize_loop_total _ lx' Hp' (Nat.lt_succ_diag_r _)) as [[ts' l'] Hts'].
  unfold tokens_from. rewrite Hts, Hts'. cbn. pose proof (tokenize_loop_fuel _ _ _ _ _ Hts Hts'). congruence.
Qed.

Lemma lexer_tokenize_from src : lexer_tokenize src = Some (tokens_from (lexer_init src)).
Proof.
  unfold lexer_tokenize, tokens_from.
  destruct (tokenize_loop_total (S (List.length src)) (lexer_init src)) as [[ts l] H]; auto.
  cbn [lx_rest lexer_init]. now rewrite H.
Qed.

(** How many tokens a lexer still has to deliver. *)
Definition toks_left (lx : Lexer) : nat := List.length (tokens_from lx).

Lemma next_token_src lx : lx_pending lx = [] -> lx_src (snd (lexer_next_token lx)) = lx_src lx.
Proof.
  intros H. destruct (next_token_spec lx H) as (g & t & m & N).
  now rewrite (sp_src _ _ _ (nx_text _ _ _ _ _ _ N)), (sp_src _ _ _ (nx_gap _ _ _ _ _ _ N)).
Qed.

(** The lexer stays at its end. *)
Lemma next_token_end lx :
  lx_pending lx = [] -> tok_kind (fst (lexer_next_token lx)) = TOK_EOF ->
  tok_kind (fst (lexer_next_token (snd (lexer_next_token lx)))) = TOK_EOF.
Proof.
  intros H Hk. pose proof (next_token_pending lx H) as Hp.
  destruct (next_token_spec lx H) as (g & t & m & N). set (lx' := snd (lexer_next_token lx)) in *.
  destruct (nx_eof _ _ _ _ _ _ N Hk) as [-> Hend].
  assert (Hpk : peek lx' = NUL).
  { pose proof (sp_rest _ _ _ (nx_text _ _ _ _ _ _ N)) as Hr. cbn in Hr.
    unfold is_at_end, peek in *. rewrite <- Hr. now apply Ascii.eqb_eq. }
  assert (E : is_at_end lx' = true) by (unfold is_at_end; now rewrite Hpk).
  assert (S : skip_whitespace lx' = lx').
  { unfold skip_whitespace, advance_while. cbn [loop]. now rewrite Hpk. }
  unfold lexer_next_token. rewrite Hp. cbv zeta. rewrite S, E. reflexivity.
Qed.

Lemma toks_left_pos lx : lx_pending lx = [] -> 0 < toks_left lx.
Proof.
  intros H. unfold toks_left. rewrite tokens_from_step by auto.
  destruct (lexer_next_token lx). case_if; cbn; lia.
Qed.

(** Fetching a token leaves one fewer, and the end of the source as it was. *)
Lemma next_token_left lx :
  lx_pending lx = [] ->
  toks_left (snd (lexer_next_token lx)) =
    if kind_is TOK_EOF (fst (lexer_next_token lx)) then toks_left lx else pred (toks_left lx).
Proof.
  intros H. pose proof (next_token_pending lx H) as Hp.
  unfold toks_left at 2 3. rewrite tokens_from_step by auto.
  pose proof (next_token_end lx H) as He.
  destruct (lexer_next_token lx) as [tok lx'] eqn:E. cbn [fst snd] in *.
  destruct (kind_is TOK_EOF tok) eqn:K; [|reflexivity].
  apply kind_is_eq in K. specialize (He K). apply kind_is_eq in He.
  unfold toks_left. rewrite tokens_from_step by auto. destruct (lexer_next_token lx') as [tok' lx''].
  cbn [fst] in He. now rewrite He.
Qed.

(** [covers lc pos rest ts]: the text [rest], which starts at offset [pos] and at line and
    column [lc], is exactly the blanks and tokens that [ts] describes. *)
Inductive covers : Z * Z -> nat -> cstr -> list Token -> Prop :=
| covers_end lc pos gap tok :
    Forall (fun c => is_blank c = true) gap ->
    tok_kind tok = TOK_EOF -> tok_start tok = InSrc (pos + List.length gap) -> tok_length tok = 0 ->
    covers lc pos gap [tok]
| covers_step lc pos gap txt rest tok ts :
    Forall (fun c => is_blank c = true) gap -> txt <> [] -> tok_kind tok <> TOK_EOF ->
    (tok_kind tok <> TOK_ERROR ->
     tok_start tok = InSrc (pos + List.length gap) /\ tok_length tok = List.length txt) ->
    (tok_line tok, tok_column tok) = updates gap lc ->
    covers (updates (gap ++ txt) lc) (pos + List.length (gap ++ txt)) rest ts ->
    covers lc pos (gap ++ txt ++ rest) (tok :: ts).

Lemma spans_no_nul lx txt lx' : spans lx txt lx' -> ~ In NUL (lx_rest lx) -> ~ In NUL (lx_rest lx').
Proof. intros [-> _ _ _ _ _]. rewrite in_app_iff. tauto. Qed.

Lemma at_end_rest l : is_at_end l = true -> ~ In NUL (lx_rest l) -> lx_rest l = [].
Proof.
  unfold is_at_end, peek. destruct (lx_rest l); auto. intros ->%Ascii.eqb_eq []. now left.
Qed.

Lemma tokens_from_covers n lx :
  List.length (lx_rest lx) <= n -> lx_pending lx = [] -> ~ In NUL (lx_rest lx) ->
  covers (lx_line lx, lx_column lx) (lx_pos lx) (lx_rest lx) (tokens_from lx).
Proof.
  revert lx; induction n as [n IH] using lt_wf_ind; intros lx Hn Hp Hnul.
  rewrite tokens_from_step by auto.
  pose proof (next_token_progress lx Hp) as Hlt. pose proof (next_token_pending lx Hp) as Hp'.
  destruct (next_token_spec lx Hp) as (gap & txt & mid & [Hg Hb Ht Hl Hc Hs He Hpr]).
  destruct (lexer_next_token lx) as [tok lx']. cbn in *.
  pose proof (spans_no_nul _ _ _ Hg Hnul) as Hnm. pose proof (spans_no_nul _ _ _ Ht Hnm) as Hn'.
  destruct (kind_is TOK_EOF tok) eqn:E.
  - apply kind_is_eq in E. destruct (He E) as [-> Hend].
    destruct Hs as [Hs1 Hs2]; [congruence|]. rewrite (sp_pos _ _ _ Hg) in Hs1.
    rewrite (sp_rest _ _ _ Hg), (at_end_rest mid Hend Hnm), app_nil_r. now constructor.
  - apply kind_is_neq in E. specialize (Hlt E).
    pose proof (Hpr E) as Hne.
    rewrite (sp_rest _ _ _ Hg), (sp_rest _ _ _ Ht).
    assert (Hlc : (lx_line lx', lx_column lx') = updates (gap ++ txt) (lx_line lx, lx_column lx)).
    { exact (sp_lc _ _ _ (spans_trans _ _ _ _ _ Hg Ht)). }
    constructor; auto.
    + intros Hk. rewrite <- (sp_pos _ _ _ Hg). auto.
    + rewrite Hl, Hc. exact (sp_lc _ _ _ Hg).
    + rewrite <- Hlc, <- (sp_pos _ _ _ (spans_trans _ _ _ _ _ Hg Ht)).
      apply (IH (List.length (lx_rest lx'))); auto. lia.
Qed.

(** ** Integer literals against a reference value *)

(** The digits of a literal body, separators dropped; [None] on a character that is no digit
    of the base. *)
Fixpoint digits_of (base : Z) (p : cstr) : option (list Z) :=
  match p with
  | [] => Some []
  | c :: p' =>
      if Ascii.eqb c "_" then digits_of base p'
      else
        match digit_value c with
        | Some d => if (d <? base)%Z then option_map (cons d) (digits_of base p') else None
        | None => None
        end
  end.

(** The number a digit sequence denotes, unbounded. *)
Definition horner (base : Z) (ds : list Z) : Z := fold_left (fun v d => v * base + d)%Z ds 0%Z.

(** The literal's mathematical value. *)
Definition int_lit_value (lex : cstr) : option Z :=
  let neg := Ascii.eqb (nth 0 lex NUL) "-" in
  let p := if Ascii.eqb (nth 0 lex NUL) "+" || neg then tl lex else lex in
  let (base, body) := int_lit_base p in
  match digits_of base body with
  | Some (d :: ds) => Some (if neg then - horner base (d :: ds) else horner base (d :: ds))%Z
  | _ => None
  end.

Lemma u64_step v b d : u64 (u64 v * b + d) = u64 (v * b + d).
Proof.
  unfold u64. rewrite Z.add_mod, Z.mul_mod_idemp_l, <- Z.add_mod by lia. reflexivity.
Qed.

Lemma s64_mod a b : (a mod 2 ^ 64 = b mod 2 ^ 64)%Z -> s64 a = s64 b.
Proof. unfold s64. now intros ->. Qed.

Lemma s64_u64 v : s64 (u64 v) = s64 v.
Proof. apply s64_mod. unfold u64. now rewrite Z.mod_mod by lia. Qed.

Lemma s64_congr v : (s64 v mod 2 ^ 64 = v mod 2 ^ 64)%Z.
Proof.
  unfold s64. cbv zeta. destruct (Z.ltb_spec (v mod 2 ^ 64) (2 ^ 63)).
  - now rewrite Z.mod_mod by lia.
  - replace (v mod 2 ^ 64 - 2 ^ 64)%Z with (v mod 2 ^ 64 + (-1) * 2 ^ 64)%Z by lia.
    now rewrite Z.mod_add, Z.mod_mod by lia.
Qed.

Lemma s64_opp v : s64 (- s64 v) = s64 (- v).
Proof.
  apply s64_mod. rewrite <- (Z.sub_0_l (s64 v)), <- (Z.sub_0_l v).
  rewrite Zminus_mod, s64_congr, <- Zminus_mod. reflexivity.
Qed.

Lemma int_lit_digits_spec base p w any :
  int_lit_digits base p (u64 w) any =
  match digits_of base p with
  | None => None
  | Some ds => Some (u64 (fold_left (fun v d => v * base + d)%Z ds w), any || negb (match ds with [] => true | _ => false end))
  end.
Proof.
  revert w any; induction p as [|c p IH]; intros w any; cbn; [now rewrite orb_false_r|].
  destruct (Ascii.eqb c "_"); [apply IH|].
  destruct (digit_value c) as [d|]; [|reflexivity].
  rewrite Z.leb_antisym. destruct (d <? base)%Z; cbn; [|reflexivity].
  rewrite u64_step, IH. destruct (digits_of base p); cbn; [|reflexivity]. now rewrite orb_true_r.
Qed.

(** The decoder computes the literal's value modulo 2^64, read as a [long long], and rejects
    exactly the texts that denote no integer. *)
Lemma arche_int_lit_wraps lex : arche_int_lit lex = option_map s64 (int_lit_value lex).
Proof.
  unfold arche_int_lit, int_lit_value. destruct lex as [|c lex]; [reflexivity|]. cbn [nth tl].
  destruct (int_lit_base _) as [base body].
  change (int_lit_digits base body 0 false) with (int_lit_digits base body (u64 0) false).
  rewrite int_lit_digits_spec.
  destruct (digits_of base body) as [[|d ds]|]; cbn [option_map orb negb]; try reflexivity.
  fold (horner base (d :: ds)).
  destruct (Ascii.eqb c "-"); cbn [option_map]; now rewrite !s64_u64, ?s64_opp.
Qed.

Lemma digit_char_value d : (0 <= d < 10)%Z -> digit_value (digit_char d) = Some d /\ Ascii.eqb (digit_char d) "_" = false.
Proof.
  intros H. assert (d = 0 \/ d = 1 \/ d = 2 \/ d = 3 \/ d = 4 \/ d = 5 \/ d = 6 \/ d = 7 \/ d = 8 \/ d = 9)%Z as C by lia.
  repeat (destruct C as [-> | C]; [split; reflexivity|]). subst. split; reflexivity.
Qed.

Lemma digits_of_app base p q ds :
  digits_of base p = Some ds -> digits_of base (p ++ q) = option_map (app ds) (digits_of base q).
Proof.
  revert ds; induction p as [|c p IH]; intros ds; cbn.
  - intros [= <-]. now destruct (digits_of base q).
  - destruct (Ascii.eqb c "_"); [apply IH|]. destruct (digit_value c) as [d|]; [|discriminate].
    destruct (d <? base)%Z; [|discriminate].
    destruct (digits_of base p) as [ds'|]; [|discriminate]. intros [= <-]. rewrite (IH ds') by auto.
    now destruct (digits_of base q).
Qed.

Lemma show_dec_digits fuel n :
  (0 <= n < 10 ^ Z.of_nat fuel)%Z ->
  fuel <> 0 -> exists d ds, digits_of 10 (show_dec fuel n) = Some (d :: ds) /\ horner 10 (d :: ds) = n.
Proof.
  revert n; induction fuel as [|f IH]; intros n Hn Hf; [contradiction|]. cbn [show_dec].
  destruct (Z.ltb_spec n 10) as [Hs|Hb].
  - destruct (digit_char_value n) as [V N]; [lia|]. exists n, []. cbn [digits_of]. rewrite N, V.
    destruct (Z.ltb_spec n 10); [|lia]. now rewrite <- (Z.add_0_l n) at 3.
  - assert (Hf' : f <> 0) by (intros ->; cbn in Hn; lia).
    rewrite Nat2Z.inj_succ, Z.pow_succ_r in Hn by lia.
    destruct (IH (n / 10)%Z) as (d & ds & E & Hh); [split; [apply Z.div_pos|apply Z.div_lt_upper_bound]; lia|auto|].
    rewrite (digits_of_app _ _ _ _ E). destruct (digit_char_value (n mod 10)) as [V N]; [apply Z.mod_pos_bound; lia|].
    cbn [digits_of]. rewrite N, V. pose proof (Z.mod_pos_bound n 10).
    destruct (Z.ltb_spec (n mod 10) 10); [|lia]. exists d, (ds ++ [n mod 10])%Z. split; [reflexivity|].
    unfold horner in *. rewrite app_comm_cons, fold_left_app, Hh. cbn. pose proof (Z.div_mod n 10). lia.
Qed.
