(* ===== verification/SyntaxTree.v ===== *)
(** * The concrete syntax tree and its builder ([src/syntax/syntax_tree.h], [src/syntax/syntax_tree.c])

    Node kinds, the tree, the checkpoint/wrap builder with the process-wide node-id counter,
    and the structural facts every later proof uses: what [wrap] does to the leaves, to the
    spans and to the ids. *)

From S2P Require Import Prelude Lexer.

(** ** Data *)

Inductive SyntaxNodeKind : Type :=
  | SN_SOURCE_FILE
  | SN_WORLD_DECL
  | SN_ARCHETYPE_DECL
  | SN_PROC_DECL
  | SN_MAP_DECL
  | SN_FUNC_DECL
  | SN_FUNC_GROUP_DECL
  | SN_STATIC_DECL
  | SN_CONST_DECL
  | SN_DEFAULT_DECL
  | SN_USE_DECL
  | SN_REGION
  | SN_RUN_DECL
  | SN_PARAM_LIST
  | SN_PARAM
  | SN_OUT_PARAM
  | SN_OUT_ARG
  | SN_WRITE_PARAM
  | SN_FIELD_DECL
  | SN_RETURN_TYPES
  | SN_ARG_LIST
  | SN_BIND_STMT
  | SN_ASSIGN_STMT
  | SN_FOR_STMT
  | SN_IF_STMT
  | SN_ELSE_CLAUSE
  | SN_BREAK_STMT
  | SN_CONTINUE_STMT
  | SN_RUN_STMT
  | SN_EXPR_STMT
  | SN_RETURN_STMT
  | SN_MULTI_BIND_STMT
  | SN_PROC_CALL_STMT
  | SN_EACH_FIELD_STMT
  | SN_BLOCK
  | SN_MATCH_STMT
  | SN_MATCH_ARM
  | SN_LITERAL_EXPR
  | SN_NAME_EXPR
  | SN_FIELD_EXPR
  | SN_INDEX_EXPR
  | SN_SLICE_EXPR
  | SN_BINARY_EXPR
  | SN_UNARY_EXPR
  | SN_CALL_EXPR
  | SN_ALLOC_EXPR
  | SN_ARRAY_LIT_EXPR
  | SN_STRING_EXPR
  | SN_ENTITY_EXPR
  | SN_TUPLE_LIT
  | SN_PAREN_EXPR
  | SN_PROC_EXPR
  | SN_FUNC_EXPR
  | SN_POLICY_EXPR
  | SN_GROUP_EXPR
  | SN_ARCH_EXPR
  | SN_MAP_EXPR
  | SN_SYSTEM_EXPR
  | SN_EACH_EXPR
  | SN_QUERY_EXPR
  | SN_ENUM_EXPR
  | SN_ENUM_VARIANT
  | SN_SUM_EXPR
  | SN_SUM_VARIANT
  | SN_TYPE_REF
  | SN_TYPE_ARRAY
  | SN_TYPE_SHAPED_ARRAY
  | SN_TYPE_TUPLE
  | SN_TYPE_HANDLE
  | SN_TYPE_EFF
  | SN_TYPE_PROC
  | SN_TYPE_FUNC
  | SN_TYPE_DEF_NAME
  | SN_FUNC_DEF_NAME
  | SN_FIELD_NAME
  | SN_PARAM_NAME
  | SN_CALLEE_NAME
  | SN_QUERY_REF
  | SN_QUERY_BIND
  | SN_EFF
  | SN_ALLOC_TYPE
  | SN_NAME_REF
  | SN_POLICY_REF
  | SN_ERROR.

Scheme Equality for SyntaxNodeKind.

(** A token leaf. *)
Record Leaf : Type := mkLeaf {
  lf_kind : TokenKind;
  lf_offset : Z;
  lf_length : Z;
  lf_line : Z;
  lf_column : Z
}.

(** [SyntaxElem] and [SyntaxNode]: a child is a token leaf or a node, and a node has a kind,
    an id, a span and children. *)
#[warnings="-register-all"]
Inductive SyntaxElem : Type :=
  | SE_TOKEN (leaf : Leaf)
  | SE_NODE (kind : SyntaxNodeKind) (id offset length : Z) (children : list SyntaxElem).

(** The builder together with [g_node_id], the counter all builders of the process share. *)
Record CstBuilder : Type := mkBuilder {
  cb_items : list SyntaxElem;
  cb_node_id : Z
}.

(** ** Operations *)

Definition syntax_builder_new (g_node_id : Z) : CstBuilder := mkBuilder [] g_node_id.

Definition builder_push (b : CstBuilder) (elem : SyntaxElem) : CstBuilder :=
  mkBuilder (cb_items b ++ [elem]) (cb_node_id b).

Definition syntax_builder_token (b : CstBuilder) (kind : TokenKind) (offset length line column : Z) : CstBuilder :=
  builder_push b (SE_TOKEN (mkLeaf kind offset length line column)).

Definition syntax_builder_checkpoint (b : CstBuilder) : nat := List.length (cb_items b).

Definition elem_offset (e : SyntaxElem) : Z :=
  match e with SE_TOKEN l => lf_offset l | SE_NODE _ _ o _ _ => o end.

Definition elem_end (e : SyntaxElem) : Z :=
  match e with
  | SE_TOKEN l => u32 (lf_offset l + lf_length l)
  | SE_NODE _ _ o n _ => u32 (o + n)
  end.

(** The span of a node over [children]. *)
Definition node_offset (children : list SyntaxElem) : Z :=
  match children with [] => 0%Z | e :: _ => elem_offset e end.

Definition node_length (children : list SyntaxElem) : Z :=
  match children with
  | [] => 0%Z
  | e :: _ => u32 (elem_end (last children e) - elem_offset e)
  end.

Definition make_node (children : list SyntaxElem) (kind : SyntaxNodeKind) (id : Z) : SyntaxElem :=
  SE_NODE kind id (node_offset children) (node_length children) children.

(** Group [items[checkpoint .. count)] into one node; nothing to wrap is a no-op. Checkpoints
    are counts, so the guard against a negative one never fires. *)
Definition syntax_builder_wrap (b : CstBuilder) (checkpoint : nat) (kind : SyntaxNodeKind) : CstBuilder :=
  if (List.length (cb_items b) <=? checkpoint)%nat then b
  else
    mkBuilder (firstn checkpoint (cb_items b) ++
                 [make_node (skipn checkpoint (cb_items b)) kind (cb_node_id b)])
              (u32 (cb_node_id b + 1)).

(** The root node, and the counter after it. *)
Definition syntax_builder_finish (b : CstBuilder) : SyntaxElem * Z :=
  (make_node (cb_items b) SN_SOURCE_FILE (cb_node_id b), u32 (cb_node_id b + 1)).

Definition syntax_node_kind_name (kind : SyntaxNodeKind) : string :=
  match kind with
  | SN_SOURCE_FILE => "SOURCE_FILE"
  | SN_WORLD_DECL => "WORLD_DECL"
  | SN_ARCHETYPE_DECL => "ARCHETYPE_DECL"
  | SN_PROC_DECL => "PROC_DECL"
  | SN_MAP_DECL => "SYS_DECL"
  | SN_FUNC_DECL => "FUNC_DECL"
  | SN_FUNC_GROUP_DECL => "FUNC_GROUP_DECL"
  | SN_STATIC_DECL => "STATIC_DECL"
  | SN_CONST_DECL => "CONST_DECL"
  | SN_DEFAULT_DECL => "DEFAULT_DECL"
  | SN_REGION => "REGION"
  | SN_RUN_DECL => "RUN_DECL"
  | SN_USE_DECL => "USE_DECL"
  | SN_PARAM_LIST => "PARAM_LIST"
  | SN_PARAM => "PARAM"
  | SN_OUT_PARAM => "OUT_PARAM"
  | SN_OUT_ARG => "OUT_ARG"
  | SN_WRITE_PARAM => "WRITE_PARAM"
  | SN_FIELD_DECL => "FIELD_DECL"
  | SN_BLOCK => "BLOCK"
  | SN_RETURN_TYPES => "RETURN_TYPES"
  | SN_ARG_LIST => "ARG_LIST"
  | SN_BIND_STMT => "BIND_STMT"
  | SN_ASSIGN_STMT => "ASSIGN_STMT"
  | SN_FOR_STMT => "FOR_STMT"
  | SN_IF_STMT => "IF_STMT"
  | SN_ELSE_CLAUSE => "ELSE_CLAUSE"
  | SN_BREAK_STMT => "BREAK_STMT"
  | SN_CONTINUE_STMT => "CONTINUE_STMT"
  | SN_RUN_STMT => "RUN_STMT"
  | SN_EXPR_STMT => "EXPR_STMT"
  | SN_RETURN_STMT => "RETURN_STMT"
  | SN_MULTI_BIND_STMT => "MULTI_BIND_STMT"
  | SN_PROC_CALL_STMT => "PROC_CALL_STMT"
  | SN_EACH_FIELD_STMT => "EACH_FIELD_STMT"
  | SN_LITERAL_EXPR => "LITERAL_EXPR"
  | SN_NAME_EXPR => "NAME_EXPR"
  | SN_FIELD_EXPR => "FIELD_EXPR"
  | SN_INDEX_EXPR => "INDEX_EXPR"
  | SN_SLICE_EXPR => "SLICE_EXPR"
  | SN_BINARY_EXPR => "BINARY_EXPR"
  | SN_UNARY_EXPR => "UNARY_EXPR"
  | SN_CALL_EXPR => "CALL_EXPR"
  | SN_ALLOC_EXPR => "ALLOC_EXPR"
  | SN_ARRAY_LIT_EXPR => "ARRAY_LIT_EXPR"
  | SN_STRING_EXPR => "STRING_EXPR"
  | SN_PAREN_EXPR => "PAREN_EXPR"
  | SN_PROC_EXPR => "PROC_EXPR"
  | SN_FUNC_EXPR => "FUNC_EXPR"
  | SN_POLICY_EXPR => "POLICY_EXPR"
  | SN_GROUP_EXPR => "GROUP_EXPR"
  | SN_ARCH_EXPR => "ARCH_EXPR"
  | SN_MAP_EXPR => "SYS_EXPR"
  | SN_SYSTEM_EXPR => "SYSTEM_EXPR"
  | SN_EACH_EXPR => "EACH_EXPR"
  | SN_QUERY_EXPR => "QUERY_EXPR"
  | SN_ENTITY_EXPR => "ENTITY_EXPR"
  | SN_TUPLE_LIT => "TUPLE_LIT"
  | SN_ENUM_EXPR => "ENUM_EXPR"
  | SN_ENUM_VARIANT => "ENUM_VARIANT"
  | SN_SUM_EXPR => "SUM_EXPR"
  | SN_SUM_VARIANT => "SUM_VARIANT"
  | SN_MATCH_STMT => "MATCH_STMT"
  | SN_MATCH_ARM => "MATCH_ARM"
  | SN_TYPE_REF => "TYPE_REF"
  | SN_TYPE_ARRAY => "TYPE_ARRAY"
  | SN_TYPE_SHAPED_ARRAY => "TYPE_SHAPED_ARRAY"
  | SN_TYPE_TUPLE => "TYPE_TUPLE"
  | SN_TYPE_HANDLE => "TYPE_HANDLE"
  | SN_TYPE_EFF => "TYPE_EFF"
  | SN_TYPE_PROC => "TYPE_PROC"
  | SN_TYPE_FUNC => "TYPE_FUNC"
  | SN_TYPE_DEF_NAME => "TYPE_DEF_NAME"
  | SN_FUNC_DEF_NAME => "FUNC_DEF_NAME"
  | SN_FIELD_NAME => "FIELD_NAME"
  | SN_PARAM_NAME => "PARAM_NAME"
  | SN_CALLEE_NAME => "CALLEE_NAME"
  | SN_QUERY_REF => "QUERY_REF"
  | SN_QUERY_BIND => "QUERY_BIND"
  | SN_EFF => "EFF"
  | SN_ALLOC_TYPE => "ALLOC_TYPE"
  | SN_NAME_REF => "NAME_REF"
  | SN_POLICY_REF => "POLICY_REF"
  | SN_ERROR => "ERROR"
  end.

(** ** Reading a tree *)

Fixpoint leaves (e : SyntaxElem) : list Leaf :=
  match e with
  | SE_TOKEN l => [l]
  | SE_NODE _ _ _ _ cs => flat_map leaves cs
  end.

Definition forest_leaves (es : list SyntaxElem) : list Leaf := flat_map leaves es.

(** The ids of a tree's nodes in post-order: the children's before their parent's. *)
Fixpoint post_ids (e : SyntaxElem) : list Z :=
  match e with
  | SE_TOKEN _ => []
  | SE_NODE _ id _ _ cs => flat_map post_ids cs ++ [id]
  end.

Definition forest_ids (es : list SyntaxElem) : list Z := flat_map post_ids es.

(** The [n] successive values of the counter from [g]. *)
Fixpoint id_run (g : Z) (n : nat) : list Z :=
  match n with O => [] | S m => g :: id_run (u32 (g + 1)) m end.

Definition id_after (g : Z) (n : nat) : Z := Nat.iter n (fun z => u32 (z + 1)) g.

(** A property of every node of a tree, given the node's own fields. *)
Fixpoint all_nodes (P : SyntaxNodeKind -> Z -> Z -> list SyntaxElem -> Prop) (e : SyntaxElem) : Prop :=
  match e with
  | SE_TOKEN _ => True
  | SE_NODE k _ o n cs => P k o n cs /\ fold_right and True (map (all_nodes P) cs)
  end.

(** ** Lemmas *)

Lemma forest_leaves_app a b : forest_leaves (a ++ b) = forest_leaves a ++ forest_leaves b.
Proof. apply flat_map_app. Qed.

Lemma forest_ids_app a b : forest_ids (a ++ b) = forest_ids a ++ forest_ids b.
Proof. apply flat_map_app. Qed.

Lemma push_leaves b l : forest_leaves (cb_items (builder_push b (SE_TOKEN l))) = forest_leaves (cb_items b) ++ [l].
Proof. cbn. now rewrite forest_leaves_app. Qed.

Lemma wrap_leaves b cp k :
  forest_leaves (cb_items (syntax_builder_wrap b cp k)) = forest_leaves (cb_items b).
Proof.
  unfold syntax_builder_wrap. case_if; [reflexivity|]. cbn.
  rewrite forest_leaves_app. cbn. rewrite app_nil_r. fold (forest_leaves (skipn cp (cb_items b))).
  rewrite <- forest_leaves_app. now rewrite firstn_skipn.
Qed.

Lemma wrap_ids b cp k :
  forest_ids (cb_items (syntax_builder_wrap b cp k)) =
  forest_ids (cb_items b) ++ (if (List.length (cb_items b) <=? cp)%nat then [] else [cb_node_id b]).
Proof.
  unfold syntax_builder_wrap. case_if; [now rewrite app_nil_r|]. cbn.
  rewrite forest_ids_app. cbn. rewrite app_nil_r. fold (forest_ids (skipn cp (cb_items b))).
  now rewrite app_assoc, <- forest_ids_app, firstn_skipn.
Qed.

Lemma id_run_snoc g n : id_run g (S n) = id_run g n ++ [id_after g n].
Proof.
  revert g; induction n as [|n IH]; intros g; [reflexivity|].
  change (id_run g (S (S n))) with (g :: id_run (u32 (g + 1)) (S n)). rewrite IH. cbn [id_run app]. do 3 f_equal.
  exact (Nat.iter_swap n Z (fun z => u32 (z + 1)%Z) g).
Qed.

Lemma id_run_small g n :
  (0 <= g)%Z -> (g + Z.of_nat n < 2 ^ 32)%Z -> id_run g n = map (fun i => (g + Z.of_nat i)%Z) (seq 0 n).
Proof.
  revert g; induction n as [|n IH]; intros g H0 H; [reflexivity|]. cbn [id_run seq map].
  rewrite Z.add_0_r. f_equal. rewrite u32_small by lia. rewrite IH by lia.
  rewrite <- seq_shift, map_map. apply map_ext. intros i. lia.
Qed.

Lemma id_run_length g n : List.length (id_run g n) = n.
Proof. revert g; induction n; intros; cbn; auto. Qed.

Lemma all_nodes_forest P es : fold_right and True (map (all_nodes P) es) <-> Forall (all_nodes P) es.
Proof.
  induction es as [|e es IH]; cbn; [split; auto|]. rewrite IH. split; [intros []; constructor; auto|].
  inversion 1; auto.
Qed.

(** Induction over trees, with the hypothesis for every child. *)
Lemma syntax_elem_ind (P : SyntaxElem -> Prop) :
  (forall l, P (SE_TOKEN l)) ->
  (forall k i o n cs, Forall P cs -> P (SE_NODE k i o n cs)) -> forall e, P e.
Proof.
  intros Ht Hn. fix IH 1. intros [l|k i o n cs]; [apply Ht|]. apply Hn.
  induction cs as [|e cs IHcs]; constructor; [apply IH|exact IHcs].
Qed.
