(* ===== verification/ParserCore.v ===== *)
(** * The parser's state and primitives ([src/parser/parser.c], up to the grammar)

    The [Parser] record, the token pump [advance] with its comment loop, [match], [error],
    [synchronize] and the tree-builder helpers; then the state monad the grammar is written in
    and the measure that bounds every loop. *)

From S2P Require Import Prelude Lexer SyntaxTree.

(** ** State *)

Record ParseError : Type := mkError {
  pe_message : string;
  pe_line : Z;
  pe_column : Z
}.

(** [ps_builder] is never [NULL] while the grammar runs ([parser_init] allocates it and only the
    end of [parse_program] takes it away), so the [parser->builder ?] guards are not modelled. *)
Record Parser : Type := mkParser {
  ps_lexer : Lexer;
  ps_current : Token;
  ps_previous : Token;
  ps_had_error : bool;
  ps_panic_mode : bool;
  ps_errors : list ParseError;
  ps_pending_trivia : list Trivia;
  ps_recursion_depth : Z;
  ps_no_brace_lit : bool;
  ps_in_foreign : bool;
  ps_builder : CstBuilder
}.

Definition set_builder (b : CstBuilder) (p : Parser) : Parser :=
  mkParser (ps_lexer p) (ps_current p) (ps_previous p) (ps_had_error p) (ps_panic_mode p) (ps_errors p)
    (ps_pending_trivia p) (ps_recursion_depth p) (ps_no_brace_lit p) (ps_in_foreign p) b.

Definition set_pending (l : list Trivia) (p : Parser) : Parser :=
  mkParser (ps_lexer p) (ps_current p) (ps_previous p) (ps_had_error p) (ps_panic_mode p) (ps_errors p)
    l (ps_recursion_depth p) (ps_no_brace_lit p) (ps_in_foreign p) (ps_builder p).

Definition set_panic (b : bool) (p : Parser) : Parser :=
  mkParser (ps_lexer p) (ps_current p) (ps_previous p) (ps_had_error p) b (ps_errors p)
    (ps_pending_trivia p) (ps_recursion_depth p) (ps_no_brace_lit p) (ps_in_foreign p) (ps_builder p).

Definition set_depth (d : Z) (p : Parser) : Parser :=
  mkParser (ps_lexer p) (ps_current p) (ps_previous p) (ps_had_error p) (ps_panic_mode p) (ps_errors p)
    (ps_pending_trivia p) d (ps_no_brace_lit p) (ps_in_foreign p) (ps_builder p).

Definition set_no_brace_lit (b : bool) (p : Parser) : Parser :=
  mkParser (ps_lexer p) (ps_current p) (ps_previous p) (ps_had_error p) (ps_panic_mode p) (ps_errors p)
    (ps_pending_trivia p) (ps_recursion_depth p) b (ps_in_foreign p) (ps_builder p).

Definition set_in_foreign (b : bool) (p : Parser) : Parser :=
  mkParser (ps_lexer p) (ps_current p) (ps_previous p) (ps_had_error p) (ps_panic_mode p) (ps_errors p)
    (ps_pending_trivia p) (ps_recursion_depth p) (ps_no_brace_lit p) b (ps_builder p).

(** [parser->previous = parser->current; parser->current = lexer_next_token(parser->lexer);] *)
Definition set_tokens (lx : Lexer) (current previous : Token) (p : Parser) : Parser :=
  mkParser lx current previous (ps_had_error p) (ps_panic_mode p) (ps_errors p)
    (ps_pending_trivia p) (ps_recursion_depth p) (ps_no_brace_lit p) (ps_in_foreign p) (ps_builder p).

Definition set_kind (k : TokenKind) (t : Token) : Token :=
  mkToken k (tok_start t) (tok_length t) (tok_line t) (tok_column t) (tok_int_val t) (tok_leading t).

(** [parser->had_error = 1; parser->current.kind = TOK_EOF;]: what a loop limit does. *)
Definition force_eof (p : Parser) : Parser :=
  mkParser (ps_lexer p) (set_kind TOK_EOF (ps_current p)) (ps_previous p) true (ps_panic_mode p) (ps_errors p)
    (ps_pending_trivia p) (ps_recursion_depth p) (ps_no_brace_lit p) (ps_in_foreign p) (ps_builder p).

Definition set_had_error (p : Parser) : Parser :=
  mkParser (ps_lexer p) (ps_current p) (ps_previous p) true (ps_panic_mode p) (ps_errors p)
    (ps_pending_trivia p) (ps_recursion_depth p) (ps_no_brace_lit p) (ps_in_foreign p) (ps_builder p).

Definition cur_is (k : TokenKind) (p : Parser) : bool := kind_is k (ps_current p).

(** ** Trivia *)

Definition append_pending_trivia (tr : Trivia) (p : Parser) : Parser :=
  set_pending (ps_pending_trivia p ++ [tr]) p.

Definition is_blank_trivia (t : Trivia) : bool :=
  match tr_kind t with TRIVIA_BLANK_LINES => true | _ => false end.

Definition trivia_anchor_line (p : Parser) (prev_line : Z) : Z :=
  match rev (ps_pending_trivia p) with
  | [] => prev_line
  | t :: _ => if is_blank_trivia t then (tr_line t + tr_blank_count t)%Z else tr_line t
  end.

Definition maybe_append_blank_trivia (anchor_line next_line : Z) (p : Parser) : Parser :=
  if (anchor_line =? 0)%Z then p
  else if (next_line - anchor_line <=? 1)%Z then p
  else append_pending_trivia
         (mkTrivia TRIVIA_BLANK_LINES NullPtr 0 (anchor_line + 1) 1 (next_line - anchor_line - 1)) p.

(** ** Advancing *)

(** The leaf of a token, when its [start] points into the source. *)
Definition builder_token (t : Token) (kind : TokenKind) (b : CstBuilder) : CstBuilder :=
  match tok_start t with
  | InSrc off =>
      syntax_builder_token b kind (u32 (Z.of_nat off)) (u32 (Z.of_nat (tok_length t))) (tok_line t) (tok_column t)
  | _ => b
  end.

Definition emit_current (p : Parser) : Parser :=
  if negb (cur_is TOK_EOF p) && negb (cur_is TOK_ERROR p) then
    set_builder (builder_token (ps_current p) (tok_kind (ps_current p)) (ps_builder p)) p
  else p.

Definition fetch (previous : Token) (p : Parser) : Parser :=
  let (tok, lx) := lexer_next_token (ps_lexer p) in set_tokens lx tok previous p.

(** One comment: emit its leaf, record its trivia, fetch the next token. *)
Definition comment_step (prev_line : Z) (p : Parser) : Parser :=
  let c := ps_current p in
  let p1 := set_builder (builder_token c TOK_COMMENT (ps_builder p)) p in
  let p2 := maybe_append_blank_trivia (trivia_anchor_line p1 prev_line) (tok_line c) p1 in
  let p3 := append_pending_trivia
              (mkTrivia TRIVIA_LINE_COMMENT (tok_start c) (tok_length c) (tok_line c) (tok_column c) 0) p2 in
  fetch (ps_previous p3) p3.

Definition MAX_COMMENT_LOOP : nat := Z.to_nat 1000.

(** [while (current.kind == TOK_COMMENT)], cut off after [budget] comments. *)
Fixpoint comment_loop (budget : nat) (prev_line : Z) (p : Parser) : Parser :=
  if cur_is TOK_COMMENT p then
    match budget with
    | O => force_eof p
    | S b => comment_loop b prev_line (comment_step prev_line p)
    end
  else p.

Definition advance (p : Parser) : Parser :=
  let p1 := emit_current p in
  let prev_line := tok_line (ps_current p1) in
  let p2 := fetch (ps_current p1) p1 in
  let p3 := comment_loop MAX_COMMENT_LOOP prev_line p2 in
  let p4 :=
    if negb (cur_is TOK_EOF p3) then
      maybe_append_blank_trivia (trivia_anchor_line p3 prev_line) (tok_line (ps_current p3)) p3
    else p3 in
  if cur_is TOK_ERROR p4 then set_had_error p4 else p4.

(** ** Errors and recovery *)

(** [snprintf(buf, sizeof(buf), ...)] into 512 bytes. *)
Definition format_message (msg : string) : string := substring 0 511 msg.

Definition record_error (msg : string) (p : Parser) : Parser :=
  if ps_panic_mode p then p
  else
    mkParser (ps_lexer p) (ps_current p) (ps_previous p) true true
      (ps_errors p ++ [mkError (format_message msg) (tok_line (ps_current p)) (tok_column (ps_current p))])
      (ps_pending_trivia p) (ps_recursion_depth p) (ps_no_brace_lit p) (ps_in_foreign p) (ps_builder p).

Definition sync_stop (k : TokenKind) : bool :=
  match k with
  | TOK_ARCHETYPE | TOK_PROC | TOK_MAP | TOK_SYSTEM | TOK_FUNC | TOK_LET | TOK_FOR => true
  | _ => false
  end.

Definition MAX_SYNC_LOOP : nat := Z.to_nat 1000.

Fixpoint sync_loop (budget : nat) (p : Parser) : Parser :=
  if cur_is TOK_EOF p then p
  else
    match budget with
    | O => force_eof p
    | S b =>
        if kind_is TOK_SEMI (ps_previous p) then p
        else if sync_stop (tok_kind (ps_current p)) then p
        else sync_loop b (advance p)
    end.

Definition synchronize (p : Parser) : Parser :=
  let p1 := set_panic false p in
  let p2 := if negb (cur_is TOK_EOF p1) then advance p1 else p1 in
  sync_loop MAX_SYNC_LOOP p2.

(** ** The monad of the grammar *)

(** A parsing action: [None] only when a loop or the recursion runs out of fuel, which
    [ParserTotal] rules out. *)
Definition M (A : Type) : Type := Parser -> option (A * Parser).

Definition ret {A} (a : A) : M A := fun p => Some (a, p).

Definition bind {A B} (m : M A) (k : A -> M B) : M B :=
  fun p => match m p with Some (a, p') => k a p' | None => None end.

(** A [parse_*] function: failure (the C code's 0) or success with a value. *)
Definition P (A : Type) : Type := M (option A).

Definition ok {A} (a : A) : P A := ret (Some a).
Definition stop {A} : P A := ret None.

(** [if (!m) return 0;] and on. *)
Definition pbind {A B} (m : P A) (k : A -> P B) : P B :=
  bind m (fun o => match o with Some a => k a | None => stop end).

Declare Scope parse_scope.
Delimit Scope parse_scope with parse.
Notation "x <- m ;; k" := (bind m (fun x => k))
  (at level 81, m at next level, right associativity) : parse_scope.
Notation "m ;; k" := (bind m (fun _ => k)) (at level 81, right associativity) : parse_scope.
Notation "x <-! m ;; k" := (pbind m (fun x => k))
  (at level 81, m at next level, right associativity) : parse_scope.
Notation "m ;;! k" := (pbind m (fun _ => k)) (at level 81, right associativity) : parse_scope.
#[global] Open Scope parse_scope.

Definition modify (f : Parser -> Parser) : M unit := fun p => Some (tt, f p).
Definition gets {A} (f : Parser -> A) : M A := fun p => Some (f p, p).

Definition advanceM : M unit := modify advance.
Definition check (k : TokenKind) : M bool := gets (cur_is k).

Definition matchM (k : TokenKind) : M bool :=
  c <- check k ;; if c then advanceM ;; ret true else ret false.

(** [match(parser, k);] with its result ignored. *)
Definition skip (k : TokenKind) : M unit := _ <- matchM k ;; ret tt.

Definition error (msg : string) : M unit := modify (record_error msg).
Definition fail {A} (msg : string) : P A := error msg ;; stop.

(** [if (!match(parser, k)) { error(parser, msg); return 0; }] *)
Definition expect (k : TokenKind) (msg : string) : P unit :=
  c <- matchM k ;; if c then ok tt else fail msg.

(** [if (!match(parser, k)) error(parser, msg);] without a return. *)
Definition expect_soft (k : TokenKind) (msg : string) : M unit :=
  c <- matchM k ;; if c then ret tt else error msg.

(** [if (!check(parser, k)) { error(parser, msg); return 0; } advance(parser);] *)
Definition consume (k : TokenKind) (msg : string) : P unit :=
  c <- check k ;; if c then advanceM ;; ok tt else fail msg.

Definition synchronizeM : M unit := modify synchronize.
Definition drain_pending_trivia : M unit := modify (set_pending []).

(** [take_pending_as_leading] moves the list to an array every caller frees at once. *)
Definition take_pending_as_leading : M (list Trivia) :=
  l <- gets ps_pending_trivia ;; modify (set_pending []) ;; ret l.

Definition syntax_cp : M nat := gets (fun p => syntax_builder_checkpoint (ps_builder p)).

Definition syntax_wrap (cp : nat) (k : SyntaxNodeKind) : M unit :=
  modify (fun p => set_builder (syntax_builder_wrap (ps_builder p) cp k) p).

(** The kind of the single node emitted since [cp], if the region is exactly one node. *)
Definition single_node (p : Parser) (cp : nat) : option SyntaxNodeKind :=
  if (List.length (cb_items (ps_builder p)) =? S cp)%nat then
    match nth_error (cb_items (ps_builder p)) cp with
    | Some (SE_NODE k _ _ _ _) => Some k
    | _ => None
    end
  else None.

Definition syntax_single_node (cp : nat) : M bool :=
  gets (fun p => match single_node p cp with Some _ => true | None => false end).

Definition syntax_single_node_kind (cp : nat) : M SyntaxNodeKind :=
  gets (fun p => match single_node p cp with Some k => k | None => SN_ERROR end).

(** The text of the current token. *)
Definition token_text (src : cstr) (t : Token) : cstr :=
  match tok_start t with
  | InSrc off => firstn (tok_length t) (skipn off src)
  | InMsg m => firstn (tok_length t) (lit m)
  | NullPtr => []
  end.

Definition cur_text (p : Parser) : cstr := token_text (lx_src (ps_lexer p)) (ps_current p).

Definition cur_text_is (kw : string) : M bool := gets (fun p => text_is (cur_text p) kw).

Definition cur_ident_is (kw : string) : M bool :=
  gets (fun p => cur_is TOK_IDENT p && text_is (cur_text p) kw).

Definition current_kind : M TokenKind := gets (fun p => tok_kind (ps_current p)).

(** ** Loops *)

(** How much input is left: 0 at [TOK_EOF], else one more than the characters not yet lexed. *)
Definition rem (p : Parser) : nat :=
  if cur_is TOK_EOF p then 0 else S (List.length (lx_rest (ps_lexer p))).

(** Repeat [body], threading a loop variable, until it leaves with a value. Every round that
    goes round again consumes input, so [rem] bounds the rounds ([wp_loop]). *)
Fixpoint iter {S A} (fuel : nat) (body : S -> M (S + A)) (s : S) : M A :=
  fun p =>
    match fuel with
    | O => None
    | Datatypes.S f =>
        match body s p with
        | None => None
        | Some (inr a, p') => Some (a, p')
        | Some (inl s', p') => iter f body s' p'
        end
    end.

Definition loop {S A} (body : S -> M (S + A)) (s : S) : M A := fun p => iter (Datatypes.S (rem p)) body s p.

Definition leave {S A} (a : A) : M (S + A) := ret (inr a).
Definition again {S A} (s : S) : M (S + A) := ret (inl s).

(** [do { item } while (cont);]: an item fails (the function returns 0), breaks ([false]) or
    goes on to the test ([true]). *)
Definition do_while (item : P bool) (cont : M bool) : P unit :=
  loop (fun _ : unit =>
    o <- item ;;
    match o with
    | None => leave None
    | Some false => leave (Some tt)
    | Some true => c <- cont ;; if c then again tt else leave (Some tt)
    end) tt.

(** [match(parser, TOK_COMMA)] and [match(parser, TOK_COMMA) && !check(parser, close)]. *)
Definition comma : M bool := matchM TOK_COMMA.
Definition comma_before (close : TokenKind) : M bool :=
  c <- comma ;; if c then (b <- check close ;; ret (negb b)) else ret false.

(** [while (!check(parser, close) && !check(parser, TOK_EOF)) { body }]. *)
Definition until_close (close : TokenKind) (body : P bool) : P unit :=
  loop (fun _ : unit =>
    c <- check close ;; e <- check TOK_EOF ;;
    if c || e then leave (Some tt)
    else
      o <- body ;;
      match o with
      | None => leave None
      | Some false => leave (Some tt)
      | Some true => again tt
      end) tt.

(** A name token wrapped in a role node. *)
Definition wrapped_ident (kind : SyntaxNodeKind) (msg : string) : P unit :=
  c <- check TOK_IDENT ;;
  if c then cp <- syntax_cp ;; advanceM ;; syntax_wrap cp kind ;; ok tt else fail msg.
