(* ===== verification/ParserSteps.v ===== *)
(** * The parser as a step relation, and the rules to run the grammar symbolically

    [pstep] lists the primitive state changes the grammar is made of. [Adv p0 s b p] says that
    [p] was reached from [p0] by such steps with at least [s] units of input consumed; [calm]
    and [eats] are the two contracts every [parse_*] function is proved to meet; [wp] and the
    tactic [run] execute a function's body against them. *)

From S2P Require Import Prelude Lexer LexerFacts SyntaxTree ParserCore.
From Stdlib Require Import Relations.

(** ** Steps *)

(** The tokens after the current one, and the tokens of the whole source. *)
Definition left (p : Parser) : nat := toks_left (ps_lexer p).
Definition total (p : Parser) : nat := toks_left (lexer_init (lx_src (ps_lexer p))).

(** The parser's lexer has no pending tokens and is somewhere in its source. *)
Definition wf (p : Parser) : Prop := lx_pending (ps_lexer p) = [] /\ left p <= total p.

Inductive pstep : Parser -> Parser -> Prop :=
| st_advance p : tok_kind (ps_current p) <> TOK_EOF -> pstep p (advance p)
| st_limit p : tok_kind (ps_current p) <> TOK_EOF -> MAX_SYNC_LOOP + left p <= total p -> pstep p (force_eof p)
| st_error p msg : pstep p (record_error msg p)
| st_had_error p : pstep p (set_had_error p)
| st_wrap p cp k : pstep p (set_builder (syntax_builder_wrap (ps_builder p) cp k) p)
| st_panic p : pstep p (set_panic false p)
| st_pending p l : pstep p (set_pending l p)
| st_depth p d : pstep p (set_depth d p)
| st_no_brace_lit p b : pstep p (set_no_brace_lit b p)
| st_in_foreign p b : pstep p (set_in_foreign b p).

Definition psteps : Parser -> Parser -> Prop := clos_refl_trans Parser pstep.

Lemma psteps_refl p : psteps p p.
Proof. apply rt_refl. Qed.

Lemma psteps_trans p q w : psteps p q -> psteps q w -> psteps p w.
Proof. apply rt_trans. Qed.

Lemma psteps_one p q : pstep p q -> psteps p q.
Proof. apply rt_step. Qed.

(** An invariant of the steps holds wherever they lead. *)
Lemma psteps_invariant (I : Parser -> Prop) p q :
  (forall a b, pstep a b -> I a -> I b) -> psteps p q -> I p -> I q.
Proof. intros H; induction 1; eauto. Qed.

(** So does a reflexive and transitive relation that contains them, under an invariant. *)
Lemma psteps_relation (I : Parser -> Prop) (R : Parser -> Parser -> Prop) p q :
  (forall a b, pstep a b -> I a -> I b /\ R a b) ->
  (forall a, R a a) -> (forall a b c, R a b -> R b c -> R a c) ->
  psteps p q -> I p -> I q /\ R p q.
Proof.
  intros Hs Hr Ht. induction 1 as [a b H|a|a b c _ IH1 _ IH2]; intros Hi; [auto|auto|].
  destruct (IH1 Hi) as [Hb R1], (IH2 Hb) as [Hc R2]. eauto.
Qed.

(** ** The input left *)

Lemma cur_is_eq k p : cur_is k p = true <-> tok_kind (ps_current p) = k.
Proof. apply kind_is_eq. Qed.

Lemma cur_is_neq k p : cur_is k p = false <-> tok_kind (ps_current p) <> k.
Proof. apply kind_is_neq. Qed.

Lemma rem_pos p : tok_kind (ps_current p) <> TOK_EOF <-> 0 < rem p.
Proof.
  rewrite <- cur_is_neq. unfold rem. destruct (cur_is TOK_EOF p); split; intros; try lia; congruence.
Qed.

(** What [fetch] does to the input: one token fewer, and at least its characters. *)
Lemma fetch_input prev p :
  lx_pending (ps_lexer p) = [] ->
  lx_pending (ps_lexer (fetch prev p)) = [] /\ total (fetch prev p) = total p /\
  left (fetch prev p) = (if cur_is TOK_EOF (fetch prev p) then left p else pred (left p)) /\
  rem (fetch prev p) <= List.length (lx_rest (ps_lexer p)).
Proof.
  intros H. pose proof (next_token_pending _ H) as Hp. pose proof (next_token_src _ H) as Hs.
  pose proof (next_token_left _ H) as Hl. pose proof (next_token_progress _ H) as Hr.
  unfold fetch, total, left, rem, cur_is. destruct (lexer_next_token (ps_lexer p)) as [tok lx']. cbn in *.
  rewrite Hs. refine (conj Hp (conj eq_refl (conj Hl _))).
  destruct (kind_is TOK_EOF tok) eqn:E; [lia|]. apply kind_is_neq in E. specialize (Hr E). lia.
Qed.

Lemma fetch_wf prev p : wf p -> wf (fetch prev p).
Proof.
  intros [H1 H2]. destruct (fetch_input prev p H1) as (P & T & L & _). split; [exact P|].
  rewrite T, L. destruct (cur_is _ _); lia.
Qed.

Lemma fetch_rem prev p : wf p -> rem (fetch prev p) <= List.length (lx_rest (ps_lexer p)).
Proof. intros [H _]. now apply fetch_input. Qed.

Lemma left_pos p : wf p -> 0 < left p.
Proof. intros [H _]. now apply toks_left_pos. Qed.

(** Functions that leave the lexer and the current token alone. *)
Definition same_input (f : Parser -> Parser) : Prop :=
  forall p, ps_lexer (f p) = ps_lexer p /\ ps_current (f p) = ps_current p.

Lemma same_input_rem f p : same_input f -> rem (f p) = rem p.
Proof. intros H. destruct (H p) as [L C]. unfold rem, cur_is. now rewrite L, C. Qed.

Lemma same_input_wf f p : same_input f -> wf p -> wf (f p).
Proof. intros H. destruct (H p) as [L _]. unfold wf, left, total. now rewrite L. Qed.

Lemma same_input_left f p : same_input f -> left (f p) = left p /\ total (f p) = total p.
Proof. intros H. destruct (H p) as [L _]. unfold left, total. now rewrite L. Qed.

Lemma maybe_blank_same a n : same_input (maybe_append_blank_trivia a n).
Proof. intros p. unfold maybe_append_blank_trivia. repeat case_if; auto. Qed.

Lemma emit_current_same : same_input emit_current.
Proof. intros p. unfold emit_current. case_if; auto. Qed.

Lemma record_error_same msg : same_input (record_error msg).
Proof. intros p. unfold record_error. case_if; auto. Qed.

(** The part of [comment_step] before it fetches. *)
Definition comment_mark (prev_line : Z) (p : Parser) : Parser :=
  let c := ps_current p in
  let p1 := set_builder (builder_token c TOK_COMMENT (ps_builder p)) p in
  append_pending_trivia
    (mkTrivia TRIVIA_LINE_COMMENT (tok_start c) (tok_length c) (tok_line c) (tok_column c) 0)
    (maybe_append_blank_trivia (trivia_anchor_line p1 prev_line) (tok_line c) p1).

Lemma comment_step_fetch l p : comment_step l p = fetch (ps_previous (comment_mark l p)) (comment_mark l p).
Proof. reflexivity. Qed.

Lemma comment_mark_same l : same_input (comment_mark l).
Proof.
  intros p. unfold comment_mark. cbv zeta. apply (maybe_blank_same _ _ (set_builder _ p)).
Qed.

Lemma comment_step_wf l p : wf p -> wf (comment_step l p).
Proof. intros H. rewrite comment_step_fetch. apply fetch_wf, same_input_wf; auto using comment_mark_same. Qed.

Lemma comment_step_rem l p : wf p -> cur_is TOK_COMMENT p = true -> rem (comment_step l p) < rem p.
Proof.
  intros H Hc. apply cur_is_eq in Hc. rewrite comment_step_fetch.
  pose proof (same_input_wf _ p (comment_mark_same l) H) as W.
  eapply Nat.le_lt_trans; [apply fetch_rem, W|]. destruct (comment_mark_same l p) as [-> _].
  unfold rem. assert (cur_is TOK_EOF p = false) as -> by (apply cur_is_neq; congruence). lia.
Qed.

(** [q] follows [p] in the same source: tokens may have been fetched. *)
Definition later (p q : Parser) : Prop := total q = total p /\ left q <= left p.

Lemma fetch_later prev p : wf p -> later p (fetch prev p).
Proof.
  intros [H _]. destruct (fetch_input prev p H) as (_ & T & L & _). split; auto.
  rewrite L. case_if; lia.
Qed.

Lemma same_input_later f p : same_input f -> later p (f p).
Proof. intros H. destruct (same_input_left f p H). split; lia. Qed.

Lemma later_trans p q w : later p q -> later q w -> later p w.
Proof. intros [] []. split; lia. Qed.

Lemma comment_step_later l p : wf p -> later p (comment_step l p).
Proof.
  intros H. rewrite comment_step_fetch. eapply later_trans; [apply same_input_later, comment_mark_same|].
  apply fetch_later, same_input_wf; auto using comment_mark_same.
Qed.

Lemma force_eof_rem p : rem (force_eof p) = 0.
Proof. reflexivity. Qed.

Lemma comment_loop_ok n l p :
  wf p -> wf (comment_loop n l p) /\ rem (comment_loop n l p) <= rem p /\ later p (comment_loop n l p).
Proof.
  assert (R : forall p, later p p) by (split; lia).
  revert p; induction n as [|n IH]; intros p H; cbn [comment_loop]; destruct (cur_is TOK_COMMENT p) eqn:E; auto.
  - split; [exact H|]. split; [rewrite force_eof_rem; lia|exact (R p)].
  - destruct (IH (comment_step l p)) as (W & R1 & L); [now apply comment_step_wf|].
    pose proof (comment_step_rem l p H E). pose proof (comment_step_later l p H). eauto 6 using later_trans with arith.
Qed.

Lemma comment_loop_none n l p : cur_is TOK_COMMENT p = false -> comment_loop n l p = p.
Proof. intros E. destruct n; cbn [comment_loop]; now rewrite E. Qed.

(** The part of [advance] after its comment loop. *)
Lemma advance_tail_same (prev_line : Z) :
  same_input (fun p3 =>
    let p4 :=
      if negb (cur_is TOK_EOF p3) then
        maybe_append_blank_trivia (trivia_anchor_line p3 prev_line) (tok_line (ps_current p3)) p3
      else p3 in
    if cur_is TOK_ERROR p4 then set_had_error p4 else p4).
Proof.
  intros p. cbv zeta. case_if; case_if; cbn; auto; apply maybe_blank_same.
Qed.

Lemma advance_ok p :
  wf p -> tok_kind (ps_current p) <> TOK_EOF ->
  wf (advance p) /\ rem (advance p) < rem p /\ later p (advance p) /\
  (tok_kind (ps_current (advance p)) <> TOK_EOF -> S (left (advance p)) <= left p).
Proof.
  intros H Hk. unfold advance. cbv zeta. set (p1 := emit_current p).
  destruct (emit_current_same p) as [L C]. fold p1 in L, C.
  assert (W1 : wf p1) by (apply (same_input_wf emit_current); auto using emit_current_same).
  assert (R1 : rem p = S (List.length (lx_rest (ps_lexer p1)))).
  { unfold rem. assert (cur_is TOK_EOF p = false) as -> by now apply cur_is_neq. now rewrite L. }
  set (p2 := fetch (ps_current p1) p1). pose proof (fetch_rem (ps_current p1) p1 W1) as R2.
  destruct (fetch_input (ps_current p1) p1 (proj1 W1)) as (_ & _ & L2 & _).
  pose proof (fetch_later (ps_current p1) p1 W1) as F2. fold p2 in R2, L2, F2.
  destruct (comment_loop_ok MAX_COMMENT_LOOP (tok_line (ps_current p1)) p2 (fetch_wf _ p1 W1)) as (W3 & R3 & F3).
  set (p3 := comment_loop MAX_COMMENT_LOOP (tok_line (ps_current p1)) p2) in *.
  pose proof (advance_tail_same (tok_line (ps_current p1))) as T.
  match goal with |- wf ?q /\ _ => set (p5 := q) in * end.
  pose proof (same_input_wf _ p3 T W3) as W5. pose proof (same_input_rem _ p3 T) as R5.
  destruct (same_input_left _ p3 T) as [L5 T5]. destruct (T p3) as [_ C5]. cbv beta zeta in W5, R5, L5, T5, C5.
  fold p5 in W5, R5, L5, T5, C5. clear T. clearbody p5.
  pose proof (same_input_left emit_current p emit_current_same) as [L1 T1]. fold p1 in L1, T1.
  destruct F2 as [T2 L2'], F3 as [T3 L3]. rewrite L5, R5, C5. unfold later. rewrite T5, L5.
  refine (conj W5 (conj _ (conj (conj _ _) _))); try lia.
  intros Hk'. destruct (cur_is TOK_EOF p2) eqn:E.
  - exfalso. apply Hk'. apply cur_is_eq in E. unfold p3.
    rewrite comment_loop_none; [exact E|]. apply cur_is_neq. congruence.
  - pose proof (left_pos p1 W1). lia.
Qed.

(** [synchronize]'s loop gives up only after a thousand tokens. *)
Lemma sync_loop_ok n p :
  wf p -> (tok_kind (ps_current p) <> TOK_EOF -> MAX_SYNC_LOOP - n + left p <= total p) -> n <= MAX_SYNC_LOOP ->
  psteps p (sync_loop n p) /\ wf (sync_loop n p) /\ rem (sync_loop n p) <= rem p.
Proof.
  revert p; induction n as [|n IH]; intros p H Hl Hn; cbn [sync_loop]; destruct (cur_is TOK_EOF p) eqn:E;
    auto using psteps_refl; apply cur_is_neq in E; specialize (Hl E).
  - split; [apply psteps_one, st_limit; [auto|lia]|]. split; [exact H|rewrite force_eof_rem; lia].
  - repeat case_if; auto using psteps_refl.
    destruct (advance_ok p H E) as (W & R & [T L] & Lt).
    destruct (IH (advance p) W) as (S1 & W1 & R1); [intros Hk; specialize (Lt Hk)|..]; try lia.
    split; [|split; [auto|lia]]. eapply psteps_trans; [apply psteps_one, st_advance|]; eauto.
Qed.

Lemma synchronize_ok p :
  wf p -> psteps p (synchronize p) /\ wf (synchronize p) /\ rem (synchronize p) <= rem p /\
          (tok_kind (ps_current p) <> TOK_EOF -> rem (synchronize p) < rem p).
Proof.
  intros H. unfold synchronize. cbv zeta. set (p1 := set_panic false p).
  assert (W1 : wf p1) by exact H. assert (R1 : rem p1 = rem p) by reflexivity.
  assert (S1 : psteps p p1) by apply psteps_one, st_panic.
  destruct (cur_is TOK_EOF p1) eqn:E; cbn [negb].
  - apply cur_is_eq in E.
    destruct (sync_loop_ok MAX_SYNC_LOOP p1 W1) as (S2 & W2 & R2); [intros Hk; contradiction|lia|].
    refine (conj _ (conj W2 (conj _ _))); [eauto using psteps_trans|lia|intros Hk; contradiction].
  - apply cur_is_neq in E. destruct (advance_ok p1 W1 E) as (W2 & R2 & [T2 L2] & _).
    destruct (sync_loop_ok MAX_SYNC_LOOP (advance p1) W2) as (S3 & W3 & R3); [intros _|lia|].
    { rewrite Nat.sub_diag. destruct W1. lia. }
    refine (conj _ (conj W3 (conj _ _))); [eauto using psteps_trans, psteps_one, st_advance|lia|lia].
Qed.

Lemma advance_no_brace_lit p : ps_no_brace_lit (advance p) = ps_no_brace_lit p.
Proof.
  assert (F : forall prev q, ps_no_brace_lit (fetch prev q) = ps_no_brace_lit q).
  { intros prev q. unfold fetch. now destruct (lexer_next_token (ps_lexer q)). }
  assert (B : forall a n q, ps_no_brace_lit (maybe_append_blank_trivia a n q) = ps_no_brace_lit q).
  { intros a n q. unfold maybe_append_blank_trivia. repeat case_if; reflexivity. }
  assert (C : forall n l q, ps_no_brace_lit (comment_loop n l q) = ps_no_brace_lit q).
  { induction n as [|n IH]; intros l q; cbn [comment_loop]; case_if; auto.
    rewrite IH. unfold comment_step. cbv zeta. rewrite F. cbn. now rewrite B. }
  unfold advance. cbv zeta. repeat case_if; cbn; rewrite ?B, C, F; unfold emit_current; case_if; reflexivity.
Qed.

Lemma synchronize_no_brace_lit p : ps_no_brace_lit (synchronize p) = ps_no_brace_lit p.
Proof.
  assert (S : forall n q, ps_no_brace_lit (sync_loop n q) = ps_no_brace_lit q).
  { induction n as [|n IH]; intros q; cbn [sync_loop]; repeat case_if; auto.
    now rewrite IH, advance_no_brace_lit. }
  unfold synchronize. cbv zeta. rewrite S. case_if; [now rewrite advance_no_brace_lit|reflexivity].
Qed.

(** Every step keeps the invariant, fetches forward only, and never leaves [TOK_EOF]; while
    tokens remain, it changes the lexer by fetching tokens only. *)
Record drains (p q : Parser) : Prop := mkDrains {
  dr_later : later p q;
  dr_eof : cur_is TOK_EOF p = true -> cur_is TOK_EOF q = true;
  dr_same : cur_is TOK_EOF q = false -> left q = left p -> ps_lexer q = ps_lexer p
}.

Lemma drains_trans p q w : drains p q -> drains q w -> drains p w.
Proof.
  intros [L1 E1 S1] [L2 E2 S2]. constructor; [eauto using later_trans|auto|]. intros Hw Hl.
  destruct L1, L2. rewrite S2 by (auto; lia). apply S1; [|lia].
  destruct (cur_is TOK_EOF q) eqn:E; [rewrite E2 in Hw by auto; discriminate|reflexivity].
Qed.

Lemma same_input_drains f p : same_input f -> drains p (f p).
Proof.
  intros H. destruct (H p) as [L C]. constructor; [now apply same_input_later| |auto].
  unfold cur_is. now rewrite C.
Qed.

Lemma pstep_drains a b : pstep a b -> wf a -> wf b /\ drains a b.
Proof.
  assert (G : forall f p, same_input f -> wf p -> wf (f p) /\ drains p (f p))
    by auto using same_input_wf, same_input_drains.
  intros H W. destruct H.
  - destruct (advance_ok p W H) as (W' & _ & L & Lt). split; [exact W'|]. constructor; auto.
    + rewrite <- cur_is_neq in H. congruence.
    + intros E Hl. apply cur_is_neq in E. specialize (Lt E). lia.
  - split; [exact W|]. constructor; [split; auto|reflexivity|reflexivity].
  - apply G; auto using record_error_same.
  - apply G; auto. now intros ?.
  - apply (G (fun p => set_builder (syntax_builder_wrap (ps_builder p) cp k) p)); auto. now intros ?.
  - apply (G (set_panic false)); auto. now intros ?.
  - apply (G (set_pending l)); auto. now intros ?.
  - apply (G (set_depth d)); auto. now intros ?.
  - apply (G (set_no_brace_lit b)); auto. now intros ?.
  - apply (G (set_in_foreign b)); auto. now intros ?.
Qed.

Lemma psteps_drains p q : psteps p q -> wf p -> wf q /\ drains p q.
Proof.
  apply psteps_relation; [exact pstep_drains| |exact drains_trans].
  intros a. apply (same_input_drains (fun p => p)). now intros ?.
Qed.

(** Input given up in characters is given up in tokens. *)
Lemma drains_rem p q :
  drains p q -> cur_is TOK_EOF q = false -> rem q < rem p -> left q < left p.
Proof.
  intros [[T L] E S] Hq Hr. destruct (Nat.eq_dec (left q) (left p)) as [He|]; [|lia]. exfalso.
  unfold rem in Hr. rewrite Hq, (S Hq He) in Hr. destruct (cur_is TOK_EOF p); lia.
Qed.

(** ** Progress judgements *)

(** [p] was reached from [p0] with at least [s] units consumed, and its [no_brace_lit] is [b]. *)
Record Adv (p0 : Parser) (s : nat) (b : bool) (p : Parser) : Prop := mkAdv {
  ad_wf : wf p;
  ad_steps : psteps p0 p;
  ad_rem : rem p + s <= rem p0;
  ad_nbl : ps_no_brace_lit p = b
}.

Lemma Adv_refl p : wf p -> Adv p 0 (ps_no_brace_lit p) p.
Proof. intros H. constructor; auto using psteps_refl. lia. Qed.

Lemma Adv_trans p0 s b p t b' q : Adv p0 s b p -> Adv p t b' q -> Adv p0 (s + t) b' q.
Proof. intros [W1 S1 R1 N1] [W2 S2 R2 N2]. constructor; eauto using psteps_trans. lia. Qed.

Lemma Adv_le p0 s t b p : t <= s -> Adv p0 s b p -> Adv p0 t b p.
Proof. intros Hle [W S R N]. constructor; auto. lia. Qed.

Lemma Adv_advance p0 s b p : Adv p0 s b p -> tok_kind (ps_current p) <> TOK_EOF -> Adv p0 (S s) b (advance p).
Proof.
  intros [W S R N] Hk. destruct (advance_ok p W Hk) as (W' & R' & _).
  constructor; auto; [eauto using psteps_trans, psteps_one, st_advance|lia|now rewrite advance_no_brace_lit].
Qed.

Lemma Adv_same p0 s b p f :
  Adv p0 s b p -> pstep p (f p) -> same_input f -> ps_no_brace_lit (f p) = ps_no_brace_lit p -> Adv p0 s b (f p).
Proof.
  intros [W S R N] Hs Hf Hb. constructor; [now apply same_input_wf|eauto using psteps_trans, psteps_one| |congruence].
  now rewrite same_input_rem.
Qed.

Lemma Adv_error p0 s b p msg : Adv p0 s b p -> Adv p0 s b (record_error msg p).
Proof.
  intros H. apply Adv_same; auto using st_error, record_error_same. unfold record_error. now case_if.
Qed.

Lemma Adv_wrap p0 s b p cp k : Adv p0 s b p -> Adv p0 s b (set_builder (syntax_builder_wrap (ps_builder p) cp k) p).
Proof.
  intros H. apply (Adv_same _ _ _ _ (fun p => set_builder (syntax_builder_wrap (ps_builder p) cp k) p));
    [auto|apply st_wrap|now intros ?|reflexivity].
Qed.

Lemma Adv_pending p0 s b p l : Adv p0 s b p -> Adv p0 s b (set_pending l p).
Proof. intros H. apply (Adv_same _ _ _ _ (set_pending l)); [auto|apply st_pending|now intros ?|reflexivity]. Qed.

Lemma Adv_depth p0 s b p d : Adv p0 s b p -> Adv p0 s b (set_depth d p).
Proof. intros H. apply (Adv_same _ _ _ _ (set_depth d)); [auto|apply st_depth|now intros ?|reflexivity]. Qed.

Lemma Adv_in_foreign p0 s b p f : Adv p0 s b p -> Adv p0 s b (set_in_foreign f p).
Proof. intros H. apply (Adv_same _ _ _ _ (set_in_foreign f)); [auto|apply st_in_foreign|now intros ?|reflexivity]. Qed.

Lemma Adv_no_brace_lit p0 s b p c : Adv p0 s b p -> Adv p0 s c (set_no_brace_lit c p).
Proof.
  intros [W S R N]. constructor; auto. eauto using psteps_trans, psteps_one, st_no_brace_lit.
Qed.

Lemma Adv_synchronize p0 s b p : Adv p0 s b p -> Adv p0 s b (synchronize p).
Proof.
  intros [W S R N]. destruct (synchronize_ok p W) as (S' & W' & R' & _).
  constructor; eauto using psteps_trans; [lia|now rewrite synchronize_no_brace_lit].
Qed.

(** After a failed sub-parse, [synchronize] consumes something unless the input is over. *)
Lemma Adv_synchronize_progress p0 b p :
  tok_kind (ps_current p0) <> TOK_EOF -> Adv p0 0 b p -> Adv p0 1 b (synchronize p).
Proof.
  intros Hk [W S R N]. destruct (synchronize_ok p W) as (S' & W' & R' & L).
  constructor; eauto using psteps_trans; [|now rewrite synchronize_no_brace_lit].
  apply rem_pos in Hk. destruct (cur_is TOK_EOF p) eqn:E.
  - assert (rem p = 0) by (unfold rem; now rewrite E). lia.
  - apply cur_is_neq in E. specialize (L E). lia.
Qed.

(** ** Weakest preconditions *)

Definition wp {A} (m : M A) (Q : A -> Parser -> Prop) (p : Parser) : Prop :=
  match m p with Some (a, p') => Q a p' | None => False end.

Lemma wp_bind {A B} (m : M A) (k : A -> M B) Q p : wp m (fun a => wp (k a) Q) p -> wp (bind m k) Q p.
Proof. unfold wp, bind. now destruct (m p) as [[a p']|]. Qed.

Lemma wp_pbind {A B} (m : P A) (k : A -> P B) Q p :
  wp m (fun o p' => match o with Some a => wp (k a) Q p' | None => Q None p' end) p -> wp (pbind m k) Q p.
Proof. unfold wp, pbind, bind. destruct (m p) as [[[a|] p']|]; auto. Qed.

Lemma wp_conseq {A} (m : M A) (Q Q' : A -> Parser -> Prop) p :
  wp m Q p -> (forall a p', Q a p' -> Q' a p') -> wp m Q' p.
Proof. unfold wp. destruct (m p) as [[a p']|]; auto. Qed.

Lemma wp_run {A} (m : M A) Q p : wp m Q p -> exists a p', m p = Some (a, p') /\ Q a p'.
Proof. unfold wp. destruct (m p) as [[a p']|]; [eauto|contradiction]. Qed.

(** [m] returns without giving input back. *)
Definition calm {A} (N : nat) (m : M A) : Prop :=
  forall p, wf p -> rem p < N -> wp m (fun _ p' => Adv p 0 (ps_no_brace_lit p) p') p.

(** [m] returns, and has consumed input when it succeeds. *)
Definition eats {A} (N : nat) (m : P A) : Prop :=
  forall p, wf p -> rem p < N ->
    wp m (fun o p' => Adv p (match o with Some _ => 1 | None => 0 end) (ps_no_brace_lit p) p') p.

(** The contract of an action that returns its verdict in a pair. *)
Definition form_eats {A} (N : nat) (m : M (bool * A)) : Prop :=
  forall p, wf p -> rem p < N ->
    wp m (fun f p' => Adv p (if fst f then 1 else 0) (ps_no_brace_lit p) p') p.

(** The same for a routine entered on a token known to be there. *)
Definition eats_here {A} (N : nat) (m : P A) : Prop :=
  forall p, wf p -> tok_kind (ps_current p) <> TOK_EOF -> rem p < N ->
    wp m (fun o p' => Adv p (match o with Some _ => 1 | None => 0 end) (ps_no_brace_lit p) p') p.

Definition eats_on (k : TokenKind) {A} (N : nat) (m : P A) : Prop :=
  forall p, wf p -> tok_kind (ps_current p) = k -> rem p < N ->
    wp m (fun o p' => Adv p (match o with Some _ => 1 | None => 0 end) (ps_no_brace_lit p) p') p.

(** A list item: [Some true] goes round again and must have consumed input. *)
Definition item_ok (N : nat) (m : P bool) : Prop :=
  forall p, wf p -> rem p < N ->
    wp m (fun o p' => Adv p (match o with Some true => 1 | _ => 0 end) (ps_no_brace_lit p) p') p.

Definition item_here (N : nat) (m : P bool) : Prop :=
  forall p, wf p -> tok_kind (ps_current p) <> TOK_EOF -> rem p < N ->
    wp m (fun o p' => Adv p (match o with Some true => 1 | _ => 0 end) (ps_no_brace_lit p) p') p.

(** How a caller uses a contract. *)
Lemma use_calm {A} N (m : M A) Q p0 s b p :
  calm N m -> Adv p0 s b p -> rem p < N -> (forall a p', Adv p0 s b p' -> Q a p') -> wp m Q p.
Proof.
  intros Hm Ha Hn Hq. eapply wp_conseq; [apply Hm; eauto using ad_wf|].
  intros a p' H. apply Hq. rewrite <- (ad_nbl _ _ _ _ Ha), <- (Nat.add_0_r s). eapply Adv_trans; eauto.
Qed.

Lemma use_eats_post {A} (m : P A) Q p0 s b p (f : option A -> nat) :
  wp m (fun o p' => Adv p (f o) (ps_no_brace_lit p) p') p -> Adv p0 s b p ->
  (forall o p', Adv p0 (f o + s) b p' -> Q o p') -> wp m Q p.
Proof.
  intros Hm Ha Hq. eapply wp_conseq; [exact Hm|]. intros o p' H. apply Hq.
  rewrite <- (ad_nbl _ _ _ _ Ha), Nat.add_comm. eapply Adv_trans; eauto.
Qed.

Lemma use_eats {A} N (m : P A) Q p0 s b p :
  eats N m -> Adv p0 s b p -> rem p < N ->
  (forall a p', Adv p0 (S s) b p' -> Q (Some a) p') -> (forall p', Adv p0 s b p' -> Q None p') -> wp m Q p.
Proof.
  intros Hm Ha Hn H1 H2. eapply use_eats_post; [apply Hm; eauto using ad_wf|exact Ha|].
  intros [a|] p' H; auto.
Qed.

Lemma use_eats_here {A} N (m : P A) Q p0 s b p :
  eats_here N m -> Adv p0 s b p -> rem p < N -> tok_kind (ps_current p) <> TOK_EOF ->
  (forall a p', Adv p0 (S s) b p' -> Q (Some a) p') -> (forall p', Adv p0 s b p' -> Q None p') -> wp m Q p.
Proof.
  intros Hm Ha Hn Hk H1 H2. eapply use_eats_post; [apply Hm; eauto using ad_wf|exact Ha|].
  intros [a|] p' H; auto.
Qed.

Lemma use_eats_on {A} k N (m : P A) Q p0 s b p :
  eats_on k N m -> Adv p0 s b p -> rem p < N -> tok_kind (ps_current p) = k ->
  (forall a p', Adv p0 (S s) b p' -> Q (Some a) p') -> (forall p', Adv p0 s b p' -> Q None p') -> wp m Q p.
Proof.
  intros Hm Ha Hn Hk H1 H2. eapply use_eats_post; [apply Hm; eauto using ad_wf|exact Ha|].
  intros [a|] p' H; auto.
Qed.

Lemma use_form {A} N (m : M (bool * A)) Q p0 s b p :
  form_eats N m -> Adv p0 s b p -> rem p < N ->
  (forall k p', Adv p0 (S s) b p' -> Q (true, k) p') -> (forall k p', Adv p0 s b p' -> Q (false, k) p') -> wp m Q p.
Proof.
  intros Hm Ha Hn H1 H2. eapply wp_conseq; [apply Hm; eauto using ad_wf|].
  intros [[|] k] p' H; cbn in H; rewrite (ad_nbl _ _ _ _ Ha) in H; pose proof (Adv_trans _ _ _ _ _ _ _ Ha H) as H'.
  - apply H1. eapply Adv_le; [|exact H']. lia.
  - apply H2. eapply Adv_le; [|exact H']. lia.
Qed.

Lemma eats_eats_here {A} N (m : P A) : eats N m -> eats_here N m.
Proof. intros H p Hw _ Hn. now apply H. Qed.

Lemma eats_calm {A} N (m : P A) : eats N m -> calm N m.
Proof.
  intros H p Hw Hn. eapply wp_conseq; [now apply H|]. intros o p' Ha. eapply Adv_le; [|exact Ha]. lia.
Qed.

Lemma item_ok_here N m : item_ok N m -> item_here N m.
Proof. intros H p Hw _ Hn. now apply H. Qed.

(** ** Rules for the primitives *)

Lemma wp_ret {A} (a : A) Q p : Q a p -> wp (ret a) Q p.
Proof. auto. Qed.

Lemma wp_gets {A} (f : Parser -> A) Q p : Q (f p) p -> wp (gets f) Q p.
Proof. auto. Qed.

Lemma wp_check k Q p :
  (tok_kind (ps_current p) = k -> Q true p) -> (tok_kind (ps_current p) <> k -> Q false p) -> wp (check k) Q p.
Proof.
  intros H1 H2. unfold wp, check, gets. destruct (cur_is k p) eqn:E; [apply H1, cur_is_eq|apply H2, cur_is_neq]; auto.
Qed.

Lemma wp_cur_ident_is kw Q p :
  (tok_kind (ps_current p) = TOK_IDENT -> Q true p) -> Q false p -> wp (cur_ident_is kw) Q p.
Proof.
  intros H1 H2. unfold wp, cur_ident_is, gets. destruct (cur_is TOK_IDENT p) eqn:E; cbn [andb]; [|exact H2].
  apply cur_is_eq in E. destruct (text_is _ _); auto.
Qed.

Section Rules.

Context (p0 : Parser) (s : nat) (b : bool) (p : Parser) (HA : Adv p0 s b p).

Lemma wp_advance Q :
  tok_kind (ps_current p) <> TOK_EOF -> (forall p', Adv p0 (S s) b p' -> Q tt p') -> wp advanceM Q p.
Proof using HA. intros Hk H. apply H. now apply Adv_advance. Qed.

Lemma wp_match k Q :
  k <> TOK_EOF ->
  (forall p', Adv p0 (S s) b p' -> Q true p') -> (tok_kind (ps_current p) <> k -> Q false p) -> wp (matchM k) Q p.
Proof using HA.
  intros Hk H1 H2. unfold matchM. apply wp_bind, wp_check; intros E; [|now apply H2].
  apply wp_bind, wp_advance; [congruence|]. intros p' H. now apply H1.
Qed.

Lemma wp_skip k Q :
  k <> TOK_EOF -> (forall p', Adv p0 s b p' -> Q tt p') -> wp (skip k) Q p.
Proof using HA.
  intros Hk H. unfold skip. apply wp_bind, wp_match; auto; intros; apply H; auto.
  eapply Adv_le; [|eassumption]. lia.
Qed.

Lemma wp_error msg Q :
  (forall p', Adv p0 s b p' -> ps_current p' = ps_current p -> Q tt p') -> wp (error msg) Q p.
Proof using HA. intros H. apply H; [now apply Adv_error|]. apply record_error_same. Qed.

Lemma wp_fail {A} msg (Q : option A -> Parser -> Prop) : (forall p', Adv p0 s b p' -> Q None p') -> wp (fail msg) Q p.
Proof using HA. intros H. apply wp_bind, wp_error. intros p' H' _. now apply H. Qed.

Lemma wp_expect k msg Q :
  k <> TOK_EOF -> (forall p', Adv p0 (S s) b p' -> Q (Some tt) p') -> (forall p', Adv p0 s b p' -> Q None p') ->
  wp (expect k msg) Q p.
Proof using HA. intros Hk H1 H2. apply wp_bind, wp_match; auto. intros _. now apply wp_fail. Qed.

Lemma wp_expect_soft k msg Q :
  k <> TOK_EOF -> (forall p', Adv p0 s b p' -> Q tt p') -> wp (expect_soft k msg) Q p.
Proof using HA.
  intros Hk H. apply wp_bind, wp_match; auto.
  - intros p' Ha. apply H. eapply Adv_le; [|exact Ha]. lia.
  - intros _. apply wp_error. intros p' Ha _. auto.
Qed.

Lemma wp_consume k msg Q :
  k <> TOK_EOF -> (forall p', Adv p0 (S s) b p' -> Q (Some tt) p') -> (forall p', Adv p0 s b p' -> Q None p') ->
  wp (consume k msg) Q p.
Proof using HA.
  intros Hk H1 H2. apply wp_bind, wp_check; intros E; [|now apply wp_fail].
  apply wp_bind, wp_advance; [congruence|]. intros p' Ha. now apply H1.
Qed.

Lemma wp_wrap cp k Q :
  (forall p', Adv p0 s b p' -> ps_current p' = ps_current p -> Q tt p') -> wp (syntax_wrap cp k) Q p.
Proof using HA. intros H. apply H; [now apply Adv_wrap|reflexivity]. Qed.

Lemma wp_wrapped_ident k msg Q :
  (forall p', Adv p0 (S s) b p' -> Q (Some tt) p') -> (forall p', Adv p0 s b p' -> Q None p') ->
  wp (wrapped_ident k msg) Q p.
Proof using HA.
  intros H1 H2. apply wp_bind, wp_check; intros E; [|now apply wp_fail].
  apply wp_bind, wp_gets, wp_bind, wp_advance; [congruence|]. intros p1 A1. apply H1. now apply Adv_wrap.
Qed.

Lemma wp_comma Q :
  (forall p', Adv p0 (S s) b p' -> Q true p') -> Q false p -> wp comma Q p.
Proof using HA. intros H1 H2. apply wp_match; auto. discriminate. Qed.

Lemma wp_comma_before k Q :
  (forall c p', Adv p0 s b p' -> Q c p') -> wp (comma_before k) Q p.
Proof using HA.
  intros H. apply wp_bind, wp_comma; [|now apply H]. intros p' A1.
  assert (A0 : Adv p0 s b p') by (eapply Adv_le; [|exact A1]; lia).
  cbv beta iota. apply wp_bind, wp_check; intros; now apply H.
Qed.

Lemma wp_synchronize Q : (forall p', Adv p0 s b p' -> Q tt p') -> wp synchronizeM Q p.
Proof using HA. intros H. apply H. now apply Adv_synchronize. Qed.

Lemma wp_pending l Q :
  (forall p', Adv p0 s b p' -> ps_current p' = ps_current p -> Q tt p') -> wp (modify (set_pending l)) Q p.
Proof using HA. intros H. apply H; [now apply Adv_pending|reflexivity]. Qed.

Lemma wp_take_pending Q :
  (forall l p', Adv p0 s b p' -> ps_current p' = ps_current p -> Q l p') -> wp take_pending_as_leading Q p.
Proof using HA. intros H. apply H; [now apply Adv_pending|reflexivity]. Qed.

Lemma wp_in_foreign f Q : (forall p', Adv p0 s b p' -> Q tt p') -> wp (modify (set_in_foreign f)) Q p.
Proof using HA. intros H. apply H. now apply Adv_in_foreign. Qed.

Lemma wp_no_brace_lit c Q : (forall p', Adv p0 s c p' -> Q tt p') -> wp (modify (set_no_brace_lit c)) Q p.
Proof using HA. intros H. apply H. eapply Adv_no_brace_lit, HA. Qed.

Lemma wp_depth f Q :
  (forall p', Adv p0 s b p' -> Q tt p') -> wp (modify (fun p => set_depth (f (ps_recursion_depth p)) p)) Q p.
Proof using HA. intros H. apply H. now apply Adv_depth. Qed.

End Rules.

(** ** Loops *)

Lemma wp_iter {S A} (I : S -> Parser -> Prop) (body : S -> M (S + A)) Q n st p :
  rem p < n -> I st p ->
  (forall st p, I st p ->
     wp (body st) (fun x p' => match x with inl st' => I st' p' /\ rem p' < rem p | inr a => Q a p' end) p) ->
  wp (iter n body st) Q p.
Proof.
  intros Hn Hi Hb. revert st p Hn Hi. induction n as [|n IH]; intros st p Hn Hi; [lia|].
  pose proof (Hb st p Hi) as H. unfold wp in H |- *. cbn [iter].
  destruct (body st p) as [[[st'|a] p']|]; auto. destruct H as [Hi' Hr].
  apply IH; auto. lia.
Qed.

Lemma wp_loop {S A} (I : S -> Parser -> Prop) (body : S -> M (S + A)) Q st p :
  I st p ->
  (forall st p, I st p ->
     wp (body st) (fun x p' => match x with inl st' => I st' p' /\ rem p' < rem p | inr a => Q a p' end) p) ->
  wp (loop body st) Q p.
Proof. intros Hi Hb. unfold loop. eapply (wp_iter I); eauto. Qed.

(** A loop is calm when each round is, and consumes input whenever it goes round again. *)
Lemma loop_calm {S A} N (body : S -> M (S + A)) st :
  (forall st p, wf p -> rem p < N ->
     wp (body st) (fun x p' => Adv p (match x with inl _ => 1 | inr _ => 0 end) (ps_no_brace_lit p) p') p) ->
  calm N (loop body st).
Proof.
  intros H p Hw Hn. apply (wp_loop (fun _ q => Adv p 0 (ps_no_brace_lit p) q)); [now apply Adv_refl|].
  intros st' q Ha. pose proof (ad_rem _ _ _ _ Ha) as Hr.
  eapply wp_conseq; [apply (H st'); [exact (ad_wf _ _ _ _ Ha)|lia]|].
  intros [x|x] p' Hb; pose proof (Adv_trans _ _ _ _ _ _ _ Ha Hb) as Hc; rewrite (ad_nbl _ _ _ _ Ha) in Hc.
  - split; [eapply Adv_le; [|exact Hc]; lia|]. pose proof (ad_rem _ _ _ _ Hb). lia.
  - exact Hc.
Qed.

(** When the first round consumes input, so does the loop. *)
Lemma loop_first {S A} N (body : S -> M (S + A)) st p :
  (forall st p, wf p -> rem p < N ->
     wp (body st) (fun x p' => Adv p (match x with inl _ => 1 | inr _ => 0 end) (ps_no_brace_lit p) p') p) ->
  rem p < N -> wp (body st) (fun _ p' => Adv p 1 (ps_no_brace_lit p) p') p ->
  wp (loop body st) (fun _ p' => Adv p 1 (ps_no_brace_lit p) p') p.
Proof.
  intros H Hn H1.
  apply (wp_loop (fun st' q => (st' = st /\ q = p) \/ Adv p 1 (ps_no_brace_lit p) q)); [auto|].
  intros st' q [[-> ->]|Ha].
  - eapply wp_conseq; [exact H1|]. intros [x|x] p' Ha; [|exact Ha].
    split; [auto|]. pose proof (ad_rem _ _ _ _ Ha). lia.
  - pose proof (ad_rem _ _ _ _ Ha) as Hr.
    eapply wp_conseq; [apply (H st'); [exact (ad_wf _ _ _ _ Ha)|lia]|].
    intros [x|x] p' Hb; pose proof (Adv_trans _ _ _ _ _ _ _ Ha Hb) as Hc; rewrite (ad_nbl _ _ _ _ Ha) in Hc.
    + split; [right; eapply Adv_le; [|exact Hc]; lia|]. pose proof (ad_rem _ _ _ _ Hb). lia.
    + exact Hc.
Qed.

Lemma do_while_calm N item cont :
  item_ok N item -> calm N cont -> calm N (do_while item cont).
Proof.
  intros Hi Hc. apply loop_calm. intros _ p Hw Hn. apply wp_bind.
  eapply use_eats_post; [apply Hi; auto|now apply Adv_refl|].
  intros [[|]|] p' Ha; cbn in Ha; auto.
  pose proof (ad_rem _ _ _ _ Ha). apply wp_bind. eapply use_calm; [exact Hc|exact Ha|lia|].
  intros [|] p2 A2; [auto|]. eapply Adv_le; [|exact A2]. lia.
Qed.

Lemma until_close_calm N k body : item_here N body -> calm N (until_close k body).
Proof.
  intros Hb. apply loop_calm. intros _ p Hw Hn.
  apply wp_bind, wp_check; intros E1; apply wp_bind, wp_check; intros E2; cbn [orb];
    try (apply wp_ret; now apply Adv_refl).
  apply wp_bind. eapply use_eats_post; [apply Hb; auto|now apply Adv_refl|].
  intros [[|]|] p' Ha; auto.
Qed.

(** ** Symbolic execution *)

Create HintDb contracts.
Create Rewrite HintDb parse_bool.
#[export] Hint Rewrite andb_false_r andb_true_r orb_false_r orb_true_r : parse_bool.
#[export] Hint Resolve do_while_calm until_close_calm eats_calm eats_eats_here item_ok_here : contracts.

Ltac not_eof := solve [discriminate | assumption | congruence].

Ltac bound :=
  match goal with
  | HA : Adv _ _ _ ?p |- rem ?p < _ =>
      let H := fresh in pose proof (ad_rem _ _ _ _ HA) as H; lia
  end.

(** Introduce the state a rule leads to, forgetting the previous progress fact. *)
Ltac next HA := intros; clear HA; cbv beta iota.

Ltac finish :=
  cbv beta iota; cbn [fst snd is_some];
  repeat lazymatch goal with |- Adv _ (match ?x with _ => _ end) _ _ => destruct x end;
  match goal with
  | HA : Adv ?p0 _ ?b ?p |- Adv ?p0 _ ?b ?p => eapply Adv_le; [|exact HA]; lia
  end.

Ltac call HA :=
  first
    [ eapply use_eats; [solve [eauto 4 with contracts nocore] | exact HA | bound | next HA | next HA]
    | eapply use_form; [solve [eauto 4 with contracts nocore] | exact HA | bound | next HA | next HA]
    | eapply use_eats_here; [solve [eauto 4 with contracts nocore] | exact HA | bound | not_eof | next HA | next HA]
    | eapply use_eats_on; [solve [eauto 4 with contracts nocore] | exact HA | bound | not_eof | next HA | next HA]
    | eapply use_calm; [solve [eauto 4 with contracts nocore] | exact HA | bound | next HA] ].

Ltac step :=
  cbv beta iota zeta; cbn [negb andb orb fst snd is_some];
  lazymatch goal with
  | |- wp (bind _ _) _ _ => apply wp_bind
  | |- wp (pbind _ _) _ _ => apply wp_pbind
  | |- wp (ret _) _ _ => apply wp_ret
  | |- wp (ok _) _ _ => apply wp_ret
  | |- wp stop _ _ => apply wp_ret
  | |- wp (leave _) _ _ => apply wp_ret
  | |- wp (again _) _ _ => apply wp_ret
  | |- wp (if ?c then _ else _) _ _ =>
      autorewrite with parse_bool; cbv beta iota;
      lazymatch goal with
      | |- wp (if ?c then _ else _) _ _ => destruct c eqn:?
      | _ => idtac
      end
  | |- wp (match ?x with _ => _ end) _ _ => destruct x eqn:?
  | |- wp (check _) _ _ => apply wp_check; intro
  | |- wp (gets _) _ _ => apply wp_gets
  | |- wp current_kind _ _ => apply wp_gets
  | |- wp syntax_cp _ _ => apply wp_gets
  | |- wp (cur_text_is _) _ _ => apply wp_gets
  | |- wp (cur_ident_is _) _ _ => apply wp_cur_ident_is; [intro|idtac]
  | |- wp (syntax_single_node _) _ _ => apply wp_gets
  | |- wp (syntax_single_node_kind _) _ _ => apply wp_gets
  | HA : Adv _ _ _ ?p |- wp advanceM _ ?p => eapply (wp_advance _ _ _ _ HA); [not_eof | next HA]
  | HA : Adv _ _ _ ?p |- wp (matchM _) _ ?p => eapply (wp_match _ _ _ _ HA); [not_eof | next HA | intro]
  | HA : Adv _ _ _ ?p |- wp comma _ ?p => eapply (wp_comma _ _ _ _ HA); [next HA | idtac]
  | HA : Adv _ _ _ ?p |- wp (comma_before _) _ ?p => eapply (wp_comma_before _ _ _ _ HA); next HA
  | HA : Adv _ _ _ ?p |- wp (skip _) _ ?p => eapply (wp_skip _ _ _ _ HA); [not_eof | next HA]
  | HA : Adv _ _ _ ?p |- wp (error _) _ ?p => eapply (wp_error _ _ _ _ HA); next HA
  | HA : Adv _ _ _ ?p |- wp (fail _) _ ?p => eapply (wp_fail _ _ _ _ HA); next HA
  | HA : Adv _ _ _ ?p |- wp (expect _ _) _ ?p => eapply (wp_expect _ _ _ _ HA); [not_eof | next HA | next HA]
  | HA : Adv _ _ _ ?p |- wp (expect_soft _ _) _ ?p => eapply (wp_expect_soft _ _ _ _ HA); [not_eof | next HA]
  | HA : Adv _ _ _ ?p |- wp (consume _ _) _ ?p => eapply (wp_consume _ _ _ _ HA); [not_eof | next HA | next HA]
  | HA : Adv _ _ _ ?p |- wp (syntax_wrap _ _) _ ?p => eapply (wp_wrap _ _ _ _ HA); next HA
  | HA : Adv _ _ _ ?p |- wp (wrapped_ident _ _) _ ?p => eapply (wp_wrapped_ident _ _ _ _ HA); [next HA | next HA]
  | HA : Adv _ _ _ ?p |- wp synchronizeM _ ?p => eapply (wp_synchronize _ _ _ _ HA); next HA
  | HA : Adv _ _ _ ?p |- wp drain_pending_trivia _ ?p => eapply (wp_pending _ _ _ _ HA); next HA
  | HA : Adv _ _ _ ?p |- wp take_pending_as_leading _ ?p => eapply (wp_take_pending _ _ _ _ HA); next HA
  | HA : Adv _ _ _ ?p |- wp (modify (set_in_foreign _)) _ ?p => eapply (wp_in_foreign _ _ _ _ HA); next HA
  | HA : Adv _ _ _ ?p |- wp _ _ ?p => call HA
  | |- Adv _ _ _ _ => finish
  | |- match ?x with _ => _ end => destruct x eqn:?
  end.

Ltac run := repeat step.

(** Open a contract: the state the routine starts from is its own origin. *)
Ltac start :=
  let q := fresh "p" in
  match goal with
  | |- eats _ _ => intros q ? ?
  | |- form_eats _ _ => intros q ? ?
  | |- calm _ _ => intros q ? ?
  | |- item_ok _ _ => intros q ? ?
  | |- item_here _ _ => intros q ? ? ?
  | |- eats_here _ _ => intros q ? ? ?
  | |- eats_on _ _ _ => intros q ? ? ?
  | |- forall _ p, wf p -> _ => intros ? q ? ?
  | |- wp _ _ ?p => idtac
  end;
  match goal with |- wp _ _ ?p => let HA := fresh "HA" in assert (HA := Adv_refl p ltac:(assumption)) end.
