(* ===== verification/Parser.v ===== *)
(** * The grammar ([src/parser/parser.c])

    Every [parse_*] function, in the order of the source. A function of the C code that calls
    one declared later takes the record [Rec] of the mutually recursive entry points; the knot
    is tied by recursion on a depth that [ParserTotal] shows to be bounded by the input. *)

From S2P Require Import Prelude Lexer SyntaxTree ParserCore.

Record TypeForm : Type := mkForm {
  tf_syntax_kind : SyntaxNodeKind;
  tf_is_type_meta : bool
}.

(** The recursive entry points. A function with an [out_kind] pointer returns the kind on
    success; callers ignore it on failure, except for type forms, which return it always. *)
Record Rec : Type := mkRec {
  rec_decl : P SyntaxNodeKind;
  rec_statement : P unit;
  rec_expression : P unit;
  rec_type_form : M (bool * TypeForm);
  rec_unary : P unit;
  rec_binary_rhs : bool -> nat -> Z -> P unit
}.

(** The double quote, for messages that show one. *)
Definition dq : string := String DQUOTE EmptyString.

Section Grammar.

Variable r : Rec.

Definition parse_expression_rec : P unit := rec_expression r.

(** [parse_type] and [parse_type_form], called before their definition. *)
Definition parse_type : P unit :=
  f <- rec_type_form r ;; if fst f then ok tt else stop.

(** ** Shared signature and body sub-parsers *)

Definition param_item (is_extern : bool) : P bool :=
  v <- check TOK_DOTDOTDOT ;;
  if v then
    (if negb is_extern then error "`...` variadic marker is only valid in extern signatures" else ret tt) ;;
    advanceM ;; ok false
  else
    param_cp <- syntax_cp ;;
    skip TOK_OWN ;;
    wrapped_ident SN_PARAM_NAME "Expected parameter name" ;;!
    expect TOK_COLON "Expected ':' after parameter name" ;;!
    parse_type ;;!
    syntax_wrap param_cp SN_PARAM ;;
    ok true.

Definition parse_param_list_body (is_extern : bool) : P unit :=
  c <- check TOK_RPAREN ;;
  if c then ok tt else do_while (param_item is_extern) (comma_before TOK_RPAREN).

Definition out_param_item : P bool :=
  out_param_cp <- syntax_cp ;;
  o <- check TOK_OWN ;;
  if o then fail "an out-parameter is owned by definition — drop `own`"
  else
    wrapped_ident SN_PARAM_NAME "Expected out-parameter name" ;;!
    expect TOK_COLON "Expected ':' after out-parameter name" ;;!
    parse_type ;;!
    syntax_wrap out_param_cp SN_OUT_PARAM ;;
    ok true.

Definition parse_proc_out_list : P unit :=
  a <- check TOK_ARROW ;;
  if a then
    fail "a proc has no return type (`->` is a func-only marker) — declare results as out-parameters in a `(...)` list"
  else
    l <- matchM TOK_LPAREN ;;
    if l then
      c <- check TOK_RPAREN ;;
      (if c then ok tt else do_while out_param_item (comma_before TOK_RPAREN)) ;;!
      expect TOK_RPAREN "Expected ')' after out-parameters"
    else ok tt.

Definition parse_func_return (is_extern : bool) : P unit :=
  a <- matchM TOK_ARROW ;;
  if a then
    l <- check TOK_LPAREN ;;
    if l then
      fail "a `->` return is a single type; for multiple results drop the `->` and write an out-parameter list `(out, …)` instead"
    else parse_type
  else
    l <- check TOK_LPAREN ;;
    if l then parse_proc_out_list
    else if negb is_extern then fail "Expected '->' or an out-parameter list '(...)'"
    else ok tt.

Definition query_column_item : P bool :=
  c <- check TOK_RBRACE ;;
  if c then ok false
  else
    param_cp <- syntax_cp ;;
    wrapped_ident SN_PARAM_NAME "Expected a column name" ;;!
    syntax_wrap param_cp SN_PARAM ;;
    ok true.

Definition parse_query_columns : P unit :=
  expect TOK_LBRACE "Expected '{' after 'query'" ;;!
  c <- check TOK_RBRACE ;;
  (if c then ok tt else do_while query_column_item (comma_before TOK_RBRACE)) ;;!
  expect TOK_RBRACE "Expected '}' to close query".

(** [while (!check('}') && !check(EOF)) { if (!parse_statement(parser)) synchronize(parser); }] *)
Definition statements_until_brace : P unit :=
  until_close TOK_RBRACE
    (o <- rec_statement r ;; (if is_some o then ret tt else synchronizeM) ;; ok true).

Definition parse_block_body : P unit :=
  expect TOK_LBRACE "Expected '{'" ;;!
  statements_until_brace ;;!
  expect_soft TOK_RBRACE "Expected '}'" ;;
  ok tt.

Definition parse_proc_sig (is_extern : bool) : P unit :=
  expect TOK_LPAREN "Expected '(' after 'proc'" ;;!
  parse_param_list_body is_extern ;;!
  expect TOK_RPAREN "Expected ')' after parameters" ;;!
  parse_proc_out_list.

Definition parse_func_sig (is_extern : bool) : P unit :=
  expect TOK_LPAREN "Expected '(' after 'func'" ;;!
  parse_param_list_body is_extern ;;!
  expect TOK_RPAREN "Expected ')' after parameters" ;;!
  parse_func_return is_extern.

(** ** Types *)

(** The form to report, with the verdict of [m]. *)
Definition with_form (k : SyntaxNodeKind) (meta : bool) (m : P unit) : M (bool * TypeForm) :=
  o <- m ;; ret (is_some o, mkForm k meta).

(** The form [k] when [m] succeeds, the preset [SN_TYPE_REF] when it fails. *)
Definition form_if_ok (k : SyntaxNodeKind) (m : P unit) : M (bool * TypeForm) :=
  o <- m ;; ret (if is_some o then (true, mkForm k false) else (false, mkForm SN_TYPE_REF false)).

(** The bracket dimensions: whether one was an expression, or [None] for an early [return 1]. *)
Definition array_dimensions : M (option bool) :=
  loop (fun any_number =>
    c <- check TOK_LBRACKET ;;
    if negb c then leave (Some any_number)
    else
      advanceM ;;
      b <- check TOK_RBRACKET ;;
      if b then advanceM ;; again any_number
      else
        e <- rec_expression r ;;
        if negb (is_some e) then leave None
        else
          m <- matchM TOK_RBRACKET ;;
          if m then again true
          else error "Expected ']' after array size expression" ;; leave None) false.

Definition element_type_name : P unit :=
  consume TOK_IDENT "Expected element type name after array brackets (e.g. `[]int`)" ;;!
  d <- check TOK_DOT ;;
  if d then advanceM ;; consume TOK_IDENT "Expected type name after '.' in qualified element type"
  else ok tt.

Definition parse_array_type : M (bool * TypeForm) :=
  d <- array_dimensions ;;
  match d with
  | None => ret (true, mkForm SN_TYPE_REF false)
  | Some any_number => form_if_ok (if any_number then SN_TYPE_SHAPED_ARRAY else SN_TYPE_ARRAY) element_type_name
  end.

(** [do { if (!parse_type(parser)) return 0; } while (match(parser, TOK_COMMA));] *)
Definition type_list : P unit := do_while (parse_type ;;! ok true) comma.

Definition parse_named_type : M (bool * TypeForm) :=
  is_handle <- cur_text_is "handle" ;;
  is_eff <- cur_text_is "Eff" ;;
  is_type_kw <- cur_text_is "type" ;;
  is_archetype <- cur_text_is "archetype" ;;
  is_opaque <- cur_text_is "opaque" ;;
  advanceM ;;
  if is_archetype || is_opaque then ret (true, mkForm SN_TYPE_REF false)
  else
    dot <- check TOK_DOT ;;
    if negb is_handle && negb is_type_kw && dot then
      with_form SN_TYPE_REF false
        (advanceM ;; consume TOK_IDENT "Expected type name after '.' in qualified type (e.g. io.file)")
    else if is_type_kw then ret (true, mkForm SN_TYPE_REF true)
    else
      lt <- check TOK_LT ;;
      if is_handle && lt then
        form_if_ok SN_TYPE_HANDLE
          (advanceM ;;
           consume TOK_IDENT "Expected archetype name after 'handle<'" ;;!
           expect TOK_GT "Expected '>' after archetype name in handle type")
      else
        lp <- check TOK_LPAREN ;;
        if is_eff && lp then
          form_if_ok SN_TYPE_EFF
            (advanceM ;;
             c <- check TOK_RPAREN ;;
             (if c then ok tt else type_list) ;;!
             expect TOK_RPAREN "Expected ')' to close the Eff(...) out-slot type list")
        else ret (true, mkForm SN_TYPE_REF false).

Definition parse_type_inner : M (bool * TypeForm) :=
  p <- check TOK_PROC ;;
  if p then advanceM ;; with_form SN_TYPE_PROC true (parse_proc_sig false)
  else
    f <- check TOK_FUNC ;;
    if f then advanceM ;; with_form SN_TYPE_FUNC true (parse_func_sig false)
    else
      s <- check TOK_SYSTEM ;;
      if s then advanceM ;; ret (true, mkForm SN_TYPE_REF true)
      else
        b <- check TOK_LBRACKET ;;
        if b then parse_array_type
        else
          i <- check TOK_IDENT ;;
          if negb i then error "Expected type name" ;; ret (false, mkForm SN_TYPE_REF false)
          else parse_named_type.

Definition parse_type_form : M (bool * TypeForm) :=
  cp <- syntax_cp ;;
  f <- parse_type_inner ;;
  syntax_wrap cp (tf_syntax_kind (snd f)) ;;
  ret f.

(** ** Archetype components *)

(** The names of a tuple group, counted. *)
Definition tuple_names : M nat :=
  loop (fun name_count =>
    c <- check TOK_RPAREN ;; e <- check TOK_EOF ;;
    if c || e then leave name_count
    else
      i <- check TOK_IDENT ;;
      if negb i then error "Expected a name in tuple group `(a, b, …)`" ;; leave name_count
      else
        advanceM ;;
        m <- matchM TOK_COMMA ;;
        if m then again (S name_count) else leave (S name_count)) 0.

Definition parse_tuple_name_group : P unit :=
  advanceM ;;
  name_count <- tuple_names ;;
  if (name_count =? 0)%nat then
    fail "Empty tuple group `()`: a tuple needs at least one name, e.g. `pos (x, y) :: T`"
  else
    expect TOK_RPAREN "Expected ')' to close tuple name group" ;;!
    c1 <- matchM TOK_COLON ;;
    c2 <- (if c1 then matchM TOK_COLON else ret false) ;;
    if negb c2 then fail "Expected `::` and a shared type after tuple name group `(a, b) :: T`"
    else
      l <- check TOK_LPAREN ;; n <- check TOK_NUMBER ;; s <- check TOK_STRING ;; m <- check TOK_MINUS ;;
      if l || n || s || m then parse_expression_rec else parse_type.

(** The first [:] of a component definition was consumed. *)
Definition arch_field_type : P unit :=
  c <- check TOK_COLON ;;
  (if c then advanceM ;; ok tt
   else
     is_meta <- cur_ident_is "type" ;;
     if negb is_meta then
       fail "archetype components are types: write `name :: type` to define a component, or a bare type name to reference one (`name: type` is not valid)"
     else
       advanceM ;;
       expect TOK_COLON "expected `:` after `type`: write `name : type : T`") ;;!
  parse_type ;;!
  skip TOK_COMMA ;; ok tt.

Definition parse_arch_field : P unit :=
  wrapped_ident SN_FIELD_NAME "Expected field name" ;;!
  l <- check TOK_LPAREN ;;
  if l then parse_tuple_name_group ;;! skip TOK_COMMA ;; ok tt
  else
    c <- check TOK_COLON ;;
    if negb c then skip TOK_COMMA ;; ok tt
    else advanceM ;; arch_field_type.

(** [while (!check('}') && !check(EOF)) { drain_pending_trivia; if (!parse_arch_field) break; }] *)
Definition arch_fields : P unit :=
  until_close TOK_RBRACE (drain_pending_trivia ;; o <- parse_arch_field ;; ok (is_some o)).

(** ** Value and type forms on the right of a binding *)

Definition parse_proc_form (is_extern : bool) : P SyntaxNodeKind :=
  parse_proc_sig is_extern ;;!
  b <- check TOK_LBRACE ;;
  if is_extern && b then
    fail "a proc inside a `#foreign` region is an FFI declaration and has no body — remove the `{ ... }` (or move it out of the `#foreign` region)"
  else if negb is_extern && b then parse_block_body ;;! ok SN_PROC_EXPR
  else ok (if is_extern then SN_PROC_EXPR else SN_TYPE_PROC).

Definition parse_func_form : P SyntaxNodeKind :=
  parse_func_sig false ;;!
  b <- check TOK_LBRACE ;;
  if b then parse_block_body ;;! ok SN_FUNC_EXPR else ok SN_TYPE_FUNC.

Definition parse_policy_form : P SyntaxNodeKind :=
  expect TOK_LPAREN "Expected '(' after 'policy'" ;;!
  parse_param_list_body false ;;!
  expect TOK_RPAREN "Expected ')' after policy parameters" ;;!
  a <- check TOK_ARROW ;;
  (if a then advanceM ;; parse_type else ok tt) ;;!
  b <- check TOK_LBRACE ;;
  if negb b then fail "a `policy` must have a body `{ ... }`"
  else parse_block_body ;;! ok SN_POLICY_EXPR.

(** [while (1) { name; if (!match(',')) break; if (check('}')) break; }] *)
Definition group_members : P unit :=
  do_while (consume TOK_IDENT "Expected member name in group" ;;! ok true) (comma_before TOK_RBRACE).

Definition parse_group_form : P SyntaxNodeKind :=
  advanceM ;;
  c <- check TOK_RBRACE ;;
  if c then fail "group must have at least one member"
  else
    group_members ;;!
    expect TOK_RBRACE "Expected '}' or ',' in group member list" ;;!
    ok SN_GROUP_EXPR.

(** ** Expressions *)

Definition parse_bracket_index_or_slice : P bool :=
  c <- check TOK_COLON ;;
  if c then
    advanceM ;;
    b <- check TOK_RBRACKET ;;
    (if negb b then parse_expression_rec else ok tt) ;;!
    expect TOK_RBRACKET "Expected ']'" ;;!
    ok true
  else
    parse_expression_rec ;;!
    c2 <- check TOK_COLON ;;
    if c2 then
      advanceM ;;
      b <- check TOK_RBRACKET ;;
      (if negb b then parse_expression_rec else ok tt) ;;!
      expect TOK_RBRACKET "Expected ']'" ;;!
      ok true
    else
      m <- check TOK_COMMA ;;
      if m then
        fail "multi-dimensional indexing is chained `a[i][j]` (one index per bracket), not comma `a[i, j]` — so each index can take its own failure policy"
      else
        expect TOK_RBRACKET "Expected ']'" ;;!
        ok false.

Definition index_kind (is_slice : bool) : SyntaxNodeKind := if is_slice then SN_SLICE_EXPR else SN_INDEX_EXPR.

Definition parse_opt_eff : M bool :=
  e <- cur_ident_is "eff" ;;
  if e then e_cp <- syntax_cp ;; advanceM ;; syntax_wrap e_cp SN_EFF ;; ret true
  else ret false.

Definition parse_opt_row_bind : M bool :=
  a <- cur_ident_is "as" ;;
  if a then
    advanceM ;;
    o <- wrapped_ident SN_QUERY_BIND "Expected a name after 'as' — `map (query {…} as w) eff` binds the matched row as `w`" ;;
    ret (is_some o)
  else ret false.

Definition parse_opt_writes : M bool :=
  l <- check TOK_LPAREN ;;
  if negb l then ret false
  else
    advanceM ;;
    o <- (c <- check TOK_RPAREN ;;
          (if c then ok tt
           else
             do_while
               (wrapped_ident SN_WRITE_PARAM "Expected a column name in the `(writes)` list — `map (Movers) (pos, vel) { … }`" ;;!
                ok true)
               (comma_before TOK_RPAREN)) ;;!
          expect TOK_RPAREN "Expected ')' to close the `(writes)` list") ;;
    ret (is_some o).

(** [do { if (!parse_expression(parser)) return 0; } while (match(',') && !check(close));] *)
Definition expr_list (close : TokenKind) : P unit :=
  do_while (parse_expression_rec ;;! ok true) (comma_before close).

(** [{ e, e, … }] *)
Definition parse_array_lit : P SyntaxNodeKind :=
  advanceM ;;
  c <- check TOK_RBRACE ;;
  (if c then ok tt else expr_list TOK_RBRACE) ;;!
  expect TOK_RBRACE "Expected '}' after array literal" ;;!
  ok SN_ARRAY_LIT_EXPR.

Definition parse_callable : P SyntaxNodeKind :=
  is_proc <- check TOK_PROC ;;
  advanceM ;;
  b <- check TOK_LBRACE ;;
  if b then parse_group_form
  else
    f <- gets ps_in_foreign ;;
    if is_proc then parse_proc_form f else parse_func_form.

Definition parse_arche : P SyntaxNodeKind :=
  advanceM ;;
  expect TOK_LBRACE "Expected '{' after 'archetype'" ;;!
  arch_fields ;;!
  expect_soft TOK_RBRACE "Expected '}'" ;;
  ok SN_ARCH_EXPR.

(** A query literal or a query name inside the parentheses of a kernel. *)
Definition query_selector (msg : string) : P unit :=
  q <- check TOK_QUERY ;;
  if q then
    q_cp <- syntax_cp ;;
    advanceM ;;
    parse_query_columns ;;!
    syntax_wrap q_cp SN_QUERY_EXPR ;;
    ok tt
  else wrapped_ident SN_QUERY_REF msg.

Definition parse_map : P SyntaxNodeKind :=
  advanceM ;;
  expect TOK_LPAREN "Expected '(' after 'map'" ;;!
  query_selector "Expected a query in `map(...)` — a name `map(Movers)` or a literal `map(query {…})`" ;;!
  parse_opt_row_bind ;;
  c <- check TOK_COMMA ;;
  if c then
    fail "maps don't support joins — a map runs over ONE query; to combine pools, nest a `map (…) eff` inside another (cross-pool work is explicit nesting, not a join)"
  else
    expect TOK_RPAREN "Expected ')'" ;;!
    parse_opt_writes ;;
    e <- parse_opt_eff ;;
    parse_block_body ;;!
    ok (if e then SN_EACH_EXPR else SN_MAP_EXPR).

Definition system_selectors : P unit :=
  advanceM ;;
  do_while
    (query_selector "Expected a query in `system(...)` — a name `system(Drawables)` or a literal `system(query {…})`" ;;!
     parse_opt_row_bind ;;
     ok true) comma ;;!
  expect TOK_RPAREN "Expected ')'" ;;!
  parse_opt_writes ;;
  ok tt.

Definition parse_system : P SyntaxNodeKind :=
  advanceM ;;
  l <- check TOK_LPAREN ;;
  (if l then system_selectors else ok tt) ;;!
  parse_opt_eff ;;
  parse_block_body ;;!
  ok SN_SYSTEM_EXPR.

Definition enum_variant_item : P bool :=
  c <- check TOK_RBRACE ;;
  if c then ok false
  else
    v_cp <- syntax_cp ;;
    consume TOK_IDENT "Expected enum variant name" ;;!
    e <- matchM TOK_EQ ;;
    (if e then consume TOK_NUMBER "Expected integer after '=' in enum variant" else ok tt) ;;!
    syntax_wrap v_cp SN_ENUM_VARIANT ;;
    ok true.

Definition parse_enum : P SyntaxNodeKind :=
  advanceM ;;
  expect TOK_LBRACE "Expected '{' after 'enum'" ;;!
  c <- check TOK_RBRACE ;;
  (if c then ok tt else do_while enum_variant_item (comma_before TOK_RBRACE)) ;;!
  expect TOK_RBRACE "Expected '}' to close enum" ;;!
  ok SN_ENUM_EXPR.

(** [table<Name>] after [table]. *)
Definition parse_table_ref : P SyntaxNodeKind :=
  advanceM ;;
  consume TOK_IDENT "Expected archetype name in 'table<'" ;;!
  expect TOK_GT "Expected '>' after archetype name in 'table<...>'" ;;!
  ok SN_NAME_EXPR.

Definition sum_variant_item : P bool :=
  v_cp <- syntax_cp ;;
  consume TOK_IDENT "Expected sum variant name" ;;!
  l <- matchM TOK_LPAREN ;;
  (if l then
     c <- check TOK_RPAREN ;;
     (if c then ok tt else type_list) ;;!
     expect TOK_RPAREN "Expected ')' to close sum variant payload"
   else ok tt) ;;!
  syntax_wrap v_cp SN_SUM_VARIANT ;;
  skip TOK_COMMA ;;
  ok true.

Definition parse_sum : P SyntaxNodeKind :=
  advanceM ;;
  until_close TOK_RBRACE sum_variant_item ;;!
  expect TOK_RBRACE "Expected '}' to close sum" ;;!
  ok SN_SUM_EXPR.

(** [do { e; nelem++; } while (match(',') && !check(')'));], the count returned. *)
Definition tuple_elements : P nat :=
  loop (fun nelem =>
    e <- parse_expression_rec ;;
    if negb (is_some e) then leave None
    else
      c <- comma_before TOK_RPAREN ;;
      if c then again (S nelem) else leave (Some (S nelem))) 0.

Definition tuple_kind (nelem : nat) : SyntaxNodeKind := if (1 <? nelem)%nat then SN_TUPLE_LIT else SN_PAREN_EXPR.

Definition entity_tuple_value : P unit :=
  tup_cp <- syntax_cp ;;
  advanceM ;;
  c <- check TOK_RPAREN ;;
  nelem <-! (if c then ok 0 else tuple_elements) ;;
  expect TOK_RPAREN "Expected ')' to close tuple value" ;;!
  syntax_wrap tup_cp (tuple_kind nelem) ;;
  ok tt.

Definition entity_field_item : P bool :=
  c <- check TOK_RBRACE ;;
  if c then ok false
  else
    wrapped_ident SN_FIELD_NAME "Expected field name in entity literal" ;;!
    expect TOK_COLON "Expected ':' after field name in entity literal" ;;!
    l <- check TOK_LPAREN ;;
    (if l then entity_tuple_value else parse_expression_rec) ;;!
    ok true.

Definition parse_entity : P SyntaxNodeKind :=
  advanceM ;;
  c <- check TOK_RBRACE ;;
  (if c then ok tt else do_while entity_field_item (comma_before TOK_RBRACE)) ;;!
  expect TOK_RBRACE "Expected '}' to close entity literal" ;;!
  ok SN_ENTITY_EXPR.

Definition field_name : P unit := wrapped_ident SN_FIELD_NAME "Expected field name after '.'".

(** [while (match('.')) field] *)
Definition chained_fields : P unit :=
  loop (fun _ : unit =>
    d <- matchM TOK_DOT ;;
    if negb d then leave (Some tt)
    else o <- field_name ;; if is_some o then again tt else leave None) tt.

(** [( args )] of a qualified call. *)
Definition qualified_call_args : P unit :=
  advanceM ;;
  c <- check TOK_RPAREN ;;
  (if c then ok tt else expr_list TOK_RPAREN) ;;!
  expect TOK_RPAREN "Expected ')' after arguments".

(** The [.] after the leading name was consumed. *)
Definition parse_field_access : P SyntaxNodeKind :=
  field_name ;;!
  chained_fields ;;!
  b <- matchM TOK_LBRACKET ;;
  if b then s <-! parse_bracket_index_or_slice ;; ok (index_kind s)
  else
    l <- check TOK_LPAREN ;;
    if l then qualified_call_args ;;! ok SN_CALL_EXPR
    else ok SN_FIELD_EXPR.

(** The operator argument of [reduce]/[scan]. *)
Definition collective_op : M unit :=
  op_cp <- syntax_cp ;;
  advanceM ;;
  syntax_wrap op_cp SN_LITERAL_EXPR ;;
  skip TOK_COMMA.

Definition call_arg_item : P bool :=
  c <- check TOK_RPAREN ;;
  if c then ok false else parse_expression_rec ;;! ok true.

Definition parse_call (prim_name_cp : nat) (is_collective : bool) : P SyntaxNodeKind :=
  syntax_wrap prim_name_cp SN_CALLEE_NAME ;;
  advanceM ;;
  c <- check TOK_RPAREN ;;
  (if c then ok tt
   else
     p <- check TOK_PLUS ;; s <- check TOK_STAR ;;
     (if is_collective && (p || s) then collective_op else ret tt) ;;
     do_while call_arg_item (comma_before TOK_RPAREN)) ;;!
  expect TOK_RPAREN "Expected ')' after arguments" ;;!
  ok SN_CALL_EXPR.

Definition parse_ident_expr : P SyntaxNodeKind :=
  prim_name_cp <- syntax_cp ;;
  is_table <- cur_ident_is "table" ;;
  is_sum <- cur_ident_is "sum" ;;
  is_reduce <- cur_ident_is "reduce" ;;
  is_scan <- cur_ident_is "scan" ;;
  advanceM ;;
  lt <- check TOK_LT ;;
  if is_table && lt then parse_table_ref
  else
    lb <- check TOK_LBRACE ;;
    if is_sum && lb then parse_sum
    else
      nbl <- gets ps_no_brace_lit ;;
      if lb && negb nbl then parse_entity
      else
        d <- matchM TOK_DOT ;;
        if d then parse_field_access
        else
          b <- matchM TOK_LBRACKET ;;
          if b then s <-! parse_bracket_index_or_slice ;; ok (index_kind s)
          else
            l <- check TOK_LPAREN ;;
            if l then parse_call prim_name_cp (is_reduce || is_scan)
            else ok SN_NAME_EXPR.

(** The elements of a parenthesised group, its [(] consumed. *)
Definition paren_elements : P nat :=
  loop (fun nelem =>
    c <- check TOK_RPAREN ;;
    if c then leave (Some nelem)
    else
      e <- parse_expression_rec ;;
      if negb (is_some e) then leave None
      else
        m <- comma ;;
        if m then again (S nelem) else leave (Some (S nelem))) 0.

(** [out_kind] is left as the caller set it, to [SN_NAME_EXPR]; the group wraps itself. *)
Definition parse_paren (prim_start : nat) : P SyntaxNodeKind :=
  c <- check TOK_RPAREN ;;
  nelem <-! (if c then ok 0 else paren_elements) ;;
  expect_soft TOK_RPAREN "Expected ')' after expression" ;;
  syntax_wrap prim_start (tuple_kind nelem) ;;
  ok SN_NAME_EXPR.

Definition parse_primary_expr : P SyntaxNodeKind :=
  prim_start <- syntax_cp ;;
  k <- current_kind ;;
  match k with
  | TOK_NUMBER => advanceM ;; ok SN_LITERAL_EXPR
  | TOK_STRING => advanceM ;; ok SN_STRING_EXPR
  | TOK_CHAR_LIT => advanceM ;; ok SN_LITERAL_EXPR
  | TOK_LBRACE => parse_array_lit
  | TOK_PROC | TOK_FUNC => parse_callable
  | TOK_POLICY => advanceM ;; parse_policy_form
  | TOK_ARCHETYPE => parse_arche
  | TOK_QUERY => advanceM ;; parse_query_columns ;;! ok SN_QUERY_EXPR
  | TOK_MAP => parse_map
  | TOK_SYSTEM => parse_system
  | TOK_ENUM => parse_enum
  | TOK_IDENT => parse_ident_expr
  | TOK_LPAREN => advanceM ;; parse_paren prim_start
  | _ => fail "Expected expression"
  end.

Definition takes_policy (kind : SyntaxNodeKind) : bool :=
  match kind with SN_INDEX_EXPR | SN_SLICE_EXPR | SN_CALL_EXPR => true | _ => false end.

Definition parse_opt_policy (kind : SyntaxNodeKind) : P unit :=
  b <- check TOK_BANG ;; q <- check TOK_QUESTION ;;
  if takes_policy kind && (b || q) then
    pol_cp <- syntax_cp ;;
    advanceM ;;
    consume TOK_IDENT "Expected a policy name after the sigil (e.g. `a[i] !clamp`, `insert(P,x) ?reject`)" ;;!
    syntax_wrap pol_cp SN_POLICY_REF ;;
    ok tt
  else ok tt.

Definition chains (kind : SyntaxNodeKind) : bool :=
  match kind with SN_INDEX_EXPR | SN_SLICE_EXPR | SN_CALL_EXPR | SN_FIELD_EXPR => true | _ => false end.

(** [do { advance; field } while (check('.'));] *)
Definition dotted_fields : P unit := do_while (advanceM ;; field_name ;;! ok true) (check TOK_DOT).

(** The postfix chaining loop, over the kind of the node parsed so far. *)
Definition postfix_chain (p_cp : nat) (prim_kind : SyntaxNodeKind) : P SyntaxNodeKind :=
  loop (fun prim_kind =>
    d <- check TOK_DOT ;; b <- check TOK_LBRACKET ;;
    if negb (chains prim_kind && (d || b)) then leave (Some prim_kind)
    else
      syntax_wrap p_cp prim_kind ;;
      if d then
        o <- dotted_fields ;;
        if is_some o then again SN_FIELD_EXPR else leave None
      else
        advanceM ;;
        o <- (s <-! parse_bracket_index_or_slice ;; parse_opt_policy (index_kind s) ;;! ok (index_kind s)) ;;
        match o with Some k => again k | None => leave None end) prim_kind.

(** The non-prefix case of [parse_unary_expr]. *)
Definition parse_postfix_expr : P unit :=
  p_cp <- syntax_cp ;;
  prim_kind <-! parse_primary_expr ;;
  parse_opt_policy prim_kind ;;!
  final_kind <-! postfix_chain p_cp prim_kind ;;
  single <- syntax_single_node p_cp ;;
  (if negb single then syntax_wrap p_cp final_kind else ret tt) ;;
  ok tt.

Definition is_prefix_op (k : TokenKind) : bool :=
  match k with TOK_MOVE | TOK_COPY | TOK_MINUS | TOK_BANG => true | _ => false end.

(** [move]/[copy] and [-]/[!] have the same body. *)
Definition parse_unary_expr : P unit :=
  u_cp <- syntax_cp ;;
  k <- current_kind ;;
  if is_prefix_op k then
    advanceM ;;
    rec_unary r ;;!
    syntax_wrap u_cp SN_UNARY_EXPR ;;
    ok tt
  else parse_postfix_expr.

Definition binop_prec (k : TokenKind) : Z :=
  match k with
  | TOK_STAR | TOK_SLASH | TOK_PERCENT => 5
  | TOK_PLUS | TOK_MINUS => 4
  | TOK_LT | TOK_GT | TOK_LT_EQ | TOK_GT_EQ | TOK_EQ_EQ | TOK_BANG_EQ => 3
  | TOK_AMP_AMP => 2
  | TOK_PIPE_PIPE => 1
  | TOK_PIPE_GT => 1
  | _ => -1
  end%Z.

Definition is_div (op : TokenKind) : bool := match op with TOK_SLASH | TOK_PERCENT => true | _ => false end.

(** [while (binop_prec(current) > prec) if (!parse_binary_rhs(parser, 1, right_cp, prec + 1)) return 0;] *)
Definition tighter_rhs (right_cp : nat) (prec : Z) : P unit :=
  loop (fun _ : unit =>
    k <- current_kind ;;
    if (prec <? binop_prec k)%Z then
      o <- rec_binary_rhs r true right_cp (prec + 1)%Z ;;
      if is_some o then again tt else leave None
    else leave (Some tt)) tt.

(** [a / b !policy] *)
Definition divide_policy (op : TokenKind) : P unit :=
  b <- check TOK_BANG ;;
  if is_div op && b then
    pol_cp <- syntax_cp ;;
    advanceM ;;
    consume TOK_IDENT "Expected a policy name after '!' (e.g. `a / b !zero`)" ;;!
    syntax_wrap pol_cp SN_POLICY_REF ;;
    ok tt
  else ok tt.

(** One round of the climbing loop, its operator known. *)
Definition binary_round (op : TokenKind) (left_cp : nat) : P unit :=
  advanceM ;;
  right_cp <- syntax_cp ;;
  parse_unary_expr ;;!
  tighter_rhs right_cp (binop_prec op) ;;!
  divide_policy op ;;!
  syntax_wrap left_cp SN_BINARY_EXPR ;;
  ok tt.

Definition parse_binary_rhs (ok_left : bool) (left_cp : nat) (min_prec : Z) : P unit :=
  if negb ok_left then stop
  else
    loop (fun _ : unit =>
      k <- current_kind ;;
      if (binop_prec k <? min_prec)%Z then leave (Some tt)
      else o <- binary_round k left_cp ;; if is_some o then again tt else leave None) tt.

Definition parse_binary_expr : P unit :=
  left_cp <- syntax_cp ;;
  o <- parse_unary_expr ;;
  parse_binary_rhs (is_some o) left_cp 1.

Definition parse_expression : P unit := parse_binary_expr.

(** ** Statements *)

Definition global_arche_msg : string :=
  "archetypes must be declared at global scope — move this `arche { … }` shape out of the proc/block (anonymous `arche { … }` literals in expressions are fine)".

(** A value on the right of [:=] or [::] inside a body: anything but an archetype. *)
Definition local_value : P unit :=
  rhs_cp <- syntax_cp ;;
  parse_expression_rec ;;!
  k <- syntax_single_node_kind rhs_cp ;;
  if SyntaxNodeKind_beq k SN_ARCH_EXPR then fail global_arche_msg else ok tt.

Definition multi_bind_names : P unit :=
  loop (fun _ : unit =>
    c <- check TOK_COLON ;; q <- check TOK_EQ ;; e <- check TOK_EOF ;;
    if c || q || e then leave (Some tt)
    else
      i <- check TOK_IDENT ;;
      if negb i then error "Expected variable name in multi-value binding" ;; leave None
      else advanceM ;; m <- comma ;; if m then again tt else leave (Some tt)) tt.

(** [a, b, c := expr], the first comma consumed. *)
Definition multi_binding : P SyntaxNodeKind :=
  multi_bind_names ;;!
  c <- matchM TOK_COLON ;;
  (if c then expect TOK_EQ "Expected '=' after ':' in multi-value binding"
   else expect TOK_EQ "Expected ':=' or '=' in multi-value binding") ;;!
  parse_expression_rec ;;!
  ok SN_MULTI_BIND_STMT.

(** [x : …], the first [:] consumed. *)
Definition colon_binding : P unit :=
  e <- check TOK_EQ ;;
  if e then advanceM ;; local_value
  else
    c <- check TOK_COLON ;;
    if c then
      advanceM ;;
      skip TOK_ALIAS ;;
      local_value
    else
      tf <- parse_type_form ;;
      if negb (fst tf) then stop
      else
        c2 <- matchM TOK_COLON ;;
        if c2 then (if tf_is_type_meta (snd tf) then parse_type else parse_expression_rec)
        else
          q <- matchM TOK_EQ ;;
          if q then parse_expression_rec else ok tt.

Definition parse_binding_tail : P SyntaxNodeKind :=
  m <- comma ;;
  if m then multi_binding
  else
    c <- matchM TOK_COLON ;;
    (if c then colon_binding
     else
       q <- matchM TOK_EQ ;;
       if q then parse_expression_rec
       else fail "Expected ':' or '=' after variable name") ;;!
    ok SN_BIND_STMT.

Definition out_arg_item : P bool :=
  out_arg_cp <- syntax_cp ;;
  consume TOK_IDENT "Expected out-argument name" ;;!
  c <- matchM TOK_COLON ;;
  (if c then
     rp <- check TOK_RPAREN ;; cm <- check TOK_COMMA ;;
     if negb rp && negb cm then parse_type else ok tt
   else ok tt) ;;!
  syntax_wrap out_arg_cp SN_OUT_ARG ;;
  ok true.

(** [foo(in)(out)], at the second [(]. *)
Definition proc_call_outs : P SyntaxNodeKind :=
  advanceM ;;
  c <- check TOK_RPAREN ;;
  (if c then ok tt else do_while out_arg_item (comma_before TOK_RPAREN)) ;;!
  expect TOK_RPAREN "Expected ')' after out-arguments" ;;!
  ok SN_PROC_CALL_STMT.

Definition is_assign_op (k : TokenKind) : bool :=
  match k with
  | TOK_EQ | TOK_PLUS_EQ | TOK_MINUS_EQ | TOK_STAR_EQ | TOK_SLASH_EQ | TOK_PERCENT_EQ => true
  | _ => false
  end.

Definition parse_simple_statement : P SyntaxNodeKind :=
  target_cp <- syntax_cp ;;
  parse_expression ;;!
  target <- syntax_single_node_kind target_cp ;;
  k <- current_kind ;;
  if SyntaxNodeKind_beq target SN_NAME_EXPR && (TokenKind_beq k TOK_COLON || TokenKind_beq k TOK_COMMA) then
    parse_binding_tail
  else if SyntaxNodeKind_beq target SN_CALL_EXPR && TokenKind_beq k TOK_LPAREN then proc_call_outs
  else if is_assign_op k then
    advanceM ;; parse_expression_rec ;;! ok SN_ASSIGN_STMT
  else ok SN_EXPR_STMT.

(** Each of the following is the body of one [if] of [parse_statement], its keyword consumed:
    [None] is [goto cleanup] with [ok] still 0, [Some k] the statement kind with [ok] 1. *)

Definition each_field_stmt : P SyntaxNodeKind :=
  consume TOK_IDENT "Expected binding name after 'each_field'" ;;!
  c <- matchM TOK_COLON ;;
  (if c then parse_type else ok tt) ;;!
  expect TOK_IN "Expected 'in' after each_field binding" ;;!
  consume TOK_IDENT "Expected archetype parameter name after 'in'" ;;!
  expect TOK_LBRACE "Expected '{' to start each_field body" ;;!
  until_close TOK_RBRACE (o <- rec_statement r ;; ok (is_some o)) ;;!
  expect_soft TOK_RBRACE "Expected '}' to close each_field body" ;;
  ok SN_EACH_FIELD_STMT.

(** [if (!parse_expression(parser)) { error(parser, msg); goto cleanup; }] *)
Definition expression_or (msg : string) : P unit :=
  o <- parse_expression_rec ;; if is_some o then ok tt else fail msg.

Definition return_values : P unit :=
  expression_or "Expected expression after 'return'" ;;!
  loop (fun _ : unit =>
    c <- comma_before TOK_SEMI ;;
    if negb c then leave (Some tt)
    else
      o <- expression_or "Expected expression after ',' in return statement" ;;
      if is_some o then again tt else leave None) tt.

Definition return_stmt : P SyntaxNodeKind :=
  s <- check TOK_SEMI ;;
  (if negb s then return_values else ok tt) ;;!
  expect_soft TOK_SEMI "Expected ';' after return statement" ;;
  ok SN_RETURN_STMT.

(** A match-arm pattern; [false] leaves the arm loop. *)
Definition match_pattern : M bool :=
  k <- current_kind ;;
  match k with
  | TOK_NUMBER | TOK_STRING | TOK_CHAR_LIT => advanceM ;; ret true
  | TOK_IDENT =>
      is_wild <- cur_text_is "_" ;;
      advanceM ;;
      d <- check TOK_DOT ;;
      if d then
        advanceM ;;
        o <- consume TOK_IDENT "Expected an enum case after '.' in a match pattern" ;;
        ret (is_some o)
      else if negb is_wild then
        error "a match arm names an enum value — qualify it `Enum.case` (a bare case name is not a value)" ;;
        ret false
      else ret true
  | _ => error "Expected match pattern (`Enum.case`, literal, or '_')" ;; ret false
  end.

(** A [{ … }] block or a single statement; [false] leaves the arm loop. *)
Definition match_arm_body : M bool :=
  b <- check TOK_LBRACE ;;
  if b then o <- parse_block_body ;; ret (is_some o)
  else
    o <- rec_statement r ;;
    (if is_some o then ret tt else synchronizeM) ;;
    ret true.

Definition match_arm : P bool :=
  arm_cp <- syntax_cp ;;
  p <- match_pattern ;;
  if negb p then ok false
  else
    c <- expect TOK_COLON "Expected ':' after match pattern" ;;
    if negb (is_some c) then ok false
    else
      b <- match_arm_body ;;
      if negb b then ok false
      else
        syntax_wrap arm_cp SN_MATCH_ARM ;;
        skip TOK_COMMA ;;
        ok true.

Definition match_stmt : P SyntaxNodeKind :=
  prev_nbl <- gets ps_no_brace_lit ;;
  modify (set_no_brace_lit true) ;;
  scrut_ok <- parse_expression_rec ;;
  modify (set_no_brace_lit prev_nbl) ;;
  if negb (is_some scrut_ok) then stop
  else
    expect TOK_LBRACE "Expected '{' after match scrutinee" ;;!
    until_close TOK_RBRACE match_arm ;;!
    expect_soft TOK_RBRACE "Expected '}' to close match" ;;
    ok SN_MATCH_STMT.

Definition MAX_TARGETS : Z := 1000.

(** The targets of [(x, y:, n: int) = expr;], counted; [None] is [goto cleanup]. *)
Definition binding_targets : P unit :=
  loop (fun loop_count =>
    c <- check TOK_RPAREN ;; e <- check TOK_EOF ;;
    if c || e then leave (Some tt)
    else if (MAX_TARGETS <? loop_count + 1)%Z then error "Too many binding targets" ;; leave (Some tt)
    else
      i <- check TOK_IDENT ;;
      if negb i then error "Expected variable name in binding" ;; leave (Some tt)
      else
        advanceM ;;
        cl <- matchM TOK_COLON ;;
        o <- (if cl then
                cm <- check TOK_COMMA ;; rp <- check TOK_RPAREN ;;
                if negb cm && negb rp then parse_type else ok tt
              else ok tt) ;;
        if negb (is_some o) then leave None
        else m <- comma ;; if m then again (loop_count + 1)%Z else leave (Some tt)) 0%Z.

Definition paren_bind_stmt : P SyntaxNodeKind :=
  binding_targets ;;!
  expect TOK_RPAREN "Expected ')' after binding targets" ;;!
  expect TOK_EQ "Expected '=' after binding targets" ;;!
  parse_expression_rec ;;!
  expect_soft TOK_SEMI "Expected ';' after binding statement" ;;
  ok SN_MULTI_BIND_STMT.

(** A braced body or exactly one statement, whose result is ignored. *)
Definition branch_body (msg : string) : M unit :=
  b <- matchM TOK_LBRACE ;;
  if b then statements_until_brace ;; expect_soft TOK_RBRACE msg
  else rec_statement r ;; ret tt.

Definition if_stmt : P SyntaxNodeKind :=
  expect TOK_LPAREN "Expected '(' after 'if'" ;;!
  parse_expression_rec ;;!
  expect TOK_RPAREN "Expected ')' after if condition" ;;!
  branch_body "Expected '}' after if body" ;;
  e <- matchM TOK_ELSE ;;
  (if e then branch_body "Expected '}' after else body" else ret tt) ;;
  ok SN_IF_STMT.

(** A simple statement of a [for] header, wrapped on its own. *)
Definition for_part : P unit :=
  cp <- syntax_cp ;;
  kind <-! parse_simple_statement ;;
  syntax_wrap cp kind ;;
  ok tt.

(** [init; cond; incr) {], the [(] consumed. *)
Definition for_clause : P unit :=
  s1 <- check TOK_SEMI ;;
  (if negb s1 then for_part else ok tt) ;;!
  expect TOK_SEMI "Expected ';' in for loop" ;;!
  s2 <- check TOK_SEMI ;;
  (if negb s2 then parse_expression_rec else ok tt) ;;!
  expect TOK_SEMI "Expected ';' in for loop" ;;!
  c <- check TOK_RPAREN ;;
  (if negb c then for_part else ok tt) ;;!
  expect TOK_RPAREN "Expected ')' after for clause" ;;!
  expect TOK_LBRACE "Expected '{'".

Definition for_stmt : P SyntaxNodeKind :=
  b <- matchM TOK_LBRACE ;;
  (if b then ok tt
   else
     l <- matchM TOK_LPAREN ;;
     if l then for_clause
     else
       fail "for-in is not supported — iterate with a `map` (over an archetype) or a C-style `for (init; cond; incr)`") ;;!
  statements_until_brace ;;!
  expect_soft TOK_RBRACE "Expected '}'" ;;
  ok SN_FOR_STMT.

Definition let_removed_msg : string :=
  "`let` was removed — write a bare binding: `x := expr`, `x: T = expr`, or `a, b := expr`".

Definition statement_body : P SyntaxNodeKind :=
  k <- current_kind ;;
  match k with
  | TOK_SEMI => advanceM ;; stop
  | TOK_BREAK => advanceM ;; expect_soft TOK_SEMI "Expected ';' after break" ;; ok SN_BREAK_STMT
  | TOK_CONTINUE => advanceM ;; expect_soft TOK_SEMI "Expected ';' after continue" ;; ok SN_CONTINUE_STMT
  | TOK_EACH_FIELD => advanceM ;; each_field_stmt
  | TOK_RETURN => advanceM ;; return_stmt
  | TOK_MATCH => advanceM ;; match_stmt
  | TOK_LBRACE => parse_block_body ;;! ok SN_BLOCK
  | TOK_LPAREN => advanceM ;; paren_bind_stmt
  | TOK_LET => error let_removed_msg ;; advanceM ;; stop
  | TOK_IF => advanceM ;; if_stmt
  | TOK_FOR => advanceM ;; for_stmt
  | _ =>
      kind <-! parse_simple_statement ;;
      expect_soft TOK_SEMI "Expected ';' after statement" ;;
      ok kind
  end.

Definition MAX_RECURSION_DEPTH : Z := 1000.

(** The limit test, the body and the [cleanup:] label, which decrements the depth on every
    path, the rejected one included. *)
Definition parse_statement : P unit :=
  stmt_cp <- syntax_cp ;;
  depth <- gets ps_recursion_depth ;;
  o <- (if (MAX_RECURSION_DEPTH <? depth)%Z then fail "Recursion limit exceeded"
        else
          modify (fun p => set_depth (ps_recursion_depth p + 1) p) ;;
          take_pending_as_leading ;;
          statement_body) ;;
  modify (fun p => set_depth (ps_recursion_depth p - 1) p) ;;
  match o with
  | Some stmt_kind => syntax_wrap stmt_cp stmt_kind ;; ok tt
  | None => stop
  end.

(** ** Declarations *)

Definition require_decl_terminator : M unit :=
  m <- matchM TOK_SEMI ;;
  if m then ret tt
  else
    b <- gets (fun p => kind_is TOK_RBRACE (ps_previous p)) ;;
    if b then ret tt else error "expected `;` to end the declaration".

(** [arche { cols }] as the shape of an anonymous pool. *)
Definition pool_arche : P unit :=
  arch_cp <- syntax_cp ;;
  advanceM ;;
  expect TOK_LBRACE "Expected '{' after 'archetype'" ;;!
  arch_fields ;;!
  expect TOK_RBRACE "Expected '}' after archetype fields" ;;!
  syntax_wrap arch_cp SN_ARCH_EXPR ;;
  ok tt.

(** [a.b.c] after the head name: [while (check('.')) { advance; name }]. *)
Definition qualified_tail (msg : string) : P unit :=
  loop (fun _ : unit =>
    d <- check TOK_DOT ;;
    if negb d then leave (Some tt)
    else advanceM ;; o <- consume TOK_IDENT msg ;; if is_some o then again tt else leave None) tt.

(** The pool's shape; whether it opened a block. *)
Definition pool_shape : P bool :=
  a <- check TOK_ARCHETYPE ;;
  if a then pool_arche ;;! ok true
  else
    consume TOK_IDENT "Expected an archetype name or `arche {…}` after pool capacity (e.g. `[8]Particle`)" ;;!
    qualified_tail "expected an identifier after `.` in a qualified pool name" ;;!
    ok false.

Definition pool_live_count : P unit :=
  l <- matchM TOK_LPAREN ;;
  if l then
    parse_expression_rec ;;!
    expect_soft TOK_RPAREN "Expected ')' after pool live-count in `[C]Name(N)`" ;;
    ok tt
  else ok tt.

(** One [field: expr] of the init block; an error breaks out of the list. *)
Definition pool_init_item : P bool :=
  i <- check TOK_IDENT ;;
  if negb i then error "Expected field name in pool init block" ;; ok false
  else
    advanceM ;;
    c <- matchM TOK_COLON ;;
    if negb c then error "Expected ':' after field name in pool init block" ;; ok false
    else
      e <- parse_expression_rec ;;
      if negb (is_some e) then error "Expected expression after ':' in pool init block" ;; ok false
      else ok true.

(** The optional [{V}] block; whether it was there. *)
Definition pool_init_block : P bool :=
  b <- matchM TOK_LBRACE ;;
  if b then
    c <- check TOK_RBRACE ;;
    (if c then ok tt else do_while pool_init_item (comma_before TOK_RBRACE)) ;;!
    expect_soft TOK_RBRACE "Expected '}' after pool init block" ;;
    ok true
  else ok false.

Definition pool_handler : P unit :=
  q <- check TOK_QUESTION ;;
  if q then
    pol_cp <- syntax_cp ;;
    advanceM ;;
    consume TOK_IDENT "Expected a handler name after '?' on a pool decl (e.g. `[8]Foo ?evict_oldest`)" ;;!
    syntax_wrap pol_cp SN_POLICY_REF ;;
    ok tt
  else ok tt.

Definition pool_decl : P SyntaxNodeKind :=
  advanceM ;;
  parse_expression_rec ;;!
  expect TOK_RBRACKET "Expected ']' after pool capacity in `[C]Name`" ;;!
  shape_block <-! pool_shape ;;
  pool_live_count ;;!
  init_block <-! pool_init_block ;;
  pool_handler ;;!
  (if shape_block || init_block then skip TOK_SEMI else require_decl_terminator) ;;
  ok SN_STATIC_DECL.

(** [= value ;] of a mutable global. *)
Definition static_value : P SyntaxNodeKind :=
  advanceM ;;
  parse_expression_rec ;;!
  require_decl_terminator ;;
  ok SN_STATIC_DECL.

(** The right-hand side of a constant, its second [:] consumed. *)
Definition const_value (decl_type_is_meta : bool) : P SyntaxNodeKind :=
  (if decl_type_is_meta then parse_type
   else
     skip TOK_ALIAS ;;
     b <- check TOK_LBRACKET ;;
     if b then parse_type else parse_expression_rec) ;;!
  require_decl_terminator ;;
  ok SN_CONST_DECL.

(** [name : …], the first [:] consumed. *)
Definition colon_decl : P SyntaxNodeKind :=
  e <- check TOK_EQ ;;
  if e then static_value
  else
    c <- check TOK_COLON ;;
    form <- (if c then ret (true, mkForm SN_SOURCE_FILE false) else parse_type_form) ;;
    let have_type := negb c in
    if negb (fst form) then stop
    else
      e2 <- check TOK_EQ ;;
      if e2 then static_value
      else
        c2 <- check TOK_COLON ;;
        if have_type && negb c2 then require_decl_terminator ;; ok SN_STATIC_DECL
        else
          expect TOK_COLON "expected `:` and a value: write `name :: value` or `name : T : value`" ;;!
          const_value (tf_is_type_meta (snd form)).

Definition parse_static_decl : P SyntaxNodeKind :=
  b <- check TOK_LBRACKET ;;
  if b then pool_decl
  else
    i <- check TOK_IDENT ;;
    if negb i then stop
    else
      advanceM ;;
      l <- check TOK_LPAREN ;;
      if l then
        parse_tuple_name_group ;;!
        require_decl_terminator ;;
        ok SN_CONST_DECL
      else
        c <- check TOK_COLON ;;
        if c then advanceM ;; colon_decl else stop.

(** One declaration of a list: drained trivia, the declaration, recovery, its node. *)
Definition decl_item : M unit :=
  take_pending_as_leading ;;
  child_cp <- syntax_cp ;;
  o <- rec_decl r ;;
  match o with
  | None => synchronizeM ;; syntax_wrap child_cp SN_ERROR
  | Some child_kind => syntax_wrap child_cp child_kind
  end.

Definition parse_region : P SyntaxNodeKind :=
  is_foreign <- check TOK_HASH_FOREIGN ;;
  advanceM ;;
  b <- check TOK_LBRACE ;;
  if b then
    advanceM ;;
    saved <- gets ps_in_foreign ;;
    (if is_foreign then modify (set_in_foreign true) else ret tt) ;;
    until_close TOK_RBRACE (decl_item ;; ok true) ;;
    modify (set_in_foreign saved) ;;
    expect TOK_RBRACE "Expected '}' to close the region block" ;;!
    ok SN_REGION
  else
    (if is_foreign then modify (set_in_foreign true) else ret tt) ;;
    ok SN_REGION.

Definition parse_link_region : P SyntaxNodeKind :=
  advanceM ;;
  expect TOK_LBRACE ("expected `{ " ++ dq ++ "lib" ++ dq ++ " ... }` after `#link`")%string ;;!
  c <- check TOK_RBRACE ;;
  if c then fail "empty `#link { }` — list one or more quoted system-library names"
  else
    until_close TOK_RBRACE
      (consume TOK_STRING
         ("expected a quoted system-library name in `#link { ... }` (e.g. " ++ dq ++ "X11" ++ dq ++ ")")%string ;;!
       ok true) ;;!
    expect TOK_RBRACE "Expected '}' to close `#link { ... }`" ;;!
    ok SN_REGION.

Definition parse_run_region : P SyntaxNodeKind :=
  advanceM ;;
  b <- check TOK_LBRACE ;;
  if b then
    advanceM ;;
    c <- check TOK_RBRACE ;;
    if c then fail "empty `#run { }` — list one or more Schedule expressions"
    else
      until_close TOK_RBRACE (parse_expression_rec ;;! m <- comma ;; ok m) ;;!
      expect TOK_RBRACE "expected '}' to close `#run { ... }`" ;;!
      ok SN_RUN_DECL
  else
    o <- parse_expression_rec ;;
    if is_some o then ok SN_RUN_DECL else fail "expected a Schedule expression after `#run`".

(** [( arg )] after a decorator's name. *)
Definition decorator_arg (lp_msg : string) (kind : TokenKind) (arg_msg rp_msg : string) : P unit :=
  consume TOK_LPAREN lp_msg ;;!
  consume kind arg_msg ;;!
  consume TOK_RPAREN rp_msg.

Definition default_directive : P unit :=
  consume TOK_LPAREN "Expected '(' after @default — e.g. @default(proc, bounds, abort)" ;;!
  p <- check TOK_PROC ;; f <- check TOK_FUNC ;;
  if negb p && negb f then fail "Expected an effect kind (proc or func) as the first @default argument"
  else
    advanceM ;;
    expect TOK_COMMA "Expected ',' after the effect kind in @default(...)" ;;!
    consume TOK_IDENT "Expected a category (bounds, divide, or pool) in @default(...)" ;;!
    expect TOK_COMMA "Expected ',' after the category in @default(...)" ;;!
    consume TOK_IDENT "Expected a policy name in @default(...)" ;;!
    consume TOK_RPAREN "Expected ')' to close @default(...)".

Definition implements_args : P unit :=
  consume TOK_LPAREN "Expected '(' after @implements — name a device requirement, e.g. @implements(physics.foo)" ;;!
  do_while
    (consume TOK_IDENT "Expected a device requirement name inside @implements(...)" ;;!
     qualified_tail "Expected an identifier after `.` in @implements(...)" ;;!
     ok true) comma ;;!
  consume TOK_RPAREN "Expected ')' to close @implements(...)".

(** One decorator, its [@] consumed: [None] goes on to the next, [Some kind] ends the
    declaration ([@default] stands alone). *)
Definition decorator : P (option SyntaxNodeKind) :=
  pol <- check TOK_POLICY ;;
  if pol then
    advanceM ;;
    decorator_arg "Expected '(' after @policy — name the category, e.g. @policy(bounds)" TOK_IDENT
      "Expected a category (bounds, pool, or divide) inside @policy(...)" "Expected ')' to close @policy(...)" ;;!
    ok None
  else
    i <- check TOK_IDENT ;;
    if negb i then fail "Expected decorator name after '@'"
    else
      d_pure <- cur_ident_is "allow_pure_proc" ;;
      d_intrinsic <- cur_ident_is "intrinsic" ;;
      d_gpu <- cur_ident_is "gpu" ;;
      d_resident <- cur_ident_is "resident" ;;
      d_default <- cur_ident_is "default" ;;
      d_drop <- cur_ident_is "drop" ;;
      d_syscall <- cur_ident_is "syscall" ;;
      d_allow <- cur_ident_is "allow" ;;
      d_implements <- cur_ident_is "implements" ;;
      if d_pure || d_intrinsic || d_gpu || d_resident then advanceM ;; ok None
      else if d_default then advanceM ;; default_directive ;;! ok (Some SN_DEFAULT_DECL)
      else if d_drop then
        advanceM ;;
        decorator_arg "Expected '(' after @drop — name the opaque type, e.g. @drop(socket)" TOK_IDENT
          "Expected an opaque type name inside @drop(...)" "Expected ')' to close @drop(...)" ;;!
        ok None
      else if d_syscall then
        advanceM ;;
        decorator_arg "Expected '(' after @syscall — give the syscall number, e.g. @syscall(0)" TOK_NUMBER
          "Expected a syscall number inside @syscall(...)" "Expected ')' to close @syscall(...)" ;;!
        ok None
      else if d_allow then
        advanceM ;;
        decorator_arg "Expected '(' after @allow" TOK_IDENT
          "Expected diagnostic slug inside @allow(...)" "Expected ')' to close @allow(...)" ;;!
        ok None
      else if d_implements then advanceM ;; implements_args ;;! ok None
      else
        fail "Unknown decorator (recognized: @allow_pure_proc, @allow(<slug>), @drop(<type>), @intrinsic, @gpu, @implements(<device>.<req>, …), @policy(<category>))".

Definition decorators : P (option SyntaxNodeKind) :=
  loop (fun _ : unit =>
    a <- check TOK_AT ;;
    if negb a then leave (Some None)
    else
      advanceM ;;
      o <- decorator ;;
      match o with
      | None => leave None
      | Some None => again tt
      | Some (Some k) => leave (Some (Some k))
      end) tt.

Definition import_name : M bool :=
  i <- check TOK_IDENT ;; s <- check TOK_STRING ;; ret (i || s).

(** [while (check(IDENT) || check(STRING)) { advance; n++; }] *)
Definition bare_imports : M nat :=
  loop (fun n => i <- import_name ;; if i then advanceM ;; again (S n) else leave n) 0.

Definition parse_import : P SyntaxNodeKind :=
  advanceM ;;
  b <- check TOK_LBRACE ;;
  if b then
    advanceM ;;
    c <- check TOK_RBRACE ;;
    if c then fail "empty `#import { }` — list one or more module names"
    else
      until_close TOK_RBRACE
        (i <- import_name ;;
         if negb i then
           fail ("expected a device name or a " ++ dq ++ "path" ++ dq ++ " string in `#import { ... }`")%string
         else advanceM ;; ok true) ;;!
      expect TOK_RBRACE "Expected '}' to close `#import { ... }`" ;;!
      ok SN_USE_DECL
  else
    n <- bare_imports ;;
    if (n =? 0)%nat then fail "Expected a module name after `#import`"
    else
      e <- check TOK_EOF ;;
      if negb e then
        fail "a bare `#import` region runs to end of file — everything below it must be a module name; use `#import { ... }` to import alongside other declarations"
      else ok SN_USE_DECL.

(** The [default:] of the declaration switch. *)
Definition binding_or_pool : P SyntaxNodeKind :=
  i <- check TOK_IDENT ;; b <- check TOK_LBRACKET ;;
  o <- (if i || b then parse_static_decl else stop) ;;
  match o with Some k => ok k | None => fail "Expected declaration" end.

Definition parse_decl : P SyntaxNodeKind :=
  d <-! decorators ;;
  match d with
  | Some k => ok k
  | None =>
      k <- current_kind ;;
      match k with
      | TOK_USE => parse_import
      | TOK_HASH_MODULE | TOK_HASH_FILE | TOK_HASH_FOREIGN => parse_region
      | TOK_HASH_LINK => parse_link_region
      | TOK_HASH_CFLAGS => parse_link_region
      | TOK_HASH_RUN => parse_run_region
      | _ => binding_or_pool
      end
  end.

End Grammar.

(** ** Tying the knot *)

Definition rec_none : Rec :=
  mkRec (fun _ => None) (fun _ => None) (fun _ => None) (fun _ => None) (fun _ => None) (fun _ _ _ _ => None).

(** The entry points with at most [n] nested recursive calls. *)
Fixpoint parse_rec (n : nat) : Rec :=
  match n with
  | O => rec_none
  | S m =>
      let r := parse_rec m in
      mkRec (parse_decl r) (parse_statement r) (parse_expression r) (parse_type_form r)
        (parse_unary_expr r) (parse_binary_rhs r)
  end.

(** ** The program *)

Definition zero_token : Token := mkToken TOK_EOF NullPtr 0 0 0 0 [].

(** A [calloc]ed parser after [parser_init]: the token pump is primed, which collects the
    leading comments. [g_node_id] is the process-wide node counter. *)
Definition parser_create (lexer : Lexer) (g_node_id : Z) : Parser :=
  advance (mkParser lexer zero_token zero_token false false [] [] 0 false false (syntax_builder_new g_node_id)).

Definition MAX_DECL_LOOP : nat := Z.to_nat 10000.

Fixpoint decl_loop (budget : nat) (r : Rec) (p : Parser) : option Parser :=
  if cur_is TOK_EOF p then Some p
  else
    match budget with
    | O => Some (set_had_error p)
    | S b => match decl_item r p with Some (_, p') => decl_loop b r p' | None => None end
    end.

(** [comments] and [comment_count] are always [NULL] and 0. *)
Record ParseResult : Type := mkResult {
  pr_errors : list ParseError;
  pr_syntax_root : SyntaxElem
}.

(** The result and the parser at the end; the recursion is cut at one level more than there is
    input left. *)
Definition parse_program (p : Parser) : option (ParseResult * Parser) :=
  match decl_loop MAX_DECL_LOOP (parse_rec (S (rem p))) p with
  | Some p' => Some (mkResult (ps_errors p') (fst (syntax_builder_finish (ps_builder p'))), p')
  | None => None
  end.

Definition parse_source (src : cstr) (g_node_id : Z) : option ParseResult :=
  option_map fst (parse_program (parser_create (lexer_init src) g_node_id)).
