(* ===== verification/ParserTotal.v ===== *)
(** * The parser always returns

    Every function of the grammar meets its contract: it terminates within its fuel, consumes
    input when it succeeds, leaves [no_brace_lit] as it found it, and changes the state by
    primitive steps only. *)

From S2P Require Import Prelude Lexer LexerFacts SyntaxTree ParserCore ParserSteps Parser.

(** A right-hand side consumes input when an operator it accepts is there. *)
Definition rhs_ok (N : nat) (m : Z -> P unit) : Prop :=
  forall prec, (0 <= prec)%Z -> calm N (m prec) /\
    forall p, wf p -> rem p < N -> (prec <= binop_prec (tok_kind (ps_current p)))%Z ->
      wp (m prec) (fun o p' => Adv p (match o with Some _ => 1 | None => 0 end) (ps_no_brace_lit p) p') p.

(** The contracts of the recursive entry points, for inputs of fewer than [n] units. *)
Record good_rec (n : nat) (r : Rec) : Prop := mkGood {
  gr_decl : eats n (rec_decl r);
  gr_statement : eats n (rec_statement r);
  gr_expression : eats n (rec_expression r);
  gr_type_form : form_eats n (rec_type_form r);
  gr_unary : eats n (rec_unary r);
  gr_rhs : forall cp, rhs_ok n (rec_binary_rhs r true cp)
}.

Section Total.

Context (n : nat) (r : Rec) (Hr : good_rec n r).

#[local] Hint Resolve gr_decl gr_statement gr_expression gr_type_form gr_unary Hr : contracts.

Lemma expression_rec_eats : eats n (parse_expression_rec r).
Proof. exact (gr_expression n r Hr). Qed.

Lemma type_eats : eats n (parse_type r).
Proof. start. unfold parse_type. run. Qed.

#[local] Hint Resolve expression_rec_eats type_eats : contracts.

(** Contracts shared by every list of the grammar. *)
Lemma comma_calm N : calm N comma.
Proof. start. eapply wp_comma; [exact HA|next HA; finish|finish]. Qed.

Lemma comma_before_calm N k : calm N (comma_before k).
Proof. start. eapply wp_comma_before; [exact HA|]. intros. finish. Qed.

Lemma check_calm N k : calm N (check k).
Proof. start. run. Qed.

#[local] Hint Resolve comma_calm comma_before_calm check_calm : contracts.

(** ** Signatures and types *)

Lemma param_item_ok e : item_ok (S n) (param_item r e).
Proof. start. unfold param_item. run. Qed.
#[local] Hint Resolve param_item_ok : contracts.

Lemma param_list_body_calm e : calm (S n) (parse_param_list_body r e).
Proof. start. unfold parse_param_list_body. run. Qed.
#[local] Hint Resolve param_list_body_calm : contracts.

Lemma out_param_item_ok : item_ok (S n) (out_param_item r).
Proof. start. unfold out_param_item. run. Qed.
#[local] Hint Resolve out_param_item_ok : contracts.

Lemma proc_out_list_calm : calm (S n) (parse_proc_out_list r).
Proof. start. unfold parse_proc_out_list. run. Qed.
#[local] Hint Resolve proc_out_list_calm : contracts.

Lemma func_return_calm e : calm (S n) (parse_func_return r e).
Proof. start. unfold parse_func_return. run. Qed.
#[local] Hint Resolve func_return_calm : contracts.

Lemma query_column_item_ok : item_ok (S n) query_column_item.
Proof. start. unfold query_column_item. run. Qed.
#[local] Hint Resolve query_column_item_ok : contracts.

Lemma query_columns_eats : eats (S n) parse_query_columns.
Proof. start. unfold parse_query_columns. run. Qed.
#[local] Hint Resolve query_columns_eats : contracts.

(** A list whose item and test are known to be calm, from a state that has come that far. *)
Lemma statements_until_brace_calm : calm n (statements_until_brace r).
Proof.
  apply until_close_calm. start. apply wp_bind.
  eapply use_eats; [apply (gr_statement n r Hr)|exact HA|bound| |]; intros; cbn [is_some].
  - run.
  - apply wp_bind. unfold synchronizeM, modify, wp, ok, ret. cbv beta iota.
    eapply Adv_synchronize_progress; eassumption.
Qed.
#[local] Hint Resolve statements_until_brace_calm : contracts.

Lemma block_body_eats : eats (S n) (parse_block_body r).
Proof. start. unfold parse_block_body. run. Qed.
#[local] Hint Resolve block_body_eats : contracts.

Lemma proc_sig_eats e : eats (S n) (parse_proc_sig r e).
Proof. start. unfold parse_proc_sig. run. Qed.

Lemma func_sig_eats e : eats (S n) (parse_func_sig r e).
Proof. start. unfold parse_func_sig. run. Qed.
#[local] Hint Resolve proc_sig_eats func_sig_eats : contracts.

(** Entered on its [[], the dimension loop always consumes it. *)
Lemma array_dimensions_eats p :
  wf p -> rem p < S n -> tok_kind (ps_current p) = TOK_LBRACKET ->
  wp (array_dimensions r) (fun _ p' => Adv p 1 (ps_no_brace_lit p) p') p.
Proof.
  intros Hw Hn Hk. apply (loop_first (S n)); [start; run|exact Hn|].
  start. apply wp_bind, wp_check; intro E; [|contradiction]. run.
Qed.

Lemma element_type_name_eats : eats (S n) element_type_name.
Proof. start. unfold element_type_name. run. Qed.

Lemma type_list_calm : calm n (type_list r).
Proof. apply do_while_calm; [start; run|apply comma_calm]. Qed.
#[local] Hint Resolve element_type_name_eats type_list_calm : contracts.

Lemma array_type_form p :
  wf p -> rem p < S n -> tok_kind (ps_current p) = TOK_LBRACKET ->
  wp (parse_array_type r) (fun f p' => Adv p 1 (ps_no_brace_lit p) p') p.
Proof.
  intros Hw Hn Hk. apply wp_bind.
  eapply wp_conseq; [now apply array_dimensions_eats|]. unfold form_if_ok. intros d p' HA. run. 
Qed.

(** A name known to be there gives a form; the verdict only matters to the caller. *)
Lemma named_type_form p :
  wf p -> rem p < S n -> tok_kind (ps_current p) = TOK_IDENT ->
  wp (parse_named_type r) (fun f p' => Adv p 1 (ps_no_brace_lit p) p') p.
Proof. intros Hw Hn Hk. start. unfold parse_named_type, with_form, form_if_ok. run. Qed.

Lemma type_inner_form : form_eats (S n) (parse_type_inner r).
Proof.
  start. unfold parse_type_inner, with_form. run.
  - eapply wp_conseq; [now apply array_type_form|]. intros f p1 Ha. cbv beta in Ha. run.
  - eapply wp_conseq; [now apply named_type_form|]. intros f p1 Ha. cbv beta in Ha. run.
Qed.
#[local] Hint Resolve type_inner_form : contracts.

Lemma type_form_eats : form_eats (S n) (parse_type_form r).
Proof. start. unfold parse_type_form. run. Qed.
#[local] Hint Resolve type_form_eats : contracts.

(** ** Archetype components *)

Lemma tuple_names_calm : calm (S n) tuple_names.
Proof. apply loop_calm. start. run. Qed.
#[local] Hint Resolve tuple_names_calm : contracts.

Lemma tuple_name_group_eats : eats_here (S n) (parse_tuple_name_group r).
Proof. start. unfold parse_tuple_name_group. run. Qed.
#[local] Hint Resolve tuple_name_group_eats : contracts.

Lemma arch_field_type_calm : calm n (arch_field_type r).
Proof. start. unfold arch_field_type. run. Qed.
#[local] Hint Resolve arch_field_type_calm : contracts.

Lemma arch_field_eats : eats (S n) (parse_arch_field r).
Proof. start. unfold parse_arch_field. run. Qed.
#[local] Hint Resolve arch_field_eats : contracts.

Lemma arch_fields_calm : calm (S n) (arch_fields r).
Proof. apply until_close_calm. start. run. Qed.
#[local] Hint Resolve arch_fields_calm : contracts.

(** ** Value and type forms *)

Lemma proc_form_eats e : eats (S n) (parse_proc_form r e).
Proof. start. unfold parse_proc_form. run. Qed.

Lemma func_form_eats : eats (S n) (parse_func_form r).
Proof. start. unfold parse_func_form. run. Qed.

Lemma policy_form_eats : eats (S n) (parse_policy_form r).
Proof. start. unfold parse_policy_form. run. Qed.

Lemma group_members_calm : calm (S n) group_members.
Proof. apply do_while_calm; [start; run|apply comma_before_calm]. Qed.
#[local] Hint Resolve proc_form_eats func_form_eats policy_form_eats group_members_calm : contracts.

Lemma group_form_eats : eats_here (S n) parse_group_form.
Proof. start. unfold parse_group_form. run. Qed.
#[local] Hint Resolve group_form_eats : contracts.

(** ** Expressions *)

Lemma bracket_index_eats : eats n (parse_bracket_index_or_slice r).
Proof. start. unfold parse_bracket_index_or_slice. run. Qed.

Lemma opt_eff_calm : calm (S n) parse_opt_eff.
Proof. start. unfold parse_opt_eff. run. Qed.

Lemma opt_row_bind_calm : calm (S n) parse_opt_row_bind.
Proof. start. unfold parse_opt_row_bind. run. Qed.

Lemma write_params_calm msg :
  calm (S n) (do_while (wrapped_ident SN_WRITE_PARAM msg ;;! ok true) (comma_before TOK_RPAREN)).
Proof. apply do_while_calm; [start; run|apply comma_before_calm]. Qed.
#[local] Hint Resolve bracket_index_eats opt_eff_calm opt_row_bind_calm write_params_calm : contracts.

Lemma opt_writes_calm : calm (S n) parse_opt_writes.
Proof. start. unfold parse_opt_writes. run. Qed.

Lemma expr_list_calm k : calm n (expr_list r k).
Proof. apply do_while_calm; [start; run|apply comma_before_calm]. Qed.
#[local] Hint Resolve opt_writes_calm expr_list_calm : contracts.

Lemma array_lit_eats : eats_here (S n) (parse_array_lit r).
Proof. start. unfold parse_array_lit. run. Qed.

Lemma callable_eats : eats_here (S n) (parse_callable r).
Proof. start. unfold parse_callable. run. Qed.

Lemma arche_eats : eats_here (S n) (parse_arche r).
Proof. start. unfold parse_arche. run. Qed.

Lemma query_selector_eats msg : eats (S n) (query_selector msg).
Proof. start. unfold query_selector. run. Qed.
#[local] Hint Resolve array_lit_eats callable_eats arche_eats query_selector_eats : contracts.

Lemma map_eats : eats_here (S n) (parse_map r).
Proof. start. unfold parse_map. run. Qed.

Lemma selector_list_calm msg :
  calm (S n) (do_while (query_selector msg ;;! parse_opt_row_bind ;; ok true) comma).
Proof. apply do_while_calm; [start; run|apply comma_calm]. Qed.
#[local] Hint Resolve map_eats selector_list_calm : contracts.

Lemma system_selectors_eats : eats_here (S n) system_selectors.
Proof. start. unfold system_selectors. run. Qed.
#[local] Hint Resolve system_selectors_eats : contracts.

Lemma system_eats : eats_here (S n) (parse_system r).
Proof. start. unfold parse_system. run. Qed.

Lemma enum_variant_item_ok : item_ok (S n) enum_variant_item.
Proof. start. unfold enum_variant_item. run. Qed.
#[local] Hint Resolve system_eats enum_variant_item_ok : contracts.

Lemma enum_eats : eats_here (S n) parse_enum.
Proof. start. unfold parse_enum. run. Qed.

Lemma table_ref_eats : eats_here (S n) parse_table_ref.
Proof. start. unfold parse_table_ref. run. Qed.

Lemma sum_variant_item_ok : item_ok (S n) (sum_variant_item r).
Proof. start. unfold sum_variant_item. run. Qed.
#[local] Hint Resolve enum_eats table_ref_eats sum_variant_item_ok : contracts.

Lemma sum_eats : eats_here (S n) (parse_sum r).
Proof. start. unfold parse_sum. run. Qed.

Lemma tuple_elements_calm : calm n (tuple_elements r).
Proof. apply loop_calm. start. run. Qed.
#[local] Hint Resolve sum_eats tuple_elements_calm : contracts.

Lemma entity_tuple_value_eats : eats_here (S n) (entity_tuple_value r).
Proof. start. unfold entity_tuple_value. run. Qed.
#[local] Hint Resolve entity_tuple_value_eats : contracts.

Lemma entity_field_item_ok : item_ok (S n) (entity_field_item r).
Proof. start. unfold entity_field_item. run. Qed.
#[local] Hint Resolve entity_field_item_ok : contracts.

Lemma entity_eats : eats_here (S n) (parse_entity r).
Proof. start. unfold parse_entity. run. Qed.

Lemma field_name_eats : eats (S n) field_name.
Proof. start. unfold field_name. run. Qed.
#[local] Hint Resolve entity_eats field_name_eats : contracts.

Lemma chained_fields_calm : calm (S n) chained_fields.
Proof. apply loop_calm. start. run. Qed.

Lemma qualified_call_args_eats : eats_here (S n) (qualified_call_args r).
Proof. start. unfold qualified_call_args. run. Qed.
#[local] Hint Resolve chained_fields_calm qualified_call_args_eats : contracts.

Lemma field_access_eats : eats (S n) (parse_field_access r).
Proof. start. unfold parse_field_access. run. Qed.

Lemma call_arg_item_ok : item_ok n (call_arg_item r).
Proof. start. unfold call_arg_item. run. Qed.
#[local] Hint Resolve field_access_eats call_arg_item_ok : contracts.

Lemma call_eats cp c : eats_here (S n) (parse_call r cp c).
Proof. start. unfold parse_call, collective_op. run. Qed.
#[local] Hint Resolve call_eats : contracts.

Lemma ident_expr_eats : eats_here (S n) (parse_ident_expr r).
Proof.
  start. unfold parse_ident_expr. apply wp_bind, wp_gets. do 4 apply wp_bind, wp_gets. run.
Qed.

Lemma paren_elements_calm : calm n (paren_elements r).
Proof. apply loop_calm. start. run. Qed.
#[local] Hint Resolve ident_expr_eats paren_elements_calm : contracts.

Lemma paren_calm cp : calm n (parse_paren r cp).
Proof. start. unfold parse_paren. run. Qed.
#[local] Hint Resolve paren_calm : contracts.

Lemma primary_expr_eats : eats (S n) (parse_primary_expr r).
Proof. start. unfold parse_primary_expr. run. Qed.

Lemma opt_policy_calm k : calm (S n) (parse_opt_policy k).
Proof. start. unfold parse_opt_policy. run. Qed.

#[local] Hint Resolve primary_expr_eats opt_policy_calm : contracts.

(** The field chain is entered, and goes round again, on a [.]. *)
Lemma dotted_fields_eats : eats_on TOK_DOT (S n) dotted_fields.
Proof.
  intros p Hw Hk Hn.
  apply (wp_loop (fun _ q => Adv p 0 (ps_no_brace_lit p) q /\ tok_kind (ps_current q) = TOK_DOT));
    [auto using Adv_refl|].
  intros _ q [Ha Hd].
  eapply (wp_conseq _ (fun x p' => Adv q (match x with inr None => 0 | _ => 1 end) (ps_no_brace_lit q) p' /\
                                   (x = inl tt -> tok_kind (ps_current p') = TOK_DOT))).
  - assert (rem q < S n) by (pose proof (ad_rem _ _ _ _ Ha); lia).
    pose proof (ad_wf _ _ _ _ Ha). start. run; split; try finish; auto; discriminate.
  - intros x p' [Hb Hx]. pose proof (Adv_trans _ _ _ _ _ _ _ Ha Hb) as Hc. rewrite (ad_nbl _ _ _ _ Ha) in Hc.
    destruct x as [[]|[|]]; try (eapply Adv_le; [|exact Hc]; lia).
    pose proof (ad_rem _ _ _ _ Hb). split; [split; [eapply Adv_le; [|exact Hc]; lia|auto]|lia].
Qed.

#[local] Hint Resolve dotted_fields_eats : contracts.

Lemma postfix_chain_calm cp k : calm (S n) (postfix_chain r cp k).
Proof. apply loop_calm. start. run. Qed.
#[local] Hint Resolve postfix_chain_calm : contracts.

Lemma postfix_expr_eats : eats (S n) (parse_postfix_expr r).
Proof. start. unfold parse_postfix_expr. run. Qed.
#[local] Hint Resolve postfix_expr_eats : contracts.

Lemma prefix_not_eof k : is_prefix_op k = true -> k <> TOK_EOF.
Proof. now destruct k. Qed.

Lemma unary_expr_eats : eats (S n) (parse_unary_expr r).
Proof.
  start. unfold parse_unary_expr. apply wp_bind, wp_gets, wp_bind, wp_gets.
  destruct (is_prefix_op _) eqn:E; [apply prefix_not_eof in E|]; run.
Qed.
#[local] Hint Resolve unary_expr_eats : contracts.

Lemma tighter_rhs_calm cp prec : (0 <= prec)%Z -> calm n (tighter_rhs r cp prec).
Proof.
  intros Hp. apply loop_calm. start. apply wp_bind, wp_gets.
  destruct (Z.ltb_spec prec (binop_prec (tok_kind (ps_current p)))); [|run].
  apply wp_bind. eapply use_eats_post; [apply (gr_rhs n r Hr cp (prec + 1)%Z); auto; lia|exact HA|].
  intros [u|] p' Ha; cbn [Nat.add] in Ha; run.
Qed.

Lemma divide_policy_calm op : calm (S n) (divide_policy op).
Proof. start. unfold divide_policy. run. Qed.
#[local] Hint Resolve divide_policy_calm : contracts.

Lemma binop_not_eof k prec : (0 <= prec)%Z -> (prec <= binop_prec k)%Z -> k <> TOK_EOF.
Proof. intros H1 H2 ->. cbn in H2. lia. Qed.

Lemma binary_round_eats p op cp :
  wf p -> rem p < S n -> tok_kind (ps_current p) <> TOK_EOF -> (0 <= binop_prec op)%Z ->
  wp (binary_round r op cp) (fun o p' => Adv p (match o with Some _ => 1 | None => 0 end) (ps_no_brace_lit p) p') p.
Proof.
  intros Hw Hn Hk Hp. start. unfold binary_round.
  pose proof tighter_rhs_calm as T. run.
Qed.

Lemma binary_rhs_body cp min_prec p :
  (0 <= min_prec)%Z -> wf p -> rem p < S n ->
  wp (k <- current_kind ;;
      if (binop_prec k <? min_prec)%Z then leave (Some tt)
      else o <- binary_round r k cp ;; if is_some o then again tt else leave None)
    (fun (x : unit + option unit) p' =>
       Adv p (match x with
              | inl _ => 1
              | inr (Some _) => if (binop_prec (tok_kind (ps_current p)) <? min_prec)%Z then 0 else 1
              | inr None => 0
              end) (ps_no_brace_lit p) p') p.
Proof.
  intros Hm Hw Hn. start. apply wp_bind, wp_gets.
  destruct (Z.ltb_spec (binop_prec (tok_kind (ps_current p))) min_prec) as [Hl|Hl]; [run|].
  apply wp_bind. eapply wp_conseq.
  - apply binary_round_eats; auto; [now apply (binop_not_eof _ min_prec)|lia].
  - intros [u|] p' Ha; cbv beta iota in Ha; run.
Qed.

Lemma binary_rhs_ok cp : rhs_ok (S n) (parse_binary_rhs r true cp).
Proof.
  intros prec Hp. pose proof (binary_rhs_body cp prec) as B. split.
  - unfold parse_binary_rhs. cbn [negb]. apply loop_calm. intros [] p Hw Hn.
    eapply wp_conseq; [apply B; auto|]. intros [|[|]] p' Ha; cbv beta iota in Ha; try exact Ha.
    eapply Adv_le; [|exact Ha]. lia.
  - intros p Hw Hn Hk.
    assert (E : (binop_prec (tok_kind (ps_current p)) <? prec)%Z = false) by now apply Z.ltb_ge.
    unfold parse_binary_rhs. cbn [negb].
    apply (wp_loop (fun _ q => q = p \/ Adv p 1 (ps_no_brace_lit p) q)); [auto|].
    intros [] q [->|Ha].
    + eapply wp_conseq; [apply B; auto|]. rewrite E. intros [|[|]] p' Ha; cbv beta iota in Ha; auto.
      pose proof (ad_rem _ _ _ _ Ha). split; [auto|lia].
    + pose proof (ad_rem _ _ _ _ Ha). eapply wp_conseq; [apply B; auto; [exact (ad_wf _ _ _ _ Ha)|lia]|].
      intros x p' Hb. pose proof (Adv_trans _ _ _ _ _ _ _ Ha Hb) as Hc. rewrite (ad_nbl _ _ _ _ Ha) in Hc.
      pose proof (ad_rem _ _ _ _ Hb).
      destruct x as [|[|]]; try (eapply Adv_le; [|exact Hc]; lia).
      split; [right; eapply Adv_le; [|exact Hc]|]; lia.
Qed.

Lemma binary_rhs_calm b cp : calm (S n) (parse_binary_rhs r b cp 1).
Proof.
  destruct b; [apply binary_rhs_ok; lia|]. start. unfold parse_binary_rhs. run.
Qed.
#[local] Hint Resolve binary_rhs_calm : contracts.

Lemma expression_eats : eats (S n) (parse_expression r).
Proof.
  start. unfold parse_expression, parse_binary_expr.
  apply wp_bind, wp_gets, wp_bind. eapply use_eats; [apply unary_expr_eats|exact HA|bound| |]; intros; cbn [is_some].
  - clear HA. run.
  - unfold parse_binary_rhs. clear HA. run.
Qed.
#[local] Hint Resolve expression_eats : contracts.

(** ** Statements *)

Lemma local_value_calm : calm n (local_value r).
Proof. start. unfold local_value. run. Qed.

Lemma multi_bind_names_calm : calm (S n) multi_bind_names.
Proof. apply loop_calm. start. run. Qed.
#[local] Hint Resolve local_value_calm multi_bind_names_calm : contracts.

Lemma multi_binding_calm : calm n (multi_binding r).
Proof. start. unfold multi_binding. run. Qed.

Lemma colon_binding_calm : calm n (colon_binding r).
Proof. start. unfold colon_binding. run. Qed.
#[local] Hint Resolve multi_binding_calm colon_binding_calm : contracts.

Lemma binding_tail_calm : calm n (parse_binding_tail r).
Proof. start. unfold parse_binding_tail. run. Qed.

Lemma out_arg_item_ok : item_ok (S n) (out_arg_item r).
Proof. start. unfold out_arg_item. run. Qed.
#[local] Hint Resolve binding_tail_calm out_arg_item_ok : contracts.

Lemma proc_call_outs_eats : eats_on TOK_LPAREN (S n) (proc_call_outs r).
Proof. start. unfold proc_call_outs. run. Qed.
#[local] Hint Resolve proc_call_outs_eats : contracts.

Lemma assign_op_not_eof k : is_assign_op k = true -> k <> TOK_EOF.
Proof. now destruct k. Qed.

Lemma token_beq_eq k k' : TokenKind_beq k k' = true -> k = k'.
Proof. apply internal_TokenKind_dec_bl. Qed.

Lemma simple_statement_eats : eats (S n) (parse_simple_statement r).
Proof.
  start. unfold parse_simple_statement.
  apply wp_bind, wp_gets, wp_pbind. call HA; [|run]. apply wp_bind, wp_gets, wp_bind, wp_gets.
  destruct (_ && (_ || _)) eqn:E1; [run|].
  destruct (_ && TokenKind_beq _ TOK_LPAREN) eqn:E2.
  - apply andb_true_iff in E2 as [_ E2]. apply token_beq_eq in E2. run.
  - destruct (is_assign_op _) eqn:E3; [apply assign_op_not_eof in E3|]; run.
Qed.
#[local] Hint Resolve simple_statement_eats : contracts.

Lemma each_field_stmt_eats : eats (S n) (each_field_stmt r).
Proof.
  assert (B : calm n (until_close TOK_RBRACE (o <- rec_statement r ;; ok (is_some o)))).
  { apply until_close_calm. start. run. }
  start. unfold each_field_stmt. run.
Qed.

Lemma expression_or_eats msg : eats n (expression_or r msg).
Proof. start. unfold expression_or. run. Qed.
#[local] Hint Resolve each_field_stmt_eats expression_or_eats : contracts.

Lemma return_values_calm : calm n (return_values r).
Proof.
  match goal with |- context [return_values r] => unfold return_values end.
  match goal with |- calm _ (_ ;;! ?l) => assert (B : calm n l) end.
  { apply loop_calm. start. run. }
  start. run.
Qed.
#[local] Hint Resolve return_values_calm : contracts.

Lemma return_stmt_calm : calm n (return_stmt r).
Proof. start. unfold return_stmt. run. Qed.

Lemma match_pattern_calm : calm (S n) match_pattern.
Proof. start. unfold match_pattern. run. Qed.

Lemma match_arm_body_calm : calm n (match_arm_body r).
Proof. start. unfold match_arm_body. run. Qed.
#[local] Hint Resolve return_stmt_calm match_pattern_calm match_arm_body_calm : contracts.

Lemma match_arm_ok : item_ok (S n) (match_arm r).
Proof. start. unfold match_arm. run. Qed.
#[local] Hint Resolve match_arm_ok : contracts.

Lemma match_stmt_calm : calm n (match_stmt r).
Proof.
  start. unfold match_stmt. apply wp_bind, wp_gets, wp_bind.
  eapply wp_no_brace_lit; [exact HA|]. intros p1 A1. apply wp_bind. call A1.
  all: apply wp_bind; match goal with A1 : Adv _ _ true _ |- _ => eapply wp_no_brace_lit; [exact A1|]; next A1 end.
  all: run.
Qed.

Lemma binding_targets_calm : calm (S n) (binding_targets r).
Proof. apply loop_calm. start. run. Qed.
#[local] Hint Resolve match_stmt_calm binding_targets_calm : contracts.

Lemma paren_bind_stmt_calm : calm n (paren_bind_stmt r).
Proof. start. unfold paren_bind_stmt. run. Qed.

Lemma branch_body_calm msg : calm n (branch_body r msg).
Proof. start. unfold branch_body. run. Qed.
#[local] Hint Resolve paren_bind_stmt_calm branch_body_calm : contracts.

Lemma if_stmt_calm : calm n (if_stmt r).
Proof. start. unfold if_stmt. run. Qed.

Lemma for_part_eats : eats (S n) (for_part r).
Proof. start. unfold for_part. run. Qed.
#[local] Hint Resolve if_stmt_calm for_part_eats : contracts.

Lemma for_clause_calm : calm n (for_clause r).
Proof. start. unfold for_clause. run. Qed.
#[local] Hint Resolve for_clause_calm : contracts.

Lemma for_stmt_calm : calm n (for_stmt r).
Proof. start. unfold for_stmt. run. Qed.
#[local] Hint Resolve for_stmt_calm : contracts.

Lemma statement_body_eats : eats (S n) (statement_body r).
Proof. start. unfold statement_body. run. Qed.
#[local] Hint Resolve statement_body_eats : contracts.

Lemma statement_eats : eats (S n) (parse_statement r).
Proof.
  start. unfold parse_statement. apply wp_bind, wp_gets, wp_bind, wp_gets, wp_bind.
  case_if; [|apply wp_bind; eapply (wp_depth _ _ _ _ HA (fun d => d + 1)%Z); next HA]; run.
  all: match goal with A : Adv _ _ _ ?q |- _ => eapply (wp_depth _ _ _ _ A (fun d => d - 1)%Z); next A end.
  all: run.
Qed.

#[local] Hint Resolve statement_eats : contracts.

(** ** Declarations *)

Lemma require_decl_terminator_calm : calm (S n) require_decl_terminator.
Proof. start. unfold require_decl_terminator. run. Qed.

Lemma pool_arche_eats : eats_here (S n) (pool_arche r).
Proof. start. unfold pool_arche. run. Qed.

Lemma qualified_tail_calm msg : calm (S n) (qualified_tail msg).
Proof. apply loop_calm. start. run. Qed.
#[local] Hint Resolve require_decl_terminator_calm pool_arche_eats qualified_tail_calm : contracts.

Lemma pool_shape_eats : eats (S n) (pool_shape r).
Proof. start. unfold pool_shape. run. Qed.

Lemma pool_live_count_calm : calm (S n) (pool_live_count r).
Proof. start. unfold pool_live_count. run. Qed.

Lemma pool_init_item_ok : item_ok (S n) (pool_init_item r).
Proof. start. unfold pool_init_item. run. Qed.
#[local] Hint Resolve pool_shape_eats pool_live_count_calm pool_init_item_ok : contracts.

Lemma pool_init_block_calm : calm (S n) (pool_init_block r).
Proof. start. unfold pool_init_block. run. Qed.

Lemma pool_handler_calm : calm (S n) pool_handler.
Proof. start. unfold pool_handler. run. Qed.
#[local] Hint Resolve pool_init_block_calm pool_handler_calm : contracts.

Lemma pool_decl_eats : eats_here (S n) (pool_decl r).
Proof. start. unfold pool_decl. run. Qed.

Lemma static_value_eats : eats_here (S n) (static_value r).
Proof. start. unfold static_value. run. Qed.

Lemma const_value_calm b : calm n (const_value r b).
Proof. start. unfold const_value. run. Qed.
#[local] Hint Resolve pool_decl_eats static_value_eats const_value_calm : contracts.

Lemma colon_decl_calm : calm n (colon_decl r).
Proof. start. unfold colon_decl. run. Qed.
#[local] Hint Resolve colon_decl_calm : contracts.

Lemma static_decl_eats : eats (S n) (parse_static_decl r).
Proof. start. unfold parse_static_decl. run. Qed.
#[local] Hint Resolve static_decl_eats : contracts.

Lemma decl_item_progress p :
  wf p -> rem p < n -> tok_kind (ps_current p) <> TOK_EOF ->
  wp (decl_item r) (fun _ p' => Adv p 1 (ps_no_brace_lit p) p') p.
Proof.
  intros Hw Hn Hk. start. unfold decl_item. apply wp_bind.
  eapply wp_take_pending; [exact HA|]. intros l p1 A1 C1. apply wp_bind, wp_gets, wp_bind.
  eapply use_eats; [apply (gr_decl n r Hr)|exact A1|bound| |]; intros.
  - run.
  - apply wp_bind. unfold synchronizeM, syntax_wrap, modify, wp. cbv beta iota.
    now apply Adv_wrap, Adv_synchronize_progress.
Qed.

Lemma region_decls_calm : calm n (until_close TOK_RBRACE (decl_item r ;; ok true)).
Proof.
  apply until_close_calm. start. apply wp_bind. eapply wp_conseq; [now apply decl_item_progress|].
  intros a p' Ha. cbv beta in Ha. run.
Qed.
#[local] Hint Resolve region_decls_calm : contracts.

Lemma region_eats : eats_here (S n) (parse_region r).
Proof. start. unfold parse_region. run. Qed.

Lemma link_region_eats : eats_here (S n) parse_link_region.
Proof.
  assert (B : forall msg, calm (S n) (until_close TOK_RBRACE (consume TOK_STRING msg ;;! ok true))).
  { intros msg. apply until_close_calm. start. run. }
  start. unfold parse_link_region. run.
Qed.

Lemma run_region_eats : eats_here (S n) (parse_run_region r).
Proof.
  assert (B : calm n (until_close TOK_RBRACE (parse_expression_rec r ;;! m <- comma ;; ok m))).
  { apply until_close_calm. start. run. }
  start. unfold parse_run_region. run.
Qed.
#[local] Hint Resolve region_eats link_region_eats run_region_eats : contracts.

Lemma default_directive_eats : eats (S n) default_directive.
Proof. start. unfold default_directive. run. Qed.

Lemma implements_args_eats : eats (S n) implements_args.
Proof.
  match goal with |- eats _ ?m => unfold implements_args end.
  match goal with |- context [do_while ?i comma] => assert (B : calm (S n) (do_while i comma)) end.
  { apply do_while_calm; [start; run|apply comma_calm]. }
  start. run.
Qed.
#[local] Hint Resolve default_directive_eats implements_args_eats : contracts.

Lemma decorator_eats : eats (S n) decorator.
Proof.
  start. unfold decorator, decorator_arg.
  apply wp_bind, wp_check; intros E; [run|]. apply wp_bind, wp_check; intros E'; cbn [negb]; [|run].
  do 9 apply wp_bind, wp_gets. run.
Qed.
#[local] Hint Resolve decorator_eats : contracts.

(** A declaration that ends with its decorator has consumed it. *)
Lemma decorators_ok p :
  wf p -> rem p < S n ->
  wp decorators (fun o p' => Adv p (match o with Some (Some _) => 1 | _ => 0 end) (ps_no_brace_lit p) p') p.
Proof.
  intros Hw Hn. apply (wp_loop (fun _ q => Adv p 0 (ps_no_brace_lit p) q)); [now apply Adv_refl|].
  intros [] q Ha.
  eapply (wp_conseq _ (fun x p' => Adv q (match x with inl _ | inr (Some (Some _)) => 1 | _ => 0 end)
                                     (ps_no_brace_lit q) p')).
  - assert (rem q < S n) by (pose proof (ad_rem _ _ _ _ Ha); lia).
    pose proof (ad_wf _ _ _ _ Ha). start. run.
  - intros x p' Hb. pose proof (Adv_trans _ _ _ _ _ _ _ Ha Hb) as Hc. rewrite (ad_nbl _ _ _ _ Ha) in Hc.
    destruct x as [[]|[[|]|]]; cbn in *; auto.
    pose proof (ad_rem _ _ _ _ Hb). split; [eapply Adv_le; [|exact Hc]|]; lia.
Qed.

Lemma bare_imports_calm : calm (S n) bare_imports.
Proof.
  apply loop_calm. start. unfold import_name. run.
Qed.
#[local] Hint Resolve bare_imports_calm : contracts.

Lemma import_eats : eats_here (S n) parse_import.
Proof.
  assert (B : forall msg, calm (S n) (until_close TOK_RBRACE
                (i <- import_name ;; if negb i then fail msg else advanceM ;; ok true))).
  { intros msg. apply until_close_calm. start. unfold import_name. run. }
  start. unfold parse_import. run.
Qed.

Lemma binding_or_pool_eats : eats (S n) (binding_or_pool r).
Proof. start. unfold binding_or_pool. run. Qed.
#[local] Hint Resolve import_eats binding_or_pool_eats : contracts.

Lemma decl_eats : eats (S n) (parse_decl r).
Proof.
  start. unfold parse_decl. apply wp_pbind. eapply wp_conseq; [now apply decorators_ok|].
  intros [[k|]|] p' Ha; cbv beta iota in Ha; [run| |run]. apply wp_bind, wp_gets.
  assert (D : wp (binding_or_pool r)
                (fun o p'' => Adv p (match o with Some _ => 1 | None => 0 end) (ps_no_brace_lit p) p'') p') by run.
  destruct (tok_kind (ps_current p')) eqn:E; lazymatch goal with |- wp (binding_or_pool r) _ _ => exact D | _ => run end.
Qed.

Lemma knot : good_rec (S n) (mkRec (parse_decl r) (parse_statement r) (parse_expression r) (parse_type_form r)
                                (parse_unary_expr r) (parse_binary_rhs r)).
Proof.
  constructor; cbn; auto using decl_eats, statement_eats, expression_eats, type_form_eats, unary_expr_eats,
    binary_rhs_ok.
Qed.

End Total.

(** ** The whole program *)

Lemma good_rec_none : good_rec 0 rec_none.
Proof. constructor; repeat intro; try lia. split; repeat intro; lia. Qed.

(** At depth [n] the entry points meet their contracts on every input shorter than [n]. *)
Lemma parse_rec_good n : good_rec n (parse_rec n).
Proof.
  induction n as [|n IH]; [exact good_rec_none|]. exact (knot n (parse_rec n) IH).
Qed.

(** The declaration loop returns, having done nothing but primitive steps; it stops at the end
    of the input, or after one token at least for each round of its budget. *)
Lemma decl_loop_total budget n r p :
  good_rec n r -> wf p -> rem p < n ->
  exists p', decl_loop budget r p = Some p' /\ psteps p p' /\ wf p' /\ ps_no_brace_lit p' = ps_no_brace_lit p /\
    (cur_is TOK_EOF p' = true \/ ps_had_error p' = true /\ budget + left p' <= left p).
Proof.
  intros Hr. revert p. induction budget as [|b IH]; intros p Hw Hn; cbn [decl_loop];
    (destruct (cur_is TOK_EOF p) eqn:E; [exists p; auto 8 using psteps_refl|]).
  - exists (set_had_error p). auto 8 using psteps_one, st_had_error.
  - pose proof (proj1 (cur_is_neq _ _) E) as E'.
    destruct (wp_run _ _ _ (decl_item_progress n r Hr p Hw Hn E')) as ([] & p1 & -> & A).
    destruct (IH p1 (ad_wf _ _ _ _ A)) as (p' & -> & S' & W' & B' & D'); [pose proof (ad_rem _ _ _ _ A); lia|].
    exists p'. rewrite B', (ad_nbl _ _ _ _ A).
    refine (conj eq_refl (conj _ (conj W' (conj eq_refl _)))); [eapply psteps_trans; [exact (ad_steps _ _ _ _ A)|exact S']|].
    destruct (cur_is TOK_EOF p') eqn:Ep; [auto|]. destruct D' as [|[Herr Hl]]; [discriminate|].
    right. split; [exact Herr|].
    destruct (psteps_drains _ _ (ad_steps _ _ _ _ A) Hw) as [_ D1], (psteps_drains _ _ S' (ad_wf _ _ _ _ A)) as [_ D2].
    assert (E1 : cur_is TOK_EOF p1 = false).
    { destruct (cur_is TOK_EOF p1) eqn:E1; [rewrite (dr_eof _ _ D2 E1) in Ep; discriminate|reflexivity]. }
    pose proof (ad_rem _ _ _ _ A). pose proof (drains_rem _ _ D1 E1). lia.
Qed.

Lemma parse_program_total p :
  wf p -> exists p', parse_program p =
      Some (mkResult (ps_errors p') (fst (syntax_builder_finish (ps_builder p'))), p') /\
    psteps p p' /\ wf p' /\ ps_no_brace_lit p' = ps_no_brace_lit p /\
    (cur_is TOK_EOF p' = true \/ ps_had_error p' = true /\ MAX_DECL_LOOP + left p' <= left p).
Proof.
  intros Hw. unfold parse_program.
  destruct (decl_loop_total MAX_DECL_LOOP _ _ p (parse_rec_good (S (rem p))) Hw) as (p' & -> & H); [lia|].
  eauto.
Qed.
