(* ===== verification/ParserFacts.v ===== *)
(** * Invariants of the parser's steps

    What every run of the grammar keeps, by rule induction over [psteps]: the leaves of the tree
    against the tokens of the lexer, the ids and the spans of the nodes, the error list. *)

From S2P Require Import Prelude Lexer LexerFacts SyntaxTree ParserCore ParserSteps Parser ParserTotal.
From Stdlib Require Import Relations.

(** ** The leaves the tokens ask for *)

(** The leaf of a token: none for the end of the source and for a lexical error. *)
Definition token_leaf (t : Token) : list Leaf :=
  if kind_is TOK_EOF t || kind_is TOK_ERROR t then []
  else
    match tok_start t with
    | InSrc off =>
        [mkLeaf (tok_kind t) (u32 (Z.of_nat off)) (u32 (Z.of_nat (tok_length t))) (tok_line t) (tok_column t)]
    | _ => []
    end.

Definition token_leaves (ts : list Token) : list Leaf := flat_map token_leaf ts.

Definition tree_leaves (p : Parser) : list Leaf := forest_leaves (cb_items (ps_builder p)).

(** The current token and those after it. *)
Definition upcoming (p : Parser) : list Token :=
  if cur_is TOK_EOF p then [ps_current p] else ps_current p :: tokens_from (ps_lexer p).

(** A position the lexer gave to a token of [ts]. *)
Definition position_in (ts : list Token) (line column : Z) : Prop :=
  exists t, In t ts /\ tok_line t = line /\ tok_column t = column.

(** [tracks src ts p]: of the tokens [ts] of [src], a first part is in the tree and the rest is
    still to come; or a loop limit cut the input, which takes more than a thousand tokens and
    sets [had_error]. *)
Inductive tracks (src : cstr) (ts : list Token) (p : Parser) : Prop :=
| tr_live done :
    lx_src (ps_lexer p) = src -> ts = done ++ upcoming p -> tree_leaves p = token_leaves done -> tracks src ts p
| tr_cut done rest :
    ts = done ++ rest -> tree_leaves p = token_leaves done ->
    position_in ts (tok_line (ps_current p)) (tok_column (ps_current p)) ->
    cur_is TOK_EOF p = true -> ps_had_error p = true -> MAX_SYNC_LOOP < List.length ts -> tracks src ts p.

Lemma live_position ts done p :
  ts = done ++ upcoming p -> position_in ts (tok_line (ps_current p)) (tok_column (ps_current p)).
Proof.
  intros ->. exists (ps_current p). split; [|auto]. apply in_or_app. right. unfold upcoming. case_if; now left.
Qed.

(** ** Leaves *)

Lemma token_leaves_app a b : token_leaves (a ++ b) = token_leaves a ++ token_leaves b.
Proof. apply flat_map_app. Qed.

Lemma token_leaves_one t : token_leaves [t] = token_leaf t.
Proof. apply app_nil_r. Qed.

Lemma builder_token_leaves t b :
  kind_is TOK_EOF t = false -> kind_is TOK_ERROR t = false ->
  forest_leaves (cb_items (builder_token t (tok_kind t) b)) = forest_leaves (cb_items b) ++ token_leaf t.
Proof.
  intros E1 E2. unfold builder_token, token_leaf. rewrite E1, E2. cbn [orb].
  destruct (tok_start t); try now rewrite app_nil_r. apply push_leaves.
Qed.

Lemma emit_current_leaves p : tree_leaves (emit_current p) = tree_leaves p ++ token_leaf (ps_current p).
Proof.
  unfold emit_current, tree_leaves, cur_is.
  destruct (kind_is TOK_EOF (ps_current p)) eqn:E1; cbn [negb andb];
    [unfold token_leaf; rewrite E1; now rewrite app_nil_r|].
  destruct (kind_is TOK_ERROR (ps_current p)) eqn:E2; cbn [negb];
    [unfold token_leaf; rewrite E2, orb_true_r; now rewrite app_nil_r|].
  now apply builder_token_leaves.
Qed.

Lemma comment_mark_leaves l p :
  cur_is TOK_COMMENT p = true -> tree_leaves (comment_mark l p) = tree_leaves p ++ token_leaf (ps_current p).
Proof.
  intros H%cur_is_eq. unfold comment_mark, tree_leaves. cbv zeta. cbn [ps_builder append_pending_trivia set_pending].
  match goal with |- forest_leaves (cb_items (ps_builder (maybe_append_blank_trivia ?a ?n ?q))) = _ =>
    replace (ps_builder (maybe_append_blank_trivia a n q)) with (ps_builder q)
      by (unfold maybe_append_blank_trivia; repeat case_if; reflexivity) end.
  cbn [ps_builder set_builder]. rewrite <- H at 1. apply builder_token_leaves; apply kind_is_neq; congruence.
Qed.

(** ** Fetching *)

Lemma fetch_upcoming prev p :
  wf p -> upcoming (fetch prev p) = tokens_from (ps_lexer p) /\
          tree_leaves (fetch prev p) = tree_leaves p /\
          lx_src (ps_lexer (fetch prev p)) = lx_src (ps_lexer p) /\
          ps_had_error (fetch prev p) = ps_had_error p.
Proof.
  intros [H _]. pose proof (next_token_src _ H) as Hs. rewrite tokens_from_step by auto.
  unfold upcoming, fetch, cur_is, tree_leaves. destruct (lexer_next_token (ps_lexer p)) as [tok lx'].
  cbn in *. auto.
Qed.

(** One round of the comment loop moves the comment from the tokens to come into the tree. *)
Lemma comment_step_live l p src ts done :
  wf p -> cur_is TOK_COMMENT p = true -> lx_src (ps_lexer p) = src -> ts = done ++ upcoming p ->
  tree_leaves p = token_leaves done ->
  let q := comment_step l p in
  lx_src (ps_lexer q) = src /\ ts = (done ++ [ps_current p]) ++ upcoming q /\
  tree_leaves q = token_leaves (done ++ [ps_current p]).
Proof.
  intros W Hc Hs Ht Hl q. unfold q. rewrite comment_step_fetch.
  pose proof (same_input_wf _ p (comment_mark_same l) W) as W'.
  destruct (fetch_upcoming (ps_previous (comment_mark l p)) _ W') as (U & L & S & _).
  destruct (comment_mark_same l p) as [Lx _]. rewrite U, L, S, Lx, comment_mark_leaves by auto.
  rewrite token_leaves_app, token_leaves_one, Hl. refine (conj Hs (conj _ eq_refl)).
  rewrite Ht, <- app_assoc. unfold upcoming.
  assert (cur_is TOK_EOF p = false) as -> by (apply cur_is_eq in Hc; apply cur_is_neq; congruence). reflexivity.
Qed.

Lemma comment_loop_tracks n l p src ts done :
  wf p -> lx_src (ps_lexer p) = src -> ts = done ++ upcoming p -> tree_leaves p = token_leaves done ->
  MAX_SYNC_LOOP <= n + List.length done -> tracks src ts (comment_loop n l p).
Proof.
  revert p done; induction n as [|n IH]; intros p done W Hs Ht Hl Hn; cbn [comment_loop];
    destruct (cur_is TOK_COMMENT p) eqn:E; try (eapply tr_live; eassumption).
  - apply tr_cut with (done := done) (rest := upcoming p); auto; [exact (live_position _ _ _ Ht)|].
    rewrite Ht, length_app. unfold upcoming. case_if; cbn [List.length]; lia.
  - destruct (comment_step_live l p src ts done W E Hs Ht Hl) as (Hs' & Ht' & Hl').
    apply (IH _ (done ++ [ps_current p])); auto using comment_step_wf. rewrite length_app. cbn [List.length]. lia.
Qed.

(** The end of [advance] neither fetches nor emits. *)
Lemma tracks_same src ts p q :
  ps_lexer q = ps_lexer p -> ps_current q = ps_current p -> tree_leaves q = tree_leaves p ->
  (ps_had_error p = true -> ps_had_error q = true) -> tracks src ts p -> tracks src ts q.
Proof.
  intros L C T E [done H1 H2 H3|done rest H1 H2 H3 H4 H5 H6].
  - apply tr_live with (done := done); rewrite ?L, ?T; auto. unfold upcoming, cur_is. now rewrite C, L.
  - apply tr_cut with (done := done) (rest := rest); rewrite ?T, ?C; auto. unfold cur_is. now rewrite C.
Qed.

Lemma maybe_blank_fields a n p :
  ps_builder (maybe_append_blank_trivia a n p) = ps_builder p /\
  ps_had_error (maybe_append_blank_trivia a n p) = ps_had_error p.
Proof. unfold maybe_append_blank_trivia. repeat case_if; auto. Qed.

Lemma advance_tail_tracks prev_line src ts p :
  tracks src ts p ->
  tracks src ts
    (let p4 := if negb (cur_is TOK_EOF p) then
                 maybe_append_blank_trivia (trivia_anchor_line p prev_line) (tok_line (ps_current p)) p
               else p in
     if cur_is TOK_ERROR p4 then set_had_error p4 else p4).
Proof.
  intros H. destruct (advance_tail_same prev_line p) as [L C]. cbv zeta in *.
  eapply tracks_same; [exact L|exact C|..|exact H]; clear L C;
    destruct (maybe_blank_fields (trivia_anchor_line p prev_line) (tok_line (ps_current p)) p) as [B E2];
    unfold tree_leaves; case_if; case_if; cbn; rewrite ?B, ?E2; auto.
Qed.

Lemma advance_tracks src ts p :
  wf p -> tok_kind (ps_current p) <> TOK_EOF -> tracks src ts p -> tracks src ts (advance p).
Proof.
  intros W Hk [done H1 H2 H3|done rest _ _ _ H3 _ _]; [|apply cur_is_eq in H3; contradiction].
  unfold advance. cbv zeta. set (p1 := emit_current p). apply advance_tail_tracks.
  destruct (emit_current_same p) as [L C]. fold p1 in L, C.
  assert (W1 : wf p1) by (apply (same_input_wf emit_current); auto using emit_current_same).
  destruct (fetch_upcoming (ps_current p1) p1 W1) as (U & T & S & _).
  apply comment_loop_tracks with (done := done ++ [ps_current p]); auto using fetch_wf.
  - now rewrite S, L.
  - rewrite U, L, H2, <- app_assoc. unfold upcoming. now rewrite (proj2 (cur_is_neq _ _) Hk).
  - rewrite T. unfold p1. now rewrite emit_current_leaves, token_leaves_app, token_leaves_one, H3.
  - change MAX_COMMENT_LOOP with MAX_SYNC_LOOP. lia.
Qed.

Lemma wrap_tree_leaves p cp k :
  tree_leaves (set_builder (syntax_builder_wrap (ps_builder p) cp k) p) = tree_leaves p.
Proof. apply wrap_leaves. Qed.

Lemma record_error_fields msg p :
  ps_builder (record_error msg p) = ps_builder p /\
  (ps_had_error p = true -> ps_had_error (record_error msg p) = true).
Proof. unfold record_error. case_if; auto. Qed.

(** Every step keeps the account. *)
Lemma pstep_tracks src a b : pstep a b -> wf a ->
  tracks src (tokens_from (lexer_init src)) a -> tracks src (tokens_from (lexer_init src)) b.
Proof.
  intros H W T. destruct H; try (eapply tracks_same; [..|exact T]; [reflexivity|reflexivity|reflexivity|now auto]).
  - now apply advance_tracks.
  - destruct T as [done H1 H2 H3|done rest _ _ _ H3 _ _]; [|apply cur_is_eq in H3; contradiction].
    apply tr_cut with (done := done) (rest := upcoming p); auto; [exact (live_position _ _ _ H2)|].
    unfold total in H0. rewrite H1 in H0. unfold toks_left in H0.
    pose proof (left_pos p W). lia.
  - destruct (record_error_same msg p) as [L C], (record_error_fields msg p) as [B E].
    eapply tracks_same; [exact L|exact C|unfold tree_leaves; now rewrite B|exact E|exact T].
  - eapply tracks_same; [..|exact T]; auto using wrap_tree_leaves.
Qed.


Lemma psteps_tracks src a b : psteps a b -> wf a ->
  tracks src (tokens_from (lexer_init src)) a -> tracks src (tokens_from (lexer_init src)) b.
Proof.
  intros H W T.
  destruct (psteps_invariant (fun p => wf p /\ tracks src (tokens_from (lexer_init src)) p) a b) as [_ G]; auto.
  intros x y S [Wx Tx]. split; [exact (proj1 (pstep_drains x y S Wx))|exact (pstep_tracks src x y S Wx Tx)].
Qed.

(** ** The parser at its start *)

Lemma parser_create_wf lx g : lx_pending lx = [] -> toks_left lx <= toks_left (lexer_init (lx_src lx)) ->
  wf (parser_create lx g).
Proof.
  intros Hp Hl. unfold parser_create, advance. cbv zeta.
  set (p1 := emit_current _).
  assert (W1 : wf p1) by (split; assumption).
  destruct (comment_loop_ok MAX_COMMENT_LOOP (tok_line (ps_current p1)) _ (fetch_wf (ps_current p1) p1 W1)) as (W3 & _).
  exact (same_input_wf _ _ (advance_tail_same _) W3).
Qed.

Lemma parser_create_tracks src g :
  tracks src (tokens_from (lexer_init src)) (parser_create (lexer_init src) g).
Proof.
  unfold parser_create, advance. cbv zeta. apply advance_tail_tracks.
  set (p1 := emit_current _).
  assert (W1 : wf p1) by (split; cbn; auto).
  destruct (fetch_upcoming (ps_current p1) p1 W1) as (U & T & S & _).
  apply comment_loop_tracks with (done := []); auto using fetch_wf.
Qed.

(** The state a parse ends in. *)
Lemma parse_source_ends src g :
  exists p', parse_program (parser_create (lexer_init src) g) =
      Some (mkResult (ps_errors p') (fst (syntax_builder_finish (ps_builder p'))), p') /\
    psteps (parser_create (lexer_init src) g) p' /\ wf p' /\
    ps_no_brace_lit p' = ps_no_brace_lit (parser_create (lexer_init src) g) /\
    tracks src (tokens_from (lexer_init src)) p' /\
    (cur_is TOK_EOF p' = true \/
     ps_had_error p' = true /\ MAX_SYNC_LOOP < List.length (tokens_from (lexer_init src))).
Proof.
  assert (W : wf (parser_create (lexer_init src) g)) by now apply parser_create_wf.
  destruct (parse_program_total _ W) as (p' & E & S & W' & B & D).
  exists p'. refine (conj E (conj S (conj W' (conj B (conj _ _))))).
  - eapply psteps_tracks; [exact S|exact W|apply parser_create_tracks].
  - destruct D as [D|[D1 D2]]; [auto|right]. split; [exact D1|].
    destruct (parser_create_tracks src g) as [done H1 _ _|]; [|assumption].
    pose proof (proj2 W) as T. unfold total in T. rewrite H1 in T.
    unfold toks_left in T. unfold MAX_DECL_LOOP, MAX_SYNC_LOOP in *. lia.
Qed.

(** The leaves are those of a first part of the tokens, and of all of them unless the input was
    cut short. *)
Lemma final_leaves src p :
  tracks src (tokens_from (lexer_init src)) p ->
  (cur_is TOK_EOF p = true \/ ps_had_error p = true /\ MAX_SYNC_LOOP < List.length (tokens_from (lexer_init src))) ->
  (exists done rest, tokens_from (lexer_init src) = done ++ rest /\ tree_leaves p = token_leaves done) /\
  (ps_had_error p = false \/ List.length (tokens_from (lexer_init src)) <= MAX_SYNC_LOOP ->
   tree_leaves p = token_leaves (tokens_from (lexer_init src))).
Proof.
  intros [done H1 H2 H3|done rest H1 H2 _ H3 H4 H5] He; (split; [eauto|intros Hl]).
  - destruct He as [He|[He1 He2]]; [|destruct Hl; [congruence|lia]].
    rewrite H2, H3, token_leaves_app. unfold upcoming. rewrite He, token_leaves_one.
    unfold token_leaf. unfold cur_is in He. rewrite He. now rewrite app_nil_r.
  - destruct Hl; [congruence|lia].
Qed.

(** ** What the steps do to the tree *)

Inductive bstep : CstBuilder -> CstBuilder -> Prop :=
| bs_token b l : bstep b (builder_push b (SE_TOKEN l))
| bs_wrap b cp k : bstep b (syntax_builder_wrap b cp k).

Definition bsteps : CstBuilder -> CstBuilder -> Prop := clos_refl_trans CstBuilder bstep.

Lemma builder_token_bsteps t k b : bsteps b (builder_token t k b).
Proof. unfold builder_token. destruct (tok_start t); [apply rt_step, bs_token|apply rt_refl|apply rt_refl]. Qed.

Lemma comment_step_builder l p : ps_builder (comment_step l p) = builder_token (ps_current p) TOK_COMMENT (ps_builder p).
Proof.
  rewrite comment_step_fetch. unfold fetch. destruct (lexer_next_token _) as [tok lx].
  cbn. unfold comment_mark. cbv zeta. cbn. apply maybe_blank_fields.
Qed.

Lemma comment_loop_bsteps n l p : bsteps (ps_builder p) (ps_builder (comment_loop n l p)).
Proof.
  revert p; induction n as [|n IH]; intros p; cbn [comment_loop]; case_if; try apply rt_refl.
  eapply rt_trans; [|apply IH]. rewrite comment_step_builder. apply builder_token_bsteps.
Qed.

Lemma advance_bsteps p : bsteps (ps_builder p) (ps_builder (advance p)).
Proof.
  unfold advance. cbv zeta. set (p1 := emit_current p).
  assert (B1 : bsteps (ps_builder p) (ps_builder p1)).
  { unfold p1, emit_current. case_if; [apply builder_token_bsteps|apply rt_refl]. }
  assert (B2 : ps_builder (fetch (ps_current p1) p1) = ps_builder p1).
  { unfold fetch. now destruct (lexer_next_token (ps_lexer p1)). }
  pose proof (comment_loop_bsteps MAX_COMMENT_LOOP (tok_line (ps_current p1)) (fetch (ps_current p1) p1)) as B3.
  set (p3 := comment_loop _ _ _) in *. rewrite B2 in B3.
  eapply rt_trans; [exact B1|]. eapply rt_trans; [exact B3|].
  match goal with |- clos_refl_trans _ _ ?a ?b => replace b with a; [apply rt_refl|] end.
  case_if; case_if; cbn; auto; symmetry; apply maybe_blank_fields.
Qed.

Lemma pstep_bsteps a b : pstep a b -> bsteps (ps_builder a) (ps_builder b).
Proof.
  destruct 1; try apply rt_refl; [apply advance_bsteps| |apply rt_step, bs_wrap].
  rewrite (proj1 (record_error_fields msg p)). apply rt_refl.
Qed.

Lemma psteps_bsteps a b : psteps a b -> bsteps (ps_builder a) (ps_builder b).
Proof. induction 1; [now apply pstep_bsteps|apply rt_refl|eapply rt_trans; eassumption]. Qed.

(** A property of the builder that both builder steps keep holds at the end of a parse. *)
Lemma parse_builder_invariant (I : CstBuilder -> Prop) src g p' :
  (forall b l, I b -> I (builder_push b (SE_TOKEN l))) ->
  (forall b cp k, I b -> I (syntax_builder_wrap b cp k)) ->
  I (syntax_builder_new g) -> psteps (parser_create (lexer_init src) g) p' -> I (ps_builder p').
Proof.
  intros Ht Hw Hi Hs.
  assert (G : forall a b, bsteps a b -> I a -> I b).
  { induction 1 as [a b []| |]; auto. }
  eapply G; [eapply psteps_bsteps, Hs|]. eapply G; [apply advance_bsteps|]. exact Hi.
Qed.

(** *** Node ids *)

Definition ids_from (g : Z) (b : CstBuilder) : Prop :=
  exists n, forest_ids (cb_items b) = id_run g n /\ cb_node_id b = id_after g n.

Lemma ids_from_token g b l : ids_from g b -> ids_from g (builder_push b (SE_TOKEN l)).
Proof. intros (n & H1 & H2). exists n. cbn. rewrite forest_ids_app. cbn. now rewrite app_nil_r. Qed.

Lemma wrap_node_id b cp k :
  cb_node_id (syntax_builder_wrap b cp k) =
  if (List.length (cb_items b) <=? cp)%nat then cb_node_id b else u32 (cb_node_id b + 1).
Proof. unfold syntax_builder_wrap. now case_if. Qed.

Lemma ids_from_wrap g b cp k : ids_from g b -> ids_from g (syntax_builder_wrap b cp k).
Proof.
  intros (n & H1 & H2). unfold ids_from. rewrite wrap_ids, wrap_node_id. case_if.
  - exists n. now rewrite app_nil_r.
  - exists (S n). now rewrite id_run_snoc, H1, H2.
Qed.

(** *** Spans *)

(** The first byte of a run of leaves, and the byte after its last. *)
Definition run_start (ls : list Leaf) : Z := match ls with [] => 0%Z | l :: _ => lf_offset l end.
Definition run_end (ls : list Leaf) : Z :=
  match rev ls with [] => 0%Z | l :: _ => u32 (lf_offset l + lf_length l) end.

Definition node_spans (k : SyntaxNodeKind) (o n : Z) (cs : list SyntaxElem) : Prop :=
  cs <> [] /\ forest_leaves cs <> [] /\ o = run_start (forest_leaves cs) /\
  u32 (o + n) = run_end (forest_leaves cs) /\ n = u32 (run_end (forest_leaves cs) - o).

(** An element of the builder: its nodes have the spans of their leaves, and it has a leaf. *)
Definition elem_spans (e : SyntaxElem) : Prop := all_nodes node_spans e.

Lemma u32_idem a : u32 (u32 a) = u32 a.
Proof. apply Zmod_mod. Qed.

Lemma u32_add_sub a b : u32 (a + u32 (b - a)) = u32 b.
Proof. unfold u32. rewrite Zplus_mod_idemp_r. f_equal. lia. Qed.

Lemma elem_has_leaf e : elem_spans e -> leaves e <> [].
Proof. destruct e as [l|k i o n cs]; cbn; [discriminate|]. intros [(_ & H & _) _]. exact H. Qed.

Lemma elem_start e : elem_spans e -> elem_offset e = run_start (leaves e).
Proof. destruct e as [l|k i o n cs]; cbn; [reflexivity|]. intros [(_ & _ & H & _) _]. exact H. Qed.

Lemma elem_stop e : elem_spans e -> elem_end e = run_end (leaves e).
Proof. destruct e as [l|k i o n cs]; cbn; [reflexivity|]. intros [(_ & _ & _ & H & _) _]. exact H. Qed.

Lemma run_end_app a b : b <> [] -> run_end (a ++ b) = run_end b.
Proof.
  intros Hb. unfold run_end. rewrite rev_app_distr. destruct (rev b) eqn:E; [|reflexivity].
  apply (f_equal (@rev Leaf)) in E. rewrite rev_involutive in E. contradiction.
Qed.

Lemma run_end_u32 ls : u32 (run_end ls) = run_end ls.
Proof. unfold run_end. destruct (rev ls); [reflexivity|apply u32_idem]. Qed.

Lemma forest_run cs :
  cs <> [] -> Forall elem_spans cs ->
  forest_leaves cs <> [] /\ node_offset cs = run_start (forest_leaves cs) /\
  elem_end (last cs (hd (SE_TOKEN (mkLeaf TOK_EOF 0 0 0 0)) cs)) = run_end (forest_leaves cs).
Proof.
  intros Hne HF. destruct cs as [|e cs]; [contradiction|]. cbn [hd].
  assert (He : elem_spans e) by now inversion HF.
  pose proof (elem_has_leaf e He) as Hl. refine (conj _ (conj _ _)).
  - cbn. destruct (leaves e); [contradiction|discriminate].
  - cbn. rewrite elem_start by auto. destruct (leaves e); [contradiction|reflexivity].
  - destruct (exists_last Hne) as (cs' & z & Hz). rewrite Hz in HF |- *.
    rewrite last_last. apply Forall_app in HF as [_ HF]. assert (Hz' : elem_spans z) by now inversion HF.
    rewrite forest_leaves_app. cbn. rewrite app_nil_r, run_end_app by now apply elem_has_leaf. now apply elem_stop.
Qed.

Lemma make_node_spans cs k i : cs <> [] -> Forall elem_spans cs -> elem_spans (make_node cs k i).
Proof.
  intros Hne HF. destruct (forest_run cs Hne HF) as (H1 & H2 & H3).
  split; [|now apply all_nodes_forest].
  unfold node_spans. rewrite H2. refine (conj Hne (conj H1 (conj eq_refl _))).
  destruct cs as [|e cs]; [contradiction|]. cbn [node_length hd] in *. rewrite H3.
  cbn [node_offset] in H2. rewrite H2, u32_add_sub, run_end_u32. split; [reflexivity|reflexivity].
Qed.

Definition spans_ok (b : CstBuilder) : Prop := Forall elem_spans (cb_items b).

Lemma spans_ok_token b l : spans_ok b -> spans_ok (builder_push b (SE_TOKEN l)).
Proof. intros H. apply Forall_app. split; [exact H|]. repeat constructor. Qed.

Lemma spans_ok_wrap b cp k : spans_ok b -> spans_ok (syntax_builder_wrap b cp k).
Proof.
  unfold spans_ok, syntax_builder_wrap. intros H. case_if; [exact H|]. apply Nat.leb_gt in E. cbn.
  rewrite <- (firstn_skipn cp (cb_items b)) in H. apply Forall_app in H as [H1 H2].
  apply Forall_app. split; [exact H1|]. constructor; [|constructor].
  apply make_node_spans; [|exact H2]. intros Hn. apply (f_equal (@List.length _)) in Hn.
  rewrite length_skipn in Hn. cbn in Hn. lia.
Qed.

(** *** The order of the leaves *)

(** Non-empty leaves, in source order, without overlap, between [pos] and [stop]. *)
Fixpoint in_order (pos : Z) (ls : list Leaf) (stop : Z) : Prop :=
  match ls with
  | [] => (pos <= stop)%Z
  | l :: ls' => (pos <= lf_offset l)%Z /\ (0 < lf_length l)%Z /\ in_order (lf_offset l + lf_length l) ls' stop
  end.

Lemma in_order_le pos ls stop : in_order pos ls stop -> (pos <= stop)%Z.
Proof. revert pos; induction ls as [|l ls IH]; intros pos; cbn; [auto|]. intros (H1 & H2 & H3). apply IH in H3. lia. Qed.

Lemma in_order_weaken pos pos' ls stop : (pos' <= pos)%Z -> in_order pos ls stop -> in_order pos' ls stop.
Proof. destruct ls as [|l ls]; cbn; [lia|]. intuition lia. Qed.

Lemma in_order_app pos a b stop :
  in_order pos (a ++ b) stop <-> exists mid, in_order pos a mid /\ in_order mid b stop.
Proof.
  revert pos; induction a as [|l a IH]; intros pos; cbn.
  - split; [|intros (m & H1 & H2); exact (in_order_weaken _ _ _ _ H1 H2)].
    intros H. exists pos. split; [lia|exact H].
  - rewrite IH. split; [intros (H1 & H2 & m & H3 & H4); eauto|intros (m & (H1 & H2 & H3) & H4); eauto].
Qed.

Lemma in_order_stop pos ls stop stop' : (stop <= stop')%Z -> in_order pos ls stop -> in_order pos ls stop'.
Proof.
  intros Hs. revert pos; induction ls as [|l ls IH]; intros pos; cbn; [lia|]. intuition auto.
Qed.

Lemma covers_in_order lc pos rest ts :
  covers lc pos rest ts -> (Z.of_nat (pos + List.length rest) < 2 ^ 32)%Z ->
  in_order (Z.of_nat pos) (token_leaves ts) (Z.of_nat (pos + List.length rest)).
Proof.
  induction 1 as [lc pos gap tok _ Hk _ _|lc pos gap txt rest tok ts _ Hne Hk Hs _ _ IH]; intros Hlt.
  - cbn. unfold token_leaf. rewrite (proj2 (kind_is_eq _ _) Hk). cbn. lia.
  - cbn [token_leaves flat_map]. rewrite !length_app in *.
    assert (Hr : in_order (Z.of_nat (pos + (List.length gap + List.length txt))) (token_leaves ts)
                   (Z.of_nat (pos + (List.length gap + (List.length txt + List.length rest))))).
    { replace (pos + (List.length gap + (List.length txt + List.length rest)))
        with (pos + (List.length gap + List.length txt) + List.length rest) by lia. apply IH. lia. }
    unfold token_leaf. rewrite (proj2 (kind_is_neq _ _) Hk). cbn [orb].
    destruct (kind_is TOK_ERROR tok) eqn:E; cbn [app].
    + eapply in_order_weaken; [|exact Hr]. lia.
    + apply kind_is_neq in E. destruct (Hs E) as [-> ->]. cbn [app in_order lf_offset lf_length].
      assert (0 < List.length txt) by (destruct txt; [contradiction|cbn; lia]).
      rewrite !u32_small by lia. refine (conj _ (conj _ _)); try lia.
      replace (Z.of_nat (pos + List.length gap) + Z.of_nat (List.length txt))%Z
        with (Z.of_nat (pos + (List.length gap + List.length txt))) by lia. exact Hr.
Qed.

Lemma tokens_in_order src :
  ~ In NUL src -> (Z.of_nat (List.length src) < 2 ^ 32)%Z ->
  in_order 0 (token_leaves (tokens_from (lexer_init src))) (Z.of_nat (List.length src)).
Proof.
  intros Hn Hl. pose proof (tokens_from_covers _ (lexer_init src) (le_n _) eq_refl Hn) as C.
  apply covers_in_order in C; [exact C|exact Hl].
Qed.

Lemma prefix_in_order src done rest :
  ~ In NUL src -> (Z.of_nat (List.length src) < 2 ^ 32)%Z -> tokens_from (lexer_init src) = done ++ rest ->
  in_order 0 (token_leaves done) (Z.of_nat (List.length src)).
Proof.
  intros Hn Hl Ht. pose proof (tokens_in_order src Hn Hl) as H.
  rewrite Ht, token_leaves_app, in_order_app in H. destruct H as (m & H1 & H2).
  exact (in_order_stop _ _ _ _ (in_order_le _ _ _ H2) H1).
Qed.

(** A run of leaves in order has no wrap-around in its span. *)
Lemma run_bounds pos ls stop :
  in_order pos ls stop -> ls <> [] -> (0 <= pos)%Z -> (stop < 2 ^ 32)%Z ->
  (pos <= run_start ls < run_end ls)%Z /\ (run_end ls <= stop)%Z.
Proof.
  intros H Hne Hp Hs. destruct (exists_last Hne) as (a & l & ->). rewrite run_end_app by discriminate.
  apply in_order_app in H as (mid & H1 & H2). cbn in H2. destruct H2 as (H3 & H4 & H5).
  pose proof (in_order_le _ _ _ H1). unfold run_end. cbn. rewrite u32_small by lia.
  destruct a as [|x a]; cbn in *; [lia|]. destruct H1 as (H6 & H7 & H8). apply in_order_le in H8. lia.
Qed.

(** What a spanned node whose leaves are in order is shown to satisfy, every node of an ordered
    spanned tree satisfies. *)
Lemma all_nodes_in_order (Q : SyntaxNodeKind -> Z -> Z -> list SyntaxElem -> Prop) lo hi :
  (forall k o n cs, in_order lo (forest_leaves cs) hi -> node_spans k o n cs -> Q k o n cs) ->
  forall e, in_order lo (leaves e) hi -> elem_spans e -> all_nodes Q e.
Proof.
  intros HQ. induction e as [l|k i o n cs IH] using syntax_elem_ind; intros Ho Hs; [exact I|].
  destruct Hs as [Hs Hcs]. split; [now apply (HQ k)|]. apply all_nodes_forest in Hcs. apply all_nodes_forest.
  cbn in Ho. clear Hs HQ. revert Ho. induction cs as [|e cs IHcs]; intros Ho; constructor.
  - inversion IH; inversion Hcs; subst. cbn in Ho. apply in_order_app in Ho as (m & H1' & H2').
    apply H1; [|assumption]. exact (in_order_stop _ _ _ _ (in_order_le _ _ _ H2') H1').
  - inversion IH; inversion Hcs; subst. apply IHcs; auto. cbn in Ho. apply in_order_app in Ho as (m & H1' & H2').
    exact (in_order_weaken _ _ _ _ (in_order_le _ _ _ H1') H2').
Qed.

(** ** Diagnostics *)

(** The current token has the position of a token of the source, and so has every recorded
    error; messages fit their buffer; an error sets [had_error]. *)
Record diagnosed (ts : list Token) (p : Parser) : Prop := mkDiagnosed {
  dg_current : position_in ts (tok_line (ps_current p)) (tok_column (ps_current p));
  dg_errors : Forall (fun e => position_in ts (pe_line e) (pe_column e) /\
                               String.length (pe_message e) <= 511) (ps_errors p);
  dg_flag : ps_errors p <> [] -> ps_had_error p = true
}.

Lemma tracks_position src ts p : tracks src ts p -> position_in ts (tok_line (ps_current p)) (tok_column (ps_current p)).
Proof. intros [done _ H _|]; [exact (live_position _ _ _ H)|assumption]. Qed.

Lemma substring_length s : forall n m, String.length (substring n m s) <= m.
Proof.
  induction s as [|c s IH]; intros [|n] [|m]; cbn; try lia; [specialize (IH 0 m); lia|apply IH|apply IH].
Qed.

Lemma format_message_length msg : String.length (format_message msg) <= 511.
Proof. apply substring_length. Qed.

Lemma comment_step_errors l p :
  ps_errors (comment_step l p) = ps_errors p /\ ps_had_error (comment_step l p) = ps_had_error p.
Proof.
  rewrite comment_step_fetch. unfold fetch. destruct (lexer_next_token _) as [tok lx]. cbn.
  unfold comment_mark, maybe_append_blank_trivia. cbv zeta. repeat case_if; auto.
Qed.

Lemma comment_loop_errors n l p :
  ps_errors (comment_loop n l p) = ps_errors p /\
  (ps_had_error p = true -> ps_had_error (comment_loop n l p) = true).
Proof.
  revert p; induction n as [|n IH]; intros p; cbn [comment_loop]; case_if; auto.
  destruct (IH (comment_step l p)) as [E1 H1], (comment_step_errors l p) as [E2 H2]. rewrite E1, H2 in *. auto.
Qed.

Lemma advance_errors p :
  ps_errors (advance p) = ps_errors p /\ (ps_had_error p = true -> ps_had_error (advance p) = true).
Proof.
  unfold advance. cbv zeta. set (p1 := emit_current p).
  assert (A : ps_errors p1 = ps_errors p /\ ps_had_error p1 = ps_had_error p)
    by (unfold p1, emit_current; case_if; auto).
  assert (B : ps_errors (fetch (ps_current p1) p1) = ps_errors p1 /\
              ps_had_error (fetch (ps_current p1) p1) = ps_had_error p1)
    by (unfold fetch; destruct (lexer_next_token (ps_lexer p1)); auto).
  pose proof (comment_loop_errors MAX_COMMENT_LOOP (tok_line (ps_current p1)) (fetch (ps_current p1) p1)) as [C1 C2].
  set (p3 := comment_loop _ _ _) in *. destruct A as [A1 A2], B as [B1 B2].
  assert (D : forall a n, ps_errors (maybe_append_blank_trivia a n p3) = ps_errors p3)
    by (intros; unfold maybe_append_blank_trivia; repeat case_if; auto).
  set (p4 := if negb _ then _ else _).
  assert (Q : ps_errors p4 = ps_errors p3 /\ ps_had_error p4 = ps_had_error p3)
    by (unfold p4; case_if; [split; [apply D|apply maybe_blank_fields]|auto]).
  clearbody p4. destruct Q as [Q1 Q2]. case_if; cbn; split; auto; try congruence.
  intros H. rewrite Q2. apply C2. congruence.
Qed.

Lemma pstep_errors a b :
  pstep a b ->
  (ps_errors b = ps_errors a \/ exists msg, b = record_error msg a) /\
  (ps_had_error a = true -> ps_had_error b = true).
Proof.
  destruct 1; try (split; [now left|now auto]).
  - destruct (advance_errors p); auto.
  - split; [right; now exists msg|apply record_error_fields].
Qed.

Lemma pstep_diagnosed src a b :
  pstep a b -> tracks src (tokens_from (lexer_init src)) b ->
  diagnosed (tokens_from (lexer_init src)) a -> diagnosed (tokens_from (lexer_init src)) b.
Proof.
  intros S T [P E F]. destruct (pstep_errors a b S) as [[He|[msg ->]] Hh]; (constructor; [exact (tracks_position _ _ _ T)|..]).
  - now rewrite He.
  - rewrite He. auto.
  - unfold record_error. case_if; [exact E|]. cbn. apply Forall_app. split; [exact E|].
    constructor; [|constructor]. cbn. split; [exact P|apply format_message_length].
  - unfold record_error. case_if; auto.
Qed.

Lemma psteps_diagnosed src g p :
  psteps (parser_create (lexer_init src) g) p -> diagnosed (tokens_from (lexer_init src)) p.
Proof.
  intros S. set (ts := tokens_from (lexer_init src)).
  assert (W : wf (parser_create (lexer_init src) g)) by now apply parser_create_wf.
  pose proof (parser_create_tracks src g) as T.
  assert (D : diagnosed ts (parser_create (lexer_init src) g)).
  { assert (E : ps_errors (parser_create (lexer_init src) g) = []) by exact (proj1 (advance_errors _)).
    constructor; [exact (tracks_position _ _ _ T)|rewrite E; constructor|rewrite E; now intros H]. }
  destruct (psteps_invariant (fun q => (wf q /\ tracks src ts q) /\ diagnosed ts q) (parser_create (lexer_init src) g) p) as [_ G]; auto.
  intros x y St [[Wx Tx] Dx]. pose proof (pstep_tracks src x y St Wx Tx) as Ty.
  refine (conj (conj (proj1 (pstep_drains x y St Wx)) Ty) (pstep_diagnosed src x y St Ty Dx)).
Qed.
