(* ===== verification/Roundtrip.v ===== *)
(** * The round-trip tool ([src/arche_syntax_roundtrip.c])

    [emit] walks the tree and copies each leaf's bytes and the bytes between leaves out of the
    source; [roundtrip] compares the reconstruction with the source. *)

From S2P Require Import Prelude Lexer SyntaxTree ParserCore Parser ParserFacts.

(** One token leaf: the output and the position after it, or [None] for the disorder code -1. *)
Definition emit_leaf (src : cstr) (l : Leaf) (st : cstr * Z) : option (cstr * Z) :=
  let (out, pos) := st in
  let off := lf_offset l in
  let len := lf_length l in
  if (off <? pos)%Z then None
  else Some (out ++ slice src pos (off - pos) ++ slice src off len, (off + len)%Z).

(** The loop over the children, recursive on nodes. *)
Fixpoint emit (src : cstr) (e : SyntaxElem) (st : cstr * Z) : option (cstr * Z) :=
  match e with
  | SE_TOKEN l => emit_leaf src l st
  | SE_NODE _ _ _ _ children =>
      fold_left (fun acc c => match acc with Some s => emit src c s | None => None end) children (Some st)
  end.

(** The reconstruction; [None] when the leaves are out of order. *)
Definition reconstruct (src : cstr) (root : SyntaxElem) : option cstr :=
  match emit src root ([], 0%Z) with
  | Some (out, pos) => Some (out ++ slice src pos (Z.of_nat (List.length src) - pos))
  | None => None
  end.

(** The gate's verdict on a tree, and on a source. *)
Definition roundtrip_tree (src : cstr) (root : SyntaxElem) : bool :=
  match reconstruct src root with Some out => cstr_eqb out src | None => false end.

Definition roundtrip (src : cstr) (g_node_id : Z) : option bool :=
  option_map (fun r => roundtrip_tree src (pr_syntax_root r)) (parse_source src g_node_id).

(** The [--tree] listing, one line per node and per leaf. *)
Definition indent (depth : nat) : cstr := List.concat (repeat (lit "  ") depth).

Fixpoint print_tree (src : cstr) (depth : nat) (e : SyntaxElem) : list cstr :=
  match e with
  | SE_TOKEN l => [indent depth ++ ["'"%char] ++ slice src (lf_offset l) (lf_length l) ++ ["'"%char]]
  | SE_NODE k _ _ _ children =>
      (indent depth ++ lit (syntax_node_kind_name k)) :: flat_map (print_tree src (S depth)) children
  end.

(** ** Lemmas *)

(** Copying leaf by leaf, in a flat list. *)
Definition emit_leaves (src : cstr) (ls : list Leaf) (st : option (cstr * Z)) : option (cstr * Z) :=
  fold_left (fun acc l => match acc with Some s => emit_leaf src l s | None => None end) ls st.

Lemma emit_leaves_app src a b st : emit_leaves src (a ++ b) st = emit_leaves src b (emit_leaves src a st).
Proof. apply fold_left_app. Qed.

Lemma emit_leaves_none src ls : emit_leaves src ls None = None.
Proof. induction ls; auto. Qed.

Lemma emit_flat src e st : emit src e st = emit_leaves src (leaves e) (Some st).
Proof.
  revert st. induction e as [l|k i o n cs IH] using syntax_elem_ind; intros st; [reflexivity|]. cbn [emit leaves].
  enough (G : forall acc, fold_left (fun acc c => match acc with Some s => emit src c s | None => None end) cs acc =
                          emit_leaves src (flat_map leaves cs) acc) by apply G.
  induction IH as [|e cs He _ IHcs]; intros acc; [reflexivity|]. cbn [fold_left flat_map].
  rewrite emit_leaves_app, IHcs. f_equal. destruct acc as [s|]; [apply He|now rewrite emit_leaves_none].
Qed.

Lemma emit_leaves_copy src ls pos stop :
  (0 <= pos)%Z -> in_order pos ls stop ->
  exists pos', (pos <= pos' <= stop)%Z /\
    emit_leaves src ls (Some (firstn (Z.to_nat pos) src, pos)) = Some (firstn (Z.to_nat pos') src, pos').
Proof.
  revert pos; induction ls as [|l ls IH]; intros pos Hp; cbn [in_order].
  - intros H. exists pos. split; [lia|reflexivity].
  - intros (H1 & H2 & H3). destruct (IH (lf_offset l + lf_length l)%Z) as (pos' & Hb & E); [lia|exact H3|].
    exists pos'. split; [lia|]. cbn [emit_leaves fold_left]. unfold emit_leaf.
    destruct (Z.ltb_spec (lf_offset l) pos); [lia|].
    rewrite app_assoc, slice_extend by lia. replace (pos + (lf_offset l - pos))%Z with (lf_offset l) by lia.
    rewrite slice_extend by lia. exact E.
Qed.

Lemma reconstruct_in_order src root :
  in_order 0 (leaves root) (Z.of_nat (List.length src)) -> reconstruct src root = Some src.
Proof.
  intros H. unfold reconstruct. rewrite emit_flat.
  destruct (emit_leaves_copy src (leaves root) 0 _ (Z.le_refl 0) H) as (pos & Hb & E).
  match goal with |- match ?x with _ => _ end = _ =>
    replace x with (Some (firstn (Z.to_nat pos) src, pos)) by (symmetry; exact E) end.
  f_equal. rewrite slice_extend by lia.
  replace (pos + (Z.of_nat (List.length src) - pos))%Z with (Z.of_nat (List.length src)) by lia.
  rewrite Nat2Z.id. apply firstn_all.
Qed.
