(* ===== verification/ParserProps.v ===== *)
(** * Properties of the parser

    Termination, losslessness, the spans and ids of the nodes, the position of diagnostics, the
    round-trip gate, and the behaviours that differ from what the code says of itself. *)

From S2P Require Import Prelude Lexer LexerFacts SyntaxTree ParserCore ParserSteps Parser ParserTotal ParserFacts Roundtrip.

(** ** Specifications *)

(** The byte after the last leaf of a run. *)
Definition last_end (ls : list Leaf) : Z :=
  match rev ls with [] => 0%Z | l :: _ => (lf_offset l + lf_length l)%Z end.

(** The span of a node is, to the byte, the one from its first leaf to its last. *)
Definition exact_span (size : Z) (k : SyntaxNodeKind) (o n : Z) (cs : list SyntaxElem) : Prop :=
  forest_leaves cs <> [] /\ o = run_start (forest_leaves cs) /\ (o + n)%Z = last_end (forest_leaves cs) /\
  (0 <= o)%Z /\ (0 < n)%Z /\ (o + n <= size)%Z.

Definition errors_of (src : cstr) : option (list ParseError) := option_map pr_errors (parse_source src 0).

(** A line comment, [n] times. *)
Definition comments (n : nat) : cstr := List.concat (repeat (lit "//" ++ [NL]) n).

Definition hello : cstr := lit "f :: proc() { x := a + b * 2; }".

(** ** Lemmas *)

Lemma parse_ends src g res p' :
  parse_program (parser_create (lexer_init src) g) = Some (res, p') ->
  pr_errors res = ps_errors p' /\ pr_syntax_root res = fst (syntax_builder_finish (ps_builder p')) /\
  psteps (parser_create (lexer_init src) g) p' /\ tracks src (tokens_from (lexer_init src)) p' /\
  (cur_is TOK_EOF p' = true \/ ps_had_error p' = true /\ MAX_SYNC_LOOP < List.length (tokens_from (lexer_init src))).
Proof.
  intros E. destruct (parse_source_ends src g) as (q & E' & S & _ & _ & T & D). rewrite E in E'.
  injection E' as -> ->. auto.
Qed.

Lemma parse_source_inv src g res :
  parse_source src g = Some res -> exists p', parse_program (parser_create (lexer_init src) g) = Some (res, p').
Proof.
  unfold parse_source. destruct (parse_program _) as [[r p']|]; cbn; [|discriminate]. intros [= ->]. eauto.
Qed.

Lemma root_leaves p : leaves (fst (syntax_builder_finish (ps_builder p))) = tree_leaves p.
Proof. reflexivity. Qed.

(** The leaves of any parse, in order within the source. *)
Lemma parse_in_order src g res p' :
  ~ In NUL src -> (Z.of_nat (List.length src) < 2 ^ 32)%Z ->
  parse_program (parser_create (lexer_init src) g) = Some (res, p') ->
  in_order 0 (leaves (pr_syntax_root res)) (Z.of_nat (List.length src)).
Proof.
  intros Hn Hl E. destruct (parse_ends _ _ _ _ E) as (_ & -> & _ & T & D).
  destruct (proj1 (final_leaves src p' T D)) as (done & rest & Ht & Hd).
  rewrite root_leaves, Hd. exact (prefix_in_order _ _ _ Hn Hl Ht).
Qed.

Lemma last_end_run pos ls stop :
  in_order pos ls stop -> ls <> [] -> (0 <= pos)%Z -> (stop < 2 ^ 32)%Z -> run_end ls = last_end ls.
Proof.
  intros H Hne Hp Hs. destruct (exists_last Hne) as (a & l & ->).
  apply in_order_app in H as (mid & H1 & H2). cbn in H2. pose proof (in_order_le _ _ _ H1).
  unfold run_end, last_end. rewrite rev_app_distr. cbn. apply u32_small. lia.
Qed.

Lemma node_spans_exact_span size k o n cs :
  (size < 2 ^ 32)%Z -> in_order 0 (forest_leaves cs) size -> node_spans k o n cs -> exact_span size k o n cs.
Proof.
  intros Hs Ho (_ & Hne & E1 & _ & E2).
  destruct (run_bounds _ _ _ Ho Hne (Z.le_refl 0) Hs) as [B1 B2].
  assert (En : n = (run_end (forest_leaves cs) - o)%Z) by (rewrite E2; apply u32_small; lia).
  unfold exact_span. rewrite <- (last_end_run _ _ _ Ho Hne (Z.le_refl 0) Hs).
  refine (conj Hne (conj E1 _)). lia.
Qed.

(** Every character between tokens is blank, so every other one is inside a token. *)
Lemma covers_inside lc pos rest ts :
  covers lc pos rest ts -> Forall (fun t => tok_kind t <> TOK_ERROR) ts ->
  (Z.of_nat (pos + List.length rest) < 2 ^ 32)%Z ->
  forall i c, nth_error rest i = Some c ->
  is_blank c = true \/
  exists l, In l (token_leaves ts) /\ (lf_offset l <= Z.of_nat (pos + i) < lf_offset l + lf_length l)%Z.
Proof.
  induction 1 as [lc pos gap tok Hg _ _ _|lc pos gap txt rest tok ts Hg Hne Hk Hs _ _ IH]; intros HF Hlt i c Hi.
  - left. rewrite Forall_forall in Hg. eapply Hg, nth_error_In, Hi.
  - inversion HF as [|? ? Hke HF']; subst. destruct (Hs Hke) as [Es El].
    rewrite !length_app in *.
    destruct (Nat.lt_ge_cases i (List.length gap)) as [L1|L1].
    { left. rewrite nth_error_app1 in Hi by auto. rewrite Forall_forall in Hg. eapply Hg, nth_error_In, Hi. }
    rewrite nth_error_app2 in Hi by auto.
    destruct (Nat.lt_ge_cases (i - List.length gap) (List.length txt)) as [L2|L2].
    + right. unfold token_leaves. cbn [flat_map]. unfold token_leaf at 1.
      rewrite (proj2 (kind_is_neq _ _) Hk), (proj2 (kind_is_neq _ _) Hke), Es, El. cbn [orb app].
      eexists. split; [now left|]. cbn [lf_offset lf_length]. rewrite !u32_small by lia. lia.
    + rewrite nth_error_app2 in Hi by auto.
      destruct (IH HF') with (i := i - List.length gap - List.length txt) (c := c) as [Hb|(l & Hin & Hb)]; auto; [lia|].
      right. exists l. split; [unfold token_leaves; cbn [flat_map]; apply in_or_app; now right|]. lia.
Qed.

(** ** The properties *)

(** C1: the parser always returns: on every source text, whatever the counter it starts from,
    parse_source produces a tree and an error list; no loop of the grammar and no chain of
    recursive calls can go on for ever, because each of them consumes input. *)
Theorem parse_total src g : exists res, parse_source src g = Some res.
Proof.
  destruct (parse_source_ends src g) as (p' & E & _). unfold parse_source. rewrite E. cbn. eauto.
Qed.

(** C2: the tree is lossless: its leaves, in order, are those of a first part of the lexer's
    tokens (comments included, lexical errors left out), each with the token's kind, offset,
    length, line and column; and they are those of all the tokens whenever the parse ended
    without an error or the source has at most 1000 tokens, however many syntax errors it has. *)
Theorem parse_lossless src g :
  exists res p' ts,
    parse_program (parser_create (lexer_init src) g) = Some (res, p') /\ lexer_tokenize src = Some ts /\
    (exists done rest, ts = done ++ rest /\ leaves (pr_syntax_root res) = token_leaves done) /\
    (ps_had_error p' = false \/ List.length ts <= 1000 -> leaves (pr_syntax_root res) = token_leaves ts).
Proof.
  destruct (parse_source_ends src g) as (p' & E & _ & _ & _ & T & D).
  destruct (final_leaves src p' T D) as [F1 F2].
  do 3 eexists. refine (conj E (conj (lexer_tokenize_from src) (conj F1 _))).
  intros H. apply F2. destruct H; [auto|right]. unfold MAX_SYNC_LOOP. lia.
Qed.

(** C5: no text is lost: when the source has no lexical error, and either [had_error] is 0 at the
    end (nothing was reported and no loop limit reached) or it has at most 1000 tokens, every character that is not blank
    lies inside a leaf of the tree. The condition is needed: more than 1000 comments in a row end the
    parse and hide the rest of the source ([comment_flood_hides_program]). *)
Theorem no_text_lost src g res p' ts :
  ~ In NUL src -> (Z.of_nat (List.length src) < 2 ^ 32)%Z ->
  parse_program (parser_create (lexer_init src) g) = Some (res, p') -> lexer_tokenize src = Some ts ->
  Forall (fun t => tok_kind t <> TOK_ERROR) ts -> ps_had_error p' = false \/ List.length ts <= 1000 ->
  forall i c, nth_error src i = Some c ->
  is_blank c = true \/
  exists l, In l (leaves (pr_syntax_root res)) /\ (lf_offset l <= Z.of_nat i < lf_offset l + lf_length l)%Z.
Proof.
  intros Hn Hl E Ht HF Hc i c Hi. rewrite lexer_tokenize_from in Ht. injection Ht as <-.
  destruct (parse_ends _ _ _ _ E) as (_ & -> & _ & T & D). rewrite root_leaves.
  rewrite (proj2 (final_leaves src p' T D)) by (destruct Hc; [auto|right; unfold MAX_SYNC_LOOP; lia]).
  apply (covers_inside (1, 1)%Z 0 src); auto.
  exact (tokens_from_covers _ (lexer_init src) (le_n _) eq_refl Hn).
Qed.

(** A parse of the sample that a witness can use. *)
Lemma no_text_lost_witness :
  exists res p', parse_program (parser_create (lexer_init hello) 0) = Some (res, p') /\
    forall i c, nth_error hello i = Some c ->
    is_blank c = true \/
    exists l, In l (leaves (pr_syntax_root res)) /\ (lf_offset l <= Z.of_nat i < lf_offset l + lf_length l)%Z.
Proof.
  destruct (parse_source_ends hello 0) as (p' & E & _).
  eexists _, p'. split; [exact E|].
  eapply (no_text_lost hello 0 _ p' (tokens_from (lexer_init hello))); [|vm_compute; reflexivity|exact E|apply lexer_tokenize_from| |].
  - vm_compute. intuition discriminate.
  - vm_compute. repeat constructor; discriminate.
  - right. vm_compute. lia.
Defined.

(** C3: the span of every node is exact: a node has at least one leaf, starts at its first
    leaf's first byte, ends after its last leaf's last byte, is not empty and stays inside the
    source; only the root of a source without tokens has no leaves. No 32-bit offset wraps for
    sources under 4 GiB. *)
Theorem node_spans_exact src g res :
  ~ In NUL src -> (Z.of_nat (List.length src) < 2 ^ 32)%Z -> parse_source src g = Some res ->
  leaves (pr_syntax_root res) = [] \/
  all_nodes (exact_span (Z.of_nat (List.length src))) (pr_syntax_root res).
Proof.
  intros Hn Hl H. destruct (parse_source_inv _ _ _ H) as [p' E].
  pose proof (parse_in_order _ _ _ _ Hn Hl E) as Ho. destruct (parse_ends _ _ _ _ E) as (_ & Er & S & _ & _).
  pose proof (parse_builder_invariant spans_ok src g p' spans_ok_token spans_ok_wrap (Forall_nil _) S) as Hs.
  rewrite Er in Ho |- *. destruct (cb_items (ps_builder p')) as [|e es] eqn:Ei; [left; cbn; now rewrite Ei|right].
  apply (all_nodes_in_order _ 0 (Z.of_nat (List.length src))); [|exact Ho|].
  - intros k o n cs. now apply node_spans_exact_span.
  - cbn [fst syntax_builder_finish]. apply make_node_spans; [rewrite Ei; discriminate|exact Hs].
Qed.

Lemma node_spans_exact_witness :
  exists res, parse_source hello 0 = Some res /\
    (leaves (pr_syntax_root res) = [] \/ all_nodes (exact_span (Z.of_nat (List.length hello))) (pr_syntax_root res)).
Proof.
  destruct (parse_source_ends hello 0) as (p' & E & _).
  assert (H : parse_source hello 0 = Some (mkResult (ps_errors p') (fst (syntax_builder_finish (ps_builder p')))))
    by (unfold parse_source; rewrite E; reflexivity).
  eexists. split; [exact H|]. eapply (node_spans_exact hello 0); [|vm_compute; reflexivity|exact H].
  vm_compute. intuition discriminate.
Defined.

(** C6: node ids are dense: in post-order, the ids of a tree's nodes are the successive values of
    the process-wide counter from where it stood, so they are distinct, a parent's id is larger
    than those of the nodes under it and the root's is the largest, as long as the 32-bit
    counter does not wrap. *)
Theorem node_ids_dense src g res :
  (0 <= g)%Z -> parse_source src g = Some res ->
  let ids := post_ids (pr_syntax_root res) in
  ids = id_run g (List.length ids) /\
  ((g + Z.of_nat (List.length ids) < 2 ^ 32)%Z -> ids = map (fun i => (g + Z.of_nat i)%Z) (seq 0 (List.length ids))).
Proof.
  intros Hg H ids. destruct (parse_source_inv _ _ _ H) as [p' E].
  destruct (parse_ends _ _ _ _ E) as (_ & Er & S & _ & _).
  assert (I : ids_from g (syntax_builder_new g)) by (exists 0; split; reflexivity).
  destruct (parse_builder_invariant (ids_from g) src g p' (ids_from_token g) (ids_from_wrap g) I S) as (n & H1 & H2).
  assert (Hi : ids = id_run g (Datatypes.S n)).
  { unfold ids. rewrite Er. cbn [fst syntax_builder_finish make_node post_ids].
    change (flat_map post_ids (cb_items (ps_builder p'))) with (forest_ids (cb_items (ps_builder p'))).
    now rewrite H1, H2, id_run_snoc. }
  assert (Hlen : List.length ids = Datatypes.S n) by (rewrite Hi; apply id_run_length).
  rewrite Hlen. split; [exact Hi|]. intros Hb. rewrite Hi. now apply id_run_small.
Qed.

Lemma node_ids_dense_witness :
  exists res, parse_source hello 7 = Some res /\
    let ids := post_ids (pr_syntax_root res) in
    ids = id_run 7 (List.length ids) /\
    ((7 + Z.of_nat (List.length ids) < 2 ^ 32)%Z -> ids = map (fun i => (7 + Z.of_nat i)%Z) (seq 0 (List.length ids))).
Proof.
  destruct (parse_source_ends hello 7) as (p' & E & _).
  assert (H : parse_source hello 7 = Some (mkResult (ps_errors p') (fst (syntax_builder_finish (ps_builder p')))))
    by (unfold parse_source; rewrite E; reflexivity).
  eexists. split; [exact H|]. eapply (node_ids_dense hello 7); [lia|exact H].
Defined.

(** C8: every diagnostic points at the source: its line and column are those the lexer gave to
    one of the source's tokens, its message fits the 512-byte buffer, and no error is recorded
    without had_error being set. *)
Theorem diagnostics_located src g :
  exists res p' ts, parse_program (parser_create (lexer_init src) g) = Some (res, p') /\ lexer_tokenize src = Some ts /\
    Forall (fun e => position_in ts (pe_line e) (pe_column e) /\ String.length (pe_message e) <= 511) (pr_errors res) /\
    (pr_errors res = [] \/ ps_had_error p' = true).
Proof.
  destruct (parse_source_ends src g) as (p' & E & S & _). destruct (psteps_diagnosed src g p' S) as [_ F1 F2].
  do 3 eexists. refine (conj E (conj (lexer_tokenize_from src) (conj F1 _))). cbn [pr_errors].
  destruct (ps_errors p'); [now left|right; now apply F2].
Qed.

(** C13: the match scrutinee's restriction on brace literals is scoped: whatever the source and
    its errors, the flag is off again when the program has been parsed. *)
Theorem no_brace_lit_restored src g :
  exists res p', parse_program (parser_create (lexer_init src) g) = Some (res, p') /\ ps_no_brace_lit p' = false.
Proof.
  destruct (parse_source_ends src g) as (p' & E & _ & _ & B & _). do 2 eexists. split; [exact E|]. rewrite B.
  unfold parser_create. now rewrite advance_no_brace_lit.
Qed.

(** C7: the round-trip gate accepts every parse: on a source under 4 GiB, errors or not, the
    leaves come in source order without overlap, and copying them and the bytes between them
    gives back the source exactly. *)
Theorem roundtrip_accepts src g :
  ~ In NUL src -> (Z.of_nat (List.length src) < 2 ^ 32)%Z -> roundtrip src g = Some true.
Proof.
  intros Hn Hl. destruct (parse_source_ends src g) as (p' & E & _).
  unfold roundtrip, parse_source. rewrite E. cbn [option_map fst pr_syntax_root]. f_equal. unfold roundtrip_tree.
  rewrite (reconstruct_in_order src) by exact (parse_in_order _ _ _ _ Hn Hl E). now apply cstr_eqb_eq.
Qed.

Lemma roundtrip_accepts_witness : roundtrip hello 0 = Some true.
Proof. apply (roundtrip_accepts hello 0); [vm_compute; intuition discriminate|vm_compute; reflexivity]. Defined.

(** The round-trip gate cannot see a lost leaf: the tool copies what lies between two leaves
    from the source, so any tree whose leaves are in order is accepted, a root without any leaf
    included, although the tool says that a passing tree has lost no information. *)
Theorem roundtrip_blind src root :
  (forall k i o n, roundtrip_tree src (SE_NODE k i o n []) = true) /\
  (in_order 0 (leaves root) (Z.of_nat (List.length src)) -> roundtrip_tree src root = true).
Proof.
  assert (G : forall root, in_order 0 (leaves root) (Z.of_nat (List.length src)) -> roundtrip_tree src root = true).
  { intros root' H. unfold roundtrip_tree. rewrite reconstruct_in_order by exact H. now apply cstr_eqb_eq. }
  split; [|apply G]. intros k i o n. apply G. cbn. lia.
Qed.
















(** On this source the malformed binding after the empty statement is accepted, and without the empty
    statement it is rejected. *)
Example empty_statement_hides_binding :
  errors_of (lit "f :: proc() { ; x := ) ; y := 1; }") = Some [] /\
  errors_of (lit "f :: proc() { x := ) ; y := 1; }") <> Some [] /\
  errors_of (lit "f :: proc() { ; }") <> Some [].
Proof. refine (conj _ (conj _ _)); vm_compute; congruence. Qed.

(** The comment limit silently ends the program: after 1001 consecutive line comments the
    parser forces the end of the file, so whatever follows is neither parsed nor reported, while
    one comment fewer leaves the same text rejected. *)
Theorem comment_flood_hides_program :
  errors_of (comments 1001 ++ lit ") garbage (") = Some [] /\
  errors_of (comments 1000 ++ lit ") garbage (") <> Some [].
Proof. split; vm_compute; congruence. Qed.

(** Parentheses do not lift the match restriction on brace literals: an entity literal inside
    a parenthesised scrutinee is rejected, although the flag is documented as lifted inside
    parentheses and brackets. *)
Theorem brace_literal_not_lifted :
  errors_of (lit "f :: proc() { match (Foo { a: 1 }) { _: x(); } }") <> Some [] /\
  errors_of (lit "f :: proc() { y := (Foo { a: 1 }); match (y) { _: x(); } }") = Some [].
Proof. split; vm_compute; congruence. Qed.

(** The recursion guard is unbalanced: a statement rejected for exceeding the depth limit
    leaves the depth one lower than it found it, because the cleanup decrements a depth that the
    rejected path never incremented. *)
Theorem recursion_limit_leaks r p :
  (MAX_RECURSION_DEPTH < ps_recursion_depth p)%Z ->
  exists p', parse_statement r p = Some (None, p') /\ ps_recursion_depth p' = (ps_recursion_depth p - 1)%Z.
Proof.
  intros H. unfold parse_statement, bind, syntax_cp, gets, fail, error, modify. cbn.
  rewrite (proj2 (Z.ltb_lt _ _) H). cbn. eexists. split; [reflexivity|]. unfold record_error. now case_if.
Qed.

