(* ===== verification/ParserRun.v ===== *)
(** * Exact runs of the grammar

    [runs] says what a parsing action does on a known run of tokens: the value it returns, the tokens
    left and the builder it leaves; the flags and the errors stay as they are. One rule per primitive
    of [ParserCore.v]; the comments of a source are outside of these rules. *)

From S2P Require Import Prelude Lexer LexerFacts SyntaxTree ParserCore ParserSteps ParserFacts.

(** What no run changes. *)
Definition frame (p : Parser) :=
  (lx_src (ps_lexer p), ps_had_error p, ps_panic_mode p, ps_errors p, ps_recursion_depth p, ps_no_brace_lit p,
   ps_in_foreign p).

(** A parser of the source [src] with the tokens [ts] to come and the builder [b]. *)
Record At (src : cstr) (ts : list Token) (b : CstBuilder) (p : Parser) : Prop := mkAt {
  at_src : lx_src (ps_lexer p) = src;
  at_pending : lx_pending (ps_lexer p) = [];
  at_tokens : upcoming p = ts;
  at_builder : ps_builder p = b
}.

Definition runs {A} (src : cstr) (m : M A) (ts : list Token) (b : CstBuilder) (a : A) (ts' : list Token) (b' : CstBuilder)
    : Prop :=
  forall p, At src ts b p -> exists q, m p = Some (a, q) /\ At src ts' b' q /\ frame q = frame p.

(** A token that becomes a leaf of its own. *)
Definition plain (t : Token) : Prop :=
  tok_kind t <> TOK_EOF /\ tok_kind t <> TOK_ERROR /\ tok_kind t <> TOK_COMMENT /\ exists off, tok_start t = InSrc off.

(** A token that may follow. *)
Definition follows (t : Token) : Prop := tok_kind t <> TOK_ERROR /\ tok_kind t <> TOK_COMMENT.

Definition leaf_of (t : Token) : SyntaxElem :=
  SE_TOKEN (mkLeaf (tok_kind t) (match tok_start t with InSrc off => u32 (Z.of_nat off) | _ => 0%Z end)
              (u32 (Z.of_nat (tok_length t))) (tok_line t) (tok_column t)).

Lemma plain_follows t : plain t -> follows t.
Proof. intros (_ & H1 & H2 & _). now split. Qed.

#[export] Hint Resolve plain_follows : arche.

(** ** The input *)

Lemma toks_left_rest lx : lx_pending lx = [] -> toks_left lx <= S (List.length (lx_rest lx)).
Proof.
  remember (List.length (lx_rest lx)) as n eqn:E. assert (Hn : List.length (lx_rest lx) <= n) by lia. clear E.
  revert lx Hn. induction n as [|n IH]; intros lx Hn Hp; pose proof (next_token_progress lx Hp) as Hr;
    pose proof (next_token_pending lx Hp) as Hp'; unfold toks_left in *; rewrite tokens_from_step by exact Hp;
    destruct (lexer_next_token lx) as [tok lx']; cbn [fst snd] in *;
    destruct (kind_is TOK_EOF tok) eqn:Ek; try (cbn; lia); apply kind_is_neq in Ek; specialize (Hr Ek); [lia|].
  cbn [List.length]. apply le_n_S. apply IH; [lia|exact Hp'].
Qed.

Lemma upcoming_rem p : lx_pending (ps_lexer p) = [] -> List.length (upcoming p) <= S (rem p).
Proof.
  intros H. unfold upcoming, rem. destruct (cur_is TOK_EOF p); cbn [List.length]; [lia|].
  pose proof (toks_left_rest _ H). unfold toks_left in *. lia.
Qed.

Lemma upcoming_head p : exists ts, upcoming p = ps_current p :: ts.
Proof. unfold upcoming. case_if; eauto. Qed.

Lemma at_head src t ts b p : At src (t :: ts) b p -> ps_current p = t.
Proof. intros [_ _ H _]. destruct (upcoming_head p) as [ts' E]. congruence. Qed.

(** ** Rules *)

Section Rules.
Context {src : cstr}.

Lemma runs_ret {A} (a : A) ts b : runs src (ret a) ts b a ts b.
Proof. intros p H. now exists p. Qed.

Lemma runs_ok {A} (a : A) ts b : runs src (ok a) ts b (Some a) ts b.
Proof. apply runs_ret. Qed.

Lemma runs_bind {A B} (m : M A) (k : A -> M B) ts b a ts1 b1 c ts2 b2 :
  runs src m ts b a ts1 b1 -> runs src (k a) ts1 b1 c ts2 b2 -> runs src (bind m k) ts b c ts2 b2.
Proof.
  intros H1 H2 p H. destruct (H1 p H) as (q & E & H' & F). destruct (H2 q H') as (w & E' & H'' & F').
  exists w. unfold bind. rewrite E. refine (conj E' (conj H'' _)). congruence.
Qed.

Lemma runs_pbind {A B} (m : P A) (k : A -> P B) ts b a ts1 b1 c ts2 b2 :
  runs src m ts b (Some a) ts1 b1 -> runs src (k a) ts1 b1 c ts2 b2 -> runs src (pbind m k) ts b c ts2 b2.
Proof. intros H1 H2. exact (runs_bind _ _ _ _ _ _ _ _ _ _ H1 H2). Qed.

Lemma runs_gets {A} (f : Parser -> A) ts b a : (forall p, At src ts b p -> f p = a) -> runs src (gets f) ts b a ts b.
Proof. intros H p Hp. exists p. unfold gets. now rewrite (H p Hp). Qed.

Lemma runs_check k t ts b : runs src (check k) (t :: ts) b (kind_is k t) (t :: ts) b.
Proof. apply runs_gets. intros p H. unfold cur_is. now rewrite (at_head _ _ _ _ _ H). Qed.

Lemma runs_kind t ts b : runs src current_kind (t :: ts) b (tok_kind t) (t :: ts) b.
Proof. apply runs_gets. intros p H. now rewrite (at_head _ _ _ _ _ H). Qed.

Lemma runs_cp ts b : runs src syntax_cp ts b (List.length (cb_items b)) ts b.
Proof. apply runs_gets. intros p H. now rewrite (at_builder _ _ _ _ H). Qed.

Lemma runs_ident_is kw t ts b :
  runs src (cur_ident_is kw) (t :: ts) b (kind_is TOK_IDENT t && text_is (token_text src t) kw) (t :: ts) b.
Proof.
  apply runs_gets. intros p H. unfold cur_is, cur_text. now rewrite (at_head _ _ _ _ _ H), (at_src _ _ _ _ H).
Qed.

Lemma runs_wrap cp k ts b : runs src (syntax_wrap cp k) ts b tt ts (syntax_builder_wrap b cp k).
Proof.
  intros p [H1 H2 H3 H4]. eexists. split; [reflexivity|]. rewrite <- H4. split; [|reflexivity]. split; auto.
Qed.

(** Taking a token pushes its leaf. *)
Lemma runs_advance t t' ts b :
  plain t -> follows t' -> runs src advanceM (t :: t' :: ts) b tt (t' :: ts) (builder_push b (leaf_of t)).
Proof.
  intros (He & Hr & _ & off & Ho) (Hr' & Hc') p H. pose proof (at_head _ _ _ _ _ H) as Hh.
  destruct H as [H1 H2 H3 H4]. exists (advance p). split; [reflexivity|].
  assert (Hp1 : emit_current p = set_builder (builder_push b (leaf_of t)) p).
  { unfold emit_current, cur_is. rewrite Hh, (proj2 (kind_is_neq _ _) He), (proj2 (kind_is_neq _ _) Hr). cbn [negb andb].
    unfold builder_token, leaf_of. now rewrite Ho, H4. }
  assert (Ht : tokens_from (ps_lexer p) = t' :: ts).
  { unfold upcoming, cur_is in H3. rewrite Hh, (proj2 (kind_is_neq _ _) He) in H3. now injection H3. }
  unfold advance. cbv zeta. rewrite Hp1. set (p1 := set_builder _ p). set (p2 := fetch (ps_current p1) p1).
  pose proof (next_token_src _ H2) as Hs. pose proof (next_token_pending _ H2) as Hp.
  pose proof (tokens_from_step _ H2) as Hst. rewrite Ht in Hst.
  assert (Hf : p2 = set_tokens (snd (lexer_next_token (ps_lexer p))) (fst (lexer_next_token (ps_lexer p))) (ps_current p) p1).
  { unfold p2, fetch, p1. cbn [ps_lexer set_builder]. now destruct (lexer_next_token (ps_lexer p)). }
  destruct (lexer_next_token (ps_lexer p)) as [tok lx']. cbn [fst snd] in *.
  assert (Htok : tok = t') by (destruct (kind_is TOK_EOF tok); congruence). subst tok.
  rewrite comment_loop_none by (unfold cur_is; rewrite Hf; cbn; now apply kind_is_neq).
  pose proof (advance_tail_same (tok_line (ps_current p1)) p2) as [HL HC]. cbv beta zeta in HL, HC.
  match goal with |- At _ _ _ ?q /\ _ => set (p5 := q) in * end.
  assert (Hb : ps_builder p5 = ps_builder p2 /\ frame p5 = frame p2).
  { unfold p5. assert (Hm : forall a n q, ps_builder (maybe_append_blank_trivia a n q) = ps_builder q /\
        frame (maybe_append_blank_trivia a n q) = frame q /\ ps_current (maybe_append_blank_trivia a n q) = ps_current q)
      by (intros a n q; unfold maybe_append_blank_trivia; repeat case_if; auto).
    assert (Hc : cur_is TOK_ERROR p2 = false) by (unfold cur_is; rewrite Hf; cbn; now apply kind_is_neq).
    destruct (negb (cur_is TOK_EOF p2)); cbv zeta; [|now rewrite Hc].
    destruct (Hm (trivia_anchor_line p2 (tok_line (ps_current p1))) (tok_line (ps_current p2)) p2) as (E1 & E2 & E3).
    unfold cur_is. rewrite E3. fold (cur_is TOK_ERROR p2). now rewrite Hc. }
  destruct Hb as [Hb Hfr]. clearbody p5. rewrite Hf in HL, HC, Hb, Hfr. cbn in HL, HC, Hb.
  split; [split|].
  - now rewrite HL, Hs.
  - now rewrite HL.
  - unfold upcoming, cur_is. rewrite HC, HL. destruct (kind_is TOK_EOF t'); congruence.
  - exact Hb.
  - rewrite Hfr. unfold frame, p1. cbn. now rewrite Hs.
Qed.

(** ** Loops *)

Lemma runs_iter_again {S A} f (body : S -> M (S + A)) s s' ts b ts1 b1 a ts2 b2 :
  runs src (body s) ts b (inl s') ts1 b1 -> runs src (iter f body s') ts1 b1 a ts2 b2 ->
  runs src (iter (Datatypes.S f) body s) ts b a ts2 b2.
Proof.
  intros H1 H2 p H. destruct (H1 p H) as (q & E & H' & F). destruct (H2 q H') as (w & E' & H'' & F').
  exists w. cbn [iter]. rewrite E. refine (conj E' (conj H'' _)). congruence.
Qed.

Lemma runs_iter_leave {S A} f (body : S -> M (S + A)) s ts b ts1 b1 a :
  runs src (body s) ts b (inr a) ts1 b1 -> runs src (iter (Datatypes.S f) body s) ts b a ts1 b1.
Proof.
  intros H1 p H. destruct (H1 p H) as (q & E & H' & F). exists q. cbn [iter]. rewrite E. auto.
Qed.

(** A loop has at least as many rounds as there are tokens. *)
Lemma runs_loop {S A} (body : S -> M (S + A)) s ts b a ts' b' :
  (forall f, List.length ts <= f -> runs src (iter f body s) ts b a ts' b') -> runs src (loop body s) ts b a ts' b'.
Proof.
  intros H p Hp. unfold loop. apply H; [|exact Hp]. rewrite <- (at_tokens _ _ _ _ Hp). apply upcoming_rem, Hp.
Qed.

End Rules.
