(* ===== verification/ParserExpr.v ===== *)
(** * The expression grammar

    Precedence climbing ([parse_expression], [parse_binary_rhs] and [parse_unary_expr] of
    [src/parser/parser.c]) against a reference: operands and operators grouped by appending one operator
    at a time to the right edge of the tree. *)

From S2P Require Import Prelude Lexer LexerFacts SyntaxTree ParserCore ParserSteps Parser ParserFacts ParserRun.

(** ** Expressions *)

Inductive Expr : Type :=
| EAtom (t : Token)
| EUnary (op : Token) (e : Expr)
| EBinary (l : Expr) (op : Token) (r : Expr)
| EParen (lp : Token) (e : Expr) (rp : Token).

Fixpoint toks (e : Expr) : list Token :=
  match e with
  | EAtom t => [t]
  | EUnary op e => op :: toks e
  | EBinary l op r => toks l ++ op :: toks r
  | EParen lp e rp => lp :: toks e ++ [rp]
  end.

Definition atom_kind (k : TokenKind) : option SyntaxNodeKind :=
  match k with
  | TOK_NUMBER | TOK_CHAR_LIT => Some SN_LITERAL_EXPR
  | TOK_STRING => Some SN_STRING_EXPR
  | TOK_IDENT => Some SN_NAME_EXPR
  | _ => None
  end.

(** The node over [es] with the next id, and the counter after it. *)
Definition node_over (es : list SyntaxElem) (k : SyntaxNodeKind) (g : Z) : SyntaxElem * Z :=
  (make_node es k g, u32 (g + 1)).

(** The tree of an expression: children get their ids before their parent. *)
Fixpoint tree (e : Expr) (g : Z) : SyntaxElem * Z :=
  match e with
  | EAtom t => node_over [leaf_of t] (match atom_kind (tok_kind t) with Some k => k | None => SN_ERROR end) g
  | EUnary op e => let (x, g1) := tree e g in node_over [leaf_of op; x] SN_UNARY_EXPR g1
  | EBinary l op r =>
      let (x, g1) := tree l g in let (y, g2) := tree r g1 in node_over [x; leaf_of op; y] SN_BINARY_EXPR g2
  | EParen lp e rp => let (x, g1) := tree e g in node_over [leaf_of lp; x; leaf_of rp] SN_PAREN_EXPR g1
  end.

(** ** Grouping *)

(** The precedence level of an expression's root; operands bind tightest. *)
Definition level (e : Expr) : Z := match e with EBinary _ op _ => binop_prec (tok_kind op) | _ => 6%Z end.

Definition is_operand (e : Expr) : bool := match e with EBinary _ _ _ => false | _ => true end.

(** An atom; [table] followed by [<] is read as a table reference, so it is left out. *)
Definition atom_ok (src : cstr) (t : Token) : Prop :=
  plain t /\ atom_kind (tok_kind t) <> None /\ text_is (token_text src t) "table" = false.

(** Well grouped: the left side of an operator is at its level or above, the right side above. *)
Fixpoint grouped (src : cstr) (e : Expr) : Prop :=
  match e with
  | EAtom t => atom_ok src t
  | EUnary op e => plain op /\ is_prefix_op (tok_kind op) = true /\ is_operand e = true /\ grouped src e
  | EBinary l op r =>
      plain op /\ (1 <= binop_prec (tok_kind op))%Z /\ (binop_prec (tok_kind op) <= level l)%Z /\
      (binop_prec (tok_kind op) < level r)%Z /\ grouped src l /\ grouped src r
  | EParen lp e rp => plain lp /\ plain rp /\ tok_kind lp = TOK_LPAREN /\ tok_kind rp = TOK_RPAREN /\ grouped src e
  end.

(** Append an operator and an operand to the right edge: below the operators that bind looser. *)
Fixpoint snoc (e : Expr) (op : Token) (u : Expr) : Expr :=
  match e with
  | EBinary l o r =>
      if (binop_prec (tok_kind o) <? binop_prec (tok_kind op))%Z then EBinary l o (snoc r op u) else EBinary e op u
  | _ => EBinary e op u
  end.

Definition group (u : Expr) (rest : list (Token * Expr)) : Expr :=
  fold_left (fun e p => snoc e (fst p) (snd p)) rest u.

(** A token that ends an expression at level [min]: it cannot extend the last operand, and if it is
    a binary operator it binds looser than [min]. *)
Definition ends (min : Z) (t : Token) : Prop :=
  follows t /\ (binop_prec (tok_kind t) < min)%Z /\
  match tok_kind t with TOK_LBRACE | TOK_DOT | TOK_LBRACKET | TOK_LPAREN | TOK_BANG => False | _ => True end.

(** ** Spines *)

(** The leftmost operand, and the operators along the left spine with their right sides. *)
Fixpoint spine_head (e : Expr) : Expr := match e with EBinary l _ _ => spine_head l | _ => e end.

Fixpoint spine (e : Expr) : list (Token * Expr) :=
  match e with EBinary l op r => spine l ++ [(op, r)] | _ => [] end.

Definition rounds (s : list (Token * Expr)) (e : Expr) : Expr := fold_left (fun l p => EBinary l (fst p) (snd p)) s e.

Definition spine_toks (s : list (Token * Expr)) : list Token := flat_map (fun p => fst p :: toks (snd p)) s.

(** Every round's operator binds at [min] or tighter, and not tighter than the one before. *)
Fixpoint spine_ok (src : cstr) (min max : Z) (s : list (Token * Expr)) : Prop :=
  match s with
  | [] => True
  | (op, r) :: s' =>
      let p := binop_prec (tok_kind op) in
      plain op /\ (1 <= p)%Z /\ (min <= p)%Z /\ (p <= max)%Z /\ (p < level r)%Z /\ grouped src r /\
      spine_ok src min p s'
  end.

Fixpoint size (e : Expr) : nat :=
  match e with
  | EAtom _ => 1
  | EUnary _ e => S (size e)
  | EBinary l _ r => S (size l + size r)
  | EParen _ e _ => S (size e)
  end.

Definition spine_size (s : list (Token * Expr)) : nat := list_sum (map (fun p => S (size (snd p))) s).

Lemma spine_size_cons op r s : spine_size ((op, r) :: s) = S (size r) + spine_size s.
Proof. reflexivity. Qed.

Lemma rounds_spine e : rounds (spine e) (spine_head e) = e.
Proof.
  induction e as [t|op e IH|l IHl op r _|lp e _ rp]; try reflexivity. cbn [spine spine_head].
  unfold rounds in *. now rewrite fold_left_app, IHl.
Qed.

Lemma spine_toks_head e : toks e = toks (spine_head e) ++ spine_toks (spine e).
Proof.
  induction e as [t|op e IH|l IHl op r _|lp e _ rp]; try (cbn; now rewrite ?app_nil_r).
  cbn [toks spine spine_head]. rewrite IHl. unfold spine_toks. rewrite flat_map_app. cbn [flat_map fst snd].
  now rewrite app_nil_r, app_assoc.
Qed.

Lemma spine_size_head e : size e = size (spine_head e) + spine_size (spine e).
Proof.
  induction e as [t|op e IH|l IHl op r _|lp e _ rp]; cbn [spine spine_head]; try (cbn; lia).
  unfold spine_size in *. rewrite map_app, list_sum_app. cbn. lia.
Qed.

Lemma head_operand e : is_operand (spine_head e) = true.
Proof. induction e; auto. Qed.

Lemma head_grouped src e : grouped src e -> grouped src (spine_head e).
Proof. induction e as [t|op e IH|l IHl op r _|lp e _ rp]; auto. cbn [spine_head]. intros (_ & _ & _ & _ & H & _). auto. Qed.

(** The right end of a spine binds loosest. *)
Lemma spine_ok_snoc src s min max op r :
  spine_ok src min max s -> let p := binop_prec (tok_kind op) in
  plain op -> (1 <= p)%Z -> (min <= p)%Z -> (p < level r)%Z -> grouped src r ->
  (p <= match rev s with (o, _) :: _ => binop_prec (tok_kind o) | [] => max end)%Z ->
  spine_ok src min max (s ++ [(op, r)]).
Proof.
  intros H p H1 H2 H3 H4 H5. revert max H. induction s as [|[o x] s IH]; intros max; cbn.
  - intros _ Hp. fold p. auto 10.
  - intros (A1 & A2 & A3 & A4 & A5 & A6 & A7) Hp. repeat (split; [assumption|]). apply IH; [assumption|].
    destruct (rev s) as [|y ys]; cbn in Hp; exact Hp.
Qed.

Lemma grouped_spine src e : grouped src e -> forall min, (min <= level e)%Z -> (1 <= level e)%Z /\ spine_ok src min 6 (spine e).
Proof.
  assert (Hop : forall k, (binop_prec k <= 6)%Z) by (intros []; cbn; lia).
  induction e as [t|op e IH|l IHl op r _|lp e _ rp]; cbn [spine level]; intros H min Hm; try (cbn; split; [lia|auto]; fail).
  destruct H as (H1 & H2 & H3 & H4 & H5 & H6). split; [exact H2|].
  apply spine_ok_snoc; auto.
  - apply IHl; [assumption|lia].
  - destruct l as [t|o l|l1 o l2|lp l rp]; cbn [spine level] in *; try (cbn; apply Hop).
    rewrite rev_app_distr. cbn. exact H3.
Qed.

(** ** Running the grammar *)

(** The builder after the tree of an expression. *)
Definition emit (e : Expr) (b : CstBuilder) : CstBuilder :=
  mkBuilder (cb_items b ++ [fst (tree e (cb_node_id b))]) (snd (tree e (cb_node_id b))).

Lemma wrap_items pre es g k :
  es <> [] -> syntax_builder_wrap (mkBuilder (pre ++ es) g) (List.length pre) k =
              mkBuilder (pre ++ [make_node es k g]) (u32 (g + 1)).
Proof.
  intros H. unfold syntax_builder_wrap. cbn [cb_items cb_node_id]. rewrite length_app, skipn_app_exact, firstn_app_exact.
  destruct es as [|e es]; [contradiction|]. cbn [List.length]. case_if; [apply Nat.leb_le in E; lia|reflexivity].
Qed.

Lemma emit_atom t b k :
  atom_kind (tok_kind t) = Some k ->
  syntax_builder_wrap (builder_push b (leaf_of t)) (List.length (cb_items b)) k = emit (EAtom t) b.
Proof. intros H. unfold builder_push. rewrite wrap_items by discriminate. unfold emit. cbn. now rewrite H. Qed.

Lemma emit_unary op e b :
  syntax_builder_wrap (emit e (builder_push b (leaf_of op))) (List.length (cb_items b)) SN_UNARY_EXPR =
  emit (EUnary op e) b.
Proof.
  unfold emit, builder_push. cbn [cb_items cb_node_id]. rewrite <- app_assoc, wrap_items by discriminate.
  cbn [tree]. now destruct (tree e (cb_node_id b)).
Qed.

Lemma emit_binary l op r b :
  syntax_builder_wrap (emit r (builder_push (emit l b) (leaf_of op))) (List.length (cb_items b)) SN_BINARY_EXPR =
  emit (EBinary l op r) b.
Proof.
  unfold emit, builder_push. cbn [cb_items cb_node_id tree]. destruct (tree l (cb_node_id b)) as [x g1]. cbn [fst snd].
  destruct (tree r g1) as [y g2]. cbn [fst snd]. now rewrite <- !app_assoc, wrap_items by discriminate.
Qed.

Lemma emit_paren lp e rp b :
  syntax_builder_wrap (builder_push (emit e (builder_push b (leaf_of lp))) (leaf_of rp)) (List.length (cb_items b)) SN_PAREN_EXPR =
  emit (EParen lp e rp) b.
Proof.
  unfold emit, builder_push. cbn [cb_items cb_node_id tree]. destruct (tree e (cb_node_id b)) as [x g1]. cbn [fst snd].
  now rewrite <- !app_assoc, wrap_items by discriminate.
Qed.

(** The first token of an expression. *)
Lemma toks_first src e :
  grouped src e -> exists t ts, toks e = t :: ts /\ plain t /\ tok_kind t <> TOK_RPAREN.
Proof.
  induction e as [t|op e IH|l IHl op r _|lp e _ rp]; cbn [toks grouped].
  - intros (H1 & H2 & _). exists t, []. refine (conj eq_refl (conj H1 _)). intros E. now rewrite E in H2.
  - intros (H1 & H2 & _). exists op, (toks e). refine (conj eq_refl (conj H1 _)). intros E. now rewrite E in H2.
  - intros (_ & _ & _ & _ & H & _). destruct (IHl H) as (t & ts & -> & Ht). exists t, (ts ++ op :: toks r). auto.
  - intros (H1 & _ & H2 & _). exists lp, (toks e ++ [rp]). refine (conj eq_refl (conj H1 _)). congruence.
Qed.

Lemma ends_op min op : plain op -> (1 <= binop_prec (tok_kind op) < min)%Z -> ends min op.
Proof.
  intros H [H1 H2]. split; [auto with arche|]. split; [exact H2|]. destruct (tok_kind op); cbn in H1; auto; lia.
Qed.

Lemma ends_weaken min min' t : (min <= min')%Z -> ends min t -> ends min' t.
Proof. intros H (H1 & H2 & H3). split; [exact H1|]. split; [lia|exact H3]. Qed.

Lemma ends_rparen t : plain t -> tok_kind t = TOK_RPAREN -> ends 1 t.
Proof. intros H E. split; [auto with arche|]. rewrite E. cbn. split; [lia|auto]. Qed.

(** The token after a spine's prefix ends what comes before it. *)
Lemma spine_next src min max s t ts :
  spine_ok src min max s -> ends min t -> (max < 7)%Z -> (min <= max + 1)%Z ->
  exists t' ts', spine_toks s ++ t :: ts = t' :: ts' /\ ends (max + 1) t'.
Proof.
  intros Hs Ht Hm Hmm. destruct s as [|[op r] s]; cbn.
  - exists t, ts. split; [reflexivity|]. exact (ends_weaken _ _ _ Hmm Ht).
  - destruct Hs as (H1 & H2 & _ & H4 & _). eexists _, _. split; [reflexivity|]. apply ends_op; [exact H1|lia].
Qed.

(** The kinds an ending token does not have. *)
Lemma ends_not min t k :
  ends min t -> match k with TOK_LBRACE | TOK_DOT | TOK_LBRACKET | TOK_LPAREN | TOK_BANG => True | _ => False end ->
  kind_is k t = false.
Proof. intros (_ & _ & H) Hk. apply kind_is_neq. intros E. rewrite E in H. now destruct k. Qed.

Section Runs.
Context {src : cstr}.

Lemma runs_single cp ts b :
  runs src (syntax_single_node cp) ts b
    (match (if List.length (cb_items b) =? S cp then
              match nth_error (cb_items b) cp with Some (SE_NODE k _ _ _ _) => Some k | _ => None end else None) with
     | Some _ => true | None => false end) ts b.
Proof. apply runs_gets. intros p H. unfold single_node. now rewrite (at_builder _ _ _ _ H). Qed.

Lemma runs_gets_any {A B} (f : Parser -> A) (k : A -> M B) ts b c ts' b' :
  (forall v, runs src (k v) ts b c ts' b') -> runs src (bind (gets f) k) ts b c ts' b'.
Proof. intros H p Hp. exact (H (f p) p Hp). Qed.

Lemma runs_match_no k t ts b : kind_is k t = false -> runs src (matchM k) (t :: ts) b false (t :: ts) b.
Proof. intros H. eapply runs_bind; [apply runs_check|]. rewrite H. apply runs_ret. Qed.

Lemma runs_match_yes k t t' ts b :
  tok_kind t = k -> plain t -> follows t' ->
  runs src (matchM k) (t :: t' :: ts) b true (t' :: ts) (builder_push b (leaf_of t)).
Proof.
  intros H Hp Hf. eapply runs_bind; [apply runs_check|]. rewrite (proj2 (kind_is_eq _ _) H).
  eapply runs_bind; [now apply runs_advance|]. apply runs_ret.
Qed.

(** What comes after a primary expression that takes no postfix. *)
Lemma postfix_none r kind t ts b cp :
  takes_policy kind = false -> chains kind = false -> ends 7 t ->
  runs src (parse_opt_policy kind) (t :: ts) b (Some tt) (t :: ts) b /\
  runs src (postfix_chain r cp kind) (t :: ts) b (Some kind) (t :: ts) b.
Proof.
  intros H1 H2 Ht. split.
  - eapply runs_bind; [apply runs_check|]. eapply runs_bind; [apply runs_check|]. rewrite H1. apply runs_ok.
  - apply runs_loop. intros [|f] Hf; [cbn in Hf; lia|]. apply runs_iter_leave.
    eapply runs_bind; [apply runs_check|]. eapply runs_bind; [apply runs_check|]. rewrite H2. apply runs_ret.
Qed.

Lemma runs_postfix_leaf r ts0 b kind x t ts :
  runs src (parse_primary_expr r) ts0 b (Some kind) (t :: ts) (builder_push b (leaf_of x)) ->
  takes_policy kind = false -> chains kind = false -> ends 7 t ->
  runs src (parse_postfix_expr r) ts0 b (Some tt) (t :: ts)
    (syntax_builder_wrap (builder_push b (leaf_of x)) (List.length (cb_items b)) kind).
Proof.
  intros Hp H1 H2 Ht. eapply runs_bind; [apply runs_cp|]. eapply runs_pbind; [exact Hp|].
  edestruct (postfix_none r kind t ts (builder_push b (leaf_of x)) (List.length (cb_items b)) H1 H2 Ht) as [Ho Hc].
  eapply runs_pbind; [exact Ho|]. eapply runs_pbind; [exact Hc|].
  eapply runs_bind; [apply runs_single|]. cbn [builder_push cb_items]. rewrite length_app, Nat.add_1_r, Nat.eqb_refl.
  rewrite nth_error_app2, Nat.sub_diag by lia. cbn [nth_error leaf_of negb].
  eapply runs_bind; [apply runs_wrap|]. apply runs_ok.
Qed.

Lemma runs_postfix_node r ts0 b kind e t ts :
  runs src (parse_primary_expr r) ts0 b (Some kind) (t :: ts) (emit e b) ->
  takes_policy kind = false -> chains kind = false -> ends 7 t ->
  runs src (parse_postfix_expr r) ts0 b (Some tt) (t :: ts) (emit e b).
Proof.
  intros Hp H1 H2 Ht. eapply runs_bind; [apply runs_cp|]. eapply runs_pbind; [exact Hp|].
  edestruct (postfix_none r kind t ts (emit e b) (List.length (cb_items b)) H1 H2 Ht) as [Ho Hc].
  eapply runs_pbind; [exact Ho|]. eapply runs_pbind; [exact Hc|].
  eapply runs_bind; [apply runs_single|]. cbn [emit cb_items]. rewrite length_app, Nat.add_1_r, Nat.eqb_refl.
  rewrite nth_error_app2, Nat.sub_diag by lia. cbn [nth_error].
  assert (Hn : exists k i o n cs, fst (tree e (cb_node_id b)) = SE_NODE k i o n cs).
  { destruct e; cbn [tree]; repeat match goal with |- context [let (_, _) := ?x in _] => destruct x end; do 5 eexists; reflexivity. }
  destruct Hn as (k & i & o & n & cs & ->). cbn [negb]. eapply runs_bind; [apply runs_ret|]. apply runs_ok.
Qed.

(** An identifier that nothing extends. *)
Lemma runs_ident r x t ts b :
  atom_ok src x -> tok_kind x = TOK_IDENT -> ends 7 t ->
  runs src (parse_ident_expr r) (x :: t :: ts) b (Some SN_NAME_EXPR) (t :: ts) (builder_push b (leaf_of x)).
Proof.
  intros (Hp & _ & Htab) Hk Ht. pose proof (fun k H => ends_not _ _ k Ht H) as Hno.
  eapply runs_bind; [apply runs_cp|]. do 4 (eapply runs_bind; [apply runs_ident_is|]).
  eapply runs_bind; [apply runs_advance; [exact Hp|apply Ht]|].
  eapply runs_bind; [apply runs_check|]. rewrite Htab, andb_false_r. cbn [andb].
  eapply runs_bind; [apply runs_check|]. rewrite (Hno TOK_LBRACE Logic.I), andb_false_r.
  apply runs_gets_any. intros nbl. cbn [andb].
  eapply runs_bind; [apply runs_match_no, (Hno TOK_DOT Logic.I)|].
  eapply runs_bind; [apply runs_match_no, (Hno TOK_LBRACKET Logic.I)|].
  eapply runs_bind; [apply runs_check|]. rewrite (Hno TOK_LPAREN Logic.I). apply runs_ok.
Qed.

Lemma runs_atom r x t ts b :
  atom_ok src x -> ends 7 t ->
  runs src (parse_unary_expr r) (x :: t :: ts) b (Some tt) (t :: ts) (emit (EAtom x) b).
Proof.
  intros Hx Ht. destruct Hx as (Hp & Ha & Htab). pose proof (runs_advance (src := src) x t ts b Hp (proj1 Ht)) as Hadv.
  assert (Hprim : exists kind, atom_kind (tok_kind x) = Some kind /\ takes_policy kind = false /\ chains kind = false /\
            runs src (parse_primary_expr r) (x :: t :: ts) b (Some kind) (t :: ts) (builder_push b (leaf_of x))).
  { unfold parse_primary_expr. destruct (tok_kind x) eqn:E; cbn in Ha; try contradiction;
      (eexists; split; [reflexivity|]; split; [reflexivity|]; split; [reflexivity|];
       eapply runs_bind; [apply runs_cp|]; eapply runs_bind; [apply runs_kind|]; rewrite E).
    - apply runs_ident; [|exact E|exact Ht]. split; [exact Hp|]. split; [now rewrite E|exact Htab].
    - eapply runs_bind; [exact Hadv|apply runs_ok].
    - eapply runs_bind; [exact Hadv|apply runs_ok].
    - eapply runs_bind; [exact Hadv|apply runs_ok]. }
  destruct Hprim as (kind & Hk & H1 & H2 & Hr). rewrite <- (emit_atom x b kind Hk).
  eapply runs_bind; [apply runs_cp|]. eapply runs_bind; [apply runs_kind|].
  replace (is_prefix_op (tok_kind x)) with false by (destruct (tok_kind x); cbn in Hk |- *; congruence).
  now apply runs_postfix_leaf.
Qed.

(** *** The climbing loop *)

(** What the entry points of depth [n] do, for expressions of size at most [n]. *)
Definition unary_runs (n : nat) : Prop := forall u t ts b,
  is_operand u = true -> grouped src u -> size u <= n -> ends 7 t ->
  runs src (parse_unary_expr (parse_rec n)) (toks u ++ t :: ts) b (Some tt) (t :: ts) (emit u b).

Definition rhs_runs (n : nat) : Prop := forall s min max e t ts b,
  spine_ok src min max s -> (max <= 6)%Z -> spine_size s <= n -> (1 <= min)%Z -> ends min t ->
  runs src (parse_binary_rhs (parse_rec n) true (List.length (cb_items b)) min)
    (spine_toks s ++ t :: ts) (emit e b) (Some tt) (t :: ts) (emit (rounds s e) b).

Definition expr_runs (n : nat) : Prop := forall e t ts b,
  grouped src e -> size e <= n -> ends 1 t ->
  runs src (parse_expression (parse_rec n)) (toks e ++ t :: ts) b (Some tt) (t :: ts) (emit e b).

Lemma binop_le_5 k : (binop_prec k <= 5)%Z.
Proof. destruct k; cbn; lia. Qed.

(** The operators on the right that bind tighter. *)
Lemma tighter_runs n prec h s t ts b :
  (forall m, n = S m -> rhs_runs m) -> (s <> [] -> spine_size s < n) ->
  spine_ok src (prec + 1) 6 s -> (1 <= prec)%Z -> ends (prec + 1) t ->
  runs src (tighter_rhs (parse_rec n) (List.length (cb_items b)) prec)
    (spine_toks s ++ t :: ts) (emit h b) (Some tt) (t :: ts) (emit (rounds s h) b).
Proof.
  intros Hrec Hn Hs Hp Ht. apply runs_loop. intros f Hf.
  assert (Hend : forall f b', runs src (iter (S f) (fun _ : unit =>
      k <- current_kind ;;
      if (prec <? binop_prec k)%Z then
        o <- rec_binary_rhs (parse_rec n) true (List.length (cb_items b)) (prec + 1)%Z ;;
        if is_some o then again tt else leave None
      else leave (Some tt)) tt) (t :: ts) b' (Some tt) (t :: ts) b').
  { intros f' b'. apply runs_iter_leave. eapply runs_bind; [apply runs_kind|].
    destruct (Z.ltb_spec prec (binop_prec (tok_kind t))) as [H|_]; [destruct Ht as (_ & Ht & _); lia|apply runs_ret]. }
  destruct s as [|[op r] s].
  - destruct f as [|f]; [cbn in Hf; lia|]. apply Hend.
  - destruct f as [|[|f]]; [cbn in Hf; lia|cbn in Hf; rewrite !length_app in Hf; cbn in Hf; lia|].
    destruct n as [|m]; [specialize (Hn ltac:(discriminate)); lia|].
    eapply runs_iter_again; [|apply Hend].
    eapply runs_bind; [apply runs_kind|]. cbn [fst]. pose proof Hs as (H1 & H2 & H3 & H4 & _).
    destruct (Z.ltb_spec prec (binop_prec (tok_kind op))) as [_|H]; [|lia].
    eapply runs_bind with (a := Some tt); [|apply runs_ret].
    change (rec_binary_rhs (parse_rec (S m))) with (parse_binary_rhs (parse_rec m)).
    apply (Hrec m eq_refl ((op, r) :: s)) with (max := 6%Z); [exact Hs|lia| |lia|exact Ht]. specialize (Hn ltac:(discriminate)). lia.
Qed.

Lemma no_policy op t ts b min : ends min t -> runs src (divide_policy op) (t :: ts) b (Some tt) (t :: ts) b.
Proof.
  intros Ht. eapply runs_bind; [apply runs_check|]. rewrite (ends_not _ _ TOK_BANG Ht Logic.I), andb_false_r. apply runs_ok.
Qed.

(** One operator with its right side. *)
Lemma round_runs n op r e t ts b :
  unary_runs n -> (forall m, n = S m -> rhs_runs m) -> size r < n ->
  plain op -> (1 <= binop_prec (tok_kind op))%Z -> (binop_prec (tok_kind op) < level r)%Z -> grouped src r ->
  ends (binop_prec (tok_kind op) + 1) t ->
  runs src (binary_round (parse_rec n) (tok_kind op) (List.length (cb_items b)))
    (op :: toks r ++ t :: ts) (emit e b) (Some tt) (t :: ts) (emit (EBinary e op r) b).
Proof.
  intros Hu Hrec Hn Hop H1 H2 Hr Ht. set (prec := binop_prec (tok_kind op)) in *.
  assert (H5 : (prec <= 5)%Z) by apply binop_le_5.
  destruct (grouped_spine src r Hr (prec + 1)) as [_ Hs]; [lia|].
  pose proof (spine_size_head r) as Hsz. pose proof (head_grouped _ _ Hr) as Hh.
  destruct (toks_first src r Hr) as (t1 & ts1 & E1 & Hp1 & _).
  destruct (spine_next src (prec + 1) 6 (spine r) t ts Hs Ht) as (t2 & ts2 & E2 & Ht2); [lia|lia|].
  eapply runs_bind. { rewrite E1. cbn [app]. apply runs_advance; [exact Hop|auto with arche]. }
  change (t1 :: ts1 ++ t :: ts) with ((t1 :: ts1) ++ t :: ts). rewrite <- E1.
  eapply runs_bind; [apply runs_cp|]. rewrite spine_toks_head, <- app_assoc, E2.
  eapply runs_pbind; [apply Hu; [apply head_operand|exact Hh|lia|exact Ht2]|]. rewrite <- E2.
  eapply runs_pbind.
  { apply tighter_runs; [exact Hrec|lia|exact Hs|exact H1|exact Ht]. }
  rewrite rounds_spine. eapply runs_pbind; [now apply no_policy with (min := (prec + 1)%Z)|].
  eapply runs_bind; [apply runs_wrap|]. rewrite emit_binary. apply runs_ok.
Qed.

Lemma rhs_step n : unary_runs n -> (forall m, n = S m -> rhs_runs m) -> rhs_runs n.
Proof.
  intros Hu Hrec s min max e t ts b Hs Hm Hn Hmin Ht. apply runs_loop. intros f.
  revert max e f Hs Hm Hn. induction s as [|[op r] s IH]; intros max e f Hs Hm Hn Hf.
  - destruct f as [|f]; [cbn in Hf; lia|]. apply runs_iter_leave. eapply runs_bind; [apply runs_kind|]. cbn [fst].
    destruct Ht as (_ & Ht & _). rewrite (proj2 (Z.ltb_lt _ _) Ht). apply runs_ret.
  - destruct Hs as (H1 & H2 & H3 & H4 & H5 & H6 & H7). rewrite spine_size_cons in Hn.
    destruct f as [|f]; [cbn in Hf; lia|]. cbn [spine_toks flat_map fst snd app] in Hf |- *.
    change (flat_map _ s) with (spine_toks s) in *. rewrite <- app_assoc in Hf |- *.
    destruct (spine_next src min (binop_prec (tok_kind op)) s t ts H7 Ht) as (t' & ts' & E & Ht'); [lia|lia|].
    eapply runs_iter_again.
    + eapply runs_bind; [apply runs_kind|]. cbn [fst]. rewrite (proj2 (Z.ltb_ge _ _) H3).
      eapply runs_bind with (a := Some tt); [|apply runs_ret]. rewrite E.
      apply round_runs; try assumption. lia.
    + rewrite <- E. apply (IH (binop_prec (tok_kind op)) (EBinary e op r)); [exact H7|lia|lia|].
      cbn [List.length] in Hf. rewrite !length_app in *. cbn in Hf |- *. lia.
Qed.

Lemma expr_step n : unary_runs n -> rhs_runs n -> expr_runs n.
Proof.
  intros Hu Hr e t ts b He Hn Ht. pose proof (spine_size_head e) as Hsz.
  assert (Hl : (1 <= level e)%Z) by (destruct e; cbn in *; try lia; tauto).
  destruct (grouped_spine src e He 1 Hl) as [_ Hs].
  destruct (spine_next src 1 6 (spine e) t ts Hs Ht) as (t2 & ts2 & E2 & Ht2); [lia|lia|].
  rewrite spine_toks_head, <- app_assoc.
  replace (emit e b) with (emit (rounds (spine e) (spine_head e)) b) by now rewrite rounds_spine.
  eapply runs_bind; [apply runs_cp|]. eapply runs_bind with (a := Some tt).
  - rewrite E2. apply Hu; [apply head_operand|now apply head_grouped|lia|exact Ht2].
  - rewrite <- E2. apply Hr with (max := 6%Z); [exact Hs|lia|lia|lia|exact Ht].
Qed.

Lemma unary_step n : (forall m, n = S m -> unary_runs m /\ expr_runs m) -> unary_runs n.
Proof.
  intros Hrec u t ts b Hop Hg Hn Ht. destruct u as [x|op e|l op r|lp e rp]; [|  |discriminate|]; cbn [toks app] in *.
  - now apply runs_atom.
  - destruct Hg as (H1 & H2 & H3 & H4). destruct n as [|m]; [cbn in Hn; lia|]. destruct (Hrec m eq_refl) as [Hu _].
    destruct (toks_first src e H4) as (t1 & ts1 & E1 & Hp1 & _).
    eapply runs_bind; [apply runs_cp|]. eapply runs_bind; [apply runs_kind|]. rewrite H2.
    eapply runs_bind. { rewrite E1. cbn [app]. apply runs_advance; [exact H1|auto with arche]. }
    change (t1 :: ts1 ++ t :: ts) with ((t1 :: ts1) ++ t :: ts). rewrite <- E1.
    eapply runs_pbind. { change (rec_unary (parse_rec (S m))) with (parse_unary_expr (parse_rec m)).
      apply Hu; [exact H3|exact H4|cbn in Hn; lia|exact Ht]. }
    eapply runs_bind; [apply runs_wrap|]. rewrite emit_unary. apply runs_ok.
  - destruct Hg as (H1 & H2 & H3 & H4 & H5). destruct n as [|m]; [cbn in Hn; lia|]. destruct (Hrec m eq_refl) as [_ He].
    destruct (toks_first src e H5) as (t1 & ts1 & E1 & Hp1 & Hr1). rewrite <- app_assoc. cbn [app].
    eapply runs_bind; [apply runs_cp|]. eapply runs_bind; [apply runs_kind|]. rewrite H3. cbn [is_prefix_op].
    apply runs_postfix_node with (kind := SN_NAME_EXPR); [|reflexivity|reflexivity|exact Ht].
    eapply runs_bind; [apply runs_cp|]. eapply runs_bind; [apply runs_kind|]. rewrite H3.
    eapply runs_bind. { rewrite E1. cbn [app]. apply runs_advance; [exact H1|auto with arche]. }
    change (t1 :: ts1 ++ rp :: t :: ts) with ((t1 :: ts1) ++ rp :: t :: ts).
    assert (Hck : kind_is TOK_RPAREN t1 = false) by now apply kind_is_neq.
    eapply runs_bind; [apply runs_check|]. rewrite Hck.
    eapply runs_pbind with (a := 1) (ts1 := rp :: t :: ts) (b1 := emit e (builder_push b (leaf_of lp))).
    { apply runs_loop. intros [|f] Hf; [cbn in Hf; lia|]. apply runs_iter_leave.
      eapply runs_bind; [apply runs_check|]. rewrite Hck. eapply runs_bind with (a := Some tt).
      - match goal with |- runs _ _ ?x _ _ _ _ => replace x with (toks e ++ rp :: t :: ts) by now rewrite E1 end.
        change (rec_expression (parse_rec (S m))) with (parse_expression (parse_rec m)).
        apply He; [exact H5|cbn in Hn; lia|now apply ends_rparen].
      - cbn [is_some negb]. eapply runs_bind; [apply runs_match_no; apply kind_is_neq; congruence|]. apply runs_ret. }
    eapply runs_bind; [eapply runs_bind; [apply runs_match_yes; [exact H4|exact H2|apply Ht]|apply runs_ret]|].
    eapply runs_bind; [apply runs_wrap|]. change (tuple_kind 1) with SN_PAREN_EXPR. rewrite emit_paren. apply runs_ok.
Qed.

Lemma all_runs n : unary_runs n /\ rhs_runs n /\ expr_runs n.
Proof.
  induction n as [|n (IH1 & IH2 & IH3)].
  - assert (Hu : unary_runs 0) by (apply unary_step; discriminate).
    assert (Hr : rhs_runs 0) by (apply rhs_step; [exact Hu|discriminate]). auto using expr_step.
  - assert (Hu : unary_runs (S n)) by (apply unary_step; intros m [= <-]; auto).
    assert (Hr : rhs_runs (S n)) by (apply rhs_step; [exact Hu|intros m [= <-]; auto]). auto using expr_step.
Qed.

End Runs.

(** ** Grouping one operator at a time *)

Definition operator (op : Token) : Prop := plain op /\ (1 <= binop_prec (tok_kind op))%Z.
Definition operand (src : cstr) (u : Expr) : Prop := is_operand u = true /\ grouped src u.

Lemma toks_snoc e op u : toks (snoc e op u) = toks e ++ op :: toks u.
Proof.
  induction e as [t|o e IH|l IHl o r IHr|lp e _ rp]; cbn [snoc]; try reflexivity.
  case_if; [|reflexivity]. cbn [toks]. rewrite IHr. now rewrite <- app_assoc.
Qed.

Lemma level_snoc k e op u : (k < level e)%Z -> (k < binop_prec (tok_kind op))%Z -> (k < level (snoc e op u))%Z.
Proof. destruct e; cbn; intros H1 H2; try assumption. now case_if. Qed.

Lemma grouped_snoc src e op u : grouped src e -> operator op -> operand src u -> grouped src (snoc e op u).
Proof.
  intros He [Hop Hp] [Hu1 Hu2]. pose proof (binop_le_5 (tok_kind op)) as H5.
  assert (Hl : level u = 6%Z) by now destruct u.
  induction e as [t|o e IH|l IHl o r IHr|lp e _ rp]; cbn [snoc];
    try (cbn in He |- *; rewrite Hl; repeat (split; [tauto || lia|]); tauto).
  destruct (Z.ltb_spec (binop_prec (tok_kind o)) (binop_prec (tok_kind op))) as [Hlt|Hge].
  - cbn in He |- *. destruct He as (H1 & H2 & H3 & H4 & H6 & H7). repeat (split; [assumption|]).
    split; [now apply level_snoc|]. auto.
  - cbn [grouped] in *. rewrite Hl. cbn [level]. repeat (split; [tauto || lia|]). tauto.
Qed.

Lemma group_spec src u rest :
  operand src u -> Forall (fun p => operator (fst p) /\ operand src (snd p)) rest ->
  grouped src (group u rest) /\ toks (group u rest) = toks u ++ spine_toks rest.
Proof.
  intros [_ Hu] H. unfold group. revert u Hu. induction H as [|[op v] rest [Hop Hv] _ IH]; intros u Hu; cbn.
  - now rewrite app_nil_r.
  - destruct (IH (snoc u op v)) as [H1 H2]; [now apply grouped_snoc|]. split; [exact H1|].
    rewrite H2, toks_snoc, <- app_assoc. reflexivity.
Qed.

Lemma size_toks e : size e <= List.length (toks e).
Proof. induction e; cbn [size toks]; rewrite ?length_app; cbn; rewrite ?length_app; cbn; lia. Qed.
