(* ===== verification/ParserExprProps.v ===== *)
(** * Correctness of the expression grammar

    Precedence climbing groups every sequence of operands and operators the way appending the
    operators one at a time does. *)

From S2P Require Import Prelude Lexer LexerFacts SyntaxTree ParserCore ParserSteps Parser ParserFacts ParserRun ParserExpr.

(** C9: expressions group by precedence and to the left: on operands (atoms, unary and parenthesized
    expressions, to any depth) joined by binary operators and followed by a token that ends the
    expression, [parse_expression] succeeds, consumes exactly these tokens, reports nothing, and adds
    the one tree in which the left side of every operator binds at least as tight as the operator and
    the right side tighter, the tree that appending the operators one by one at the right edge gives;
    its nodes have the spans and the successive ids of a post-order walk. *)
Theorem expression_grouping src u rest t ts b p n :
  operand src u -> Forall (fun q => operator (fst q) /\ operand src (snd q)) rest -> ends 1 t ->
  At src (toks u ++ spine_toks rest ++ t :: ts) b p -> List.length (upcoming p) <= n ->
  let e := group u rest in
  grouped src e /\ toks e = toks u ++ spine_toks rest /\
  exists q, parse_expression (parse_rec n) p = Some (Some tt, q) /\ upcoming q = t :: ts /\
    ps_builder q = emit e b /\ frame q = frame p.
Proof.
  intros Hu Hr Ht Hp Hn e. destruct (group_spec src u rest Hu Hr) as [Hg He]. fold e in Hg, He.
  refine (conj Hg (conj He _)). rewrite app_assoc, <- He in Hp.
  destruct (all_runs (src := src) n) as (_ & _ & Hx).
  destruct (Hx e t ts b Hg) with (p := p) as (q & E & [_ _ Hq Hb] & Hf); [|exact Ht|exact Hp|eauto].
  rewrite (at_tokens _ _ _ _ Hp), length_app in Hn. pose proof (size_toks e). lia.
Qed.

(** ** An expression of every kind of operator *)

Definition formula : cstr := lit "a + b * -(c - 1) < d / 2 % e || f && g |> h;".

Definition tok (i : nat) : Token := nth i (tokens_from (lexer_init formula)) (error_token "" 0 0).

Definition first_operand : Expr := EAtom (tok 0).

Definition other_operands : list (Token * Expr) :=
  [(tok 1, EAtom (tok 2)); (tok 3, EUnary (tok 4) (EParen (tok 5) (EBinary (EAtom (tok 6)) (tok 7) (EAtom (tok 8))) (tok 9)));
   (tok 10, EAtom (tok 11)); (tok 12, EAtom (tok 13)); (tok 14, EAtom (tok 15)); (tok 16, EAtom (tok 17));
   (tok 18, EAtom (tok 19)); (tok 20, EAtom (tok 21))].

Ltac token_facts :=
  repeat match goal with
    | |- _ /\ _ => split
    | |- operator _ => unfold operator
    | |- operand _ ?u => unfold operand, first_operand
    | |- grouped _ _ => cbn [grouped]
    | |- atom_ok _ _ => unfold atom_ok
    | |- plain _ => unfold plain
    | |- exists off, _ => eexists; vm_compute; reflexivity
    | |- _ <> _ => vm_compute; discriminate
    | |- (_ <= _)%Z => vm_compute; discriminate
    | |- (_ < _)%Z => vm_compute; reflexivity
    | |- _ = _ => vm_compute; reflexivity
    end.

Lemma expression_grouping_witness :
  let p := parser_create (lexer_init formula) 0 in
  exists q, parse_expression (parse_rec 30) p = Some (Some tt, q) /\ upcoming q = [tok 22; tok 23] /\
    ps_builder q = emit (group first_operand other_operands) (ps_builder p) /\ frame q = frame p.
Proof.
  intros p.
  destruct (expression_grouping formula first_operand other_operands (tok 22) [tok 23] (ps_builder p) p 30)
    as (_ & _ & q & H).
  - token_facts.
  - unfold other_operands. repeat apply Forall_cons; [..|apply Forall_nil]; cbn [fst snd]; token_facts.
  - unfold ends, follows. split; [split; vm_compute; discriminate|]. split; [vm_compute; reflexivity|vm_compute; exact Logic.I].
  - split; vm_compute; reflexivity.
  - vm_compute. lia.
  - exists q. exact H.
Defined.
