(* ===== verification/SyntaxView.v ===== *)
(** * Views over the syntax tree ([src/syntax/syntax_view.h], [src/syntax/syntax_view.c])

    The accessors every pass after the parser reads the tree with, and the attachment of doc
    comments to declarations. A view is the node it looks at, [None] for an absent one; the source it
    carries is an argument of the accessors that read text. An accessor the C code calls without
    testing for an absent view takes the node itself, so that a caller has to show that there is one.
    A borrowed slice is its text, [None] for a null pointer. *)

From S2P Require Import Prelude Lexer SyntaxTree.

(** ** Data *)

Record SyntaxNode : Type := mkNode {
  nd_kind : SyntaxNodeKind;
  nd_id : Z;
  nd_offset : Z;
  nd_length : Z;
  nd_children : list SyntaxElem
}.

Definition SyntaxView : Type := option SyntaxNode.
Definition SynText : Type := option cstr.

(** The node of an element, and back. *)
Definition as_node (e : SyntaxElem) : option SyntaxNode :=
  match e with SE_TOKEN _ => None | SE_NODE k i o n cs => Some (mkNode k i o n cs) end.

Definition elem_of (n : SyntaxNode) : SyntaxElem :=
  SE_NODE (nd_kind n) (nd_id n) (nd_offset n) (nd_length n) (nd_children n).

(** A token leaf's position; line 0 is an absent one. *)
Record CvPos : Type := mkPos {
  cv_line : Z;
  cv_column : Z;
  cv_offset : Z;
  cv_length : Z
}.

Definition no_pos : CvPos := mkPos 0 0 0 0.

Definition leaf_pos (l : Leaf) : CvPos := mkPos (lf_line l) (lf_column l) (lf_offset l) (lf_length l).

(** The enumerators in the order of their declaration: the value of a kind in comparisons. *)
Definition all_kinds : list SyntaxNodeKind :=
  [SN_SOURCE_FILE; SN_WORLD_DECL; SN_ARCHETYPE_DECL; SN_PROC_DECL; SN_MAP_DECL; SN_FUNC_DECL;
   SN_FUNC_GROUP_DECL; SN_STATIC_DECL; SN_CONST_DECL; SN_DEFAULT_DECL; SN_USE_DECL; SN_REGION;
   SN_RUN_DECL; SN_PARAM_LIST; SN_PARAM; SN_OUT_PARAM; SN_OUT_ARG; SN_WRITE_PARAM; SN_FIELD_DECL;
   SN_RETURN_TYPES; SN_ARG_LIST; SN_BIND_STMT; SN_ASSIGN_STMT; SN_FOR_STMT; SN_IF_STMT;
   SN_ELSE_CLAUSE; SN_BREAK_STMT; SN_CONTINUE_STMT; SN_RUN_STMT; SN_EXPR_STMT; SN_RETURN_STMT;
   SN_MULTI_BIND_STMT; SN_PROC_CALL_STMT; SN_EACH_FIELD_STMT; SN_BLOCK; SN_MATCH_STMT; SN_MATCH_ARM;
   SN_LITERAL_EXPR; SN_NAME_EXPR; SN_FIELD_EXPR; SN_INDEX_EXPR; SN_SLICE_EXPR; SN_BINARY_EXPR;
   SN_UNARY_EXPR; SN_CALL_EXPR; SN_ALLOC_EXPR; SN_ARRAY_LIT_EXPR; SN_STRING_EXPR; SN_ENTITY_EXPR;
   SN_TUPLE_LIT; SN_PAREN_EXPR; SN_PROC_EXPR; SN_FUNC_EXPR; SN_POLICY_EXPR; SN_GROUP_EXPR;
   SN_ARCH_EXPR; SN_MAP_EXPR; SN_SYSTEM_EXPR; SN_EACH_EXPR; SN_QUERY_EXPR; SN_ENUM_EXPR;
   SN_ENUM_VARIANT; SN_SUM_EXPR; SN_SUM_VARIANT; SN_TYPE_REF; SN_TYPE_ARRAY; SN_TYPE_SHAPED_ARRAY;
   SN_TYPE_TUPLE; SN_TYPE_HANDLE; SN_TYPE_EFF; SN_TYPE_PROC; SN_TYPE_FUNC; SN_TYPE_DEF_NAME;
   SN_FUNC_DEF_NAME; SN_FIELD_NAME; SN_PARAM_NAME; SN_CALLEE_NAME; SN_QUERY_REF; SN_QUERY_BIND; SN_EFF;
   SN_ALLOC_TYPE; SN_NAME_REF; SN_POLICY_REF; SN_ERROR].

Fixpoint kind_index (k : SyntaxNodeKind) (ks : list SyntaxNodeKind) : nat :=
  match ks with
  | [] => 0
  | k' :: ks' => if SyntaxNodeKind_beq k k' then 0 else S (kind_index k ks')
  end.

Definition kind_value (k : SyntaxNodeKind) : nat := kind_index k all_kinds.

(** ** Children by index *)

Definition sv_text (src : cstr) (v : SyntaxView) : SynText :=
  match v with Some n => Some (slice src (nd_offset n) (nd_length n)) | None => None end.

Definition sv_text_eq (src : cstr) (v : SyntaxView) (s : cstr) : bool :=
  match sv_text src v with Some t => cstr_eqb t s | None => false end.

(** The child nodes that satisfy [p], counted. *)
Fixpoint count_nodes (p : SyntaxNode -> bool) (cs : list SyntaxElem) (c : nat) : nat :=
  match cs with
  | [] => c
  | e :: cs' =>
      match as_node e with
      | Some n => count_nodes p cs' (if p n then S c else c)
      | None => count_nodes p cs' c
      end
  end.

(** The child node that satisfies [p] and is preceded by [index] such nodes; [c] of them have
    been passed. *)
Fixpoint scan_nodes (p : SyntaxNode -> bool) (index c : nat) (cs : list SyntaxElem) : SyntaxView :=
  match cs with
  | [] => None
  | e :: cs' =>
      match as_node e with
      | Some n => if p n then if c =? index then Some n else scan_nodes p index (S c) cs'
                  else scan_nodes p index c cs'
      | None => scan_nodes p index c cs'
      end
  end.

Definition any_node (n : SyntaxNode) : bool := true.
Definition of_kind (kind : SyntaxNodeKind) (n : SyntaxNode) : bool := SyntaxNodeKind_beq (nd_kind n) kind.

Definition sv_node_count (v : SyntaxNode) : nat := count_nodes any_node (nd_children v) 0.

Fixpoint node_count_deep (e : SyntaxElem) : nat :=
  match e with
  | SE_TOKEN _ => 0
  | SE_NODE _ _ _ _ cs =>
      fold_left (fun c e' => match e' with SE_NODE _ _ _ _ _ => S c + node_count_deep e' | SE_TOKEN _ => c end) cs 0
  end.

Definition sv_node_count_deep (v : SyntaxNode) : nat := node_count_deep (elem_of v).

Definition sv_node_at (v : SyntaxNode) (index : nat) : SyntaxView := scan_nodes any_node index 0 (nd_children v).

Definition sv_child_at (v : SyntaxNode) (kind : SyntaxNodeKind) (n : nat) : SyntaxView :=
  scan_nodes (of_kind kind) n 0 (nd_children v).

Definition sv_child (v : SyntaxNode) (kind : SyntaxNodeKind) : SyntaxView := sv_child_at v kind 0.

Definition sv_count (v : SyntaxNode) (kind : SyntaxNodeKind) : nat := count_nodes (of_kind kind) (nd_children v) 0.

Definition is_expr_kind (k : SyntaxNodeKind) : bool :=
  (kind_value SN_LITERAL_EXPR <=? kind_value k) && (kind_value k <=? kind_value SN_PAREN_EXPR).

Definition is_type_kind (k : SyntaxNodeKind) : bool :=
  (kind_value SN_TYPE_REF <=? kind_value k) && (kind_value k <=? kind_value SN_TYPE_FUNC).

Definition sv_expr_at (v : SyntaxNode) (idx : nat) : SyntaxView :=
  scan_nodes (fun n => is_expr_kind (nd_kind n)) idx 0 (nd_children v).

Definition sv_type_at (v : SyntaxNode) (idx : nat) : SyntaxView :=
  scan_nodes (fun n => is_type_kind (nd_kind n)) idx 0 (nd_children v).

Definition sv_type_count (v : SyntaxNode) : nat :=
  count_nodes (fun n => is_type_kind (nd_kind n)) (nd_children v) 0.

(** ** Tokens *)

Definition leaf_text (src : cstr) (l : Leaf) : cstr := slice src (lf_offset l) (lf_length l).

(** The first leaf of [kind] among the children. *)
Fixpoint find_leaf (kind : TokenKind) (cs : list SyntaxElem) : option Leaf :=
  match cs with
  | [] => None
  | SE_TOKEN l :: cs' => if TokenKind_beq (lf_kind l) kind then Some l else find_leaf kind cs'
  | SE_NODE _ _ _ _ _ :: cs' => find_leaf kind cs'
  end.

Definition sv_token (src : cstr) (v : SyntaxNode) (kind : TokenKind) : SynText :=
  option_map (leaf_text src) (find_leaf kind (nd_children v)).

Definition sv_has_token (src : cstr) (v : SyntaxNode) (kind : TokenKind) : bool := is_some (sv_token src v kind).

Definition sv_is_postfix_kind (k : SyntaxNodeKind) : bool :=
  match k with SN_FIELD_EXPR | SN_INDEX_EXPR | SN_SLICE_EXPR | SN_CALL_EXPR => true | _ => false end.

Definition base_subexpr (src : cstr) (v : SyntaxView) : SyntaxView :=
  match v with
  | None => None
  | Some n =>
      if negb (sv_is_postfix_kind (nd_kind n)) then None
      else if sv_has_token src n TOK_IDENT then None
      else
        match sv_node_at n 0 with
        | Some first =>
            if sv_is_postfix_kind (nd_kind first) || SyntaxNodeKind_beq (nd_kind first) SN_PAREN_EXPR
            then Some first else None
        | None => None
        end
  end.

Definition has_nested_base (src : cstr) (v : SyntaxView) : bool := is_some (base_subexpr src v).

(** [token_pos_edge]: the first leaf below a node, or the last. *)
Fixpoint pos_edge (want_last : bool) (e : SyntaxElem) : CvPos :=
  match e with
  | SE_TOKEN _ => no_pos
  | SE_NODE _ _ _ _ cs =>
      (fix walk (best : CvPos) (cs : list SyntaxElem) : CvPos :=
         match cs with
         | [] => best
         | e' :: cs' =>
             match e' with
             | SE_NODE _ _ _ _ _ =>
                 let sub := pos_edge want_last e' in
                 if (cv_line sub =? 0)%Z then walk best cs'
                 else if want_last then walk sub cs' else sub
             | SE_TOKEN l => if want_last then walk (leaf_pos l) cs' else leaf_pos l
             end
         end) no_pos cs
  end.

Definition token_pos_edge (v : SyntaxView) (want_last : bool) : CvPos :=
  match v with Some n => pos_edge want_last (elem_of n) | None => no_pos end.

Definition sv_first_token_pos (v : SyntaxView) : CvPos := token_pos_edge v false.
Definition sv_last_token_pos (v : SyntaxView) : CvPos := token_pos_edge v true.

Fixpoint scan_leaves (kind : TokenKind) (index c : nat) (cs : list SyntaxElem) : CvPos :=
  match cs with
  | [] => no_pos
  | SE_TOKEN l :: cs' =>
      if negb (TokenKind_beq (lf_kind l) kind) then scan_leaves kind index c cs'
      else if c =? index then leaf_pos l else scan_leaves kind index (S c) cs'
  | SE_NODE _ _ _ _ _ :: cs' => scan_leaves kind index c cs'
  end.

Definition sv_token_pos_at (v : SyntaxView) (kind : TokenKind) (n : nat) : CvPos :=
  match v with Some nd => scan_leaves kind n 0 (nd_children nd) | None => no_pos end.

Definition sv_token_pos (v : SyntaxView) (kind : TokenKind) : CvPos := sv_token_pos_at v kind 0.

Fixpoint has_error (e : SyntaxElem) : bool :=
  match e with
  | SE_TOKEN _ => false
  | SE_NODE k _ _ _ cs => SyntaxNodeKind_beq k SN_ERROR || existsb has_error cs
  end.

Definition sv_has_error (v : SyntaxView) : bool :=
  match v with Some n => has_error (elem_of n) | None => false end.

(** ** The name of a declaration *)

(** The children from an index on. *)
Definition Cursor : Type := nat * list SyntaxElem.

Definition at_token (kind : TokenKind) (c : Cursor) : bool :=
  match snd c with SE_TOKEN l :: _ => TokenKind_beq (lf_kind l) kind | _ => false end.

Fixpoint skip_comments (i : nat) (cs : list SyntaxElem) : Cursor :=
  match cs with
  | SE_TOKEN l :: cs' => if TokenKind_beq (lf_kind l) TOK_COMMENT then skip_comments (S i) cs' else (i, cs)
  | _ => (i, cs)
  end.

Definition SV_SKIP_COMMENTS (c : Cursor) : Cursor := skip_comments (fst c) (snd c).

(** [if (i < n && children[i].tag == SE_TOKEN) i++;] *)
Definition skip_token (c : Cursor) : Cursor :=
  match snd c with SE_TOKEN _ :: cs' => (S (fst c), cs') | _ => c end.

(** The loop over a balanced [( ... )]; it also ends at a node. *)
Fixpoint skip_parens (depth : Z) (i : nat) (cs : list SyntaxElem) : Cursor :=
  match cs with
  | SE_TOKEN l :: cs' =>
      if TokenKind_beq (lf_kind l) TOK_LPAREN then skip_parens (depth + 1) (S i) cs'
      else if TokenKind_beq (lf_kind l) TOK_RPAREN then
        if (depth - 1 =? 0)%Z then (S i, cs') else skip_parens (depth - 1) (S i) cs'
      else skip_parens depth (S i) cs'
  | _ => (i, cs)
  end.

(** One decorator: the at sign, its name, its arguments. *)
Definition skip_decorator (c : Cursor) : Cursor :=
  let c := SV_SKIP_COMMENTS (skip_token c) in
  let c := SV_SKIP_COMMENTS (skip_token c) in
  let c := if at_token TOK_LPAREN c then skip_parens 0 (fst c) (snd c) else c in
  SV_SKIP_COMMENTS c.

(** The loop over the decorators; each takes at least its at sign, so the number of children is
    fuel enough. *)
Fixpoint skip_decorators (fuel : nat) (c : Cursor) : Cursor :=
  match fuel with
  | O => c
  | S f => if at_token TOK_AT c then skip_decorators f (skip_decorator c) else c
  end.

(** The position after the decorators, as an index and the children left. *)
Definition decl_name_cursor (v : SyntaxNode) : Cursor :=
  skip_decorators (List.length (nd_children v)) (SV_SKIP_COMMENTS (0, nd_children v)).

(** [None] is the index -1. *)
Definition sv_decl_name_index (v : SyntaxView) : option nat :=
  match v with
  | None => None
  | Some n => let c := decl_name_cursor n in if at_token TOK_IDENT c then Some (fst c) else None
  end.

Definition token_at (cs : list SyntaxElem) (i : nat) : option Leaf :=
  match nth_error cs i with Some (SE_TOKEN l) => Some l | _ => None end.

Definition sv_decl_name (src : cstr) (v : SyntaxView) : SynText :=
  match v, sv_decl_name_index v with
  | Some n, Some i => option_map (leaf_text src) (token_at (nd_children n) i)
  | _, _ => None
  end.

Definition sv_has_group_paren (v : SyntaxView) : bool :=
  match v, sv_decl_name_index v with
  | Some n, Some i =>
      match token_at (nd_children n) (S i) with Some l => TokenKind_beq (lf_kind l) TOK_LPAREN | None => false end
  | _, _ => false
  end.

(** ** Doc comments *)

Definition doc_strip (text : cstr) (marker_len : nat) : SynText :=
  if List.length text <? marker_len then None
  else
    match skipn marker_len text with
    | c :: p => Some (if Ascii.eqb c " " then p else c :: p)
    | [] => Some []
    end.

Record CmtLeaf : Type := mkCmt { cm_line : Z; cm_text : cstr }.

(** Append to the buffer; a full one drops its oldest entry. *)
Definition keep_recent (cap : nat) (buf : list CmtLeaf) (c : CmtLeaf) : list CmtLeaf :=
  if List.length buf <? cap then buf ++ [c] else tl buf ++ [c].

Fixpoint gather_comments_before (src : cstr) (limit : Z) (cap : nat) (e : SyntaxElem) (buf : list CmtLeaf)
    : list CmtLeaf :=
  match e with
  | SE_TOKEN l =>
      if TokenKind_beq (lf_kind l) TOK_COMMENT && (lf_offset l <? limit)%Z
      then keep_recent cap buf (mkCmt (lf_line l) (leaf_text src l)) else buf
  | SE_NODE _ _ _ _ cs =>
      fold_left (fun buf e' =>
        match e' with
        | SE_TOKEN _ => gather_comments_before src limit cap e' buf
        | SE_NODE _ _ o _ _ => if (o <? limit)%Z then gather_comments_before src limit cap e' buf else buf
        end) cs buf
  end.

Definition CV_DOC_GATHER_CAP : nat := 1024.

(** The walk from the tail of the buffer: how many of the last comments form the run that ends
    right above line [expect]. *)
Fixpoint doc_run (expect : Z) (rbuf : list CmtLeaf) : nat :=
  match rbuf with
  | [] => 0
  | c :: rbuf' =>
      if negb (arche_is_doc_comment (cm_text c)) then 0
      else if negb (cm_line c =? expect - 1)%Z then 0
      else S (doc_run (cm_line c) rbuf')
  end.

(** The lines with their numbers: the arrays [out] and [out_lines]. *)
Definition sv_decl_doc_lines (src : cstr) (root decl : SyntaxView) (max : nat) : list (SynText * Z) :=
  match root, decl with
  | Some r, Some d =>
      let dp := sv_first_token_pos decl in
      if (cv_line dp =? 0)%Z then []
      else
        let buf := gather_comments_before src (nd_offset d) CV_DOC_GATHER_CAP (elem_of r) [] in
        let start := List.length buf - doc_run (cv_line dp) (rev buf) in
        firstn max (map (fun c => (doc_strip (cm_text c) 3, cm_line c)) (skipn start buf))
  | _, _ => []
  end.

(** [expect] is 0 until a line has been seen; [max] is the room left. *)
Fixpoint module_doc_run (src : cstr) (expect : Z) (max : nat) (cs : list SyntaxElem) : list SynText :=
  match max, cs with
  | S m, SE_TOKEN l :: cs' =>
      if negb (TokenKind_beq (lf_kind l) TOK_COMMENT) then []
      else if negb (arche_is_inner_doc_comment (leaf_text src l)) then []
      else if negb (expect =? 0)%Z && negb (lf_line l =? expect + 1)%Z then []
      else doc_strip (leaf_text src l) 3 :: module_doc_run src (lf_line l) m cs'
  | _, _ => []
  end.

Definition sv_module_doc_lines (src : cstr) (root : SyntaxView) (max : nat) : list SynText :=
  match root with Some r => module_doc_run src 0 max (nd_children r) | None => [] end.
