(* ===== verification/SyntaxViewFacts.v ===== *)
(** * Views over the syntax tree: lemmas

    The indexed accessors as positions in lists, the edges of a node as the ends of its leaves, the
    shape of a parsed tree, the comments gathered before a declaration, and the decorators. *)

From S2P Require Import Prelude Lexer LexerFacts SyntaxTree ParserCore ParserSteps Parser ParserFacts SyntaxView.

(** ** Specifications *)

Definition child_nodes (v : SyntaxNode) : list SyntaxNode :=
  flat_map (fun e => match as_node e with Some n => [n] | None => [] end) (nd_children v).

(** The nodes of a tree. *)
Fixpoint subtrees (e : SyntaxElem) : list SyntaxElem :=
  match e with
  | SE_TOKEN _ => []
  | SE_NODE _ _ _ _ cs => e :: flat_map subtrees cs
  end.

Definition last_n {A} (n : nat) (l : list A) : list A := skipn (List.length l - n) l.

(** The comments of a tree that start before [limit]. *)
Definition comment_before (limit : Z) (l : Leaf) : bool :=
  TokenKind_beq (lf_kind l) TOK_COMMENT && (lf_offset l <? limit)%Z.

Definition cmt_leaf (src : cstr) (l : Leaf) : CmtLeaf := mkCmt (lf_line l) (leaf_text src l).

(** Doc comments on consecutive lines, the last one right above [line]. *)
Fixpoint attached (src : cstr) (run : list Leaf) (line : Z) : Prop :=
  match run with
  | [] => True
  | l :: run' =>
      arche_is_doc_comment (leaf_text src l) = true /\
      lf_line l = (line - Z.of_nat (List.length run))%Z /\ attached src run' line
  end.

(** Nothing of [pre] belongs to the run. *)
Definition detached (src : cstr) (pre run : list Leaf) (line : Z) : Prop :=
  match rev pre with
  | [] => True
  | l :: _ => ~ (arche_is_doc_comment (leaf_text src l) = true /\
                 lf_line l = (line - Z.of_nat (List.length run) - 1)%Z)
  end.

(** ** Indexed access *)

Lemma count_nodes_filter p cs c :
  count_nodes p cs c =
  c + List.length (filter p (flat_map (fun e => match as_node e with Some n => [n] | None => [] end) cs)).
Proof.
  revert c; induction cs as [|e cs IH]; intros c; cbn; [lia|].
  destruct (as_node e) as [n|]; cbn; rewrite IH; [|reflexivity]. destruct (p n); cbn; lia.
Qed.

Lemma scan_nodes_filter p index cs c :
  c <= index ->
  scan_nodes p index c cs =
  nth_error (filter p (flat_map (fun e => match as_node e with Some n => [n] | None => [] end) cs)) (index - c).
Proof.
  revert c; induction cs as [|e cs IH]; intros c Hc; cbn; [now rewrite nth_error_nil|].
  destruct (as_node e) as [n|]; cbn; [|now apply IH]. destruct (p n); [|now apply IH].
  destruct (Nat.eqb_spec c index) as [->|Hne]; [now rewrite Nat.sub_diag|].
  rewrite IH by lia. replace (index - c) with (S (index - S c)) by lia. reflexivity.
Qed.

Lemma filter_any l : filter any_node l = l.
Proof. induction l; cbn; congruence. Qed.

Lemma node_count_deep_ids e : List.length (post_ids e) = match e with SE_TOKEN _ => 0 | _ => S (node_count_deep e) end.
Proof.
  induction e as [l|k i o n cs IH] using syntax_elem_ind; [reflexivity|].
  cbn [post_ids node_count_deep]. rewrite length_app, Nat.add_comm. cbn [List.length Nat.add]. f_equal.
  rewrite <- (Nat.add_0_l (List.length (flat_map _ _))). generalize 0 as c.
  induction IH as [|e cs He _ IH]; intros c; cbn; [lia|]. rewrite length_app, Nat.add_assoc.
  rewrite IH, He. destruct e; [now rewrite Nat.add_0_r|]. f_equal. lia.
Qed.

(** ** The edges of a node *)

Lemma elem_of_node e n : as_node e = Some n -> elem_of n = e.
Proof. destruct e; cbn; [discriminate|]. intros [= <-]. reflexivity. Qed.

(** What the walk over the children returns, started from [best]. *)
Definition edge_of (want_last : bool) (best : CvPos) (ls : list Leaf) : CvPos :=
  match (if want_last then rev ls else ls) with [] => best | l :: _ => leaf_pos l end.

Lemma edge_of_app want_last best a b :
  edge_of want_last best (a ++ b) =
  if want_last then edge_of true (edge_of true best a) b
  else match a with [] => edge_of false best b | _ => edge_of false best a end.
Proof.
  unfold edge_of. destruct want_last; [|now destruct a]. rewrite rev_app_distr. now destruct (rev b).
Qed.

Lemma pos_edge_leaves want_last e :
  Forall (fun l => lf_line l <> 0%Z) (leaves e) ->
  pos_edge want_last e = match e with SE_TOKEN _ => no_pos | _ => edge_of want_last no_pos (leaves e) end.
Proof.
  induction e as [l|k i o n cs IH] using syntax_elem_ind; intros Hl; [reflexivity|]. cbn in *.
  revert Hl. generalize no_pos at 1 2 as best.
  induction IH as [|e cs He _ IH]; intros best Hl; [now destruct want_last|].
  cbn in Hl |- *. apply Forall_app in Hl as [Hl1 Hl2]. rewrite edge_of_app.
  destruct e as [l|k' i' o' n' cs']; cbn [leaves] in *.
  - destruct want_last; [|reflexivity]. rewrite IH by assumption. reflexivity.
  - rewrite He by assumption. destruct (flat_map leaves cs') as [|l ls] eqn:El.
    + replace (edge_of want_last no_pos []) with no_pos by now destruct want_last.
      cbn. rewrite IH by assumption. now destruct want_last.
    + assert (Hx : forall b, edge_of want_last b (l :: ls) = edge_of want_last no_pos (l :: ls) /\
                   cv_line (edge_of want_last b (l :: ls)) <> 0%Z).
      { intros b. unfold edge_of. destruct want_last; [|split; [reflexivity|now inversion Hl1]].
        destruct (rev (l :: ls)) as [|x r] eqn:Er; [now apply (f_equal (@List.length _)) in Er; rewrite length_rev in Er|].
        split; [reflexivity|]. rewrite Forall_forall in Hl1. apply Hl1. rewrite in_rev, Er. now left. }
      destruct (Hx no_pos) as [_ Hn]. apply Z.eqb_neq in Hn. rewrite Hn.
      destruct want_last; [|reflexivity]. rewrite IH by assumption. now rewrite (proj1 (Hx best)).
Qed.

(** ** The shape of a parsed tree *)

Lemma updates_line txt lc : (1 <= fst lc)%Z -> (1 <= fst (updates txt lc))%Z.
Proof.
  revert lc; induction txt as [|c txt IH]; intros [l k] H; [exact H|]. cbn in H |- *. unfold updates in *. cbn.
  apply IH. unfold upd. destruct (Ascii.eqb c NL); cbn; lia.
Qed.

(** What holds of every leaf. *)
Definition leaf_ok (l : Leaf) : Prop :=
  (1 <= lf_line l)%Z /\ lf_kind l <> TOK_EOF /\ lf_kind l <> TOK_ERROR.

Lemma covers_lines lc pos rest ts :
  covers lc pos rest ts -> (1 <= fst lc)%Z -> Forall (fun t => tok_kind t = TOK_EOF \/ (1 <= tok_line t)%Z) ts.
Proof.
  induction 1 as [lc pos gap tok _ Hk _ _|lc pos gap txt rest tok ts _ _ _ _ Hp _ IH]; intros H1; constructor; auto.
  - right. pose proof (updates_line gap lc H1) as H. rewrite <- Hp in H. exact H.
  - apply IH. now apply updates_line.
Qed.

Lemma token_leaves_ok ts :
  Forall (fun t => tok_kind t = TOK_EOF \/ (1 <= tok_line t)%Z) ts -> Forall leaf_ok (token_leaves ts).
Proof.
  induction 1 as [|t ts Ht _ IH]; cbn; [constructor|]. apply Forall_app. split; [|exact IH]. unfold token_leaf.
  destruct (kind_is TOK_EOF t) eqn:E1; [constructor|]. destruct (kind_is TOK_ERROR t) eqn:E2; [constructor|].
  apply kind_is_neq in E1, E2. cbn. destruct (tok_start t); repeat constructor; cbn; auto. destruct Ht; [contradiction|lia].
Qed.

Record tree_shape (src : cstr) (root : SyntaxElem) : Prop := mkShape {
  sh_node : exists n, as_node root = Some n;
  sh_order : in_order 0 (leaves root) (Z.of_nat (List.length src));
  sh_spans : leaves root = [] \/ elem_spans root;
  sh_leaves : Forall leaf_ok (leaves root)
}.

Lemma parse_shape src g res :
  ~ In NUL src -> (Z.of_nat (List.length src) < 2 ^ 32)%Z -> parse_source src g = Some res ->
  tree_shape src (pr_syntax_root res).
Proof.
  intros Hn Hl H. destruct (parse_source_ends src g) as (p & E & S & _ & _ & T & D).
  unfold parse_source in H. rewrite E in H. injection H as <-. cbn [pr_syntax_root].
  destruct (final_leaves _ _ T D) as [(done & rest & Ht & Hd) _].
  set (root := fst (syntax_builder_finish (ps_builder p))).
  assert (Hr : leaves root = token_leaves done) by exact Hd. change (tree_shape src root).
  split.
  - cbn. eauto.
  - rewrite Hr. eapply prefix_in_order; eauto.
  - unfold root. cbn [fst syntax_builder_finish]. destruct (cb_items (ps_builder p)) as [|e es] eqn:Ei; [left; reflexivity|right].
    apply make_node_spans; [discriminate|]. rewrite <- Ei.
    exact (parse_builder_invariant spans_ok src g p spans_ok_token spans_ok_wrap (Forall_nil _) S).
  - rewrite Hr. apply token_leaves_ok.
    pose proof (tokens_from_covers _ (lexer_init src) (le_n _) eq_refl Hn) as C.
    apply covers_lines in C; [|cbn; lia]. rewrite Ht in C. now apply Forall_app in C.
Qed.

Lemma subtree_leaves d e : In d (subtrees e) -> exists a b, leaves e = a ++ leaves d ++ b.
Proof.
  induction e as [l|k i o n cs IH] using syntax_elem_ind; [contradiction|]. intros [<-|H].
  - exists [], []. now rewrite app_nil_r.
  - cbn. induction cs as [|e cs IHcs]; [contradiction|]. inversion IH; subst. cbn in H |- *.
    apply in_app_or in H as [H|H].
    + destruct (H2 H) as (a & b & ->). exists a, (b ++ flat_map leaves cs). now rewrite <- !app_assoc.
    + destruct (IHcs H3 H) as (a & b & E). exists (leaves e ++ a), b. now rewrite E, <- !app_assoc.
Qed.

Lemma subtree_spans d e : In d (subtrees e) -> elem_spans e -> elem_spans d.
Proof.
  induction e as [l|k i o n cs IH] using syntax_elem_ind; [contradiction|]. intros [<-|H] Hs; [exact Hs|].
  destruct Hs as [_ Hs]. apply all_nodes_forest in Hs. apply in_flat_map in H as (e & H1 & H2).
  rewrite Forall_forall in IH, Hs. exact (IH e H1 H2 (Hs e H1)).
Qed.

(** ** The comments before a declaration *)

Lemma tl_skipn {A} n (l : list A) : tl (skipn n l) = skipn (S n) l.
Proof. revert l; induction n as [|n IH]; intros [|x l]; cbn; auto. Qed.

Lemma last_n_snoc {A} n (l : list A) x :
  0 < n -> last_n n (l ++ [x]) = (if List.length (last_n n l) <? n then last_n n l else tl (last_n n l)) ++ [x].
Proof.
  intros Hn. unfold last_n. rewrite length_app, length_skipn. cbn [List.length].
  destruct (Nat.ltb_spec (List.length l - (List.length l - n)) n) as [H|H].
  - replace (List.length l + 1 - n) with 0 by lia. now replace (List.length l - n) with 0 by lia.
  - replace (List.length l + 1 - n) with (S (List.length l - n)) by lia.
    rewrite skipn_app. replace (S (List.length l - n) - List.length l) with 0 by lia. cbn [skipn]. f_equal.
    now rewrite tl_skipn.
Qed.

Lemma keep_recent_last cap xs buf :
  0 < cap -> fold_left (keep_recent cap) xs (last_n cap buf) = last_n cap (buf ++ xs).
Proof.
  intros Hc. revert buf; induction xs as [|x xs IH]; intros buf; cbn; [now rewrite app_nil_r|].
  replace (buf ++ x :: xs) with ((buf ++ [x]) ++ xs) by now rewrite <- app_assoc.
  rewrite <- IH. f_equal. unfold keep_recent. rewrite last_n_snoc by exact Hc. now case_if.
Qed.

Lemma in_order_starts pos ls stop : in_order pos ls stop -> Forall (fun l => (pos <= lf_offset l)%Z) ls.
Proof.
  revert pos; induction ls as [|l ls IH]; intros pos; cbn; constructor; [tauto|].
  destruct H as (H1 & H2 & H3). apply IH in H3. eapply Forall_impl; [|exact H3]. cbn. lia.
Qed.

Lemma filter_none {A} (f : A -> bool) l : Forall (fun x => f x = false) l -> filter f l = [].
Proof. induction 1 as [|x l H _ IH]; cbn; [reflexivity|]. now rewrite H. Qed.

(** Skipping the nodes that start at the limit or later loses no comment. *)
Lemma gather_filter src limit cap e :
  forall pos stop buf, in_order pos (leaves e) stop -> elem_spans e ->
  gather_comments_before src limit cap e buf =
  fold_left (keep_recent cap) (map (cmt_leaf src) (filter (comment_before limit) (leaves e))) buf.
Proof.
  induction e as [l|k i o n cs IH] using syntax_elem_ind; intros pos stop buf Ho Hs.
  - cbn. unfold comment_before. case_if; reflexivity.
  - destruct Hs as [_ Hs]. apply all_nodes_forest in Hs. cbn in Ho |- *. revert pos buf Ho Hs.
    induction IH as [|e cs He _ IH]; intros pos buf Ho Hs; [reflexivity|]. inversion Hs; subst.
    cbn in Ho |- *. apply in_order_app in Ho as (mid & Ho1 & Ho2).
    rewrite filter_app, map_app, fold_left_app, <- (IH mid) by assumption. f_equal.
    destruct e as [l|k' i' o' n' cs']; [now rewrite (He pos mid)|].
    destruct (Z.ltb_spec o' limit) as [Hlt|Hge]; [now rewrite (He pos mid)|].
    rewrite filter_none; [reflexivity|]. pose proof (elem_start _ H1) as E. cbn [elem_offset] in E.
    pose proof (elem_has_leaf _ H1) as Hne. destruct (leaves (SE_NODE k' i' o' n' cs')) as [|l ls]; [contradiction|].
    cbn in E, Ho1. subst o'. destruct Ho1 as (_ & Hp & Ho1). apply in_order_starts in Ho1.
    assert (Hn : forall x, (limit <= lf_offset x)%Z -> comment_before limit x = false).
    { intros x Hx. unfold comment_before. rewrite (proj2 (Z.ltb_ge _ _) Hx). apply andb_false_r. }
    constructor; [now apply Hn|]. eapply Forall_impl; [|exact Ho1]. cbn. intros x Hx. apply Hn. lia.
Qed.

Lemma attached_snoc src run l line :
  attached src run (line - 1) -> arche_is_doc_comment (leaf_text src l) = true -> lf_line l = (line - 1)%Z ->
  attached src (run ++ [l]) line.
Proof.
  intros H Hd Hl. induction run as [|x run IH]; cbn in H |- *; [auto|]. destruct H as (H1 & H2 & H3).
  refine (conj H1 (conj _ (IH H3))). rewrite length_app. cbn [List.length]. lia.
Qed.

(** The run from the tail of the buffer is the longest one. *)
Lemma doc_run_spec src ls : forall line,
  exists pre run, ls = pre ++ run /\ doc_run line (rev (map (cmt_leaf src) ls)) = List.length run /\
    attached src run line /\ detached src pre run line.
Proof.
  induction ls as [|l ls IH] using rev_ind; intros line; [exists [], []; cbn; auto|].
  rewrite map_app, rev_app_distr. cbn [map rev app doc_run cmt_leaf cm_text cm_line].
  assert (Hstop : ~ (arche_is_doc_comment (leaf_text src l) = true /\ lf_line l = (line - 0 - 1)%Z) ->
    exists pre run, ls ++ [l] = pre ++ run /\ 0 = List.length run /\ attached src run line /\ detached src pre run line).
  { intros H. exists (ls ++ [l]), []. unfold detached. rewrite app_nil_r, rev_app_distr. cbn. auto. }
  destruct (arche_is_doc_comment (leaf_text src l)) eqn:Ed; cbn [negb]; [|apply Hstop; intuition discriminate].
  destruct (Z.eqb_spec (lf_line l) (line - 1)) as [El|El]; cbn [negb]; [|apply Hstop; intros [_ H]; lia].
  destruct (IH (lf_line l)) as (pre & run & -> & Hn & Ha & Hdt). exists pre, (run ++ [l]).
  split; [now rewrite app_assoc|]. split; [rewrite Hn, length_app; cbn; lia|]. split.
  - apply attached_snoc; [now rewrite <- El|assumption|assumption].
  - unfold detached in *. destruct (rev pre) as [|x r]; [exact Logic.I|]. intros [H1 H2]. apply Hdt. split; [exact H1|].
    rewrite length_app in H2. cbn [List.length] in H2. lia.
Qed.

(** ** Decorators *)

(** A token of [kind] as a child. *)
Definition is_token (kind : TokenKind) (e : SyntaxElem) : Prop :=
  match e with SE_TOKEN l => lf_kind l = kind | _ => False end.

Definition is_comment (e : SyntaxElem) : Prop := is_token TOK_COMMENT e.

(** Tokens with balanced parentheses. *)
Inductive balanced : list SyntaxElem -> Prop :=
| bal_nil : balanced []
| bal_token l es : lf_kind l <> TOK_LPAREN -> lf_kind l <> TOK_RPAREN -> balanced es -> balanced (SE_TOKEN l :: es)
| bal_group o es c es' : is_token TOK_LPAREN o -> balanced es -> is_token TOK_RPAREN c -> balanced es' ->
    balanced (o :: es ++ c :: es').

(** The arguments of a decorator, if any. *)
Inductive arguments : list SyntaxElem -> Prop :=
| args_none : arguments []
| args_group o es c : is_token TOK_LPAREN o -> balanced es -> is_token TOK_RPAREN c -> arguments (o :: es ++ [c]).

(** Decorators, each with its comments; [name] is any token but a comment. *)
Inductive decorators : list SyntaxElem -> Prop :=
| decs_nil : decorators []
| decs_cons at_ c1 name c2 args c3 ds :
    is_token TOK_AT at_ -> Forall is_comment c1 -> lf_kind name <> TOK_COMMENT -> Forall is_comment c2 ->
    arguments args -> Forall is_comment c3 -> decorators ds ->
    decorators (at_ :: c1 ++ SE_TOKEN name :: c2 ++ args ++ c3 ++ ds).

Lemma kind_beq_eq a b : TokenKind_beq a b = true <-> a = b.
Proof. split; [apply internal_TokenKind_dec_bl|apply internal_TokenKind_dec_lb]. Qed.

Lemma kind_beq_neq a b : TokenKind_beq a b = false <-> a <> b.
Proof. rewrite <- not_true_iff_false, kind_beq_eq. reflexivity. Qed.

(** What follows the decorators: a token that neither is a comment nor continues them. *)
Definition name_first (es : list SyntaxElem) : Prop :=
  match es with SE_TOKEN l :: _ => lf_kind l = TOK_IDENT | _ => False end.

Lemma skip_comments_run i c es : Forall is_comment c -> skip_comments i (c ++ es) = skip_comments (i + List.length c) es.
Proof.
  intros H. revert i. induction H as [|e c He _ IH]; intros i; cbn; [now rewrite Nat.add_0_r|].
  destruct e as [l|]; [|contradiction]. cbn in He. rewrite (proj2 (kind_beq_eq _ _) He), IH. f_equal. lia.
Qed.

Lemma skip_comments_stop i l es : lf_kind l <> TOK_COMMENT -> skip_comments i (SE_TOKEN l :: es) = (i, SE_TOKEN l :: es).
Proof. intros H. cbn. now rewrite (proj2 (kind_beq_neq _ _) H). Qed.

Lemma skip_parens_balanced es rest d : balanced es -> (1 <= d)%Z -> forall i,
  skip_parens d i (es ++ rest) = skip_parens d (i + List.length es) rest.
Proof.
  intros H. revert d rest. induction H as [|l es H1 H2 _ IH|o es c es' Ho _ IH1 Hc _ IH2]; intros d rest Hd i.
  - cbn. now rewrite Nat.add_0_r.
  - cbn. rewrite (proj2 (kind_beq_neq _ _) H1), (proj2 (kind_beq_neq _ _) H2), IH by assumption. f_equal. lia.
  - destruct o as [o|]; [|contradiction]. destruct c as [c|]; [|contradiction]. cbn in Ho, Hc. cbn [app skip_parens].
    rewrite (proj2 (kind_beq_eq _ _) Ho), <- app_assoc, IH1 by lia. cbn [app skip_parens]. rewrite Hc. cbn [TokenKind_beq].
    replace (d + 1 - 1)%Z with d by lia. destruct (Z.eqb_spec d 0); [lia|].
    rewrite IH2 by assumption. f_equal. cbn. rewrite length_app. cbn. lia.
Qed.

Lemma skip_arguments i args es :
  arguments args -> (args = [] -> match es with SE_TOKEN l :: _ => lf_kind l <> TOK_LPAREN | _ => True end) ->
  (if at_token TOK_LPAREN (i, args ++ es) then skip_parens 0 i (args ++ es) else (i, args ++ es)) =
  (i + List.length args, es).
Proof.
  intros [|o as_ c Ho Hb Hc] H.
  - specialize (H eq_refl). cbn. rewrite Nat.add_0_r. unfold at_token. cbn. destruct es as [|[l|] es]; try reflexivity.
    now rewrite (proj2 (kind_beq_neq _ _) H).
  - destruct o as [o|]; [|contradiction]. destruct c as [c|]; [|contradiction]. cbn in Ho, Hc. unfold at_token. cbn.
    rewrite Ho. cbn [TokenKind_beq]. rewrite <- app_assoc, skip_parens_balanced by (assumption || lia).
    cbn [app skip_parens]. rewrite Hc. cbn. rewrite length_app. cbn. f_equal. lia.
Qed.

(** A token that ends a decorator. *)
Definition clean (es : list SyntaxElem) : Prop :=
  match es with SE_TOKEN l :: _ => lf_kind l <> TOK_COMMENT /\ lf_kind l <> TOK_LPAREN | _ => False end.

Lemma skip_comments_clean i c es : Forall is_comment c -> clean es -> skip_comments i (c ++ es) = (i + List.length c, es).
Proof.
  intros Hc He. rewrite skip_comments_run by assumption. destruct es as [|[l|] es]; try contradiction.
  apply skip_comments_stop, He.
Qed.

Lemma skip_decorator_one i at_ c1 name c2 args c3 es :
  Forall is_comment c1 -> lf_kind name <> TOK_COMMENT -> Forall is_comment c2 -> arguments args ->
  Forall is_comment c3 -> clean es -> is_token TOK_AT at_ ->
  let d := at_ :: c1 ++ SE_TOKEN name :: c2 ++ args ++ c3 in
  skip_decorator (i, d ++ es) = (i + List.length d, es).
Proof.
  intros H1 Hn H2 Ha H3 He Hat d. subst d. destruct at_ as [a|]; [|contradiction].
  unfold skip_decorator, SV_SKIP_COMMENTS. cbn [app skip_token snd fst].
  rewrite <- !app_assoc, skip_comments_run, <- app_comm_cons, skip_comments_stop by assumption.
  cbn [skip_token snd fst]. rewrite <- !app_assoc.
  assert (Hs : exists j es', skip_comments (S (S i + List.length c1)) (c2 ++ args ++ c3 ++ es) = (j, args ++ es') /\
            (args = [] -> clean es') /\
            skip_comments (j + List.length args) es' = (S (S i + List.length c1) + List.length (c2 ++ args ++ c3), es)).
  { destruct Ha as [|o as_ c Ho Hb Hc].
    - exists (S (S i + List.length c1) + List.length (c2 ++ c3)), es. cbn [app].
      rewrite app_assoc, skip_comments_clean by (try apply Forall_app; auto). split; [reflexivity|]. split; [auto|].
      change es with ([] ++ es) at 1. rewrite skip_comments_clean by (constructor || assumption). cbn. f_equal. lia.
    - exists (S (S i + List.length c1) + List.length c2), (c3 ++ es). rewrite skip_comments_run by assumption.
      destruct o as [o|]; [|contradiction]. cbn in Ho. cbn [app]. rewrite skip_comments_stop by (rewrite Ho; discriminate).
      split; [reflexivity|]. split; [discriminate|]. rewrite skip_comments_clean by assumption.
      f_equal. cbn. rewrite !length_app. cbn. rewrite !length_app. cbn. lia. }
  destruct Hs as (j & es' & -> & Hl & Hr). cbn [fst snd]. rewrite skip_arguments.
  - cbn [fst snd]. rewrite Hr. f_equal. cbn. rewrite !length_app. cbn. rewrite !length_app. lia.
  - assumption.
  - intros E. specialize (Hl E). destruct es' as [|[l|] es']; try contradiction. apply Hl.
Qed.

Lemma decorators_head ds es : decorators ds -> name_first es -> clean (ds ++ es).
Proof.
  intros [|a c1 n c2 args c3 ds' Ha] He.
  - destruct es as [|[l|] es]; try contradiction. cbn in *. rewrite He. split; intros E; discriminate E.
  - destruct a as [a|]; [|contradiction]. cbn in *. rewrite Ha. split; intros E; discriminate E.
Qed.

Lemma skip_decorators_all ds : decorators ds -> forall fuel i es,
  List.length ds <= fuel -> name_first es -> skip_decorators fuel (i, ds ++ es) = (i + List.length ds, es).
Proof.
  induction 1 as [|a c1 n c2 args c3 ds Ha H1 Hn H2 Hargs H3 Hds IH]; intros fuel i es Hf He.
  - cbn. rewrite Nat.add_0_r. destruct fuel; [reflexivity|]. cbn.
    destruct es as [|[l|] es]; try contradiction. unfold at_token. cbn in He |- *. now rewrite He.
  - destruct fuel as [|fuel]; [cbn in Hf; lia|].
    set (d := a :: c1 ++ SE_TOKEN n :: c2 ++ args ++ c3).
    replace (a :: c1 ++ SE_TOKEN n :: c2 ++ args ++ c3 ++ ds) with (d ++ ds) in *
      by (unfold d; cbn; rewrite <- !app_assoc; cbn; now rewrite <- !app_assoc).
    cbn [skip_decorators]. replace (at_token TOK_AT (i, (d ++ ds) ++ es)) with true
      by (destruct a; [|contradiction]; unfold at_token; cbn in Ha |- *; now rewrite Ha).
    rewrite <- app_assoc. unfold d. rewrite skip_decorator_one by (try apply decorators_head; assumption). fold d.
    rewrite IH; [|rewrite length_app in Hf; unfold d in Hf; cbn in Hf; lia|assumption].
    rewrite length_app. f_equal. lia.
Qed.
