(* ===== verification/SyntaxViewProps.v ===== *)
(** * Correctness of the views over the syntax tree

    The indexed accessors enumerate the children; the doc
    lines of a declaration are the longest run of doc comments above it; the name of a declaration is
    found behind any decorators. *)

From S2P Require Import Prelude Lexer SyntaxTree ParserCore ParserSteps Parser ParserFacts SyntaxView SyntaxViewFacts.

(** ** Examples *)

Definition lines_of (ls : list string) : cstr := List.concat (map (fun s => lit s ++ [NL]) ls).

(** The top-level declarations of a source, with what is read off each. *)
Definition top_decls {A} (f : SyntaxNode -> SyntaxNode -> A) (src : cstr) : option (list A) :=
  match parse_source src 0 with
  | Some res =>
      match as_node (pr_syntax_root res) with
      | Some r => Some (map (f r) (child_nodes r))
      | None => None
      end
  | None => None
  end.

Definition docs_of (src : cstr) (r d : SyntaxNode) : SynText * list SynText :=
  (sv_decl_name src (Some d), map fst (sv_decl_doc_lines src (Some r) (Some d) 512)).

Definition documented : cstr :=
  lines_of ["//! module"; ""; "/// one"; "/// two"; "@allow(slug) /* why */ f :: proc() { }"; "/// lost"; ""; "g :: 2"]%string.

Definition texts (l : list string) : list SynText := map (fun s => Some (lit s)) l.

(** The first declaration of [documented], for the witnesses. *)
Definition first_decl (src : cstr) : SyntaxElem :=
  match parse_source src 0 with
  | Some res => nth 1 (subtrees (pr_syntax_root res)) (SE_TOKEN (mkLeaf TOK_EOF 0 0 0 0))
  | None => SE_TOKEN (mkLeaf TOK_EOF 0 0 0 0)
  end.

Definition parse_of (src : cstr) : ParseResult :=
  match parse_source src 0 with Some res => res | None => mkResult [] (SE_TOKEN (mkLeaf TOK_EOF 0 0 0 0)) end.

(** ** Lemmas *)

Lemma subtree_lines src root d :
  tree_shape src root -> In d (subtrees root) -> Forall (fun l => lf_line l <> 0%Z) (leaves d).
Proof.
  intros [_ _ _ Hk] Hd. destruct (subtree_leaves _ _ Hd) as (a & b & E). rewrite E in Hk.
  apply Forall_app in Hk as [_ Hk]. apply Forall_app in Hk as [Hk _].
  eapply Forall_impl; [|exact Hk]. intros l [H _]. lia.
Qed.

(** ** Theorems *)

(** C40: the indexed accessors enumerate the children: the count is the number of child nodes that
    qualify, the accessor at an index below it gives that child in source order, and one at any other
    index gives an absent view; the deep count is the number of nodes below. *)
Theorem accessors_enumerate v :
  let all := child_nodes v in
  let sel kind := filter (of_kind kind) all in
  let exprs := filter (fun n => is_expr_kind (nd_kind n)) all in
  let types := filter (fun n => is_type_kind (nd_kind n)) all in
  sv_node_count v = List.length all /\ (forall i, sv_node_at v i = nth_error all i) /\
  (forall k, sv_count v k = List.length (sel k)) /\ (forall k i, sv_child_at v k i = nth_error (sel k) i) /\
  (forall i, sv_expr_at v i = nth_error exprs i) /\
  sv_type_count v = List.length types /\ (forall i, sv_type_at v i = nth_error types i) /\
  S (sv_node_count_deep v) = List.length (post_ids (elem_of v)).
Proof.
  cbv zeta. unfold sv_node_count, sv_count, sv_type_count, sv_node_at, sv_child_at, sv_expr_at, sv_type_at, sv_node_count_deep.
  rewrite <- (filter_any (child_nodes v)) at 1. rewrite !count_nodes_filter, (node_count_deep_ids (elem_of v)).
  repeat apply conj; intros; try reflexivity;
    rewrite ?scan_nodes_filter, ?count_nodes_filter, ?filter_any, ?Nat.sub_0_r by lia; reflexivity.
Qed.

(** C35: the doc lines of a declaration are exactly the comments attached to it: of the comments of
    the file that start before the declaration, the longest run of [///] comments on consecutive
    lines that ends on the line above the declaration's first token, in source order, each without
    its marker and one space after it, and with its line. Comments the parser put inside the
    preceding declaration count too. Only the last 1024 comments are looked at, and at most [max]
    lines are returned. *)
Theorem decl_docs_exact src g res root d n first max :
  ~ In NUL src -> (Z.of_nat (List.length src) < 2 ^ 32)%Z -> parse_source src g = Some res ->
  as_node (pr_syntax_root res) = Some root -> In d (subtrees (pr_syntax_root res)) -> as_node d = Some n ->
  hd_error (leaves d) = Some first ->
  exists pre run,
    last_n 1024 (filter (comment_before (lf_offset first)) (leaves (pr_syntax_root res))) = pre ++ run /\
    attached src run (lf_line first) /\ detached src pre run (lf_line first) /\
    sv_decl_doc_lines src (Some root) (Some n) max =
      firstn max (map (fun l => (doc_strip (leaf_text src l) 3, lf_line l)) run).
Proof.
  intros Hn Hl H Er Hd Ed Hf. pose proof (parse_shape _ _ _ Hn Hl H) as S.
  pose proof (subtree_lines _ _ _ S Hd) as Hk. destruct (leaves d) as [|x ls] eqn:El; [discriminate|].
  injection Hf as ->.
  assert (Hs : elem_spans (pr_syntax_root res)).
  { destruct (sh_spans _ _ S) as [E|Hs]; [|exact Hs]. destruct (subtree_leaves _ _ Hd) as (a & b & E').
    rewrite E, El in E'. now destruct a. }
  pose proof (elem_start _ (subtree_spans _ _ Hd Hs)) as Eo. rewrite El in Eo. cbn [run_start] in Eo.
  assert (En : nd_offset n = lf_offset first) by (rewrite <- Eo; destruct d; [discriminate|]; now injection Ed as <-).
  assert (Ep : sv_first_token_pos (Some n) = leaf_pos first).
  { unfold sv_first_token_pos, token_pos_edge. rewrite (elem_of_node _ _ Ed), pos_edge_leaves by now rewrite El.
    destruct d; [discriminate|]. now rewrite El. }
  unfold sv_decl_doc_lines. rewrite Ep, En, (elem_of_node _ _ Er).
  rewrite (gather_filter _ _ _ _ _ _ _ (sh_order _ _ S) Hs).
  change (@nil CmtLeaf) with (last_n CV_DOC_GATHER_CAP (@nil CmtLeaf)). rewrite keep_recent_last by (unfold CV_DOC_GATHER_CAP; lia).
  cbn [app]. set (cs := filter _ _). unfold last_n at 2 3 4. rewrite !length_map. rewrite skipn_map.
  change CV_DOC_GATHER_CAP with 1024. fold (last_n 1024 cs).
  destruct (doc_run_spec src (last_n 1024 cs) (lf_line first)) as (pre & run & E & Hr & Ha & Hdt).
  exists pre, run. refine (conj E (conj Ha (conj Hdt _))). cbn [cv_line leaf_pos].
  destruct (Z.eqb_spec (lf_line first) 0) as [E0|_]; [now inversion Hk|].
  rewrite Hr, E, skipn_map, length_map, length_app.
  replace (List.length pre + List.length run - List.length run) with (List.length pre) by lia.
  rewrite skipn_app_exact, map_map. reflexivity.
Qed.

Lemma decl_docs_exact_witness :
  exists root n first pre run,
    as_node (pr_syntax_root (parse_of documented)) = Some root /\
    as_node (first_decl documented) = Some n /\ hd_error (leaves (first_decl documented)) = Some first /\
    last_n 1024 (filter (comment_before (lf_offset first)) (leaves (pr_syntax_root (parse_of documented)))) =
      pre ++ run /\
    attached documented run (lf_line first) /\ detached documented pre run (lf_line first) /\
    sv_decl_doc_lines documented (Some root) (Some n) 512 =
      firstn 512 (map (fun l => (doc_strip (leaf_text documented l) 3, lf_line l)) run).
Proof.
  edestruct (fun root n first => decl_docs_exact documented 0 (parse_of documented) root (first_decl documented) n first 512)
    as (pre & run & H).
  - vm_compute. intuition discriminate.
  - vm_compute. reflexivity.
  - vm_compute. reflexivity.
  - vm_compute. reflexivity.
  - vm_compute. right. left. reflexivity.
  - vm_compute. reflexivity.
  - vm_compute. reflexivity.
  - eexists _, _, _, pre, run. split; [vm_compute; reflexivity|]. split; [vm_compute; reflexivity|].
    split; [vm_compute; reflexivity|]. exact H.
Defined.

(** C38: the name of a declaration is read behind its decorators: after any comments, any number of
    decorators with or without parenthesized arguments, nested parentheses included, and comments
    between all of these, the name is the identifier that follows, and the declaration opens a tuple
    group exactly when a parenthesis comes right after it. *)
Theorem name_behind_decorators src k i o len c0 ds name rest :
  Forall is_comment c0 -> decorators ds -> lf_kind name = TOK_IDENT ->
  let v := Some (mkNode k i o len (c0 ++ ds ++ SE_TOKEN name :: rest)) in
  sv_decl_name_index v = Some (List.length (c0 ++ ds)) /\ sv_decl_name src v = Some (leaf_text src name) /\
  sv_has_group_paren v = match rest with SE_TOKEN l :: _ => TokenKind_beq (lf_kind l) TOK_LPAREN | _ => false end.
Proof.
  intros H0 Hd Hk v.
  assert (Hi : sv_decl_name_index v = Some (List.length (c0 ++ ds))).
  { unfold v, sv_decl_name_index, decl_name_cursor, SV_SKIP_COMMENTS. cbn [nd_children fst snd].
    rewrite skip_comments_clean by (try apply decorators_head; assumption).
    rewrite skip_decorators_all by (try assumption; rewrite !length_app; lia).
    unfold at_token. cbn [fst snd]. rewrite Hk, length_app. reflexivity. }
  assert (Ht : nth_error (c0 ++ ds ++ SE_TOKEN name :: rest) (List.length (c0 ++ ds)) = Some (SE_TOKEN name))
    by (rewrite app_assoc, nth_error_app2, Nat.sub_diag; reflexivity || lia).
  refine (conj Hi _). unfold sv_decl_name, sv_has_group_paren. unfold v in *. rewrite Hi. unfold token_at. cbn [nd_children].
  rewrite Ht. split; [reflexivity|].
  rewrite app_assoc, nth_error_app2, Nat.sub_succ_l, Nat.sub_diag by lia. cbn [nth_error].
  now destruct rest as [|[l|] rest].
Qed.

Lemma name_behind_decorators_witness :
  let tok k := SE_TOKEN (mkLeaf k 0 1 1 1) in
  let ds := [tok TOK_AT; tok TOK_IDENT; tok TOK_LPAREN; tok TOK_IDENT; tok TOK_RPAREN] in
  let v := Some (mkNode SN_CONST_DECL 0 0 9 ([] ++ ds ++ SE_TOKEN (mkLeaf TOK_IDENT 6 1 1 7) :: [tok TOK_LPAREN])) in
  sv_decl_name_index v = Some 5 /\ sv_decl_name (lit "@a(b) p(x)") v = Some (lit "p") /\ sv_has_group_paren v = true.
Proof.
  cbv zeta.
  apply (name_behind_decorators (lit "@a(b) p(x)") SN_CONST_DECL 0 0 9 []
           [SE_TOKEN (mkLeaf TOK_AT 0 1 1 1); SE_TOKEN (mkLeaf TOK_IDENT 0 1 1 1); SE_TOKEN (mkLeaf TOK_LPAREN 0 1 1 1);
            SE_TOKEN (mkLeaf TOK_IDENT 0 1 1 1); SE_TOKEN (mkLeaf TOK_RPAREN 0 1 1 1)]
           (mkLeaf TOK_IDENT 6 1 1 7) [SE_TOKEN (mkLeaf TOK_LPAREN 0 1 1 1)]); [constructor| |reflexivity].
  apply (decs_cons (SE_TOKEN (mkLeaf TOK_AT 0 1 1 1)) [] (mkLeaf TOK_IDENT 0 1 1 1) []
           [SE_TOKEN (mkLeaf TOK_LPAREN 0 1 1 1); SE_TOKEN (mkLeaf TOK_IDENT 0 1 1 1); SE_TOKEN (mkLeaf TOK_RPAREN 0 1 1 1)]
           [] []); try constructor; cbn; try discriminate.
  apply (args_group (SE_TOKEN (mkLeaf TOK_LPAREN 0 1 1 1)) [SE_TOKEN (mkLeaf TOK_IDENT 0 1 1 1)]
           (SE_TOKEN (mkLeaf TOK_RPAREN 0 1 1 1))); [reflexivity| |reflexivity].
  repeat constructor; discriminate.
Defined.

(** A declaration does not end the doc run: comments on consecutive lines are attached to the
    declaration under them even when another declaration stands between them, so a doc line can
    belong to two declarations. *)
Theorem docs_cross_declarations :
  top_decls (docs_of (lines_of ["/// a"; "x :: 1; /// b"; "y :: 2"]%string))
    (lines_of ["/// a"; "x :: 1; /// b"; "y :: 2"]%string) =
  Some [(Some (lit "x"), texts ["a"]%string); (Some (lit "y"), texts ["a"; "b"]%string)].
Proof. vm_compute. reflexivity. Qed.
