(* ===== verification/TokenCategory.v ===== *)
(** * Token classification for editors ([src/syntax/token_category.c], [src/arche_syntax_tokens.c])

    The category of a token leaf, from its kind and from the kind of the node that contains it, and
    the listing of the classified leaves of a tree. *)

From S2P Require Import Prelude Lexer SyntaxTree ParserCore ParserSteps Parser ParserFacts SyntaxView SyntaxViewFacts.

(** ** Definitions *)

Definition ident_role (parent : SyntaxNodeKind) : string :=
  match parent with
  | SN_TYPE_REF | SN_TYPE_ARRAY | SN_TYPE_SHAPED_ARRAY | SN_TYPE_TUPLE | SN_TYPE_HANDLE | SN_ALLOC_TYPE
  | SN_TYPE_DEF_NAME => "type"
  | SN_FUNC_DEF_NAME | SN_CALLEE_NAME => "function"
  | SN_FIELD_NAME => "property"
  | SN_PARAM_NAME => "parameter"
  | _ => "variable"
  end.

Definition arche_token_category (kind : TokenKind) (parent : SyntaxNodeKind) : option string :=
  match kind with
  | TOK_ARCHETYPE | TOK_PROC | TOK_MAP | TOK_SYSTEM | TOK_QUERY | TOK_FUNC | TOK_LET | TOK_FOR | TOK_IF
  | TOK_ELSE | TOK_IN | TOK_BREAK | TOK_CONTINUE | TOK_MOVE | TOK_OWN | TOK_COPY | TOK_ALIAS | TOK_RETURN
  | TOK_USE | TOK_EACH_FIELD | TOK_HASH_MODULE | TOK_HASH_FILE | TOK_HASH_FOREIGN | TOK_HASH_LINK
  | TOK_HASH_CFLAGS | TOK_HASH_RUN | TOK_RUN | TOK_ENUM | TOK_MATCH | TOK_POLICY =>
      Some "keyword"%string
  | TOK_NUMBER => Some "number"%string
  | TOK_STRING | TOK_CHAR_LIT => Some "string"%string
  | TOK_COMMENT => Some "comment"%string
  | TOK_IDENT => Some (ident_role parent)
  | TOK_EQ | TOK_PLUS_EQ | TOK_MINUS_EQ | TOK_STAR_EQ | TOK_SLASH_EQ | TOK_PERCENT_EQ | TOK_PLUS | TOK_MINUS
  | TOK_STAR | TOK_SLASH | TOK_PERCENT | TOK_EQ_EQ | TOK_BANG_EQ | TOK_LT | TOK_GT | TOK_LT_EQ | TOK_GT_EQ
  | TOK_ARROW | TOK_BANG | TOK_QUESTION | TOK_AT | TOK_AMP_AMP | TOK_PIPE_PIPE | TOK_PIPE_GT =>
      Some "operator"%string
  | TOK_LPAREN | TOK_RPAREN | TOK_LBRACE | TOK_RBRACE | TOK_LBRACKET | TOK_RBRACKET | TOK_COMMA | TOK_DOT
  | TOK_DOTDOTDOT | TOK_COLON | TOK_SEMI =>
      Some "punctuation"%string
  | TOK_EOF | TOK_ERROR | TOK_HASH => None
  end.

(** The classified leaves of a node, in source order. *)
Fixpoint walk (e : SyntaxElem) : list (Leaf * string) :=
  match e with
  | SE_TOKEN _ => []
  | SE_NODE k _ _ _ cs =>
      flat_map (fun e' =>
        match e' with
        | SE_NODE _ _ _ _ _ => walk e'
        | SE_TOKEN l => match arche_token_category (lf_kind l) k with Some cat => [(l, cat)] | None => [] end
        end) cs
  end.

(** The line printed for a leaf. *)
Definition token_line (p : Leaf * string) : cstr :=
  show_int (lf_offset (fst p)) ++ " "%char :: show_int (lf_length (fst p)) ++ " "%char ::
  show_int (lf_line (fst p)) ++ " "%char :: show_int (lf_column (fst p)) ++ " "%char :: lit (snd p) ++ [NL].

Definition syntax_tokens (src : cstr) : option cstr :=
  option_map (fun res => flat_map token_line (walk (pr_syntax_root res))) (parse_source src 0).

(** ** Theorems *)

Definition highlighted (l : Leaf) : bool := negb (TokenKind_beq (lf_kind l) TOK_HASH).

Lemma category_some k parent :
  k <> TOK_EOF -> k <> TOK_ERROR -> k <> TOK_HASH -> exists cat, arche_token_category k parent = Some cat.
Proof. destruct k; try contradiction; cbn; eauto. Qed.

Lemma walk_leaves e :
  Forall leaf_ok (leaves e) ->
  match e with SE_TOKEN _ => True | _ => map fst (walk e) = filter highlighted (leaves e) end.
Proof.
  induction e as [l|k i o n cs IH] using syntax_elem_ind; intros Hl; [exact Logic.I|]. cbn in Hl |- *.
  induction IH as [|e cs He _ IH]; [reflexivity|]. cbn in Hl |- *. apply Forall_app in Hl as [Hl1 Hl2].
  rewrite map_app, filter_app, IH by assumption. f_equal. destruct e as [l|]; [|now apply He].
  apply Forall_inv in Hl1. destruct Hl1 as (_ & H1 & H2). cbn. unfold highlighted.
  destruct (TokenKind_beq (lf_kind l) TOK_HASH) eqn:E; cbn.
  - apply kind_beq_eq in E. now rewrite E.
  - apply kind_beq_neq in E. now destruct (category_some _ k H1 H2 E) as [cat ->].
Qed.

(** C39: the highlighter covers the source: of a parsed tree it lists, in source order and without
    overlap, every leaf but the bare hash signs, each exactly once, whatever node it stands in. *)
Theorem highlighter_complete src g res :
  ~ In NUL src -> (Z.of_nat (List.length src) < 2 ^ 32)%Z -> parse_source src g = Some res ->
  map fst (walk (pr_syntax_root res)) = filter highlighted (leaves (pr_syntax_root res)) /\
  in_order 0 (leaves (pr_syntax_root res)) (Z.of_nat (List.length src)).
Proof.
  intros Hn Hl H. destruct (parse_shape _ _ _ Hn Hl H) as [(n & En) Ho _ Hk]. split; [|exact Ho].
  apply walk_leaves in Hk. destruct (pr_syntax_root res); [discriminate|exact Hk].
Qed.

Definition colored : cstr := lit "f :: proc() { x = g(y) + 1; } # // end".

Lemma highlighter_complete_witness :
  exists res, parse_source colored 0 = Some res /\
    map fst (walk (pr_syntax_root res)) = filter highlighted (leaves (pr_syntax_root res)) /\
    in_order 0 (leaves (pr_syntax_root res)) (Z.of_nat (List.length colored)).
Proof.
  assert (H : exists res, parse_source colored 0 = Some res) by (eexists; vm_compute; reflexivity).
  destruct H as [res H]. exists res. split; [exact H|].
  apply (highlighter_complete colored 0); [vm_compute; intuition discriminate|vm_compute; reflexivity|exact H].
Defined.
