(* ===== verification/Doctest.v ===== *)
(** * Doc tests: extraction of the examples ([src/doctest/doctest_extract.c], [src/doctest/doctest_extract.h])

    Fenced blocks of doc comments and of Markdown files. A [(pointer, length)] slice is its text. The
    result [None] of [doctest_extract] is a read through a null pointer; running out of memory is left
    out. Running the examples ([src/doctest/doctest_run.c]) is not modelled. *)

From S2P Require Import Prelude Lexer SyntaxTree SyntaxView.

(** ** Data *)

Definition DOCTEST_NORMAL : Z := 0.
Definition DOCTEST_NO_RUN : Z := Z.shiftl 1 0.
Definition DOCTEST_COMPILE_FAIL : Z := Z.shiftl 1 1.
Definition DOCTEST_SHOULD_PANIC : Z := Z.shiftl 1 2.
Definition DOCTEST_IGNORE : Z := Z.shiftl 1 3.

Record DoctestExample : Type := mkExample {
  ex_code : cstr;
  ex_decl_name : cstr;
  ex_src_line : Z;
  ex_has_main : bool;
  ex_flags : Z
}.

Definition MAX_DOC_LINES : nat := 512.

(** A doc line with its line in the source. *)
Definition Line : Type := SynText * Z.

(** A null slice has length 0. *)
Definition text_of (t : SynText) : cstr := match t with Some s => s | None => [] end.

(** ** Fences *)

Definition TAB : ascii := "009"%char.
Definition CR : ascii := "013"%char.
Definition TICK : ascii := "096"%char.
Definition COMMA : ascii := ","%char.

Fixpoint drop_while (p : ascii -> bool) (s : cstr) : cstr :=
  match s with
  | c :: r => if p c then drop_while p r else s
  | [] => []
  end.

Fixpoint take_until (stop : ascii) (s : cstr) : cstr * cstr :=
  match s with
  | c :: r => if Ascii.eqb c stop then ([], s) else let (a, b) := take_until stop r in (c :: a, b)
  | [] => ([], [])
  end.

Definition is_space_tab (c : ascii) : bool := Ascii.eqb c " " || Ascii.eqb c TAB.

Definition trim (s : cstr) : cstr :=
  rev (drop_while (fun c => is_space_tab c || Ascii.eqb c CR) (rev (drop_while is_space_tab s))).

Definition slice_eq (s : cstr) (word : string) : bool := cstr_eqb s (lit word).

Definition flag_of (tok : cstr) : Z :=
  if slice_eq tok "no_run" then DOCTEST_NO_RUN
  else if slice_eq tok "compile_fail" then DOCTEST_COMPILE_FAIL
  else if slice_eq tok "should_panic" then DOCTEST_SHOULD_PANIC
  else if slice_eq tok "ignore" then DOCTEST_IGNORE
  else 0%Z.

(** The loop over the flags; every round takes a comma, so the length of the text is fuel enough. *)
Fixpoint parse_flags (fuel : nat) (info : cstr) (f : Z) : Z :=
  match fuel, info with
  | S fuel', c :: r =>
      let (tok, rest) := take_until COMMA (if Ascii.eqb c COMMA then r else info) in
      parse_flags fuel' rest (Z.lor f (flag_of (trim tok)))
  | _, _ => f
  end.

Definition three_ticks : cstr := [TICK; TICK; TICK].

(** The flags of an opening fence; [None] is the result 0. *)
Definition parse_fence_open (s : cstr) : option Z :=
  match trim s with
  | a :: b :: c :: t =>
      if negb (Ascii.eqb a TICK) || negb (Ascii.eqb b TICK) || negb (Ascii.eqb c TICK) then None
      else
        let info := trim t in
        let (first, rest) := take_until COMMA info in
        if slice_eq (trim first) "arche" then Some (parse_flags (List.length rest) rest 0) else None
  | _ => None
  end.

Definition is_fence_close (s : cstr) : bool := cstr_eqb (trim s) three_ticks.

(** ** Examples *)

(** [strncmp(q, word, strlen(word)) == 0] *)
Fixpoint has_prefix (word s : cstr) : bool :=
  match word, s with
  | [], _ => true
  | a :: w, b :: t => Ascii.eqb a b && has_prefix w t
  | _ :: _, [] => false
  end.

Definition is_entry (q : cstr) : bool :=
  has_prefix (lit "main :: proc") q || has_prefix (lit "main::proc") q || has_prefix (lit "#run") q.

(** The outer loop and its advance to the next line as one walk: [at_line] says that a line starts
    here. *)
Fixpoint has_main_from (at_line : bool) (p : cstr) : bool :=
  match p with
  | [] => false
  | c :: r => (at_line && is_entry (drop_while is_space_tab p)) || has_main_from (Ascii.eqb c NL) r
  end.

Definition code_has_main (code : cstr) : bool := has_main_from true code.

(** The lines before the closing fence and those after it. *)
Fixpoint find_close (lines : list Line) : option (list Line * list Line) :=
  match lines with
  | [] => None
  | l :: ls =>
      if is_fence_close (text_of (fst l)) then Some ([], ls)
      else match find_close ls with Some (body, rest) => Some (l :: body, rest) | None => None end
  end.

Definition join_lines (body : list Line) : cstr := flat_map (fun l => text_of (fst l) ++ [NL]) body.

Definition examples_push (code name : cstr) (src_line : Z) (has_main : bool) (flags : Z) : DoctestExample :=
  mkExample code name src_line has_main flags.

(** Every round takes a line, so the number of lines is fuel enough. *)
Fixpoint scan_fences (fuel : nat) (lines : list Line) (name : cstr) : list DoctestExample :=
  match fuel, lines with
  | S f, l :: ls =>
      match parse_fence_open (text_of (fst l)) with
      | None => scan_fences f ls name
      | Some flags =>
          match find_close ls with
          | None => []
          | Some (body, rest) =>
              let code := join_lines body in
              examples_push code name (snd l) (code_has_main code) flags :: scan_fences f rest name
          end
      end
  | _, _ => []
  end.

(** The name in a buffer of [bufsz] bytes. *)
Definition decl_name_of (src : cstr) (decl : SyntaxNode) (bufsz : nat) : cstr :=
  let n := match sv_child decl SN_FUNC_DEF_NAME with
           | Some n => Some n
           | None => sv_child decl SN_TYPE_DEF_NAME
           end in
  let t := match sv_text src n with Some t => Some t | None => sv_token src decl TOK_IDENT end in
  match firstn (bufsz - 1) (text_of t) with
  | [] => lit "item"
  | name => name
  end.

(** A [for] loop that collects examples; [None] stops it. *)
Fixpoint for_each (body : nat -> option (list DoctestExample)) (ixs : list nat) : option (list DoctestExample) :=
  match ixs with
  | [] => Some []
  | i :: ixs' =>
      match body i with
      | None => None
      | Some a => match for_each body ixs' with Some b => Some (a ++ b) | None => None end
      end
  end.

Definition is_decl_kind (k : SyntaxNodeKind) : bool :=
  negb ((kind_value k <? kind_value SN_WORLD_DECL) || (kind_value SN_USE_DECL <? kind_value k)).

(** The body of the inner loop. *)
Definition decl_examples (src : cstr) (rv decl : SyntaxNode) : list DoctestExample :=
  if negb (is_decl_kind (nd_kind decl)) then []
  else
    match sv_decl_doc_lines src (Some rv) (Some decl) MAX_DOC_LINES with
    | [] => []
    | lines => scan_fences (List.length lines) lines (decl_name_of src decl 256)
    end.

Definition doctest_extract (src : cstr) (root : SyntaxView) : option (list DoctestExample) :=
  match root with
  | None => Some []
  | Some rv =>
      for_each (fun i =>
        match sv_node_at rv i with
        | None => None
        | Some top =>
            let is_region := SyntaxNodeKind_beq (nd_kind top) SN_REGION in
            let inner := if is_region then sv_node_count top else 1 in
            for_each (fun j =>
              match (if is_region then sv_node_at top j else Some top) with
              | None => None
              | Some decl => Some (decl_examples src rv decl)
              end) (seq 0 inner)
        end) (seq 0 (sv_node_count rv))
  end.

(** ** Markdown *)

(** The text up to each newline, and the text after the last one. *)
Fixpoint md_lines (p : cstr) : list cstr :=
  match p with
  | [] => [[]]
  | c :: r =>
      if Ascii.eqb c NL then [] :: md_lines r
      else match md_lines r with l :: ls => (c :: l) :: ls | [] => [[c]] end
  end.

(** The lines with their numbers, from [lineno]. *)
Fixpoint number_lines (lineno : Z) (ls : list cstr) : list Line :=
  match ls with [] => [] | l :: ls' => (Some l, lineno) :: number_lines (lineno + 1) ls' end.

Definition doctest_extract_markdown (src : cstr) : list DoctestExample :=
  let lines := number_lines 1 (md_lines src) in
  scan_fences (List.length lines) lines (lit "doc").
