(* ===== verification/DoctestProps.v ===== *)
(** * Correctness of the extraction of doc tests

    Extraction visits exactly the documented declarations and never reads through a null pointer; a
    Markdown file yields exactly its fenced blocks. *)

From S2P Require Import Prelude Lexer SyntaxTree ParserCore Parser SyntaxView SyntaxViewFacts Doctest.

(** ** Specifications *)

(** The declarations whose docs are read: the top-level nodes, and those one level inside a region. *)
Definition listed_decls (rv : SyntaxNode) : list SyntaxNode :=
  filter (fun d => is_decl_kind (nd_kind d))
    (flat_map (fun top => if SyntaxNodeKind_beq (nd_kind top) SN_REGION then child_nodes top else [top]) (child_nodes rv)).

Inductive DocFlag : Type := NoRun | CompileFail | ShouldPanic | Ignore.

Definition flag_name (f : DocFlag) : string :=
  match f with
  | NoRun => "no_run" | CompileFail => "compile_fail" | ShouldPanic => "should_panic" | Ignore => "ignore"
  end.

Definition flag_value (f : DocFlag) : Z :=
  match f with NoRun => 1 | CompileFail => 2 | ShouldPanic => 4 | Ignore => 8 end.

(** A Markdown document: lines of text and fenced blocks. *)
Inductive Block : Type :=
| Prose (line : cstr)
| Fence (flags : list DocFlag) (body : list cstr).

Definition opener (flags : list DocFlag) : cstr :=
  three_ticks ++ lit "arche" ++ flat_map (fun f => COMMA :: lit (flag_name f)) flags.

Definition block_lines (b : Block) : list cstr :=
  match b with
  | Prose l => [l]
  | Fence flags body => opener flags :: body ++ [three_ticks]
  end.

Definition doc_lines (doc : list Block) : list cstr := flat_map block_lines doc.

Definition render (ls : list cstr) : cstr := flat_map (fun l => l ++ [NL]) ls.

(** Text lines do not open a fence and block lines do not close one. *)
Definition block_ok (b : Block) : Prop :=
  match b with
  | Prose l => ~ In NL l /\ parse_fence_open l = None
  | Fence _ body => Forall (fun l => ~ In NL l /\ is_fence_close l = false) body
  end.

(** An entry point is declared at the start of a line. *)
Definition line_is_entry (l : cstr) : bool := is_entry (drop_while is_space_tab l).

(** The examples of a document that starts at a line. *)
Fixpoint examples_in (name : cstr) (lineno : Z) (doc : list Block) : list DoctestExample :=
  match doc with
  | [] => []
  | Prose _ :: doc' => examples_in name (lineno + 1) doc'
  | Fence flags body :: doc' =>
      mkExample (render body) name lineno (existsb line_is_entry body)
        (fold_left Z.lor (map flag_value flags) 0%Z) ::
      examples_in name (lineno + 2 + Z.of_nat (List.length body)) doc'
  end.

(** ** Lemmas *)

Lemma for_each_some f (g : nat -> list DoctestExample) ixs :
  Forall (fun i => f i = Some (g i)) ixs -> for_each f ixs = Some (flat_map g ixs).
Proof. induction 1 as [|i ixs H _ IH]; cbn; [reflexivity|]. now rewrite H, IH. Qed.

(** A loop over the children by index is a loop over the list of the child nodes. *)
Lemma for_each_children v (f : SyntaxNode -> option (list DoctestExample)) (g : SyntaxNode -> list DoctestExample) :
  (forall d, In d (child_nodes v) -> f d = Some (g d)) ->
  for_each (fun i => match sv_node_at v i with None => None | Some d => f d end) (seq 0 (sv_node_count v)) =
  Some (flat_map g (child_nodes v)).
Proof.
  intros H. unfold sv_node_count. rewrite count_nodes_filter. cbn [Nat.add]. rewrite filter_any.
  change (flat_map _ (nd_children v)) with (child_nodes v).
  rewrite (for_each_some _ (fun i => match nth_error (child_nodes v) i with Some d => g d | None => [] end)).
  - f_equal. generalize (child_nodes v). clear. induction l as [|d l IH]; [reflexivity|].
    cbn [List.length seq flat_map nth_error]. f_equal. rewrite <- seq_shift, flat_map_concat_map, map_map, <- flat_map_concat_map.
    exact IH.
  - apply Forall_forall. intros i Hi. apply in_seq in Hi. unfold sv_node_at. rewrite scan_nodes_filter by lia.
    rewrite filter_any, Nat.sub_0_r. change (flat_map _ (nd_children v)) with (child_nodes v).
    destruct (nth_error (child_nodes v) i) as [d|] eqn:E; [apply H, (nth_error_In _ _ E)|].
    apply nth_error_None in E. lia.
Qed.

Lemma md_lines_render ls : Forall (fun l => ~ In NL l) ls -> md_lines (render ls) = ls ++ [[]].
Proof.
  induction 1 as [|l ls Hl _ IH]; [reflexivity|]. cbn [render flat_map]. fold (render ls).
  rewrite <- app_assoc. cbn [app]. induction l as [|c l IHl]; cbn; [now rewrite IH|].
  destruct (Ascii.eqb_spec c NL) as [->|_]; [destruct Hl; now left|].
  rewrite IHl; [reflexivity|]. intros H. apply Hl. now right.
Qed.

Lemma has_prefix_line w l r : ~ In NL w -> has_prefix w (l ++ NL :: r) = has_prefix w l.
Proof.
  revert l; induction w as [|a w IH]; intros l H; [reflexivity|].
  assert (Hw : ~ In NL w) by (intros Hi; apply H; now right).
  destruct l as [|b l]; cbn; [|now rewrite IH].
  destruct (Ascii.eqb_spec a NL) as [->|_]; [destruct H; now left|reflexivity].
Qed.

Lemma drop_line l r : drop_while is_space_tab (l ++ NL :: r) = drop_while is_space_tab l ++ NL :: r.
Proof. induction l as [|c l IH]; cbn; [reflexivity|]. now case_if. Qed.

Lemma line_entry l r : is_entry (drop_while is_space_tab (l ++ NL :: r)) = line_is_entry l.
Proof.
  unfold line_is_entry, is_entry. rewrite drop_line.
  rewrite !has_prefix_line by (cbn; intuition discriminate). reflexivity.
Qed.

Lemma has_main_render ls : Forall (fun l => ~ In NL l) ls -> code_has_main (render ls) = existsb line_is_entry ls.
Proof.
  unfold code_has_main. induction 1 as [|l ls Hl _ IH]; [reflexivity|]. cbn [render flat_map existsb]. fold (render ls).
  rewrite <- app_assoc. cbn [app]. rewrite <- IH, <- (line_entry l (render ls)).
  assert (Hmid : forall m, ~ In NL m -> has_main_from false (m ++ NL :: render ls) = has_main_from true (render ls)).
  { induction m as [|c m IHm]; intros Hm; cbn; [reflexivity|].
    destruct (Ascii.eqb_spec c NL) as [->|_]; [destruct Hm; now left|]. apply IHm. intros H. apply Hm. now right. }
  destruct l as [|c l]; cbn [app has_main_from andb]; [reflexivity|].
  destruct (Ascii.eqb_spec c NL) as [->|_]; [destruct Hl; now left|]. rewrite Hmid; [reflexivity|].
  intros H. apply Hl. now right.
Qed.

(** *** Fences *)

Definition flag_list (flags : list DocFlag) : cstr := flat_map (fun f => COMMA :: lit (flag_name f)) flags.

Lemma trim_solid s :
  match s with c :: _ => is_space_tab c = false | [] => True end ->
  match rev s with c :: _ => is_space_tab c || Ascii.eqb c CR = false | [] => True end -> trim s = s.
Proof.
  intros H1 H2. unfold trim. replace (drop_while is_space_tab s) with s by (destruct s; cbn; [reflexivity|now rewrite H1]).
  destruct (rev s) as [|c r] eqn:E; cbn; [now rewrite <- (rev_involutive s), E|].
  rewrite H2, <- (rev_involutive s), E. reflexivity.
Qed.

Lemma flag_list_end p flags c r :
  rev p = c :: r -> is_space_tab c || Ascii.eqb c CR = false ->
  match rev (p ++ flag_list flags) with c :: _ => is_space_tab c || Ascii.eqb c CR = false | [] => True end.
Proof.
  intros Hp Hc. induction flags as [|f flags _] using rev_ind; [now rewrite app_nil_r, Hp|].
  unfold flag_list. rewrite flat_map_app, !rev_app_distr. now destruct f.
Qed.

Lemma take_until_word w rest :
  ~ In COMMA w -> match rest with c :: _ => c = COMMA | [] => True end -> take_until COMMA (w ++ rest) = (w, rest).
Proof.
  intros Hw Hr. induction w as [|c w IH]; cbn.
  - destruct rest as [|c rest]; [reflexivity|]. subst c. reflexivity.
  - destruct (Ascii.eqb_spec c COMMA) as [->|_]; [destruct Hw; now left|].
    rewrite IH; [reflexivity|]. intros H. apply Hw. now right.
Qed.

Lemma flag_list_head flags : match flag_list flags with c :: _ => c = COMMA | [] => True end.
Proof. now destruct flags. Qed.

Lemma flag_of_name f : flag_of (trim (lit (flag_name f))) = flag_value f.
Proof. now destruct f. Qed.

Lemma parse_flags_list flags : forall fuel acc,
  List.length (flag_list flags) <= fuel ->
  parse_flags fuel (flag_list flags) acc = fold_left Z.lor (map flag_value flags) acc.
Proof.
  induction flags as [|f flags IH]; intros fuel acc Hf; [now destruct fuel|].
  destruct fuel as [|fuel]; [cbn in Hf; lia|]. cbn [flag_list flat_map app parse_flags]. fold (flag_list flags).
  rewrite Ascii.eqb_refl, take_until_word, flag_of_name; [|now destruct f; cbn; intuition discriminate|apply flag_list_head].
  cbn [map fold_left]. apply IH. cbn [flag_list flat_map] in Hf. rewrite length_app in Hf. cbn in Hf.
  change (flat_map _ flags) with (flag_list flags) in Hf. lia.
Qed.

Lemma opener_opens flags : parse_fence_open (opener flags) = Some (fold_left Z.lor (map flag_value flags) 0%Z).
Proof.
  unfold parse_fence_open, opener. fold (flag_list flags).
  rewrite app_assoc, trim_solid; [|reflexivity|now eapply flag_list_end]. cbn [app three_ticks lit list_ascii_of_string].
  rewrite Ascii.eqb_refl. cbn [negb orb]. change (_ :: _ :: _ :: _ :: _ :: flag_list flags) with (lit "arche" ++ flag_list flags).
  rewrite trim_solid; [|reflexivity|now eapply flag_list_end].
  rewrite take_until_word; [|cbn; intuition discriminate|apply flag_list_head].
  change (slice_eq (trim (lit "arche")) "arche") with true. cbn [andb]. now rewrite parse_flags_list.
Qed.

Lemma number_lines_app n a b :
  number_lines n (a ++ b) = number_lines n a ++ number_lines (n + Z.of_nat (List.length a)) b.
Proof.
  revert n; induction a as [|x a IH]; intros n; cbn [app number_lines List.length]; [f_equal; lia|].
  rewrite IH. cbn [app]. do 3 f_equal. lia.
Qed.

Lemma find_close_body n body rest :
  Forall (fun l => is_fence_close l = false) body ->
  find_close (number_lines n (body ++ [three_ticks]) ++ rest) = Some (number_lines n body, rest).
Proof.
  intros H. revert n. induction H as [|l body Hl _ IH]; intros n; [reflexivity|].
  cbn [number_lines app find_close fst text_of]. now rewrite Hl, IH.
Qed.

Lemma find_close_none n body : Forall (fun l => is_fence_close l = false) body -> find_close (number_lines n body) = None.
Proof. intros H. revert n. induction H as [|l body Hl _ IH]; intros n; [reflexivity|].
  cbn [number_lines app find_close fst text_of]. now rewrite Hl, IH. Qed.

Lemma join_number n body : join_lines (number_lines n body) = render body.
Proof. revert n; induction body as [|l body IH]; intros n; [reflexivity|]. cbn. now rewrite <- app_assoc, IH, <- app_assoc. Qed.

(** The end of a document: nothing but text, or a fence that is never closed. *)
Definition no_block (ls : list cstr) : Prop :=
  Forall (fun l => parse_fence_open l = None) ls \/
  exists flags body, ls = opener flags :: body /\ Forall (fun l => is_fence_close l = false) body.

Lemma scan_no_block name fuel n ls : no_block ls -> scan_fences fuel (number_lines n ls) name = [].
Proof.
  intros [H|(flags & body & -> & H)].
  - revert fuel n. induction H as [|l ls Hl _ IH]; intros [|fuel] n; try reflexivity.
    cbn [number_lines scan_fences fst text_of]. now rewrite Hl, IH.
  - destruct fuel; [reflexivity|]. cbn [number_lines scan_fences fst text_of]. now rewrite opener_opens, find_close_none.
Qed.

Lemma scan_document name doc tail : Forall block_ok doc -> no_block tail -> forall fuel n,
  List.length (doc_lines doc ++ tail) <= fuel ->
  scan_fences fuel (number_lines n (doc_lines doc ++ tail)) name = examples_in name n doc.
Proof.
  intros Hd Ht. induction Hd as [|b doc Hb _ IH]; intros fuel n Hf; [now apply scan_no_block|].
  destruct b as [l|flags body]; cbn [doc_lines flat_map block_lines app] in *; fold (doc_lines doc) in *;
    (destruct fuel as [|fuel]; [cbn in Hf; lia|]); cbn [number_lines scan_fences fst text_of].
  - destruct Hb as [_ Hb]. rewrite Hb. apply IH. cbn in Hf. lia.
  - rewrite opener_opens. cbn in Hb. rewrite <- app_assoc, number_lines_app, find_close_body.
    2: { eapply Forall_impl; [|exact Hb]. cbn. tauto. }
    cbn [examples_in snd]. rewrite join_number, has_main_render by (eapply Forall_impl; [|exact Hb]; cbn; tauto).
    unfold examples_push. f_equal. rewrite length_app. cbn [List.length].
    replace (n + 1 + Z.of_nat (List.length body + 1))%Z with (n + 2 + Z.of_nat (List.length body))%Z by lia.
    apply IH. cbn in Hf. rewrite !length_app in Hf. rewrite length_app. cbn in Hf. lia.
Qed.

Lemma no_block_last tail : no_block tail -> no_block (tail ++ [[]]).
Proof.
  intros [H|(flags & body & -> & H)]; [left|right; exists flags, (body ++ [[]]); split; [reflexivity|]];
    (apply Forall_app; split; [assumption|]); repeat constructor.
Qed.

Lemma opener_no_nl flags : ~ In NL (opener flags).
Proof.
  unfold opener. rewrite app_assoc. intros H. apply in_app_or in H as [H|H]; [cbn in H; intuition discriminate|].
  apply in_flat_map in H as (f & _ & H). destruct f; cbn in H; intuition discriminate.
Qed.

Lemma doc_lines_no_nl doc : Forall block_ok doc -> Forall (fun l => ~ In NL l) (doc_lines doc).
Proof.
  induction 1 as [|b doc Hb _ IH]; [constructor|]. cbn. apply Forall_app. split; [|exact IH].
  destruct b as [l|flags body]; cbn in Hb |- *; [now repeat constructor|].
  constructor; [apply opener_no_nl|]. apply Forall_app. split; [eapply Forall_impl; [|exact Hb]; cbn; tauto|].
  repeat constructor. cbn. intuition discriminate.
Qed.

(** ** Theorems *)

(** C36: a Markdown file yields exactly its fenced blocks: writing out any document of text lines and
    arche fences, with an unclosed fence at its end or not, and extracting gives one example per
    block, in order, with the block's lines as its code, the line of its opening fence, the union of
    its flags, and [has_main] exactly when a line of the block declares an entry point. *)
Theorem markdown_roundtrip doc tail :
  Forall block_ok doc -> no_block tail -> Forall (fun l => ~ In NL l) tail ->
  doctest_extract_markdown (render (doc_lines doc ++ tail)) = examples_in (lit "doc") 1 doc.
Proof.
  intros Hd Ht Hn. unfold doctest_extract_markdown. rewrite md_lines_render
    by (apply Forall_app; split; [now apply doc_lines_no_nl|exact Hn]).
  rewrite <- app_assoc. apply scan_document; [exact Hd|now apply no_block_last|].
  generalize 1%Z. induction (doc_lines doc ++ tail ++ [[]]) as [|l ls IH]; intros n; cbn; [lia|].
  specialize (IH (n + 1)%Z). lia.
Qed.

Definition guide : list Block :=
  [Prose (lit "# Guide"); Fence [NoRun; ShouldPanic] [lit "x := 1;"; lit " main :: proc() { }"]; Prose [];
   Fence [] []].

Lemma markdown_roundtrip_witness :
  doctest_extract_markdown (render (doc_lines guide ++ [opener []; lit "lost"])) =
  [mkExample (render [lit "x := 1;"; lit " main :: proc() { }"]) (lit "doc") 2 true 5;
   mkExample [] (lit "doc") 7 false 0].
Proof.
  apply (markdown_roundtrip guide [opener []; lit "lost"]).
  - repeat constructor; cbn; intuition discriminate.
  - right. exists [], [lit "lost"]. split; [reflexivity|repeat constructor].
  - repeat constructor; cbn; intuition discriminate.
Defined.

(** C37: extraction always succeeds: on every tree it reads through no null pointer and returns the
    examples of the listed declarations, in source order - those at the top level and those one level
    inside a region - and nothing else. *)
Theorem extraction_visits_declarations src rv :
  doctest_extract src (Some rv) = Some (flat_map (decl_examples src rv) (listed_decls rv)).
Proof.
  unfold doctest_extract, listed_decls.
  set (g := fun top => flat_map (decl_examples src rv)
                         (if SyntaxNodeKind_beq (nd_kind top) SN_REGION then child_nodes top else [top])).
  rewrite (for_each_children rv _ g).
  - f_equal. unfold g. induction (child_nodes rv) as [|top tops IH]; [reflexivity|]. cbn [flat_map].
    rewrite filter_app, flat_map_app, IH. f_equal. generalize (if SyntaxNodeKind_beq (nd_kind top) SN_REGION then child_nodes top else [top]).
    induction l as [|d l IHl]; [reflexivity|]. cbn [flat_map filter]. rewrite IHl. unfold decl_examples at 1.
    destruct (is_decl_kind (nd_kind d)) eqn:E; [|reflexivity]. cbn [flat_map negb]. unfold decl_examples at 2. now rewrite E.
  - intros top _. unfold g. destruct (SyntaxNodeKind_beq (nd_kind top) SN_REGION).
    + exact (for_each_children top (fun d => Some (decl_examples src rv d)) (decl_examples src rv) (fun d _ => eq_refl)).
    + reflexivity.
Qed.

Definition tested : cstr :=
  render [lit "/// ```arche"; lit "/// x := 1;"; lit "/// ```"; lit "f :: proc() { }"; [];
          lit "/// ```arche,no_run"; lit "/// y := 2;"; lit "/// ```"; lit "@allow(slug) n :: 3"].

(** The example of a decorated constant is filed under the decorator: with its name looked up as
    the first identifier of the declaration, a documented [@allow(slug) n :: 3] gives an example of
    [allow], although the declaration's name, decorators skipped, is [n]. *)
Theorem decorated_example_misnamed :
  exists res root,
    parse_source tested 0 = Some res /\ as_node (pr_syntax_root res) = Some root /\
    doctest_extract tested (Some root) =
      Some [mkExample (render [lit "x := 1;"]) (lit "f") 1 false 0;
            mkExample (render [lit "y := 2;"]) (lit "allow") 6 false 1] /\
    sv_decl_name tested (sv_node_at root 1) = Some (lit "n").
Proof.
  eexists. eexists. split; [vm_compute; reflexivity|]. split; [reflexivity|]. split; vm_compute; reflexivity.
Qed.
