(* ===== verification/WasmEncode.v ===== *)
(** * The WebAssembly binary writer ([src/codegen/wasm_encode.c], [src/codegen/wasm_encode.h])

    The growable byte buffer, the two LEB128 encoders, the module builder and the serializer.
    A byte is a [Z] in 0..255; an [int] argument is converted to the encoder's 64-bit type. *)

From S2P Require Import Prelude.

(** ** Buffer *)

(** [wb_data] is [data[0 .. len)]; [wb_cap] is the allocated size. *)
Record WasmBuf : Type := mkBuf {
  wb_data : list Z;
  wb_cap : Z
}.

Definition wb_len (b : WasmBuf) : Z := Z.of_nat (List.length (wb_data b)).

Definition wb_init : WasmBuf := mkBuf [] 0.

(** [while (cap < need) cap *= 2;]: 64 doublings reach any size below 2^64. *)
Fixpoint grow (fuel : nat) (cap need : Z) : Z :=
  match fuel with
  | O => cap
  | S f => if (cap <? need)%Z then grow f (cap * 2) need else cap
  end.

Definition wb_reserve (b : WasmBuf) (extra : Z) : WasmBuf :=
  if (wb_len b + extra <=? wb_cap b)%Z then b
  else mkBuf (wb_data b) (grow 64 (if (wb_cap b =? 0)%Z then 64 else wb_cap b * 2) (wb_len b + extra)).

Definition wb_byte (b : WasmBuf) (v : Z) : WasmBuf :=
  let b1 := wb_reserve b 1 in mkBuf (wb_data b1 ++ [v]) (wb_cap b1).

Definition wb_bytes (b : WasmBuf) (p : list Z) : WasmBuf :=
  match p with
  | [] => b
  | _ => let b1 := wb_reserve b (Z.of_nat (List.length p)) in mkBuf (wb_data b1 ++ p) (wb_cap b1)
  end.

(** The loop of [wb_u]. *)
Fixpoint wb_u_loop (fuel : nat) (b : WasmBuf) (v : Z) : WasmBuf :=
  match fuel with
  | O => b
  | S f =>
      let byte := Z.land v 127 in
      let v' := Z.shiftr v 7 in
      if (v' =? 0)%Z then wb_byte b byte
      else wb_u_loop f (wb_byte b (Z.lor byte 128)) v'
  end.

(** Unsigned LEB128 of a [uint64_t]: at most 10 bytes. *)
Definition wb_u (b : WasmBuf) (v : Z) : WasmBuf := wb_u_loop 10 b (u64 v).

(** The loop of [wb_i]; [>>=] on a signed value is arithmetic. *)
Fixpoint wb_i_loop (fuel : nat) (b : WasmBuf) (v : Z) : WasmBuf :=
  match fuel with
  | O => b
  | S f =>
      let byte := Z.land v 127 in
      let v' := Z.shiftr v 7 in
      let sign := negb (Z.land byte 64 =? 0)%Z in
      if ((v' =? 0)%Z && negb sign) || ((v' =? -1)%Z && sign) then wb_byte b byte
      else wb_i_loop f (wb_byte b (Z.lor byte 128)) v'
  end.

Definition wb_i (b : WasmBuf) (v : Z) : WasmBuf := wb_i_loop 10 b (s64 v).

Definition bytes_of (s : cstr) : list Z := map code s.

Definition wb_name (b : WasmBuf) (s : cstr) : WasmBuf :=
  wb_bytes (wb_u b (Z.of_nat (List.length s))) (bytes_of s).

(** ** Module *)

Definition WT_I32 : Z := 127.
Definition WK_FUNC : Z := 0.
Definition WK_MEM : Z := 2.
Definition WK_GLOBAL : Z := 3.

Record WasmModule : Type := mkModule {
  wm_types : WasmBuf;
  wm_type_count : Z;
  wm_imports : WasmBuf;
  wm_import_count : Z;
  wm_funcs : WasmBuf;
  wm_func_count : Z;
  wm_globals : WasmBuf;
  wm_global_count : Z;
  wm_exports : WasmBuf;
  wm_export_count : Z;
  wm_codes : WasmBuf;
  wm_code_count : Z;
  wm_datas : WasmBuf;
  wm_data_count : Z;
  wm_has_memory : bool;
  wm_mem_min : Z;
  wm_has_start : bool;
  wm_start_idx : Z
}.

Definition wm_init : WasmModule :=
  mkModule wb_init 0 wb_init 0 wb_init 0 wb_init 0 wb_init 0 wb_init 0 wb_init 0 false 0 false 0.

(** [for (i = 0; i < n; i++) wb_byte(b, p[i]);] *)
Definition wb_each (b : WasmBuf) (p : list Z) : WasmBuf := fold_left wb_byte p b.

(** A function type; the result is its index. *)
Definition wm_type (m : WasmModule) (params results : list Z) : Z * WasmModule :=
  let b := wb_byte (wm_types m) 96 in
  let b := wb_each (wb_u b (Z.of_nat (List.length params))) params in
  let b := wb_each (wb_u b (Z.of_nat (List.length results))) results in
  (wm_type_count m,
   mkModule b (wm_type_count m + 1) (wm_imports m) (wm_import_count m) (wm_funcs m) (wm_func_count m)
     (wm_globals m) (wm_global_count m) (wm_exports m) (wm_export_count m) (wm_codes m) (wm_code_count m)
     (wm_datas m) (wm_data_count m) (wm_has_memory m) (wm_mem_min m) (wm_has_start m) (wm_start_idx m)).

(** An imported function of module [env]; the result is its function index. *)
Definition wm_import_func (m : WasmModule) (field : cstr) (type_idx : Z) : Z * WasmModule :=
  let b := wb_name (wb_name (wm_imports m) (lit "env")) field in
  let b := wb_u (wb_byte b 0) type_idx in
  (wm_import_count m,
   mkModule (wm_types m) (wm_type_count m) b (wm_import_count m + 1) (wm_funcs m) (wm_func_count m)
     (wm_globals m) (wm_global_count m) (wm_exports m) (wm_export_count m) (wm_codes m) (wm_code_count m)
     (wm_datas m) (wm_data_count m) (wm_has_memory m) (wm_mem_min m) (wm_has_start m) (wm_start_idx m)).

Definition wm_memory (m : WasmModule) (min_pages : Z) : WasmModule :=
  mkModule (wm_types m) (wm_type_count m) (wm_imports m) (wm_import_count m) (wm_funcs m) (wm_func_count m)
    (wm_globals m) (wm_global_count m) (wm_exports m) (wm_export_count m) (wm_codes m) (wm_code_count m)
    (wm_datas m) (wm_data_count m) true min_pages (wm_has_start m) (wm_start_idx m).

(** An [i32] global with a constant initial value; the result is its index. *)
Definition wm_global_i32 (m : WasmModule) (is_mutable : bool) (init : Z) : Z * WasmModule :=
  let b := wb_byte (wb_byte (wm_globals m) WT_I32) (if is_mutable then 1 else 0) in
  let b := wb_byte (wb_i (wb_byte b 65) init) 11 in
  (wm_global_count m,
   mkModule (wm_types m) (wm_type_count m) (wm_imports m) (wm_import_count m) (wm_funcs m) (wm_func_count m)
     b (wm_global_count m + 1) (wm_exports m) (wm_export_count m) (wm_codes m) (wm_code_count m)
     (wm_datas m) (wm_data_count m) (wm_has_memory m) (wm_mem_min m) (wm_has_start m) (wm_start_idx m)).

(** A defined function; the result is its function index, after the imports known so far. *)
Definition wm_func (m : WasmModule) (type_idx : Z) : Z * WasmModule :=
  ((wm_import_count m + wm_func_count m)%Z,
   mkModule (wm_types m) (wm_type_count m) (wm_imports m) (wm_import_count m)
     (wb_u (wm_funcs m) type_idx) (wm_func_count m + 1)
     (wm_globals m) (wm_global_count m) (wm_exports m) (wm_export_count m) (wm_codes m) (wm_code_count m)
     (wm_datas m) (wm_data_count m) (wm_has_memory m) (wm_mem_min m) (wm_has_start m) (wm_start_idx m)).

(** The local groups [(count, type)] and the body of a function. *)
Definition code_entry (locals : list (Z * Z)) (body : list Z) : WasmBuf :=
  wb_bytes
    (fold_left (fun b l => wb_byte (wb_u b (fst l)) (snd l)) locals
       (wb_u wb_init (Z.of_nat (List.length locals)))) body.

Definition wm_code (m : WasmModule) (locals : list (Z * Z)) (body : list Z) : WasmModule :=
  let fb := code_entry locals body in
  let b := wb_bytes (wb_u (wm_codes m) (wb_len fb)) (wb_data fb) in
  mkModule (wm_types m) (wm_type_count m) (wm_imports m) (wm_import_count m) (wm_funcs m) (wm_func_count m)
    (wm_globals m) (wm_global_count m) (wm_exports m) (wm_export_count m) b (wm_code_count m + 1)
    (wm_datas m) (wm_data_count m) (wm_has_memory m) (wm_mem_min m) (wm_has_start m) (wm_start_idx m).

(** The body [wm_export_func], [wm_export_mem] and [wm_export_global] share. *)
Definition wm_export (m : WasmModule) (name : cstr) (kind idx : Z) : WasmModule :=
  let b := wb_u (wb_byte (wb_name (wm_exports m) name) kind) idx in
  mkModule (wm_types m) (wm_type_count m) (wm_imports m) (wm_import_count m) (wm_funcs m) (wm_func_count m)
    (wm_globals m) (wm_global_count m) b (wm_export_count m + 1) (wm_codes m) (wm_code_count m)
    (wm_datas m) (wm_data_count m) (wm_has_memory m) (wm_mem_min m) (wm_has_start m) (wm_start_idx m).

Definition wm_export_func (m : WasmModule) (name : cstr) (func_idx : Z) : WasmModule := wm_export m name WK_FUNC func_idx.
Definition wm_export_mem (m : WasmModule) (name : cstr) : WasmModule := wm_export m name WK_MEM 0.
Definition wm_export_global (m : WasmModule) (name : cstr) (gi : Z) : WasmModule := wm_export m name WK_GLOBAL gi.

Definition wm_start (m : WasmModule) (func_idx : Z) : WasmModule :=
  mkModule (wm_types m) (wm_type_count m) (wm_imports m) (wm_import_count m) (wm_funcs m) (wm_func_count m)
    (wm_globals m) (wm_global_count m) (wm_exports m) (wm_export_count m) (wm_codes m) (wm_code_count m)
    (wm_datas m) (wm_data_count m) (wm_has_memory m) (wm_mem_min m) true func_idx.

(** [(int32_t)offset]. *)
Definition s32 (z : Z) : Z := (let u := z mod 2 ^ 32 in if u <? 2 ^ 31 then u else u - 2 ^ 32)%Z.

Definition wm_data (m : WasmModule) (offset : Z) (bytes : list Z) : WasmModule :=
  let b := wb_byte (wb_byte (wm_datas m) 0) 65 in
  let b := wb_byte (wb_i b (s32 offset)) 11 in
  let b := wb_bytes (wb_u b (Z.of_nat (List.length bytes))) bytes in
  mkModule (wm_types m) (wm_type_count m) (wm_imports m) (wm_import_count m) (wm_funcs m) (wm_func_count m)
    (wm_globals m) (wm_global_count m) (wm_exports m) (wm_export_count m) (wm_codes m) (wm_code_count m)
    b (wm_data_count m + 1) (wm_has_memory m) (wm_mem_min m) (wm_has_start m) (wm_start_idx m).

(** ** Serialization *)

(** The section [id] with the content [s]. *)
Definition emit_section (out : WasmBuf) (id : Z) (s : WasmBuf) : WasmBuf :=
  wb_bytes (wb_u (wb_byte out id) (wb_len s)) (wb_data s).

Definition emit_vec_section (out : WasmBuf) (id count : Z) (content : WasmBuf) : WasmBuf :=
  if (count =? 0)%Z then out
  else emit_section out id (wb_bytes (wb_u wb_init count) (wb_data content)).

Definition wasm_header : list Z := [0; 97; 115; 109; 1; 0; 0; 0]%Z.

Definition wm_finish (m : WasmModule) : WasmBuf :=
  let out := wb_bytes wb_init wasm_header in
  let out := emit_vec_section out 1 (wm_type_count m) (wm_types m) in
  let out := emit_vec_section out 2 (wm_import_count m) (wm_imports m) in
  let out := emit_vec_section out 3 (wm_func_count m) (wm_funcs m) in
  let out :=
    if wm_has_memory m then
      emit_section out 5 (wb_u (wb_byte (wb_u wb_init 1) 0) (wm_mem_min m))
    else out in
  let out := emit_vec_section out 6 (wm_global_count m) (wm_globals m) in
  let out := emit_vec_section out 7 (wm_export_count m) (wm_exports m) in
  let out := if wm_has_start m then emit_section out 8 (wb_u wb_init (wm_start_idx m)) else out in
  let out := emit_vec_section out 10 (wm_code_count m) (wm_codes m) in
  emit_vec_section out 11 (wm_data_count m) (wm_datas m).
