(* ===== verification/WasmProps.v ===== *)
(** * Correctness of the WebAssembly writer

    Reference decoders for LEB128 and for the module format; every module that the builder's
    operations reach is serialized to bytes that decode to exactly the entries added. *)

From S2P Require Import Prelude WasmEncode.

(** ** Reference decoders *)

Definition D (A : Type) : Type := list Z -> option (A * list Z).

Definition d_ret {A} (a : A) : D A := fun l => Some (a, l).
Definition d_bind {A B} (d : D A) (k : A -> D B) : D B :=
  fun l => match d l with Some (a, l') => k a l' | None => None end.

Declare Scope decoder_scope.
Delimit Scope decoder_scope with decoder.
Notation "x <~ d ;; k" := (d_bind d (fun x => k)) (at level 81, d at next level, right associativity) : decoder_scope.
#[local] Open Scope decoder_scope.

Definition d_byte : D Z := fun l => match l with b :: r => Some (b, r) | [] => None end.

Definition d_tag (v : Z) : D unit := b <~ d_byte ;; if (b =? v)%Z then d_ret tt else (fun _ => None).

(** The unsigned and signed LEB128 values, as the format defines them. *)
Fixpoint d_u (l : list Z) : option (Z * list Z) :=
  match l with
  | [] => None
  | b :: r =>
      if (b <? 128)%Z then Some (b, r)
      else match d_u r with Some (v, r') => Some (b - 128 + 128 * v, r')%Z | None => None end
  end.

Fixpoint d_s (l : list Z) : option (Z * list Z) :=
  match l with
  | [] => None
  | b :: r =>
      if (b <? 64)%Z then Some (b, r)
      else if (b <? 128)%Z then Some (b - 128, r)%Z
      else match d_s r with Some (v, r') => Some (b - 128 + 128 * v, r')%Z | None => None end
  end.

Definition d_take (n : nat) : D (list Z) :=
  fun l => if (n <=? List.length l)%nat then Some (firstn n l, skipn n l) else None.

Fixpoint d_many {A} (d : D A) (n : nat) : D (list A) :=
  match n with
  | O => d_ret []
  | S m => a <~ d ;; r <~ d_many d m ;; d_ret (a :: r)
  end.

Definition d_vec {A} (d : D A) : D (list A) := n <~ d_u ;; d_many d (Z.to_nat n).

Definition d_name : D (list Z) := n <~ d_u ;; d_take (Z.to_nat n).

(** [d] must use the whole input. *)
Definition d_all {A} (d : D A) (l : list Z) : option A :=
  match d l with Some (a, []) => Some a | _ => None end.

(** ** The abstract module: the entries, in order *)

Record Module_ : Type := mkMod {
  mod_types : list (list Z * list Z);
  mod_imports : list (list Z * Z);
  mod_funcs : list Z;
  mod_globals : list (bool * Z);
  mod_exports : list (list Z * (Z * Z));
  mod_codes : list (list (Z * Z) * list Z);
  mod_datas : list (Z * list Z);
  mod_memory : option Z;
  mod_start : option Z
}.

Definition d_type : D (list Z * list Z) := _ <~ d_tag 96 ;; p <~ d_vec d_byte ;; q <~ d_vec d_byte ;; d_ret (p, q).

Definition d_import : D (list Z * Z) :=
  m <~ d_name ;;
  f <~ d_name ;;
  _ <~ d_tag 0 ;;
  t <~ d_u ;;
  if list_eq_dec Z.eq_dec m (bytes_of (lit "env")) then d_ret (f, t) else (fun _ => None).

Definition d_global : D (bool * Z) :=
  _ <~ d_tag WT_I32 ;; m <~ d_byte ;; _ <~ d_tag 65 ;; v <~ d_s ;; _ <~ d_tag 11 ;; d_ret ((m =? 1)%Z, v).

Definition d_export : D (list Z * (Z * Z)) := n <~ d_name ;; k <~ d_byte ;; i <~ d_u ;; d_ret (n, (k, i)).

Definition d_local : D (Z * Z) := n <~ d_u ;; t <~ d_byte ;; d_ret (n, t).

(** A function's entry is a sized block: the locals, then the body to the end of the block. *)
Definition d_code : D (list (Z * Z) * list Z) :=
  block <~ d_name ;; (fun r => match d_vec d_local block with Some (ls, body) => Some ((ls, body), r) | None => None end).

Definition d_data : D (Z * list Z) :=
  _ <~ d_tag 0 ;; _ <~ d_tag 65 ;; o <~ d_s ;; _ <~ d_tag 11 ;; b <~ d_name ;; d_ret (o, b).

Definition d_memory : D Z := n <~ d_u ;; _ <~ d_tag 0 ;; m <~ d_u ;; if (n =? 1)%Z then d_ret m else (fun _ => None).

(** The sections [(id, content)], up to the end of the input. *)
Fixpoint d_sections (fuel : nat) (l : list Z) : option (list (Z * list Z)) :=
  match l, fuel with
  | [], _ => Some []
  | _, O => None
  | id :: r, S f =>
      match d_name r with
      | Some (content, r') => option_map (cons (id, content)) (d_sections f r')
      | None => None
      end
  end.

Fixpoint section (id : Z) (secs : list (Z * list Z)) : option (list Z) :=
  match secs with
  | [] => None
  | (i, c) :: r => if (i =? id)%Z then Some c else section id r
  end.

Definition vec_section {A} (d : D A) (id : Z) (secs : list (Z * list Z)) : option (list A) :=
  match section id secs with None => Some [] | Some c => d_all (d_vec d) c end.

Definition one_section {A} (d : D A) (id : Z) (secs : list (Z * list Z)) : option (option A) :=
  match section id secs with None => Some None | Some c => option_map Some (d_all d c) end.

(** Section ids come in strictly increasing order, as the format requires. *)
Fixpoint ascending (last : Z) (secs : list (Z * list Z)) : bool :=
  match secs with
  | [] => true
  | (i, _) :: r => (last <? i)%Z && ascending i r
  end.

Definition decode_module (l : list Z) : option Module_ :=
  if list_eq_dec Z.eq_dec (firstn 8 l) wasm_header then
    match d_sections (List.length l) (skipn 8 l) with
    | None => None
    | Some secs =>
        if ascending 0 secs then
          match vec_section d_type 1 secs, vec_section d_import 2 secs, vec_section d_u 3 secs,
                one_section d_memory 5 secs, vec_section d_global 6 secs, vec_section d_export 7 secs,
                one_section d_u 8 secs, vec_section d_code 10 secs, vec_section d_data 11 secs with
          | Some t, Some i, Some f, Some m, Some g, Some e, Some s, Some c, Some d =>
              Some (mkMod t i f g e c d m s)
          | _, _, _, _, _, _, _, _, _ => None
          end
        else None
    end
  else None.

(** ** What the builder's operations add *)

Inductive build : WasmModule -> Module_ -> Prop :=
| bd_init : build wm_init (mkMod [] [] [] [] [] [] [] None None)
| bd_type m a ps rs :
    build m a -> (Z.of_nat (List.length ps) < 2 ^ 31)%Z -> (Z.of_nat (List.length rs) < 2 ^ 31)%Z ->
    build (snd (wm_type m ps rs))
      (mkMod (mod_types a ++ [(ps, rs)]) (mod_imports a) (mod_funcs a) (mod_globals a) (mod_exports a)
         (mod_codes a) (mod_datas a) (mod_memory a) (mod_start a))
| bd_import m a field t :
    build m a -> (Z.of_nat (List.length field) < 2 ^ 32)%Z -> (0 <= t < 2 ^ 31)%Z ->
    build (snd (wm_import_func m field t))
      (mkMod (mod_types a) (mod_imports a ++ [(bytes_of field, t)]) (mod_funcs a) (mod_globals a) (mod_exports a)
         (mod_codes a) (mod_datas a) (mod_memory a) (mod_start a))
| bd_func m a t :
    build m a -> (0 <= t < 2 ^ 31)%Z ->
    build (snd (wm_func m t))
      (mkMod (mod_types a) (mod_imports a) (mod_funcs a ++ [t]) (mod_globals a) (mod_exports a)
         (mod_codes a) (mod_datas a) (mod_memory a) (mod_start a))
| bd_global m a mu v :
    build m a -> (- 2 ^ 31 <= v < 2 ^ 31)%Z ->
    build (snd (wm_global_i32 m mu v))
      (mkMod (mod_types a) (mod_imports a) (mod_funcs a) (mod_globals a ++ [(mu, v)]) (mod_exports a)
         (mod_codes a) (mod_datas a) (mod_memory a) (mod_start a))
| bd_export m a name k i :
    build m a -> (Z.of_nat (List.length name) < 2 ^ 32)%Z -> (0 <= i < 2 ^ 31)%Z ->
    build (wm_export m name k i)
      (mkMod (mod_types a) (mod_imports a) (mod_funcs a) (mod_globals a) (mod_exports a ++ [(bytes_of name, (k, i))])
         (mod_codes a) (mod_datas a) (mod_memory a) (mod_start a))
| bd_code m a ls body :
    build m a -> (Z.of_nat (List.length ls) < 2 ^ 31)%Z -> Forall (fun l => 0 <= fst l < 2 ^ 32)%Z ls ->
    (Z.of_nat (List.length (wb_data (code_entry ls body))) < 2 ^ 64)%Z ->
    build (wm_code m ls body)
      (mkMod (mod_types a) (mod_imports a) (mod_funcs a) (mod_globals a) (mod_exports a)
         (mod_codes a ++ [(ls, body)]) (mod_datas a) (mod_memory a) (mod_start a))
| bd_data m a off bytes :
    build m a -> (0 <= off < 2 ^ 32)%Z -> (Z.of_nat (List.length bytes) < 2 ^ 64)%Z ->
    build (wm_data m off bytes)
      (mkMod (mod_types a) (mod_imports a) (mod_funcs a) (mod_globals a) (mod_exports a)
         (mod_codes a) (mod_datas a ++ [(s32 off, bytes)]) (mod_memory a) (mod_start a))
| bd_memory m a pages :
    build m a -> (0 <= pages < 2 ^ 31)%Z ->
    build (wm_memory m pages)
      (mkMod (mod_types a) (mod_imports a) (mod_funcs a) (mod_globals a) (mod_exports a)
         (mod_codes a) (mod_datas a) (Some pages) (mod_start a))
| bd_start m a i :
    build m a -> (0 <= i < 2 ^ 31)%Z ->
    build (wm_start m i)
      (mkMod (mod_types a) (mod_imports a) (mod_funcs a) (mod_globals a) (mod_exports a)
         (mod_codes a) (mod_datas a) (mod_memory a) (Some i)).

(** ** Buffers *)

Lemma reserve_data b n : wb_data (wb_reserve b n) = wb_data b.
Proof. unfold wb_reserve. now case_if. Qed.

Lemma byte_data b v : wb_data (wb_byte b v) = wb_data b ++ [v].
Proof. unfold wb_byte. cbn. now rewrite reserve_data. Qed.

Lemma bytes_data b p : wb_data (wb_bytes b p) = wb_data b ++ p.
Proof. destruct p; cbn; [now rewrite app_nil_r|now rewrite reserve_data]. Qed.

Lemma each_data b p : wb_data (wb_each b p) = wb_data b ++ p.
Proof.
  unfold wb_each. revert b; induction p as [|v p IH]; intros b; cbn; [now rewrite app_nil_r|].
  now rewrite IH, byte_data, <- app_assoc.
Qed.

(** The allocation always holds the data. *)
Definition fits (b : WasmBuf) : Prop := (wb_len b <= wb_cap b)%Z.

(** ** LEB128 *)

Fixpoint leb_u_loop (fuel : nat) (v : Z) : list Z :=
  match fuel with
  | O => []
  | S f => if (v <? 128)%Z then [v] else (v mod 128 + 128)%Z :: leb_u_loop f (v / 128)
  end.

Fixpoint leb_s_loop (fuel : nat) (v : Z) : list Z :=
  match fuel with
  | O => []
  | S f =>
      if (-64 <=? v)%Z && (v <? 64)%Z then [(v mod 128)%Z]
      else (v mod 128 + 128)%Z :: leb_s_loop f (v / 128)
  end.

Definition leb_u (v : Z) : list Z := leb_u_loop 10 v.
Definition leb_s (v : Z) : list Z := leb_s_loop 10 v.

Lemma low7 v : Z.land v 127 = (v mod 128)%Z.
Proof. exact (Z.land_ones v 7 ltac:(lia)). Qed.

Lemma shift7 v : Z.shiftr v 7 = (v / 128)%Z.
Proof. exact (Z.shiftr_div_pow2 v 7 ltac:(lia)). Qed.

(** A property of the seven-bit values, checked on each of them. *)
Lemma seven_bits (P : Z -> bool) v : forallb (fun n => P (Z.of_nat n)) (seq 0 128) = true -> P (v mod 128)%Z = true.
Proof.
  intros H. rewrite forallb_forall in H. pose proof (Z.mod_pos_bound v 128 ltac:(lia)) as B.
  specialize (H (Z.to_nat (v mod 128))). rewrite Z2Nat.id in H by lia. apply H, in_seq. lia.
Qed.

Lemma set_high v : Z.lor (v mod 128) 128 = (v mod 128 + 128)%Z.
Proof. apply Z.eqb_eq, (seven_bits (fun x => Z.lor x 128 =? x + 128)%Z). reflexivity. Qed.

Lemma sign_bit v : negb (Z.land (v mod 128) 64 =? 0)%Z = (64 <=? v mod 128)%Z.
Proof.
  apply Bool.eqb_prop, (seven_bits (fun x => Bool.eqb (negb (Z.land x 64 =? 0)%Z) (64 <=? x)%Z)). reflexivity.
Qed.

Lemma wb_u_loop_data fuel b v : (0 <= v)%Z -> wb_data (wb_u_loop fuel b v) = wb_data b ++ leb_u_loop fuel v.
Proof.
  revert b v; induction fuel as [|f IH]; intros b v Hv; cbn [wb_u_loop leb_u_loop]; [now rewrite app_nil_r|].
  rewrite low7, shift7, set_high. pose proof (Z.div_mod v 128). pose proof (Z.mod_pos_bound v 128).
  destruct (Z.eqb_spec (v / 128) 0) as [E|E], (Z.ltb_spec v 128) as [L|L]; try lia.
  - rewrite byte_data. do 2 f_equal. lia.
  - rewrite IH by lia. now rewrite byte_data, <- app_assoc.
Qed.

Lemma wb_u_data b v : wb_data (wb_u b v) = wb_data b ++ leb_u (u64 v).
Proof. apply wb_u_loop_data. unfold u64. apply Z.mod_pos_bound. lia. Qed.

Lemma wb_i_loop_data fuel b v : wb_data (wb_i_loop fuel b v) = wb_data b ++ leb_s_loop fuel v.
Proof.
  revert b v; induction fuel as [|f IH]; intros b v; cbn [wb_i_loop leb_s_loop]; [now rewrite app_nil_r|].
  rewrite low7, shift7, set_high, sign_bit. pose proof (Z.div_mod v 128). pose proof (Z.mod_pos_bound v 128).
  assert (E : ((v / 128 =? 0)%Z && negb (64 <=? v mod 128)%Z || (v / 128 =? -1)%Z && (64 <=? v mod 128)%Z) =
              ((-64 <=? v)%Z && (v <? 64)%Z)).
  { apply eq_true_iff_eq. rewrite orb_true_iff, !andb_true_iff, negb_true_iff, !Z.eqb_eq, !Z.leb_le, Z.leb_gt, Z.ltb_lt. lia. }
  rewrite E. case_if; [now rewrite byte_data|]. rewrite IH. now rewrite byte_data, <- app_assoc.
Qed.

Lemma wb_i_data b v : wb_data (wb_i b v) = wb_data b ++ leb_s (s64 v).
Proof. apply wb_i_loop_data. Qed.

Lemma leb_u_loop_decode fuel v r :
  (0 <= v < 128 ^ Z.of_nat fuel)%Z -> fuel <> 0 -> d_u (leb_u_loop fuel v ++ r) = Some (v, r).
Proof.
  revert v; induction fuel as [|f IH]; intros v Hv Hf; [contradiction|]. cbn [leb_u_loop].
  destruct (Z.ltb_spec v 128) as [L|L].
  - cbn. destruct (Z.ltb_spec v 128); [reflexivity|lia].
  - pose proof (Z.div_mod v 128). pose proof (Z.mod_pos_bound v 128). cbn [app d_u].
    destruct (Z.ltb_spec (v mod 128 + 128) 128); [lia|]. rewrite Nat2Z.inj_succ, Z.pow_succ_r in Hv by lia.
    rewrite IH; [do 2 f_equal; lia|split; [lia|apply Z.div_lt_upper_bound; lia]|intros ->; cbn in Hv; lia].
Qed.

Lemma leb_s_loop_decode fuel v r :
  (- 64 * 128 ^ Z.of_nat fuel <= v < 64 * 128 ^ Z.of_nat fuel)%Z -> d_s (leb_s_loop (S fuel) v ++ r) = Some (v, r).
Proof.
  revert v; induction fuel as [|f IH]; intros v Hv.
  - cbn in Hv. cbn [leb_s_loop]. pose proof (Z.div_mod v 128). pose proof (Z.mod_pos_bound v 128).
    destruct (Z.leb_spec (-64) v), (Z.ltb_spec v 64); try lia. cbn.
    destruct (Z.ltb_spec (v mod 128) 64); [do 2 f_equal; lia|].
    destruct (Z.ltb_spec (v mod 128) 128); [do 2 f_equal; lia|lia].
  - rewrite Nat2Z.inj_succ, Z.pow_succ_r in Hv by lia. remember (S f) as g. cbn [leb_s_loop].
    pose proof (Z.div_mod v 128). pose proof (Z.mod_pos_bound v 128).
    destruct ((-64 <=? v)%Z && (v <? 64)%Z) eqn:E; cbn [app d_s].
    + apply andb_true_iff in E as [E1 E2]. apply Z.leb_le in E1. apply Z.ltb_lt in E2.
      destruct (Z.ltb_spec (v mod 128) 64); [do 2 f_equal; lia|].
      destruct (Z.ltb_spec (v mod 128) 128); [do 2 f_equal; lia|lia].
    + destruct (Z.ltb_spec (v mod 128 + 128) 64); [lia|]. destruct (Z.ltb_spec (v mod 128 + 128) 128); [lia|].
      subst g. rewrite IH; [do 2 f_equal; lia|].
      split; [apply Z.div_le_lower_bound|apply Z.div_lt_upper_bound]; lia.
Qed.

Lemma leb_u_decode v r : (0 <= v < 2 ^ 64)%Z -> d_u (leb_u v ++ r) = Some (v, r).
Proof. intros Hv. apply leb_u_loop_decode; [cbn; lia|discriminate]. Qed.

Lemma leb_s_decode v r : (- 2 ^ 63 <= v < 2 ^ 63)%Z -> d_s (leb_s v ++ r) = Some (v, r).
Proof. intros Hv. apply leb_s_loop_decode. cbn. lia. Qed.

(** Minimality: the value needs exactly this many seven-bit groups. *)
Lemma leb_u_loop_minimal fuel v :
  (0 <= v < 128 ^ Z.of_nat fuel)%Z -> fuel <> 0 ->
  let n := Z.of_nat (List.length (leb_u_loop fuel v)) in
  (1 <= n <= Z.of_nat fuel)%Z /\ (v < 128 ^ n)%Z /\ (n = 1 \/ 128 ^ (n - 1) <= v)%Z.
Proof.
  revert v; induction fuel as [|f IH]; intros v Hv Hf; [contradiction|]. cbn [leb_u_loop].
  destruct (Z.ltb_spec v 128) as [L|L]; [cbn; lia|].
  rewrite Nat2Z.inj_succ, Z.pow_succ_r in Hv by lia. pose proof (Z.div_mod v 128). pose proof (Z.mod_pos_bound v 128).
  specialize (IH (v / 128)%Z ltac:(split; [lia|apply Z.div_lt_upper_bound; lia]) ltac:(intros ->; cbn in Hv; lia)).
  cbn zeta in *. cbn [List.length]. rewrite !Nat2Z.inj_succ.
  set (k := Z.of_nat (List.length (leb_u_loop f (v / 128)))) in *. destruct IH as [B [U M]].
  rewrite Z.pow_succ_r by lia. replace (Z.succ k - 1)%Z with (Z.succ (k - 1)) by lia. rewrite Z.pow_succ_r by lia.
  refine (conj _ (conj _ _)); [lia|lia|right]. destruct M as [->|M]; [change (128 ^ (1 - 1))%Z with 1%Z|]; lia.
Qed.

Lemma leb_u_loop_bytes fuel v : (0 <= v)%Z -> Forall (fun b => 0 <= b < 256)%Z (leb_u_loop fuel v).
Proof.
  revert v; induction fuel as [|f IH]; intros v Hv; cbn [leb_u_loop]; [constructor|].
  pose proof (Z.div_mod v 128). pose proof (Z.mod_pos_bound v 128).
  destruct (Z.ltb_spec v 128); constructor; try lia; [constructor|]. apply IH. lia.
Qed.

Lemma leb_s_loop_bytes fuel v :
  Forall (fun b => 0 <= b < 256)%Z (leb_s_loop fuel v) /\ List.length (leb_s_loop fuel v) <= fuel.
Proof.
  revert v; induction fuel as [|f IH]; intros v; cbn [leb_s_loop]; [split; [constructor|cbn; lia]|].
  pose proof (Z.mod_pos_bound v 128). destruct (IH (v / 128)%Z).
  case_if; cbn; (split; [constructor; [lia|auto]|lia]).
Qed.

(** ** Codecs: an encoder, its decoder, and the values they agree on *)

Class Codec {A : Type} (enc : A -> list Z) (dec : D A) (ok : A -> Prop) : Prop :=
  codec : forall a r, ok a -> dec (enc a ++ r) = Some (a, r).

Definition len {A} (l : list A) : Z := Z.of_nat (List.length l).

Definition e_name (s : list Z) : list Z := leb_u (len s) ++ s.
Definition e_vec {A} (enc : A -> list Z) (xs : list A) : list Z := leb_u (len xs) ++ flat_map enc xs.
Definition e_byte (b : Z) : list Z := [b].
Definition e_type (t : list Z * list Z) : list Z := [96]%Z ++ e_vec e_byte (fst t) ++ e_vec e_byte (snd t).
Definition e_import (i : list Z * Z) : list Z :=
  e_name (bytes_of (lit "env")) ++ e_name (fst i) ++ [0]%Z ++ leb_u (snd i).
Definition e_global (g : bool * Z) : list Z :=
  ([WT_I32; if fst g then 1 else 0; 65] ++ leb_s (snd g) ++ [11])%Z.
Definition e_export (e : list Z * (Z * Z)) : list Z := e_name (fst e) ++ [fst (snd e)] ++ leb_u (snd (snd e)).
Definition e_local (l : Z * Z) : list Z := leb_u (fst l) ++ [snd l].
Definition e_block (c : list (Z * Z) * list Z) : list Z := e_vec e_local (fst c) ++ snd c.
Definition e_code (c : list (Z * Z) * list Z) : list Z := e_name (e_block c).
Definition e_data (d : Z * list Z) : list Z := ([0; 65] ++ leb_s (fst d) ++ [11] ++ e_name (snd d))%Z.
Definition e_memory (pages : Z) : list Z := leb_u 1 ++ [0]%Z ++ leb_u pages.

Definition small (z : Z) : Prop := (0 <= z < 2 ^ 64)%Z.
Definition short {A} (l : list A) : Prop := (len l < 2 ^ 64)%Z.

Lemma len_nonneg {A} (l : list A) : (0 <= len l)%Z.
Proof. unfold len. lia. Qed.

Lemma len_app {A} (l r : list A) : len (l ++ r) = (len l + len r)%Z.
Proof. unfold len. rewrite length_app. lia. Qed.

Lemma short_small {A} (l : list A) : short l -> small (len l).
Proof. pose proof (len_nonneg l). unfold short, small. lia. Qed.

Create HintDb wasm.
Create Rewrite HintDb wasm_rw.
#[local] Hint Resolve short_small : wasm.

Lemma bind_some {A B} (d : D A) (k : A -> D B) l a r : d l = Some (a, r) -> d_bind d k l = k a r.
Proof. intros H. unfold d_bind. now rewrite H. Qed.

(** Run the decoder of a [do] block over one encoded field. *)
Ltac field := rewrite <- ?app_assoc; erewrite bind_some by (apply codec; eauto with wasm).

#[export] Instance codec_byte : Codec e_byte d_byte (fun _ => True).
Proof. now intros a r _. Qed.

#[export] Instance codec_leb_u : Codec leb_u d_u small.
Proof. intros a r H. now apply leb_u_decode. Qed.

#[export] Instance codec_leb_s : Codec leb_s d_s (fun z => - 2 ^ 63 <= z < 2 ^ 63)%Z.
Proof. intros a r H. now apply leb_s_decode. Qed.

Lemma tag_ok {B} v (k : unit -> D B) r : d_bind (d_tag v) k (v :: r) = k tt r.
Proof. unfold d_tag, d_bind. cbn. now rewrite Z.eqb_refl. Qed.

Lemma byte_ok {B} v (k : Z -> D B) r : d_bind d_byte k (v :: r) = k v r.
Proof. reflexivity. Qed.

#[local] Hint Rewrite @tag_ok @byte_ok : wasm_rw.

Lemma take_ok s r : d_take (List.length s) (s ++ r) = Some (s, r).
Proof.
  unfold d_take. rewrite length_app. destruct (Nat.leb_spec (List.length s) (List.length s + List.length r)); [|lia].
  now rewrite firstn_app_exact, skipn_app_exact.
Qed.

#[export] Instance codec_name : Codec e_name d_name short.
Proof.
  intros s r H. unfold e_name, d_name. field. unfold len. rewrite Nat2Z.id. apply take_ok.
Qed.

Lemma many_ok {A} (enc : A -> list Z) dec ok `{!Codec enc dec ok} xs r :
  Forall ok xs -> d_many dec (List.length xs) (flat_map enc xs ++ r) = Some (xs, r).
Proof.
  induction 1 as [|x xs Hx _ IH]; [reflexivity|]. cbn [List.length d_many flat_map]. field.
  unfold d_bind at 1. now rewrite IH.
Qed.

#[export] Instance codec_vec {A} (enc : A -> list Z) dec ok `{!Codec enc dec ok} :
  Codec (e_vec enc) (d_vec dec) (fun xs => short xs /\ Forall ok xs).
Proof.
  intros xs r [Hs Hx]. unfold e_vec, d_vec. field. unfold len. rewrite Nat2Z.id. now apply (many_ok enc dec ok).
Qed.

Lemma vec_bytes (l : list Z) : short l -> short l /\ Forall (fun _ : Z => True) l.
Proof. split; [assumption|]. now apply Forall_forall. Qed.

#[local] Hint Resolve vec_bytes : wasm.

#[export] Instance codec_type : Codec e_type d_type (fun t => short (fst t) /\ short (snd t)).
Proof.
  intros [p q] r [Hp Hq]. unfold e_type, d_type. cbn [fst snd app] in *. rewrite tag_ok. now do 2 field.
Qed.

#[export] Instance codec_import : Codec e_import d_import (fun i => short (fst i) /\ small (snd i)).
Proof.
  intros [f t] r [Hf Ht]. unfold e_import, d_import. cbn [fst snd] in *.
  rewrite <- app_assoc. erewrite bind_some by now apply codec. field. cbn [app]. rewrite tag_ok. field.
  now destruct (list_eq_dec _ _ _).
Qed.

#[export] Instance codec_global : Codec e_global d_global (fun g => - 2 ^ 63 <= snd g < 2 ^ 63)%Z.
Proof.
  intros [mu v] r Hv. unfold e_global, d_global. cbn [fst snd app] in *.
  rewrite tag_ok, byte_ok, tag_ok. field. cbn [app]. rewrite tag_ok. now destruct mu.
Qed.

#[export] Instance codec_export : Codec e_export d_export (fun e => short (fst e) /\ small (snd (snd e))).
Proof.
  intros [n [k i]] r [Hn Hi]. unfold e_export, d_export. cbn [fst snd] in *. field. cbn [app]. rewrite byte_ok. now field.
Qed.

#[export] Instance codec_local : Codec e_local d_local (fun l => small (fst l)).
Proof. intros [n t] r Hn. unfold e_local, d_local. cbn [fst snd] in *. now field. Qed.

#[export] Instance codec_code :
  Codec e_code d_code (fun c => short (e_block c) /\ short (fst c) /\ Forall (fun l => small (fst l)) (fst c)).
Proof.
  intros [ls body] r [Hb Hl]. unfold e_code, d_code. field. unfold e_block. cbn [fst snd] in *.
  now rewrite (codec (Codec := codec_vec e_local d_local _) ls body Hl).
Qed.

#[export] Instance codec_data : Codec e_data d_data (fun d => (- 2 ^ 63 <= fst d < 2 ^ 63)%Z /\ short (snd d)).
Proof.
  intros [o b] r [Ho Hb]. unfold e_data, d_data. cbn [fst snd app] in *. rewrite tag_ok, tag_ok. field. cbn [app].
  rewrite tag_ok. now field.
Qed.

#[export] Instance codec_memory : Codec e_memory d_memory small.
Proof.
  intros p r Hp. unfold e_memory, d_memory. rewrite <- app_assoc. erewrite bind_some by (apply codec; unfold small; lia).
  cbn [app]. rewrite tag_ok. now field.
Qed.

(** ** The bytes of a module *)

Definition sec {A} (enc : A -> list Z) (id : Z) (xs : list A) : list (Z * list Z) :=
  match xs with [] => [] | _ => [(id, e_vec enc xs)] end.

Definition sec1 {A} (enc : A -> list Z) (id : Z) (o : option A) : list (Z * list Z) :=
  match o with None => [] | Some x => [(id, enc x)] end.

Definition e_section (s : Z * list Z) : list Z := fst s :: e_name (snd s).

(** The sections of the abstract module. *)
Definition sections (a : Module_) : list (Z * list Z) :=
  sec e_type 1 (mod_types a) ++ sec e_import 2 (mod_imports a) ++ sec leb_u 3 (mod_funcs a) ++
  sec1 e_memory 5 (mod_memory a) ++ sec e_global 6 (mod_globals a) ++ sec e_export 7 (mod_exports a) ++
  sec1 leb_u 8 (mod_start a) ++ sec e_code 10 (mod_codes a) ++ sec e_data 11 (mod_datas a).

Definition encode_module (a : Module_) : list Z := wasm_header ++ flat_map e_section (sections a).

(** What the builder's record holds for the abstract module. *)
Record encoded (m : WasmModule) (a : Module_) : Prop := mkEncoded {
  en_types : wb_data (wm_types m) = flat_map e_type (mod_types a) /\ wm_type_count m = len (mod_types a);
  en_imports : wb_data (wm_imports m) = flat_map e_import (mod_imports a) /\ wm_import_count m = len (mod_imports a);
  en_funcs : wb_data (wm_funcs m) = flat_map leb_u (mod_funcs a) /\ wm_func_count m = len (mod_funcs a);
  en_globals : wb_data (wm_globals m) = flat_map e_global (mod_globals a) /\ wm_global_count m = len (mod_globals a);
  en_exports : wb_data (wm_exports m) = flat_map e_export (mod_exports a) /\ wm_export_count m = len (mod_exports a);
  en_codes : wb_data (wm_codes m) = flat_map e_code (mod_codes a) /\ wm_code_count m = len (mod_codes a);
  en_datas : wb_data (wm_datas m) = flat_map e_data (mod_datas a) /\ wm_data_count m = len (mod_datas a);
  en_memory : mod_memory a = (if wm_has_memory m then Some (wm_mem_min m) else None);
  en_start : mod_start a = (if wm_has_start m then Some (wm_start_idx m) else None)
}.

(** The ranges the entries of a built module lie in. *)
Record in_range (a : Module_) : Prop := mkRange {
  ir_types : Forall (fun t => short (fst t) /\ short (snd t)) (mod_types a);
  ir_imports : Forall (fun i => short (fst i) /\ small (snd i)) (mod_imports a);
  ir_funcs : Forall small (mod_funcs a);
  ir_globals : Forall (fun g => - 2 ^ 63 <= snd g < 2 ^ 63)%Z (mod_globals a);
  ir_exports : Forall (fun e => short (fst e) /\ small (snd (snd e))) (mod_exports a);
  ir_codes : Forall (fun c => short (e_block c) /\ short (fst c) /\ Forall (fun l => small (fst l)) (fst c)) (mod_codes a);
  ir_datas : Forall (fun d => (- 2 ^ 63 <= fst d < 2 ^ 63)%Z /\ short (snd d)) (mod_datas a);
  ir_memory : forall p, mod_memory a = Some p -> small p;
  ir_start : forall p, mod_start a = Some p -> small p
}.

Lemma u64_small v : small v -> u64 v = v.
Proof. apply Z.mod_small. Qed.

Lemma s64_signed v : (- 2 ^ 63 <= v < 2 ^ 63)%Z -> s64 v = v.
Proof.
  intros H. unfold s64. cbn zeta. destruct (Z.ltb_spec v 0).
  - replace (v mod 2 ^ 64)%Z with (v + 2 ^ 64)%Z; [destruct (Z.ltb_spec (v + 2 ^ 64) (2 ^ 63)); lia|].
    apply (Z.mod_unique_pos _ _ (-1)); lia.
  - rewrite Z.mod_small by lia. destruct (Z.ltb_spec v (2 ^ 63)); lia.
Qed.

Lemma s32_range z : (- 2 ^ 31 <= s32 z < 2 ^ 31)%Z.
Proof.
  unfold s32. cbn zeta. pose proof (Z.mod_pos_bound z (2 ^ 32) ltac:(lia)). destruct (Z.ltb_spec (z mod 2 ^ 32) (2 ^ 31)); lia.
Qed.

Lemma name_data b s : short s -> wb_data (wb_name b s) = wb_data b ++ e_name (bytes_of s).
Proof.
  intros H. unfold wb_name, e_name. rewrite bytes_data, wb_u_data, <- app_assoc. unfold len, bytes_of.
  now rewrite length_map, u64_small by now apply short_small.
Qed.

Lemma code_entry_data ls body :
  short ls -> Forall (fun l => small (fst l)) ls -> wb_data (code_entry ls body) = e_block (ls, body).
Proof.
  intros H F. unfold code_entry, e_block, e_vec. cbn [fst snd].
  assert (G : forall b, wb_data (fold_left (fun b l => wb_byte (wb_u b (fst l)) (snd l)) ls b) = wb_data b ++ flat_map e_local ls).
  { clear H. induction F as [|[n t] ls Hn _ IH]; intros b; cbn [fold_left flat_map]; [now rewrite app_nil_r|].
    rewrite IH, byte_data, wb_u_data, u64_small by assumption. unfold e_local. cbn [fst snd]. now rewrite <- !app_assoc. }
  rewrite bytes_data, G, wb_u_data, u64_small by now apply short_small. reflexivity.
Qed.

(** Each buffer of a built module is the concatenation of the encoded entries. *)
Lemma flat_map_snoc {A B} (f : A -> list B) xs x : flat_map f (xs ++ [x]) = flat_map f xs ++ f x.
Proof. rewrite flat_map_app. cbn. now rewrite app_nil_r. Qed.

Lemma len_snoc {A} (xs : list A) x : len (xs ++ [x]) = (len xs + 1)%Z.
Proof. apply len_app. Qed.

Ltac range := unfold small, short, len, bytes_of in *; rewrite ?length_map; lia.
#[local] Arguments wb_u : simpl never.
#[local] Arguments wb_i : simpl never.
#[local] Arguments wb_name : simpl never.
#[local] Arguments wb_byte : simpl never.
#[local] Arguments wb_bytes : simpl never.
#[local] Arguments wb_each : simpl never.
#[local] Arguments code_entry : simpl never.
#[local] Arguments leb_u : simpl never.
#[local] Arguments leb_s : simpl never.
#[local] Arguments s32 : simpl never.

Ltac entry :=
  constructor; cbn [snd wm_type wm_import_func wm_func wm_global_i32 wm_export wm_code wm_data wm_memory wm_start
     wm_types wm_type_count wm_imports wm_import_count wm_funcs wm_func_count wm_globals wm_global_count
     wm_exports wm_export_count wm_codes wm_code_count wm_datas wm_data_count wm_has_memory wm_mem_min
     wm_has_start wm_start_idx mod_types mod_imports mod_funcs mod_globals mod_exports mod_codes mod_datas
     mod_memory mod_start]; try assumption; try reflexivity;
  split_hyps; (split; [|rewrite len_snoc; congruence]);
  rewrite flat_map_snoc;
  repeat first [rewrite byte_data | rewrite each_data | rewrite bytes_data | rewrite wb_u_data | rewrite wb_i_data
    | rewrite name_data by (range || reflexivity)];
  rewrite ?u64_small, ?s64_signed by range; rewrite <- ?app_assoc;
  match goal with E : wb_data _ = flat_map _ _ |- wb_data _ ++ _ = _ => rewrite E; f_equal end.

Lemma each_bytes l : flat_map e_byte l = l.
Proof. induction l as [|b l IH]; [reflexivity|]. cbn. now rewrite IH. Qed.

Lemma build_encoded m a : build m a -> encoded m a.
Proof.
  induction 1 as [|m a ps rs _ IH|m a f t _ IH|m a t _ IH|m a mu v _ IH|m a n k i _ IH|m a ls body _ IH Hl Hf Hb|m a off bs _ IH|m a p _ IH|m a i _ IH];
    [now constructor|destruct IH..].
  - entry. unfold e_type, e_vec. cbn. rewrite !each_bytes, <- !app_assoc. reflexivity.
  - entry.
  - entry.
  - entry.
  - entry.
  - assert (S : wb_data (code_entry ls body) = e_block (ls, body)).
    { apply code_entry_data; [range|]. eapply Forall_impl; [|exact Hf]. cbn. intros. range. }
    entry. unfold wb_len. rewrite u64_small, S by range. reflexivity.
  - pose proof (s32_range off). entry.
  - entry.
  - entry.
Qed.

Lemma build_in_range m a : build m a -> in_range a.
Proof.
  assert (snoc : forall A (P : A -> Prop) l x, Forall P l -> P x -> Forall P (l ++ [x])).
  { intros A P l x Hl Hx. apply Forall_app. auto. }
  induction 1 as [|m a ps rs _ IH|m a f t _ IH|m a t _ IH|m a mu v _ IH|m a n k i _ IH|m a ls body _ IH Hl Hf Hb|m a off bs _ IH|m a p _ IH|m a i _ IH];
    [now constructor|destruct IH; constructor; cbn; auto..].
  - apply snoc; [assumption|]. cbn. split; range.
  - apply snoc; [assumption|]. cbn. split; range.
  - apply snoc; [assumption|]. range.
  - apply snoc; [assumption|]. cbn. lia.
  - apply snoc; [assumption|]. cbn. split; range.
  - assert (F : Forall (fun l => small (fst l)) ls) by (eapply Forall_impl; [|exact Hf]; cbn; intros; range).
    apply snoc; [assumption|]. cbn [fst snd]. rewrite code_entry_data in Hb by (range || assumption).
    refine (conj _ (conj _ F)); range.
  - apply snoc; [assumption|]. pose proof (s32_range off). cbn [fst snd]. split; [lia|range].
  - intros q [= <-]. range.
  - intros q [= <-]. range.
Qed.

(** ** Serialization is the reference encoding *)

Lemma emit_section_data out id s :
  wb_data (emit_section out id s) = wb_data out ++ id :: leb_u (u64 (wb_len s)) ++ wb_data s.
Proof. unfold emit_section. rewrite bytes_data, wb_u_data, byte_data, <- !app_assoc. reflexivity. Qed.

Lemma emit_section_ok out id s :
  short (wb_data (emit_section out id s)) ->
  short (wb_data out) /\ wb_data (emit_section out id s) = wb_data out ++ e_section (id, wb_data s).
Proof.
  rewrite emit_section_data. unfold short. rewrite len_app. intros H.
  assert (short (wb_data s)).
  { unfold short, len in *. cbn [List.length] in H. rewrite length_app in H. lia. }
  split; [pose proof (len_nonneg (id :: leb_u (u64 (wb_len s)) ++ wb_data s)); lia|].
  change (wb_len s) with (len (wb_data s)). now rewrite u64_small by now apply short_small.
Qed.

Lemma flat_map_len {A} (enc : A -> list Z) xs : (forall x, enc x <> []) -> (len xs <= len (flat_map enc xs))%Z.
Proof.
  intros Hn. unfold len. induction xs as [|x xs IH]; [cbn; lia|]. cbn [flat_map List.length]. rewrite length_app.
  specialize (Hn x). destruct (enc x); [contradiction|]. cbn [List.length]. lia.
Qed.

Lemma emit_vec_ok {A} (enc : A -> list Z) out id xs b n :
  (forall x, enc x <> []) -> wb_data b = flat_map enc xs /\ n = len xs ->
  short (wb_data (emit_vec_section out id n b)) ->
  short (wb_data out) /\ wb_data (emit_vec_section out id n b) = wb_data out ++ flat_map e_section (sec enc id xs).
Proof.
  intros Hn [Hb ->] Hs. unfold emit_vec_section in *. destruct xs as [|x xs]; [cbn in *; now rewrite app_nil_r|].
  set (l := x :: xs) in *. assert (Hl : (len l =? 0)%Z = false) by (apply Z.eqb_neq; unfold len, l; cbn; lia).
  rewrite Hl in *. assert (Hc : short l).
  { pose proof (flat_map_len enc l Hn). pose proof (len_nonneg (wb_data out)).
    rewrite emit_section_data, bytes_data, Hb in Hs. unfold short, len in *.
    rewrite length_app in Hs. cbn [List.length] in Hs. rewrite !length_app in Hs. lia. }
  destruct (emit_section_ok _ _ _ Hs) as [Ho E]. split; [assumption|]. rewrite E.
  rewrite bytes_data, wb_u_data, Hb, u64_small by now apply short_small.
  change (sec enc id l) with [(id, e_vec enc l)]. cbn [flat_map]. now rewrite app_nil_r.
Qed.

Lemma leb_u_nonempty v : leb_u v <> [].
Proof. unfold leb_u. cbn [leb_u_loop]. case_if; discriminate. Qed.

Lemma app_nonempty {A} (l r : list A) : l <> [] -> l ++ r <> [].
Proof. destruct l; [contradiction|discriminate]. Qed.

#[local] Hint Resolve leb_u_nonempty app_nonempty : wasm.

Lemma name_nonempty s r : e_name s ++ r <> [].
Proof. apply app_nonempty, app_nonempty, leb_u_nonempty. Qed.

Lemma import_nonempty i : e_import i <> [].
Proof. apply name_nonempty. Qed.

Lemma export_nonempty e : e_export e <> [].
Proof. apply name_nonempty. Qed.

Lemma code_nonempty c : e_code c <> [].
Proof. apply app_nonempty, leb_u_nonempty. Qed.

#[local] Hint Resolve import_nonempty export_nonempty code_nonempty : wasm.

Lemma emit_opt_ok {A} (enc : A -> list Z) out id (has : bool) s x o :
  o = (if has then Some x else None) -> (has = true -> wb_data s = enc x) ->
  short (wb_data (if has then emit_section out id s else out)) ->
  short (wb_data out) /\
  wb_data (if has then emit_section out id s else out) = wb_data out ++ flat_map e_section (sec1 enc id o).
Proof.
  intros -> Hs H. destruct has; cbn [sec1 flat_map]; [|now rewrite app_nil_r].
  destruct (emit_section_ok _ _ _ H) as [Ho ->]. rewrite Hs by reflexivity. now rewrite app_nil_r.
Qed.

(** The writer emits the reference encoding, provided the result's size is a [size_t]. *)
Lemma finish_data m a :
  encoded m a -> in_range a -> short (wb_data (wm_finish m)) -> wb_data (wm_finish m) = encode_module a.
Proof.
  intros [Ht Hi Hf Hg He Hc Hd Hm Hs] R. unfold wm_finish. intros H.
  apply (emit_vec_ok e_data _ _ (mod_datas a)) in H as [H ->]; [|discriminate|assumption].
  apply (emit_vec_ok e_code _ _ (mod_codes a)) in H as [H ->]; [|auto with wasm|assumption].
  apply (emit_opt_ok leb_u _ _ _ _ (wm_start_idx m) (mod_start a)) in H as [H ->]; [|assumption|].
  2:{ intros E. rewrite E in Hs. rewrite wb_u_data. now rewrite u64_small by now apply (ir_start a R). }
  apply (emit_vec_ok e_export _ _ (mod_exports a)) in H as [H ->]; [|auto with wasm|assumption].
  apply (emit_vec_ok e_global _ _ (mod_globals a)) in H as [H ->]; [|discriminate|assumption].
  apply (emit_opt_ok e_memory _ _ _ _ (wm_mem_min m) (mod_memory a)) in H as [H ->]; [|assumption|].
  2:{ intros E. rewrite E in Hm. rewrite wb_u_data, byte_data, wb_u_data.
      rewrite (u64_small (wm_mem_min m)) by now apply (ir_memory a R). unfold e_memory. now rewrite <- app_assoc. }
  apply (emit_vec_ok leb_u _ _ (mod_funcs a)) in H as [H ->]; [|apply leb_u_nonempty|assumption].
  apply (emit_vec_ok e_import _ _ (mod_imports a)) in H as [H ->]; [|auto with wasm|assumption].
  apply (emit_vec_ok e_type _ _ (mod_types a)) in H as [H ->]; [|discriminate|assumption].
  rewrite bytes_data. unfold encode_module, sections. rewrite !flat_map_app, <- !app_assoc. reflexivity.
Qed.

(** ** The reference encoding decodes *)

Lemma sections_ok fuel ss :
  Forall (fun s => short (snd s)) ss -> List.length ss <= fuel -> d_sections fuel (flat_map e_section ss) = Some ss.
Proof.
  intros H; revert fuel. induction H as [|[id c] ss Hc _ IH]; intros fuel Hf; [now destruct fuel|].
  destruct fuel as [|f]; [cbn in Hf; lia|]. cbn [flat_map e_section fst snd app d_sections].
  rewrite (codec (Codec := codec_name) c _ Hc). cbn in Hf. now rewrite IH by lia.
Qed.

Lemma section_app id s t : section id (s ++ t) = match section id s with Some c => Some c | None => section id t end.
Proof. induction s as [|[i c] s IH]; [reflexivity|]. cbn. now case_if. Qed.

Lemma section_sec {A} (enc : A -> list Z) i id xs :
  section i (sec enc id xs) = if (id =? i)%Z then match xs with [] => None | _ => Some (e_vec enc xs) end else None.
Proof. destruct xs; cbn; now case_if. Qed.

Lemma section_sec1 {A} (enc : A -> list Z) i id o :
  section i (sec1 enc id o) = if (id =? i)%Z then option_map enc o else None.
Proof. destruct o; cbn; now case_if. Qed.

Lemma vec_section_ok {A} (enc : A -> list Z) dec ok `{!Codec enc dec ok} id ss xs :
  section id ss = match xs with [] => None | _ => Some (e_vec enc xs) end -> short xs -> Forall ok xs ->
  vec_section dec id ss = Some xs.
Proof.
  intros E Hs Hx. unfold vec_section. rewrite E. destruct xs as [|x xs]; [reflexivity|]. unfold d_all.
  pose proof (codec (Codec := codec_vec enc dec ok) (x :: xs) [] (conj Hs Hx)) as C. rewrite app_nil_r in C. now rewrite C.
Qed.

Lemma one_section_ok {A} (enc : A -> list Z) dec ok `{!Codec enc dec ok} id ss o :
  section id ss = option_map enc o -> (forall x, o = Some x -> ok x) -> one_section dec id ss = Some o.
Proof.
  intros E Ho. unfold one_section. rewrite E. destruct o as [x|]; [|reflexivity]. cbn. unfold d_all.
  pose proof (codec x [] (Ho x eq_refl)) as C. rewrite app_nil_r in C. now rewrite C.
Qed.

Lemma ascending_weaken l l' ss : (l <= l')%Z -> ascending l' ss = true -> ascending l ss = true.
Proof.
  destruct ss as [|[i c] ss]; [reflexivity|]. cbn. rewrite !andb_true_iff, !Z.ltb_lt. intros ? []. split; [lia|assumption].
Qed.

Lemma ascending_sec {A} (enc : A -> list Z) last id xs r :
  (last < id)%Z -> ascending id r = true -> ascending last (sec enc id xs ++ r) = true.
Proof.
  intros Hi Hr. destruct xs; cbn; [apply (ascending_weaken _ id); [lia|assumption]|].
  rewrite Hr. destruct (Z.ltb_spec last id); [reflexivity|lia].
Qed.

Lemma ascending_sec1 {A} (enc : A -> list Z) last id o r :
  (last < id)%Z -> ascending id r = true -> ascending last (sec1 enc id o ++ r) = true.
Proof.
  intros Hi Hr. destruct o; cbn; [|apply (ascending_weaken _ id); [lia|assumption]].
  rewrite Hr. destruct (Z.ltb_spec last id); [reflexivity|lia].
Qed.

Lemma ascending_sections a : ascending 0 (sections a) = true.
Proof.
  unfold sections. rewrite <- (app_nil_r (sec e_data _ _)).
  repeat first [apply ascending_sec; [lia|] | apply ascending_sec1; [lia|]]. reflexivity.
Qed.

Lemma e_section_len s : (len (snd s) < len (e_section s))%Z.
Proof. unfold e_section, e_name, len. cbn [List.length]. rewrite length_app. lia. Qed.

(** Every section of an encoding whose size is a [size_t] has a size that fits, and so has every list of entries. *)
Lemma sections_short a : short (encode_module a) -> Forall (fun s => short (snd s)) (sections a).
Proof.
  unfold encode_module, short. rewrite len_app. generalize (len_nonneg wasm_header). generalize (len wasm_header).
  intros h Hh. induction (sections a) as [|s ss IH]; intros H; constructor; cbn [flat_map] in H; rewrite len_app in H.
  - pose proof (e_section_len s). pose proof (len_nonneg (flat_map e_section ss)). unfold short. lia.
  - apply IH. pose proof (len_nonneg (e_section s)). lia.
Qed.

Lemma section_short {A} (enc : A -> list Z) id xs a :
  (forall x, enc x <> []) -> incl (sec enc id xs) (sections a) -> short (encode_module a) -> short xs.
Proof.
  intros Hn Hi Hs. apply sections_short in Hs. destruct xs as [|x xs]; [reflexivity|].
  rewrite Forall_forall in Hs. specialize (Hs (id, e_vec enc (x :: xs)) (Hi _ (or_introl eq_refl))). cbn [snd] in Hs.
  unfold e_vec, short in *. rewrite len_app in Hs. pose proof (flat_map_len enc (x :: xs) Hn).
  pose proof (len_nonneg (leb_u (len (x :: xs)))). lia.
Qed.

Lemma flat_section_length ss : List.length ss <= List.length (flat_map e_section ss).
Proof. induction ss as [|s ss IH]; [cbn; lia|]. cbn [flat_map List.length]. rewrite length_app. cbn. lia. Qed.

Ltac in_sections := unfold sections; repeat first [apply incl_refl | apply incl_appl, incl_refl | apply incl_appr].

(** The content found under an id is that of the entries with the id. *)
Ltac find_section :=
  unfold sections; rewrite ?section_app, ?section_sec, ?section_sec1;
  cbn [Z.eqb Pos.eqb]; repeat case_goal; reflexivity.

(** The reference encoding of every abstract module in range decodes to the module. *)
Lemma decode_encode a : in_range a -> short (encode_module a) -> decode_module (encode_module a) = Some a.
Proof.
  intros R Hs. unfold decode_module. change (firstn 8 (encode_module a)) with wasm_header.
  change (skipn 8 (encode_module a)) with (flat_map e_section (sections a)).
  destruct (list_eq_dec _ _ _) as [_|N]; [|contradiction].
  rewrite sections_ok; [|now apply sections_short|].
  2:{ unfold encode_module. rewrite length_app. pose proof (flat_section_length (sections a)). lia. }
  rewrite ascending_sections. destruct R as [Rt Ri Rf Rg Re Rc Rd Rm Rs].
  rewrite (vec_section_ok e_type d_type _ 1 _ (mod_types a)); [|find_section| |exact Rt].
  2:{ apply (section_short e_type 1 _ a); [discriminate|in_sections|exact Hs]. }
  rewrite (vec_section_ok e_import d_import _ 2 _ (mod_imports a)); [|find_section| |exact Ri].
  2:{ apply (section_short e_import 2 _ a); [auto with wasm|in_sections|exact Hs]. }
  rewrite (vec_section_ok leb_u d_u _ 3 _ (mod_funcs a)); [|find_section| |exact Rf].
  2:{ apply (section_short leb_u 3 _ a); [auto with wasm|in_sections|exact Hs]. }
  rewrite (one_section_ok e_memory d_memory _ 5 _ (mod_memory a)); [|find_section|exact Rm].
  rewrite (vec_section_ok e_global d_global _ 6 _ (mod_globals a)); [|find_section| |exact Rg].
  2:{ apply (section_short e_global 6 _ a); [discriminate|in_sections|exact Hs]. }
  rewrite (vec_section_ok e_export d_export _ 7 _ (mod_exports a)); [|find_section| |exact Re].
  2:{ apply (section_short e_export 7 _ a); [auto with wasm|in_sections|exact Hs]. }
  rewrite (one_section_ok leb_u d_u _ 8 _ (mod_start a)); [|find_section|exact Rs].
  rewrite (vec_section_ok e_code d_code _ 10 _ (mod_codes a)); [|find_section| |exact Rc].
  2:{ apply (section_short e_code 10 _ a); [auto with wasm|in_sections|exact Hs]. }
  rewrite (vec_section_ok e_data d_data _ 11 _ (mod_datas a)); [|find_section| |exact Rd].
  2:{ apply (section_short e_data 11 _ a); [discriminate|in_sections|exact Hs]. }
  now destruct a.
Qed.

(** The bytes of a built module decode to the module. *)
Lemma finish_decodes m a :
  build m a -> (wb_len (wm_finish m) < 2 ^ 64)%Z -> decode_module (wb_data (wm_finish m)) = Some a.
Proof.
  intros B Hs. change (wb_len (wm_finish m)) with (len (wb_data (wm_finish m))) in Hs.
  pose proof (build_encoded m a B) as E. pose proof (build_in_range m a B) as R.
  pose proof (finish_data m a E R Hs) as F. rewrite F. apply decode_encode; [exact R|].
  unfold short. rewrite <- F. exact Hs.
Qed.

(** ** The growable buffer *)

(** The operations that extend a buffer. *)
Inductive buf_op : Type :=
| op_byte (v : Z)
| op_bytes (p : list Z)
| op_u (v : Z)
| op_i (v : Z)
| op_name (s : cstr).

Definition buf_step (b : WasmBuf) (o : buf_op) : WasmBuf :=
  match o with
  | op_byte v => wb_byte b v
  | op_bytes p => wb_bytes b p
  | op_u v => wb_u b v
  | op_i v => wb_i b v
  | op_name s => wb_name b s
  end.

(** The allocation holds the data and is at most twice as large (or the initial 64 bytes). *)
Definition tight (b : WasmBuf) : Prop := (wb_len b <= wb_cap b <= Z.max 64 (2 * wb_len b))%Z.

(** [b'] extends [b], and the operation keeps [tight] when the result's size is below 2^63. *)
Definition extends_tight (b b' : WasmBuf) : Prop :=
  (wb_len b <= wb_len b')%Z /\ ((wb_len b' < 2 ^ 63)%Z -> tight b -> tight b').

Lemma extends_refl b : extends_tight b b.
Proof. split; [lia|auto]. Qed.

Lemma extends_trans a b c : extends_tight a b -> extends_tight b c -> extends_tight a c.
Proof. intros [L1 T1] [L2 T2]. split; [lia|]. intros H Ta. apply T2; [assumption|]. apply T1; [lia|assumption]. Qed.

Lemma grow_bounds fuel cap need :
  (0 < cap)%Z -> (need <= cap * 2 ^ Z.of_nat fuel)%Z ->
  (need <= grow fuel cap need)%Z /\ (grow fuel cap need <= Z.max cap (2 * need))%Z.
Proof.
  revert cap; induction fuel as [|f IH]; intros cap Hc Hn; cbn [grow]; [cbn in Hn; lia|].
  destruct (Z.ltb_spec cap need); [|lia]. rewrite Nat2Z.inj_succ, Z.pow_succ_r in Hn by lia.
  destruct (IH (cap * 2)%Z); lia.
Qed.

Lemma reserve_tight b n :
  tight b -> (1 <= n)%Z -> (wb_len b + n < 2 ^ 63)%Z ->
  (wb_len b + n <= wb_cap (wb_reserve b n) <= Z.max 64 (2 * (wb_len b + n)))%Z.
Proof.
  unfold tight. intros Ht Hn Hs. unfold wb_reserve.
  destruct (Z.leb_spec (wb_len b + n) (wb_cap b)); [lia|]. cbn [wb_cap].
  assert (0 <= wb_len b)%Z by (unfold wb_len; lia).
  set (c := if (wb_cap b =? 0)%Z then 64%Z else (wb_cap b * 2)%Z).
  assert (Hc : (0 < c <= Z.max 64 (2 * (wb_len b + n)))%Z) by (unfold c; destruct (Z.eqb_spec (wb_cap b) 0); lia).
  destruct (grow_bounds 64 c (wb_len b + n)); [lia|cbn; lia|lia].
Qed.

(** One reservation followed by a write of the reserved size. *)
Lemma write_extends b b' n :
  (1 <= n)%Z -> wb_len b' = (wb_len b + n)%Z -> wb_cap b' = wb_cap (wb_reserve b n) -> extends_tight b b'.
Proof.
  intros Hn Hl Hc. split; [lia|]. intros Hs Ht. unfold tight. rewrite Hc, Hl in *. now apply reserve_tight.
Qed.

Lemma byte_extends b v : extends_tight b (wb_byte b v).
Proof.
  apply (write_extends _ _ 1); [lia| |reflexivity]. unfold wb_len. rewrite byte_data, length_app. cbn. lia.
Qed.

Lemma bytes_extends b p : extends_tight b (wb_bytes b p).
Proof.
  destruct p as [|x p]; [apply extends_refl|]. apply (write_extends _ _ (len (x :: p))); [unfold len; cbn; lia| |reflexivity].
  unfold wb_len. rewrite bytes_data, length_app. unfold len. lia.
Qed.

Lemma u_loop_extends fuel b v : extends_tight b (wb_u_loop fuel b v).
Proof.
  revert b v; induction fuel as [|f IH]; intros b v; cbn [wb_u_loop]; [apply extends_refl|].
  case_if; [apply byte_extends|]. eapply extends_trans; [apply byte_extends|apply IH].
Qed.

Lemma i_loop_extends fuel b v : extends_tight b (wb_i_loop fuel b v).
Proof.
  revert b v; induction fuel as [|f IH]; intros b v; cbn [wb_i_loop]; [apply extends_refl|].
  case_if; [apply byte_extends|]. eapply extends_trans; [apply byte_extends|apply IH].
Qed.

Lemma step_extends b o : extends_tight b (buf_step b o).
Proof.
  destruct o; cbn [buf_step];
    [apply byte_extends|apply bytes_extends|apply u_loop_extends|apply i_loop_extends|].
  eapply extends_trans; [apply u_loop_extends|apply bytes_extends].
Qed.

(** ** Claims *)

(** C19: The serialized module is a valid image of what was built: for every sequence of builder calls
    ([wm_type], [wm_import_func], [wm_func], [wm_global_i32], the exports, [wm_code], [wm_data],
    [wm_memory], [wm_start], in any order), the bytes [wm_finish] writes, when their number is a
    [size_t], decode by the format's rules - magic and version, sections in strictly increasing order,
    each filled exactly by its entries - to precisely the entries added, in the order they were added. *)
Theorem wasm_module_roundtrip m a :
  build m a -> (wb_len (wm_finish m) < 2 ^ 64)%Z -> decode_module (wb_data (wm_finish m)) = Some a.
Proof. exact (finish_decodes m a). Qed.

Definition demo_module : WasmModule :=
  let m := snd (wm_type wm_init [WT_I32; WT_I32]%Z [WT_I32]) in
  let m := snd (wm_import_func m (lit "print") 0) in
  let m := snd (wm_func m 0) in
  let m := wm_code m [(2, WT_I32)]%Z [32; 0; 11]%Z in
  let m := wm_export m (lit "main") WK_FUNC 1 in
  let m := snd (wm_global_i32 m true (-65)) in
  let m := wm_data m 70000 [104; 105]%Z in
  wm_start (wm_memory m 2) 1.

Definition demo_abstract : Module_ :=
  mkMod [([WT_I32; WT_I32], [WT_I32])]%Z [(bytes_of (lit "print"), 0)]%Z [0]%Z [(true, -65)]%Z
    [(bytes_of (lit "main"), (WK_FUNC, 1))]%Z [([(2, WT_I32)], [32; 0; 11])]%Z [(70000, [104; 105])]%Z (Some 2%Z) (Some 1%Z).

Ltac fields H :=
  cbn [mod_types mod_imports mod_funcs mod_globals mod_exports mod_codes mod_datas mod_memory mod_start app] in H.

Lemma demo_built : build demo_module demo_abstract.
Proof.
  pose proof (bd_type _ _ [WT_I32; WT_I32]%Z [WT_I32] bd_init ltac:(cbn; lia) ltac:(cbn; lia)) as B; fields B.
  pose proof (bd_import _ _ (lit "print") 0 B ltac:(reflexivity) ltac:(lia)) as B1; fields B1.
  pose proof (bd_func _ _ 0 B1 ltac:(lia)) as B2; fields B2.
  pose proof (bd_code _ _ [(2, WT_I32)]%Z [32; 0; 11]%Z B2 ltac:(cbn; lia)
    ltac:(repeat constructor; cbn; lia) ltac:(reflexivity)) as B3; fields B3.
  pose proof (bd_export _ _ (lit "main") WK_FUNC 1 B3 ltac:(reflexivity) ltac:(lia)) as B4; fields B4.
  pose proof (bd_global _ _ true (-65) B4 ltac:(lia)) as B5; fields B5.
  pose proof (bd_data _ _ 70000 [104; 105]%Z B5 ltac:(lia) ltac:(cbn; lia)) as B6; fields B6.
  pose proof (bd_memory _ _ 2 B6 ltac:(lia)) as B7; fields B7.
  pose proof (bd_start _ _ 1 B7 ltac:(lia)) as B8; fields B8.
  unfold demo_module, demo_abstract. cbn zeta. exact B8.
Qed.

Lemma wasm_module_roundtrip_witness :
  build demo_module demo_abstract /\ decode_module (wb_data (wm_finish demo_module)) = Some demo_abstract.
Proof. split; [exact demo_built|]. apply (wasm_module_roundtrip _ _ demo_built). vm_compute. reflexivity. Defined.

(** C20: [wb_u] is unsigned LEB128 of a [uint64_t]: it appends between one and ten bytes, each a byte,
    that decode to the value whatever follows, and no shorter encoding exists - the value does not fit
    one seven-bit group less. *)
Theorem wb_u_is_leb128 b v :
  (0 <= v < 2 ^ 64)%Z ->
  exists e, wb_data (wb_u b v) = wb_data b ++ e /\ (forall r, d_u (e ++ r) = Some (v, r)) /\
    Forall (fun x => 0 <= x < 256)%Z e /\ (1 <= len e <= 10)%Z /\ (v < 2 ^ (7 * len e))%Z /\
    (len e = 1 \/ 2 ^ (7 * (len e - 1)) <= v)%Z.
Proof.
  intros Hv. exists (leb_u v). rewrite wb_u_data, u64_small by exact Hv. split; [reflexivity|].
  split; [intros r; now apply leb_u_decode|]. split; [apply leb_u_loop_bytes; lia|].
  destruct (leb_u_loop_minimal 10 v) as [B [U M]]; [cbn; lia|discriminate|]. fold (leb_u v) in *. fold (len (leb_u v)) in *.
  rewrite !Z.pow_mul_r by lia. auto.
Qed.

Lemma wb_u_is_leb128_witness :
  wb_data (wb_u wb_init 624485) = [229; 142; 38]%Z /\
  exists e, wb_data (wb_u wb_init 624485) = [] ++ e /\ (forall r, d_u (e ++ r) = Some (624485%Z, r)) /\
    Forall (fun x => 0 <= x < 256)%Z e /\ (1 <= len e <= 10)%Z /\ (624485 < 2 ^ (7 * len e))%Z /\
    (len e = 1 \/ 2 ^ (7 * (len e - 1)) <= 624485)%Z.
Proof. split; [vm_compute; reflexivity|]. apply (wb_u_is_leb128 wb_init 624485). lia. Defined.

(** C21: [wb_i] is signed LEB128 of an [int64_t]: the loop, whose exit test looks at the sign bit of the
    last group, stops within ten bytes for every value, and the bytes decode to the value. *)
Theorem wb_i_is_leb128 b v :
  (- 2 ^ 63 <= v < 2 ^ 63)%Z ->
  exists e, wb_data (wb_i b v) = wb_data b ++ e /\ (forall r, d_s (e ++ r) = Some (v, r)) /\
    Forall (fun x => 0 <= x < 256)%Z e /\ (len e <= 10)%Z.
Proof.
  intros Hv. exists (leb_s v). rewrite wb_i_data, s64_signed by exact Hv. split; [reflexivity|].
  split; [intros r; now apply leb_s_decode|]. destruct (leb_s_loop_bytes 10 v). split; [assumption|].
  unfold len, leb_s. lia.
Qed.

Lemma wb_i_is_leb128_witness :
  wb_data (wb_i wb_init (-65)) = [191; 127]%Z /\
  exists e, wb_data (wb_i wb_init (-65)) = [] ++ e /\ (forall r, d_s (e ++ r) = Some (-65, r)%Z) /\
    Forall (fun x => 0 <= x < 256)%Z e /\ (len e <= 10)%Z.
Proof. split; [vm_compute; reflexivity|]. apply (wb_i_is_leb128 wb_init (-65)). lia. Defined.

(** C22: The buffer never writes outside its allocation and wastes at most half of it: after any
    sequence of writes from [wb_init] whose total is below 2^63 bytes, the allocated size is at least
    the length and at most the larger of 64 and twice the length (so the doubling never overflows). *)
Theorem buffer_allocation_bounds ops :
  let b := fold_left buf_step ops wb_init in
  (wb_len b < 2 ^ 63)%Z -> (wb_len b <= wb_cap b <= Z.max 64 (2 * wb_len b))%Z.
Proof.
  cbn zeta. assert (H : forall b, extends_tight b (fold_left buf_step ops b)).
  { induction ops as [|o ops IH]; intros b; [apply extends_refl|]. eapply extends_trans; [apply step_extends|apply IH]. }
  intros Hs. apply (H wb_init); [exact Hs|]. unfold tight. cbn. lia.
Qed.

Lemma buffer_allocation_bounds_witness :
  let b := fold_left buf_step [op_bytes (repeat 7%Z 100); op_u 300; op_byte 1] wb_init in
  wb_cap b = 128%Z /\ (wb_len b <= wb_cap b <= Z.max 64 (2 * wb_len b))%Z.
Proof. split; [vm_compute; reflexivity|]. apply buffer_allocation_bounds. vm_compute. reflexivity. Defined.

(** C23: The index a builder call returns is the position of its entry in the module's index spaces: a
    type and a global at the end of their lists, an import after the imports, a defined function after
    all imports known so far and the functions before it. *)
Theorem builder_indices m a ps rs field t mu v :
  build m a ->
  nth_error (mod_types a ++ [(ps, rs)]) (Z.to_nat (fst (wm_type m ps rs))) = Some (ps, rs) /\
  nth_error (mod_imports a ++ [(bytes_of field, t)]) (Z.to_nat (fst (wm_import_func m field t))) = Some (bytes_of field, t) /\
  nth_error (mod_globals a ++ [(mu, v)]) (Z.to_nat (fst (wm_global_i32 m mu v))) = Some (mu, v) /\
  nth_error (map snd (mod_imports a) ++ mod_funcs a ++ [t]) (Z.to_nat (fst (wm_func m t))) = Some t.
Proof.
  intros B. destruct (build_encoded m a B) as [[_ Ht] [_ Hi] [_ Hf] [_ Hg] _ _ _ _ _].
  cbn [wm_type wm_import_func wm_global_i32 wm_func fst]. rewrite Ht, Hi, Hg, Hf.
  assert (N : forall (A : Type) (l : list A) x, nth_error (l ++ [x]) (List.length l) = Some x).
  { intros. rewrite nth_error_app2 by lia. now rewrite Nat.sub_diag. }
  unfold len. rewrite !Nat2Z.id, !N, <- Nat2Z.inj_add, Nat2Z.id, app_assoc.
  refine (conj eq_refl (conj eq_refl (conj eq_refl _))). rewrite <- (N _ (map snd (mod_imports a) ++ mod_funcs a) t).
  f_equal. rewrite length_app, length_map. reflexivity.
Qed.

Lemma builder_indices_witness :
  fst (wm_func demo_module 0) = 2%Z /\
  nth_error (map snd (mod_imports demo_abstract) ++ mod_funcs demo_abstract ++ [0]%Z) 2 = Some 0%Z.
Proof.
  split; [vm_compute; reflexivity|].
  exact (proj2 (proj2 (proj2 (builder_indices _ _ [] [] [] 0 true 0 demo_built)))).
Defined.
