(* ===== verification/Format.v ===== *)
(** * The source formatter ([src/syntax/format_syntax.c])

    The flattened token leaves, the spacing rules, the fit-or-break decision, the printer loop with
    its list frames, and the second pass that re-lexes the printed text and aligns separators.
    A [Buf] is the text written so far; its allocation is left out. A leaf's [text] pointer with its
    [len] is the text itself. [None] stands for [INT_MAX] in [flat_width]. *)

From S2P Require Import Prelude Lexer SyntaxTree.

(** ** Leaves *)

Record FLeaf : Type := mkFLeaf {
  fl_kind : TokenKind;
  fl_text : cstr;
  fl_line : Z;
  fl_parent : SyntaxNodeKind;
  fl_decl_start : bool
}.

Definition fl_len (l : FLeaf) : Z := Z.of_nat (List.length (fl_text l)).

Definition push_leaf (ls : list FLeaf) (k : TokenKind) (text : cstr) (line : Z) (parent : SyntaxNodeKind) : list FLeaf :=
  ls ++ [mkFLeaf k text line parent false].

(** [if (top && ls->count > before) ls->items[before].decl_start = 1;] *)
Definition mark_first (ls : list FLeaf) : list FLeaf :=
  match ls with
  | [] => []
  | l :: r => mkFLeaf (fl_kind l) (fl_text l) (fl_line l) (fl_parent l) true :: r
  end.

Definition is_top (k : SyntaxNodeKind) : bool :=
  SyntaxNodeKind_beq k SN_SOURCE_FILE || SyntaxNodeKind_beq k SN_REGION.

Fixpoint collect (src : cstr) (n : SyntaxElem) : list FLeaf :=
  match n with
  | SE_TOKEN _ => []
  | SE_NODE k _ _ _ children =>
      flat_map (fun e =>
        match e with
        | SE_NODE _ _ _ _ _ => if is_top k then mark_first (collect src e) else collect src e
        | SE_TOKEN l => push_leaf [] (lf_kind l) (slice src (lf_offset l) (lf_length l)) (lf_line l) k
        end) children
  end.

Definition is_line_comment (l : FLeaf) : bool :=
  TokenKind_beq (fl_kind l) TOK_COMMENT &&
  match fl_text l with a :: b :: _ => Ascii.eqb a "/" && Ascii.eqb b "/" | _ => false end.

(** ** Spacing *)

Definition kind_in (k : TokenKind) (ks : list TokenKind) : bool := existsb (TokenKind_beq k) ks.
Definition parent_in (k : SyntaxNodeKind) (ks : list SyntaxNodeKind) : bool := existsb (SyntaxNodeKind_beq k) ks.

(** The switch on the previous token. *)
Definition no_space_after (prev : TokenKind) (prev_parent : SyntaxNodeKind) : bool :=
  match prev with
  | TOK_DOT | TOK_LPAREN | TOK_LBRACKET | TOK_AT => true
  | TOK_RBRACKET => SyntaxNodeKind_beq prev_parent SN_STATIC_DECL
  | TOK_BANG | TOK_QUESTION => true
  | _ => false
  end.

Definition no_space_before (t prev next : TokenKind) (prev_parent : SyntaxNodeKind) : bool :=
  match t with
  | TOK_SEMI | TOK_COMMA | TOK_RPAREN | TOK_RBRACKET | TOK_DOT => true
  | TOK_COLON =>
      if TokenKind_beq prev TOK_COLON then true
      else if kind_in next [TOK_EQ; TOK_COLON] then false
      else true
  | TOK_EQ => TokenKind_beq prev TOK_COLON
  | TOK_BANG => if TokenKind_beq prev TOK_PROC then true else no_space_after prev prev_parent
  | TOK_LPAREN | TOK_LBRACKET =>
      kind_in prev [TOK_IDENT; TOK_RPAREN; TOK_RBRACKET; TOK_PROC; TOK_FUNC; TOK_BANG; TOK_LPAREN; TOK_LBRACKET; TOK_POLICY]
  | _ => no_space_after prev prev_parent
  end.

(** ** Lists *)

Definition MAX_WIDTH : Z := 98.

Definition is_list_brace_parent (p : SyntaxNodeKind) : bool :=
  parent_in p [SN_ARRAY_LIT_EXPR; SN_USE_DECL; SN_GROUP_EXPR; SN_ARCH_EXPR; SN_ENUM_EXPR; SN_QUERY_EXPR; SN_ENTITY_EXPR].

Definition is_list_paren_parent (p : SyntaxNodeKind) : bool :=
  match p with
  | SN_CALL_EXPR | SN_PROC_CALL_STMT | SN_PROC_EXPR | SN_FUNC_EXPR | SN_MAP_EXPR | SN_MAP_DECL | SN_SYSTEM_EXPR
  | SN_EACH_EXPR | SN_TYPE_PROC | SN_TYPE_FUNC | SN_PROC_DECL | SN_FUNC_DECL => true
  | _ => false
  end.

Definition is_list_open (l : FLeaf) : bool :=
  if TokenKind_beq (fl_kind l) TOK_LPAREN then is_list_paren_parent (fl_parent l)
  else if TokenKind_beq (fl_kind l) TOK_LBRACE then is_list_brace_parent (fl_parent l)
  else false.

Definition is_block_brace (l : FLeaf) : bool :=
  kind_in (fl_kind l) [TOK_LBRACE; TOK_RBRACE] && negb (is_list_brace_parent (fl_parent l)).

Definition is_match_brace (l : FLeaf) : bool :=
  kind_in (fl_kind l) [TOK_LBRACE; TOK_RBRACE] && SyntaxNodeKind_beq (fl_parent l) SN_MATCH_STMT.

Definition is_open (k : TokenKind) : bool := kind_in k [TOK_LPAREN; TOK_LBRACE; TOK_LBRACKET].
Definition is_close (k : TokenKind) : bool := kind_in k [TOK_RPAREN; TOK_RBRACE; TOK_RBRACKET].

Definition next_kind (ls : list FLeaf) : TokenKind := match ls with [] => TOK_EOF | l :: _ => fl_kind l end.

(** The loop of [flat_width]; [first] is [k == i]. *)
Fixpoint flat_width_loop (ls : list FLeaf) (first brace : bool) (depth w : Z) (prev : TokenKind)
    (prev_parent : SyntaxNodeKind) : option Z :=
  match ls with
  | [] => Some w
  | l :: r =>
      if kind_in (fl_kind l) [TOK_COMMENT; TOK_SEMI] then None
      else
        let w := (if first then w
                  else if no_space_before (fl_kind l) prev (next_kind r) prev_parent then w else w + 1)%Z in
        let w := (w + fl_len l)%Z in
        if is_open (fl_kind l) then flat_width_loop r false brace (depth + 1) w (fl_kind l) (fl_parent l)
        else if is_close (fl_kind l) then
          if (depth - 1 =? 0)%Z then Some (if brace then w + 2 else w)%Z
          else flat_width_loop r false brace (depth - 1) w (fl_kind l) (fl_parent l)
        else flat_width_loop r false brace depth w (fl_kind l) (fl_parent l)
  end.

(** [ls] starts at leaf [i]. *)
Definition flat_width (ls : list FLeaf) : option Z :=
  flat_width_loop ls true (TokenKind_beq (next_kind ls) TOK_LBRACE) 0 0 TOK_EOF SN_SOURCE_FILE.

Fixpoint trailing_comma_loop (ls : list FLeaf) (depth : Z) (before : TokenKind) : bool :=
  match ls with
  | [] => false
  | l :: r =>
      if is_open (fl_kind l) then trailing_comma_loop r (depth + 1) (fl_kind l)
      else if is_close (fl_kind l) then
        if (depth - 1 =? 0)%Z then TokenKind_beq before TOK_COMMA
        else trailing_comma_loop r (depth - 1) (fl_kind l)
      else trailing_comma_loop r depth (fl_kind l)
  end.

(** [before] is the kind of leaf [k - 1]; there is none before the opener. *)
Definition has_trailing_comma (ls : list FLeaf) : bool := trailing_comma_loop ls 0 TOK_EOF.

Record Frame : Type := mkFrame {
  fr_opener : TokenKind;
  fr_closer : TokenKind;
  fr_parent : SyntaxNodeKind;
  fr_broken : bool;
  fr_depth : Z
}.

(** ** Decorators *)

(** The index of the [)] that closes the argument list at [k], or [last] when there is none. *)
Fixpoint deco_close (ls : list FLeaf) (k : nat) (d : Z) (last : nat) : nat :=
  match ls with
  | [] => last
  | l :: r =>
      if TokenKind_beq (fl_kind l) TOK_LPAREN then deco_close r (S k) (d + 1) last
      else if TokenKind_beq (fl_kind l) TOK_RPAREN then
        if (d - 1 =? 0)%Z then k else deco_close r (S k) (d - 1) last
      else deco_close r (S k) d last
  end.

(** The indices of the last leaves of the decorators; [ls] starts at leaf [i]. *)
Fixpoint deco_ends (ls : list FLeaf) (i : nat) : list nat :=
  match ls with
  | [] => []
  | l :: r =>
      match r with
      | n :: r' =>
          if TokenKind_beq (fl_kind l) TOK_AT && kind_in (fl_kind n) [TOK_IDENT; TOK_POLICY] &&
             negb (SyntaxNodeKind_beq (fl_parent l) SN_RUN_STMT)
          then (if TokenKind_beq (next_kind r') TOK_LPAREN then deco_close r' (i + 2) 0 (i + 1) else i + 1) :: deco_ends r (S i)
          else deco_ends r (S i)
      | [] => deco_ends r (S i)
      end
  end.

(** [deco_end && i > 0 && deco_end[i - 1]] *)
Definition after_deco (decos : list nat) (i : nat) : bool :=
  match i with O => false | S j => existsb (Nat.eqb j) decos end.

(** ** The printer *)

Record Printer : Type := mkPrinter {
  pr_out : cstr;
  pr_indent : Z;
  pr_started : bool;
  pr_col : Z;
  pr_prev : TokenKind;
  pr_prev_noncomment : TokenKind;
  pr_prev_parent : SyntaxNodeKind;
  pr_prev_line : Z;
  pr_force_nl : bool;
  pr_frames : list Frame;
  pr_depth : Z
}.

Definition printer_init : Printer := mkPrinter [] 0 false 0 TOK_EOF TOK_EOF SN_SOURCE_FILE 0 false [] 0.

(** The layout decision for the gap before a leaf: newline, space, the line's indentation, a
    synthesized comma, and the indentation afterwards. *)
Record Gap : Type := mkGap {
  gp_nl : bool;
  gp_space : bool;
  gp_eff : Z;
  gp_comma : bool;
  gp_indent : Z
}.

Definition after_unary (st : Printer) : bool :=
  SyntaxNodeKind_beq (pr_prev_parent st) SN_UNARY_EXPR && kind_in (pr_prev st) [TOK_MINUS; TOK_BANG].

Definition compact (st : Printer) (l : FLeaf) : bool :=
  SyntaxNodeKind_beq (fl_parent l) (pr_prev_parent st) &&
  parent_in (fl_parent l) [SN_TYPE_REF; SN_TYPE_ARRAY; SN_TYPE_SHAPED_ARRAY; SN_TYPE_HANDLE; SN_NAME_EXPR].

Definition normal_space (st : Printer) (l : FLeaf) (next : TokenKind) : bool :=
  negb (compact st l) && negb (after_unary st) && negb (no_space_before (fl_kind l) (pr_prev st) next (pr_prev_parent st)).

Definition closes (st : Printer) (l : FLeaf) : option Frame :=
  match pr_frames st with
  | f :: _ => if TokenKind_beq (fl_kind l) (fr_closer f) && (pr_depth st =? fr_depth f)%Z then Some f else None
  | [] => None
  end.

Definition within (st : Printer) (l : FLeaf) : option Frame :=
  match pr_frames st with
  | f :: _ => if (pr_depth st =? fr_depth f)%Z && negb (is_some (closes st l)) then Some f else None
  | [] => None
  end.

(** The closer of the innermost list. *)
Definition close_gap (st : Printer) (f : Frame) : Gap :=
  let indent := pr_indent st in
  if fr_broken f then
    mkGap true false (indent - 1)
      (negb (TokenKind_beq (pr_prev_noncomment st) TOK_COMMA) && negb (TokenKind_beq (pr_prev_noncomment st) (fr_opener f)) &&
       negb (parent_in (fr_parent f) [SN_EACH_EXPR; SN_SYSTEM_EXPR; SN_MAP_EXPR; SN_MAP_DECL; SN_QUERY_EXPR]))
      (indent - 1)
  else mkGap false (TokenKind_beq (fr_closer f) TOK_RBRACE) indent false indent.

(** A leaf directly inside the innermost list. *)
Definition item_gap (st : Printer) (f : Frame) (l : FLeaf) (next : TokenKind) : Gap :=
  let indent := pr_indent st in
  let import_sep := SyntaxNodeKind_beq (fr_parent f) SN_USE_DECL && TokenKind_beq (fl_kind l) TOK_IDENT &&
                    TokenKind_beq (pr_prev st) TOK_IDENT in
  if pr_force_nl st then mkGap true false indent false indent
  else if TokenKind_beq (fl_kind l) TOK_COMMENT && (fl_line l =? pr_prev_line st)%Z then
    mkGap false true indent
      (fr_broken f && negb (TokenKind_beq (pr_prev_noncomment st) TOK_COMMA) &&
       negb (TokenKind_beq (pr_prev_noncomment st) (fr_opener f))) indent
  else if TokenKind_beq (pr_prev st) (fr_opener f) then
    if fr_broken f then mkGap true false indent false indent
    else mkGap false (TokenKind_beq (fr_opener f) TOK_LBRACE) indent false indent
  else if TokenKind_beq (pr_prev st) TOK_COMMA || import_sep then
    if fr_broken f then mkGap true false indent false indent else mkGap false true indent false indent
  else mkGap false (normal_space st l next) indent false indent.

(** The block, statement and declaration path. *)
Definition block_gap (st : Printer) (l : FLeaf) (next : TokenKind) (deco : bool) : Gap :=
  let prev := pr_prev st in
  let for_header_semi := TokenKind_beq prev TOK_SEMI && SyntaxNodeKind_beq (pr_prev_parent st) SN_FOR_STMT in
  let vis := [TOK_HASH_MODULE; TOK_HASH_FILE; TOK_HASH_FOREIGN] in
  let vis_marker := kind_in (fl_kind l) vis in
  let after_vis_marker := kind_in prev vis && negb (TokenKind_beq (fl_kind l) TOK_LBRACE) in
  let block_close := TokenKind_beq (fl_kind l) TOK_RBRACE && is_block_brace l in
  let after_block_open := TokenKind_beq prev TOK_LBRACE in
  let pipe_break := TokenKind_beq (fl_kind l) TOK_PIPE_GT in
  let want_nl := pr_force_nl st || block_close || after_block_open || (TokenKind_beq prev TOK_SEMI && negb for_header_semi) ||
                 TokenKind_beq prev TOK_RBRACE || vis_marker || after_vis_marker || fl_decl_start l || deco || pipe_break in
  let want_nl := if TokenKind_beq (fl_kind l) TOK_COMMENT then negb (fl_line l =? pr_prev_line st)%Z else want_nl in
  let want_nl := if for_header_semi && (pr_prev_line st <? fl_line l)%Z then true else want_nl in
  let want_nl := if TokenKind_beq (fl_kind l) TOK_SEMI && TokenKind_beq prev TOK_RBRACE then false else want_nl in
  let indent := if block_close && negb (is_match_brace l) && (0 <? pr_indent st)%Z then (pr_indent st - 1)%Z else pr_indent st in
  if want_nl then mkGap true false (if pipe_break then indent + 1 else indent)%Z false indent
  else mkGap false (if TokenKind_beq (fl_kind l) TOK_COMMENT then true else normal_space st l next) (pr_indent st) false indent.

Definition layout (st : Printer) (l : FLeaf) (next : TokenKind) (deco : bool) : Gap :=
  if negb (pr_started st) then mkGap false false (pr_indent st) false (pr_indent st)
  else match closes st l with
       | Some f => close_gap st f
       | None => match within st l with
                 | Some f => item_gap st f l next
                 | None => block_gap st l next deco
                 end
       end.

Definition SPACE : ascii := " "%char.

Definition bpad (b : cstr) (n : nat) : cstr := b ++ repeat SPACE n.

(** The characters of a gap. *)
Definition gap_text (st : Printer) (l : FLeaf) (g : Gap) : cstr :=
  (if gp_comma g then [","%char] else []) ++
  (if gp_nl g then
     [NL] ++ (if (2 <=? fl_line l - pr_prev_line st)%Z then [NL] else []) ++ bpad [] (2 * Z.to_nat (gp_eff g))
   else if gp_space g then [SPACE] else []).

Definition gap_col (st : Printer) (g : Gap) : Z :=
  let col := (pr_col st + if gp_comma g then 1 else 0)%Z in
  (if gp_nl g then 2 * Z.of_nat (Z.to_nat (gp_eff g)) else if gp_space g then col + 1 else col)%Z.

(** The frames, the depth and the indentation after the leaf [l]; [col] is the column after it and
    [ls] the leaves from [l] on. *)
Definition bookkeep (st : Printer) (l : FLeaf) (ls : list FLeaf) (col indent : Z) : list Frame * Z * Z :=
  let fs := pr_frames st in
  let depth := pr_depth st in
  if is_some (closes st l) then (tl fs, depth - 1, indent)%Z
  else if is_close (fl_kind l) then (fs, depth - 1, indent)%Z
  else if is_open (fl_kind l) then
    let depth := (depth + 1)%Z in
    if is_list_open l && (List.length fs <? 128) then
      let broken := match flat_width ls with
                    | None => true
                    | Some fw => (MAX_WIDTH <? col + fw)%Z || has_trailing_comma ls
                    end in
      (mkFrame (fl_kind l) (if TokenKind_beq (fl_kind l) TOK_LPAREN then TOK_RPAREN else TOK_RBRACE) (fl_parent l) broken depth :: fs,
       depth, if broken then indent + 1 else indent)%Z
    else if TokenKind_beq (fl_kind l) TOK_LBRACE && is_block_brace l && negb (is_match_brace l) then (fs, depth, indent + 1)%Z
    else (fs, depth, indent)
  else (fs, depth, indent).

(** The two [continue]s: a trailing comma of a list printed inline, the optional [;] after a top-level [}]. *)
Definition dropped (st : Printer) (l : FLeaf) (next : TokenKind) : bool :=
  (TokenKind_beq (fl_kind l) TOK_COMMA &&
   match within st l with Some f => TokenKind_beq next (fr_closer f) && negb (fr_broken f) | None => false end) ||
  (TokenKind_beq (fl_kind l) TOK_SEMI && TokenKind_beq (pr_prev st) TOK_RBRACE && (pr_depth st =? 0)%Z).

(** One turn of the loop; [ls = l :: r] are the leaves from [l] on. *)
Definition print_leaf (st : Printer) (l : FLeaf) (r : list FLeaf) (deco : bool) : Printer :=
  let next := next_kind r in
  if dropped st l next then st
  else
    let g := layout st l next deco in
    let col := (gap_col st g + fl_len l)%Z in
    let '(frames, depth, indent) := bookkeep st l (l :: r) col (gp_indent g) in
    mkPrinter (pr_out st ++ gap_text st l g ++ fl_text l) indent true col (fl_kind l)
      (if negb (TokenKind_beq (fl_kind l) TOK_COMMENT) then fl_kind l
       else if gp_comma g then TOK_COMMA else pr_prev_noncomment st)
      (fl_parent l) (fl_line l) (is_line_comment l) frames depth.

Fixpoint print_loop (decos : list nat) (i : nat) (ls : list FLeaf) (st : Printer) : Printer :=
  match ls with
  | [] => st
  | l :: r => print_loop decos (S i) r (print_leaf st l r (after_deco decos i))
  end.

(** The printed text before alignment. *)
Definition print_leaves (ls : list FLeaf) : cstr := pr_out (print_loop (deco_ends ls 0) 0 ls printer_init) ++ [NL].
