(* ===== verification/FormatAlign.v ===== *)
(** * The alignment pass of the formatter ([align_and_write] in [src/syntax/format_syntax.c])

    The printed text is cut into lines, re-lexed to find each line's type colon and binding
    separator, and runs of lines of the same shape are rebuilt with their separators in columns.
    Line and column numbers are 1-based in tokens; a line's columns are byte indices. A slice whose
    end lies before its start is empty (it never arises, see [FormatFacts.v]). *)

From S2P Require Import Prelude Lexer SyntaxTree Format.

(** A line, its leading spaces, and the spans of its two separators. *)
Record AlignLine : Type := mkLine {
  al_text : cstr;
  al_leading : nat;
  al_type : option (nat * nat);
  al_bind : option (nat * nat)
}.

Definition alignable (L : AlignLine) : bool := is_some (al_type L) || is_some (al_bind L).

Definition bind_is_colon (L : AlignLine) : bool :=
  match al_bind L with
  | Some (s, _) => match nth_error (al_text L) s with Some c => Ascii.eqb c ":" | None => false end
  | None => false
  end.

Definition same_shape (a b : AlignLine) : bool :=
  Bool.eqb (is_some (al_type a)) (is_some (al_type b)) && Bool.eqb (is_some (al_bind a)) (is_some (al_bind b)) &&
  (if is_some (al_bind a) then Bool.eqb (bind_is_colon a) (bind_is_colon b) else true).

Definition line_add_sep (L : AlignLine) (single_colon : bool) (s e : nat) : AlignLine :=
  if negb (is_some (al_type L)) && negb (is_some (al_bind L)) && single_colon
  then mkLine (al_text L) (al_leading L) (Some (s, e)) (al_bind L)
  else if negb (is_some (al_bind L)) then mkLine (al_text L) (al_leading L) (al_type L) (Some (s, e))
  else L.

(** Slot 0 is the type colon, slot 1 the binding: the separator's span and the start of its cell. *)
Definition line_slot (L : AlignLine) (si : nat) : option (nat * nat * nat) :=
  match si with
  | O => match al_type L with Some (s, e) => Some (s, e, al_leading L) | None => None end
  | _ => match al_bind L with
         | Some (s, e) => Some (s, e, match al_type L with Some (_, te) => te | None => al_leading L end)
         | None => None
         end
  end.

(** The bytes [from .. to) of a text. *)
Definition sub (text : cstr) (from to : nat) : cstr := firstn (to - from) (skipn from text).

Fixpoint drop_spaces (s : cstr) : cstr :=
  match s with
  | c :: r => if Ascii.eqb c SPACE then drop_spaces r else s
  | [] => []
  end.

(** [while (len > 0 && data[len - 1] == ' ') len--;] *)
Definition strip_end (s : cstr) : cstr := rev (drop_spaces (rev s)).

(** [trim_slice]: the slice without the spaces at both ends. *)
Definition trim_slice (text : cstr) (from to : nat) : cstr := strip_end (drop_spaces (sub text from to)).

(** The lines that end in a newline, and the rest. *)
Fixpoint split_lines (b : cstr) : list cstr * cstr :=
  match b with
  | [] => ([], [])
  | c :: r =>
      let (ls, rest) := split_lines r in
      if Ascii.eqb c NL then ([] :: ls, rest)
      else match ls with
           | [] => ([], c :: rest)
           | l :: ls' => ((c :: l) :: ls', rest)
           end
  end.

Fixpoint leading_spaces (s : cstr) : nat :=
  match s with
  | c :: r => if Ascii.eqb c SPACE then S (leading_spaces r) else 0
  | [] => 0
  end.

Definition make_line (text : cstr) : AlignLine := mkLine text (leading_spaces text) None None.

(** [lines[ln] = f(lines[ln])]. *)
Fixpoint upd_nth {A} (n : nat) (f : A -> A) (l : list A) : list A :=
  match l, n with
  | [], _ => []
  | x :: r, O => f x :: r
  | x :: r, S m => x :: upd_nth m f r
  end.

(** The state of the scan over the re-lexed tokens: the lines, each line's start depth, the depth. *)
Record Scan : Type := mkScan {
  sc_lines : list AlignLine;
  sc_start : list (option Z);
  sc_depth : Z
}.

(** The separator a token opens: whether it is a single colon, its span, and whether it takes in the
    next token. *)
Definition separator (t : Token) (next : option Token) : option (bool * nat * nat * bool) :=
  let s := Z.to_nat (tok_column t - 1) in
  let e := s + tok_length t in
  match tok_kind t with
  | TOK_COLON =>
      match next with
      | Some n =>
          if kind_in (tok_kind n) [TOK_COLON; TOK_EQ] && (tok_line n =? tok_line t)%Z &&
             (tok_column n =? tok_column t + Z.of_nat (tok_length t))%Z
          then Some (false, s, Z.to_nat (tok_column n - 1) + tok_length n, true)
          else Some (true, s, e, false)
      | None => Some (true, s, e, false)
      end
  | TOK_EQ => Some (false, s, e, false)
  | _ => None
  end.

(** One turn of the loop, for a token on line [ln]. *)
Definition scan_token (sc : Scan) (t : Token) (next : option Token) (ln : nat) : Scan * bool :=
  let start := upd_nth ln (fun d => match d with None => Some (sc_depth sc) | Some _ => d end) (sc_start sc) in
  let sep := separator t next in
  let lines :=
    match sep with
    | Some (single, s, e, _) =>
        match nth_error start ln with
        | Some (Some d) => if (sc_depth sc =? d)%Z then upd_nth ln (fun L => line_add_sep L single s e) (sc_lines sc) else sc_lines sc
        | _ => sc_lines sc
        end
    | None => sc_lines sc
    end in
  let depth :=
    (if is_open (tok_kind t) then sc_depth sc + 1
     else if is_close (tok_kind t) then (if 0 <? sc_depth sc then sc_depth sc - 1 else sc_depth sc)
     else sc_depth sc)%Z in
  (mkScan lines start depth, match sep with Some (_, _, _, true) => true | _ => false end).

(** The loop; [skip] says that the token was taken in by the one before ([ti++]). *)
Fixpoint scan_tokens (ts : list Token) (skip : bool) (sc : Scan) : Scan :=
  match ts with
  | [] => sc
  | t :: r =>
      if skip then scan_tokens r false sc
      else if TokenKind_beq (tok_kind t) TOK_EOF then sc
      else
        let ln := (tok_line t - 1)%Z in
        if (ln <? 0)%Z || (Z.of_nat (List.length (sc_lines sc)) <=? ln)%Z then scan_tokens r false sc
        else let (sc', fold) := scan_token sc t (hd_error r) (Z.to_nat ln) in scan_tokens r fold sc'
  end.

(** ** Rebuilding a run *)

Definition cell (L : AlignLine) (si : nat) : option (cstr * cstr) :=
  match line_slot L si with
  | Some (ss, se, cf) => Some (trim_slice (al_text L) cf ss, sub (al_text L) ss se)
  | None => None
  end.

(** The first loop of a slot: the column its separators get. *)
Definition slot_target (si : nat) (rows : list (AlignLine * cstr)) : nat :=
  fold_left (fun target row =>
    match cell (fst row) si with
    | Some (c, _) => Nat.max target (List.length (snd row) + List.length c + 1)
    | None => target
    end) rows 0.

(** The second loop, on one line. *)
Definition slot_write (si target : nat) (row : AlignLine * cstr) : AlignLine * cstr :=
  match cell (fst row) si with
  | Some (c, sep) =>
      let out := snd row ++ c in
      (fst row, bpad out (target - List.length out) ++ sep ++ [SPACE])
  | None => row
  end.

Definition write_slot (si : nat) (rows : list (AlignLine * cstr)) : list (AlignLine * cstr) :=
  map (slot_write si (slot_target si rows)) rows.

(** The text after the last separator, without its leading spaces; then trailing spaces are dropped. *)
Definition finish_row (row : AlignLine * cstr) : cstr :=
  let L := fst row in
  let ts := match al_bind L with Some (_, e) => e | None => match al_type L with Some (_, e) => e | None => 0 end end in
  strip_end (snd row ++ drop_spaces (skipn ts (al_text L))).

Definition rebuild (run : list AlignLine) : list cstr :=
  let rows := map (fun L => (L, bpad [] (al_leading L))) run in
  map finish_row (write_slot 1 (write_slot 0 rows)).

(** The lines after [L] that belong to its run, and the rest. *)
Fixpoint take_run (L : AlignLine) (ls : list AlignLine) : list AlignLine * list AlignLine :=
  match ls with
  | M :: r =>
      if alignable M && Nat.eqb (al_leading M) (al_leading L) && same_shape M L
      then let (run, rest) := take_run L r in (M :: run, rest)
      else ([], ls)
  | [] => ([], [])
  end.

(** [while (g < line_count)]: each turn takes at least a line, so their number is enough fuel. *)
Fixpoint align_lines (fuel : nat) (ls : list AlignLine) : list cstr :=
  match fuel, ls with
  | S f, L :: r =>
      if alignable L then
        let (run, rest) := take_run L r in
        match run with
        | [] => al_text L :: align_lines f rest
        | _ => rebuild (L :: run) ++ align_lines f rest
        end
      else al_text L :: align_lines f r
  | _, _ => []
  end.

(** The separators of the printed text. *)
Definition scan_lines (lines : list cstr) (ts : list Token) : list AlignLine :=
  sc_lines (scan_tokens ts false (mkScan (map make_line lines) (map (fun _ => None) lines) 0)).

(** What is written to the file; [None] only when the lexer's loop had no bound. *)
Definition align_and_write (b : cstr) : option cstr :=
  let (lines, _) := split_lines b in
  match lines with
  | [] => Some b
  | _ =>
      match lexer_tokenize b with
      | None => None
      | Some ts => Some (List.concat (map (fun l => l ++ [NL]) (align_lines (List.length lines) (scan_lines lines ts))))
      end
  end.

(** [None] as above; a null root prints nothing. *)
Definition format_syntax (root : SyntaxElem) (src : cstr) : option cstr := align_and_write (print_leaves (collect src root)).
