(* ===== verification/FormatFacts.v ===== *)
(** * The formatter: lemmas

    What the printer writes between the leaves, where the re-lexed separators lie in their lines,
    and what rebuilding a run of lines does to the text. *)

From S2P Require Import Prelude Lexer LexerFacts SyntaxTree Format FormatAlign.

(** ** Texts without their spaces *)

Definition solid (s : cstr) : cstr := filter (fun c => negb (Ascii.eqb c SPACE)) s.

Lemma solid_app a b : solid (a ++ b) = solid a ++ solid b.
Proof. apply filter_app. Qed.

Lemma solid_pad n : solid (repeat SPACE n) = [].
Proof. induction n; auto. Qed.

Lemma solid_bpad b n : solid (bpad b n) = solid b.
Proof. unfold bpad. now rewrite solid_app, solid_pad, app_nil_r. Qed.

Lemma solid_drop s : solid (drop_spaces s) = solid s.
Proof. induction s as [|c s IH]; [reflexivity|]. cbn. destruct (Ascii.eqb c SPACE) eqn:E; [exact IH|]. cbn. now rewrite E. Qed.

Lemma solid_rev s : solid (rev s) = rev (solid s).
Proof. apply filter_rev. Qed.

Lemma solid_strip s : solid (strip_end s) = solid s.
Proof. unfold strip_end. now rewrite solid_rev, solid_drop, solid_rev, rev_involutive. Qed.

Lemma solid_trim t from to : solid (trim_slice t from to) = solid (sub t from to).
Proof. unfold trim_slice. now rewrite solid_strip, solid_drop. Qed.

Create Rewrite HintDb solid.
#[export] Hint Rewrite solid_app solid_bpad solid_strip solid_trim solid_drop solid_pad : solid.

Lemma firstn_sub t from to : from <= to -> firstn from t ++ sub t from to = firstn to t.
Proof.
  intros H. unfold sub. revert t to H. induction from as [|f IH]; intros t to H; cbn [firstn skipn app].
  - now rewrite Nat.sub_0_r.
  - destruct to as [|to]; [lia|]. destruct t as [|c t]; [now rewrite firstn_nil|]. cbn. f_equal. apply IH. lia.
Qed.

Lemma leading_pad s : firstn (leading_spaces s) s = repeat SPACE (leading_spaces s).
Proof.
  induction s as [|c s IH]; [reflexivity|]. cbn. destruct (Ascii.eqb c SPACE) eqn:E; [|reflexivity].
  apply Ascii.eqb_eq in E. subst c. cbn. now rewrite IH.
Qed.

(** A character that is not a space lies after the leading spaces. *)
Lemma leading_before s i c : nth_error s i = Some c -> c <> SPACE -> leading_spaces s <= i.
Proof.
  revert i; induction s as [|x s IH]; intros [|i] H Hc; try discriminate; cbn in *; destruct (Ascii.eqb_spec x SPACE); try lia.
  - congruence.
  - apply IH in H; auto. lia.
Qed.

Lemma Forall2_nth_error {A B} (R : A -> B -> Prop) l m :
  List.length l = List.length m -> (forall i x y, nth_error l i = Some x -> nth_error m i = Some y -> R x y) -> Forall2 R l m.
Proof.
  revert m; induction l as [|x l IH]; intros [|y m] L H; try discriminate; constructor.
  - now apply (H 0).
  - apply IH; [now injection L|]. intros i. apply (H (S i)).
Qed.

(** ** Lines *)

Lemma split_lines_join b : let (ls, rest) := split_lines b in b = List.concat (map (fun l => l ++ [NL]) ls) ++ rest.
Proof.
  induction b as [|c b IH]; [reflexivity|]. cbn. destruct (split_lines b) as [ls rest].
  destruct (Ascii.eqb_spec c NL) as [->|N]; [cbn; now rewrite IH|].
  destruct ls as [|l ls]; cbn in *; now rewrite IH.
Qed.

(** The number of newlines of a text and the length of what follows the last one. *)
Fixpoint place (p : cstr) : nat * nat :=
  match p with
  | [] => (0, 0)
  | c :: r =>
      let (a, b) := place r in
      if Ascii.eqb c NL then (S a, b) else match a with O => (0, S b) | _ => (a, b) end
  end.

Lemma place_updates p l c :
  updates p (l, c) = (let (a, b) := place p in
                      (l + Z.of_nat a, match a with O => c + Z.of_nat b | _ => 1 + Z.of_nat b end))%Z.
Proof.
  revert l c; induction p as [|x p IH]; intros l c; cbn -[Z.of_nat]; [f_equal; lia|].
  unfold updates in *. cbn [fold_left]. unfold upd at 2. cbn [fst snd]. destruct (place p) as [a b] eqn:E.
  destruct (Ascii.eqb x NL); rewrite IH; destruct a; f_equal; lia.
Qed.

Lemma place_app p q :
  place (p ++ q) = (let (a, b) := place p in let (c, d) := place q in
                    (a + c, match c with O => b + d | _ => d end)).
Proof.
  induction p as [|x p IH]; cbn [app place]; [destruct (place q) as [[|c] d]; reflexivity|].
  rewrite IH. destruct (place p) as [a b], (place q) as [c d]. destruct (Ascii.eqb x NL); [reflexivity|].
  destruct a, c; reflexivity.
Qed.

(** A character of the text, in the line and column of its prefix. *)
Lemma line_at p c q ls :
  split_lines (p ++ c :: q) = (ls, []) -> c <> NL ->
  exists l, nth_error ls (fst (place p)) = Some l /\ nth_error l (snd (place p)) = Some c.
Proof.
  revert ls; induction p as [|x p IH]; intros ls H Hc.
  - cbn in H. destruct (split_lines q) as [ls' rest]. destruct (Ascii.eqb_spec c NL); [contradiction|].
    destruct ls' as [|l ls']; [discriminate|]. injection H as <- ->. now exists (c :: l).
  - cbn in H. destruct (split_lines (p ++ c :: q)) as [ls' rest] eqn:E.
    cbn [place]. destruct (Ascii.eqb_spec x NL) as [->|N].
    + injection H as <- ->. destruct (IH ls' eq_refl Hc) as (l & H1 & H2). destruct (place p) as [a b]. now exists l.
    + destruct ls' as [|m ls']; [discriminate|]. injection H as <- ->.
      destruct (IH (m :: ls') eq_refl Hc) as (l & H1 & H2). destruct (place p) as [[|a] b]; cbn in *.
      * injection H1 as ->. now exists (x :: l).
      * now exists l.
Qed.

(** ** Tokens and where they lie *)

Definition is_sep_kind (k : TokenKind) : bool := kind_in k [TOK_COLON; TOK_EQ].

Lemma tk_eqb_spec a b : TokenKind_beq a b = true <-> a = b.
Proof. split; [apply internal_TokenKind_dec_bl|apply internal_TokenKind_dec_lb]. Qed.

(** The tokens of the text [src] from offset [o] on: in order, each at the line and column of its
    offset, a colon or equals sign being one character that is neither a space nor a newline. *)
Inductive placed (src : cstr) : nat -> list Token -> Prop :=
| pl_nil o : placed src o []
| pl_cons o o1 o2 t ts :
    o <= o1 <= o2 -> o2 <= List.length src ->
    (tok_line t, tok_column t) = updates (firstn o1 src) (1, 1)%Z ->
    (is_sep_kind (tok_kind t) = true ->
     o2 = S o1 /\ tok_length t = 1 /\ exists c, nth_error src o1 = Some c /\ c <> SPACE /\ c <> NL) ->
    placed src o2 ts -> placed src o (t :: ts).

Lemma keyword_not_sep t : is_sep_kind (keyword_kind t) = false.
Proof. unfold keyword_kind. repeat case_if; reflexivity. Qed.

Lemma directive_not_sep t : is_sep_kind (directive_kind t) = false.
Proof. unfold directive_kind. repeat case_if; reflexivity. Qed.

Lemma lex_directive_not_sep lx l1 : is_sep_kind (tok_kind (fst (lex_directive lx l1))) = false.
Proof. exact (directive_not_sep _). Qed.

Lemma lex_identifier_not_sep lx : is_sep_kind (tok_kind (fst (lex_identifier lx))) = false.
Proof. exact (keyword_not_sep _). Qed.

Lemma one_or_two_sep c k2 k1 lx l1 :
  is_sep_kind k2 = false -> is_sep_kind (tok_kind (fst (one_or_two c k2 k1 lx l1))) = true ->
  tok_length (fst (one_or_two c k2 k1 lx l1)) = 1.
Proof. unfold one_or_two. intros H2. case_if; cbn [fst tok_kind tok_at make_token]; [congruence|reflexivity]. Qed.

Lemma lex_operator_sep c lx l1 :
  is_sep_kind (tok_kind (fst (lex_operator c lx l1))) = true -> tok_length (fst (lex_operator c lx l1)) = 1.
Proof.
  unfold lex_operator. cbv zeta.
  repeat (case_if; [solve [discriminate | reflexivity | apply one_or_two_sep; reflexivity |
                           rewrite lex_directive_not_sep; discriminate |
                           repeat case_if; cbn; first [discriminate | apply one_or_two_sep; reflexivity | reflexivity]]|]).
  discriminate.
Qed.

Lemma char_close_sep lx l v : is_sep_kind (tok_kind (fst (lex_char_close lx l v))) = false.
Proof. unfold lex_char_close. case_if; reflexivity. Qed.

Lemma next_sep_length lx :
  lx_pending lx = [] -> is_sep_kind (tok_kind (fst (lexer_next_token lx))) = true ->
  tok_length (fst (lexer_next_token lx)) = 1.
Proof.
  intros Hp. unfold lexer_next_token. rewrite Hp. cbv zeta.
  case_if; [discriminate|]. case_if; [discriminate|]. case_if; [discriminate|].
  case_if; [rewrite lex_identifier_not_sep; discriminate|].
  case_if; [unfold lex_number; repeat case_if; discriminate|].
  case_if; [unfold lex_string; repeat case_if; discriminate|].
  case_if; [|apply lex_operator_sep].
  unfold lex_char_lit. repeat case_if; rewrite ?char_close_sep; discriminate.
Qed.

(** The tokens read from a state of the lexer, placed in its source. *)
Lemma tokens_from_placed n lx src done :
  List.length (lx_rest lx) <= n -> lx_pending lx = [] -> ~ In NUL (lx_rest lx) ->
  src = done ++ lx_rest lx -> (lx_line lx, lx_column lx) = updates done (1, 1)%Z ->
  placed src (List.length done) (tokens_from lx).
Proof.
  revert lx done; induction n as [n IH] using lt_wf_ind; intros lx done Hn Hp Hnul Hsrc Hlc.
  rewrite tokens_from_step by auto.
  pose proof (next_token_progress lx Hp) as Hlt. pose proof (next_token_pending lx Hp) as Hp'.
  pose proof (next_sep_length lx Hp) as Hsep.
  destruct (next_token_spec lx Hp) as (gap & txt & mid & [Hg Hb Ht Hl Hc Hs He Hpr Hx]).
  destruct (lexer_next_token lx) as [tok lx']. cbn in *.
  pose proof (spans_no_nul _ _ _ Hg Hnul) as Hnm. pose proof (spans_no_nul _ _ _ Ht Hnm) as Hn'.
  assert (P : forall ts, placed src (List.length (done ++ gap ++ txt)) ts -> placed src (List.length done) (tok :: ts)).
  { intros ts. apply (pl_cons _ _ (List.length (done ++ gap))).
    - rewrite !length_app. lia.
    - rewrite Hsrc, (sp_rest _ _ _ Hg), (sp_rest _ _ _ Ht), !length_app. lia.
    - rewrite Hl, Hc, (sp_lc _ _ _ Hg), Hlc, Hsrc, (sp_rest _ _ _ Hg), app_assoc, firstn_app_exact.
      unfold updates. now rewrite fold_left_app.
    - intros K. assert (tok_kind tok <> TOK_EOF /\ tok_kind tok <> TOK_ERROR) as [K1 K2] by (split; intros E; now rewrite E in K).
      destruct (Hs K2) as [_ L]. rewrite (Hsep K) in L. destruct txt as [|c [|]]; try discriminate.
      rewrite !length_app. cbn [List.length]. split; [lia|]. split; [auto|]. exists c.
      rewrite Hsrc, (sp_rest _ _ _ Hg), (sp_rest _ _ _ Ht), app_assoc, nth_error_app2, length_app by (rewrite length_app; lia).
      rewrite Nat.sub_diag. cbn. split; [reflexivity|].
      unfold peek in Hx. rewrite (sp_rest _ _ _ Ht) in Hx. cbn in Hx. split; intros ->; discriminate. }
  destruct (kind_is TOK_EOF tok) eqn:E; [apply P; constructor|]. apply P.
  apply kind_is_neq in E. specialize (Hlt E). rewrite !app_assoc.
  apply (IH (List.length (lx_rest lx'))); auto; [lia| |].
  - now rewrite Hsrc, (sp_rest _ _ _ Hg), (sp_rest _ _ _ Ht), !app_assoc.
  - rewrite (sp_lc _ _ _ (spans_trans _ _ _ _ _ Hg Ht)), Hlc. unfold updates. now rewrite <- !fold_left_app, app_assoc.
Qed.

Lemma tokenize_placed src ts : ~ In NUL src -> lexer_tokenize src = Some ts -> placed src 0 ts.
Proof.
  intros Hn H. rewrite lexer_tokenize_from in H. injection H as <-.
  exact (tokens_from_placed _ (lexer_init src) src [] (le_n _) eq_refl Hn eq_refl eq_refl).
Qed.

(** ** Separators in their lines *)

(** The separators of a line lie in order between its leading spaces and its end, before [stop]. *)
Definition spans_before (L : AlignLine) (stop : nat) : Prop :=
  match al_type L, al_bind L with
  | None, None => True
  | Some (s, e), None => al_leading L <= s <= e /\ e <= stop
  | None, Some (s, e) => al_leading L <= s <= e /\ e <= stop
  | Some (s, e), Some (s', e') => al_leading L <= s <= e /\ e <= s' <= e' /\ e' <= stop
  end.

(** The characters from [s] to [e] are in the text and none is a space. *)
Definition solid_span (text : cstr) (s e : nat) : Prop :=
  s < e /\ forall i, s <= i < e -> exists c, nth_error text i = Some c /\ c <> SPACE.

Definition solid_sep (text : cstr) (o : option (nat * nat)) : Prop :=
  match o with Some (s, e) => solid_span text s e | None => True end.

Definition is_line (text : cstr) (L : AlignLine) : Prop :=
  al_text L = text /\ al_leading L = leading_spaces text /\ spans_before L (List.length text) /\
  solid_sep text (al_type L) /\ solid_sep text (al_bind L).

Lemma solid_span_le text s e : solid_span text s e -> e <= List.length text.
Proof.
  intros [H S]. destruct (S (e - 1)) as (c & Hc & _); [lia|]. assert (e - 1 < List.length text) by (apply nth_error_Some; congruence). lia.
Qed.

Lemma add_sep_solid text L single s e :
  solid_sep text (al_type L) -> solid_sep text (al_bind L) -> solid_span text s e ->
  solid_sep text (al_type (line_add_sep L single s e)) /\ solid_sep text (al_bind (line_add_sep L single s e)).
Proof. intros. unfold line_add_sep. repeat case_if; auto. Qed.

Lemma spans_before_le L a b : a <= b -> spans_before L a -> spans_before L b.
Proof. unfold spans_before. destruct (al_type L) as [[]|], (al_bind L) as [[]|]; lia. Qed.

Lemma add_sep_spans L single s e stop :
  spans_before L s -> al_leading L <= s -> s <= e <= stop -> spans_before (line_add_sep L single s e) stop.
Proof.
  unfold spans_before, line_add_sep.
  destruct (al_type L) as [[]|] eqn:T, (al_bind L) as [[]|] eqn:B, single; cbn; rewrite ?T, ?B; lia.
Qed.

Lemma add_sep_text L single s e :
  al_text (line_add_sep L single s e) = al_text L /\ al_leading (line_add_sep L single s e) = al_leading L.
Proof. unfold line_add_sep. repeat case_if; auto. Qed.

(** After the scan has read the source up to offset [o]: the lines before the current one are
    complete, the current one holds separators before its column, the later ones hold none. *)
Definition scanned_to (src : cstr) (texts : list cstr) (o : nat) (lines : list AlignLine) : Prop :=
  let (a, b) := place (firstn o src) in
  List.length lines = List.length texts /\
  forall j text L, nth_error texts j = Some text -> nth_error lines j = Some L ->
    is_line text L /\ (j = a -> spans_before L b) /\ (a < j -> al_type L = None /\ al_bind L = None).

Lemma firstn_more (src : cstr) o o1 : o <= o1 -> o1 <= List.length src -> exists q, firstn o1 src = firstn o src ++ q.
Proof. intros H _. exists (sub src o o1). symmetry. now apply firstn_sub. Qed.

Lemma scanned_later src texts o o1 lines :
  o <= o1 -> o1 <= List.length src -> scanned_to src texts o lines -> scanned_to src texts o1 lines.
Proof.
  intros H H1. unfold scanned_to. destruct (firstn_more src o o1 H H1) as [q ->]. rewrite place_app.
  destruct (place (firstn o src)) as [a b], (place q) as [c d]. intros [Hl S]. split; [exact Hl|].
  intros j text L Ht HL. destruct (S j text L Ht HL) as (I & E & G). split; [exact I|]. split.
  - intros ->. destruct c as [|c].
    + rewrite Nat.add_0_r in *. eapply spans_before_le; [|now apply E]. lia.
    + destruct G as [T B]; [lia|]. unfold spans_before. now rewrite T, B.
  - intros Hj. apply G. lia.
Qed.

Lemma upd_nth_error {A} n (f : A -> A) l j :
  nth_error (upd_nth n f l) j = if Nat.eqb n j then option_map f (nth_error l j) else nth_error l j.
Proof. revert n j; induction l as [|x l IH]; intros [|n] [|j]; cbn; try reflexivity; [now destruct (Nat.eqb n j)|apply IH]. Qed.

Lemma upd_nth_length {A} n (f : A -> A) l : List.length (upd_nth n f l) = List.length l.
Proof. revert n; induction l as [|x l IH]; intros [|n]; cbn; auto. Qed.

(** What a token's line offers for a separator: its characters lie in the line. *)
Lemma sep_in_line src texts o c a b :
  split_lines src = (texts, []) -> nth_error src o = Some c -> c <> NL -> place (firstn o src) = (a, b) ->
  exists text, nth_error texts a = Some text /\ nth_error text b = Some c /\ place (firstn (S o) src) = (a, S b).
Proof.
  intros Hs Hc Hn Hp. destruct (nth_error_split _ _ Hc) as (p & q & -> & <-). rewrite firstn_app_exact in Hp.
  destruct (line_at p c q texts Hs Hn) as (text & H1 & H2). rewrite Hp in *. exists text. split; [exact H1|]. split; [exact H2|].
  replace (p ++ c :: q) with ((p ++ [c]) ++ q) by now rewrite <- app_assoc.
  replace (S (List.length p)) with (List.length (p ++ [c])) by (rewrite length_app; cbn; lia).
  rewrite firstn_app_exact, place_app, Hp. cbn. destruct (Ascii.eqb_spec c NL); [contradiction|]. now rewrite Nat.add_0_r, Nat.add_1_r.
Qed.

(** Recording a separator that starts at offset [o] and ends on the same line at offset [o']. *)
Lemma scanned_sep src texts o o' lines single a b e c :
  split_lines src = (texts, []) -> nth_error src o = Some c -> c <> SPACE -> c <> NL ->
  place (firstn o src) = (a, b) -> place (firstn o' src) = (a, e) ->
  (exists text, nth_error texts a = Some text /\ solid_span text b e) ->
  scanned_to src texts o lines ->
  scanned_to src texts o' (upd_nth a (fun L => line_add_sep L single b e) lines).
Proof.
  intros Hs Hc Hsp Hnl Hp Hp' (text & Ht & Sol) S. pose proof (solid_span_le _ _ _ Sol) as Le. pose proof (proj1 Sol) as Hbe.
  destruct (sep_in_line src texts o c a b Hs Hc Hnl Hp) as (text' & Ht' & Hb & _).
  rewrite Ht in Ht'. injection Ht' as <-. pose proof (leading_before text b c Hb Hsp) as Hlead.
  unfold scanned_to in *. rewrite Hp in S. rewrite Hp'. destruct S as [Hl S]. rewrite upd_nth_length. split; [exact Hl|].
  intros j t L Htj HL. rewrite upd_nth_error in HL. destruct (Nat.eqb_spec a j) as [<-|N].
  - rewrite Ht in Htj. injection Htj as <-. destruct (nth_error lines a) as [L0|] eqn:E; [|discriminate].
    injection HL as <-. destruct (S a text L0 Ht E) as ((I1 & I2 & I3 & I4 & I5) & B & _). specialize (B eq_refl).
    destruct (add_sep_solid text L0 single b e I4 I5 Sol) as [S1 S2].
    destruct (add_sep_text L0 single b e) as [T1 T2].
    refine (conj (conj _ (conj _ (conj _ (conj S1 S2)))) (conj _ _)); [congruence|congruence| | |lia].
    + apply (add_sep_spans _ _ _ _ (List.length text)); [exact B|lia|lia].
    + intros _. apply add_sep_spans; [exact B|lia|lia].
  - destruct (S j t L Htj HL) as (I & _ & G). split; [exact I|]. split; [congruence|exact G].
Qed.

(** The separator of a token and the offset its span ends at. *)
Lemma separator_sep t next single s e fold : separator t next = Some (single, s, e, fold) -> is_sep_kind (tok_kind t) = true.
Proof. unfold separator. destruct (tok_kind t); try discriminate; reflexivity. Qed.

Lemma token_place src o t a b :
  (tok_line t, tok_column t) = updates (firstn o src) (1, 1)%Z -> place (firstn o src) = (a, b) ->
  tok_line t = (1 + Z.of_nat a)%Z /\ tok_column t = (1 + Z.of_nat b)%Z.
Proof. rewrite place_updates. intros E P. rewrite P in E. injection E as -> ->. split; [reflexivity|]. now destruct a. Qed.

(** One separator, alone or folded with the token after it: where the scan is afterwards. *)
Lemma scan_sep src texts o1 t r lines single s e (fold : bool) a b :
  split_lines src = (texts, []) -> (tok_line t, tok_column t) = updates (firstn o1 src) (1, 1)%Z ->
  tok_length t = 1 -> (exists c, nth_error src o1 = Some c /\ c <> SPACE /\ c <> NL) -> placed src (S o1) r ->
  separator t (hd_error r) = Some (single, s, e, fold) -> place (firstn o1 src) = (a, b) ->
  scanned_to src texts o1 lines ->
  exists o', scanned_to src texts o' (upd_nth a (fun L => line_add_sep L single s e) lines) /\ S o1 <= o' <= List.length src /\
    (if fold then match r with [] => True | _ :: r' => placed src o' r' end else placed src o' r).
Proof.
  intros Hs Hu Hl (c & Hc & Hsp & Hnl) Hr Hsep Hp S.
  destruct (token_place src o1 t a b Hu Hp) as [Tl Tc].
  destruct (sep_in_line src texts o1 c a b Hs Hc Hnl Hp) as (text & Ht & Hb & Hp2).
  assert (Lb : b < List.length text) by (apply nth_error_Some; congruence).
  assert (Lo : o1 < List.length src) by (apply nth_error_Some; congruence).
  assert (Single : s = b -> e = Datatypes.S b -> fold = false -> exists o', scanned_to src texts o'
      (upd_nth a (fun L => line_add_sep L single s e) lines) /\ Datatypes.S o1 <= o' <= List.length src /\
      (if fold then match r with [] => True | _ :: r' => placed src o' r' end else placed src o' r)).
  { intros -> -> ->. exists (Datatypes.S o1). split; [|split; [lia|exact Hr]].
    apply (scanned_sep src texts o1 _ lines single a b _ c); auto. exists text. split; [exact Ht|].
    split; [lia|]. intros i Hi. replace i with b by lia. eauto. }
  unfold separator in Hsep. rewrite Tc, Hl in Hsep.
  replace (Z.to_nat (1 + Z.of_nat b - 1)) with b in Hsep by lia. rewrite Nat.add_1_r in Hsep.
  destruct (tok_kind t) eqn:K; try discriminate; [|injection Hsep as <- <- <- <-; now apply Single].
  destruct r as [|n r]; cbn [hd_error] in Hsep; [injection Hsep as <- <- <- <-; now apply Single|].
  destruct (_ && _ && _) eqn:F; [|injection Hsep as <- <- <- <-; now apply Single].
  injection Hsep as <- <- <- <-. apply andb_true_iff in F as [F Fc]. apply andb_true_iff in F as [Fk Fl].
  apply Z.eqb_eq in Fl, Fc. inversion Hr as [|o o1' o2' ? ? Ho Ho2 Hu' Hk Hr']; subst.
  destruct (Hk Fk) as (-> & L1 & c' & Hc' & Hsp' & Hnl'). destruct (place (firstn o1' src)) as [a' b'] eqn:Hp'.
  destruct (token_place src o1' n a' b' Hu' Hp') as [Tl' Tc'].
  assert (a' = a) as -> by lia. assert (b' = Datatypes.S b) as -> by lia.
  destruct (sep_in_line src texts o1' c' a (Datatypes.S b) Hs Hc' Hnl' Hp') as (text' & Ht' & Hb' & Hp3).
  rewrite Ht in Ht'. injection Ht' as <-.
  exists (Datatypes.S o1'). split; [|split; [lia|exact Hr']].
  replace (Z.to_nat (tok_column n - 1) + tok_length n) with (Datatypes.S (Datatypes.S b)) by lia.
  apply (scanned_sep src texts o1 _ lines false a b _ c); auto.
  exists text. split; [exact Ht|]. split; [lia|]. intros i Hi.
  assert (i = b \/ i = Datatypes.S b) as [->| ->] by lia; eauto.
Qed.

Lemma scan_tokens_to src texts (ts : list Token) (skip : bool) sc o :
  split_lines src = (texts, []) ->
  (if skip then match ts with [] => True | _ :: r => placed src o r end else placed src o ts) -> o <= List.length src ->
  scanned_to src texts o (sc_lines sc) ->
  exists o', scanned_to src texts o' (sc_lines (scan_tokens ts skip sc)).
Proof.
  intros Hs. revert skip sc o. induction ts as [|t r IH]; intros skip sc o Hpl Ho S; cbn [scan_tokens]; [eauto|].
  destruct skip; [now apply (IH false _ o)|]. inversion Hpl as [|? o1 o2 ? ? H1 H2 Hu Hk Hr]; subst.
  assert (S1 : scanned_to src texts o1 (sc_lines sc)) by (apply (scanned_later _ _ o); auto; lia).
  assert (S2 : scanned_to src texts o2 (sc_lines sc)) by (apply (scanned_later _ _ o1); auto; lia).
  case_if; [eauto|]. case_if; [now apply (IH false _ o2)|].
  destruct (place (firstn o1 src)) as [a b] eqn:Hp. destruct (token_place src o1 t a b Hu Hp) as [Tl _].
  replace (Z.to_nat (tok_line t - 1)) with a by lia. unfold scan_token.
  destruct (separator t (hd_error r)) as [[[[single s] e] fold]|] eqn:Hsep; cbn [fst snd].
  2:{ apply (IH false _ o2); auto. }
  destruct (Hk (separator_sep _ _ _ _ _ _ Hsep)) as (-> & L & C).
  destruct (scan_sep src texts o1 t r (sc_lines sc) single s e fold a b Hs Hu L C Hr Hsep Hp S1) as (o' & S' & Ho' & Hr').
  assert (S3 : scanned_to src texts o' (sc_lines sc)) by (apply (scanned_later _ _ o1); auto; lia).
  destruct fold; (apply (IH _ _ o'); cbn [sc_lines]; [assumption|lia|]);
    (destruct (nth_error (upd_nth _ _ _) a) as [[d|]|]; [destruct (_ =? d)%Z| |]; assumption).
Qed.

(** The lines the scan leaves: each keeps its text, and its separators lie in order inside it. *)
Lemma scan_lines_ok src texts ts :
  ~ In NUL src -> split_lines src = (texts, []) -> lexer_tokenize src = Some ts ->
  Forall2 is_line texts (scan_lines texts ts).
Proof.
  intros Hn Hs Ht. pose proof (tokenize_placed src ts Hn Ht) as P.
  destruct (scan_tokens_to src texts ts false (mkScan (map make_line texts) (map (fun _ => None) texts) 0) 0 Hs P) as (o & S);
    [lia| |].
  { unfold scanned_to. cbn. split; [apply length_map|]. intros j text L H1 H2. rewrite nth_error_map, H1 in H2.
    injection H2 as <-. repeat split; auto. }
  unfold scanned_to in S. destruct (place (firstn o src)) as [a b]. destruct S as [L S]. unfold scan_lines.
  apply Forall2_nth_error; [auto|]. intros j x y Hx Hy. apply (S j x y Hx Hy).
Qed.

(** ** Rebuilding a run *)

Lemma slot_write_cell si target L out c sep :
  cell L si = Some (c, sep) ->
  slot_write si target (L, out) = (L, (out ++ c ++ repeat SPACE (target - List.length (out ++ c))) ++ sep ++ [SPACE]).
Proof. intros H. unfold slot_write. cbn [fst snd]. rewrite H. unfold bpad. now rewrite <- !app_assoc. Qed.

Lemma slot_write_none si target L out : cell L si = None -> slot_write si target (L, out) = (L, out).
Proof. intros H. unfold slot_write. cbn [fst]. now rewrite H. Qed.

Lemma slot_write_fst si target row : fst (slot_write si target row) = fst row.
Proof. unfold slot_write. destruct (cell (fst row) si) as [[c sep]|]; reflexivity. Qed.

(** [out] holds the text of [L] up to [to], but for spaces. *)
Definition holds (L : AlignLine) (to : nat) (out : cstr) : Prop := solid out = solid (firstn to (al_text L)).

Lemma slot_write_holds si target L out ss se cf :
  line_slot L si = Some (ss, se, cf) -> cf <= ss -> ss <= se -> holds L cf out -> holds L se (snd (slot_write si target (L, out))).
Proof.
  intros H H1 H2 Ho. assert (C : cell L si = Some (trim_slice (al_text L) cf ss, sub (al_text L) ss se)) by (unfold cell; now rewrite H).
  rewrite (slot_write_cell _ _ _ _ _ _ C). cbn [snd]. unfold holds in *. autorewrite with solid. rewrite Ho, app_nil_r.
  rewrite <- (firstn_sub _ ss se H2), <- (firstn_sub _ cf ss H1). autorewrite with solid. cbn. now rewrite app_nil_r.
Qed.

(** Where the text written for a line ends after the two slots. *)
Definition end0 (L : AlignLine) : nat := match al_type L with Some (_, e) => e | None => al_leading L end.
Definition end1 (L : AlignLine) : nat := match al_bind L with Some (_, e) => e | None => end0 L end.

Lemma holds_slot0 text L target out : is_line text L -> holds L (al_leading L) out -> holds L (end0 L) (snd (slot_write 0 target (L, out))).
Proof.
  intros (_ & _ & B & _ & _) H. unfold spans_before in B. unfold end0. destruct (al_type L) as [[s e]|] eqn:T.
  - apply (slot_write_holds 0 target L out s e (al_leading L)); [cbn; now rewrite T| | |exact H];
      destruct (al_bind L) as [[]|]; lia.
  - rewrite slot_write_none; [exact H|]. unfold cell. cbn. now rewrite T.
Qed.

Lemma holds_slot1 text L target out : is_line text L -> holds L (end0 L) out -> holds L (end1 L) (snd (slot_write 1 target (L, out))).
Proof.
  intros (_ & _ & B & _ & _) H. unfold spans_before in B. unfold end1, end0 in *. destruct (al_bind L) as [[s e]|] eqn:T.
  - apply (slot_write_holds 1 target L out s e (match al_type L with Some (_, te) => te | None => al_leading L end));
      [cbn; now rewrite T| | |exact H]; destruct (al_type L) as [[]|]; lia.
  - rewrite slot_write_none; [exact H|]. unfold cell. cbn. now rewrite T.
Qed.

(** The row of a line after the two slots. *)
Definition row_of (t0 t1 : nat) (L : AlignLine) : AlignLine * cstr :=
  slot_write 1 t1 (slot_write 0 t0 (L, bpad [] (al_leading L))).

Lemma rebuild_rows run : exists t0 t1, rebuild run = map (fun L => finish_row (row_of t0 t1 L)) run /\
  t0 = slot_target 0 (map (fun L => (L, bpad [] (al_leading L))) run) /\
  t1 = slot_target 1 (map (fun L => slot_write 0 t0 (L, bpad [] (al_leading L))) run).
Proof.
  unfold rebuild, write_slot. cbv zeta. rewrite !map_map. eexists _, _. split; [reflexivity|]. split; reflexivity.
Qed.

Lemma slot_write_row si target L out : slot_write si target (L, out) = (L, snd (slot_write si target (L, out))).
Proof. rewrite (surjective_pairing (slot_write _ _ _)) at 1. now rewrite slot_write_fst. Qed.

Lemma finish_solid text t0 t1 L :
  is_line text L -> alignable L = true -> solid (finish_row (row_of t0 t1 L)) = solid text.
Proof.
  intros I A. assert (H0 : holds L (al_leading L) (bpad [] (al_leading L))).
  { destruct I as (Ht & Hl & _). unfold holds. rewrite Hl, Ht, leading_pad, solid_bpad, solid_pad. reflexivity. }
  pose proof (holds_slot0 text L t0 _ I H0) as H1. pose proof (holds_slot1 text L t1 _ I H1) as H2.
  unfold row_of. rewrite (slot_write_row 0) in *. unfold finish_row. rewrite slot_write_fst. cbn [fst].
  autorewrite with solid. rewrite H2. destruct I as (Ht & _). rewrite <- Ht, <- solid_app. f_equal.
  assert (E : match al_bind L with Some (_, e) => e | None => match al_type L with Some (_, e) => e | None => 0 end end = end1 L).
  { unfold end1, end0, alignable in *. destruct (al_bind L) as [[]|], (al_type L) as [[]|]; auto. discriminate. }
  rewrite E. apply firstn_skipn.
Qed.

Lemma take_run_app L ls :
  ls = fst (take_run L ls) ++ snd (take_run L ls) /\
  Forall (fun M => alignable M = true /\ same_shape M L = true) (fst (take_run L ls)).
Proof.
  induction ls as [|M ls [IH1 IH2]]; cbn; [auto|]. destruct (_ && _ && _) eqn:E; [|cbn; auto].
  apply andb_true_iff in E as [E Es]. apply andb_true_iff in E as [Ea _].
  destruct (take_run L ls) as [run rest]. cbn in *. split; [congruence|]. constructor; auto.
Qed.

(** Every line keeps its text, spaces aside. *)
Lemma align_lines_solid fuel texts ls :
  List.length ls <= fuel -> Forall2 is_line texts ls -> map solid (align_lines fuel ls) = map solid texts.
Proof.
  revert texts ls. induction fuel as [|f IH]; intros texts ls Hf H.
  - destruct H; [reflexivity|cbn in Hf; lia].
  - destruct H as [|t L texts ls HL H]; [reflexivity|]. cbn [List.length] in Hf. cbn [align_lines].
    destruct (alignable L) eqn:A.
    2:{ cbn [map]. rewrite (proj1 HL), (IH texts ls) by (assumption || lia). reflexivity. }
    destruct (take_run_app L ls) as [E F]. destruct (take_run L ls) as [run rest]. cbn [fst snd] in *. subst ls.
    apply Forall2_app_inv_r in H as (tr & trest & Hr & Hrest & ->). rewrite length_app in Hf.
    destruct run as [|M run].
    { inversion Hr; subst. cbn [map app]. rewrite (proj1 HL), (IH trest rest) by (assumption || lia). reflexivity. }
    rewrite map_app. cbn [map app]. rewrite map_app, (IH trest rest) by (assumption || lia).
    change (solid t :: map solid tr ++ map solid trest) with (map solid (t :: tr) ++ map solid trest). f_equal.
    assert (G : Forall2 is_line (t :: tr) (L :: M :: run)) by (constructor; assumption).
    assert (A' : Forall (fun N => alignable N = true) (L :: M :: run)).
    { constructor; [assumption|]. eapply Forall_impl; [|exact F]. now intros N []. }
    destruct (rebuild_rows (L :: M :: run)) as (t0 & t1 & -> & _). rewrite map_map. revert A'.
    induction G as [|x N xs Ns HN _ IHG]; intros A'; [reflexivity|]. cbn [map]. inversion_clear A'.
    rewrite (finish_solid x t0 t1 N) by assumption. f_equal. auto.
Qed.

Lemma solid_concat_lines a b : map solid a = map solid b ->
  solid (List.concat (map (fun l => l ++ [NL]) a)) = solid (List.concat (map (fun l => l ++ [NL]) b)).
Proof.
  revert b; induction a as [|x a IH]; intros [|y b] H; try discriminate; [reflexivity|]. cbn [map List.concat].
  injection H as H1 H2. rewrite !solid_app, H1. f_equal. auto.
Qed.

Lemma lexer_tokenize_some src : exists ts, lexer_tokenize src = Some ts.
Proof. rewrite lexer_tokenize_from. eauto. Qed.

Lemma split_lines_end b : exists ls, split_lines (b ++ [NL]) = (ls, []) /\ ls <> [].
Proof.
  induction b as [|c b (ls & E & N)]; [exists [[]]; split; [reflexivity|discriminate]|]. cbn. rewrite E.
  destruct (Ascii.eqb c NL); [exists ([] :: ls); split; [reflexivity|discriminate]|].
  destruct ls as [|l ls]; [contradiction|]. exists ((c :: l) :: ls). split; [reflexivity|discriminate].
Qed.

(** The pass on a text that ends in a newline. *)
Lemma align_and_write_lines b : exists ls ts,
  split_lines (b ++ [NL]) = (ls, []) /\ lexer_tokenize (b ++ [NL]) = Some ts /\
  align_and_write (b ++ [NL]) =
    Some (List.concat (map (fun l => l ++ [NL]) (align_lines (List.length ls) (scan_lines ls ts)))).
Proof.
  destruct (split_lines_end b) as (ls & E & N). destruct (lexer_tokenize_some (b ++ [NL])) as [ts T].
  exists ls, ts. split; [exact E|]. split; [exact T|]. unfold align_and_write. rewrite E, T. now destruct ls.
Qed.

Lemma align_solid b : ~ In NUL b -> exists out, align_and_write (b ++ [NL]) = Some out /\ solid out = solid (b ++ [NL]).
Proof.
  intros Hn. destruct (align_and_write_lines b) as (ls & ts & E & T & ->). eexists. split; [reflexivity|].
  assert (Hn' : ~ In NUL (b ++ [NL])) by (rewrite in_app_iff; intros [H|[H|[]]]; [auto|discriminate]).
  pose proof (scan_lines_ok _ ls ts Hn' E T) as F. pose proof (Forall2_length F) as L.
  rewrite (solid_concat_lines _ ls).
  - pose proof (split_lines_join (b ++ [NL])) as J. rewrite E in J. rewrite app_nil_r in J. now rewrite <- J.
  - apply align_lines_solid; [lia|exact F].
Qed.

(** ** Columns *)

Lemma drop_spaces_app s c r : c <> SPACE -> drop_spaces (s ++ c :: r) = drop_spaces s ++ c :: r.
Proof.
  intros Hc. induction s as [|x s IH]; cbn.
  - destruct (Ascii.eqb_spec c SPACE); [contradiction|reflexivity].
  - destruct (Ascii.eqb x SPACE); [exact IH|reflexivity].
Qed.

Lemma strip_end_app x c y : c <> SPACE -> strip_end ((x ++ [c]) ++ y) = (x ++ [c]) ++ strip_end y.
Proof.
  intros Hc. unfold strip_end. rewrite !rev_app_distr. cbn [rev app]. rewrite drop_spaces_app by assumption.
  rewrite rev_app_distr. cbn [rev]. now rewrite rev_involutive.
Qed.

Lemma solid_span_last text s e : solid_span text s e -> exists x c, sub text s e = x ++ [c] /\ c <> SPACE.
Proof.
  intros [H S]. destruct (S (e - 1)) as (c & Hc & N); [lia|]. exists (sub text s (e - 1)), c. split; [|exact N].
  assert (E : firstn e text = firstn (e - 1) text ++ [c]).
  { destruct (nth_error_split _ _ Hc) as (p & q & -> & Hp). replace e with (Datatypes.S (List.length p)) by lia.
    replace (Datatypes.S (List.length p) - 1) with (List.length p) by lia. rewrite firstn_app_exact.
    replace (Datatypes.S (List.length p)) with (List.length (p ++ [c])) by (rewrite length_app; cbn; lia).
    replace (p ++ c :: q) with ((p ++ [c]) ++ q) by now rewrite <- app_assoc. apply firstn_app_exact. }
  apply (app_inv_head (firstn s text)). rewrite firstn_sub by lia. rewrite E, app_assoc, firstn_sub by lia. reflexivity.
Qed.

(** The target is wide enough for every row that has the slot. *)
Lemma slot_target_bound si rows row c sep :
  In row rows -> cell (fst row) si = Some (c, sep) -> List.length (snd row) + List.length c < slot_target si rows.
Proof.
  intros Hin Hc. unfold slot_target.
  match goal with |- _ < fold_left ?g _ _ => set (f := g) end.
  assert (Mono : forall l t, t <= fold_left f l t).
  { induction l as [|r l IH]; intros t; [reflexivity|]. cbn [fold_left]. eapply Nat.le_trans; [|apply IH].
    unfold f. destruct (cell (fst r) si) as [[]|]; lia. }
  assert (G : forall l t, In row l -> List.length (snd row) + List.length c < fold_left f l t).
  { induction l as [|r l IH]; intros t H; [contradiction|]. destruct H as [<-|H]; cbn [fold_left]; [|now apply IH].
    eapply Nat.lt_le_trans; [|apply Mono]. unfold f. rewrite Hc. lia. }
  now apply G.
Qed.

(** The text written for a slot: the separator starts at the target column. *)
Lemma slot_write_column si rows L out c sep :
  In (L, out) rows -> cell L si = Some (c, sep) ->
  exists pre, slot_write si (slot_target si rows) (L, out) = (L, pre ++ sep ++ [SPACE]) /\
    List.length pre = slot_target si rows /\ exists more, pre = out ++ more.
Proof.
  intros Hin Hc. pose proof (slot_target_bound si rows (L, out) c sep Hin Hc) as B. cbn [snd] in B.
  rewrite (slot_write_cell _ _ _ _ _ _ Hc). eexists. split; [reflexivity|]. split; [|now eexists].
  rewrite !length_app, repeat_length. lia.
Qed.

(** In [out] the separator of slot [si] of [L] starts at column [col]. *)
Definition sep_at (si col : nat) (L : AlignLine) (out : cstr) : Prop :=
  exists pre c sep post, cell L si = Some (c, sep) /\ out = pre ++ sep ++ post /\ List.length pre = col.

Lemma sep_solid text L si c sep : is_line text L -> cell L si = Some (c, sep) -> exists x d, sep = x ++ [d] /\ d <> SPACE.
Proof.
  intros (Ht & _ & _ & S0 & S1) H. unfold cell in H. destruct (line_slot L si) as [[[ss se] cf]|] eqn:E; [|discriminate].
  injection H as <- <-. rewrite Ht. apply solid_span_last. unfold line_slot in E.
  destruct si; [destruct (al_type L) as [[]|]|destruct (al_bind L) as [[]|]]; try discriminate; injection E as <- <- _; assumption.
Qed.

Lemma finish_prefix L x d y :
  d <> SPACE -> exists post, finish_row (L, (x ++ [d]) ++ y) = (x ++ [d]) ++ post.
Proof. intros H. unfold finish_row. cbn [snd]. rewrite <- app_assoc, strip_end_app by assumption. eauto. Qed.

(** Every line of a run that has a slot gets the slot's separator at the run's column. *)
Lemma rebuild_column si run :
  si < 2 -> Forall (fun L => exists text, is_line text L) run -> Forall (fun L => is_some (cell L si) = true) run ->
  exists col, Forall2 (sep_at si col) run (rebuild run).
Proof.
  intros Hsi HI HC. destruct (rebuild_rows run) as (t0 & t1 & -> & E0 & E1).
  assert (W : forall L, In L run -> exists pre c sep more,
    cell L si = Some (c, sep) /\ snd (row_of t0 t1 L) = (pre ++ sep) ++ more /\ List.length pre = (if Nat.eqb si 0 then t0 else t1)).
  { intros L Hin. rewrite Forall_forall in HC. specialize (HC L Hin).
    destruct (cell L si) as [[c sep]|] eqn:Hc; [|discriminate]. unfold row_of.
    destruct si as [|[|si]]; [| |lia]; cbn [Nat.eqb].
    - destruct (slot_write_column 0 (map (fun L => (L, bpad [] (al_leading L))) run) L (bpad [] (al_leading L)) c sep) as (pre & W & Lp & _);
        [now apply (in_map (fun L => (L, bpad [] (al_leading L))))|assumption|]. rewrite <- E0 in *. rewrite W.
      destruct (cell L 1) as [[c1 sep1]|] eqn:H1.
      + rewrite (slot_write_cell _ _ _ _ _ _ H1). cbn [snd]. exists pre, c, sep. eexists. split; [reflexivity|].
        split; [|exact Lp]. rewrite <- !app_assoc. reflexivity.
      + rewrite (slot_write_none _ _ _ _ H1). cbn [snd]. exists pre, c, sep, [SPACE]. rewrite <- app_assoc. auto.
    - destruct (slot_write_column 1 (map (fun L => slot_write 0 t0 (L, bpad [] (al_leading L))) run) L
        (snd (slot_write 0 t0 (L, bpad [] (al_leading L)))) c sep) as (pre & W & Lp & _).
      + rewrite <- slot_write_row. now apply (in_map (fun L => slot_write 0 t0 (L, bpad [] (al_leading L)))).
      + assumption.
      + rewrite <- E1, <- slot_write_row in W. rewrite W. cbn [snd]. exists pre, c, sep, [SPACE]. rewrite <- E1 in Lp.
        rewrite <- app_assoc. auto. }
  exists (if Nat.eqb si 0 then t0 else t1). revert HI W. clear HC E0 E1. induction run as [|L run IH]; intros HI W; [constructor|].
  inversion_clear HI as [|? ? [text I] HI']. constructor; [|apply IH; [assumption|intros; apply W; now right]].
  destruct (W L (or_introl eq_refl)) as (pre & c & sep & more & Hc & E & Lp).
  destruct (sep_solid text L si c sep I Hc) as (u & d & -> & Hd).
  destruct (finish_prefix L (pre ++ u) d more Hd) as [post F].
  exists pre, c, (u ++ [d]), post. split; [exact Hc|]. split; [|exact Lp].
  assert (R : row_of t0 t1 L = (L, ((pre ++ u) ++ [d]) ++ more)).
  { rewrite (surjective_pairing (row_of t0 t1 L)), E. unfold row_of. rewrite !slot_write_fst. cbn [fst]. f_equal.
    now rewrite <- !app_assoc. }
  rewrite R, F, <- !app_assoc. reflexivity.
Qed.

(** ** The printer *)

Definition blank (c : ascii) : Prop := c = SPACE \/ c = NL.

(** How a leaf of kind [k] changes the bracket depth. *)
Definition nesting (k : TokenKind) : Z := if is_open k then 1%Z else if is_close k then (-1)%Z else 0%Z.

(** [reprints prev d ls o]: after a text whose last leaf has kind [prev] and whose brackets leave [d]
    of them open, [o] is the texts of [ls] in order with blanks between them, but for
    - commas that are left out, only right before a closing parenthesis or brace;
    - semicolons that are left out, only outside all brackets and right after a closing brace, where
      the grammar makes the terminator of a declaration optional;
    - commas that are put in, only before a closing bracket or a comment. *)
Inductive reprints (prev : TokenKind) (d : Z) : list FLeaf -> cstr -> Prop :=
| rp_nil : reprints prev d [] []
| rp_drop_comma l n r o :
    fl_kind l = TOK_COMMA -> kind_in (fl_kind n) [TOK_RPAREN; TOK_RBRACE] = true -> reprints prev d (n :: r) o ->
    reprints prev d (l :: n :: r) o
| rp_drop_semi l r o : fl_kind l = TOK_SEMI -> prev = TOK_RBRACE -> d = 0%Z -> reprints prev d r o -> reprints prev d (l :: r) o
| rp_print l r comma gap o :
    comma = [] \/ comma = [","%char] /\ kind_in (fl_kind l) [TOK_RPAREN; TOK_RBRACE; TOK_COMMENT] = true ->
    Forall blank gap -> reprints (fl_kind l) (d + nesting (fl_kind l)) r o -> reprints prev d (l :: r) (comma ++ gap ++ fl_text l ++ o).

Definition frames_ok (fs : list Frame) : Prop :=
  Forall (fun f => kind_in (fr_closer f) [TOK_RPAREN; TOK_RBRACE] = true) fs /\ List.length fs <= 128.

Lemma closes_in st l f : closes st l = Some f -> In f (pr_frames st) /\ fl_kind l = fr_closer f.
Proof.
  unfold closes. destruct (pr_frames st) as [|g fs]; [discriminate|]. case_if; [|discriminate]. intros [= <-].
  apply andb_true_iff in E as [E _]. apply tk_eqb_spec in E. split; [now left|exact E].
Qed.

Lemma within_in st l f : within st l = Some f -> In f (pr_frames st).
Proof. unfold within. destruct (pr_frames st) as [|g fs]; [discriminate|]. case_if; [|discriminate]. intros [= <-]. now left. Qed.

Lemma layout_comma st l next deco :
  frames_ok (pr_frames st) -> gp_comma (layout st l next deco) = true ->
  kind_in (fl_kind l) [TOK_RPAREN; TOK_RBRACE; TOK_COMMENT] = true.
Proof.
  intros [F _]. rewrite Forall_forall in F. unfold layout. case_if; [discriminate|].
  destruct (closes st l) as [f|] eqn:C.
  - intros _. destruct (closes_in st l f C) as [Hin ->]. specialize (F f Hin). unfold kind_in in *. cbn [existsb] in *.
    destruct (TokenKind_beq (fr_closer f) TOK_RPAREN); [reflexivity|]. destruct (TokenKind_beq (fr_closer f) TOK_RBRACE); [reflexivity|discriminate].
  - destruct (within st l) as [f|] eqn:W.
    + unfold item_gap. cbv zeta. case_if; [discriminate|]. case_if; [|repeat case_if; discriminate].
      intros _. apply andb_true_iff in E1 as [E1 _]. apply tk_eqb_spec in E1. now rewrite E1.
    + unfold block_gap. cbv zeta. match goal with |- gp_comma (if ?b then _ else _) = true -> _ => destruct b end; discriminate.
Qed.

Lemma gap_blank st l g : exists comma gap, gap_text st l g = comma ++ gap /\ Forall blank gap /\
  (comma = [] \/ comma = [","%char] /\ gp_comma g = true).
Proof.
  unfold gap_text. eexists _, _. split; [reflexivity|]. split.
  - assert (P : forall n, Forall blank (repeat SPACE n)) by (intros n; induction n; constructor; [now left|assumption]).
    destruct (gp_nl g).
    + constructor; [now right|]. apply Forall_app. split; [case_if; repeat constructor; now right|apply P].
    + destruct (gp_space g); repeat constructor.
  - destruct (gp_comma g); auto.
Qed.

Lemma bookkeep_frames st l ls col indent :
  frames_ok (pr_frames st) -> frames_ok (fst (fst (bookkeep st l ls col indent))).
Proof.
  intros [F L]. unfold bookkeep. cbv zeta. case_if; [destruct (pr_frames st) as [|f fs]; [split; auto|]|].
  - inversion_clear F. cbn in *. split; [assumption|lia].
  - case_if; [split; auto|]. case_if; [|split; auto]. case_if; [|case_if; split; auto]. cbn [fst].
    apply andb_true_iff in E2 as [_ E2]. apply Nat.ltb_lt in E2. split; [constructor; [case_if; reflexivity|assumption]|cbn; lia].
Qed.

(** The depth follows the brackets: the closer of a list is a closing bracket. *)
Lemma bookkeep_depth st l ls col indent :
  frames_ok (pr_frames st) -> snd (fst (bookkeep st l ls col indent)) = (pr_depth st + nesting (fl_kind l))%Z.
Proof.
  intros [F _]. rewrite Forall_forall in F. unfold bookkeep, nesting. cbv zeta. destruct (closes st l) as [f|] eqn:C; cbn [is_some].
  - destruct (closes_in st l f C) as [Hin ->]. specialize (F f Hin). unfold kind_in in F. cbn [existsb] in F.
    destruct (fr_closer f); try discriminate; cbn; lia.
  - destruct (fl_kind l); cbn [is_open is_close kind_in existsb TokenKind_beq orb fst snd]; repeat case_if; cbn [fst snd]; lia.
Qed.

Lemma dropped_cases st l r :
  frames_ok (pr_frames st) -> dropped st l (next_kind r) = true ->
  (fl_kind l = TOK_SEMI /\ pr_prev st = TOK_RBRACE /\ pr_depth st = 0%Z) \/
  (fl_kind l = TOK_COMMA /\ exists n r', r = n :: r' /\ kind_in (fl_kind n) [TOK_RPAREN; TOK_RBRACE] = true).
Proof.
  intros [F _] D. rewrite Forall_forall in F. unfold dropped in D. apply orb_true_iff in D as [D|D].
  - right. apply andb_true_iff in D as [K D]. apply tk_eqb_spec in K. split; [exact K|].
    destruct (within st l) as [f|] eqn:W; [|discriminate]. apply andb_true_iff in D as [D _]. apply tk_eqb_spec in D.
    specialize (F f (within_in _ _ _ W)). rewrite <- D in F. destruct r as [|n r]; [discriminate|]. eauto.
  - left. apply andb_true_iff in D as [D Z0]. apply andb_true_iff in D as [D P]. apply tk_eqb_spec in D, P. apply Z.eqb_eq in Z0. auto.
Qed.

(** The state after a leaf that is printed. *)
Lemma print_leaf_printed st l r deco :
  frames_ok (pr_frames st) -> dropped st l (next_kind r) = false ->
  let st' := print_leaf st l r deco in
  frames_ok (pr_frames st') /\ pr_prev st' = fl_kind l /\ pr_depth st' = (pr_depth st + nesting (fl_kind l))%Z /\
  pr_out st' = pr_out st ++ gap_text st l (layout st l (next_kind r) deco) ++ fl_text l.
Proof.
  intros F D. unfold print_leaf. rewrite D. cbv zeta.
  match goal with |- context [bookkeep ?a ?b ?c ?d ?e] =>
    pose proof (bookkeep_frames a b c d e F) as B; pose proof (bookkeep_depth a b c d e F) as N; destruct (bookkeep a b c d e) as [[fs d'] i'] end.
  auto.
Qed.

(** The printer reprints the leaves. *)
Lemma print_loop_reprints decos i ls st :
  frames_ok (pr_frames st) ->
  exists o, pr_out (print_loop decos i ls st) = pr_out st ++ o /\ reprints (pr_prev st) (pr_depth st) ls o.
Proof.
  revert i st; induction ls as [|l r IH]; intros i st F; cbn [print_loop].
  - exists []. split; [now rewrite app_nil_r|constructor].
  - destruct (dropped st l (next_kind r)) eqn:D.
    + destruct (IH (S i) st F) as (o & E & R). exists o. unfold print_leaf. rewrite D. split; [exact E|].
      destruct (dropped_cases st l r F D) as [(K & P & Z0)|[K (n & r' & -> & Kn)]].
      * now apply rp_drop_semi.
      * now apply rp_drop_comma.
    + destruct (print_leaf_printed st l r (after_deco decos i) F D) as (F' & P & N & O).
      destruct (IH (S i) _ F') as (o & -> & R). rewrite O. rewrite P, N in R.
      destruct (gap_blank st l (layout st l (next_kind r) (after_deco decos i))) as (comma & gap & -> & B & C).
      exists (comma ++ gap ++ fl_text l ++ o). split; [now rewrite <- !app_assoc|].
      apply rp_print; [|exact B|exact R]. destruct C as [C|[C Hc]]; [now left|right]. split; [exact C|].
      now apply (layout_comma _ _ _ _ F) in Hc.
Qed.

Lemma print_leaves_reprints ls : exists o, print_leaves ls = o ++ [NL] /\ reprints TOK_EOF 0 ls o.
Proof.
  unfold print_leaves. destruct (print_loop_reprints (deco_ends ls 0) 0 ls printer_init) as (o & E & R).
  - split; [constructor|cbn; lia].
  - rewrite E. exists o. auto.
Qed.

(** ** The leaves *)

Lemma mark_first_map {A} (f : FLeaf -> A) ls :
  (forall k t l p d, f (mkFLeaf k t l p d) = f (mkFLeaf k t l p true)) -> map f (mark_first ls) = map f ls.
Proof. intros H. destruct ls as [|[k t l p d] r]; [reflexivity|]. cbn. now rewrite (H k t l p d). Qed.

(** The kind, text and line of each leaf are those of the tree's leaves, in order. *)
Lemma collect_leaves src k i o n cs :
  map (fun l => (fl_kind l, fl_text l, fl_line l)) (collect src (SE_NODE k i o n cs)) =
  map (fun l => (lf_kind l, slice src (lf_offset l) (lf_length l), lf_line l)) (leaves (SE_NODE k i o n cs)).
Proof.
  set (f := fun l : FLeaf => _). set (g := fun l : Leaf => _).
  enough (G : forall e, match e with SE_TOKEN _ => True | SE_NODE _ _ _ _ _ => map f (collect src e) = map g (leaves e) end)
    by apply (G (SE_NODE k i o n cs)).
  clear. intros e. induction e as [l|k i o n cs IH] using syntax_elem_ind; [exact I|]. cbn [collect leaves].
  induction IH as [|e cs He _ IHcs]; [reflexivity|]. cbn [flat_map]. rewrite !map_app, IHcs. f_equal.
  destruct e as [l|k' i' o' n' cs']; [reflexivity|]. destruct (is_top k); [rewrite mark_first_map by reflexivity|]; exact He.
Qed.

Lemma slice_no_nul src o n : ~ In NUL src -> ~ In NUL (slice src o n).
Proof. 
  intros H Hin. apply H. unfold slice in Hin. rewrite <- (firstn_skipn (Z.to_nat o) src). apply in_or_app. right.
  rewrite <- (firstn_skipn (Z.to_nat n) (skipn (Z.to_nat o) src)). apply in_or_app. now left. Qed.

Lemma reprints_no_nul prev d ls o : reprints prev d ls o -> Forall (fun l => ~ In NUL (fl_text l)) ls -> ~ In NUL o.
Proof.
  induction 1 as [|? ? l n r o K Kn _ IH|? ? l r o K P D _ IH|? ? l r comma gap o C B _ IH]; intros F; inversion_clear F; auto.
  rewrite !in_app_iff. intros [H1|[H1|[H1|H1]]]; [| |now apply H|now apply IH].
  - destruct C as [->|[-> _]]; [contradiction|]. destruct H1 as [H1|[]]. discriminate.
  - rewrite Forall_forall in B. destruct (B NUL H1); discriminate.
Qed.

Lemma shape_cell M L si : same_shape M L = true -> is_some (cell M si) = is_some (cell L si).
Proof.
  unfold same_shape. intros H. apply andb_true_iff in H as [H _]. apply andb_true_iff in H as [H1 H2].
  apply eqb_prop in H1, H2. unfold cell, line_slot.
  destruct si; [destruct (al_type M) as [[]|], (al_type L) as [[]|]|destruct (al_bind M) as [[]|], (al_bind L) as [[]|]]; cbn in *; congruence.
Qed.
