(* ===== verification/FormatProps.v ===== *)
(** * Correctness of the source formatter

    Formatting keeps the program's text: only blanks, trailing commas and the optional terminators of
    top-level declarations change. The alignment pass changes spaces only and puts the separators of a run of
    lines into columns. One defect is shown: the pass also drops spaces inside string literals. *)

From S2P Require Import Prelude Lexer LexerFacts SyntaxTree ParserCore Parser Format FormatAlign FormatFacts.

(** The formatter on a source text. *)
Definition format_source (src : cstr) : option cstr :=
  match parse_source src 0 with Some r => format_syntax (pr_syntax_root r) src | None => None end.

Definition is_node (e : SyntaxElem) : Prop := match e with SE_NODE _ _ _ _ _ => True | SE_TOKEN _ => False end.

(** C32: Formatting changes layout only: for every tree over a C string, the formatter writes, spaces
    aside, the texts of the tree's leaves, in order, separated by blanks. The only leaves left out are
    commas right before a closing parenthesis or brace, and semicolons outside all brackets that follow
    a closing brace, the optional terminators of top-level declarations; a semicolon inside a body is
    never left out. The only characters added are commas before a closing bracket or a comment. *)
Theorem format_keeps_text root src :
  ~ In NUL src -> is_node root ->
  exists ls o out,
    format_syntax root src = Some out /\ solid out = solid (o ++ [NL]) /\ reprints TOK_EOF 0 ls o /\
    map (fun l => (fl_kind l, fl_text l, fl_line l)) ls =
    map (fun l => (lf_kind l, slice src (lf_offset l) (lf_length l), lf_line l)) (leaves root).
Proof.
  intros Hn Hr. destruct root as [l|k i o0 n cs]; [contradiction|]. exists (collect src (SE_NODE k i o0 n cs)).
  destruct (print_leaves_reprints (collect src (SE_NODE k i o0 n cs))) as (o & E & R). exists o.
  assert (F : Forall (fun l => ~ In NUL (fl_text l)) (collect src (SE_NODE k i o0 n cs))).
  { apply Forall_forall. intros l Hin. pose proof (collect_leaves src k i o0 n cs) as C.
    apply (in_map (fun l => (fl_kind l, fl_text l, fl_line l))) in Hin. rewrite C in Hin. apply in_map_iff in Hin as (lf & X & _).
    injection X as _ <- _. now apply slice_no_nul. }
  destruct (align_solid o (reprints_no_nul _ _ _ _ R F)) as (out & A & S). exists out.
  unfold format_syntax. rewrite E. refine (conj A (conj S (conj R _))). apply collect_leaves.
Qed.

Definition messy : cstr := lit "f :: proc( ){ xx:=1;y   :=foo( xx , 2, ) ; b:={ 1,2 } ; };".

Definition messy_root : SyntaxElem := match parse_source messy 0 with Some r => pr_syntax_root r | None => make_node [] SN_ERROR 0 end.

Lemma format_keeps_text_witness :
  format_source messy = Some (lit "f :: proc() {" ++ [NL] ++ lit "  xx := 1;" ++ [NL] ++ lit "  y  := foo(" ++ [NL] ++
    lit "    xx," ++ [NL] ++ lit "    2," ++ [NL] ++ lit "  );" ++ [NL] ++ lit "  b := { 1, 2 };" ++ [NL] ++ lit "}" ++ [NL]) /\
  exists ls o out, format_syntax messy_root messy = Some out /\ solid out = solid (o ++ [NL]) /\ reprints TOK_EOF 0 ls o /\
    map (fun l => (fl_kind l, fl_text l, fl_line l)) ls =
    map (fun l => (lf_kind l, slice messy (lf_offset l) (lf_length l), lf_line l)) (leaves messy_root).
Proof.
  split; [vm_compute; reflexivity|]. apply (format_keeps_text messy_root messy).
  - vm_compute. intuition discriminate.
  - vm_compute. exact I.
Defined.

(** C33: Alignment puts separators into columns: whenever the pass rebuilds a run of lines - consecutive
    lines of equal indentation and shape - every separator of a slot the run has starts at the same
    column on each of its lines. *)
Theorem separators_aligned b before L after si :
  ~ In NUL b -> (exists texts ts, split_lines (b ++ [NL]) = (texts, []) /\ lexer_tokenize (b ++ [NL]) = Some ts /\
                   scan_lines texts ts = before ++ L :: after) ->
  si < 2 -> is_some (cell L si) = true ->
  let run := L :: fst (take_run L after) in
  exists col, Forall2 (sep_at si col) run (rebuild run).
Proof.
  intros Hn (texts & ts & Hs & Ht & E) Hsi Hc. apply rebuild_column; [exact Hsi| |].
  - assert (Hn' : ~ In NUL (b ++ [NL])) by (rewrite in_app_iff; intros [H|[H|[]]]; [auto|discriminate]).
    pose proof (scan_lines_ok _ texts ts Hn' Hs Ht) as F. rewrite E in F.
    assert (A : Forall (fun M => exists text, is_line text M) (before ++ L :: after)).
    { clear - F. remember (before ++ L :: after) as l. clear Heql. induction F; constructor; eauto. }
    apply Forall_app in A as [_ A]. inversion_clear A as [|? ? HL HA]. constructor; [exact HL|].
    rewrite (proj1 (take_run_app L after)) in HA. now apply Forall_app in HA as [HA _].
  - constructor; [exact Hc|]. eapply Forall_impl; [|exact (proj2 (take_run_app L after))].
    intros M [_ S]. now rewrite (shape_cell M L si S).
Qed.

Lemma separators_aligned_witness :
  let b := lit "x := 1;" ++ [NL] ++ lit "long := 2;" in
  let L := mkLine (lit "x := 1;") 0 None (Some (2, 4)) in
  let M := mkLine (lit "long := 2;") 0 None (Some (5, 7)) in
  rebuild [L; M] = [lit "x    := 1;"; lit "long := 2;"] /\ exists col, Forall2 (sep_at 1 col) [L; M] (rebuild [L; M]).
Proof.
  cbn zeta. split; [vm_compute; reflexivity|].
  apply (separators_aligned (lit "x := 1;" ++ [NL] ++ lit "long := 2;") [] (mkLine (lit "x := 1;") 0 None (Some (2, 4)))
    [mkLine (lit "long := 2;") 0 None (Some (5, 7))] 1).
  - vm_compute. intuition discriminate.
  - eexists _, _. refine (conj _ (conj _ _)).
    + vm_compute. reflexivity.
    + vm_compute. reflexivity.
    + vm_compute. reflexivity.
  - lia.
  - reflexivity.
Defined.

(** A binding of a string that spans two lines, with spaces before the line break. *)
Definition two_line_string : cstr := ["034"%char] ++ lit "a  " ++ [NL] ++ lit "b" ++ ["034"%char].

(** On this source the formatter changes a string literal: the alignment pass drops the spaces at the
    end of a rebuilt line although they belong to a literal that continues on the next line. *)
Example formatter_alters_string :
  format_source (lit "f :: proc() { x := 1; y := " ++ two_line_string ++ lit "; }") =
  Some (lit "f :: proc() {" ++ [NL] ++ lit "  x := 1;" ++ [NL] ++ lit "  y := " ++ ["034"%char] ++ lit "a" ++ [NL] ++
        lit "b" ++ ["034"%char] ++ lit ";" ++ [NL] ++ lit "}" ++ [NL]).
Proof. vm_compute. reflexivity. Qed.
