(* ===== verification/SemTypes.v ===== *)
(** * The type arena ([src/semantic/sem_types.c], [src/semantic/sem_types.h])

    Hash-consed structural types, the interned string pool, the accessors, the subtype relation
    and the display of a type.

    A [TypeId] is the index of a node, an interned [const char *] is the index of a string of the
    pool ([sref]); [None] is the null pointer. An array passed with its count is a list, and an
    array of names is a list as long as the array of types it comes with. An arena has fewer than
    2^31 nodes, so that ids keep their value in an [int]. *)

From S2P Require Import Prelude.

(** ** Data *)

Definition TypeId : Type := nat.
Definition TYID_UNKNOWN : TypeId := 0.

Definition sref : Type := nat.

Inductive PrimKind : Type :=
| PRIM_VOID | PRIM_BOOL | PRIM_INT | PRIM_FLOAT | PRIM_CHAR | PRIM_STR | PRIM_COUNT.

Inductive TyKind : Type :=
| TYK_UNKNOWN | TYK_PRIM | TYK_NOMINAL | TYK_SLICE | TYK_ARRAY | TYK_TUPLE | TYK_SUM | TYK_HANDLE | TYK_EFF
| TYK_ARCHETYPE_CATEGORY | TYK_FUNC | TYK_PROC | TYK_MAP | TYK_POLICY.

Scheme Equality for PrimKind.
Scheme Equality for TyKind.

(** A node: the kind and its member of the union. [n_callable] is the payload the four callable kinds share. *)
Inductive TypeNode : Type :=
| n_unknown
| n_prim (p : PrimKind)
| n_nominal (name : option sref) (backing : TypeId)
| n_slice (elem : TypeId)
| n_array (elem : TypeId) (len : Z)
| n_tuple (names : list (option sref)) (types : list TypeId)
| n_sum (name : option sref) (variants : list (option sref * list TypeId)) (complete : bool)
| n_handle (archetype_name : option sref)
| n_eff (extern_name : option sref) (out_slots : list TypeId) (out_slot_names : option (list (option sref)))
| n_archetype_category
| n_callable (kind : TyKind) (params returns : list TypeId).

Definition node_kind (n : TypeNode) : TyKind :=
  match n with
  | n_unknown => TYK_UNKNOWN
  | n_prim _ => TYK_PRIM
  | n_nominal _ _ => TYK_NOMINAL
  | n_slice _ => TYK_SLICE
  | n_array _ _ => TYK_ARRAY
  | n_tuple _ _ => TYK_TUPLE
  | n_sum _ _ _ => TYK_SUM
  | n_handle _ => TYK_HANDLE
  | n_eff _ _ _ => TYK_EFF
  | n_archetype_category => TYK_ARCHETYPE_CATEGORY
  | n_callable k _ _ => k
  end.

Record TypeArena : Type := mkArena {
  ta_nodes : list TypeNode;
  ta_strings : list cstr
}.

Definition node_count (a : TypeArena) : nat := List.length (ta_nodes a).

Definition ty_arena_new : TypeArena := mkArena [n_unknown] [].

(** ** Interning *)

(** The first index from [i] on whose element satisfies [p]. *)
Fixpoint find_from {A} (p : A -> bool) (i : nat) (l : list A) : option nat :=
  match l with
  | [] => None
  | x :: r => if p x then Some i else find_from p (S i) r
  end.

(** The string's index, added when it is new; a null pointer stays one. *)
Definition intern_str (a : TypeArena) (s : option cstr) : option sref * TypeArena :=
  match s with
  | None => (None, a)
  | Some s =>
      match find_from (fun x => cstr_eqb x s) 0 (ta_strings a) with
      | Some i => (Some i, a)
      | None => (Some (List.length (ta_strings a)), mkArena (ta_nodes a) (ta_strings a ++ [s]))
      end
  end.

Fixpoint intern_strs (a : TypeArena) (ss : list (option cstr)) : list (option sref) * TypeArena :=
  match ss with
  | [] => ([], a)
  | s :: r => let (i, a1) := intern_str a s in let (rest, a2) := intern_strs a1 r in (i :: rest, a2)
  end.

Definition push_node (a : TypeArena) (n : TypeNode) : TypeId * TypeArena :=
  (node_count a, mkArena (ta_nodes a ++ [n]) (ta_strings a)).

(** [for (i = 1; i < node_count; i++) if (p(nodes[i])) return i;], then the new node. *)
Definition find_or_push (a : TypeArena) (p : TypeNode -> bool) (n : TypeNode) : TypeId * TypeArena :=
  match find_from p 1 (tl (ta_nodes a)) with
  | Some i => (i, a)
  | None => push_node a n
  end.

(** Pointer equality of two interned strings. *)
Definition sref_eqb (a b : option sref) : bool :=
  match a, b with
  | None, None => true
  | Some i, Some j => Nat.eqb i j
  | _, _ => false
  end.

Fixpoint list_eqb {A} (eqb : A -> A -> bool) (a b : list A) : bool :=
  match a, b with
  | [], [] => true
  | x :: a', y :: b' => eqb x y && list_eqb eqb a' b'
  | _, _ => false
  end.

(** ** Constructors *)

Definition tyid_of_prim (a : TypeArena) (p : PrimKind) : TypeId * TypeArena :=
  find_or_push a (fun n => match n with n_prim q => PrimKind_beq q p | _ => false end) (n_prim p).

Definition tyid_of_nominal_sub (a : TypeArena) (name : option cstr) (backing : TypeId) : TypeId * TypeArena :=
  let (interned, a) := intern_str a name in
  find_or_push a
    (fun n => match n with n_nominal m b => sref_eqb m interned && Nat.eqb b backing | _ => false end)
    (n_nominal interned backing).

Definition tyid_of_nominal (a : TypeArena) (name : option cstr) : TypeId * TypeArena :=
  tyid_of_nominal_sub a name TYID_UNKNOWN.

Definition tyid_of_slice (a : TypeArena) (elem : TypeId) : TypeId * TypeArena :=
  find_or_push a (fun n => match n with n_slice e => Nat.eqb e elem | _ => false end) (n_slice elem).

Definition tyid_of_array (a : TypeArena) (elem : TypeId) (rank : Z) : TypeId * TypeArena :=
  find_or_push a (fun n => match n with n_array e l => Nat.eqb e elem && (l =? rank)%Z | _ => false end)
    (n_array elem rank).

(** A null array of names gives a null name to every field. *)
Definition names_or_null (n : nat) (names : option (list (option cstr))) : list (option cstr) :=
  match names with Some l => l | None => repeat None n end.

Definition tyid_of_tuple (a : TypeArena) (field_names : option (list (option cstr))) (field_types : list TypeId) :
    TypeId * TypeArena :=
  let (interned, a) := intern_strs a (names_or_null (List.length field_types) field_names) in
  find_or_push a
    (fun n => match n with
       | n_tuple names types => list_eqb Nat.eqb types field_types && list_eqb sref_eqb names interned
       | _ => false end)
    (n_tuple interned field_types).

Definition tyid_sum_forward (a : TypeArena) (name : option cstr) : TypeId * TypeArena :=
  let (interned, a) := intern_str a name in
  find_or_push a (fun n => match n with n_sum m _ _ => sref_eqb m interned | _ => false end)
    (n_sum interned [] false).

Fixpoint set_nth {A} (i : nat) (x : A) (l : list A) : list A :=
  match l, i with
  | [], _ => []
  | _ :: r, O => x :: r
  | y :: r, S j => y :: set_nth j x r
  end.

(** The guard every accessor starts with, and the node. *)
Definition node_at (a : TypeArena) (t : TypeId) : option TypeNode :=
  if Nat.eqb t 0 || (node_count a <=? t) then None else nth_error (ta_nodes a) t.

Definition tyid_sum_complete (a : TypeArena) (sum : TypeId) (variants : list (option cstr * list TypeId)) : TypeArena :=
  match node_at a sum with
  | Some (n_sum name _ false) =>
      let (names, a1) := intern_strs a (map fst variants) in
      mkArena (set_nth sum (n_sum name (combine names (map snd variants)) true) (ta_nodes a1)) (ta_strings a1)
  | _ => a
  end.

Definition tyid_of_handle (a : TypeArena) (archetype_name : option cstr) : TypeId * TypeArena :=
  let (interned, a) := intern_str a archetype_name in
  find_or_push a (fun n => match n with n_handle m => sref_eqb m interned | _ => false end) (n_handle interned).

(** [iname[j < 64 ? j : 63] = x]: the slots come in order, so the last entry is overwritten from the 65th slot on. *)
Definition put64 (buf : list (option sref)) (x : option sref) : list (option sref) :=
  if (List.length buf <? 64) then buf ++ [x] else removelast buf ++ [x].

Fixpoint intern_inames (a : TypeArena) (buf : list (option sref)) (names : list (option cstr)) :
    list (option sref) * TypeArena :=
  match names with
  | [] => (buf, a)
  | nm :: r => let (i, a1) := intern_str a nm in intern_inames a1 (put64 buf i) r
  end.

(** The names a node carries for its slots; a null array gives null names. *)
Definition slot_names (n : nat) (names : option (list (option sref))) : list (option sref) :=
  match names with Some l => l | None => repeat None n end.

Definition intern_eff (a : TypeArena) (extern_name : option cstr) (out_slots : list TypeId)
    (names : option (list (option cstr))) : TypeId * TypeArena :=
  let n := List.length out_slots in
  let nms := names_or_null n names in
  let (interned, a) := intern_str a extern_name in
  let (iname, a) := intern_inames a [] nms in
  find_or_push a
    (fun node => match node with
       | n_eff e slots ns =>
           sref_eqb e interned && list_eqb Nat.eqb slots out_slots &&
           list_eqb sref_eqb (firstn 64 (slot_names (List.length slots) ns)) iname
       | _ => false end)
    (n_eff interned out_slots
       (if existsb is_some nms then Some (iname ++ repeat None (n - 64)) else None)).

Definition tyid_of_eff_structural (a : TypeArena) (out_slots : list TypeId) : TypeId * TypeArena :=
  intern_eff a None out_slots None.

Definition tyid_of_eff_concrete (a : TypeArena) (extern_name : option cstr) (out_slots : list TypeId) :
    TypeId * TypeArena := intern_eff a extern_name out_slots None.

Definition tyid_of_eff_named (a : TypeArena) (extern_name : option cstr) (out_slots : list TypeId)
    (names : option (list (option cstr))) : TypeId * TypeArena := intern_eff a extern_name out_slots names.

Definition tyid_of_archetype_category (a : TypeArena) : TypeId * TypeArena :=
  find_or_push a (fun n => match n with n_archetype_category => true | _ => false end) n_archetype_category.

Definition intern_callable (a : TypeArena) (kind : TyKind) (params returns : list TypeId) : TypeId * TypeArena :=
  find_or_push a
    (fun n => match n with
       | n_callable k ps rs => TyKind_beq k kind && list_eqb Nat.eqb ps params && list_eqb Nat.eqb rs returns
       | _ => false end)
    (n_callable kind params returns).

Definition tyid_of_func (a : TypeArena) (params returns : list TypeId) : TypeId * TypeArena :=
  intern_callable a TYK_FUNC params returns.
Definition tyid_of_proc (a : TypeArena) (params returns : list TypeId) : TypeId * TypeArena :=
  intern_callable a TYK_PROC params returns.
Definition tyid_of_map (a : TypeArena) (params : list TypeId) : TypeId * TypeArena :=
  intern_callable a TYK_MAP params [].
Definition tyid_of_policy (a : TypeArena) (params : list TypeId) : TypeId * TypeArena :=
  intern_callable a TYK_POLICY params [].

(** ** Accessors *)

(** The characters behind an interned pointer. *)
Definition deref (a : TypeArena) (r : option sref) : option cstr :=
  match r with None => None | Some i => nth_error (ta_strings a) i end.

Definition tyid_kind (a : TypeArena) (t : TypeId) : TyKind :=
  match node_at a t with None => TYK_UNKNOWN | Some n => node_kind n end.

Definition tyid_is_proc (a : TypeArena) (t : TypeId) : bool :=
  match node_at a t with None => false | Some n => TyKind_beq (node_kind n) TYK_PROC end.

Definition tyid_is_callable (a : TypeArena) (t : TypeId) : bool :=
  match node_at a t with
  | None => false
  | Some n => TyKind_beq (node_kind n) TYK_FUNC || TyKind_beq (node_kind n) TYK_PROC
  end.

Definition tyid_prim (a : TypeArena) (t : TypeId) : PrimKind :=
  match node_at a t with Some (n_prim p) => p | _ => PRIM_COUNT end.

Definition tyid_nominal_name (a : TypeArena) (t : TypeId) : option sref :=
  match node_at a t with Some (n_nominal n _) => n | _ => None end.

Definition tyid_backing (a : TypeArena) (t : TypeId) : TypeId :=
  match node_at a t with Some (n_nominal _ b) => b | _ => TYID_UNKNOWN end.

Definition tyid_handle_name (a : TypeArena) (t : TypeId) : option sref :=
  match node_at a t with Some (n_handle n) => n | _ => None end.

Definition tyid_elem (a : TypeArena) (t : TypeId) : TypeId :=
  match node_at a t with Some (n_slice e) => e | Some (n_array e _) => e | _ => TYID_UNKNOWN end.

Definition tyid_array_len (a : TypeArena) (t : TypeId) : Z :=
  match node_at a t with Some (n_array _ l) => l | _ => (-1)%Z end.

(** Element [i] of an array, with the guard [i < 0 || i >= count]. *)
Definition at_index {A} (d : A) (l : list A) (i : Z) : A :=
  if (i <? 0)%Z || (Z.of_nat (List.length l) <=? i)%Z then d else nth (Z.to_nat i) l d.

Definition tyid_tuple_count (a : TypeArena) (t : TypeId) : Z :=
  match node_at a t with Some (n_tuple _ ts) => Z.of_nat (List.length ts) | _ => 0%Z end.

Definition tyid_tuple_field_name (a : TypeArena) (t : TypeId) (i : Z) : option sref :=
  match node_at a t with Some (n_tuple ns _) => at_index None ns i | _ => None end.

Definition tyid_tuple_field_type (a : TypeArena) (t : TypeId) (i : Z) : TypeId :=
  match node_at a t with Some (n_tuple _ ts) => at_index TYID_UNKNOWN ts i | _ => TYID_UNKNOWN end.

Definition tyid_sum_name (a : TypeArena) (t : TypeId) : option sref :=
  match node_at a t with Some (n_sum n _ _) => n | _ => None end.

Definition tyid_sum_variant_count (a : TypeArena) (t : TypeId) : Z :=
  match node_at a t with Some (n_sum _ vs _) => Z.of_nat (List.length vs) | _ => (-1)%Z end.

(** The [strcmp] of each variant's name from index [v] on. A variant without a name is a null pointer
    to [strcmp]: [None]. *)
Fixpoint variant_index_from (a : TypeArena) (vs : list (option sref * list TypeId)) (nm : cstr) (v : Z) : option Z :=
  match vs with
  | [] => Some (-1)%Z
  | w :: r =>
      match deref a (fst w) with
      | None => None
      | Some x => if cstr_eqb x nm then Some v else variant_index_from a r nm (v + 1)
      end
  end.

(** The first variant whose name has the given characters; [None] is the read of a null name before it. *)
Definition tyid_sum_variant_index (a : TypeArena) (t : TypeId) (nm : option cstr) : option Z :=
  match node_at a t, nm with
  | Some (n_sum _ vs _), Some s => variant_index_from a vs s 0
  | _, _ => Some (-1)%Z
  end.

Definition tyid_sum_variant_name (a : TypeArena) (t : TypeId) (v : Z) : option sref :=
  match node_at a t with Some (n_sum _ vs _) => fst (at_index (None, []) vs v) | _ => None end.

Definition tyid_sum_variant_payload_count (a : TypeArena) (t : TypeId) (v : Z) : Z :=
  match node_at a t with
  | Some (n_sum _ vs _) =>
      if (v <? 0)%Z || (Z.of_nat (List.length vs) <=? v)%Z then (-1)%Z
      else Z.of_nat (List.length (snd (nth (Z.to_nat v) vs (None, []))))
  | _ => (-1)%Z
  end.

Definition tyid_sum_variant_payload_at (a : TypeArena) (t : TypeId) (v i : Z) : TypeId :=
  match node_at a t with
  | Some (n_sum _ vs _) => at_index TYID_UNKNOWN (snd (at_index (None, []) vs v)) i
  | _ => TYID_UNKNOWN
  end.

Definition tyid_eff_extern_name (a : TypeArena) (t : TypeId) : option sref :=
  match node_at a t with Some (n_eff e _ _) => e | _ => None end.

Definition tyid_eff_out_count (a : TypeArena) (t : TypeId) : Z :=
  match node_at a t with Some (n_eff _ s _) => Z.of_nat (List.length s) | _ => (-1)%Z end.

Definition tyid_eff_out_at (a : TypeArena) (t : TypeId) (i : Z) : TypeId :=
  match node_at a t with Some (n_eff _ s _) => at_index TYID_UNKNOWN s i | _ => TYID_UNKNOWN end.

Definition tyid_eff_out_name_at (a : TypeArena) (t : TypeId) (i : Z) : option sref :=
  match node_at a t with
  | Some (n_eff _ _ (Some ns)) => at_index None ns i
  | _ => None
  end.

Definition tyid_equal (a b : TypeId) : bool := Nat.eqb a b.
Definition tyid_is_unknown (t : TypeId) : bool := Nat.eqb t TYID_UNKNOWN.

(** ** The subtype relation *)

(** [for (i = 0; i < nf && eq; i++) if (out_at(from, i) != out_at(to, i)) eq = 0;] *)
Definition same_slots (a : TypeArena) (from to : TypeId) (nf : Z) : bool :=
  forallb (fun i => Nat.eqb (tyid_eff_out_at a from (Z.of_nat i)) (tyid_eff_out_at a to (Z.of_nat i)))
    (seq 0 (Z.to_nat nf)).

Definition eff_usable (a : TypeArena) (from to : TypeId) : bool :=
  TyKind_beq (tyid_kind a from) TYK_EFF && TyKind_beq (tyid_kind a to) TYK_EFF &&
  (tyid_eff_out_count a from =? tyid_eff_out_count a to)%Z &&
  same_slots a from to (tyid_eff_out_count a from) &&
  (negb (is_some (tyid_eff_extern_name a to)) || sref_eqb (tyid_eff_extern_name a to) (tyid_eff_extern_name a from)).

(** [for (t = from; t != TYID_UNKNOWN; t = tyid_backing(a, t)) if (t == to) return 1;]; [None] is running
    out of fuel. *)
Fixpoint backing_reaches (fuel : nat) (a : TypeArena) (t to : TypeId) : option bool :=
  match fuel with
  | O => None
  | S f =>
      if Nat.eqb t TYID_UNKNOWN then Some false
      else if Nat.eqb t to then Some true
      else backing_reaches f a (tyid_backing a t) to
  end.

(** Each step of the chain goes to an older node, so the arena's size is enough fuel. *)
Definition tyid_usable_as (a : TypeArena) (from to : TypeId) : option bool :=
  if eff_usable a from to then Some true else backing_reaches (S (node_count a)) a from to.

(** ** Display *)

Definition prim_name (p : PrimKind) : cstr :=
  match p with
  | PRIM_VOID => lit "void"
  | PRIM_BOOL => lit "bool"
  | PRIM_INT => lit "i32"
  | PRIM_FLOAT => lit "float"
  | PRIM_CHAR => lit "char"
  | PRIM_STR => lit "str"
  | PRIM_COUNT => lit "?"
  end.

(** [snprintf(buf, n, ...)]: what the buffer holds afterwards. *)
Definition snprintf (n : nat) (s : cstr) : cstr := firstn (n - 1) s.

Definition or_q (d : string) (s : option cstr) : cstr := match s with Some s => s | None => lit d end.

(** [snprintf(os + l, sizeof(os) - l, i ? ", %s" : "%s", one)] for each element, from an empty buffer. *)
Fixpoint join_into (size : nat) (os : cstr) (first : bool) (ones : list cstr) : cstr :=
  match ones with
  | [] => os
  | one :: r =>
      join_into size (os ++ snprintf (size - List.length os) ((if first then [] else lit ", ") ++ one)) false r
  end.

(** The tuple's loop: [off] counts what [snprintf] would have written. *)
Fixpoint tuple_into (buflen : nat) (buf : cstr) (off : nat) (first : bool) (ones : list cstr) : cstr * nat :=
  match ones with
  | [] => (buf, off)
  | one :: r =>
      if (off <? buflen) then
        let piece := (if first then [] else lit ", ") ++ one in
        tuple_into buflen (buf ++ snprintf (buflen - off) piece) (off + List.length piece) false r
      else (buf, off)
  end.

(** [fuel] bounds the nesting; every node refers to older ones, so the id is enough. *)
Fixpoint display (fuel : nat) (a : TypeArena) (t : TypeId) (buflen : nat) : cstr :=
  match fuel with
  | O => []
  | S f =>
      let inner := fun x => display f a x 128 in
      match node_at a t with
      | None | Some n_unknown => snprintf buflen (lit "<unknown>")
      | Some (n_prim p) => snprintf buflen (prim_name p)
      | Some (n_nominal n _) => snprintf buflen (or_q "?" (deref a n))
      | Some (n_slice e) => snprintf buflen (lit "[]" ++ inner e)
      | Some (n_array e l) => snprintf buflen (lit "[" ++ show_int l ++ lit "]" ++ inner e)
      | Some (n_tuple _ ts) =>
          let (buf, off) := tuple_into buflen (snprintf buflen (lit "(")) 1 true (map inner ts) in
          if (off <? buflen) then buf ++ snprintf (buflen - off) (lit ")") else buf
      | Some (n_sum n _ _) => snprintf buflen (or_q "sum" (deref a n))
      | Some (n_handle n) => snprintf buflen (lit "handle(" ++ or_q "?" (deref a n) ++ lit ")")
      | Some (n_eff _ s _) => snprintf buflen (lit "Eff(" ++ join_into 300 [] true (map inner s) ++ lit ")")
      | Some n_archetype_category => snprintf buflen (lit "archetype")
      | Some (n_callable k ps rs) =>
          let p := join_into 400 [] true (map inner ps) in
          match k with
          | TYK_PROC => snprintf buflen (lit "proc(" ++ p ++ lit ")(" ++ join_into 400 [] true (map inner rs) ++ lit ")")
          | TYK_FUNC =>
              snprintf buflen (lit "func(" ++ p ++ lit ") -> " ++ match rs with r :: _ => inner r | [] => lit "void" end)
          | TYK_MAP => snprintf buflen (lit "map(" ++ p ++ lit ")")
          | _ => snprintf buflen (lit "policy(" ++ p ++ lit ")")
          end
      end
  end.

Definition tyid_display (a : TypeArena) (t : TypeId) (buflen : nat) : cstr := display (S (node_count a)) a t buflen.
