(* ===== verification/SemTypesFacts.v ===== *)
(** * The type arena: lemmas

    The specification is a set of structural types ([ty]); an arena implements it by ids ([denote]).
    Well-formed arenas, the shared lookup of the constructors, what the accessors read, the backing
    chain and the display. The theorems are in [SemTypesProps.v]. *)

From S2P Require Import Prelude SemTypes.

(** ** Structural types *)

Inductive ty : Type :=
| T_unknown
| T_prim (p : PrimKind)
| T_nominal (name : option cstr) (backing : ty)
| T_slice (elem : ty)
| T_array (elem : ty) (len : Z)
| T_tuple (names : list (option cstr)) (types : list ty)
| T_sum (name : option cstr)
| T_handle (name : option cstr)
| T_eff (extern : option cstr) (slots : list ty) (names : list (option cstr))
| T_category
| T_callable (kind : TyKind) (params returns : list ty).

(** The type a node stands for, given the types of the ids and the strings it refers to. A sum is
    known by its name: its variants may refer to the sum itself. *)
Definition shape (d : TypeId -> ty) (s : option sref -> option cstr) (n : TypeNode) : ty :=
  match n with
  | n_unknown => T_unknown
  | n_prim p => T_prim p
  | n_nominal m b => T_nominal (s m) (d b)
  | n_slice e => T_slice (d e)
  | n_array e l => T_array (d e) l
  | n_tuple ns ts => T_tuple (map s ns) (map d ts)
  | n_sum m _ _ => T_sum (s m)
  | n_handle m => T_handle (s m)
  | n_eff e sl ns => T_eff (s e) (map d sl) (map s (slot_names (List.length sl) ns))
  | n_archetype_category => T_category
  | n_callable k ps rs => T_callable k (map d ps) (map d rs)
  end.

(** The ids and the strings a node's shape depends on. *)
Definition children (n : TypeNode) : list TypeId :=
  match n with
  | n_nominal _ b => [b]
  | n_slice e | n_array e _ => [e]
  | n_tuple _ ts => ts
  | n_eff _ sl _ => sl
  | n_callable _ ps rs => ps ++ rs
  | _ => []
  end.

Definition refs (n : TypeNode) : list (option sref) :=
  match n with
  | n_nominal m _ | n_sum m _ _ | n_handle m => [m]
  | n_tuple ns _ => ns
  | n_eff e sl ns => e :: slot_names (List.length sl) ns
  | _ => []
  end.

(** The types of the nodes, each built from those before it. *)
Definition table (s : option sref -> option cstr) (ns : list TypeNode) : list ty :=
  fold_left (fun acc n => acc ++ [shape (fun i => nth i acc T_unknown) s n]) ns [].

Definition types_of (a : TypeArena) : list ty := table (deref a) (ta_nodes a).

(** The type an id stands for. *)
Definition denote (a : TypeArena) (t : TypeId) : ty := nth t (types_of a) T_unknown.

(** ** Well-formed arenas *)

Definition ref_ok (bound : nat) (r : option sref) : Prop := match r with None => True | Some i => i < bound end.

(** An effect stores an array of names exactly when one of them is not null; a callable has a callable's kind. *)
Definition canon (n : TypeNode) : Prop :=
  match n with
  | n_eff _ sl (Some ns) => List.length ns = List.length sl /\ existsb is_some ns = true
  | n_callable k _ _ => In k [TYK_FUNC; TYK_PROC; TYK_MAP; TYK_POLICY]
  | _ => True
  end.

Record node_ok (strs i : nat) (n : TypeNode) : Prop := mkNodeOk {
  no_children : Forall (fun c => c < i) (children n);
  no_refs : Forall (ref_ok strs) (refs n);
  no_canon : canon n
}.

Record wf (a : TypeArena) : Prop := mkWf {
  wf_head : exists rest, ta_nodes a = n_unknown :: rest /\ Forall (fun n => n <> n_unknown) rest;
  wf_nodes : forall i n, nth_error (ta_nodes a) i = Some n -> node_ok (List.length (ta_strings a)) i n;
  wf_strings : NoDup (ta_strings a);
  wf_types : NoDup (types_of a)
}.

(** Two nodes the arena never holds both: equal, or sums of the same name. *)
Definition same_key (n k : TypeNode) : Prop :=
  match n, k with
  | n_sum a _ _, n_sum b _ _ => a = b
  | _, _ => n = k
  end.

(** ** Lists *)

Lemma map_inj_on {A B} (f : A -> B) l l' :
  (forall x y, In x l -> In y l' -> f x = f y -> x = y) -> map f l = map f l' -> l = l'.
Proof.
  revert l'; induction l as [|x l IH]; intros [|y l'] H E; try discriminate; [reflexivity|].
  cbn in E. injection E as E1 E2. f_equal; [now apply H; [left|left|]|].
  apply IH; [|assumption]. intros. apply H; [now right|now right|assumption].
Qed.

Lemma find_from_some {A} (p : A -> bool) i l j :
  find_from p i l = Some j -> exists k x, j = i + k /\ nth_error l k = Some x /\ p x = true.
Proof.
  revert i; induction l as [|y l IH]; intros i H; [discriminate|]. cbn in H. destruct (p y) eqn:E.
  - injection H as <-. exists 0, y. auto.
  - apply IH in H as (k & x & -> & H1 & H2). exists (S k), x. split; [lia|]. auto.
Qed.

Lemma find_from_none {A} (p : A -> bool) i l : find_from p i l = None <-> (forall x, In x l -> p x = false).
Proof.
  revert i; induction l as [|y l IH]; intros i; cbn; [split; [contradiction|auto]|].
  destruct (p y) eqn:E.
  - split; [discriminate|]. intros H. specialize (H y (or_introl eq_refl)). congruence.
  - rewrite IH. split; [intros H x [<-|Hx]; auto|auto].
Qed.

Lemma list_eqb_spec {A} (eqb : A -> A -> bool) :
  (forall x y, eqb x y = true <-> x = y) -> forall l l', list_eqb eqb l l' = true <-> l = l'.
Proof.
  intros He. induction l as [|x l IH]; intros [|y l']; cbn; try (split; congruence).
  rewrite andb_true_iff, IH, He. split; [intros [-> ->]; reflexivity|injection 1; auto].
Qed.

Lemma sref_eqb_spec a b : sref_eqb a b = true <-> a = b.
Proof.
  destruct a, b; cbn; try (split; congruence). rewrite Nat.eqb_eq. split; congruence.
Qed.

Lemma NoDup_snoc {A} (l : list A) x : NoDup l -> ~ In x l -> NoDup (l ++ [x]).
Proof. intros Hl Hx. apply NoDup_app; [assumption|repeat constructor; auto|]. intros y Hy [<-|[]]. contradiction. Qed.

(** ** The table of types *)

Lemma shape_ext d d' s s' n :
  (forall c, In c (children n) -> d c = d' c) -> (forall r, In r (refs n) -> s r = s' r) -> shape d s n = shape d' s' n.
Proof.
  intros Hd Hs. destruct n; cbn in *; f_equal; auto using map_ext_in with datatypes.
Qed.

Lemma table_snoc s ns n :
  table s (ns ++ [n]) = table s ns ++ [shape (fun i => nth i (table s ns) T_unknown) s n].
Proof. unfold table. now rewrite fold_left_app. Qed.

Lemma table_length s ns : List.length (table s ns) = List.length ns.
Proof.
  induction ns as [|n ns IH] using rev_ind; [reflexivity|]. rewrite table_snoc, !length_app, IH. reflexivity.
Qed.

Lemma table_ext s s' ns ns' :
  Forall2 (fun n n' => (forall d, shape d s n = shape d s' n')) ns ns' -> table s ns = table s' ns'.
Proof.
  revert ns'. induction ns as [|n ns IH] using rev_ind; intros ns' H.
  - now inversion H.
  - apply Forall2_app_inv_l in H as (l & l' & H1 & H2 & ->). inversion H2 as [|? n' ? ? Hn Hl]; subst. inversion Hl; subst.
    rewrite !table_snoc, (IH l H1), Hn. reflexivity.
Qed.

Lemma table_app s ns ms : exists ts, table s (ns ++ ms) = table s ns ++ ts.
Proof.
  induction ms as [|m ms IH] using rev_ind; [exists []; now rewrite !app_nil_r|].
  destruct IH as [ts E]. rewrite app_assoc, table_snoc, E. eexists. rewrite <- app_assoc. reflexivity.
Qed.

(** The entry of a node whose references are older. *)
Lemma table_nth s ns i n :
  nth_error ns i = Some n -> Forall (fun c => c < i) (children n) ->
  nth i (table s ns) T_unknown = shape (fun j => nth j (table s ns) T_unknown) s n.
Proof.
  intros H Hc. destruct (nth_error_split _ _ H) as (l1 & l2 & -> & Hi).
  assert (E : l1 ++ n :: l2 = (l1 ++ [n]) ++ l2) by now rewrite <- app_assoc. rewrite E.
  destruct (table_app s (l1 ++ [n]) l2) as [ts ->]. rewrite table_snoc, <- app_assoc.
  rewrite app_nth2, table_length, Hi, Nat.sub_diag by (rewrite table_length; lia). cbn [nth app].
  apply shape_ext; [|reflexivity]. intros c Hin. rewrite Forall_forall in Hc. specialize (Hc c Hin).
  symmetry. apply app_nth1. rewrite table_length. lia.
Qed.

Lemma types_length a : List.length (types_of a) = node_count a.
Proof. apply table_length. Qed.

Lemma denote_node a i n :
  wf a -> nth_error (ta_nodes a) i = Some n -> denote a i = shape (denote a) (deref a) n.
Proof. intros W H. apply (table_nth _ _ _ _ H). apply (wf_nodes a W i n H). Qed.

(** ** Shapes identify nodes *)

Lemma slot_names_inj {B} (s : option sref -> B) n ns ns' :
  (forall r r', In r (slot_names n ns) -> In r' (slot_names n ns') -> s r = s r' -> r = r') ->
  match ns with Some l => List.length l = n /\ existsb is_some l = true | None => True end ->
  match ns' with Some l => List.length l = n /\ existsb is_some l = true | None => True end ->
  map s (slot_names n ns) = map s (slot_names n ns') -> ns = ns'.
Proof.
  intros Hs C C' E. apply map_inj_on in E; [|assumption].
  assert (R : forall k, existsb is_some (@repeat (option sref) None k) = false) by (induction k; auto).
  destruct ns as [l|], ns' as [l'|]; cbn in E; subst; try reflexivity.
  - destruct C as [_ C]. now rewrite R in C.
  - destruct C' as [_ C']. now rewrite R in C'.
Qed.

Lemma shape_inj d s n k :
  (forall c c', In c (children n) -> In c' (children k) -> d c = d c' -> c = c') ->
  (forall r r', In r (refs n) -> In r' (refs k) -> s r = s r' -> r = r') ->
  canon n -> canon k -> shape d s n = shape d s k -> same_key n k.
Proof.
  intros Hd Hs Cn Ck E.
  assert (D : forall l l', incl l (children n) -> incl l' (children k) -> map d l = map d l' -> l = l').
  { intros l l' H H'. apply map_inj_on. auto. }
  assert (S : forall l l', incl l (refs n) -> incl l' (refs k) -> map s l = map s l' -> l = l').
  { intros l l' H H'. apply map_inj_on. auto. }
  destruct n, k; cbn in E; try discriminate; try reflexivity; injection E; cbn in *; intros; subst;
    try (f_equal; first [apply Hs | apply Hd | apply S | apply D]; auto with datatypes; fail);
    try (apply Hs; auto; fail).
  assert (out_slots = out_slots0) as -> by (apply D; auto with datatypes).
  f_equal; [apply Hs; auto|]. apply (slot_names_inj s (List.length out_slots0)); try assumption.
  intros r r' Hr Hr'. apply Hs; right; assumption.
Qed.

Lemma same_key_shape d s n k : same_key n k -> shape d s n = shape d s k.
Proof. destruct n, k; cbn; congruence. Qed.

(** ** Interned strings *)

Lemma deref_inj a r r' :
  wf a -> ref_ok (List.length (ta_strings a)) r -> ref_ok (List.length (ta_strings a)) r' -> deref a r = deref a r' -> r = r'.
Proof.
  intros W H H'. destruct r as [i|], r' as [j|]; cbn in *; try reflexivity.
  - intros E. f_equal. apply (proj1 (NoDup_nth_error _) (wf_strings a W)); assumption.
  - intros E. apply nth_error_None in E. lia.
  - intros E. symmetry in E. apply nth_error_None in E. lia.
Qed.

(** [a'] is [a] with strings added to the pool. *)
Record more_strings (a a' : TypeArena) : Prop := mkMore {
  ms_nodes : ta_nodes a' = ta_nodes a;
  ms_ext : exists ext, ta_strings a' = ta_strings a ++ ext
}.

Lemma more_deref a a' r : more_strings a a' -> ref_ok (List.length (ta_strings a)) r -> deref a' r = deref a r.
Proof. intros [_ [ext E]] H. destruct r as [i|]; [|reflexivity]. cbn in *. rewrite E. now apply nth_error_app1. Qed.

Lemma ref_ok_le n m r : n <= m -> ref_ok n r -> ref_ok m r.
Proof. destruct r; cbn; lia. Qed.

Lemma more_length a a' : more_strings a a' -> List.length (ta_strings a) <= List.length (ta_strings a').
Proof. intros [_ [ext ->]]. rewrite length_app. lia. Qed.

Lemma more_types a a' : wf a -> more_strings a a' -> types_of a' = types_of a.
Proof.
  intros W M. unfold types_of. rewrite (ms_nodes _ _ M). apply table_ext.
  assert (H : forall n, In n (ta_nodes a) -> forall d, shape d (deref a') n = shape d (deref a) n).
  { intros n Hn d. apply In_nth_error in Hn as [i Hi]. apply shape_ext; [reflexivity|]. intros r Hr.
    apply more_deref; [assumption|]. pose proof (no_refs _ _ _ (wf_nodes a W i n Hi)) as F.
    rewrite Forall_forall in F. auto. }
  revert H. induction (ta_nodes a) as [|n ns IH]; intros H; constructor; [apply H; now left|].
  apply IH. intros m Hm. apply H. now right.
Qed.

Lemma node_ok_le strs strs' i n : strs <= strs' -> node_ok strs i n -> node_ok strs' i n.
Proof. intros H [Hc Hr C]. constructor; auto. eapply Forall_impl; [|exact Hr]. intros r. now apply ref_ok_le. Qed.

Lemma more_wf a a' : wf a -> more_strings a a' -> NoDup (ta_strings a') -> wf a'.
Proof.
  intros W M N. pose proof (more_length _ _ M). constructor; [|intros i n Hi|assumption|].
  - rewrite (ms_nodes _ _ M). apply W.
  - rewrite (ms_nodes _ _ M) in Hi. eapply node_ok_le; [eassumption|]. now apply (wf_nodes a W).
  - rewrite (more_types a a' W M). apply W.
Qed.

(** The contract of the interning functions: [v] points to the strings asked for. *)
Definition interned {A} (a : TypeArena) (res : A * TypeArena) (ok : TypeArena -> A -> Prop) : Prop :=
  wf (snd res) /\ more_strings a (snd res) /\ ok (snd res) (fst res).

Definition points (s : option cstr) (a : TypeArena) (r : option sref) : Prop :=
  ref_ok (List.length (ta_strings a)) r /\ deref a r = s.

Lemma more_refl a : more_strings a a.
Proof. split; [reflexivity|]. exists []. now rewrite app_nil_r. Qed.

Lemma more_trans a b c : more_strings a b -> more_strings b c -> more_strings a c.
Proof.
  intros [N1 [e1 E1]] [N2 [e2 E2]]. split; [congruence|]. exists (e1 ++ e2). now rewrite E2, E1, <- app_assoc.
Qed.

Lemma points_more s a a' r : more_strings a a' -> points s a r -> points s a' r.
Proof.
  intros M [H E]. split; [eapply ref_ok_le; [apply (more_length _ _ M)|assumption]|]. now rewrite (more_deref a a').
Qed.

Lemma intern_str_ok a s : wf a -> interned a (intern_str a s) (points s).
Proof.
  intros W. unfold interned, intern_str. destruct s as [s|]; cbn [fst snd].
  2:{ split; [assumption|]. split; [apply more_refl|]. split; [exact I|reflexivity]. }
  destruct (find_from _ _ _) as [i|] eqn:E; cbn [fst snd].
  - apply find_from_some in E as (k & x & -> & Hk & Hx). apply cstr_eqb_eq in Hx. subst x.
    split; [assumption|]. split; [apply more_refl|]. split; [|exact Hk]. cbn. apply nth_error_Some. congruence.
  - rewrite find_from_none in E.
    assert (M : more_strings a (mkArena (ta_nodes a) (ta_strings a ++ [s]))) by (split; [reflexivity|now exists [s]]).
    split; [|split; [exact M|]].
    + apply (more_wf a); [assumption|exact M|]. apply NoDup_snoc; [apply W|]. intros Hin.
      specialize (E s Hin). cbn in E. now rewrite cstr_eqb_refl in E.
    + split; cbn; [rewrite length_app; cbn; lia|]. rewrite nth_error_app2 by lia. now rewrite Nat.sub_diag.
Qed.

Lemma intern_strs_ok a ss : wf a -> interned a (intern_strs a ss) (fun a' rs => Forall2 (fun s r => points s a' r) ss rs).
Proof.
  revert a; induction ss as [|s ss IH]; intros a W; cbn [intern_strs].
  - split; [assumption|]. split; [apply more_refl|constructor].
  - destruct (intern_str_ok a s W) as (W1 & M1 & P1). destruct (intern_str a s) as [r a1]. cbn [fst snd] in *.
    destruct (IH a1 W1) as (W2 & M2 & P2). destruct (intern_strs a1 ss) as [rs a2]. cbn [fst snd] in *.
    split; [assumption|]. split; [eapply more_trans; eassumption|]. constructor; [|assumption].
    eapply points_more; eassumption.
Qed.

(** ** The one lookup all constructors share *)

Lemma denote_inj a i j :
  wf a -> i < node_count a -> j < node_count a -> denote a i = denote a j -> i = j.
Proof.
  intros W Hi Hj. pose proof (wf_types a W) as N. unfold denote. rewrite <- types_length in Hi, Hj.
  apply (proj1 (NoDup_nth _ T_unknown) N); assumption.
Qed.

(** What a constructor gives: a well-formed arena that extends [a] by at most a node, and the id of a
    node with the key [k]. *)
Record returned (a : TypeArena) (k : TypeNode) (res : TypeId * TypeArena) : Prop := mkReturned {
  rt_wf : wf (snd res);
  rt_strings : ta_strings (snd res) = ta_strings a;
  rt_nodes : exists ext, ta_nodes (snd res) = ta_nodes a ++ ext;
  rt_node : exists n, nth_error (ta_nodes (snd res)) (fst res) = Some n /\ same_key n k;
  rt_id : fst res <> 0
}.

Lemma push_types a k :
  types_of (snd (push_node a k)) = types_of a ++ [shape (denote a) (deref a) k].
Proof. unfold types_of, push_node. cbn [snd ta_nodes]. now rewrite table_snoc. Qed.

Lemma push_wf a k :
  wf a -> node_ok (List.length (ta_strings a)) (node_count a) k -> k <> n_unknown ->
  (forall n, In n (tl (ta_nodes a)) -> ~ same_key n k) -> wf (snd (push_node a k)).
Proof.
  intros W Hk Hu Hn. constructor.
  - destruct (wf_head a W) as (rest & E & F). exists (rest ++ [k]). cbn. rewrite E. split; [reflexivity|].
    apply Forall_app. auto.
  - intros i n Hi. cbn in *. destruct (Nat.lt_ge_cases i (node_count a)) as [L|L].
    + rewrite nth_error_app1 in Hi by exact L. now apply (wf_nodes a W).
    + rewrite nth_error_app2 in Hi by exact L. unfold node_count in *.
      destruct (i - List.length (ta_nodes a)) as [|x] eqn:X; cbn in Hi; [|destruct x; discriminate].
      injection Hi as <-. now replace i with (List.length (ta_nodes a)) by lia.
  - apply W.
  - rewrite push_types. apply NoDup_snoc; [apply W|]. intros Hin.
    apply (In_nth _ _ T_unknown) in Hin as (i & Hi & E). rewrite types_length in Hi.
    destruct (nth_error (ta_nodes a) i) as [n|] eqn:N; [|apply nth_error_None in N; unfold node_count in Hi; lia].
    pose proof (wf_nodes a W i n N) as On. fold (denote a i) in E. rewrite (denote_node a i n W N) in E.
    assert (S : same_key n k).
    { apply (shape_inj (denote a) (deref a)); [| |apply On|apply Hk|exact E].
      - intros c c' Hc Hc'. pose proof (no_children _ _ _ On) as F. pose proof (no_children _ _ _ Hk) as G.
        rewrite Forall_forall in F, G. specialize (F c Hc). specialize (G c' Hc'). apply denote_inj; [assumption|lia|assumption].
      - intros r r' Hr Hr'. pose proof (no_refs _ _ _ On) as F. pose proof (no_refs _ _ _ Hk) as G.
        rewrite Forall_forall in F, G. apply deref_inj; auto. }
    destruct (wf_head a W) as (rest & Er & _). destruct i as [|i].
    + rewrite Er in N. injection N as <-. apply Hu. symmetry. exact S.
    + apply (Hn n); [|exact S]. rewrite Er in *. cbn in *. now apply nth_error_In in N.
Qed.

Lemma find_or_push_ok a p k :
  wf a -> node_ok (List.length (ta_strings a)) (node_count a) k -> k <> n_unknown ->
  (forall n, canon n -> p n = true <-> same_key n k) -> returned a k (find_or_push a p k).
Proof.
  intros W Hk Hu Hp. destruct (wf_head a W) as (rest & Er & _). unfold find_or_push.
  assert (C : forall n, In n (tl (ta_nodes a)) -> canon n).
  { intros n Hn. rewrite Er in Hn. cbn in Hn. apply In_nth_error in Hn as [i Hi].
    apply (wf_nodes a W (S i) n). now rewrite Er. }
  destruct (find_from _ _ _) as [i|] eqn:F.
  - apply find_from_some in F as (j & n & -> & Hj & Hpn).
    constructor; cbn [fst snd]; [assumption|reflexivity|exists []; now rewrite app_nil_r| |lia].
    exists n. rewrite Er in *. cbn in *. split; [assumption|]. apply Hp; [|assumption]. apply C. now apply nth_error_In in Hj.
  - rewrite find_from_none in F. constructor; [|reflexivity|now exists [k]| |].
    + apply push_wf; try assumption. intros n Hn S. apply Hp in S; [|auto]. rewrite F in S by assumption. discriminate.
    + exists k. cbn. unfold node_count. rewrite nth_error_app2, Nat.sub_diag by lia. split; [reflexivity|].
      destruct k; cbn; reflexivity.
    + cbn. unfold node_count. rewrite Er. cbn. lia.
Qed.

(** Ids keep their types when nodes are added. *)
Lemma denote_app a a' i :
  (exists ext, ta_nodes a' = ta_nodes a ++ ext) -> ta_strings a' = ta_strings a -> i < node_count a ->
  denote a' i = denote a i.
Proof.
  intros [ext E] S Hi. unfold denote, types_of. rewrite E.
  assert (D : deref a' = deref a) by (unfold deref; now rewrite S). rewrite D.
  destruct (table_app (deref a) (ta_nodes a) ext) as [ts ->]. apply app_nth1. now rewrite table_length.
Qed.

(** A constructor that interns strings and looks its node up returns the id of the node's type, in an
    arena where the old ids are unchanged. *)
Record refines (a : TypeArena) (T : ty) (res : TypeId * TypeArena) : Prop := mkRefines {
  rf_wf : wf (snd res);
  rf_type : denote (snd res) (fst res) = T;
  rf_valid : 0 < fst res < node_count (snd res);
  rf_count : node_count a <= node_count (snd res);
  rf_old : forall i, i < node_count a -> denote (snd res) i = denote a i
}.

Lemma returned_refines a a1 k res T :
  more_strings a a1 -> wf a -> wf a1 -> returned a1 k res ->
  node_ok (List.length (ta_strings a1)) (node_count a1) k -> shape (denote a) (deref a1) k = T -> refines a T res.
Proof.
  intros M W W1 R Hk E. assert (C : node_count a1 = node_count a) by (unfold node_count; now rewrite (ms_nodes _ _ M)).
  assert (O : forall i, i < node_count a1 -> denote (snd res) i = denote a i).
  { intros i Hi. rewrite (denote_app a1) by (apply R || assumption). unfold denote. now rewrite (more_types a a1). }
  destruct (rt_node _ _ _ R) as (n & Hn & S).
  constructor; [apply R| | |destruct (rt_nodes _ _ _ R) as [ext X]; unfold node_count in *; rewrite X, length_app; lia|].
  - rewrite (denote_node _ _ n (rt_wf _ _ _ R) Hn), (same_key_shape _ _ _ _ S), <- E. apply shape_ext.
    + intros c Hc. apply O. pose proof (no_children _ _ _ Hk) as F. rewrite Forall_forall in F. auto.
    + intros r _. unfold deref. now rewrite (rt_strings _ _ _ R).
  - pose proof (rt_id _ _ _ R). split; [lia|]. apply nth_error_Some. congruence.
  - intros i Hi. apply O. lia.
Qed.

(** ** The operations *)

Inductive ty_op : Type :=
| op_prim (p : PrimKind)
| op_nominal_sub (name : option cstr) (backing : TypeId)
| op_slice (elem : TypeId)
| op_array (elem : TypeId) (rank : Z)
| op_tuple (names : option (list (option cstr))) (types : list TypeId)
| op_sum (name : option cstr)
| op_handle (name : option cstr)
| op_eff (extern : option cstr) (slots : list TypeId) (names : option (list (option cstr)))
| op_category
| op_func (params returns : list TypeId)
| op_proc (params returns : list TypeId)
| op_map (params : list TypeId)
| op_policy (params : list TypeId).

Definition run_op (a : TypeArena) (o : ty_op) : TypeId * TypeArena :=
  match o with
  | op_prim p => tyid_of_prim a p
  | op_nominal_sub n b => tyid_of_nominal_sub a n b
  | op_slice e => tyid_of_slice a e
  | op_array e r => tyid_of_array a e r
  | op_tuple ns ts => tyid_of_tuple a ns ts
  | op_sum n => tyid_sum_forward a n
  | op_handle n => tyid_of_handle a n
  | op_eff e s ns => tyid_of_eff_named a e s ns
  | op_category => tyid_of_archetype_category a
  | op_func p r => tyid_of_func a p r
  | op_proc p r => tyid_of_proc a p r
  | op_map p => tyid_of_map a p
  | op_policy p => tyid_of_policy a p
  end.

(** The type a constructor call describes. *)
Definition described (d : TypeId -> ty) (o : ty_op) : ty :=
  match o with
  | op_prim p => T_prim p
  | op_nominal_sub n b => T_nominal n (d b)
  | op_slice e => T_slice (d e)
  | op_array e r => T_array (d e) r
  | op_tuple ns ts => T_tuple (names_or_null (List.length ts) ns) (map d ts)
  | op_sum n => T_sum n
  | op_handle n => T_handle n
  | op_eff e s ns => T_eff e (map d s) (names_or_null (List.length s) ns)
  | op_category => T_category
  | op_func p r => T_callable TYK_FUNC (map d p) (map d r)
  | op_proc p r => T_callable TYK_PROC (map d p) (map d r)
  | op_map p => T_callable TYK_MAP (map d p) []
  | op_policy p => T_callable TYK_POLICY (map d p) []
  end.

Definition names_fit (n : nat) (names : option (list (option cstr))) : Prop :=
  match names with Some l => List.length l = n | None => True end.

(** The arguments are ids of the arena; an effect has at most 64 slots. *)
Definition op_ok (a : TypeArena) (o : ty_op) : Prop :=
  let ids := Forall (fun t => t < node_count a) in
  match o with
  | op_nominal_sub _ t | op_slice t | op_array t _ => t < node_count a
  | op_tuple ns ts => ids ts /\ names_fit (List.length ts) ns
  | op_eff _ s ns => ids s /\ names_fit (List.length s) ns /\ List.length s <= 64
  | op_func p r | op_proc p r => ids p /\ ids r
  | op_map p | op_policy p => ids p
  | _ => True
  end.

(** The arenas a compilation builds. *)
Inductive reach : TypeArena -> Prop :=
| re_new : reach ty_arena_new
| re_op a o : reach a -> op_ok a o -> reach (snd (run_op a o))
| re_complete a s vs :
    reach a -> Forall (fun v => Forall (fun t => t < node_count a) (snd v)) vs -> reach (tyid_sum_complete a s vs).

Lemma names_length n names : names_fit n names -> List.length (names_or_null n names) = n.
Proof. destruct names; cbn; [auto|]. intros _. apply repeat_length. Qed.

Lemma points_refs ss a rs :
  Forall2 (fun s r => points s a r) ss rs ->
  Forall (ref_ok (List.length (ta_strings a))) rs /\ map (deref a) rs = ss /\ List.length rs = List.length ss.
Proof.
  induction 1 as [|s r ss rs [H E] _ (F & D & L)]; [auto|]. cbn. rewrite E, D, L. auto.
Qed.

Lemma inames_push a buf ns :
  List.length buf + List.length ns <= 64 ->
  intern_inames a buf ns = (buf ++ fst (intern_strs a ns), snd (intern_strs a ns)).
Proof.
  revert a buf; induction ns as [|n ns IH]; intros a buf H; cbn [intern_inames intern_strs].
  - cbn. now rewrite app_nil_r.
  - cbn in H. destruct (intern_str a n) as [r a1]. unfold put64. destruct (Nat.ltb_spec (List.length buf) 64); [|lia].
    rewrite IH by (rewrite length_app; cbn; lia). destruct (intern_strs a1 ns) as [rs a2]. cbn. now rewrite <- app_assoc.
Qed.

Lemma points_some ss a rs : Forall2 (fun s r => points s a r) ss rs -> existsb is_some rs = existsb is_some ss.
Proof.
  induction 1 as [|s r ss rs [H E] _ IH]; [reflexivity|]. cbn. rewrite IH. f_equal.
  destruct r as [i|]; cbn in *; [|now subst]. apply nth_error_Some in H. destruct s; [reflexivity|congruence].
Qed.

Lemma existsb_none {A} (l : list (option A)) : existsb is_some l = false -> l = repeat None (List.length l).
Proof. induction l as [|[x|] l IH]; cbn; [auto|discriminate|]. intros H. f_equal. auto. Qed.

(** [slot_names] recovers the names an effect was stored with. *)
Lemma stored_names n l :
  List.length l = n -> slot_names n (if existsb is_some l then Some l else None) = l.
Proof. intros <-. destruct (existsb is_some l) eqn:E; [reflexivity|]. symmetry. now apply existsb_none. Qed.

Lemma tk_eqb x y : TyKind_beq x y = true <-> x = y.
Proof. split; [apply internal_TyKind_dec_bl|apply internal_TyKind_dec_lb]. Qed.

Lemma pk_eqb x y : PrimKind_beq x y = true <-> x = y.
Proof. split; [apply internal_PrimKind_dec_bl|apply internal_PrimKind_dec_lb]. Qed.

(** The predicate of a constructor's loop recognizes exactly its key. *)
Ltac recognizes :=
  let n := fresh "n" in
  let E := fresh "E" in
  intros n Cn; destruct n; cbn [same_key]; try (split; congruence);
  rewrite ?andb_true_iff, ?sref_eqb_spec, ?Nat.eqb_eq, ?Z.eqb_eq, ?tk_eqb, ?pk_eqb,
    ?(list_eqb_spec Nat.eqb Nat.eqb_eq), ?(list_eqb_spec sref_eqb sref_eqb_spec);
  split; [try (intuition congruence; fail)|try (intros E; injection E; clear E); intros; subst; auto].

Lemma callable_refines a k ps rs :
  wf a -> Forall (fun t => t < node_count a) ps -> Forall (fun t => t < node_count a) rs ->
  In k [TYK_FUNC; TYK_PROC; TYK_MAP; TYK_POLICY] ->
  refines a (T_callable k (map (denote a) ps) (map (denote a) rs)) (intern_callable a k ps rs).
Proof.
  intros W Hp Hr Hk. assert (N : node_ok (List.length (ta_strings a)) (node_count a) (n_callable k ps rs)).
  { constructor; [apply Forall_app; auto|constructor|exact Hk]. }
  apply (returned_refines a a (n_callable k ps rs)); auto using more_refl.
  apply find_or_push_ok; [assumption|assumption|discriminate|]. recognizes.
Qed.

(** A constructor without strings. *)
Lemma plain_refines a p k T :
  wf a -> node_ok (List.length (ta_strings a)) (node_count a) k -> k <> n_unknown ->
  (forall n, canon n -> p n = true <-> same_key n k) -> shape (denote a) (deref a) k = T ->
  refines a T (find_or_push a p k).
Proof.
  intros W Hk Hu Hp E. apply (returned_refines a a k); auto using more_refl. now apply find_or_push_ok.
Qed.

(** A constructor that interned its strings into [a1] first. *)
Lemma named_refines a a1 p k T :
  wf a -> wf a1 -> more_strings a a1 -> Forall (fun c => c < node_count a) (children k) ->
  Forall (ref_ok (List.length (ta_strings a1))) (refs k) -> canon k -> k <> n_unknown ->
  (forall n, canon n -> p n = true <-> same_key n k) -> shape (denote a) (deref a1) k = T ->
  refines a T (find_or_push a1 p k).
Proof.
  intros W W1 M Hc Hr C Hu Hp E. assert (N : node_count a1 = node_count a) by (unfold node_count; now rewrite (ms_nodes _ _ M)).
  assert (O : node_ok (List.length (ta_strings a1)) (node_count a1) k) by (constructor; rewrite ?N; assumption).
  apply (returned_refines a a1 k); auto. now apply find_or_push_ok.
Qed.

Lemma nominal_refines a n b : wf a -> b < node_count a -> refines a (T_nominal n (denote a b)) (tyid_of_nominal_sub a n b).
Proof.
  intros W Hb. unfold tyid_of_nominal_sub. destruct (intern_str_ok a n W) as (W1 & M & R & D).
  destruct (intern_str a n) as [r a1]. cbn [fst snd] in *.
  apply named_refines; cbn; auto; [discriminate|recognizes|now rewrite D].
Qed.

Lemma sum_refines a n : wf a -> refines a (T_sum n) (tyid_sum_forward a n).
Proof.
  intros W. unfold tyid_sum_forward. destruct (intern_str_ok a n W) as (W1 & M & R & D).
  destruct (intern_str a n) as [r a1]. cbn [fst snd] in *.
  apply named_refines; cbn; auto; [discriminate|recognizes|now rewrite D].
Qed.

Lemma handle_refines a n : wf a -> refines a (T_handle n) (tyid_of_handle a n).
Proof.
  intros W. unfold tyid_of_handle. destruct (intern_str_ok a n W) as (W1 & M & R & D).
  destruct (intern_str a n) as [r a1]. cbn [fst snd] in *.
  apply named_refines; cbn; auto; [discriminate|recognizes|now rewrite D].
Qed.

Lemma tuple_refines a ns ts :
  wf a -> Forall (fun t => t < node_count a) ts -> names_fit (List.length ts) ns ->
  refines a (T_tuple (names_or_null (List.length ts) ns) (map (denote a) ts)) (tyid_of_tuple a ns ts).
Proof.
  intros W Ht Hn. unfold tyid_of_tuple. set (l := names_or_null _ ns).
  destruct (intern_strs_ok a l W) as (W1 & M & P). destruct (intern_strs a l) as [rs a1]. cbn [fst snd] in *.
  destruct (points_refs _ _ _ P) as (F & D & _).
  apply named_refines; cbn; auto; [discriminate|recognizes|now rewrite D].
Qed.

Lemma slot_names_length e slots ns :
  canon (n_eff e slots ns) -> List.length (slot_names (List.length slots) ns) = List.length slots.
Proof. destruct ns; cbn; [intros []; assumption|intros _; apply repeat_length]. Qed.

Lemma eff_refines a e s ns :
  wf a -> Forall (fun t => t < node_count a) s -> names_fit (List.length s) ns -> List.length s <= 64 ->
  refines a (T_eff e (map (denote a) s) (names_or_null (List.length s) ns)) (intern_eff a e s ns).
Proof.
  intros W Hs Hn H64. unfold intern_eff. pose proof (names_length _ _ Hn) as Ln.
  set (l := names_or_null _ ns) in *.
  destruct (intern_str_ok a e W) as (W1 & M1 & R1). destruct (intern_str a e) as [r a1]. cbn [fst snd] in *.
  destruct (intern_strs_ok a1 l W1) as (W2 & M2 & P). rewrite inames_push by (cbn; lia).
  destruct (intern_strs a1 l) as [rs a2]. cbn [fst snd app] in *.
  apply (points_more _ _ _ _ M2) in R1 as [R1 D1]. destruct (points_refs _ _ _ P) as (F & D & L).
  rewrite <- (points_some _ _ _ P). 
  assert (Z : rs ++ repeat None (@List.length TypeId s - 64) = rs) by
    (rewrite (proj2 (Nat.sub_0_le (@List.length TypeId s) 64) H64); apply app_nil_r).
  rewrite Z. clear Z. assert (Lr : List.length rs = List.length s) by lia.
  apply named_refines; auto.
  - eapply more_trans; eassumption.
  - cbn. rewrite stored_names by assumption. auto.
  - cbn. destruct (existsb is_some rs) eqn:E; auto.
  - discriminate.
  - recognizes.
    + intros [[-> ->] H]. f_equal. rewrite firstn_all2 in H.
      2:{ rewrite (slot_names_length r); assumption. }
      destruct out_slot_names as [q|]; cbn in H.
      * subst q. cbn in Cn. now rewrite (proj2 Cn).
      * subst rs. assert (R : forall k, existsb is_some (@repeat (option sref) None k) = false) by (induction k; auto).
        now rewrite R.
    + rewrite stored_names by assumption. split; [auto|]. apply firstn_all2. unfold TypeId, sref in *. lia.
  - cbn. rewrite stored_names by assumption. now rewrite D1, D.
Qed.

Lemma run_op_refines a o : wf a -> op_ok a o -> refines a (described (denote a) o) (run_op a o).
Proof.
  intros W H. destruct o; cbn [run_op described op_ok] in *; split_hyps.
  - apply plain_refines; auto; [constructor; cbn; auto|discriminate|recognizes].
  - now apply nominal_refines.
  - apply plain_refines; auto; [constructor; cbn; auto|discriminate|recognizes].
  - apply plain_refines; auto; [constructor; cbn; auto|discriminate|recognizes].
  - now apply tuple_refines.
  - now apply sum_refines.
  - now apply handle_refines.
  - now apply eff_refines.
  - apply plain_refines; auto; [constructor; cbn; auto|discriminate|].
    intros n _; destruct n; cbn; split; congruence.
  - apply callable_refines; cbn; auto.
  - apply callable_refines; cbn; auto.
  - apply (callable_refines a TYK_MAP params []); cbn; auto.
  - apply (callable_refines a TYK_POLICY params []); cbn; auto.
Qed.

(** ** Completing a sum *)

Lemma set_nth_same {A} i (x : A) l : i < List.length l -> nth_error (set_nth i x l) i = Some x.
Proof. revert i; induction l as [|y l IH]; intros [|i] H; cbn in *; try lia; [reflexivity|]. apply IH. lia. Qed.

Lemma set_nth_other {A} i j (x : A) l : i <> j -> nth_error (set_nth i x l) j = nth_error l j.
Proof. revert i j; induction l as [|y l IH]; intros [|i] [|j] H; cbn; try reflexivity; try lia. apply IH. lia. Qed.

Lemma set_nth_length {A} i (x : A) l : List.length (set_nth i x l) = List.length l.
Proof. revert i; induction l as [|y l IH]; intros [|i]; cbn; auto. Qed.

Lemma set_nth_Forall2 {A} (R : A -> A -> Prop) i x l :
  (forall y, R y y) -> (forall y, nth_error l i = Some y -> R y x) -> Forall2 R l (set_nth i x l).
Proof.
  intros Rr. revert i; induction l as [|y l IH]; intros [|i] H; cbn; constructor; auto.
  clear - Rr. induction l; constructor; auto.
Qed.

Lemma node_at_some a t n : node_at a t = Some n <-> t <> 0 /\ nth_error (ta_nodes a) t = Some n.
Proof.
  unfold node_at. destruct (Nat.eqb_spec t 0) as [->|N]; cbn; [split; [discriminate|intros []; contradiction]|].
  destruct (Nat.leb_spec (node_count a) t) as [L|L]; [|split; [auto|intros []; auto]].
  unfold node_count in L. apply nth_error_None in L. rewrite L. split; [discriminate|intros []; discriminate].
Qed.

Lemma complete_ok a s vs :
  wf a -> wf (tyid_sum_complete a s vs) /\ types_of (tyid_sum_complete a s vs) = types_of a.
Proof.
  intros W. unfold tyid_sum_complete. destruct (node_at a s) as [[]|] eqn:N; auto. destruct complete; auto.
  apply node_at_some in N as [_ N]. destruct (intern_strs_ok a (map fst vs) W) as (W1 & M & _).
  destruct (intern_strs a (map fst vs)) as [rs a1]. cbn [fst snd] in *. rewrite <- (ms_nodes _ _ M) in N.
  set (k := n_sum _ _ _). set (b := mkArena _ _).
  assert (T : types_of b = types_of a).
  { rewrite <- (more_types a a1 W M). unfold types_of. symmetry. apply table_ext. apply set_nth_Forall2; [reflexivity|].
    intros y Hy. rewrite N in Hy. now injection Hy as <-. }
  split; [|exact T]. constructor.
  - destruct (wf_head a1 W1) as (rest & E & F). unfold b. cbn. rewrite E in *. destruct s as [|s]; [discriminate|].
    exists (set_nth s k rest). split; [reflexivity|]. clear - F. revert s. induction F; intros [|s]; cbn; constructor; auto; discriminate.
  - intros i n Hi. unfold b in *. cbn in *. destruct (Nat.eq_dec s i) as [<-|D].
    + rewrite set_nth_same in Hi by (apply nth_error_Some; congruence). injection Hi as <-.
      destruct (wf_nodes a1 W1 s _ N). now constructor.
    + rewrite set_nth_other in Hi by assumption. now apply (wf_nodes a1 W1).
  - apply W1.
  - rewrite T. apply W.
Qed.

Lemma reach_wf a : reach a -> wf a.
Proof.
  induction 1 as [|a o _ IH Ho|a s vs _ IH _].
  - constructor; [now exists []| |constructor|repeat constructor; auto].
    intros [|[|i]] n H; cbn in H; try discriminate. injection H as <-. now constructor.
  - apply (rf_wf _ _ _ (run_op_refines a o IH Ho)).
  - now apply complete_ok.
Qed.

(** ** Later arenas *)

(** [a'] comes after [a] in a compilation. *)
Inductive later (a : TypeArena) : TypeArena -> Prop :=
| la_now : later a a
| la_op b o : later a b -> op_ok b o -> later a (snd (run_op b o))
| la_complete b s vs :
    later a b -> Forall (fun v => Forall (fun t => t < node_count b) (snd v)) vs -> later a (tyid_sum_complete b s vs).

Lemma later_reach a b : reach a -> later a b -> reach b.
Proof. intros R; induction 1; [assumption|now constructor|now constructor]. Qed.

Lemma complete_denote a s vs i : wf a -> denote (tyid_sum_complete a s vs) i = denote a i.
Proof. intros W. unfold denote. now rewrite (proj2 (complete_ok a s vs W)). Qed.

Lemma complete_count a s vs : wf a -> node_count (tyid_sum_complete a s vs) = node_count a.
Proof. intros W. rewrite <- !types_length. now rewrite (proj2 (complete_ok a s vs W)). Qed.

Lemma later_old a b :
  reach a -> later a b -> node_count a <= node_count b /\ (forall i, i < node_count a -> denote b i = denote a i).
Proof.
  intros R L. induction L as [|b o L [Hc IH] Ho|b s vs L [Hc IH] Hv]; [auto| |].
  - pose proof (reach_wf b (later_reach _ _ R L)) as W. destruct (run_op_refines b o W Ho).
    split; [lia|]. intros i Hi. rewrite rf_old0 by lia. auto.
  - pose proof (reach_wf b (later_reach _ _ R L)) as W. rewrite complete_count by assumption. split; [assumption|].
    intros i Hi. rewrite complete_denote by assumption. auto.
Qed.

Lemma described_ext d d' o n :
  (forall i, i < n -> d i = d' i) ->
  match o with
  | op_nominal_sub _ t | op_slice t | op_array t _ => t < n
  | op_tuple _ ts | op_eff _ ts _ | op_map ts | op_policy ts => Forall (fun t => t < n) ts
  | op_func p r | op_proc p r => Forall (fun t => t < n) (p ++ r)
  | _ => True
  end -> described d o = described d' o.
Proof.
  intros H.
  assert (M : forall l, Forall (fun t => t < n) l -> map d l = map d' l).
  { intros l Hl. apply map_ext_in. rewrite Forall_forall in Hl. auto. }
  destruct o; cbn; intros Hn; try apply Forall_app in Hn as [? ?]; f_equal; auto.
Qed.

Lemma op_ok_described a o d : (forall i, i < node_count a -> d i = denote a i) -> op_ok a o -> described d o = described (denote a) o.
Proof.
  intros H Ho. apply (described_ext _ _ _ (node_count a) H).
  destruct o; cbn in Ho; split_hyps; try apply Forall_app; auto.
Qed.

Lemma op_ok_le a b o : node_count a <= node_count b -> op_ok a o -> op_ok b o.
Proof.
  intros L. assert (F : forall l, Forall (fun t => t < node_count a) l -> Forall (fun t => t < node_count b) l).
  { intros l. apply Forall_impl. lia. }
  destruct o; cbn; try lia; intros; split_hyps; auto.
Qed.

(** ** Reading a type back *)

(** The node of a valid id, seen through its type. *)
Lemma node_of a t : wf a -> 0 < t < node_count a ->
  exists n, node_at a t = Some n /\ node_ok (List.length (ta_strings a)) t n /\ denote a t = shape (denote a) (deref a) n.
Proof.
  intros W [H0 Ht]. destruct (nth_error (ta_nodes a) t) as [n|] eqn:N; [|apply nth_error_None in N; unfold node_count in Ht; lia].
  exists n. split; [apply node_at_some; split; [lia|assumption]|]. split; [now apply (wf_nodes a W)|now apply denote_node].
Qed.

Lemma denote_list_inj a l l' :
  wf a -> Forall (fun t => t < node_count a) l -> Forall (fun t => t < node_count a) l' ->
  map (denote a) l = map (denote a) l' -> l = l'.
Proof.
  intros W H H'. apply map_inj_on. rewrite Forall_forall in H, H'. intros x y Hx Hy. apply denote_inj; auto.
Qed.

(** What the accessors say about the id a constructor call returned. *)
Definition reads_back (a : TypeArena) (t : TypeId) (o : ty_op) : Prop :=
  match o with
  | op_prim p => tyid_kind a t = TYK_PRIM /\ tyid_prim a t = p
  | op_nominal_sub n b => tyid_kind a t = TYK_NOMINAL /\ deref a (tyid_nominal_name a t) = n /\ tyid_backing a t = b
  | op_slice e => tyid_kind a t = TYK_SLICE /\ tyid_elem a t = e
  | op_array e r => tyid_kind a t = TYK_ARRAY /\ tyid_elem a t = e /\ tyid_array_len a t = r
  | op_tuple ns ts =>
      tyid_kind a t = TYK_TUPLE /\ tyid_tuple_count a t = Z.of_nat (List.length ts) /\
      forall i, i < List.length ts ->
        tyid_tuple_field_type a t (Z.of_nat i) = nth i ts TYID_UNKNOWN /\
        deref a (tyid_tuple_field_name a t (Z.of_nat i)) = nth i (names_or_null (List.length ts) ns) None
  | op_sum n => tyid_kind a t = TYK_SUM /\ deref a (tyid_sum_name a t) = n
  | op_handle n => tyid_kind a t = TYK_HANDLE /\ deref a (tyid_handle_name a t) = n
  | op_eff e s ns =>
      tyid_kind a t = TYK_EFF /\ deref a (tyid_eff_extern_name a t) = e /\
      tyid_eff_out_count a t = Z.of_nat (List.length s) /\
      forall i, i < List.length s ->
        tyid_eff_out_at a t (Z.of_nat i) = nth i s TYID_UNKNOWN /\
        deref a (tyid_eff_out_name_at a t (Z.of_nat i)) = nth i (names_or_null (List.length s) ns) None
  | op_category => tyid_kind a t = TYK_ARCHETYPE_CATEGORY
  | op_func _ _ => tyid_kind a t = TYK_FUNC /\ tyid_is_callable a t = true /\ tyid_is_proc a t = false
  | op_proc _ _ => tyid_kind a t = TYK_PROC /\ tyid_is_callable a t = true /\ tyid_is_proc a t = true
  | op_map _ => tyid_kind a t = TYK_MAP /\ tyid_is_callable a t = false
  | op_policy _ => tyid_kind a t = TYK_POLICY /\ tyid_is_callable a t = false
  end.

Lemma at_index_nth {A} (d : A) l i : i < List.length l -> at_index d l (Z.of_nat i) = nth i l d.
Proof.
  intros H. unfold at_index. destruct (Z.ltb_spec (Z.of_nat i) 0), (Z.leb_spec (Z.of_nat (List.length l)) (Z.of_nat i)); try lia.
  cbn. now rewrite Nat2Z.id.
Qed.

Lemma deref_nth a l i : deref a (nth i l None) = nth i (map (deref a) l) None.
Proof. symmetry. exact (map_nth (deref a) l None i). Qed.

(** Ids of equal types are equal. *)
Ltac same_ids :=
  repeat match goal with
    | H : Forall _ (_ :: _) |- _ => inversion_clear H
    | W : wf ?b, H : denote ?b ?x = denote ?b ?y |- _ => apply (denote_inj b x y W) in H; [|assumption|assumption]
    | W : wf ?b, H : map (denote ?b) ?x = map (denote ?b) ?y |- _ =>
        apply (denote_list_inj b x y W) in H; [|assumption|assumption]
    end.

Lemma refines_reads_back a o : wf a -> op_ok a o -> reads_back (snd (run_op a o)) (fst (run_op a o)) o.
Proof.
  intros W Ho. destruct (run_op_refines a o W Ho) as [W' T V C O].
  destruct (run_op a o) as [t b]. cbn [fst snd] in *.
  rewrite <- (op_ok_described a o (denote b) O Ho) in T. apply (op_ok_le a b o C) in Ho.
  destruct (node_of b t W' V) as (n & N & [Hc _ Cn] & S). rewrite S in T.
  assert (Hl : Forall (fun c => c < node_count b) (children n)) by (eapply Forall_impl; [|exact Hc]; intros x; unfold TypeId in *; lia).
  clear S Hc O C. destruct o, n; cbn in T; try discriminate; try (injection T; clear T; intros);
    cbn in Ho, Hl; split_hyps; same_ids; subst;
    unfold reads_back, tyid_kind, tyid_prim, tyid_nominal_name, tyid_backing, tyid_elem, tyid_array_len,
      tyid_tuple_count, tyid_tuple_field_type, tyid_tuple_field_name, tyid_sum_name, tyid_handle_name,
      tyid_eff_extern_name, tyid_eff_out_count, tyid_eff_out_at, tyid_eff_out_name_at, tyid_is_callable, tyid_is_proc;
    rewrite N; auto.
  - assert (L : List.length names0 = List.length types) by (erewrite <- length_map, H0; now apply names_length).
    refine (conj eq_refl (conj eq_refl _)). intros i Hi. rewrite !at_index_nth by congruence. now rewrite deref_nth, H0.
  - refine (conj eq_refl (conj eq_refl (conj eq_refl _))). intros i Hi. rewrite at_index_nth by assumption.
    split; [reflexivity|]. rewrite <- H. destruct out_slot_names as [l|]; cbn [slot_names].
    + rewrite at_index_nth by (cbn in Cn; destruct Cn; congruence). apply deref_nth.
    + now rewrite <- deref_nth, nth_repeat.
Qed.

(** ** The subtype relation on types *)

(** One-way use along the backing chain of a distinct subtype. *)
Inductive backed : ty -> ty -> Prop :=
| bk_refl T : T <> T_unknown -> backed T T
| bk_step n B T : backed B T -> backed (T_nominal n B) T.

(** [T] is usable where [U] is expected. *)
Definition usable (T U : ty) : Prop :=
  backed T U \/
  match T, U with
  | T_eff e s _, T_eff e' s' _ => s = s' /\ (e' = None \/ e' = e)
  | _, _ => False
  end.

Lemma denote_zero a : wf a -> denote a 0 = T_unknown.
Proof.
  intros W. destruct (wf_head a W) as (rest & E & _). rewrite (denote_node a 0 n_unknown W); [reflexivity|]. now rewrite E.
Qed.

Lemma denote_unknown a t : wf a -> t < node_count a -> denote a t = T_unknown -> t = 0.
Proof.
  intros W Ht E. apply (denote_inj a); auto; [|now rewrite denote_zero].
  destruct (wf_head a W) as (rest & H & _). unfold node_count. rewrite H. cbn. lia.
Qed.

(** The chain from a valid id is finite and visits the backings of its type. *)
Lemma backing_reaches_spec a fuel t to :
  wf a -> t < fuel -> t < node_count a -> to < node_count a ->
  exists b, backing_reaches fuel a t to = Some b /\ (b = true <-> backed (denote a t) (denote a to)).
Proof.
  intros W. revert t. induction fuel as [|f IH]; intros t Hf Ht Hto; [lia|]. cbn [backing_reaches].
  destruct (Nat.eqb_spec t TYID_UNKNOWN) as [->|N].
  - exists false. split; [reflexivity|]. split; [discriminate|]. rewrite denote_zero by assumption. intros B.
    remember T_unknown as u eqn:U. destruct B; congruence.
  - destruct (Nat.eqb_spec t to) as [<-|D].
    + exists true. split; [reflexivity|]. split; [|reflexivity]. intros _. constructor. intros E.
      apply (denote_unknown a t W Ht) in E. contradiction.
    + destruct (node_of a t W) as (n & Hn & [Hc _ _] & S); [unfold TYID_UNKNOWN in N; lia|].
      assert (NB : (forall m b, n <> n_nominal m b) -> tyid_backing a t = 0 /\ ~ backed (denote a t) (denote a to)).
      { intros Hm. unfold tyid_backing. rewrite Hn. split; [destruct n; try reflexivity; now destruct (Hm name backing)|].
        intros B. assert (denote a t <> denote a to) by (intros E; apply denote_inj in E; auto).
        inversion B; subst; [auto|]. rewrite S in H0. destruct n; try discriminate. now destruct (Hm name backing). }
      destruct n as [| |m b| | | | | | | |]; try (destruct NB as [E NB]; [intros; discriminate|]; rewrite E;
        exists false; split; [destruct f; [unfold TYID_UNKNOWN in N; lia|reflexivity]|split; [discriminate|contradiction]]).
      unfold tyid_backing. rewrite Hn. cbn in Hc. inversion_clear Hc.
      destruct (IH b) as (r & E & R); [lia|lia|assumption|]. exists r. split; [exact E|]. rewrite R, S. cbn [shape].
      split; [now constructor|]. intros B. inversion B; subst; [|assumption].
      exfalso. apply D. apply (denote_inj a); auto. now rewrite S.
Qed.

Lemma same_slots_spec (s s' : list TypeId) :
  (Z.of_nat (List.length s) =? Z.of_nat (List.length s'))%Z = true /\
  forallb (fun i => Nat.eqb (at_index TYID_UNKNOWN s (Z.of_nat i)) (at_index TYID_UNKNOWN s' (Z.of_nat i)))
    (seq 0 (Z.to_nat (Z.of_nat (List.length s)))) = true <-> s = s'.
Proof.
  rewrite Z.eqb_eq, Nat2Z.inj_iff, Nat2Z.id, forallb_forall. split.
  - intros [L H]. apply (nth_ext _ _ TYID_UNKNOWN TYID_UNKNOWN L). intros i Hi. specialize (H i).
    rewrite !at_index_nth in H by congruence. apply Nat.eqb_eq, H, in_seq. lia.
  - intros ->. split; [reflexivity|]. intros i _. apply Nat.eqb_refl.
Qed.

Lemma deref_none a r : ref_ok (List.length (ta_strings a)) r -> deref a r = None <-> r = None.
Proof.
  destruct r as [i|]; cbn; [|intuition]. intros H. split; [|discriminate]. intros E. apply nth_error_None in E. lia.
Qed.

(** The comparison of the extern pointers is the comparison of the names. *)
Lemma extern_spec a e e' :
  wf a -> ref_ok (List.length (ta_strings a)) e -> ref_ok (List.length (ta_strings a)) e' ->
  negb (is_some e') || sref_eqb e' e = true <-> deref a e' = None \/ deref a e' = deref a e.
Proof.
  intros W H H'. rewrite orb_true_iff, sref_eqb_spec, (deref_none a e' H'). split.
  - intros [N| ->]; [|now right]. left. now destruct e'.
  - intros [->|E]; [now left|right]. now apply (deref_inj a).
Qed.

Lemma eff_usable_spec a t u :
  wf a -> 0 < t < node_count a -> 0 < u < node_count a ->
  eff_usable a t u = true <->
  match denote a t, denote a u with
  | T_eff e s _, T_eff e' s' _ => s = s' /\ (e' = None \/ e' = e)
  | _, _ => False
  end.
Proof.
  intros W Ht Hu. destruct (node_of a t W Ht) as (n & Hn & [Hc Hr Cn] & Sn).
  destruct (node_of a u W Hu) as (k & Hk & [Hc' Hr' Ck] & Sk).
  unfold eff_usable, tyid_kind, tyid_eff_out_count, tyid_eff_extern_name, same_slots, tyid_eff_out_at.
  rewrite Sn, Sk, Hn, Hk. clear Sn Sk Hn Hk.
  assert (V : forall i m, i < node_count a -> Forall (fun c => c < i) m -> Forall (fun c => c < node_count a) m).
  { intros i m Hi. apply Forall_impl. lia. }
  assert (K : forall m, canon m -> TyKind_beq (node_kind m) TYK_EFF = true -> exists e s q, m = n_eff e s q).
  { intros [] C E; cbn in *; try discriminate; eauto. repeat destruct C as [<-|C]; try discriminate. contradiction. }
  destruct (TyKind_beq (node_kind n) TYK_EFF) eqn:En.
  2:{ split; [discriminate|]. destruct n; try contradiction. discriminate. }
  destruct (TyKind_beq (node_kind k) TYK_EFF) eqn:Ek.
  2:{ split; [discriminate|]. destruct n; try contradiction. destruct k; try contradiction. discriminate. }
  destruct (K n Cn En) as (e & s & q & ->). destruct (K k Ck Ek) as (e' & s' & q' & ->).
  cbn [node_kind shape children refs andb] in *.
  inversion_clear Hr. inversion_clear Hr'. rewrite !andb_true_iff, same_slots_spec, (extern_spec a) by assumption.
  split; [intros [-> X]; auto|intros [E X]; split; [|exact X]].
  apply (denote_list_inj a); [assumption|apply (V t)|apply (V u)|]; tauto.
Qed.

(** [tyid_usable_as] decides [usable] of the two types. *)
Lemma usable_spec a t u :
  wf a -> t < node_count a -> u < node_count a ->
  exists b, tyid_usable_as a t u = Some b /\ (b = true <-> usable (denote a t) (denote a u)).
Proof.
  intros W Ht Hu. unfold tyid_usable_as, usable. destruct (backing_reaches_spec a (S (node_count a)) t u W) as (b & E & B); auto.
  assert (N : forall i, i = 0 -> denote a i = T_unknown) by (intros ? ->; now apply denote_zero).
  destruct (Nat.eq_dec t 0) as [Z|Z]; [|destruct (Nat.eq_dec u 0) as [Y|Y]].
  - assert (eff_usable a t u = false) as -> by now rewrite Z.
    exists b. rewrite (N t Z) in *. split; [exact E|]. rewrite B. tauto.
  - assert (eff_usable a t u = false) as -> by (rewrite Y; unfold eff_usable; now rewrite andb_false_r).
    exists b. rewrite (N u Y) in *. split; [exact E|]. rewrite B. destruct (denote a t); tauto.
  - destruct (eff_usable a t u) eqn:F.
    + exists true. split; [reflexivity|]. split; [|reflexivity]. intros _. right. apply eff_usable_spec; auto; lia.
    + exists b. split; [exact E|]. rewrite B. split; [now left|]. intros [X|X]; [exact X|].
      exfalso. apply eff_usable_spec in X; auto; [congruence|lia|lia].
Qed.

Lemma backed_trans T U V : backed T U -> backed U V -> backed T V.
Proof. induction 1; [auto|]. intros H'. constructor. auto. Qed.

Fixpoint ty_depth (T : ty) : nat := match T with T_nominal _ B => S (ty_depth B) | _ => 0 end.

Lemma backed_depth T U : backed T U -> T = U \/ ty_depth U < ty_depth T.
Proof. induction 1 as [|n B T _ [<-|H]]; cbn; [auto|right; lia|right; lia]. Qed.

Lemma backed_antisym T U : backed T U -> backed U T -> T = U.
Proof. intros H H'. apply backed_depth in H, H'. destruct H; [assumption|]. destruct H'; [auto|lia]. Qed.

Lemma kind_eff a t : wf a -> t < node_count a -> tyid_kind a t = TYK_EFF -> exists e s n, denote a t = T_eff e s n.
Proof.
  intros W Ht. destruct (Nat.eq_dec t 0) as [->|Z]; [discriminate|]. destruct (node_of a t W) as (n & Hn & [_ _ C] & S); [lia|].
  unfold tyid_kind. rewrite Hn, S. destruct n; cbn; try discriminate; eauto.
  intros ->. cbn in C. repeat destruct C as [C|C]; try discriminate. contradiction.
Qed.

Lemma eff_kind a t e s n : wf a -> t < node_count a -> denote a t = T_eff e s n -> tyid_kind a t = TYK_EFF.
Proof.
  intros W Ht E. destruct (Nat.eq_dec t 0) as [->|Z]; [rewrite denote_zero in E by assumption; discriminate|].
  destruct (node_of a t W) as (m & Hm & _ & S); [lia|]. unfold tyid_kind. rewrite Hm.
  rewrite S in E. destruct m; try discriminate. reflexivity.
Qed.

(** ** Display *)

(** The elements separated by commas. *)
Fixpoint commas (first : bool) (l : list cstr) : cstr :=
  match l with
  | [] => []
  | x :: r => ((if first then [] else lit ", ") ++ x) ++ commas false r
  end.

(** The full text of a type, without any bound. *)
Fixpoint render (T : ty) : cstr :=
  match T with
  | T_unknown => lit "<unknown>"
  | T_prim p => prim_name p
  | T_nominal n _ => or_q "?" n
  | T_slice e => lit "[]" ++ render e
  | T_array e l => lit "[" ++ show_int l ++ lit "]" ++ render e
  | T_tuple _ ts => lit "(" ++ commas true (map render ts) ++ lit ")"
  | T_sum n => or_q "sum" n
  | T_handle n => lit "handle(" ++ or_q "?" n ++ lit ")"
  | T_eff _ s _ => lit "Eff(" ++ commas true (map render s) ++ lit ")"
  | T_category => lit "archetype"
  | T_callable k ps rs =>
      let p := commas true (map render ps) in
      match k with
      | TYK_PROC => lit "proc(" ++ p ++ lit ")(" ++ commas true (map render rs) ++ lit ")"
      | TYK_FUNC => lit "func(" ++ p ++ lit ") -> " ++ match rs with r :: _ => render r | [] => lit "void" end
      | TYK_MAP => lit "map(" ++ p ++ lit ")"
      | _ => lit "policy(" ++ p ++ lit ")"
      end
  end.

Lemma snprintf_all n s : List.length s < n -> snprintf n s = s.
Proof. intros H. apply firstn_all2. lia. Qed.

Lemma snprintf_length n s : 0 < n -> List.length (snprintf n s) < n.
Proof. intros H. unfold snprintf. rewrite length_firstn. lia. Qed.

Lemma join_into_ok size ones os first :
  List.length os + List.length (commas first ones) < size -> join_into size os first ones = os ++ commas first ones.
Proof.
  revert os first; induction ones as [|one r IH]; intros os first H; cbn [join_into commas] in *; [now rewrite app_nil_r|].
  rewrite !length_app in H. rewrite snprintf_all by (rewrite length_app; lia).
  rewrite IH by (rewrite !length_app; lia). now rewrite <- app_assoc.
Qed.

Lemma tuple_into_ok buflen ones buf first :
  List.length buf + List.length (commas first ones) < buflen ->
  tuple_into buflen buf (List.length buf) first ones = (buf ++ commas first ones, List.length buf + List.length (commas first ones)).
Proof.
  revert buf first; induction ones as [|one r IH]; intros buf first H; cbn [tuple_into commas] in *.
  - cbn. now rewrite app_nil_r, Nat.add_0_r.
  - rewrite !length_app in *. destruct (Nat.ltb_spec (List.length buf) buflen); [|lia].
    rewrite snprintf_all by (rewrite length_app; lia). rewrite <- !length_app, IH by (rewrite !length_app in *; lia).
    rewrite <- app_assoc, !length_app. f_equal. lia.
Qed.

Lemma commas_member first x l : In x l -> List.length x <= List.length (commas first l).
Proof.
  revert first; induction l as [|y l IH]; intros first H; [contradiction|]. cbn [commas]. rewrite !length_app.
  destruct H as [->|H]; [lia|]. specialize (IH false H). lia.
Qed.

(** A tuple's buffer never overruns: before each write its length is the offset, below [buflen]. *)
Lemma tuple_into_fits buflen ones buf off first :
  List.length buf < buflen -> (off < buflen -> List.length buf = off) ->
  let (buf', off') := tuple_into buflen buf off first ones in
  List.length buf' < buflen /\ (off' < buflen -> List.length buf' = off').
Proof.
  revert buf off first; induction ones as [|one r IH]; intros buf off first H E; cbn [tuple_into]; [auto|].
  destruct (Nat.ltb_spec off buflen) as [L|L]; [|split; [assumption|lia]]. specialize (E L). apply IH.
  - rewrite length_app. pose proof (snprintf_length (buflen - off) ((if first then [] else lit ", ") ++ one)). lia.
  - intros L'. rewrite length_app, snprintf_all by lia. lia.
Qed.

Lemma display_fits fuel a t buflen : 0 < buflen -> List.length (display fuel a t buflen) < buflen.
Proof.
  intros H. destruct fuel as [|f]; [exact H|]. cbn [display].
  assert (S : forall s, List.length (snprintf buflen s) < buflen) by (intros; now apply snprintf_length).
  destruct (node_at a t) as [n|]; [|apply S]. destruct n; try apply S.
  - set (ones := map _ types).
    pose proof (tuple_into_fits buflen ones (snprintf buflen (lit "(")) 1 true (S _)) as T.
    destruct (tuple_into _ _ _ _ _) as [buf off]. destruct T as [T E].
    { intros L. rewrite snprintf_all; [reflexivity|exact L]. }
    destruct (Nat.ltb_spec off buflen) as [L|L]; [|exact T]. rewrite length_app, (E L).
    pose proof (snprintf_length (buflen - off) (lit ")")). lia.
  - destruct kind; apply S.
Qed.

(** No buffer inside the display of a type is too small: every component's text fits the 128 bytes it
    is written to, the slots of an effect fit 300 together, parameters and results 400. *)
Fixpoint uncut (T : ty) : bool :=
  let short T := (List.length (render T) <? 128) && uncut T in
  let fits size ts := List.length (commas true (map render ts)) <? size in
  match T with
  | T_slice e | T_array e _ => short e
  | T_tuple _ ts => forallb (fun T => short T) ts
  | T_eff _ s _ => forallb (fun T => short T) s && fits 300 s
  | T_callable k ps rs =>
      forallb (fun T => short T) ps && fits 400 ps &&
      match k with
      | TYK_PROC => forallb (fun T => short T) rs && fits 400 rs
      | TYK_FUNC => match rs with r :: _ => short r | [] => true end
      | _ => true
      end
  | _ => true
  end.

Definition short (T : ty) : bool := (List.length (render T) <? 128) && uncut T.

Definition no_longer (x y : cstr) : Prop := List.length x <= List.length y.

Lemma app_no_longer {x y x' y' : cstr} : no_longer x x' -> no_longer y y' -> x ++ y = x' ++ y' <-> x = x' /\ y = y'.
Proof.
  unfold no_longer. intros Hx Hy. split; [|now intros [-> ->]]. intros E.
  assert (L : List.length x = List.length x') by (apply (f_equal (@List.length _)) in E; rewrite !length_app in E; lia).
  assert (E1 : x = x') by (rewrite <- (firstn_app_exact x y), E, L; apply firstn_app_exact). subst x'.
  split; [reflexivity|]. now apply app_inv_head in E.
Qed.

Lemma snprintf_no_longer n s : no_longer (snprintf n s) s.
Proof. unfold no_longer, snprintf. rewrite length_firstn. lia. Qed.

Lemma commas_no_longer xs ys first : Forall2 no_longer xs ys -> no_longer (commas first xs) (commas first ys).
Proof.
  intros F. revert first. induction F as [|x y xs ys H F IH]; intros first; unfold no_longer in *; cbn [commas]; [lia|].
  rewrite !length_app. specialize (IH false). lia.
Qed.

Lemma commas_equal xs ys first : Forall2 no_longer xs ys -> commas first xs = commas first ys <-> xs = ys.
Proof.
  intros F. split; [|now intros ->]. revert first. induction F as [|x y xs ys H F IH]; intros first E; [reflexivity|].
  cbn [commas] in E. apply app_no_longer in E as [E1 E2]; [|unfold no_longer in *; rewrite !length_app; lia|now apply commas_no_longer].
  apply app_inv_head in E1. f_equal; [exact E1|now apply (IH false)].
Qed.

Lemma join_into_length size ones os first :
  List.length os < size ->
  List.length (join_into size os first ones) < size /\ no_longer (join_into size os first ones) (os ++ commas first ones).
Proof.
  unfold no_longer. revert os first; induction ones as [|one r IH]; intros os first H; cbn [join_into commas].
  - rewrite app_nil_r. lia.
  - set (x := (if first then [] else lit ", ") ++ one).
    pose proof (snprintf_length (size - List.length os) x). pose proof (snprintf_no_longer (size - List.length os) x) as N.
    destruct (IH (os ++ snprintf (size - List.length os) x) false) as [H1 H2]; [rewrite length_app; lia|]. split; [exact H1|].
    unfold no_longer in N. rewrite !length_app in *. lia.
Qed.

(** Elements joined in a buffer are all there when each is and all fit. *)
Lemma join_into_exact size xs ys :
  0 < size -> Forall2 no_longer xs ys ->
  no_longer (join_into size [] true xs) (commas true ys) /\
  (join_into size [] true xs = commas true ys <-> xs = ys /\ List.length (commas true ys) < size).
Proof.
  intros H F. destruct (join_into_length size xs [] true H) as [L1 L2]. pose proof (commas_no_longer xs ys true F) as L3.
  unfold no_longer in *. cbn [app] in L2. split; [lia|]. split.
  - intros E. rewrite E in *. assert (L : List.length (commas true xs) < size) by lia.
    rewrite join_into_ok in E by exact L. split; [now apply commas_equal in E|lia].
  - intros [-> L]. now rewrite join_into_ok.
Qed.

Ltac measure := rewrite ?length_app in *; cbn [lit list_ascii_of_string List.length] in *; lia.

Section DisplayStep.
Variables (a : TypeArena) (f : nat).
Hypothesis shorter : forall t n, t < f -> t < node_count a -> 0 < n -> no_longer (display f a t n) (render (denote a t)).
Abbreviation valid ts := (Forall (fun t => t < f /\ t < node_count a) ts).

Lemma inner_shorter ts : valid ts -> Forall2 no_longer (map (fun x => display f a x 128) ts) (map render (map (denote a) ts)).
Proof. induction 1 as [|t ts [H1 H2] _ IH]; cbn [map]; constructor; [now apply shorter; [| |lia]|exact IH]. Qed.

Hypothesis exact_below : forall t n, t < f -> t < node_count a -> List.length (render (denote a t)) < n ->
  display f a t n = render (denote a t) <-> uncut (denote a t) = true.

Lemma inner_exact t : t < f -> t < node_count a -> display f a t 128 = render (denote a t) <-> short (denote a t) = true.
Proof.
  intros H1 H2. unfold short. rewrite andb_true_iff, Nat.ltb_lt. split.
  - intros E. assert (L : List.length (render (denote a t)) < 128) by (rewrite <- E; apply display_fits; lia).
    split; [exact L|]. now apply (exact_below t 128).
  - intros [L U]. now apply exact_below.
Qed.

Lemma inners_exact ts :
  valid ts -> map (fun x => display f a x 128) ts = map render (map (denote a) ts) <-> forallb short (map (denote a) ts) = true.
Proof.
  induction 1 as [|t ts [H1 H2] _ IH]; cbn [map forallb]; [tauto|]. rewrite andb_true_iff, <- IH, <- inner_exact by assumption.
  split; [now intros [= -> ->]|now intros [-> ->]].
Qed.

Lemma joined_exact size ts :
  0 < size -> valid ts ->
  no_longer (join_into size [] true (map (fun x => display f a x 128) ts)) (commas true (map render (map (denote a) ts))) /\
  (join_into size [] true (map (fun x => display f a x 128) ts) = commas true (map render (map (denote a) ts)) <->
   forallb short (map (denote a) ts) && (List.length (commas true (map render (map (denote a) ts))) <? size) = true).
Proof.
  intros H V. destruct (join_into_exact size _ _ H (inner_shorter ts V)) as [L E]. split; [exact L|].
  rewrite E, andb_true_iff, Nat.ltb_lt, inners_exact by assumption. reflexivity.
Qed.
End DisplayStep.

(** The ids of the children of a node, by kind. *)
Lemma children_below a ns t n f :
  node_ok ns t n -> t < S f -> t < node_count a -> Forall (fun c => c < f /\ c < node_count a) (children n).
Proof. intros [Hc _ _] Hf Ht. eapply Forall_impl; [|exact Hc]. intros c. cbn. lia. Qed.

Lemma tuple_into_no_longer buflen ones buf off first :
  no_longer (fst (tuple_into buflen buf off first ones)) (buf ++ commas first ones).
Proof.
  revert buf off first; induction ones as [|one r IH]; intros buf off first; cbn [tuple_into commas]; unfold no_longer.
  - cbn [fst]. rewrite app_nil_r. lia.
  - case_if; [|cbn [fst]; rewrite !length_app; lia]. eapply Nat.le_trans; [apply IH|].
    rewrite !length_app. pose proof (snprintf_no_longer (buflen - off) ((if first then [] else lit ", ") ++ one)) as N.
    unfold no_longer in N. rewrite length_app in N. lia.
Qed.

Lemma snprintf_le n s r : no_longer s r -> no_longer (snprintf n s) r.
Proof. intros H. eapply Nat.le_trans; [apply snprintf_no_longer|exact H]. Qed.

Lemma app_mono (x y x' y' : cstr) : no_longer x x' -> no_longer y y' -> no_longer (x ++ y) (x' ++ y').
Proof. unfold no_longer. rewrite !length_app. lia. Qed.

Lemma joined_shorter size xs ys : 0 < size -> Forall2 no_longer xs ys -> no_longer (join_into size [] true xs) (commas true ys).
Proof. intros H F. now apply join_into_exact. Qed.

(** A display never has more characters than the full text. *)
Lemma display_shorter fuel a t n :
  wf a -> t < fuel -> t < node_count a -> 0 < n -> no_longer (display fuel a t n) (render (denote a t)).
Proof.
  intros W. revert t n. induction fuel as [|f IH]; intros t n Hf Ht Hn; [lia|]. cbn [display].
  destruct (Nat.eq_dec t 0) as [->|Z].
  { rewrite denote_zero by assumption. apply snprintf_no_longer. }
  destruct (node_of a t W) as (m & Hm & Ok & S); [lia|]. rewrite Hm, S. pose proof (children_below a _ t m f Ok Hf Ht) as I. clear S Hm Ok.
  assert (Sh : forall ts, Forall (fun t => t < f /\ t < node_count a) ts ->
    Forall2 no_longer (map (fun x => display f a x 128) ts) (map render (map (denote a) ts))) by (intros; now apply inner_shorter).
  assert (R : forall x : cstr, no_longer x x) by (intros; apply le_n).
  destruct m; cbn [shape render children] in *; try (apply snprintf_no_longer).
  - inversion_clear I as [|? ? [] _]. apply snprintf_le, app_mono; auto. apply IH; auto; lia.
  - inversion_clear I as [|? ? [] _]. apply snprintf_le, app_mono; auto. apply app_mono; auto. apply app_mono; auto. apply IH; auto; lia.
  - rewrite app_assoc. pose proof (tuple_into_no_longer n (map (fun x => display f a x 128) types) (snprintf n (lit "(")) 1 true) as T.
    pose proof (commas_no_longer _ _ true (Sh types I)) as C. pose proof (snprintf_no_longer n (lit "(")) as P.
    destruct (tuple_into _ _ _ _ _) as [buf off]. cbn [fst] in T. pose proof (snprintf_no_longer (n - off) (lit ")")) as Q.
    unfold no_longer in *. case_if; rewrite ?length_app in *; lia.
  - apply snprintf_le, app_mono; auto. apply app_mono; auto. apply joined_shorter; auto. lia.
  - apply Forall_app in I as [Ip Ir]. pose proof (joined_shorter 400 _ _ ltac:(lia) (Sh params Ip)) as P.
    destruct kind; apply snprintf_le; repeat (apply app_mono; auto).
    + destruct returns as [|r rs]; [auto|]. inversion_clear Ir as [|? ? [] _]. apply IH; auto; lia.
    + apply joined_shorter; [lia|auto].
Qed.

Lemma head_iff (p x y : cstr) : p ++ x = p ++ y <-> x = y.
Proof. split; [apply app_inv_head|now intros ->]. Qed.

Lemma tail_iff (p x y : cstr) : x ++ p = y ++ p <-> x = y.
Proof. split; [apply app_inv_tail|now intros ->]. Qed.

(** A display is the full text exactly when no buffer inside it is too small. *)
Lemma display_exact_fuel fuel a t n :
  wf a -> t < fuel -> t < node_count a -> List.length (render (denote a t)) < n ->
  display fuel a t n = render (denote a t) <-> uncut (denote a t) = true.
Proof.
  intros W. revert t n. induction fuel as [|f IH]; intros t n Hf Ht Hn; [lia|].
  cbn [display].
  destruct (Nat.eq_dec t 0) as [->|Z].
  { rewrite denote_zero in * by assumption. now rewrite snprintf_all. }
  destruct (node_of a t W) as (m & Hm & Ok & S); [lia|]. rewrite Hm, S in *. pose proof (children_below a _ t m f Ok Hf Ht) as I.
  clear S Hm Ok Z Hf Ht.
  assert (Sh : forall t n, t < f -> t < node_count a -> 0 < n -> no_longer (display f a t n) (render (denote a t)))
    by (intros; now apply display_shorter).
  assert (Ex : forall t n, t < f -> t < node_count a -> List.length (render (denote a t)) < n ->
    display f a t n = render (denote a t) <-> uncut (denote a t) = true) by (intros; now apply IH).
  clear IH. pose proof (inner_exact a f Ex) as In. pose proof (inners_exact a f Ex) as Ins.
  pose proof (fun size ts H V => joined_exact a f Sh Ex size ts H V) as J.
  destruct m; cbn [shape render children] in *; try (now rewrite snprintf_all by assumption; split).
  - inversion_clear I as [|? ? [I1 I2] _]. pose proof (Sh elem 128 I1 I2 ltac:(lia)) as L. unfold no_longer in L.
    rewrite snprintf_all by measure. rewrite head_iff. now apply In.
  - inversion_clear I as [|? ? [I1 I2] _]. pose proof (Sh elem 128 I1 I2 ltac:(lia)) as L. unfold no_longer in L.
    rewrite snprintf_all by measure. rewrite !head_iff. now apply In.
  - pose proof (commas_no_longer _ _ true (inner_shorter a f Sh types I)) as L. unfold no_longer in L.
    rewrite snprintf_all by measure. change 1 with (List.length (lit "(")). rewrite tuple_into_ok by measure.
    match goal with |- context [?x <? n] => destruct (Nat.ltb_spec x n) end; [|measure].
    rewrite snprintf_all by measure. rewrite <- app_assoc, head_iff, tail_iff.
    rewrite commas_equal by now apply inner_shorter. now apply Ins.
  - destruct (J 300 out_slots ltac:(lia) I) as [L E]. unfold no_longer in L.
    rewrite snprintf_all by measure. rewrite head_iff, tail_iff. exact E.
  - apply Forall_app in I as [Ip Ir]. destruct (J 400 params ltac:(lia) Ip) as [Lp Ep].
    change (uncut (T_callable kind (map (denote a) params) (map (denote a) returns))) with
      (forallb short (map (denote a) params) && (List.length (commas true (map render (map (denote a) params))) <? 400) &&
       match kind with
       | TYK_PROC => forallb short (map (denote a) returns) && (List.length (commas true (map render (map (denote a) returns))) <? 400)
       | TYK_FUNC => match map (denote a) returns with r :: _ => short r | [] => true end
       | _ => true
       end).
    rewrite andb_true_iff, <- Ep. clear Ep.
    destruct kind; try (unfold no_longer in Lp; rewrite snprintf_all by measure; rewrite head_iff, tail_iff; tauto).
    + destruct returns as [|r rs]; cbn [map] in *.
      * unfold no_longer in Lp. rewrite snprintf_all by measure. rewrite head_iff, tail_iff. tauto.
      * inversion_clear Ir as [|? ? [I1 I2] _]. pose proof (Sh r 128 I1 I2 ltac:(lia)) as L. rewrite <- (In r I1 I2).
        unfold no_longer in Lp, L. rewrite snprintf_all by measure. rewrite head_iff, app_no_longer.
        -- rewrite head_iff. reflexivity.
        -- exact Lp.
        -- unfold no_longer. measure.
    + destruct (J 400 returns ltac:(lia) Ir) as [L E]. rewrite <- E. unfold no_longer in Lp, L.
      rewrite snprintf_all by measure. rewrite head_iff, app_no_longer.
      -- rewrite head_iff, tail_iff. reflexivity.
      -- exact Lp.
      -- unfold no_longer. measure.
Qed.

(** A short text is displayed in full: nothing inside it fills a buffer. *)
Lemma short_elements ts first :
  Forall (fun T => List.length (render T) <= 128 -> uncut T = true) ts -> List.length (commas first (map render ts)) < 128 ->
  forallb short ts = true.
Proof.
  intros F L. apply forallb_forall. intros T Hin. rewrite Forall_forall in F.
  assert (K : List.length (render T) < 128) by (pose proof (commas_member first (render T) (map render ts) (in_map render ts T Hin)); lia).
  unfold short. apply Nat.ltb_lt in K as K'. rewrite K'. apply (F T Hin). lia.
Qed.

(** The types a type is made of, and induction on them. *)
Definition parts (T : ty) : list ty :=
  match T with
  | T_nominal _ b => [b]
  | T_slice e | T_array e _ => [e]
  | T_tuple _ ts => ts
  | T_eff _ s _ => s
  | T_callable _ ps rs => ps ++ rs
  | _ => []
  end.

Lemma ty_parts_ind (P : ty -> Prop) : (forall T, Forall P (parts T) -> P T) -> forall T, P T.
Proof.
  intros H. fix IH 1. intros T. apply H. assert (All : forall ts, (forall T, In T ts -> P T) -> Forall P ts) by (intros ts X; now apply Forall_forall).
  destruct T; cbn [parts]; try (repeat constructor; apply IH).
  - induction types as [|T ts I]; constructor; [apply IH|exact I].
  - induction slots as [|T ts I]; constructor; [apply IH|exact I].
  - apply Forall_app. split; [induction params as [|T ts I]|induction returns as [|T ts I]]; constructor; try apply IH; exact I.
Qed.

Lemma one_short T :
  Forall (fun T => List.length (render T) <= 128 -> uncut T = true) [T] -> List.length (render T) < 128 -> short T = true.
Proof. intros F L. pose proof (short_elements [T] true F) as E. cbn in E. rewrite app_nil_r, andb_true_r in E. now apply E. Qed.

Lemma short_text_uncut T : List.length (render T) <= 128 -> uncut T = true.
Proof.
  induction T as [T IH] using ty_parts_ind. destruct T; cbn [render parts] in *; intros L; try reflexivity.
  - rewrite <- (one_short T IH); [reflexivity|measure].
  - rewrite <- (one_short T IH); [reflexivity|measure].
  - apply (short_elements types true IH). measure.
  - apply andb_true_iff. split; [apply (short_elements slots true IH); measure|apply Nat.ltb_lt; measure].
  - apply Forall_app in IH as [Ip Ir].
    assert (P : forallb short params && (List.length (commas true (map render params)) <? 400) = true).
    { apply andb_true_iff. split; [apply (short_elements params true Ip)|apply Nat.ltb_lt]; destruct kind; measure. }
    cbn [uncut]. apply andb_true_iff. split; [exact P|]. destruct kind; try reflexivity.
    + destruct returns as [|r rs]; [reflexivity|]. inversion_clear Ir as [|? ? I _].
      apply (one_short r); [now constructor|measure].
    + apply andb_true_iff. split; [apply (short_elements returns true Ir); measure|apply Nat.ltb_lt; measure].
Qed.

(** ** The order *)

Lemma usable_refl a t : wf a -> t < node_count a -> usable (denote a t) (denote a t) <-> t <> TYID_UNKNOWN.
Proof.
  intros W Ht. split.
  - intros H ->. rewrite denote_zero in H by assumption. destruct H as [H|[]].
    inversion H. contradiction.
  - intros N. left. constructor. intros E. apply N. now apply (denote_unknown a).
Qed.

Definition is_eff (T : ty) : Prop := exists e s n, T = T_eff e s n.

Lemma usable_trans T U V : usable T U -> usable U V -> is_eff T \/ ~ is_eff U -> usable T V.
Proof.
  intros H1 H2 K. destruct H1 as [H1|H1].
  - destruct H2 as [H2|H2]; [left; eapply backed_trans; eassumption|].
    destruct K as [(e & s & n & ->)|K]; [inversion H1; subst; now right|].
    exfalso. destruct U; try contradiction. apply K. unfold is_eff. eauto.
  - destruct T; try contradiction. destruct U; try contradiction. destruct H1 as [-> X].
    destruct H2 as [H2|H2]; [inversion H2; subst; right; auto|]. destruct V; try contradiction.
    destruct H2 as [-> Y]. right. split; [reflexivity|]. destruct Y as [->| ->]; auto.
Qed.

Lemma usable_antisym T U : usable T U -> usable U T -> ~ is_eff T -> T = U.
Proof.
  intros [H1|H1] H2 K.
  - destruct H2 as [H2|H2]; [now apply backed_antisym|]. exfalso. destruct U; try contradiction.
    destruct T; try contradiction. apply K. unfold is_eff. eauto.
  - exfalso. destruct T; try contradiction. apply K. unfold is_eff. eauto.
Qed.

(** ** A completed sum *)

(** What completing the forward sum [s] leaves: the node at [s], its names interned, nothing else changed. *)
Lemma complete_nodes a s name old vs :
  wf a -> node_at a s = Some (n_sum name old false) ->
  exists names, let b := tyid_sum_complete a s vs in
    wf b /\ Forall2 (fun n r => points n b r) (map fst vs) names /\
    node_at b s = Some (n_sum name (combine names (map snd vs)) true) /\
    forall i, i <> s -> node_at b i = node_at a i.
Proof.
  intros W N. destruct (complete_ok a s vs W) as [Wb _]. revert Wb. unfold tyid_sum_complete. rewrite N.
  destruct (intern_strs_ok a (map fst vs) W) as (W1 & M & P). destruct (intern_strs a (map fst vs)) as [names a1].
  cbn [fst snd] in *. intros Wb. exists names. cbn zeta. apply node_at_some in N as [Z N].
  split; [exact Wb|]. split; [exact P|]. split.
  - apply node_at_some. split; [assumption|]. cbn. apply set_nth_same. rewrite (ms_nodes _ _ M). apply nth_error_Some. congruence.
  - intros i Hi. unfold node_at, node_count. cbn. rewrite set_nth_length, set_nth_other, (ms_nodes _ _ M) by congruence. reflexivity.
Qed.

Lemma complete_again a s ws name vs' : node_at a s = Some (n_sum name vs' true) -> tyid_sum_complete a s ws = a.
Proof. intros H. unfold tyid_sum_complete. now rewrite H. Qed.

Lemma complete_variant b (vs : list (option cstr * list TypeId)) names v :
  map (deref b) names = map fst vs -> List.length names = List.length vs -> v < List.length vs ->
  deref b (fst (nth v (combine names (map snd vs)) (None, []))) = fst (nth v vs (None, [])) /\
  snd (nth v (combine names (map snd vs)) (None, [])) = snd (nth v vs (None, [])).
Proof.
  intros D L Hv. rewrite combine_nth by (rewrite length_map; lia). cbn [fst snd]. rewrite deref_nth, D.
  split; [exact (map_nth fst vs (None, []) v)|exact (map_nth snd vs (None, []) v)].
Qed.

Lemma names_of_variants b (vs : list (option cstr * list TypeId)) names :
  map (deref b) names = map fst vs -> List.length names = List.length vs ->
  map (fun w => deref b (fst w)) (combine names (map snd vs)) = map fst vs.
Proof.
  intros D L. rewrite <- D, <- (map_map fst (deref b)). f_equal.
  assert (C : forall (x : list (option sref)) (y : list (list TypeId)), List.length x = List.length y -> map fst (combine x y) = x).
  { induction x as [|? x IH]; intros [|? y] E; try discriminate; cbn; [reflexivity|]. f_equal. apply IH. now injection E. }
  apply C. now rewrite length_map.
Qed.

(** The search passes over the variants that have another name, and decides at the next one. *)
Lemma variant_index_skip b ws nm v i :
  Forall (fun o => exists x, o = Some x /\ x <> nm) (firstn v (map (fun w => deref b (fst w)) ws)) -> v <= List.length ws ->
  variant_index_from b ws nm i = variant_index_from b (skipn v ws) nm (i + Z.of_nat v).
Proof.
  revert ws i; induction v as [|v IH]; intros ws i F L; [now rewrite Z.add_0_r|].
  destruct ws as [|w ws]; [cbn in L; lia|]. cbn [map firstn] in F. inversion_clear F as [|? ? (x & E & N) F'].
  cbn [variant_index_from skipn]. rewrite E. destruct (cstr_eqb x nm) eqn:X; [now apply cstr_eqb_eq in X|].
  rewrite (IH ws (i + 1)%Z F') by (cbn in L; lia). f_equal. lia.
Qed.

(** What the search does when all variants before the [v]-th have another name. *)
Lemma variant_index_at b ws names nm v :
  map (fun w => deref b (fst w)) ws = names -> Forall (fun o => exists x, o = Some x /\ x <> nm) (firstn v names) ->
  match nth_error names v with
  | Some (Some x) => x = nm -> variant_index_from b ws nm 0 = Some (Z.of_nat v)
  | Some None => variant_index_from b ws nm 0 = None
  | None => variant_index_from b ws nm 0 = Some (-1)%Z
  end.
Proof.
  intros <- F. rewrite nth_error_map. destruct (nth_error ws v) as [w|] eqn:W; cbn [option_map].
  - assert (L : v < List.length ws) by (apply nth_error_Some; congruence).
    rewrite (variant_index_skip b ws nm v 0 F) by lia. destruct (nth_error_split _ _ W) as (p & q & E & Hp).
    assert (K : skipn v ws = w :: q) by (rewrite E, <- Hp; apply skipn_app_exact). rewrite K. cbn [variant_index_from].
    destruct (deref b (fst w)); [intros <-; now rewrite cstr_eqb_refl|reflexivity].
  - apply nth_error_None in W. rewrite firstn_all2 in F by (rewrite length_map; lia).
    rewrite (variant_index_skip b ws nm (List.length ws) 0); [now rewrite skipn_all|now rewrite firstn_all2 by (rewrite length_map; lia)|lia].
Qed.
