(* ===== verification/SemTypesProps.v ===== *)
(** * Correctness of the type arena

    Every constructor returns the id of the type it describes, ids never change their meaning, and
    two ids are equal exactly when the types are. The accessors read back what was built, a sum is
    completed once, the subtype relation terminates and decides its specification, and the display
    of a type is exact precisely when no nested buffer is too small. *)

From S2P Require Import Prelude SemTypes SemTypesFacts.

(** A small arena: a prim, two distinct subtypes, two effects with the same out-slots. *)
Definition demo_ops : list ty_op :=
  [op_prim PRIM_FLOAT; op_nominal_sub (Some (lit "meters")) 1; op_nominal_sub (Some (lit "altitude")) 2;
   op_eff (Some (lit "fread")) [1; 1] (Some [Some (lit "buf"); None]); op_eff None [1; 1] None].

Definition demo_arena : TypeArena := fold_left (fun a o => snd (run_op a o)) demo_ops ty_arena_new.

Lemma demo_reach : reach demo_arena.
Proof.
  unfold demo_arena, demo_ops. cbn [fold_left].
  do 5 (apply re_op; [|vm_compute; repeat constructor]). exact re_new.
Qed.

(** C24: The arena implements structural types: in every arena a compilation reaches, each constructor
    call on ids of the arena returns a valid id of exactly the type the call describes, and no id that
    existed before changes its type (effects with at most 64 out-slots; see below for more). *)
Theorem constructors_implement_types a o :
  reach a -> op_ok a o ->
  let (t, a') := run_op a o in
  denote a' t = described (denote a) o /\ 0 < t < node_count a' /\
  forall i, i < node_count a -> denote a' i = denote a i.
Proof.
  intros R Ho. destruct (run_op_refines a o (reach_wf a R) Ho) as [_ T V _ O].
  destruct (run_op a o) as [t a']. cbn [fst snd] in *. auto.
Qed.

Lemma constructors_implement_types_witness :
  let (t, a') := run_op demo_arena (op_tuple (Some [Some (lit "x"); Some (lit "meters")]) [1; 2]) in
  denote a' t = T_tuple [Some (lit "x"); Some (lit "meters")] [denote demo_arena 1; denote demo_arena 2] /\
  0 < t < node_count a' /\ forall i, i < node_count demo_arena -> denote a' i = denote demo_arena i.
Proof.
  apply (constructors_implement_types demo_arena (op_tuple (Some [Some (lit "x"); Some (lit "meters")]) [1; 2]) demo_reach).
  vm_compute. repeat constructor.
Defined.

(** C25: Equality of types is equality of ids: two valid ids of a reachable arena are equal exactly when
    the types they stand for are structurally equal - the same kind, the same names (by their
    characters), the same component types - so [a == b] on a [TypeId] decides type equality. *)
Theorem type_ids_canonical a t u :
  reach a -> t < node_count a -> u < node_count a -> tyid_equal t u = true <-> denote a t = denote a u.
Proof.
  intros R Ht Hu. unfold tyid_equal. rewrite Nat.eqb_eq. split; [now intros ->|]. apply denote_inj; auto. now apply reach_wf.
Qed.

Lemma type_ids_canonical_witness :
  node_count demo_arena = 6 /\ (tyid_equal 4 5 = true <-> denote demo_arena 4 = denote demo_arena 5).
Proof.
  split; [vm_compute; reflexivity|]. apply (type_ids_canonical demo_arena 4 5 demo_reach); apply Nat.ltb_lt; vm_compute; reflexivity.
Defined.

(** C26: Hash-consing is stable over a compilation: a constructor call repeated with the same arguments
    after any number of other calls and sum completions returns the same id. *)
Theorem same_call_same_id a b o :
  reach a -> op_ok a o -> later (snd (run_op a o)) b -> fst (run_op b o) = fst (run_op a o).
Proof.
  intros R Ho L. pose proof (re_op a o R Ho) as R1. pose proof (later_reach _ _ R1 L) as Rb.
  destruct (run_op_refines a o (reach_wf a R) Ho) as [W1 T1 V1 C1 O1]. destruct (later_old _ _ R1 L) as [C2 O2].
  assert (Hb : op_ok b o) by (apply (op_ok_le a); [lia|assumption]).
  destruct (run_op_refines b o (reach_wf b Rb) Hb) as [Wb Tb Vb Cb Ob].
  apply (denote_inj (snd (run_op b o))); [assumption|lia|lia|].
  rewrite Tb, Ob, O2, T1 by lia. apply (op_ok_described a o); [|assumption].
  intros i Hi. rewrite O2 by lia. now apply O1.
Qed.

Lemma same_call_same_id_witness :
  let o := op_nominal_sub (Some (lit "meters")) 1 in
  let a := snd (tyid_of_prim ty_arena_new PRIM_FLOAT) in
  fst (run_op (snd (run_op (snd (run_op a o)) (op_slice 2))) o) = 2.
Proof.
  cbn zeta. set (a := snd (tyid_of_prim ty_arena_new PRIM_FLOAT)). set (o := op_nominal_sub (Some (lit "meters")) 1).
  assert (R : reach a) by (apply (re_op _ (op_prim PRIM_FLOAT) re_new); exact I).
  assert (Ho : op_ok a o) by (apply Nat.ltb_lt; vm_compute; reflexivity).
  apply (same_call_same_id a _ o R Ho). apply la_op; [apply la_now|]. apply Nat.ltb_lt. vm_compute. reflexivity.
Defined.

(** C27: The accessors read back what was built: after a constructor call the returned id has the call's
    kind, and every accessor gives the call's names (by their characters), ids, counts and lengths. *)
Theorem accessors_read_back a o :
  reach a -> op_ok a o -> reads_back (snd (run_op a o)) (fst (run_op a o)) o.
Proof. intros R. apply refines_reads_back. now apply reach_wf. Qed.

Lemma accessors_read_back_witness :
  let o := op_eff (Some (lit "fwrite")) [2; 1] (Some [None; Some (lit "n")]) in
  reads_back (snd (run_op demo_arena o)) (fst (run_op demo_arena o)) o.
Proof. apply (accessors_read_back demo_arena _ demo_reach). vm_compute. repeat constructor. Defined.

(** C28: [tyid_usable_as] terminates and decides the subtype relation: the backing chain is finite in
    every reachable arena, and the answer is 1 exactly when the chain of backings reaches the target's
    type, or both are effects with the same out-slots and the target names no extern or the same one. *)
Theorem usable_as_decides a t u :
  reach a -> t < node_count a -> u < node_count a ->
  exists b, tyid_usable_as a t u = Some b /\ (b = true <-> usable (denote a t) (denote a u)).
Proof. intros R. apply usable_spec. now apply reach_wf. Qed.

Lemma usable_as_decides_witness :
  tyid_usable_as demo_arena 3 1 = Some true /\
  exists b, tyid_usable_as demo_arena 3 1 = Some b /\ (b = true <-> usable (denote demo_arena 3) (denote demo_arena 1)).
Proof.
  split; [vm_compute; reflexivity|]. apply (usable_as_decides demo_arena 3 1 demo_reach); apply Nat.ltb_lt; vm_compute; reflexivity.
Defined.

(** C29: The subtype relation is one-way: it is reflexive on every type but the unknown one (whose own
    answer is 0), transitive unless a distinct subtype of an effect meets the effect rule, and two
    types that are not effects and usable as each other are the same id. *)
Theorem usable_as_order a t u v :
  reach a -> t < node_count a -> u < node_count a -> v < node_count a ->
  (tyid_usable_as a t t = Some true <-> t <> TYID_UNKNOWN) /\
  (tyid_usable_as a t u = Some true -> tyid_usable_as a u v = Some true ->
   tyid_kind a t = TYK_EFF \/ tyid_kind a u <> TYK_EFF -> tyid_usable_as a t v = Some true) /\
  (tyid_usable_as a t u = Some true -> tyid_usable_as a u t = Some true -> tyid_kind a t <> TYK_EFF -> t = u).
Proof.
  intros R Ht Hu Hv. pose proof (reach_wf a R) as W.
  assert (D : forall x y, x < node_count a -> y < node_count a ->
    tyid_usable_as a x y = Some true <-> usable (denote a x) (denote a y)).
  { intros x y Hx Hy. destruct (usable_spec a x y W Hx Hy) as (b & -> & <-). split; congruence. }
  rewrite !D by assumption. refine (conj _ (conj _ _)).
  - apply usable_refl; assumption.
  - intros H1 H2 K. apply (usable_trans _ (denote a u)); [assumption|assumption|].
    destruct K as [K|K]; [left; now apply kind_eff|right]. intros (e & s & n & E). apply K. now apply (eff_kind a u e s n).
  - intros H1 H2 K. apply (denote_inj a); auto. apply usable_antisym; auto.
    intros (e & s & n & E). apply K. now apply (eff_kind a t e s n).
Qed.

Lemma usable_as_order_witness : tyid_usable_as demo_arena 3 1 = Some true /\ tyid_usable_as demo_arena 1 3 = Some false.
Proof.
  split; [|vm_compute; reflexivity].
  apply (proj1 (proj2 (usable_as_order demo_arena 3 2 1 demo_reach ltac:(apply Nat.ltb_lt; vm_compute; reflexivity)
    ltac:(apply Nat.ltb_lt; vm_compute; reflexivity) ltac:(apply Nat.ltb_lt; vm_compute; reflexivity))));
    [vm_compute; reflexivity|vm_compute; reflexivity|right; vm_compute; discriminate].
Defined.

(** C30: A sum is completed once: completing a forward-declared sum makes its variants readable - their
    number, each name and payload at its position - changes no other node and no id's type, and a
    second completion changes nothing. Searching a variant by its name, past the [v] first variants
    that all have another name: the answer is [v] when the next one has the name, -1 when there is no
    further one, and a null pointer is read ([None]) when the next one has no name. *)
Theorem sum_completed_once a s name old vs ws :
  reach a -> node_at a s = Some (n_sum name old false) ->
  let b := tyid_sum_complete a s vs in
  tyid_sum_variant_count b s = Z.of_nat (List.length vs) /\
  (forall v, v < List.length vs ->
     deref b (tyid_sum_variant_name b s (Z.of_nat v)) = fst (nth v vs (None, [])) /\
     tyid_sum_variant_payload_count b s (Z.of_nat v) = Z.of_nat (List.length (snd (nth v vs (None, [])))) /\
     forall i, i < List.length (snd (nth v vs (None, []))) ->
       tyid_sum_variant_payload_at b s (Z.of_nat v) (Z.of_nat i) = nth i (snd (nth v vs (None, []))) TYID_UNKNOWN) /\
  (forall nm v, Forall (fun o => exists x, o = Some x /\ x <> nm) (firstn v (map fst vs)) ->
     match nth_error (map fst vs) v with
     | Some (Some x) => x = nm -> tyid_sum_variant_index b s (Some nm) = Some (Z.of_nat v)
     | Some None => tyid_sum_variant_index b s (Some nm) = None
     | None => tyid_sum_variant_index b s (Some nm) = Some (-1)%Z
     end) /\
  (forall i, i <> s -> node_at b i = node_at a i) /\ (forall i, denote b i = denote a i) /\
  tyid_sum_complete b s ws = b.
Proof.
  intros R N. pose proof (reach_wf a R) as W. destruct (complete_nodes a s name old vs W N) as (names & Wb & P & Nb & O).
  cbn zeta in *. set (b := tyid_sum_complete a s vs) in *. destruct (points_refs _ _ _ P) as (_ & D & L).
  rewrite length_map in L. assert (Lc : List.length (combine names (map snd vs)) = List.length vs).
  { rewrite length_combine, length_map. lia. }
  unfold tyid_sum_variant_count, tyid_sum_variant_name, tyid_sum_variant_payload_count, tyid_sum_variant_payload_at,
    tyid_sum_variant_index. rewrite Nb, Lc.
  refine (conj eq_refl (conj _ (conj _ (conj O (conj _ (complete_again b s ws _ _ Nb)))))).
  - intros v Hv. rewrite at_index_nth by lia. destruct (complete_variant b vs names v D L Hv) as [E1 E2]. rewrite E1.
    destruct (Z.ltb_spec (Z.of_nat v) 0), (Z.leb_spec (Z.of_nat (List.length vs)) (Z.of_nat v)); try lia. cbn [orb].
    rewrite Nat2Z.id, E2. refine (conj eq_refl (conj eq_refl _)). intros i Hi. now rewrite at_index_nth.
  - intros nm v. apply variant_index_at. now apply names_of_variants.
  - intros i. now apply complete_denote.
Qed.

Lemma sum_completed_once_witness :
  let a := snd (tyid_sum_forward demo_arena (Some (lit "Maybe"))) in
  let b := tyid_sum_complete a 6 [(Some (lit "none"), []); (None, []); (Some (lit "some"), [1; 6])] in
  tyid_sum_variant_count b 6 = 3%Z /\ tyid_sum_variant_index b 6 (Some (lit "none")) = Some 0%Z /\
  tyid_sum_variant_index b 6 (Some (lit "some")) = None /\ tyid_sum_complete b 6 [] = b.
Proof.
  cbn zeta. assert (R : reach (snd (tyid_sum_forward demo_arena (Some (lit "Maybe"))))) by (apply (re_op _ (op_sum (Some (lit "Maybe"))) demo_reach); exact I).
  destruct (sum_completed_once _ 6 (Some 4) [] [(Some (lit "none"), []); (None, []); (Some (lit "some"), [1; 6])] [] R) as (H1 & _ & H3 & _ & _ & H2);
    [vm_compute; reflexivity|].
  assert (F : Forall (fun o => exists x, o = Some x /\ x <> lit "some") [Some (lit "none")]) by (constructor; [eexists; split; [reflexivity|discriminate]|constructor]).
  split; [exact H1|]. split; [exact (H3 (lit "none") 0 (Forall_nil _) eq_refl)|]. split; [exact (H3 (lit "some") 1 F)|exact H2].
Defined.

(** C31: The display of a type is its full text exactly when nothing is cut: for every valid id of a
    reachable arena and a buffer larger than the text, [tyid_display] leaves the full text if and only
    if every nested text fits the fixed-size buffer it is assembled in ([uncut]: 128 bytes for each
    component, 300 for the slots of an effect, 400 for the parameters and for the results); a text of
    at most 128 characters always does, a longer one may be truncated. *)
Theorem display_exact a t buflen :
  reach a -> t < node_count a -> List.length (render (denote a t)) < buflen ->
  (tyid_display a t buflen = render (denote a t) <-> uncut (denote a t) = true) /\
  (List.length (render (denote a t)) <= 128 -> uncut (denote a t) = true).
Proof. intros R Ht L. split; [|apply short_text_uncut]. apply display_exact_fuel; [now apply reach_wf|lia|assumption|exact L]. Qed.

(** A subtype with a name of 130 characters, and a slice of it. *)
Definition long_name : cstr := repeat "x"%char 130.
Definition long_arena : TypeArena := snd (run_op (snd (run_op demo_arena (op_nominal_sub (Some long_name) 1))) (op_slice 6)).

Lemma display_exact_witness :
  let a := snd (tyid_of_proc demo_arena [2; 4] [1]) in
  tyid_display a 6 64 = lit "proc(meters, Eff(float, float))(float)" /\
  tyid_display long_arena 7 256 <> render (denote long_arena 7).
Proof.
  cbn zeta. set (a := snd (tyid_of_proc demo_arena [2; 4] [1])). split.
  - assert (R : reach a) by (apply (re_op _ (op_proc [2; 4] [1]) demo_reach); vm_compute; repeat constructor).
    assert (V : 6 < node_count a) by (apply Nat.ltb_lt; vm_compute; reflexivity).
    assert (L : List.length (render (denote a 6)) < 64) by (apply Nat.ltb_lt; vm_compute; reflexivity).
    rewrite (proj2 (proj1 (display_exact a 6 64 R V L))); vm_compute; reflexivity.
  - assert (R : reach long_arena).
    { unfold long_arena. do 2 (apply re_op; [|vm_compute; repeat constructor]). exact demo_reach. }
    assert (V : 7 < node_count long_arena) by (apply Nat.ltb_lt; vm_compute; reflexivity).
    assert (L : List.length (render (denote long_arena 7)) < 256) by (apply Nat.ltb_lt; vm_compute; reflexivity).
    intros E. apply (proj1 (display_exact long_arena 7 256 R V L)) in E.
    assert (U : uncut (denote long_arena 7) = false) by (vm_compute; reflexivity). congruence.
Defined.

(** The names of 66 out-slots, the last two swapped or not. *)
Definition many_names (x y : string) : list (option cstr) :=
  repeat (Some (lit "s")) 64 ++ [Some (lit x); Some (lit y)].

(** From the 65th out-slot on, an effect's slot names are wrong: slot 63 is given the last slot's
    name and later slots none, and two effects whose names differ only there are the same id, although
    names are part of the identity. *)
Theorem eff_names_lost_after_64 :
  let (t, a) := tyid_of_eff_named ty_arena_new None (repeat 0 66) (Some (many_names "a" "b")) in
  deref a (tyid_eff_out_name_at a t 63) = Some (lit "b") /\
  deref a (tyid_eff_out_name_at a t 64) = None /\
  fst (tyid_of_eff_named a None (repeat 0 66) (Some (many_names "c" "b"))) = t.
Proof. vm_compute. auto. Qed.
