(* ===== verification/Hir.v ===== *)
(** * The high-level intermediate representation ([src/hir/hir.h], [src/hir/hir.c], [src/syntax/type_ref.h])

    The data the lowering pass produces and the code generators read. A union with its kind tag is an
    inductive type with one constructor per kind; a pointer the code tests for null is an option; an
    array with its count is a list. [hir_parse_int_width] is defined in [src/lower/lower.c]. *)

From S2P Require Import Prelude.

Record SourceLoc : Type := mkLoc { sl_line : Z; sl_column : Z }.

Inductive DeclKind : Type :=
  | DECL_WORLD | DECL_ARCHETYPE | DECL_PROC | DECL_MAP | DECL_SYSTEM | DECL_EACH | DECL_FUNC | DECL_FUNC_GROUP
  | DECL_STATIC | DECL_CONST | DECL_USE | DECL_ENUM | DECL_SUM | DECL_QUERY.

Inductive StaticKind : Type := STATIC_KIND_ARCHETYPE | STATIC_KIND_ARRAY | STATIC_KIND_SCALAR.

Inductive FieldKind : Type := FIELD_META | FIELD_COLUMN.

Inductive Operator : Type :=
  | OP_NONE | OP_ADD | OP_SUB | OP_MUL | OP_DIV | OP_MOD | OP_EQ | OP_NEQ | OP_LT | OP_GT | OP_LTE | OP_GTE
  | OP_AND | OP_OR | OP_FMAP.

Inductive UnaryOperator : Type := UNARY_NEG | UNARY_NOT | UNARY_MOVE | UNARY_COPY.

Scheme Equality for Operator.

(** ** Types *)

Inductive HirTypeTag : Type :=
  | HIR_TYPE_UNKNOWN | HIR_TYPE_INT | HIR_TYPE_FLOAT | HIR_TYPE_CHAR | HIR_TYPE_VOID | HIR_TYPE_CHAR_ARRAY
  | HIR_TYPE_HANDLE | HIR_TYPE_NAMED | HIR_TYPE_ARRAY | HIR_TYPE_SHAPED_ARRAY | HIR_TYPE_TUPLE
  | HIR_TYPE_ARCHETYPE | HIR_TYPE_OPAQUE | HIR_TYPE_FUNC | HIR_TYPE_EFF.

Scheme Equality for HirTypeTag.

Inductive HirType : Type := mkHirType {
  ht_tag : HirTypeTag;
  ht_name : option cstr;
  ht_elem : option HirType;
  ht_rank : Z;
  ht_fields : list (cstr * HirType);
  ht_int_width : Z;
  ht_int_signed : bool;
  ht_params : list HirType;
  ht_results : list HirType;
  ht_is_proc : bool
}.

(** [calloc] zeroes the other fields. *)
Definition hir_type_create (tag : HirTypeTag) : HirType :=
  if HirTypeTag_beq tag HIR_TYPE_INT then mkHirType tag None None 0 [] 32 true [] [] false
  else mkHirType tag None None 0 [] 0 false [] [] false.

(** The width and the signedness of a fixed-width integer type's name. *)
Definition hir_parse_int_width (s : cstr) : option (Z * bool) :=
  if cstr_eqb s (lit "byte") then Some (8%Z, false)
  else
    match s with
    | c :: num =>
        if negb (Ascii.eqb c "i") && negb (Ascii.eqb c "u") then None
        else
          let sign := Ascii.eqb c "i" in
          if cstr_eqb num (lit "8") then Some (8%Z, sign)
          else if cstr_eqb num (lit "16") then Some (16%Z, sign)
          else if cstr_eqb num (lit "32") then Some (32%Z, sign)
          else if cstr_eqb num (lit "64") then Some (64%Z, sign)
          else if cstr_eqb num (lit "128") then Some (128%Z, sign)
          else None
    | [] => None
    end.

(** [syntax_decode_string]: the text of a string token without its quotes, the escapes replaced. [i] is
    what is left of the token; its last character is the closing quote. *)
Fixpoint decode_string_from (i : cstr) : cstr :=
  match i with
  | c :: r =>
      match r with
      | [] => []
      | e :: r' =>
          match r' with
          | _ :: _ =>
              if Ascii.eqb c "\" then
                (if Ascii.eqb e "n" then ascii_of_nat 10
                 else if Ascii.eqb e "t" then ascii_of_nat 9
                 else if Ascii.eqb e "r" then ascii_of_nat 13
                 else e) :: decode_string_from r'
              else c :: decode_string_from r
          | [] => c :: decode_string_from r
          end
      end
  | [] => []
  end.

Definition syntax_decode_string (raw : cstr) : cstr := decode_string_from (tl raw).

(** ** Expressions *)

(** The union of an expression; [E] is the type of expressions. *)
Inductive ExprData (E : Type) : Type :=
  | HE_LITERAL (lexeme : cstr)
  | HE_NAME (name : cstr)
  | HE_FIELD (base : E) (field_name : option cstr)
  | HE_INDEX (base : E) (indices : list E) (policy : option cstr) (policy_elided : bool)
  | HE_SLICE (base : E) (lo hi : option E) (policy : option cstr) (policy_elided : bool)
  | HE_BINARY (op : Operator) (left right : E) (policy : option cstr)
  | HE_UNARY (op : UnaryOperator) (operand : E)
  | HE_CALL (callee : option E) (args : list E) (policy : option cstr) (policy_is_handler : bool)
  | HE_ALLOC (archetype_name : cstr) (fields : list (cstr * E)) (init_length : option E)
  | HE_ENTITY_LIT (type_name : cstr) (fields : list (cstr * E))
  | HE_ARRAY_LITERAL (elements : list E)
  | HE_STRING (value : cstr).

Arguments HE_LITERAL {E}. Arguments HE_NAME {E}. Arguments HE_FIELD {E}. Arguments HE_INDEX {E}.
Arguments HE_SLICE {E}. Arguments HE_BINARY {E}. Arguments HE_UNARY {E}. Arguments HE_CALL {E}.
Arguments HE_ALLOC {E}. Arguments HE_ENTITY_LIT {E}. Arguments HE_ARRAY_LITERAL {E}. Arguments HE_STRING {E}.

Inductive HirExpr : Type := mkHirExpr {
  he_loc : SourceLoc;
  he_resolved : HirType;
  he_data : ExprData HirExpr
}.

(** ** Statements and kernels *)

Inductive HirKernelKind : Type := HIR_KERNEL_MAP | HIR_KERNEL_SYSTEM.

Record HirParam : Type := mkHirParam {
  hp_name : cstr;
  hp_type : HirType;
  hp_is_own : bool;
  hp_loc : SourceLoc
}.

(** [S] is the type of statements. *)
Record HirKernelDecl (S : Type) : Type := mkKernel {
  hk_name : option cstr;
  hk_kind : HirKernelKind;
  hk_params : list HirParam;
  hk_stmts : list S;
  hk_eff : bool;
  hk_is_gpu : bool;
  hk_writes : list cstr;
  hk_row_var : option cstr;
  hk_query_binder : option cstr;
  hk_has_self_binder : bool;
  hk_loc : SourceLoc
}.

Arguments mkKernel {S}. Arguments hk_name {S}. Arguments hk_kind {S}. Arguments hk_params {S}. Arguments hk_stmts {S}.
Arguments hk_eff {S}. Arguments hk_is_gpu {S}. Arguments hk_writes {S}. Arguments hk_row_var {S}.
Arguments hk_query_binder {S}. Arguments hk_has_self_binder {S}. Arguments hk_loc {S}.

Record HirBindingTarget : Type := mkTarget {
  bt_name : cstr;
  bt_is_new : bool;
  bt_type : option HirType
}.

(** The union of a statement. *)
Inductive StmtData (S : Type) : Type :=
  | HS_BIND (name : cstr) (more : list cstr) (type : option HirType) (value : option HirExpr)
  | HS_ASSIGN (target value : HirExpr) (op : Operator)
  | HS_FOR (var_name : option cstr) (iterable : option HirExpr) (init : option S) (cond : option HirExpr)
      (incr : option S) (body : list S)
  | HS_IF (cond : HirExpr) (then_body else_body : list S)
  | HS_BREAK
  | HS_CONTINUE
  | HS_RUN (map_name : cstr) (world_name : option cstr) (is_gpu : bool)
  | HS_EXPR (expr : HirExpr)
  | HS_RETURN (values : list HirExpr)
  | HS_MULTI_BIND (targets : list HirBindingTarget) (value : HirExpr) (from_shorthand : bool)
  | HS_EACH_FIELD (binding_name : cstr) (filter_type : option HirType) (arch_param_name : cstr) (body : list S)
  | HS_EACH (each_stmt : HirKernelDecl S)
  | HS_BLOCK (stmts : list S).

Arguments HS_BIND {S}. Arguments HS_ASSIGN {S}. Arguments HS_FOR {S}. Arguments HS_IF {S}. Arguments HS_BREAK {S}.
Arguments HS_CONTINUE {S}. Arguments HS_RUN {S}. Arguments HS_EXPR {S}. Arguments HS_RETURN {S}.
Arguments HS_MULTI_BIND {S}. Arguments HS_EACH_FIELD {S}. Arguments HS_EACH {S}. Arguments HS_BLOCK {S}.

Inductive HirStmt : Type := mkHirStmt {
  hs_loc : SourceLoc;
  hs_data : StmtData HirStmt
}.

(** ** Declarations *)

Inductive SchedKind : Type :=
  SCHED_RUN | SCHED_SEQ | SCHED_PAR | SCHED_LOOP | SCHED_WHEN | SCHED_HALT | SCHED_GPU_SYNC | SCHED_GPU_UPLOAD.

Inductive ScheduleTree : Type := mkSched {
  sched_kind : SchedKind;
  sched_sym : option cstr;
  sched_children : list ScheduleTree
}.

Record HirField : Type := mkField {
  hf_kind : FieldKind;
  hf_name : cstr;
  hf_type : HirType;
  hf_decl_type_name : option cstr;
  hf_loc : SourceLoc
}.

Record HirProcDecl : Type := mkProc {
  pd_name : cstr;
  pd_params : list HirParam;
  pd_out_params : list HirParam;
  pd_is_extern : bool;
  pd_is_drop : bool;
  pd_drop_type : option cstr;
  pd_is_intrinsic : bool;
  pd_syscall_num : Z;
  pd_stmts : list HirStmt;
  pd_loc : SourceLoc
}.

Record HirFuncDecl : Type := mkFunc {
  fd_name : cstr;
  fd_params : list HirParam;
  fd_return_types : list HirType;
  fd_is_extern : bool;
  fd_is_intrinsic : bool;
  fd_is_policy : bool;
  fd_policy_category : Z;
  fd_stmts : list HirStmt;
  fd_loc : SourceLoc
}.

Inductive HirStaticData : Type :=
  | HIR_STATIC_ARCHETYPE (archetype_name : cstr) (fields : list (cstr * HirExpr)) (init_length : option HirExpr)
      (overflow_policy : option cstr)
  | HIR_STATIC_ARRAY (name : cstr) (element_type : HirType) (size row_stride : Z) (init : option HirExpr)
  | HIR_STATIC_SCALAR (name : cstr) (type : HirType) (init : option HirExpr).

(** The union of a declaration. *)
Inductive DeclData : Type :=
  | HD_WORLD (name : cstr)
  | HD_ARCHETYPE (name : cstr) (fields : list HirField)
  | HD_PROC (proc : HirProcDecl)
  | HD_KERNEL (kernel : HirKernelDecl HirStmt)
  | HD_FUNC (func : HirFuncDecl)
  | HD_FUNC_GROUP (name : cstr) (member_names : list cstr) (loc : SourceLoc)
  | HD_STATIC (is_requirement is_resident : bool) (data : HirStaticData)
  | HD_CONST (name : cstr) (value : option HirExpr) (type : option HirType)
  | HD_DEFAULT (effect_kind category : Z) (policy : cstr) (loc : SourceLoc)
  | HD_QUERY (name : cstr) (cols : list cstr) (loc : SourceLoc)
  | HD_RUN (tree : option ScheduleTree) (loc : SourceLoc).

Record HirDecl : Type := mkDecl {
  hd_loc : SourceLoc;
  hd_unit : Z;
  hd_data : DeclData
}.

Record HirProgram : Type := mkProgram {
  hir_decls : list HirDecl;
  hir_loc : SourceLoc
}.
