(* ===== verification/WasmGen.v ===== *)
(** * The WebAssembly code generator ([src/codegen/wasmgen.c])

    HIR statements and expressions to the instruction bytes of one [_start] function. The emitter's
    state is a record passed through every function. Recursion has fuel, because the value of a
    constant is emitted at every use of its name; [NoFuel] is a generator that has not returned, and
    [Undef] an access outside an array. The [int]s that hold addresses and counts are unbounded
    here. Reading the program and writing the file are left out. *)

From Stdlib Require Import SpecFloat.
From S2P Require Import Prelude Hir WasmEncode.

(** ** Results *)

Inductive res (A : Type) : Type := Ok (a : A) | Undef | NoFuel.
Arguments Ok {A}. Arguments Undef {A}. Arguments NoFuel {A}.

Definition rbind {A B} (m : res A) (k : A -> res B) : res B :=
  match m with Ok a => k a | Undef => Undef | NoFuel => NoFuel end.

Declare Scope wg_scope.
Delimit Scope wg_scope with wg.
Notation "x <- m ;; k" := (rbind m (fun x => k)) (at level 61, m at next level, right associativity) : wg_scope.
Open Scope wg_scope.

(** ** The C library: [strtol], [strtod], [strstr] *)

Definition isspace (c : ascii) : bool := (code c =? 32)%Z || ((9 <=? code c)%Z && (code c <=? 13)%Z).

Fixpoint skip_space (s : cstr) : cstr :=
  match s with c :: r => if isspace c then skip_space r else s | [] => [] end.

Definition alnum_value (c : ascii) : Z :=
  if isdigit c then code c - 48 else if islower c then code c - 87 else if isupper c then code c - 55 else 99.

Fixpoint digits_value (base : Z) (s : cstr) (acc : Z) : Z * cstr :=
  match s with
  | c :: r => if (alnum_value c <? base)%Z then digits_value base r (acc * base + alnum_value c) else (acc, s)
  | [] => (acc, [])
  end.

Definition is_sign (c : ascii) : bool := Ascii.eqb c "+" || Ascii.eqb c "-".

Definition is_0x (s : cstr) : bool :=
  match s with a :: b :: _ => Ascii.eqb a "0" && (Ascii.eqb b "x" || Ascii.eqb b "X") | _ => false end.

(** The value of the longest prefix that is a number in [base], clamped to a 64-bit [long]. *)
Definition strtol (s : cstr) (base : Z) : Z :=
  let s := skip_space s in
  let neg := match s with c :: _ => Ascii.eqb c "-" | [] => false end in
  let s := match s with c :: r => if is_sign c then r else s | [] => [] end in
  let s := if (base =? 16)%Z && is_0x s && match s with _ :: _ :: d :: _ => (alnum_value d <? 16)%Z | _ => false end then skipn 2 s else s in
  let v := fst (digits_value base s 0) in
  Z.max (- 2 ^ 63) (Z.min (2 ^ 63 - 1) (if neg then - v else v)).

(** The digits of a mantissa around a point: their value and how many stand behind the point. *)
Fixpoint mantissa (base : Z) (s : cstr) (point : bool) (acc scale : Z) : Z * Z * cstr :=
  match s with
  | c :: r =>
      if (alnum_value c <? base)%Z then mantissa base r point (acc * base + alnum_value c) (if point then scale + 1 else scale)
      else if Ascii.eqb c "." && negb point then mantissa base r true acc scale
      else (acc, scale, s)
  | [] => (acc, scale, [])
  end.

Definition exponent (mark : ascii -> bool) (s : cstr) : Z :=
  match s with
  | c :: r =>
      if mark c then
        match r with
        | d :: r' => if is_sign d then (if Ascii.eqb d "-" then - fst (digits_value 10 r' 0) else fst (digits_value 10 r' 0))%Z
                     else fst (digits_value 10 r 0)
        | [] => 0
        end
      else 0
  | [] => 0
  end.

(** The double nearest to [m * base ^ e]. *)
Definition nearest (neg : bool) (m base e : Z) : spec_float :=
  match m with
  | Zpos _ =>
      if (0 <=? e)%Z then binary_normalize 53 1024 (if neg then - (m * base ^ e) else m * base ^ e) 0 neg
      else let '(q, ex, l) := SFdiv_core_binary 53 1024 m 0 (base ^ (- e)) 0 in
           binary_round_aux 53 1024 neg q ex l
  | _ => S754_zero neg
  end.

(** Decimal and hexadecimal numbers; the words for infinities and not-a-number are not read. *)
Definition strtod (s : cstr) : spec_float :=
  let s := skip_space s in
  let neg := match s with c :: _ => Ascii.eqb c "-" | [] => false end in
  let s := match s with c :: r => if is_sign c then r else s | [] => [] end in
  if is_0x s then
    let '(m, scale, r) := mantissa 16 (skipn 2 s) false 0 0 in
    nearest neg m 2 (exponent (fun c => Ascii.eqb c "p" || Ascii.eqb c "P") r - 4 * scale)
  else
    let '(m, scale, r) := mantissa 10 s false 0 0 in
    nearest neg m 10 (exponent (fun c => Ascii.eqb c "e" || Ascii.eqb c "E") r - scale).

(** The 64-bit pattern of a double. *)
Definition double_bits (f : spec_float) : Z :=
  let sign (b : bool) : Z := (if b then 2 ^ 63 else 0)%Z in
  u64 (match f with
       | S754_zero s => sign s
       | S754_infinity s => sign s + 2047 * 2 ^ 52
       | S754_nan => 2047 * 2 ^ 52 + 2 ^ 51
       | S754_finite s m e =>
           if Zpos m <? 2 ^ 52 then sign s + Zpos m else sign s + (e + 1075) * 2 ^ 52 + (Zpos m - 2 ^ 52)
       end%Z).

Fixpoint starts_with (p s : cstr) : bool :=
  match p, s with
  | [], _ => true
  | a :: p', b :: s' => Ascii.eqb a b && starts_with p' s'
  | _ :: _, [] => false
  end.

Fixpoint contains (p s : cstr) : bool :=
  starts_with p s || match s with [] => false | _ :: r => contains p r end.

(** ** State *)

Definition WT_F64 : Z := 124.
Definition WG_MAX_LOCALS : nat := 256.
Definition WG_MAX_ARRAYS : nat := 128.

Record WgLocal : Type := mkLocal { wl_name : cstr; wl_wt : Z }.

Record WgArray : Type := mkArray {
  wa_name : cstr;
  wa_base : Z;
  wa_elem_size : Z;
  wa_elem_wt : Z;
  wa_elem_signed : bool;
  wa_total : Z
}.

(** [wg_locals] is the filled part of the 256 entries; [wg_local_count] can exceed its length. *)
Record Wg : Type := mkWg {
  wg_m : WasmModule;
  wg_body : WasmBuf;
  wg_strings : WasmBuf;
  wg_strings_base : Z;
  wg_args_base : Z;
  wg_arrays_cursor : Z;
  wg_f_print : Z;
  wg_f_printf : Z;
  wg_locals : list WgLocal;
  wg_local_count : nat;
  wg_arrays : list WgArray;
  wg_consts : list (cstr * HirExpr)
}.

Definition set_body (b : WasmBuf) (g : Wg) : Wg :=
  mkWg (wg_m g) b (wg_strings g) (wg_strings_base g) (wg_args_base g) (wg_arrays_cursor g) (wg_f_print g) (wg_f_printf g)
    (wg_locals g) (wg_local_count g) (wg_arrays g) (wg_consts g).
Definition set_strings (b : WasmBuf) (g : Wg) : Wg :=
  mkWg (wg_m g) (wg_body g) b (wg_strings_base g) (wg_args_base g) (wg_arrays_cursor g) (wg_f_print g) (wg_f_printf g)
    (wg_locals g) (wg_local_count g) (wg_arrays g) (wg_consts g).
Definition set_locals (ls : list WgLocal) (n : nat) (g : Wg) : Wg :=
  mkWg (wg_m g) (wg_body g) (wg_strings g) (wg_strings_base g) (wg_args_base g) (wg_arrays_cursor g) (wg_f_print g) (wg_f_printf g)
    ls n (wg_arrays g) (wg_consts g).
Definition set_arrays (a : list WgArray) (cursor : Z) (g : Wg) : Wg :=
  mkWg (wg_m g) (wg_body g) (wg_strings g) (wg_strings_base g) (wg_args_base g) cursor (wg_f_print g) (wg_f_printf g)
    (wg_locals g) (wg_local_count g) a (wg_consts g).
Definition set_consts (cs : list (cstr * HirExpr)) (g : Wg) : Wg :=
  mkWg (wg_m g) (wg_body g) (wg_strings g) (wg_strings_base g) (wg_args_base g) (wg_arrays_cursor g) (wg_f_print g) (wg_f_printf g)
    (wg_locals g) (wg_local_count g) (wg_arrays g) cs.

(** [wb_byte(&g->body, v);] for each of the bytes. *)
Definition put (vs : list Z) (g : Wg) : Wg := set_body (wb_each (wg_body g) vs) g.

(** ** Types *)

Definition is_tag (t : HirType) (tag : HirTypeTag) : bool := HirTypeTag_beq (ht_tag t) tag.

Definition wg_wtype (t : HirType) : Z := if is_tag t HIR_TYPE_FLOAT then WT_F64 else WT_I32.

Definition wg_is_array (t : HirType) : bool :=
  is_tag t HIR_TYPE_SHAPED_ARRAY || is_tag t HIR_TYPE_ARRAY || is_tag t HIR_TYPE_CHAR_ARRAY.

Fixpoint wg_base_elem (t : HirType) : option HirType :=
  match t with
  | mkHirType tag _ elem _ _ _ _ _ _ _ =>
      match tag with
      | HIR_TYPE_SHAPED_ARRAY | HIR_TYPE_ARRAY => match elem with Some t' => wg_base_elem t' | None => None end
      | _ => Some t
      end
  end.

Fixpoint wg_total_elems (t : HirType) : Z :=
  match t with
  | mkHirType tag _ elem rank _ _ _ _ _ _ =>
      let inner := match elem with Some t' => wg_total_elems t' | None => 1%Z end in
      match tag with
      | HIR_TYPE_SHAPED_ARRAY => ((if 0 <? rank then rank else 1) * inner)%Z
      | HIR_TYPE_ARRAY => inner
      | _ => 1%Z
      end
  end.

Definition wg_scalar_size (t : option HirType) : Z :=
  match t with
  | None => 4
  | Some t =>
      if is_tag t HIR_TYPE_FLOAT then 8
      else if is_tag t HIR_TYPE_CHAR || is_tag t HIR_TYPE_CHAR_ARRAY then 1
      else if is_tag t HIR_TYPE_INT then (if 8 <=? ht_int_width t then ht_int_width t / 8 else 4)
      else 4
  end%Z.

(** ** Locals *)

Fixpoint local_find (ls : list WgLocal) (name : cstr) (i : nat) : option nat :=
  match ls with
  | [] => None
  | l :: r => if cstr_eqb (wl_name l) name then Some i else local_find r name (S i)
  end.

(** The index of a local, added when new. A count above 256 makes the search run past the array. *)
Definition wg_local (name : cstr) (wt : Z) (g : Wg) : res (nat * Wg) :=
  match local_find (wg_locals g) name 0 with
  | Some i => Ok (i, g)
  | None =>
      if WG_MAX_LOCALS <? wg_local_count g then Undef
      else
        let ls := if wg_local_count g <? WG_MAX_LOCALS then wg_locals g ++ [mkLocal name wt] else wg_locals g in
        Ok (wg_local_count g, set_locals ls (S (wg_local_count g)) g)
  end.

(** ** Literals *)

Definition strip_separators (s : cstr) : cstr := filter (fun c => negb (Ascii.eqb c "_")) s.

Definition wg_parse_int (s : cstr) : Z :=
  let buf := firstn 79 (strip_separators s) in
  let neg := match buf with c :: _ => Ascii.eqb c "-" | [] => false end in
  let p := match buf with c :: r => if is_sign c then r else buf | [] => [] end in
  let pre (a b : ascii) := match p with x :: y :: _ => Ascii.eqb x "0" && (Ascii.eqb y a || Ascii.eqb y b) | _ => false end in
  let v := if pre "b"%char "B"%char then strtol (skipn 2 p) 2
           else if pre "o"%char "O"%char then strtol (skipn 2 p) 8
           else if pre "x"%char "X"%char then strtol (skipn 2 p) 16
           else strtol p 10 in
  s32 (if neg then - v else v).

Definition QUOTE : ascii := "'".
Definition BACKSLASH : ascii := "\".

Definition wg_parse_char (lx : cstr) : Z :=
  let p := match lx with c :: r => if Ascii.eqb c QUOTE then r else lx | [] => [] end in
  let c := nth 0 p NUL in
  if Ascii.eqb c BACKSLASH then
    let e := nth 1 p NUL in
    if Ascii.eqb e "n" then 10
    else if Ascii.eqb e "t" then 9
    else if Ascii.eqb e "r" then 13
    else if Ascii.eqb e "0" then 0
    else s8 (code e)
  else code c.

(** ** Instructions *)

Definition emit_const (b : WasmBuf) (v : Z) : WasmBuf := wb_i (wb_byte b 65) (s32 v).
Definition emit_fconst (b : WasmBuf) (d : spec_float) : WasmBuf := wb_bytes (wb_byte b 68) (le_bytes 8 (double_bits d)).
Definition emit_local_get (b : WasmBuf) (i : nat) : WasmBuf := wb_u (wb_byte b 32) (Z.of_nat i).
Definition emit_local_set (b : WasmBuf) (i : nat) : WasmBuf := wb_u (wb_byte b 33) (Z.of_nat i).

Definition g_const (v : Z) (g : Wg) : Wg := set_body (emit_const (wg_body g) v) g.
Definition g_get (i : nat) (g : Wg) : Wg := set_body (emit_local_get (wg_body g) i) g.
Definition g_set (i : nat) (g : Wg) : Wg := set_body (emit_local_set (wg_body g) i) g.

Definition binop_i (op : Operator) : Z :=
  match op with
  | OP_ADD => 106 | OP_SUB => 107 | OP_MUL => 108 | OP_DIV => 109 | OP_MOD => 111
  | OP_EQ => 70 | OP_NEQ => 71 | OP_LT => 72 | OP_GT => 74 | OP_LTE => 76 | OP_GTE => 78
  | OP_AND => 113 | OP_OR => 114
  | _ => 0
  end.

Definition binop_f (op : Operator) : Z :=
  match op with
  | OP_ADD => 160 | OP_SUB => 161 | OP_MUL => 162 | OP_DIV => 163
  | OP_EQ => 97 | OP_NEQ => 98 | OP_LT => 99 | OP_GT => 100 | OP_LTE => 101 | OP_GTE => 102
  | _ => 0
  end.

(** [c] after a backslash, inside a string. *)
Definition escape_char (e : ascii) : Z :=
  if Ascii.eqb e "n" then 10 else if Ascii.eqb e "t" then 9 else if Ascii.eqb e "r" then 13
  else if Ascii.eqb e "0" then 0 else code e.

(** The bytes of a string literal. *)
Fixpoint unescape (raw : cstr) : list Z :=
  match raw with
  | [] => []
  | c :: r =>
      match r with
      | e :: r' => if Ascii.eqb c BACKSLASH then escape_char e :: unescape r' else code c :: unescape r
      | [] => code c :: unescape r
      end
  end.

(** The offset and the length of the interned string. *)
Definition wg_intern_string (raw : cstr) (g : Wg) : Z * Z * Wg :=
  let bytes := unescape raw in
  ((wg_strings_base g + wb_len (wg_strings g))%Z, Z.of_nat (List.length bytes),
   set_strings (wb_each (wg_strings g) bytes) g).

(** ** Calls *)

Fixpoint wg_unwrap_eff (e : HirExpr) : HirExpr :=
  match e with
  | mkHirExpr _ _ (HE_CALL (Some c) _ _ _) =>
      match c with mkHirExpr _ _ (HE_CALL _ _ _ _) => wg_unwrap_eff c | _ => e end
  | _ => e
  end.

Definition callee_name (c : option HirExpr) : option cstr :=
  match c with
  | Some (mkHirExpr _ _ (HE_NAME n)) => Some n
  | Some (mkHirExpr _ _ (HE_FIELD _ n)) => n
  | _ => None
  end.

Definition is_print_call (e : HirExpr) : bool :=
  match he_data e with
  | HE_CALL c _ _ _ => match callee_name c with Some nm => contains (lit "printf") nm || cstr_eqb nm (lit "print") | None => false end
  | _ => false
  end.

(** ** Arrays *)

Definition wg_array_find (name : cstr) (g : Wg) : option WgArray :=
  find (fun a => cstr_eqb (wa_name a) name) (wg_arrays g).

(** [None] when the 128 entries are used. *)
Definition wg_array_decl (name : cstr) (t : HirType) (g : Wg) : option (WgArray * Wg) :=
  if WG_MAX_ARRAYS <=? List.length (wg_arrays g) then None
  else
    let base := wg_base_elem t in
    let a := mkArray name (wg_arrays_cursor g) (wg_scalar_size base)
               (match base with Some b => if is_tag b HIR_TYPE_FLOAT then WT_F64 else WT_I32 | None => WT_I32 end)
               (match base with Some b => is_tag b HIR_TYPE_INT && ht_int_signed b | None => false end)
               (wg_total_elems t) in
    Some (a, set_arrays (wg_arrays g ++ [a]) (wg_arrays_cursor g + wa_total a * wa_elem_size a)%Z g).

Definition load_bytes (a : WgArray) : list Z :=
  (if wa_elem_wt a =? WT_F64 then [43; 3; 0]
   else if wa_elem_size a =? 1 then [if wa_elem_signed a then 44 else 45; 0; 0]
   else if wa_elem_size a =? 2 then [if wa_elem_signed a then 46 else 47; 1; 0]
   else [40; 2; 0])%Z.

Definition wg_emit_load (a : WgArray) (g : Wg) : Wg := put (load_bytes a) g.

Definition store_bytes (a : WgArray) : list Z :=
  (if wa_elem_wt a =? WT_F64 then [57; 3; 0]
   else if wa_elem_size a =? 1 then [58; 0; 0]
   else if wa_elem_size a =? 2 then [59; 1; 0]
   else [54; 2; 0])%Z.

Definition wg_emit_store (a : WgArray) (g : Wg) : Wg := put (store_bytes a) g.

(** ** Expressions *)

(** The local array a base expression names. *)
Definition array_base (base : HirExpr) (g : Wg) : option WgArray :=
  match he_data base with HE_NAME n => wg_array_find n g | _ => None end.

Section Emit.
(** [wg_emit_expr] on a smaller amount of fuel. *)
Variable emit : HirExpr -> Wg -> res Wg.

Definition wg_emit_elem_addr (a : WgArray) (index : HirExpr) (g : Wg) : res Wg :=
  g1 <- emit index (g_const (wa_base a) g) ;;
  let g2 := if negb (wa_elem_size a =? 1)%Z then put [108%Z] (g_const (wa_elem_size a) g1) else g1 in
  Ok (put [106%Z] g2).

Definition wg_emit_as_float (e : HirExpr) (g : Wg) : res Wg :=
  g1 <- emit e g ;;
  Ok (if negb (wg_wtype (he_resolved e) =? WT_F64)%Z then put [183%Z] g1 else g1).

Definition emit_literal (t : HirType) (lx : cstr) (g : Wg) : Wg :=
  if (wg_wtype t =? WT_F64)%Z then set_body (emit_fconst (wg_body g) (strtod lx)) g
  else if is_tag t HIR_TYPE_CHAR then g_const (wg_parse_char lx) g
  else if cstr_eqb lx (lit "true") then g_const 1 g
  else if cstr_eqb lx (lit "false") then g_const 0 g
  else g_const (wg_parse_int lx) g.

Definition emit_binary (op : Operator) (l r : HirExpr) (g : Wg) : res Wg :=
  let isf := (wg_wtype (he_resolved l) =? WT_F64)%Z || (wg_wtype (he_resolved r) =? WT_F64)%Z in
  let o := if isf then binop_f op else binop_i op in
  if (o =? 0)%Z then Ok (g_const 0 g)
  else if isf then g1 <- wg_emit_as_float l g ;; g2 <- wg_emit_as_float r g1 ;; Ok (put [o] g2)
  else g1 <- emit l g ;; g2 <- emit r g1 ;; Ok (put [o] g2).
End Emit.

Fixpoint wg_emit_expr (fuel : nat) (e : HirExpr) (g : Wg) : res Wg :=
  match fuel with
  | O => NoFuel
  | S f =>
      match he_data e with
      | HE_LITERAL lx => Ok (emit_literal (he_resolved e) lx g)
      | HE_NAME nm =>
          match find (fun c => cstr_eqb (fst c) nm) (wg_consts g) with
          | Some (_, v) => wg_emit_expr f v g
          | None => ig <- wg_local nm (wg_wtype (he_resolved e)) g ;; Ok (g_get (fst ig) (snd ig))
          end
      | HE_BINARY op l r _ => emit_binary (wg_emit_expr f) op l r g
      | HE_INDEX base indices _ _ =>
          match array_base base g, indices with
          | Some a, [i] => g1 <- wg_emit_elem_addr (wg_emit_expr f) a i g ;; Ok (wg_emit_load a g1)
          | _, _ => Ok (g_const 0 g)
          end
      | HE_FIELD base fn =>
          match fn with
          | Some n =>
              match (if cstr_eqb n (lit "length") then array_base base g else None) with
              | Some a => Ok (g_const (wa_total a) g)
              | None => Ok (g_const 0 g)
              end
          | None => Ok (g_const 0 g)
          end
      | _ => Ok (g_const 0 g)
      end
  end.

(** ** Printing *)

Section Printf.
Variable emit : HirExpr -> Wg -> res Wg.

(** The pointer and the length of a text argument: a string literal, or a character array. *)
Definition text_arg (a : HirExpr) (g : Wg) : Z * Z * Wg :=
  match he_data a with
  | HE_STRING v => wg_intern_string v g
  | _ => match array_base a g with Some arr => (wa_base arr, wa_total arr, g) | None => (0, 0, g)%Z end
  end.

(** One argument, into its 8-byte slot. *)
Definition emit_arg (a : HirExpr) (slot : Z) (g : Wg) : res Wg :=
  let text := match he_data a with HE_STRING _ => true | _ => false end in
  if text || is_tag (he_resolved a) HIR_TYPE_CHAR_ARRAY then
    let '(p, l, g1) := text_arg a g in
    let g2 := put [54; 2; 0]%Z (g_const p (g_const slot g1)) in
    Ok (put [54; 2; 0]%Z (g_const l (g_const (slot + 4) g2)))
  else
    g1 <- emit a (g_const slot g) ;;
    Ok (put (if wg_wtype (he_resolved a) =? WT_F64 then [57; 3; 0] else [54; 2; 0])%Z g1).

(** The loop; [args_base + j * 8] is the slot of argument [j]. *)
Fixpoint emit_args (args : list HirExpr) (j : Z) (g : Wg) : res Wg :=
  match args with
  | [] => Ok g
  | a :: r => g1 <- emit_arg a (wg_args_base g + j * 8)%Z g ;; emit_args r (j + 1)%Z g1
  end.

Definition emit_call (f : Z) (g : Wg) : Wg := set_body (wb_u (wb_byte (wg_body g) 16) f) g.

Definition wg_emit_printf (args : list HirExpr) (g : Wg) : res Wg :=
  match args with
  | fmt :: rest =>
      match he_data fmt with
      | HE_STRING v =>
          let '(off, len, g1) := wg_intern_string v g in
          match rest with
          | [] => Ok (emit_call (wg_f_print g1) (g_const len (g_const off g1)))
          | _ =>
              g2 <- emit_args rest 0 g1 ;;
              let g3 := g_const (wg_args_base g2) (g_const len (g_const off g2)) in
              Ok (emit_call (wg_f_printf g3) (g_const (Z.of_nat (List.length rest)) g3))
          end
      | _ => Ok g
      end
  | [] => Ok g
  end.
End Printf.

(** ** Statements *)

(** [for (j = 0; j < n; j++) f(g, items[j]);] *)
Fixpoint each {A} (f : A -> Wg -> res Wg) (l : list A) (g : Wg) : res Wg :=
  match l with [] => Ok g | x :: r => g1 <- f x g ;; each f r g1 end.

Definition opt {A} (f : A -> Wg -> res Wg) (o : option A) (g : Wg) : res Wg :=
  match o with Some x => f x g | None => Ok g end.

(** The type that makes a binding an array local. *)
Definition bind_array_type (type : option HirType) (value : option HirExpr) : option HirType :=
  match (match type with Some t => if wg_is_array t then Some t else None | None => None end) with
  | Some t => Some t
  | None => match value with Some v => if wg_is_array (he_resolved v) then Some (he_resolved v) else None | None => None end
  end.

Section EmitStmt.
Variable emit : HirExpr -> Wg -> res Wg.

(** The loop over an array literal, from element [k] on. *)
Fixpoint emit_elements (a : WgArray) (elems : list HirExpr) (k : Z) (g : Wg) : res Wg :=
  match elems with
  | [] => Ok g
  | x :: r =>
      if (k <? wa_total a)%Z then
        let g1 := g_const (wa_base a + k * wa_elem_size a) g in
        g2 <- (if wa_elem_wt a =? WT_F64 then wg_emit_as_float emit x g1 else emit x g1)%Z ;;
        emit_elements a r (k + 1)%Z (wg_emit_store a g2)
      else Ok g
  end.

Definition emit_bind (name : cstr) (type : option HirType) (value : option HirExpr) (g : Wg) : res Wg :=
  match bind_array_type type value with
  | Some at_ =>
      match wg_array_decl name at_ g with
      | Some (a, g1) =>
          match value with
          | Some v => match he_data v with HE_ARRAY_LITERAL elems => emit_elements a elems 0 g1 | _ => Ok g1 end
          | None => Ok g1
          end
      | None => Ok g
      end
  | None =>
      let wt := match value with Some v => wg_wtype (he_resolved v) | None => WT_I32 end in
      g1 <- match value with Some v => emit v g | None => Ok (g_const 0 g) end ;;
      ig <- wg_local name wt g1 ;;
      Ok (g_set (fst ig) (snd ig))
  end.

(** The operand, coerced when the target is a float. *)
Definition emit_operand (wt : Z) (v : HirExpr) (g : Wg) : res Wg :=
  if (wt =? WT_F64)%Z then wg_emit_as_float emit v g else emit v g.

Definition put_op (o : Z) (g : Wg) : Wg := if (o =? 0)%Z then g else put [o] g.

Definition op_code (wt : Z) (op : Operator) : Z := if (wt =? WT_F64)%Z then binop_f op else binop_i op.

Definition emit_assign (target value : HirExpr) (op : Operator) (g : Wg) : res Wg :=
  let compound := negb (Operator_beq op OP_NONE) in
  match he_data target with
  | HE_INDEX base indices _ _ =>
      match array_base base g, indices with
      | Some arr, [idx] =>
          g1 <- wg_emit_elem_addr emit arr idx g ;;
          g2 <- (if compound then g' <- wg_emit_elem_addr emit arr idx g1 ;; Ok (wg_emit_load arr g') else Ok g1) ;;
          g3 <- emit_operand (wa_elem_wt arr) value g2 ;;
          let g4 := if compound then put_op (op_code (wa_elem_wt arr) op) g3 else g3 in
          Ok (wg_emit_store arr g4)
      | _, _ => Ok g
      end
  | HE_NAME n =>
      let wt := wg_wtype (he_resolved target) in
      ig <- wg_local n wt g ;;
      let idx := fst ig in
      g1 <- (if compound then
               g' <- emit_operand wt value (g_get idx (snd ig)) ;; Ok (put_op (op_code wt op) g')
             else emit value (snd ig)) ;;
      Ok (g_set idx g1)
  | _ => Ok g
  end.
End EmitStmt.

Fixpoint wg_emit_stmt (fuel : nat) (s : HirStmt) (g : Wg) : res Wg :=
  match fuel with
  | O => NoFuel
  | S f =>
      match hs_data s with
      | HS_BIND name _ type value => emit_bind (wg_emit_expr f) name type value g
      | HS_ASSIGN target value op => emit_assign (wg_emit_expr f) target value op g
      | HS_FOR _ _ init cond incr body =>
          g1 <- opt (wg_emit_stmt f) init g ;;
          let g2 := put [2; 64; 3; 64]%Z g1 in
          g3 <- opt (fun c g => g' <- wg_emit_expr f c g ;;
                       let g'' := put [69; 13]%Z g' in Ok (set_body (wb_u (wg_body g'') 1) g'')) cond g2 ;;
          g4 <- each (wg_emit_stmt f) body g3 ;;
          g5 <- opt (wg_emit_stmt f) incr g4 ;;
          let g6 := put [12]%Z g5 in
          Ok (put [11; 11]%Z (set_body (wb_u (wg_body g6) 0) g6))
      | HS_IF cond then_body else_body =>
          g1 <- wg_emit_expr f cond g ;;
          g2 <- each (wg_emit_stmt f) then_body (put [4; 64]%Z g1) ;;
          g3 <- (match else_body with [] => Ok g2 | _ => each (wg_emit_stmt f) else_body (put [5]%Z g2) end) ;;
          Ok (put [11]%Z g3)
      | HS_EXPR e =>
          let e := wg_unwrap_eff e in
          if is_print_call e then
            match he_data e with HE_CALL _ args _ _ => wg_emit_printf (wg_emit_expr f) args g | _ => Ok g end
          else Ok g
      | _ => Ok g
      end
  end.

(** ** The module *)

(** The imports, the memory and the empty emitter state. *)
Definition wg_start : Wg :=
  let m := wm_export_mem (wm_memory wm_init 4) (lit "memory") in
  let (t2, m) := wm_type m [WT_I32; WT_I32] [] in
  let (fp, m) := wm_import_func m (lit "arche_print") t2 in
  let (t4, m) := wm_type m [WT_I32; WT_I32; WT_I32; WT_I32] [] in
  let (fpf, m) := wm_import_func m (lit "arche_printf") t4 in
  mkWg m wb_init wb_init 1024 512 16384 fp fpf [] 0 [] [].

Definition add_const (g : Wg) (d : HirDecl) : Wg :=
  match hd_data d with
  | HD_CONST name (Some v) _ =>
      if List.length (wg_consts g) <? WG_MAX_LOCALS then set_consts (wg_consts g ++ [(name, v)]) g else g
  | _ => g
  end.

Definition is_run (d : HirDecl) : bool := match hd_data d with HD_RUN _ _ => true | _ => false end.

(** A system without parameters runs once. *)
Definition emit_decl (fuel : nat) (d : HirDecl) (g : Wg) : res Wg :=
  match hd_data d with
  | HD_KERNEL k =>
      match hk_kind k, hk_params k with
      | HIR_KERNEL_SYSTEM, [] => each (wg_emit_stmt fuel) (hk_stmts k) g
      | _, _ => Ok g
      end
  | _ => Ok g
  end.

(** The emitter after the whole program, the body's [end] included. *)
Definition emit_program (fuel : nat) (p : HirProgram) : res Wg :=
  let g := fold_left add_const (hir_decls p) wg_start in
  g1 <- (if existsb is_run (hir_decls p) then each (emit_decl fuel) (hir_decls p) g else Ok g) ;;
  Ok (put [11]%Z g1).

(** The module of the emitted function; reading more than the 256 entries of the locals is [Undef]. *)
Definition link_module (g : Wg) : res WasmModule :=
  let (t_void, m) := wm_type (wg_m g) [] [] in
  let (f_start, m) := wm_func m t_void in
  if WG_MAX_LOCALS <? wg_local_count g then Undef
  else
    let m := wm_code m (map (fun l => (1%Z, wl_wt l)) (wg_locals g)) (wb_data (wg_body g)) in
    let m := wm_export_func m (lit "_start") f_start in
    Ok (if (wb_len (wg_strings g) =? 0)%Z then m else wm_data m (wg_strings_base g) (wb_data (wg_strings g))).

(** The bytes written to the output file. *)
Definition wasmgen_generate (fuel : nat) (p : HirProgram) : res (list Z) :=
  g <- emit_program fuel p ;;
  m <- link_module g ;;
  Ok (wb_data (wm_finish m)).
