(* ===== verification/WasmSem.v ===== *)
(** * A WebAssembly machine for the code of [WasmGen.v]

    The instructions the generator uses, their binary format, and their execution: locals, an operand
    stack, a linear memory of bytes and the calls made to the host. A value of type [i32] is its
    signed reading, one of type [f64] its bit pattern. The arithmetic on doubles is an interface. *)

From S2P Require Import Prelude WasmEncode WasmProps.

(** ** Instructions *)

Inductive IOp : Type :=
  | i_add | i_sub | i_mul | i_div_s | i_rem_s | i_eq | i_ne | i_lt_s | i_gt_s | i_le_s | i_ge_s | i_and | i_or.
Inductive FOp : Type := f_add | f_sub | f_mul | f_div | f_eq | f_ne | f_lt | f_gt | f_le | f_ge.

(** How a memory access reads or writes: all of an [i32], one or two bytes of it, or an [f64]. *)
Inductive Acc : Type := A_i32 | A_i8 (signed : bool) | A_i16 (signed : bool) | A_f64.

Inductive Instr : Type :=
  | I_const (v : Z)
  | I_fconst (bits : Z)
  | I_get (i : nat)
  | I_set (i : nat)
  | I_int (o : IOp)
  | I_float (o : FOp)
  | I_eqz
  | I_convert
  | I_load (a : Acc)
  | I_store (a : Acc)
  | I_call (f : Z)
  | I_block (body : list Instr)
  | I_loop (body : list Instr)
  | I_if (then_ : list Instr) (else_ : option (list Instr))
  | I_br (n : nat)
  | I_br_if (n : nat).

Definition iop_code (o : IOp) : Z :=
  match o with
  | i_add => 106 | i_sub => 107 | i_mul => 108 | i_div_s => 109 | i_rem_s => 111
  | i_eq => 70 | i_ne => 71 | i_lt_s => 72 | i_gt_s => 74 | i_le_s => 76 | i_ge_s => 78 | i_and => 113 | i_or => 114
  end.

Definition fop_code (o : FOp) : Z :=
  match o with
  | f_add => 160 | f_sub => 161 | f_mul => 162 | f_div => 163
  | f_eq => 97 | f_ne => 98 | f_lt => 99 | f_gt => 100 | f_le => 101 | f_ge => 102
  end.

(** The opcode and the memory argument (alignment and offset) of an access. *)
Definition load_code (a : Acc) : list Z :=
  match a with
  | A_i32 => [40; 2; 0] | A_i8 s => [if s then 44 else 45; 0; 0] | A_i16 s => [if s then 46 else 47; 1; 0] | A_f64 => [43; 3; 0]
  end%Z.

Definition store_code (a : Acc) : list Z :=
  match a with A_i32 => [54; 2; 0] | A_i8 _ => [58; 0; 0] | A_i16 _ => [59; 1; 0] | A_f64 => [57; 3; 0] end%Z.

(** The number that bytes stand for, least significant first; [le_bytes] is the inverse. *)
Fixpoint of_bytes (l : list Z) : Z :=
  match l with [] => 0 | b :: r => b + 256 * of_bytes r end%Z.

Fixpoint enc (i : Instr) : list Z :=
  let seq := flat_map enc in
  match i with
  | I_const v => [65]%Z ++ leb_s v
  | I_fconst b => [68]%Z ++ le_bytes 8 b
  | I_get n => [32]%Z ++ leb_u (Z.of_nat n)
  | I_set n => [33]%Z ++ leb_u (Z.of_nat n)
  | I_int o => [iop_code o]
  | I_float o => [fop_code o]
  | I_eqz => [69]%Z
  | I_convert => [183]%Z
  | I_load a => load_code a
  | I_store a => store_code a
  | I_call f => [16]%Z ++ leb_u f
  | I_block b => [2; 64]%Z ++ seq b ++ [11]%Z
  | I_loop b => [3; 64]%Z ++ seq b ++ [11]%Z
  | I_if t e => [4; 64]%Z ++ seq t ++ (match e with Some e => [5]%Z ++ seq e | None => [] end) ++ [11]%Z
  | I_br n => [12]%Z ++ leb_u (Z.of_nat n)
  | I_br_if n => [13]%Z ++ leb_u (Z.of_nat n)
  end.

Definition enc_seq (c : list Instr) : list Z := flat_map enc c.

(** ** Decoding *)

#[local] Open Scope decoder_scope.

Definition d_fail {A} : D A := fun _ => None.
Definition d_nat : D nat := n <~ d_u ;; d_ret (Z.to_nat n).

(** The two bytes of a memory argument. *)
Definition d_mem (align : Z) (i : Instr) : D Instr := _ <~ d_tag align ;; _ <~ d_tag 0 ;; d_ret i.

Definition d_int (b : Z) : option IOp :=
  find (fun o => (iop_code o =? b)%Z) [i_add; i_sub; i_mul; i_div_s; i_rem_s; i_eq; i_ne; i_lt_s; i_gt_s; i_le_s; i_ge_s; i_and; i_or].
Definition d_float (b : Z) : option FOp :=
  find (fun o => (fop_code o =? b)%Z) [f_add; f_sub; f_mul; f_div; f_eq; f_ne; f_lt; f_gt; f_le; f_ge].

(** An instruction whose opcode is [b]; [d_seq] reads a sequence and its terminator. *)
Definition d_instr (d_seq : D (list Instr * Z)) (b : Z) : D Instr :=
  if (b =? 65)%Z then v <~ d_s ;; d_ret (I_const v)
  else if (b =? 68)%Z then l <~ d_take 8 ;; d_ret (I_fconst (of_bytes l))
  else if (b =? 32)%Z then n <~ d_nat ;; d_ret (I_get n)
  else if (b =? 33)%Z then n <~ d_nat ;; d_ret (I_set n)
  else if (b =? 69)%Z then d_ret I_eqz
  else if (b =? 183)%Z then d_ret I_convert
  else if (b =? 40)%Z then d_mem 2 (I_load A_i32)
  else if (b =? 44)%Z then d_mem 0 (I_load (A_i8 true))
  else if (b =? 45)%Z then d_mem 0 (I_load (A_i8 false))
  else if (b =? 46)%Z then d_mem 1 (I_load (A_i16 true))
  else if (b =? 47)%Z then d_mem 1 (I_load (A_i16 false))
  else if (b =? 43)%Z then d_mem 3 (I_load A_f64)
  else if (b =? 54)%Z then d_mem 2 (I_store A_i32)
  else if (b =? 58)%Z then d_mem 0 (I_store (A_i8 false))
  else if (b =? 59)%Z then d_mem 1 (I_store (A_i16 false))
  else if (b =? 57)%Z then d_mem 3 (I_store A_f64)
  else if (b =? 16)%Z then f <~ d_u ;; d_ret (I_call f)
  else if (b =? 12)%Z then n <~ d_nat ;; d_ret (I_br n)
  else if (b =? 13)%Z then n <~ d_nat ;; d_ret (I_br_if n)
  else if (b =? 2)%Z then
    _ <~ d_tag 64 ;; s <~ d_seq ;; if (snd s =? 11)%Z then d_ret (I_block (fst s)) else d_fail
  else if (b =? 3)%Z then
    _ <~ d_tag 64 ;; s <~ d_seq ;; if (snd s =? 11)%Z then d_ret (I_loop (fst s)) else d_fail
  else if (b =? 4)%Z then
    _ <~ d_tag 64 ;; s <~ d_seq ;;
    if (snd s =? 11)%Z then d_ret (I_if (fst s) None)
    else e <~ d_seq ;; if (snd e =? 11)%Z then d_ret (I_if (fst s) (Some (fst e))) else d_fail
  else
    match d_int b, d_float b with
    | Some o, _ => d_ret (I_int o)
    | None, Some o => d_ret (I_float o)
    | None, None => d_fail
    end.

(** The instructions up to the first [end] or [else], with that terminator. *)
Fixpoint d_seq (fuel : nat) : D (list Instr * Z) :=
  match fuel with
  | O => d_fail
  | S f =>
      b <~ d_byte ;;
      if (b =? 11)%Z || (b =? 5)%Z then d_ret ([], b)
      else i <~ d_instr (d_seq f) b ;; s <~ d_seq f ;; d_ret (i :: fst s, snd s)
  end.

(** The body of a function: the instructions, [end], nothing more. *)
Definition decode_body (l : list Z) : option (list Instr) :=
  match d_seq (S (List.length l)) l with
  | Some ((c, t), []) => if (t =? 11)%Z then Some c else None
  | _ => None
  end.

(** ** Execution *)

Inductive val : Type := VI (z : Z) | VF (bits : Z).

Definition vtype (v : val) : Z := match v with VI _ => WT_I32 | VF _ => 124%Z end.

(** The arithmetic of [f64] on bit patterns. *)
Class F64Ops : Type := {
  fl_add : Z -> Z -> Z; fl_sub : Z -> Z -> Z; fl_mul : Z -> Z -> Z; fl_div : Z -> Z -> Z;
  fl_eq : Z -> Z -> bool; fl_lt : Z -> Z -> bool; fl_le : Z -> Z -> bool;
  fl_of_i32 : Z -> Z
}.

(** A call to the host: the function, its arguments, and the memory it sees. *)
Inductive Event : Type := Call (f : Z) (args : list val) (mem : Z -> Z).

Record St : Type := mkSt {
  s_locals : list val;
  s_mem : Z -> Z;
  s_calls : list Event
}.

(** [Br n]: a branch to the [n]th enclosing label; [Fuel]: the loops' bound was reached. *)
Inductive outcome : Type := Norm (s : St) (stk : list val) | Br (n : nat) (s : St) | Trap | Fuel.

Definition b2z (b : bool) : Z := if b then 1 else 0.

(** The integer instructions; division traps on zero and on overflow. *)
Definition run_int (o : IOp) (a b : Z) : option Z :=
  match o with
  | i_add => Some (s32 (a + b))
  | i_sub => Some (s32 (a - b))
  | i_mul => Some (s32 (a * b))
  | i_div_s => if (b =? 0)%Z || ((a =? - 2 ^ 31)%Z && (b =? -1)%Z) then None else Some (Z.quot a b)
  | i_rem_s => if (b =? 0)%Z then None else Some (Z.rem a b)
  | i_eq => Some (b2z (a =? b)%Z)
  | i_ne => Some (b2z (negb (a =? b)%Z))
  | i_lt_s => Some (b2z (a <? b)%Z)
  | i_gt_s => Some (b2z (b <? a)%Z)
  | i_le_s => Some (b2z (a <=? b)%Z)
  | i_ge_s => Some (b2z (b <=? a)%Z)
  | i_and => Some (Z.land a b)
  | i_or => Some (Z.lor a b)
  end%Z.

Definition acc_size (a : Acc) : nat := match a with A_i32 => 4 | A_i8 _ => 1 | A_i16 _ => 2 | A_f64 => 8 end.

(** The 4 pages of the memory. *)
Definition mem_size : Z := 262144.

Definition read_mem (m : Z -> Z) (addr : Z) (n : nat) : list Z := map (fun k => m (addr + Z.of_nat k)%Z) (seq 0 n).

Definition write_mem (m : Z -> Z) (addr : Z) (l : list Z) : Z -> Z :=
  fun x => if (addr <=? x)%Z && (x <? addr + Z.of_nat (List.length l))%Z then nth (Z.to_nat (x - addr)) l 0%Z else m x.

(** Two's complement on [bits]. *)
Definition signed (bits z : Z) : Z :=
  (let u := z mod 2 ^ bits in if u <? 2 ^ (bits - 1) then u else u - 2 ^ bits)%Z.

Definition load_val (a : Acc) (l : list Z) : val :=
  let z := of_bytes l in
  match a with
  | A_i32 => VI (signed 32 z)
  | A_i8 s => VI (if s then signed 8 z else z)
  | A_i16 s => VI (if s then signed 16 z else z)
  | A_f64 => VF z
  end.

Definition store_val (a : Acc) (v : val) : option (list Z) :=
  match a, v with
  | A_f64, VF b => Some (le_bytes 8 b)
  | A_f64, VI _ | _, VF _ => None
  | _, VI z => Some (le_bytes (acc_size a) z)
  end.

(** An effective address: an [i32] read unsigned. *)
Definition in_bounds (addr : Z) (n : nat) : bool := (u32 addr + Z.of_nat n <=? mem_size)%Z.

Fixpoint set_at {A} (l : list A) (i : nat) (x : A) : list A :=
  match l, i with
  | [], _ => []
  | _ :: r, O => x :: r
  | y :: r, S j => y :: set_at r j x
  end.

Section Machine.
Context `{F64Ops}.

(** How many arguments the imported functions take. *)
Variable arity : Z -> nat.

Definition run_float (o : FOp) (a b : Z) : val :=
  match o with
  | f_add => VF (fl_add a b) | f_sub => VF (fl_sub a b) | f_mul => VF (fl_mul a b) | f_div => VF (fl_div a b)
  | f_eq => VI (b2z (fl_eq a b)) | f_ne => VI (b2z (negb (fl_eq a b)))
  | f_lt => VI (b2z (fl_lt a b)) | f_gt => VI (b2z (fl_lt b a))
  | f_le => VI (b2z (fl_le a b)) | f_ge => VI (b2z (fl_le b a))
  end.

(** The instructions without a body. *)
Definition step (i : Instr) (st : St) (stk : list val) : outcome :=
  match i, stk with
  | I_const v, _ => Norm st (VI v :: stk)
  | I_fconst b, _ => Norm st (VF b :: stk)
  | I_get n, _ => match nth_error (s_locals st) n with Some v => Norm st (v :: stk) | None => Trap end
  | I_set n, v :: r =>
      match nth_error (s_locals st) n with
      | Some w => if (vtype v =? vtype w)%Z then Norm (mkSt (set_at (s_locals st) n v) (s_mem st) (s_calls st)) r else Trap
      | None => Trap
      end
  | I_int o, VI b :: VI a :: r => match run_int o a b with Some z => Norm st (VI z :: r) | None => Trap end
  | I_float o, VF b :: VF a :: r => Norm st (run_float o a b :: r)
  | I_eqz, VI a :: r => Norm st (VI (b2z (a =? 0)%Z) :: r)
  | I_convert, VI a :: r => Norm st (VF (fl_of_i32 a) :: r)
  | I_load a, VI addr :: r =>
      if in_bounds addr (acc_size a) then Norm st (load_val a (read_mem (s_mem st) (u32 addr) (acc_size a)) :: r) else Trap
  | I_store a, v :: VI addr :: r =>
      match store_val a v with
      | Some l => if in_bounds addr (acc_size a) then Norm (mkSt (s_locals st) (write_mem (s_mem st) (u32 addr) l) (s_calls st)) r else Trap
      | None => Trap
      end
  | I_call f, _ =>
      if arity f <=? List.length stk then
        Norm (mkSt (s_locals st) (s_mem st) (s_calls st ++ [Call f (rev (firstn (arity f) stk)) (s_mem st)])) (skipn (arity f) stk)
      else Trap
  | I_br n, _ => Br n st
  | I_br_if n, VI c :: r => if (c =? 0)%Z then Norm st r else Br n st
  | _, _ => Trap
  end.

(** What a block without a result makes of the outcome of its body. *)
Definition leave (stk : list val) (o : outcome) : outcome :=
  match o with
  | Norm s [] => Norm s stk
  | Br O s => Norm s stk
  | Br (S n) s => Br n s
  | Norm _ (_ :: _) => Trap
  | o => o
  end.

(** A loop, entered with at most [m] turns. *)
Fixpoint turns (body : St -> outcome) (m : nat) (st : St) (stk : list val) : outcome :=
  match m with
  | O => Fuel
  | S m' =>
      match body st with
      | Norm s [] => Norm s stk
      | Br O s => turns body m' s stk
      | Br (S n) s => Br n s
      | Norm _ (_ :: _) => Trap
      | o => o
      end
  end.

Fixpoint exec1 (n : nat) (i : Instr) (st : St) (stk : list val) : outcome :=
  let run := fix run (c : list Instr) (st : St) (stk : list val) : outcome :=
    match c with
    | [] => Norm st stk
    | i :: r => match exec1 n i st stk with Norm st' stk' => run r st' stk' | o => o end
    end in
  match i with
  | I_block b => leave stk (run b st [])
  | I_loop b => turns (fun s => run b s []) n st stk
  | I_if t e =>
      match stk with
      | VI c :: r => leave r (if (c =? 0)%Z then match e with Some e => run e st [] | None => Norm st [] end else run t st [])
      | _ => Trap
      end
  | _ => step i st stk
  end.

(** A sequence of instructions; [n] bounds the turns of each loop. *)
Fixpoint exec (n : nat) (c : list Instr) (st : St) (stk : list val) : outcome :=
  match c with
  | [] => Norm st stk
  | i :: r => match exec1 n i st stk with Norm st' stk' => exec n r st' stk' | o => o end
  end.
End Machine.

(** ** Loading a module *)

(** The functions the host provides, and how many arguments they take. *)
Definition host : list (list Z * nat) := [(bytes_of (lit "arche_print"), 2); (bytes_of (lit "arche_printf"), 4)].

Definition host_eq_dec (a b : list (list Z * nat)) : {a = b} + {a <> b}.
Proof. repeat decide equality. Defined.

(** Locals start at zero. *)
Definition zero_locals (groups : list (Z * Z)) : list val :=
  flat_map (fun l => repeat (if (snd l =? 124)%Z then VF 0 else VI 0) (Z.to_nat (fst l))) groups.

(** The memory starts at zero, with the data segments copied in. *)
Definition data_mem (datas : list (Z * list Z)) : Z -> Z :=
  fold_left (fun m d => write_mem m (u32 (fst d)) (snd d)) datas (fun _ => 0%Z).

(** The code of the exported [_start] and the state it starts in, for a module that imports the host's functions. *)
Definition load (bytes : list Z) : option (list Instr * St) :=
  match decode_module bytes with
  | Some m =>
      let imports := map (fun i => (fst i, List.length (fst (nth (Z.to_nat (snd i)) (mod_types m) ([], []))))) (mod_imports m) in
      if host_eq_dec imports host then
        match find (fun e => if list_eq_dec Z.eq_dec (fst e) (bytes_of (lit "_start")) then true else false) (mod_exports m) with
        | Some (_, (kind, f)) =>
            if (kind =? WK_FUNC)%Z then
              match nth_error (mod_codes m) (Z.to_nat f - List.length (mod_imports m)) with
              | Some (groups, body) => option_map (fun c => (c, mkSt (zero_locals groups) (data_mem (mod_datas m)) [])) (decode_body body)
              | None => None
              end
            else None
        | None => None
        end
      else None
  | None => None
  end.
