(* ===== verification/HirSem.v ===== *)
(** * A reference semantics for the programs the WebAssembly back end covers

    A static check of the covered fragment of the HIR - scalar locals, one-dimensional local arrays,
    integer and floating arithmetic, [for], [if] and printing - and an evaluator for it: lexically
    scoped names without shadowing, 32-bit two's-complement integers, array accesses within bounds,
    the systems of the [#run] schedule in its order, and the sequence of printed texts. [None] is a
    program without a meaning here: an access out of bounds, a division by zero, an unbound name, a
    loop longer than its bound, a schedule that does not end or names something else than a system. *)

From Stdlib Require Import SpecFloat.
From S2P Require Import Prelude Hir Lexer LexerFacts WasmEncode WasmProps WasmGen WasmSem.

(** ** Types of names *)

(** What the layout of an array depends on. *)
Record ArrTy : Type := mkArrTy { at_acc : Acc; at_total : Z }.

Definition elem_acc (t : option HirType) : option Acc :=
  match t with
  | None => Some A_i32
  | Some t =>
      if is_tag t HIR_TYPE_FLOAT then Some A_f64
      else
        let s := is_tag t HIR_TYPE_INT && ht_int_signed t in
        if (wg_scalar_size (Some t) =? 1)%Z then Some (A_i8 s)
        else if (wg_scalar_size (Some t) =? 2)%Z then Some (A_i16 s)
        else if (wg_scalar_size (Some t) =? 4)%Z then Some A_i32
        else None
  end.

(** [None] for elements of 64 bits and more, which the back end truncates. *)
Definition arr_ty (t : HirType) : option ArrTy :=
  option_map (fun a => mkArrTy a (wg_total_elems t)) (elem_acc (wg_base_elem t)).

Definition acc_eqb (a b : Acc) : bool :=
  match a, b with
  | A_i32, A_i32 | A_f64, A_f64 => true
  | A_i8 s, A_i8 s' | A_i16 s, A_i16 s' => Bool.eqb s s'
  | _, _ => false
  end.

Definition acc_wt (a : Acc) : Z := match a with A_f64 => WT_F64 | _ => WT_I32 end.

Definition opt_is (o : option Z) (z : Z) : bool := match o with Some y => (y =? z)%Z | None => false end.

(** The integer types whose values the signed 32-bit instructions order and divide rightly. *)
Definition int32 (t : HirType) : bool := is_tag t HIR_TYPE_INT && (ht_int_width t =? 32)%Z && ht_int_signed t.
Definition plain (t : HirType) : bool :=
  int32 t || is_tag t HIR_TYPE_CHAR || (is_tag t HIR_TYPE_INT && (ht_int_width t <? 32)%Z).
Definition narrow (t : HirType) : bool := negb (is_tag t HIR_TYPE_INT && (32 <? ht_int_width t)%Z).

Definition is_float (t : HirType) : bool := (wg_wtype t =? WT_F64)%Z.

(** The result of an operator on floats is a float, or an integer for the comparisons. *)
Definition arith (op : Operator) : bool := match op with OP_ADD | OP_SUB | OP_MUL | OP_DIV | OP_MOD => true | _ => false end.

Definition bin_ok (op : Operator) (l r t : HirType) : bool :=
  if is_float l || is_float r then
    negb (binop_f op =? 0)%Z && (is_float l || plain l) && (is_float r || plain r) && Bool.eqb (is_float t) (arith op)
  else
    negb (is_float t) &&
    match op with
    | OP_ADD | OP_SUB | OP_MUL | OP_DIV | OP_MOD => int32 l && int32 r
    | OP_LT | OP_GT | OP_LTE | OP_GTE => plain l && plain r
    | OP_EQ | OP_NEQ | OP_AND | OP_OR => narrow l && narrow r
    | _ => false
    end.

(** ** Literals *)

(** [char_literal_value], the decoding of the LLVM back end. *)
Definition char_literal_value (lex : cstr) : Z :=
  if Ascii.eqb (nth 1 lex NUL) BACKSLASH then
    let e := nth 2 lex NUL in
    if Ascii.eqb e "n" then 10
    else if Ascii.eqb e "t" then 9
    else if Ascii.eqb e "r" then 13
    else if Ascii.eqb e BACKSLASH then 92
    else if Ascii.eqb e QUOTE then 39
    else if Ascii.eqb e "0" then 0
    else s8 (code e)
  else s8 (code (nth 1 lex NUL)).

Definition lit_value (t : HirType) (lx : cstr) : option val :=
  if is_float t then Some (VF (double_bits (strtod (strip_separators lx))))
  else if is_tag t HIR_TYPE_CHAR then Some (VI (char_literal_value lx))
  else if cstr_eqb lx (lit "true") then Some (VI 1)
  else if cstr_eqb lx (lit "false") then Some (VI 0)
  else option_map (fun v => VI (s32 v)) (arche_int_lit lx).

(** Literals the back end reads as the language does: no separators in a float, no byte above 127 in
    a character, and an integer of at most 79 digits whose value fits 64 bits. *)
Definition lit_ok (t : HirType) (lx : cstr) : bool :=
  if is_float t then forallb (fun c => negb (Ascii.eqb c "_")) lx
  else if is_tag t HIR_TYPE_CHAR then
    Ascii.eqb (nth 0 lx NUL) QUOTE && (code (nth 1 lx NUL) <? 128)%Z
  else if cstr_eqb lx (lit "true") || cstr_eqb lx (lit "false") then true
  else
    (List.length lx <=? 79) &&
    match int_lit_value lx with Some v => (- 2 ^ 63 <? v)%Z && (v <? 2 ^ 63)%Z | None => false end.

(** ** The static check *)

Section Typing.
(** The program's constants, and the types of its scalar and array locals. *)
Variable consts : list (cstr * HirExpr).
Variable Gam : cstr -> option Z.
Variable Del : cstr -> option ArrTy.

Definition const_of (nm : cstr) : option (cstr * HirExpr) := find (fun c => cstr_eqb (fst c) nm) consts.

Definition name_of (e : HirExpr) : option cstr := match he_data e with HE_NAME n => Some n | _ => None end.

Definition array_of (e : HirExpr) : option ArrTy := match name_of e with Some n => Del n | None => None end.

Fixpoint wt_expr (e : HirExpr) : bool :=
  match e with
  | mkHirExpr _ t d =>
      match d with
      | HE_LITERAL lx => lit_ok t lx
      | HE_NAME nm =>
          match const_of nm with
          | Some (_, v) => (wg_wtype (he_resolved v) =? wg_wtype t)%Z
          | None => opt_is (Gam nm) (wg_wtype t)
          end
      | HE_BINARY op l r _ => wt_expr l && wt_expr r && bin_ok op (he_resolved l) (he_resolved r) t
      | HE_INDEX base [i] _ _ =>
          match array_of base with
          | Some a => wt_expr i && negb (is_float (he_resolved i)) && (wg_wtype t =? acc_wt (at_acc a))%Z
          | None => false
          end
      | HE_FIELD base (Some n) => cstr_eqb n (lit "length") && is_some (array_of base) && negb (is_float t)
      | _ => false
      end
  end.

(** A scalar, or an integer where a float is wanted. *)
Definition wt_as (wt : Z) (e : HirExpr) : bool :=
  wt_expr e && ((wg_wtype (he_resolved e) =? wt)%Z || ((wt =? WT_F64)%Z && plain (he_resolved e))).

(** The operator of an assignment: none, or arithmetic on a 32-bit integer or a float. *)
Definition op_ok (op : Operator) (wt : Z) (i32 : bool) : bool :=
  match op with
  | OP_NONE => true
  | OP_ADD | OP_SUB | OP_MUL | OP_DIV => (wt =? WT_F64)%Z || i32
  | OP_MOD => i32 && negb (wt =? WT_F64)%Z
  | _ => false
  end.

Definition no_backslash (s : cstr) : bool := forallb (fun c => negb (Ascii.eqb c BACKSLASH)) s.

Definition wt_arg (e : HirExpr) : bool :=
  match he_data e with
  | HE_STRING s => no_backslash s
  | _ => wt_expr e && negb (is_tag (he_resolved e) HIR_TYPE_CHAR_ARRAY)
  end.

(** The arguments of a print: at most 64 after the format. *)
Definition wt_print (args : list HirExpr) : bool :=
  match args with
  | fmt :: rest =>
      match he_data fmt with
      | HE_STRING s => no_backslash s && forallb wt_arg rest && (List.length rest <=? 64)
      | _ => false
      end
  | [] => false
  end.

Definition wt_bind (name : cstr) (type : option HirType) (value : option HirExpr) : bool :=
  match bind_array_type type value with
  | Some t =>
      negb (is_some (Gam name)) &&
      match arr_ty t, Del name with
      | Some a, Some a' =>
          acc_eqb (at_acc a) (at_acc a') && (at_total a =? at_total a')%Z &&
          match value with
          | Some v => match he_data v with
                      | HE_ARRAY_LITERAL es => forallb (wt_as (acc_wt (at_acc a))) es
                      | _ => false
                      end
          | None => true
          end
      | _, _ => false
      end
  | None =>
      negb (is_some (Del name)) && negb (is_some (const_of name)) &&
      match value with
      | Some v => wt_expr v && opt_is (Gam name) (wg_wtype (he_resolved v))
      | None => opt_is (Gam name) WT_I32
      end
  end.

Definition wt_assign (target value : HirExpr) (op : Operator) : bool :=
  match he_data target with
  | HE_INDEX base [i] _ _ =>
      match array_of base with
      | Some a =>
          let wt := acc_wt (at_acc a) in
          wt_expr i && negb (is_float (he_resolved i)) && wt_as wt value &&
          op_ok op wt (match at_acc a with A_i32 => true | _ => false end && int32 (he_resolved value))
      | None => false
      end
  | HE_NAME n =>
      let wt := wg_wtype (he_resolved target) in
      opt_is (Gam n) wt && negb (is_some (const_of n)) &&
      (match op with OP_NONE => wt_expr value && (wg_wtype (he_resolved value) =? wt)%Z | _ => wt_as wt value end) &&
      op_ok op wt (int32 (he_resolved target) && int32 (he_resolved value))
  | _ => false
  end.

Fixpoint wt_stmt (s : HirStmt) : bool :=
  match s with
  | mkHirStmt _ d =>
      let opt_ok o := match o with Some s => wt_stmt s | None => true end in
      match d with
      | HS_BIND name [] type value => wt_bind name type value
      | HS_ASSIGN target value op => wt_assign target value op
      | HS_FOR None None init cond incr body =>
          opt_ok init && match cond with Some c => wt_expr c && negb (is_float (he_resolved c)) | None => true end &&
          opt_ok incr && forallb wt_stmt body
      | HS_IF cond t e => wt_expr cond && negb (is_float (he_resolved cond)) && forallb wt_stmt t && forallb wt_stmt e
      | HS_EXPR e =>
          is_print_call (wg_unwrap_eff e) &&
          match he_data (wg_unwrap_eff e) with HE_CALL _ args _ _ => wt_print args | _ => false end
      | _ => false
      end
  end.

(** The arrays a statement declares. *)
Fixpoint array_names (s : HirStmt) : list cstr :=
  match s with
  | mkHirStmt _ d =>
      let of_opt o := match o with Some s => array_names s | None => [] end in
      match d with
      | HS_BIND name _ type value => match bind_array_type type value with Some _ => [name] | None => [] end
      | HS_FOR _ _ init _ incr body => of_opt init ++ flat_map array_names body ++ of_opt incr
      | HS_IF _ t e => flat_map array_names t ++ flat_map array_names e
      | _ => []
      end
  end.
End Typing.

(** ** Evaluation *)

(** The visible scalars and arrays, and the arrays bound at any time before. *)
Record Env : Type := mkEnv {
  e_scal : cstr -> option val;
  e_arr : cstr -> option (list val);
  e_seen : cstr -> bool
}.

Definition empty_env : Env := mkEnv (fun _ => None) (fun _ => None) (fun _ => false).

Definition upd {A} (f : cstr -> A) (x : cstr) (a : A) : cstr -> A := fun y => if cstr_eqb x y then a else f y.

Definition set_scal (r : Env) (x : cstr) (v : val) : Env := mkEnv (upd (e_scal r) x (Some v)) (e_arr r) (e_seen r).
Definition set_arr (r : Env) (x : cstr) (vs : list val) : Env := mkEnv (e_scal r) (upd (e_arr r) x (Some vs)) (e_seen r).
Definition bind_arr (r : Env) (x : cstr) (vs : list val) : Env :=
  mkEnv (e_scal r) (upd (e_arr r) x (Some vs)) (upd (e_seen r) x true).

(** The end of a scope: [r'] without the names [r] does not have. *)
Definition restrict (r r' : Env) : Env :=
  mkEnv (fun x => if is_some (e_scal r x) then e_scal r' x else None)
        (fun x => if is_some (e_arr r x) then e_arr r' x else None) (e_seen r').

(** What a print shows. *)
Inductive PArg : Type := PA_int (z : Z) | PA_float (bits : Z) | PA_text (s : list Z).
Inductive Print : Type := P_text (s : list Z) | P_fmt (fmt : list Z) (args : list PArg).

Section Eval.
Context `{F64Ops}.
Variable consts : list (cstr * HirExpr).
Variable Del : cstr -> option ArrTy.

Definition as_float (v : val) : Z := match v with VI z => fl_of_i32 z | VF b => b end.

(** The conjunction and the disjunction are of booleans. *)
Definition int_op (op : Operator) (a b : Z) : option Z :=
  let bools := (((a =? 0) || (a =? 1)) && ((b =? 0) || (b =? 1)))%Z in
  match op with
  | OP_ADD => Some (s32 (a + b))
  | OP_SUB => Some (s32 (a - b))
  | OP_MUL => Some (s32 (a * b))
  | OP_DIV => if (b =? 0) || ((a =? - 2 ^ 31) && (b =? -1)) then None else Some (Z.quot a b)
  | OP_MOD => if b =? 0 then None else Some (Z.rem a b)
  | OP_EQ => Some (b2z (a =? b))
  | OP_NEQ => Some (b2z (negb (a =? b)))
  | OP_LT => Some (b2z (a <? b))
  | OP_GT => Some (b2z (b <? a))
  | OP_LTE => Some (b2z (a <=? b))
  | OP_GTE => Some (b2z (b <=? a))
  | OP_AND => if bools then Some (b2z (negb (a =? 0) && negb (b =? 0))) else None
  | OP_OR => if bools then Some (b2z (negb (a =? 0) || negb (b =? 0))) else None
  | _ => None
  end%Z.

Definition float_op (op : Operator) (a b : Z) : option val :=
  match op with
  | OP_ADD => Some (VF (fl_add a b)) | OP_SUB => Some (VF (fl_sub a b))
  | OP_MUL => Some (VF (fl_mul a b)) | OP_DIV => Some (VF (fl_div a b))
  | OP_EQ => Some (VI (b2z (fl_eq a b))) | OP_NEQ => Some (VI (b2z (negb (fl_eq a b))))
  | OP_LT => Some (VI (b2z (fl_lt a b))) | OP_GT => Some (VI (b2z (fl_lt b a)))
  | OP_LTE => Some (VI (b2z (fl_le a b))) | OP_GTE => Some (VI (b2z (fl_le b a)))
  | _ => None
  end.

(** An operator on two values; an integer next to a float is converted. *)
Definition bin_op (op : Operator) (v w : val) : option val :=
  match v, w with
  | VI a, VI b => option_map VI (int_op op a b)
  | _, _ => float_op op (as_float v) (as_float w)
  end.

(** A value as an element of an array. *)
Definition as_elem (a : Acc) (v : val) : val :=
  match a, v with
  | A_f64, _ => VF (as_float v)
  | A_i8 s, VI z => VI (if s then signed 8 z else z mod 256)
  | A_i16 s, VI z => VI (if s then signed 16 z else z mod 65536)
  | _, _ => v
  end%Z.

Definition index_of (v : val) (vs : list val) : option nat :=
  match v with
  | VI i => if (0 <=? i)%Z && (i <? Z.of_nat (List.length vs))%Z then Some (Z.to_nat i) else None
  | VF _ => None
  end.

(** [fuel] bounds the chains of constants that refer to constants. *)
Fixpoint eval (fuel : nat) (r : Env) (e : HirExpr) : option val :=
  match fuel with
  | O => None
  | S f =>
      match he_data e with
      | HE_LITERAL lx => lit_value (he_resolved e) lx
      | HE_NAME nm => match const_of consts nm with Some (_, v) => eval f r v | None => e_scal r nm end
      | HE_BINARY op l r' _ =>
          match eval f r l, eval f r r' with Some v, Some w => bin_op op v w | _, _ => None end
      | HE_INDEX base [i] _ _ =>
          match name_of base with
          | Some x =>
              match e_arr r x, eval f r i with
              | Some vs, Some v => match index_of v vs with Some k => nth_error vs k | None => None end
              | _, _ => None
              end
          | None => None
          end
      | HE_FIELD base (Some n) =>
          match name_of base with
          | Some x => match e_arr r x with Some vs => Some (VI (Z.of_nat (List.length vs))) | None => None end
          | None => None
          end
      | _ => None
      end
  end.

Variable fuel : nat.

Fixpoint eval_list (r : Env) (es : list HirExpr) : option (list val) :=
  match es with
  | [] => Some []
  | e :: es' => match eval fuel r e, eval_list r es' with Some v, Some vs => Some (v :: vs) | _, _ => None end
  end.

Definition eval_arg (r : Env) (e : HirExpr) : option PArg :=
  match he_data e with
  | HE_STRING s => Some (PA_text (bytes_of s))
  | _ => option_map (fun v => match v with VI z => PA_int z | VF b => PA_float b end) (eval fuel r e)
  end.

Fixpoint eval_args (r : Env) (es : list HirExpr) : option (list PArg) :=
  match es with
  | [] => Some []
  | e :: es' => match eval_arg r e, eval_args r es' with Some v, Some vs => Some (v :: vs) | _, _ => None end
  end.

Definition eval_print (r : Env) (args : list HirExpr) : option Print :=
  match args with
  | fmt :: rest =>
      match he_data fmt with
      | HE_STRING s =>
          match rest with
          | [] => Some (P_text (bytes_of s))
          | _ => option_map (P_fmt (bytes_of s)) (eval_args r rest)
          end
      | _ => None
      end
  | [] => None
  end.

Definition zero_of (a : Acc) : val := match a with A_f64 => VF 0 | _ => VI 0 end.

Definition literal_elems (value : option HirExpr) : list HirExpr :=
  match value with
  | Some v => match he_data v with HE_ARRAY_LITERAL es => es | _ => [] end
  | None => []
  end.

(** A binding of a name that is not visible. The elements an array literal leaves out are zero;
    a binding that runs again has to give all of them. *)
Definition eval_bind (r : Env) (name : cstr) (type : option HirType) (value : option HirExpr) : option Env :=
  if is_some (e_scal r name) || is_some (e_arr r name) then None
  else
    match bind_array_type type value, Del name with
    | Some _, Some a =>
        let es := firstn (Z.to_nat (at_total a)) (literal_elems value) in
        let missing := Z.to_nat (at_total a) - List.length es in
        if e_seen r name && negb (missing =? 0) then None
        else
          match eval_list r es with
          | Some vs => Some (bind_arr r name (map (as_elem (at_acc a)) vs ++ repeat (zero_of (at_acc a)) missing))
          | None => None
          end
    | Some _, None => None
    | None, _ =>
        match value with
        | Some v => option_map (set_scal r name) (eval fuel r v)
        | None => Some (set_scal r name (VI 0))
        end
    end.

Definition assigned (op : Operator) (old new : val) : option val :=
  match op with OP_NONE => Some new | _ => bin_op op old new end.

Definition eval_assign (r : Env) (target value : HirExpr) (op : Operator) : option Env :=
  match he_data target with
  | HE_INDEX base [i] _ _ =>
      match name_of base with
      | Some x =>
          match e_arr r x, Del x, eval fuel r i, eval fuel r value with
          | Some vs, Some a, Some vi, Some v =>
              match index_of vi vs with
              | Some k =>
                  match nth_error vs k with
                  | Some old => option_map (fun w => set_arr r x (set_at vs k (as_elem (at_acc a) w))) (assigned op old v)
                  | None => None
                  end
              | None => None
              end
          | _, _, _, _ => None
          end
      | None => None
      end
  | HE_NAME x =>
      match e_scal r x, eval fuel r value with
      | Some old, Some v => option_map (set_scal r x) (assigned op old v)
      | _, _ => None
      end
  | _ => None
  end.

(** The turns of a loop: [test] says whether to go on, [turn] is the body and the increment. *)
Fixpoint loop (test : Env -> option bool) (turn : Env -> option (Env * list Print)) (m : nat) (r : Env) : option (Env * list Print) :=
  match m with
  | O => None
  | S m' =>
      match test r with
      | Some false => Some (r, [])
      | Some true =>
          match turn r with
          | Some (r1, o1) => match loop test turn m' (restrict r r1) with Some (r2, o2) => Some (r2, o1 ++ o2) | None => None end
          | None => None
          end
      | None => None
      end
  end.

Definition truth (o : option val) : option bool :=
  match o with Some (VI z) => Some (negb (z =? 0)%Z) | _ => None end.

Definition then_ (a : option (Env * list Print)) (k : Env -> option (Env * list Print)) : option (Env * list Print) :=
  match a with
  | Some (r, o) => match k r with Some (r', o') => Some (r', o ++ o') | None => None end
  | None => None
  end.

Definition scoped (r : Env) (a : option (Env * list Print)) : option (Env * list Print) :=
  match a with Some (r', o) => Some (restrict r r', o) | None => None end.

(** [n] bounds the turns of each loop. *)
Fixpoint sem (n : nat) (s : HirStmt) (r : Env) : option (Env * list Print) :=
  let sems := fix sems (l : list HirStmt) (r : Env) : option (Env * list Print) :=
    match l with [] => Some (r, []) | s :: l' => then_ (sem n s r) (sems l') end in
  let opt_sem o r := match o with Some s => sem n s r | None => Some (r, []) end in
  match s with
  | mkHirStmt _ d =>
      match d with
      | HS_BIND name _ type value => option_map (fun r' => (r', [])) (eval_bind r name type value)
      | HS_ASSIGN target value op => option_map (fun r' => (r', [])) (eval_assign r target value op)
      | HS_FOR _ _ init cond incr body =>
          scoped r (then_ (opt_sem init r)
            (loop (fun r => match cond with Some c => truth (eval fuel r c) | None => Some true end)
                  (fun r => then_ (scoped r (sems body r)) (opt_sem incr)) n))
      | HS_IF cond t e =>
          match truth (eval fuel r cond) with
          | Some true => scoped r (sems t r)
          | Some false => scoped r (sems e r)
          | None => None
          end
      | HS_EXPR e =>
          match he_data (wg_unwrap_eff e) with
          | HE_CALL _ args _ _ => option_map (fun p => (r, [p])) (eval_print r args)
          | _ => None
          end
      | _ => None
      end
  end.

Fixpoint sem_seq (n : nat) (l : list HirStmt) (r : Env) : option (Env * list Print) :=
  match l with [] => Some (r, []) | s :: l' => then_ (sem n s r) (sem_seq n l') end.
End Eval.

(** ** Programs *)

(** The statements of a system without parameters; no list for any other declaration. *)
Definition decl_system (d : HirDecl) : list (list HirStmt) :=
  match hd_data d with
  | HD_KERNEL k => match hk_kind k, hk_params k with HIR_KERNEL_SYSTEM, [] => [hk_stmts k] | _, _ => [] end
  | _ => []
  end.

(** The systems the static check covers: all those without parameters, when the program has a [#run].
    They are the ones the back end puts in the module, in the order of their declarations. Which of
    them run, and in which order, is the schedule's business, below. *)
Definition declared_systems (p : HirProgram) : list (list HirStmt) :=
  if existsb is_run (hir_decls p) then flat_map decl_system (hir_decls p) else [].

(** The constants the back end records. *)
Definition consts_of (p : HirProgram) : list (cstr * HirExpr) := wg_consts (fold_left add_const (hir_decls p) wg_start).

Definition wt_program (Gam : cstr -> option Z) (Del : cstr -> option ArrTy) (p : HirProgram) : bool :=
  forallb (fun c => wt_expr (consts_of p) Gam Del (snd c)) (consts_of p) &&
  forallb (forallb (wt_stmt (consts_of p) Gam Del)) (declared_systems p).

Fixpoint distinct (l : list cstr) : bool :=
  match l with [] => true | x :: r => negb (existsb (cstr_eqb x) r) && distinct r end.

(** No two declarations of an array share a name. *)
Definition arrays_distinct (p : HirProgram) : bool := distinct (flat_map (flat_map array_names) (declared_systems p)).

(** The systems run one after the other, each in a scope of its own. *)
Fixpoint run_systems `{F64Ops} (p : HirProgram) (Del : cstr -> option ArrTy) (fuel n : nat) (l : list (list HirStmt)) (r : Env) :
    option (Env * list Print) :=
  match l with
  | [] => Some (r, [])
  | s :: l' => then_ (scoped r (sem_seq (consts_of p) Del fuel n s r)) (run_systems p Del fuel n l')
  end.

(** ** Schedules

    The program is its declarations plus one [#run] schedule, folded to a tree, and the schedule
    decides what runs and in which order: a leaf runs the named declaration, [seq] and [par] their
    children in order, [loop] its child again and again, [halt] ends the run. *)

(** The names a walk of the tree runs, in order, and whether it ends at a [halt]. [None] for a walk that
    never ends - a [loop] whose body does not halt - and for [when], which asks a predicate. *)
Fixpoint walk (t : ScheduleTree) : option (list cstr * bool) :=
  match t with
  | mkSched k sym cs =>
      match k with
      | SCHED_RUN => option_map (fun s => ([s], false)) sym
      | SCHED_SEQ | SCHED_PAR =>
          (fix seq (cs : list ScheduleTree) : option (list cstr * bool) :=
             match cs with
             | [] => Some ([], false)
             | c :: r =>
                 match walk c with
                 | Some (l, true) => Some (l, true)
                 | Some (l, false) => option_map (fun q => (l ++ fst q, snd q)) (seq r)
                 | None => None
                 end
             end) cs
      | SCHED_LOOP => match cs with c :: _ => match walk c with Some (l, true) => Some (l, true) | _ => None end | [] => None end
      | SCHED_HALT => Some ([], true)
      | SCHED_WHEN => None
      | SCHED_GPU_SYNC | SCHED_GPU_UPLOAD => Some ([], false)
      end
  end.

(** The part of a name after its last dot. *)
Fixpoint tail_name (nm rest : cstr) : cstr :=
  match rest with [] => nm | c :: r => if Ascii.eqb c "." then tail_name r r else tail_name nm r end.

Fixpoint index_where {A} (q : A -> bool) (l : list A) : option nat :=
  match l with [] => None | x :: r => if q x then Some 0 else option_map S (index_where q r) end.

(** The declaration a leaf names: the first kernel with the name, or with its part after the dot. *)
Definition find_scheduled (ds : list HirDecl) (nm : cstr) : option nat :=
  index_where (fun d =>
    match hd_data d with
    | HD_KERNEL k => match hk_name k with Some x => cstr_eqb x nm || cstr_eqb x (tail_name nm nm) | None => false end
    | _ => false
    end) ds.

Fixpoint all_some {A B} (f : A -> option B) (l : list A) : option (list B) :=
  match l with
  | [] => Some []
  | x :: r => match f x, all_some f r with Some y, Some ys => Some (y :: ys) | _, _ => None end
  end.

(** The declarations the first [#run] of the program runs, in order; none without a schedule. *)
Definition scheduled (p : HirProgram) : option (list nat) :=
  match find is_run (hir_decls p) with
  | Some d =>
      match hd_data d with
      | HD_RUN (Some t) _ => match walk t with Some (names, _) => all_some (find_scheduled (hir_decls p)) names | None => None end
      | _ => Some []
      end
  | None => Some []
  end.

(** A scheduled declaration has a meaning here when it is a system without parameters. *)
Definition system_at (ds : list HirDecl) (i : nat) : option (list HirStmt) :=
  match nth_error ds i with Some d => match decl_system d with [s] => Some s | _ => None end | None => None end.

Definition scheduled_systems (p : HirProgram) : option (list (list HirStmt)) :=
  match scheduled p with Some order => all_some (system_at (hir_decls p)) order | None => None end.

(** The texts a program prints: those of the scheduled systems, in the schedule's order. *)
Definition run_program `{F64Ops} (Del : cstr -> option ArrTy) (fuel n : nat) (p : HirProgram) : option (list Print) :=
  match scheduled_systems p with
  | Some l => option_map snd (run_systems p Del fuel n l empty_env)
  | None => None
  end.

(** The texts of all systems without parameters, once each in the order of their declarations. *)
Definition run_declared `{F64Ops} (Del : cstr -> option ArrTy) (fuel n : nat) (p : HirProgram) : option (list Print) :=
  option_map snd (run_systems p Del fuel n (declared_systems p) empty_env).

(** The declarations with a system without parameters, from index [i] on. *)
Fixpoint system_indices (ds : list HirDecl) (i : nat) : list nat :=
  match ds with
  | [] => []
  | d :: r => match decl_system d with [_] => i :: system_indices r (S i) | _ => system_indices r (S i) end
  end.

(** The schedule runs every system without parameters once, in the order of their declarations. *)
Definition schedule_in_order (p : HirProgram) : bool :=
  match scheduled p with
  | Some order => if list_eq_dec Nat.eq_dec order (if existsb is_run (hir_decls p) then system_indices (hir_decls p) 0 else []) then true else false
  | None => false
  end.

Lemma decl_system_cases d : decl_system d = [] \/ exists s, decl_system d = [s].
Proof.
  unfold decl_system. destruct (hd_data d); auto. destruct (hk_kind kernel); auto. destruct (hk_params kernel); eauto.
Qed.

Lemma systems_at_indices ds pre :
  all_some (system_at (pre ++ ds)) (system_indices ds (List.length pre)) = Some (flat_map decl_system ds).
Proof.
  revert pre; induction ds as [|d ds IH]; intros pre; [reflexivity|]. cbn [system_indices flat_map].
  specialize (IH (pre ++ [d])). rewrite <- app_assoc, length_app in IH. cbn [app List.length] in IH. rewrite Nat.add_1_r in IH.
  destruct (decl_system_cases d) as [E|[s E]]; rewrite E; [exact IH|]. cbn [all_some app].
  unfold system_at at 1. rewrite nth_error_app2, Nat.sub_diag by lia. cbn [nth_error]. now rewrite E, IH.
Qed.

(** Such a schedule runs what the back end puts in the module. *)
Lemma in_order_systems p : schedule_in_order p = true -> scheduled_systems p = Some (declared_systems p).
Proof.
  unfold schedule_in_order, scheduled_systems, declared_systems. destruct (scheduled p) as [order|]; [|discriminate].
  destruct (list_eq_dec _ _ _) as [->|]; [|discriminate]. intros _. destruct (existsb is_run (hir_decls p)); [|reflexivity].
  exact (systems_at_indices (hir_decls p) []).
Qed.
