(* ===== verification/WasmGenFacts.v ===== *)
(** * Lemmas on the WebAssembly generator

    How the emitter's state grows, which instructions each routine appends, how they decode, and what
    the machine does with them; the layout of the local arrays in the memory. *)

From Stdlib Require Import SpecFloat.
From S2P Require Import Prelude Hir Lexer LexerFacts WasmEncode WasmProps WasmGen WasmSem HirSem.

(** ** Machine integers *)

Definition i32_range (z : Z) : Prop := (- 2 ^ 31 <= z < 2 ^ 31)%Z.
Definition f64_range (z : Z) : Prop := (0 <= z < 2 ^ 64)%Z.

Lemma s32_id z : i32_range z -> s32 z = z.
Proof.
  unfold i32_range, s32. intros H. cbn zeta. destruct (Z.ltb_spec (z mod 2 ^ 32) (2 ^ 31)) as [Hlt|Hge].
  - destruct (Z.neg_nonneg_cases z) as [Hn|Hp].
    + rewrite <- (Z.mod_add z 1) in Hlt by lia. rewrite Z.mod_small in Hlt by lia. lia.
    + now rewrite Z.mod_small by lia.
  - destruct (Z.neg_nonneg_cases z) as [Hn|Hp].
    + rewrite <- (Z.mod_add z 1) by lia. rewrite Z.mod_small by lia. lia.
    + rewrite Z.mod_small in Hge by lia. lia.
Qed.

Lemma s32_in z : i32_range (s32 z).
Proof. exact (s32_range z). Qed.

Lemma s32_of_mod a b : (a mod 2 ^ 32 = b mod 2 ^ 32)%Z -> s32 a = s32 b.
Proof. unfold s32. now intros ->. Qed.

Lemma s32_s64 z : s32 (s64 z) = s32 z.
Proof.
  apply s32_of_mod. unfold s64. cbn zeta.
  assert (E : ((z mod 2 ^ 64) mod 2 ^ 32 = z mod 2 ^ 32)%Z).
  { replace (2 ^ 64)%Z with (2 ^ 32 * 2 ^ 32)%Z by lia. rewrite Z.rem_mul_r by lia.
    rewrite (Z.mul_comm (2 ^ 32)), Z.mod_add by lia. apply Z.mod_mod. lia. }
  destruct (z mod 2 ^ 64 <? 2 ^ 63)%Z; [exact E|].
  replace (z mod 2 ^ 64 - 2 ^ 64)%Z with (z mod 2 ^ 64 + (- 2 ^ 32) * 2 ^ 32)%Z by lia. now rewrite Z.mod_add by lia.
Qed.

Lemma signed_range bits z : (0 < bits)%Z -> (- 2 ^ (bits - 1) <= signed bits z < 2 ^ (bits - 1))%Z.
Proof.
  intros Hb. unfold signed. cbn zeta.
  assert (E : (2 ^ bits = 2 * 2 ^ (bits - 1))%Z).
  { rewrite <- Z.pow_succ_r by lia. f_equal. lia. }
  pose proof (Z.mod_pos_bound z (2 ^ bits) ltac:(lia)).
  destruct (Z.ltb_spec (z mod 2 ^ bits) (2 ^ (bits - 1))); lia.
Qed.

Lemma b2z_range b : i32_range (b2z b).
Proof. unfold i32_range. destruct b; cbn; lia. Qed.

(** ** Values *)

Definition value_ok (v : val) : Prop := match v with VI z => i32_range z | VF b => f64_range b end.

(** The results of the floating operations are 64-bit patterns. *)
Class F64Law `{F64Ops} : Prop := {
  fl_add_range a b : f64_range (fl_add a b);
  fl_sub_range a b : f64_range (fl_sub a b);
  fl_mul_range a b : f64_range (fl_mul a b);
  fl_div_range a b : f64_range (fl_div a b);
  fl_of_i32_range a : f64_range (fl_of_i32 a)
}.

#[export] Hint Resolve b2z_range s32_in fl_add_range fl_sub_range fl_mul_range fl_div_range fl_of_i32_range : arche.

(** ** Bytes *)

Lemma le_bytes_length n z : List.length (le_bytes n z) = n.
Proof. revert z; induction n as [|n IH]; intros z; cbn; [reflexivity|now rewrite IH]. Qed.

Lemma of_le_bytes n z : of_bytes (le_bytes n z) = (z mod 256 ^ Z.of_nat n)%Z.
Proof.
  revert z; induction n as [|n IH]; intros z; [cbn; now rewrite Z.mod_1_r|].
  cbn [le_bytes of_bytes]. rewrite IH. replace (256 ^ Z.of_nat (S n))%Z with (256 * 256 ^ Z.of_nat n)%Z
    by (rewrite Nat2Z.inj_succ, Z.pow_succ_r; lia).
  rewrite Z.rem_mul_r by lia. reflexivity.
Qed.

Lemma map_nth_seq {A} (l : list A) d : map (fun k => nth k l d) (seq 0 (List.length l)) = l.
Proof.
  induction l as [|x l IH]; [reflexivity|]. cbn [List.length seq map nth]. f_equal.
  rewrite <- seq_shift, map_map. exact IH.
Qed.

Lemma read_write m a l : read_mem (write_mem m a l) a (List.length l) = l.
Proof.
  transitivity (map (fun k => nth k l 0%Z) (seq 0 (List.length l))); [|apply map_nth_seq].
  unfold read_mem, write_mem. apply map_ext_in. intros k Hk. apply in_seq in Hk.
  destruct (Z.leb_spec a (a + Z.of_nat k)); [|lia]. destruct (Z.ltb_spec (a + Z.of_nat k) (a + Z.of_nat (List.length l))); [|lia].
  cbn [andb]. f_equal. lia.
Qed.

Lemma write_outside m a l x : (x < a \/ a + Z.of_nat (List.length l) <= x)%Z -> write_mem m a l x = m x.
Proof.
  intros H. unfold write_mem. destruct (Z.leb_spec a x), (Z.ltb_spec x (a + Z.of_nat (List.length l))); cbn; try reflexivity; lia.
Qed.

Lemma read_ext m m' a n : (forall x, a <= x < a + Z.of_nat n -> m x = m' x)%Z -> read_mem m a n = read_mem m' a n.
Proof.
  intros H. unfold read_mem. apply map_ext_in. intros k Hk. apply in_seq in Hk. apply H. lia.
Qed.

Lemma Forall2_nth {A B} (P : A -> B -> Prop) l m i x y :
  Forall2 P l m -> nth_error l i = Some x -> nth_error m i = Some y -> P x y.
Proof.
  intros F. revert i; induction F as [|a b l m Hab _ IH]; intros [|i] Hx Hy; try discriminate.
  - now injection Hx as <-; injection Hy as <-.
  - exact (IH i Hx Hy).
Qed.

(** ** The instruction format *)

Section InstrInd.
Variable P : Instr -> Prop.
Hypothesis leaf : forall i, match i with I_block _ | I_loop _ | I_if _ _ => True | _ => P i end.
Hypothesis block : forall b, Forall P b -> P (I_block b).
Hypothesis loop_ : forall b, Forall P b -> P (I_loop b).
Hypothesis if_ : forall t e, Forall P t -> match e with Some e => Forall P e | None => True end -> P (I_if t e).

Fixpoint instr_ind' (i : Instr) : P i :=
  let all := fix all (l : list Instr) : Forall P l :=
    match l with [] => Forall_nil P | i :: r => Forall_cons i (instr_ind' i) (all r) end in
  match i with
  | I_block b => block b (all b)
  | I_loop b => loop_ b (all b)
  | I_if t e => if_ t e (all t) (match e with Some e => all e | None => I end)
  | i => leaf i
  end.
End InstrInd.

(** The immediates the format can hold; a narrow store has no sign. *)
Fixpoint wf_instr (i : Instr) : bool :=
  match i with
  | I_const v => (- 2 ^ 63 <=? v)%Z && (v <? 2 ^ 63)%Z
  | I_fconst b => (0 <=? b)%Z && (b <? 2 ^ 64)%Z
  | I_get n | I_set n | I_br n | I_br_if n => (Z.of_nat n <? 2 ^ 64)%Z
  | I_call f => (0 <=? f)%Z && (f <? 2 ^ 64)%Z
  | I_store (A_i8 s) | I_store (A_i16 s) => negb s
  | I_block b | I_loop b => forallb wf_instr b
  | I_if t e => forallb wf_instr t && match e with Some e => forallb wf_instr e | None => true end
  | _ => true
  end.

Definition wf_code (c : list Instr) : bool := forallb wf_instr c.

(** The opcode [i] starts with, and the rest of its encoding. *)
Definition decodes (i : Instr) : Prop :=
  wf_instr i = true -> exists b l,
    enc i = b :: l /\ b <> 11%Z /\ b <> 5%Z /\
    forall f r, List.length (enc i) <= f -> d_instr (d_seq f) b (l ++ r) = Some (i, r).

Lemma seq_decode c t r f :
  Forall decodes c -> wf_code c = true -> t = 11%Z \/ t = 5%Z -> List.length (enc_seq c) < f ->
  d_seq f (enc_seq c ++ t :: r) = Some ((c, t), r).
Proof.
  intros Hc. revert f. induction Hc as [|i c Hi _ IH]; intros f Hw Ht Hf.
  - destruct f as [|f]; [cbn in Hf; lia|]. cbn. destruct Ht as [-> | ->]; reflexivity.
  - apply andb_true_iff in Hw as [Hw Hw']. destruct (Hi Hw) as (b & l & E & N1 & N2 & D).
    destruct f as [|f]; [lia|]. unfold enc_seq in *. cbn [flat_map] in *. rewrite length_app in Hf.
    assert (L : 0 < List.length (enc i)) by (rewrite E; cbn; lia).
    rewrite E. cbn [d_seq app]. unfold d_bind at 1. cbn [d_byte].
    destruct (Z.eqb_spec b 11); [contradiction|]. destruct (Z.eqb_spec b 5); [contradiction|]. cbn [orb].
    unfold d_bind at 1. rewrite <- app_assoc, D by lia. unfold d_bind. rewrite IH; [reflexivity|assumption|assumption|lia].
Qed.

Lemma nat_decode {B} n (k : nat -> D B) r : (Z.of_nat n < 2 ^ 64)%Z -> d_bind d_nat k (leb_u (Z.of_nat n) ++ r) = k n r.
Proof.
  intros H. unfold d_nat, d_bind. rewrite leb_u_decode by lia. cbn. now rewrite Nat2Z.id.
Qed.

(** The cases of an instruction with its opcode fixed. *)
Ltac decode_leaf :=
  eexists _, _; refine (conj eq_refl (conj _ (conj _ _))); [discriminate|discriminate|]; intros fu r _.

Lemma instr_decode i : decodes i.
Proof.
  revert i. apply instr_ind'.
  - intros i. destruct i; try exact I; intros Hw; cbn [wf_instr] in Hw.
    + decode_leaf. bool_hyps. apply Z.leb_le in H. apply Z.ltb_lt in H0. cbn -[leb_s]. unfold d_bind.
      now rewrite leb_s_decode by lia.
    + decode_leaf. bool_hyps. apply Z.leb_le in H. apply Z.ltb_lt in H0. unfold d_instr. cbn [Z.eqb Pos.eqb].
      unfold d_bind. rewrite <- (le_bytes_length 8 bits) at 1. rewrite take_ok. unfold d_ret.
      rewrite of_le_bytes. change (256 ^ Z.of_nat 8)%Z with (2 ^ 64)%Z. now rewrite Z.mod_small by lia.
    + decode_leaf. apply Z.ltb_lt in Hw. unfold d_instr. cbn [Z.eqb Pos.eqb]. now rewrite nat_decode.
    + decode_leaf. apply Z.ltb_lt in Hw. unfold d_instr. cbn [Z.eqb Pos.eqb]. now rewrite nat_decode.
    + destruct o; decode_leaf; reflexivity.
    + destruct o; decode_leaf; reflexivity.
    + decode_leaf; reflexivity.
    + decode_leaf; reflexivity.
    + destruct a as [|[]|[]|]; decode_leaf; reflexivity.
    + destruct a as [|[]|[]|]; try discriminate; decode_leaf; reflexivity.
    + decode_leaf. bool_hyps. apply Z.leb_le in H. apply Z.ltb_lt in H0. cbn -[leb_u]. unfold d_bind.
      now rewrite leb_u_decode by lia.
    + decode_leaf. apply Z.ltb_lt in Hw. unfold d_instr. cbn [Z.eqb Pos.eqb]. now rewrite nat_decode.
    + decode_leaf. apply Z.ltb_lt in Hw. unfold d_instr. cbn [Z.eqb Pos.eqb]. now rewrite nat_decode.
  - intros b Hb Hw. exists 2%Z, ([64%Z] ++ enc_seq b ++ [11%Z]). refine (conj eq_refl (conj _ (conj _ _))); [discriminate|discriminate|].
    intros f r Hf. change (enc (I_block b)) with (2%Z :: [64%Z] ++ enc_seq b ++ [11%Z]) in Hf. cbn [List.length app] in Hf.
    rewrite length_app in Hf. cbn [List.length] in Hf. unfold d_instr. cbn [Z.eqb Pos.eqb]. rewrite <- !app_assoc. cbn [app].
    rewrite tag_ok. unfold d_bind. rewrite seq_decode; [reflexivity|exact Hb|exact Hw|now left|lia].
  - intros b Hb Hw. exists 3%Z, ([64%Z] ++ enc_seq b ++ [11%Z]). refine (conj eq_refl (conj _ (conj _ _))); [discriminate|discriminate|].
    intros f r Hf. change (enc (I_loop b)) with (3%Z :: [64%Z] ++ enc_seq b ++ [11%Z]) in Hf. cbn [List.length app] in Hf.
    rewrite length_app in Hf. cbn [List.length] in Hf. unfold d_instr. cbn [Z.eqb Pos.eqb]. rewrite <- !app_assoc. cbn [app].
    rewrite tag_ok. unfold d_bind. rewrite seq_decode; [reflexivity|exact Hb|exact Hw|now left|lia].
  - intros t e Ht He Hw. cbn [wf_instr] in Hw. apply andb_true_iff in Hw as [Hwt Hwe].
    exists 4%Z, ([64%Z] ++ enc_seq t ++ (match e with Some e => [5%Z] ++ enc_seq e | None => [] end) ++ [11%Z]).
    refine (conj eq_refl (conj _ (conj _ _))); [discriminate|discriminate|]. intros f r Hf.
    change (enc (I_if t e)) with
      (4%Z :: [64%Z] ++ enc_seq t ++ (match e with Some e => [5%Z] ++ enc_seq e | None => [] end) ++ [11%Z]) in Hf.
    cbn [List.length app] in Hf. rewrite !length_app in Hf. cbn [List.length] in Hf.
    unfold d_instr. cbn [Z.eqb Pos.eqb]. rewrite <- !app_assoc. cbn [app]. rewrite tag_ok. destruct e as [e|].
    + cbn [List.length app] in *. unfold d_bind.
      rewrite seq_decode; [|exact Ht|exact Hwt|now right|lia]. cbn [snd fst Z.eqb Pos.eqb app].
      rewrite seq_decode; [reflexivity|exact He|exact Hwe|now left|lia].
    + cbn [app]. unfold d_bind. rewrite seq_decode; [reflexivity|exact Ht|exact Hwt|now left|cbn [List.length] in Hf; lia].
Qed.

Lemma body_decode c : wf_code c = true -> decode_body (enc_seq c ++ [11%Z]) = Some c.
Proof.
  intros Hw. unfold decode_body. rewrite seq_decode; [reflexivity| |exact Hw|now left|rewrite length_app; cbn; lia].
  apply Forall_forall. intros i _. apply instr_decode.
Qed.

(** ** Growth of the emitter's state *)

(** [g'] extends [g]: the tables only grow at their end, the rest stays. *)
Record ext (g g' : Wg) : Prop := mkExt {
  ex_locals : exists l, wg_locals g' = wg_locals g ++ l;
  ex_arrays : exists l, wg_arrays g' = wg_arrays g ++ l;
  ex_strings : exists l, wb_data (wg_strings g') = wb_data (wg_strings g) ++ l;
  ex_fixed : (wg_m g', wg_consts g', wg_strings_base g', wg_args_base g', wg_f_print g', wg_f_printf g') =
             (wg_m g, wg_consts g, wg_strings_base g, wg_args_base g, wg_f_print g, wg_f_printf g);
  ex_count : wg_local_count g <= wg_local_count g'
}.

Lemma ext_refl g : ext g g.
Proof. split; try (exists []; now rewrite app_nil_r); auto. Qed.

Lemma ext_trans a b c : ext a b -> ext b c -> ext a c.
Proof.
  intros [[l1 L1] [a1 A1] [s1 S1] F1 C1] [[l2 L2] [a2 A2] [s2 S2] F2 C2]. split.
  - exists (l1 ++ l2). now rewrite L2, L1, app_assoc.
  - exists (a1 ++ a2). now rewrite A2, A1, app_assoc.
  - exists (s1 ++ s2). now rewrite S2, S1, app_assoc.
  - congruence.
  - lia.
Qed.

(** [g'] is [g] with [code] appended to the body. *)
Definition emits (g g' : Wg) (code : list Instr) : Prop :=
  ext g g' /\ wb_data (wg_body g') = wb_data (wg_body g) ++ enc_seq code.

Lemma emits_nil g : emits g g [].
Proof. split; [apply ext_refl|]. cbn. now rewrite app_nil_r. Qed.

Lemma enc_seq_app c d : enc_seq (c ++ d) = enc_seq c ++ enc_seq d.
Proof. unfold enc_seq. now rewrite flat_map_app. Qed.

Lemma emits_app a b c x y : emits a b x -> emits b c y -> emits a c (x ++ y).
Proof.
  intros [E1 D1] [E2 D2]. split; [now apply (ext_trans a b c)|]. now rewrite D2, D1, enc_seq_app, app_assoc.
Qed.

Lemma ext_body g b : ext g (set_body b g).
Proof. split; try (exists []; cbn; now rewrite app_nil_r); auto. Qed.

Lemma put_emits g vs code : vs = enc_seq code -> emits g (put vs g) code.
Proof. intros ->. split; [apply ext_body|]. cbn. apply each_data. Qed.

Lemma const_emits g v : emits g (g_const v g) [I_const (s32 v)].
Proof.
  split; [apply ext_body|]. unfold g_const, emit_const, enc_seq. cbn [wg_body set_body flat_map enc].
  rewrite wb_i_data, byte_data, s64_signed, app_nil_r, <- app_assoc.
  - reflexivity.
  - pose proof (s32_range v). lia.
Qed.

Lemma fconst_emits g d :
  emits g (set_body (emit_fconst (wg_body g) d) g) [I_fconst (double_bits d)].
Proof.
  split; [apply ext_body|]. unfold emit_fconst, enc_seq. cbn [wg_body set_body flat_map enc].
  now rewrite bytes_data, byte_data, app_nil_r, <- app_assoc.
Qed.

Lemma leb_u64 b v : small v -> wb_data (wb_u b v) = wb_data b ++ leb_u v.
Proof. intros H. now rewrite wb_u_data, u64_small. Qed.

Lemma get_emits g i : small (Z.of_nat i) -> emits g (g_get i g) [I_get i].
Proof.
  intros H. split; [apply ext_body|]. unfold g_get, emit_local_get, enc_seq. cbn [wg_body set_body flat_map enc].
  rewrite leb_u64, byte_data, app_nil_r, <- app_assoc; auto.
Qed.

Lemma set_emits g i : small (Z.of_nat i) -> emits g (g_set i g) [I_set i].
Proof.
  intros H. split; [apply ext_body|]. unfold g_set, emit_local_set, enc_seq. cbn [wg_body set_body flat_map enc].
  rewrite leb_u64, byte_data, app_nil_r, <- app_assoc; auto.
Qed.

Lemma call_emits g f : small f -> emits g (emit_call f g) [I_call f].
Proof.
  intros H. split; [apply ext_body|]. unfold emit_call, enc_seq. cbn [wg_body set_body flat_map enc].
  rewrite leb_u64, byte_data, app_nil_r, <- app_assoc; auto.
Qed.

(** ** Locals *)

Lemma local_find_app ls l name k i : local_find ls name k = Some i -> local_find (ls ++ l) name k = Some i.
Proof.
  revert k; induction ls as [|x ls IH]; cbn; intros k; [discriminate|]. destruct (cstr_eqb (wl_name x) name); auto.
Qed.

Lemma local_find_new ls l name wt k : local_find ls name k = None ->
  local_find ((ls ++ [mkLocal name wt]) ++ l) name k = Some (k + List.length ls).
Proof.
  revert k; induction ls as [|x ls IH]; cbn; intros k.
  - rewrite cstr_eqb_refl. intros _. f_equal. lia.
  - destruct (cstr_eqb (wl_name x) name); [discriminate|]. intros H. rewrite IH by exact H. f_equal. lia.
Qed.

Lemma local_find_nth ls name k i :
  local_find ls name k = Some i -> k <= i /\ exists l, nth_error ls (i - k) = Some l /\ wl_name l = name.
Proof.
  revert k; induction ls as [|x ls IH]; cbn; intros k; [discriminate|].
  destruct (cstr_eqb (wl_name x) name) eqn:E.
  - intros [= <-]. split; [lia|]. exists x. rewrite Nat.sub_diag. split; [reflexivity|now apply cstr_eqb_eq].
  - intros H. apply IH in H as (Hk & l & Hn & Hl). split; [lia|]. exists l. split; [|exact Hl].
    replace (i - k) with (S (i - S k)) by lia. exact Hn.
Qed.

(** The locals are stored, and each has the type [Gam] gives its name. *)
Record locals_ok (Gam : cstr -> option Z) (g : Wg) : Prop := mkLocalsOk {
  lo_count : wg_local_count g = List.length (wg_locals g);
  lo_bound : wg_local_count g <= 256;
  lo_types : Forall (fun l => Gam (wl_name l) = Some (wl_wt l)) (wg_locals g)
}.

Lemma wg_local_ok Gam name wt g i g' :
  locals_ok Gam g -> Gam name = Some wt -> wg_local name wt g = Ok (i, g') -> wg_local_count g' <= 256 ->
  emits g g' [] /\ locals_ok Gam g' /\ wg_arrays g' = wg_arrays g /\ wg_arrays_cursor g' = wg_arrays_cursor g /\
  wb_data (wg_strings g') = wb_data (wg_strings g) /\
  local_find (wg_locals g') name 0 = Some i.
Proof.
  intros [Hc Hb Ht] HG. unfold wg_local. destruct (local_find (wg_locals g) name 0) as [j|] eqn:F.
  - intros [= <- <-] _. repeat (split; [auto using emits_nil|]). { now split. } auto.
  - destruct (Nat.ltb_spec WG_MAX_LOCALS (wg_local_count g)); [discriminate|]. intros [= <- <-] Hn.
    cbn [wg_local_count set_locals] in Hn. unfold WG_MAX_LOCALS in *.
    destruct (Nat.ltb_spec (wg_local_count g) 256); [|lia].
    assert (L : local_find (wg_locals g ++ [mkLocal name wt]) name 0 = Some (wg_local_count g)).
    { rewrite <- (app_nil_r (_ ++ _)), local_find_new by exact F. now rewrite Hc. }
    repeat split; cbn [wg_local_count wg_locals wg_arrays wg_strings wg_arrays_cursor set_locals wg_body]; auto.
    + now exists [mkLocal name wt].
    + exists []. now rewrite app_nil_r.
    + exists []. now rewrite app_nil_r.
    + now rewrite app_nil_r.
    + rewrite length_app. cbn. lia.
    + apply Forall_app. split; [exact Ht|]. now repeat constructor.
Qed.

(** ** Every routine extends the state *)

Definition extends (f : Wg -> res Wg) : Prop := forall g g', f g = Ok g' -> ext g g'.

Lemma rbind_ok {A B} (m : res A) (k : A -> res B) b : rbind m k = Ok b -> exists a, m = Ok a /\ k a = Ok b.
Proof. destruct m as [a| |]; cbn; try discriminate. eauto. Qed.

(** Take apart the successful computations of the context. *)
Ltac ok_hyps :=
  repeat match goal with
    | H : rbind _ _ = Ok _ |- _ => apply rbind_ok in H as (? & ? & H)
    | H : Ok _ = Ok _ |- _ => injection H as H
    | p : _ * Wg |- _ => destruct p; cbn [fst snd] in *
    end; subst.

Lemma wg_local_ext name wt g i g' : wg_local name wt g = Ok (i, g') -> ext g g'.
Proof.
  unfold wg_local. destruct (local_find _ _ _); [intros [= <- <-]; apply ext_refl|].
  destruct (WG_MAX_LOCALS <? wg_local_count g); [discriminate|].
  destruct (wg_local_count g <? WG_MAX_LOCALS); intros [= <- <-]; split; cbn; auto; try (exists []; now rewrite app_nil_r). eauto.
Qed.

Lemma const_ext g v : ext g (g_const v g).
Proof. apply ext_body. Qed.

Lemma put_ext vs g : ext g (put vs g).
Proof. apply ext_body. Qed.

Lemma set_ext i g : ext g (g_set i g).
Proof. apply ext_body. Qed.

Lemma get_ext i g : ext g (g_get i g).
Proof. apply ext_body. Qed.

Lemma intern_ext s g : ext g (snd (wg_intern_string s g)).
Proof.
  split; cbn; auto; try (exists []; now rewrite app_nil_r). exists (unescape s). apply each_data.
Qed.

Lemma array_decl_ext name t g a g' : wg_array_decl name t g = Some (a, g') -> ext g g'.
Proof.
  unfold wg_array_decl. destruct (WG_MAX_ARRAYS <=? _); [discriminate|]. intros [= <- <-]. split; cbn; auto; try (exists []; now rewrite app_nil_r). eauto.
Qed.

(** Follow the state back along the known extensions. *)
Ltac grow :=
  repeat match goal with
    | |- ext ?a ?a => apply ext_refl
    | |- ext _ (put _ _) => eapply ext_trans; [|apply put_ext]
    | |- ext _ (g_const _ _) => eapply ext_trans; [|apply const_ext]
    | |- ext _ (g_set _ _) => eapply ext_trans; [|apply set_ext]
    | |- ext _ (g_get _ _) => eapply ext_trans; [|apply get_ext]
    | |- ext _ (set_body _ _) => eapply ext_trans; [|apply ext_body]
    | H : ext ?b ?c |- ext _ ?c => apply (ext_trans _ b c); [clear H|exact H]
    | |- context [if ?b then _ else _] => destruct b
    end.

Lemma text_arg_ext a g : ext g (snd (text_arg a g)).
Proof.
  unfold text_arg. destruct (he_data a); try (destruct (array_base a g); apply ext_refl). apply intern_ext.
Qed.

Section Extends.
Variable emit : HirExpr -> Wg -> res Wg.
Hypothesis emit_ext : forall e, extends (emit e).

Ltac fwd := ok_hyps; repeat match goal with H : emit _ _ = Ok _ |- _ => apply emit_ext in H end.

Lemma elem_addr_ext a i : extends (wg_emit_elem_addr emit a i).
Proof. intros g g' H. unfold wg_emit_elem_addr in H. fwd. grow. Qed.

Lemma as_float_ext e : extends (wg_emit_as_float emit e).
Proof. intros g g' H. unfold wg_emit_as_float in H. fwd. grow. Qed.

Lemma binary_ext op l r : extends (emit_binary emit op l r).
Proof.
  intros g g' H. unfold emit_binary in H. cbn zeta in H.
  destruct ((if _ || _ then binop_f op else binop_i op) =? 0)%Z; [fwd; grow|].
  destruct (_ || _); fwd; repeat match goal with H : wg_emit_as_float _ _ _ = Ok _ |- _ => apply as_float_ext in H end; grow.
Qed.

Lemma arg_ext a slot : extends (emit_arg emit a slot).
Proof.
  intros g g' H. unfold emit_arg in H.
  destruct (_ || is_tag (he_resolved a) HIR_TYPE_CHAR_ARRAY); [|fwd; grow].
  pose proof (text_arg_ext a g) as E. destruct (text_arg a g) as [[p l] g1]. cbn [snd] in E. fwd. grow.
Qed.

Lemma args_ext args j : extends (emit_args emit args j).
Proof.
  revert j; induction args as [|a args IH]; intros j g g' H; cbn in H; [ok_hyps; grow|].
  fwd. eapply ext_trans; [eapply arg_ext; eassumption|eapply IH; eassumption].
Qed.

Lemma printf_ext args : extends (wg_emit_printf emit args).
Proof.
  intros g g' H. unfold wg_emit_printf in H. destruct args as [|fmt rest]; [ok_hyps; grow|].
  destruct (he_data fmt); try (ok_hyps; solve [grow]).
  pose proof (intern_ext value g) as I. destruct (wg_intern_string value g) as [[off l] g1]. cbn [snd] in I.
  destruct rest as [|a rest]; ok_hyps; unfold emit_call; [grow|].
  match goal with H : emit_args _ _ _ _ = Ok _ |- _ => apply args_ext in H end. grow.
Qed.

Lemma elements_ext a es k : extends (emit_elements emit a es k).
Proof.
  revert k; induction es as [|x es IH]; intros k g g' H; cbn in H; [ok_hyps; grow|].
  destruct (k <? wa_total a)%Z; [|ok_hyps; grow]. ok_hyps.
  eapply ext_trans; [|eapply IH; exact H]. unfold wg_emit_store.
  destruct (wa_elem_wt a =? WT_F64)%Z; fwd; repeat match goal with H : wg_emit_as_float _ _ _ = Ok _ |- _ => apply as_float_ext in H end; grow.
Qed.

Lemma bind_ext name type value : extends (emit_bind emit name type value).
Proof.
  intros g g' H. unfold emit_bind in H. destruct (bind_array_type type value) as [t|].
  - destruct (wg_array_decl name t g) as [[a g1]|] eqn:D; [|ok_hyps; grow]. apply array_decl_ext in D.
    destruct value as [v|]; [|ok_hyps; grow]. destruct (he_data v); try (ok_hyps; solve [grow]).
    apply elements_ext in H. grow.
  - ok_hyps. match goal with H : wg_local _ _ _ = _ |- _ => apply wg_local_ext in H end. destruct value as [v|]; fwd; grow.
Qed.

Lemma operand_ext wt v : extends (emit_operand emit wt v).
Proof. intros g g' H. unfold emit_operand in H. destruct (wt =? WT_F64)%Z; [apply as_float_ext in H|fwd]; grow. Qed.

Lemma put_op_ext o g : ext g (put_op o g).
Proof. unfold put_op. grow. Qed.

Lemma assign_ext target value op : extends (emit_assign emit target value op).
Proof.
  intros g g' H. unfold emit_assign in H. destruct (he_data target); try (ok_hyps; solve [grow]).
  - ok_hyps. match goal with H : wg_local _ _ _ = _ |- _ => apply wg_local_ext in H end.
    eapply ext_trans; [|apply set_ext]. destruct (negb _); fwd; grow.
    eapply ext_trans; [|apply put_op_ext]. match goal with H : emit_operand _ _ _ _ = _ |- _ => apply operand_ext in H end. grow.
  - destruct (array_base base g); [|ok_hyps; grow]. destruct indices as [|i [|]]; try (ok_hyps; solve [grow]).
    ok_hyps. unfold wg_emit_store. eapply ext_trans; [|apply put_ext].
    match goal with H : emit_operand _ _ _ _ = _ |- _ => apply operand_ext in H end.
    match goal with H : wg_emit_elem_addr _ _ _ g = _ |- _ => apply elem_addr_ext in H end.
    assert (E : ext x x0).
    { destruct (negb _); fwd; [|grow]. unfold wg_emit_load.
      match goal with H : wg_emit_elem_addr _ _ _ _ = _ |- _ => apply elem_addr_ext in H end. grow. }
    destruct (negb _); [eapply ext_trans; [|apply put_op_ext]|]; grow.
Qed.
End Extends.

Lemma literal_ext t lx g : ext g (emit_literal t lx g).
Proof. unfold emit_literal. grow. Qed.

Lemma expr_ext f : forall e, extends (wg_emit_expr f e).
Proof.
  induction f as [|f IH]; intros e g g' H; [discriminate|]. cbn [wg_emit_expr] in H.
  destruct (he_data e); try (ok_hyps; solve [grow]).
  - ok_hyps. apply literal_ext.
  - destruct (find _ (wg_consts g)) as [[c v]|]; [now apply IH in H|]. ok_hyps.
    match goal with H : wg_local _ _ _ = _ |- _ => apply wg_local_ext in H end. grow.
  - destruct field_name as [n|]; [|ok_hyps; grow]. destruct (if cstr_eqb n (lit "length") then _ else _); ok_hyps; grow.
  - destruct (array_base base g); [|ok_hyps; grow]. destruct indices as [|i [|]]; try (ok_hyps; solve [grow]).
    ok_hyps. match goal with H : wg_emit_elem_addr _ _ _ _ = _ |- _ => apply (elem_addr_ext _ IH) in H end.
    unfold wg_emit_load. grow.
  - now apply (binary_ext _ IH) in H.
Qed.

Lemma each_ext {A} (f : A -> Wg -> res Wg) l : Forall (fun x => extends (f x)) l -> extends (each f l).
Proof.
  induction 1 as [|x l Hx _ IH]; intros g g' H; cbn in H; [ok_hyps; grow|]. ok_hyps.
  match goal with H : f _ _ = _ |- _ => apply Hx in H end. apply IH in H. grow.
Qed.

Lemma opt_ext {A} (f : A -> Wg -> res Wg) o : (forall x, extends (f x)) -> extends (opt f o).
Proof. intros Hf g g' H. destruct o as [x|]; cbn in H; [now apply Hf in H|ok_hyps; grow]. Qed.

Lemma stmt_ext f : forall s, extends (wg_emit_stmt f s).
Proof.
  induction f as [|f IH]; intros s g g' H; [discriminate|]. cbn [wg_emit_stmt] in H.
  pose proof (expr_ext f) as HE. assert (A : forall l, extends (each (wg_emit_stmt f) l)).
  { intros l. apply each_ext, Forall_forall. auto. }
  destruct (hs_data s); try (ok_hyps; solve [grow]).
  - now apply (bind_ext _ HE) in H.
  - now apply (assign_ext _ HE) in H.
  - ok_hyps.
    repeat match goal with
      | H : opt (wg_emit_stmt f) _ _ = _ |- _ => apply opt_ext in H; [|exact IH]
      | H : each (wg_emit_stmt f) _ _ = _ |- _ => apply A in H
      | H : opt _ _ _ = Ok _ |- _ => apply opt_ext in H; [|intros c a b X; ok_hyps; match goal with Y : wg_emit_expr f _ _ = _ |- _ => apply HE in Y end; grow]
      end. grow.
  - ok_hyps. destruct else_body as [|s' else_body]; ok_hyps;
      repeat match goal with
        | H : each (wg_emit_stmt f) _ _ = _ |- _ => apply A in H
        | H : wg_emit_expr f _ _ = _ |- _ => apply HE in H
        end; grow.
  - destruct (is_print_call _); [|ok_hyps; grow]. destruct (he_data (wg_unwrap_eff expr)); try (ok_hyps; solve [grow]).
    now apply (printf_ext _ HE) in H.
Qed.

(** ** The machine *)

Section MachineFacts.
Context `{F64Ops}.
Variable arity : Z -> nat.
Abbreviation exec := (exec arity).
Abbreviation exec1 := (exec1 arity).

Lemma exec_app n a b st stk :
  exec n (a ++ b) st stk = match exec n a st stk with Norm st' stk' => exec n b st' stk' | o => o end.
Proof.
  revert st stk; induction a as [|i a IH]; intros st stk; [reflexivity|]. cbn [app WasmSem.exec].
  destruct (exec1 n i st stk); try reflexivity. apply IH.
Qed.

(** The sequence [exec1] runs inside a block is [exec]. *)
Lemma run_exec n c : forall st stk,
  (fix run (c : list Instr) (st : St) (stk : list val) : outcome :=
     match c with
     | [] => Norm st stk
     | i :: r => match exec1 n i st stk with Norm st' stk' => run r st' stk' | o => o end
     end) c st stk = exec n c st stk.
Proof. induction c as [|i c IH]; intros st stk; [reflexivity|]. cbn. destruct (exec1 n i st stk); auto. Qed.

Lemma exec_block n b st stk : exec1 n (I_block b) st stk = leave stk (exec n b st []).
Proof. cbn. now rewrite run_exec. Qed.

Lemma turns_ext f g m st stk : (forall s, f s = g s) -> turns f m st stk = turns g m st stk.
Proof.
  intros E. revert st; induction m as [|m IH]; intros st; [reflexivity|]. cbn. rewrite E.
  destruct (g st) as [s [|]|[|] s| |]; auto.
Qed.

Lemma exec_loop n b st stk : exec1 n (I_loop b) st stk = turns (fun s => exec n b s []) n st stk.
Proof. cbn. apply turns_ext. intros s. apply run_exec. Qed.

Lemma exec_if n t e c st stk :
  exec1 n (I_if t e) st (VI c :: stk) =
  leave stk (if (c =? 0)%Z then match e with Some e => exec n e st [] | None => Norm st [] end else exec n t st []).
Proof. cbn. destruct (c =? 0)%Z; [|now rewrite run_exec]. destruct e; [now rewrite run_exec|reflexivity]. Qed.

Lemma exec_step n i r st stk :
  (match i with I_block _ | I_loop _ | I_if _ _ => False | _ => True end) ->
  exec n (i :: r) st stk = match step arity i st stk with Norm st' stk' => exec n r st' stk' | o => o end.
Proof. destruct i; intros []; reflexivity. Qed.
End MachineFacts.
