(* ===== verification/WasmGenLits.v ===== *)
(** * Literals in the WebAssembly generator

    [wg_parse_int] reads an integer literal to the value [arche_int_lit] gives it, modulo 2^32;
    [wg_parse_char] reads a character literal as the LLVM back end does. *)

From S2P Require Import Prelude Hir Lexer LexerFacts WasmEncode WasmProps WasmGen WasmSem HirSem WasmGenFacts.

(** Properties of a character, checked on all 256. *)
Lemma all_ascii (P : ascii -> bool) : forallb P (map ascii_of_nat (seq 0 256)) = true -> forall c, P c = true.
Proof.
  intros H c. rewrite forallb_forall in H. apply H. rewrite in_map_iff. exists (nat_of_ascii c).
  split; [apply ascii_nat_embedding|]. apply in_seq. pose proof (nat_ascii_bounded c). lia.
Qed.

Ltac by_ascii P c := generalize c; apply (all_ascii P); vm_compute; reflexivity.

Lemma digit_alnum c : match digit_value c with Some d => (alnum_value c =? d)%Z && (0 <=? d)%Z | None => true end = true.
Proof. by_ascii (fun c => match digit_value c with Some d => (alnum_value c =? d)%Z && (0 <=? d)%Z | None => true end) c. Qed.

Lemma digit_plain c : (alnum_value c <? 16)%Z = true ->
  isspace c = false /\ is_sign c = false /\ Ascii.eqb c "-" = false /\ Ascii.eqb c "x" = false /\ Ascii.eqb c "X" = false.
Proof.
  intros H.
  assert (E : implb (alnum_value c <? 16)%Z
                (negb (isspace c) && negb (is_sign c) && negb (Ascii.eqb c "-") && negb (Ascii.eqb c "x") && negb (Ascii.eqb c "X")) = true).
  { by_ascii (fun c => implb (alnum_value c <? 16)%Z
      (negb (isspace c) && negb (is_sign c) && negb (Ascii.eqb c "-") && negb (Ascii.eqb c "x") && negb (Ascii.eqb c "X"))) c. }
  rewrite H in E. cbn [implb] in E. bool_hyps. auto.
Qed.

Lemma strip_cons c s : Ascii.eqb c "_" = false -> strip_separators (c :: s) = c :: strip_separators s.
Proof. intros H. unfold strip_separators. cbn [filter]. now rewrite H. Qed.

Lemma strip_skip c s : Ascii.eqb c "_" = true -> strip_separators (c :: s) = strip_separators s.
Proof. intros H. unfold strip_separators. cbn [filter]. now rewrite H. Qed.

Definition step_digit (base v d : Z) : Z := (v * base + d)%Z.

(** The digits of a body are the characters that are no separators. *)
Lemma digits_strip base body ds :
  digits_of base body = Some ds ->
  Forall (fun c => (alnum_value c <? base)%Z = true) (strip_separators body) /\ map alnum_value (strip_separators body) = ds.
Proof.
  revert ds; induction body as [|c body IH]; intros ds H; [injection H as <-; cbn; auto|]. cbn [digits_of] in H.
  destruct (Ascii.eqb c "_") eqn:U; [rewrite strip_skip by exact U; now apply IH|]. rewrite strip_cons by exact U. cbn [map]. pose proof (digit_alnum c) as D.
  destruct (digit_value c) as [d|]; [|discriminate]. apply andb_true_iff in D as [D _]. apply Z.eqb_eq in D.
  destruct (Z.ltb_spec d base); [|discriminate]. destruct (digits_of base body) as [ds'|]; [|discriminate].
  injection H as <-. destruct (IH ds' eq_refl) as [F E]. split.
  - constructor; [|exact F]. rewrite D. now apply Z.ltb_lt.
  - now rewrite D, E.
Qed.

Lemma digits_value_all base s acc :
  Forall (fun c => (alnum_value c <? base)%Z = true) s ->
  digits_value base s acc = (fold_left (step_digit base) (map alnum_value s) acc, []).
Proof.
  intros F. revert acc; induction F as [|c s Hc _ IH]; intros acc; [reflexivity|]. cbn. rewrite Hc. apply IH.
Qed.

Lemma strtol_digits base s :
  (base <= 16)%Z -> Forall (fun c => (alnum_value c <? base)%Z = true) s -> s <> [] ->
  strtol s base = Z.max (- 2 ^ 63) (Z.min (2 ^ 63 - 1) (horner base (map alnum_value s))).
Proof.
  intros Hb F Hs. destruct s as [|c s]; [contradiction|]. inversion F as [|? ? Hc F']; subst.
  assert (W : forall c, (alnum_value c <? base)%Z = true -> (alnum_value c <? 16)%Z = true).
  { intros x Hx. apply Z.ltb_lt in Hx. apply Z.ltb_lt. lia. }
  destruct (digit_plain c (W _ Hc)) as (P1 & P2 & P3 & _).
  unfold strtol. cbn [skip_space]. rewrite P1, P2, P3.
  assert (X : is_0x (c :: s) = false).
  { destruct s as [|d s]; [reflexivity|]. inversion F'; subst. destruct (digit_plain d (W _ H1)) as (_ & _ & _ & X1 & X2).
    cbn. rewrite X1, X2. now rewrite andb_false_r. }
  rewrite X, andb_false_r, andb_false_l. now rewrite digits_value_all.
Qed.

(** Sign and prefix, as both readers find them. *)
Lemma filter_le {A} (f : A -> bool) l : List.length (filter f l) <= List.length l.
Proof. induction l as [|x l IH]; cbn; [lia|]. destruct (f x); cbn; lia. Qed.

(** The number behind the sign. *)
Definition unsigned_value (p : cstr) : option Z :=
  let (base, body) := int_lit_base p in
  match digits_of base body with Some (d :: ds) => Some (horner base (d :: ds)) | _ => None end.

Definition parse_unsigned (p : cstr) : Z :=
  let pre (a b : ascii) := match p with x :: y :: _ => Ascii.eqb x "0" && (Ascii.eqb y a || Ascii.eqb y b) | _ => false end in
  if pre "b"%char "B"%char then strtol (skipn 2 p) 2
  else if pre "o"%char "O"%char then strtol (skipn 2 p) 8
  else if pre "x"%char "X"%char then strtol (skipn 2 p) 16
  else strtol p 10.

Lemma nonneg_digits base s acc :
  (0 <= acc)%Z -> (0 <= base)%Z -> Forall (fun d => 0 <= d)%Z s -> (0 <= fold_left (step_digit base) s acc)%Z.
Proof.
  intros Ha Hb F. revert acc Ha; induction F as [|d s Hd _ IH]; intros acc Ha; [exact Ha|]. cbn. apply IH. unfold step_digit. nia.
Qed.

Lemma digits_nonneg base body ds : digits_of base body = Some ds -> Forall (fun d => 0 <= d)%Z ds.
Proof.
  revert ds; induction body as [|c body IH]; cbn; intros ds H; [injection H as <-; constructor|].
  destruct (Ascii.eqb c "_"); [auto|]. pose proof (digit_alnum c) as D. destruct (digit_value c) as [d|]; [|discriminate].
  apply andb_true_iff in D as [_ D]. apply Z.leb_le in D. destruct (d <? base)%Z; [|discriminate].
  destruct (digits_of base body) as [ds'|]; [|discriminate]. injection H as <-. auto.
Qed.

Lemma strtol_body base body d ds :
  (0 <= base <= 16)%Z -> digits_of base body = Some (d :: ds) -> (horner base (d :: ds) < 2 ^ 63)%Z ->
  strtol (strip_separators body) base = horner base (d :: ds) /\ (0 <= horner base (d :: ds))%Z.
Proof.
  intros Hb Hd Hl. pose proof (digits_nonneg _ _ _ Hd) as Hn. destruct (digits_strip _ _ _ Hd) as [F E].
  assert (N : (0 <= horner base (d :: ds))%Z) by (apply nonneg_digits; [lia|lia|exact Hn]).
  rewrite strtol_digits, E; [split; lia|lia|exact F|]. intros X. rewrite X in E. discriminate.
Qed.

Lemma prefix_letters c : implb (is_x c || is_b c || is_o c)
  (negb (Ascii.eqb c "_") && Bool.eqb (is_x c) (Ascii.eqb c "x" || Ascii.eqb c "X") &&
   Bool.eqb (is_b c) (Ascii.eqb c "b" || Ascii.eqb c "B") && Bool.eqb (is_o c) (Ascii.eqb c "o" || Ascii.eqb c "O") &&
   implb (is_x c) (negb (is_b c) && negb (is_o c)) && implb (is_b c) (negb (is_o c))) = true.
Proof.
  by_ascii (fun c => implb (is_x c || is_b c || is_o c)
  (negb (Ascii.eqb c "_") && Bool.eqb (is_x c) (Ascii.eqb c "x" || Ascii.eqb c "X") &&
   Bool.eqb (is_b c) (Ascii.eqb c "b" || Ascii.eqb c "B") && Bool.eqb (is_o c) (Ascii.eqb c "o" || Ascii.eqb c "O") &&
   implb (is_x c) (negb (is_b c) && negb (is_o c)) && implb (is_b c) (negb (is_o c)))) c.
Qed.

Lemma no_letter_10 c : (alnum_value c <? 10)%Z = true ->
  (Ascii.eqb c "b" || Ascii.eqb c "B") = false /\ (Ascii.eqb c "o" || Ascii.eqb c "O") = false /\ (Ascii.eqb c "x" || Ascii.eqb c "X") = false.
Proof.
  intros H.
  assert (E : implb (alnum_value c <? 10)%Z
    (negb (Ascii.eqb c "b" || Ascii.eqb c "B") && negb (Ascii.eqb c "o" || Ascii.eqb c "O") && negb (Ascii.eqb c "x" || Ascii.eqb c "X")) = true).
  { by_ascii (fun c => implb (alnum_value c <? 10)%Z
    (negb (Ascii.eqb c "b" || Ascii.eqb c "B") && negb (Ascii.eqb c "o" || Ascii.eqb c "O") && negb (Ascii.eqb c "x" || Ascii.eqb c "X"))) c. }
  rewrite H in E. cbn [implb] in E. apply andb_true_iff in E as [E E3]. apply andb_true_iff in E as [E1 E2].
  rewrite negb_true_iff in E1, E2, E3. auto.
Qed.

(** A prefix that both readers recognize. *)
Lemma prefix_case a b r base :
  Ascii.eqb a "0" = true -> is_x b || is_b b || is_o b = true ->
  base = (if is_x b then 16 else if is_b b then 2 else 8)%Z ->
  int_lit_base (a :: b :: r) = (base, r) /\
  parse_unsigned (strip_separators (a :: b :: r)) = strtol (strip_separators r) base.
Proof.
  intros Ha Hb ->. pose proof (prefix_letters b) as P. rewrite Hb in P. cbn [implb] in P. bool_hyps.
  repeat match goal with H : Bool.eqb _ _ = true |- _ => apply eqb_prop in H end.
  split.
  - unfold int_lit_base. cbn [nth skipn]. rewrite Ha. cbn [andb]. destruct (is_x b); [reflexivity|].
    destruct (is_b b); [reflexivity|]. cbn [orb] in Hb. now rewrite Hb.
  - assert (U : Ascii.eqb a "_" = false) by (apply Ascii.eqb_eq in Ha; now subst).
    rewrite strip_cons, strip_cons by assumption. unfold parse_unsigned. rewrite Ha. cbn [andb skipn].
    repeat match goal with H : _ = (_ || _) |- _ => rewrite <- H; clear H end.
    destruct (is_x b), (is_b b), (is_o b); cbn [implb andb negb orb] in *; try discriminate; reflexivity.
Qed.

Lemma no_prefix s : Forall (fun c => (alnum_value c <? 10)%Z = true) s -> parse_unsigned s = strtol s 10.
Proof.
  intros F. unfold parse_unsigned. destruct s as [|a [|b s]]; try reflexivity.
  inversion F as [|? ? _ F']; subst. inversion F' as [|? ? Hb _]; subst. destruct (no_letter_10 b Hb) as (-> & -> & ->).
  now rewrite !andb_false_r.
Qed.

Lemma parse_unsigned_ok p v :
  unsigned_value p = Some v -> (v < 2 ^ 63)%Z -> parse_unsigned (strip_separators p) = v /\ (0 <= v)%Z.
Proof.
  intros H Hv. assert (T : int_lit_base p = (10%Z, p) \/
    exists a b r, p = a :: b :: r /\ Ascii.eqb a "0" = true /\ is_x b || is_b b || is_o b = true).
  { unfold int_lit_base. destruct p as [|a [|b r]]; [now left| |].
    - cbn [nth]. change (is_x NUL) with false. change (is_b NUL) with false. change (is_o NUL) with false. rewrite andb_false_r. now left.
    - cbn [nth]. destruct (Ascii.eqb a "0") eqn:Ha; [|now left]. destruct (is_x b) eqn:X; [right; exists a, b, r; now rewrite X|].
      destruct (is_b b) eqn:B; [right; exists a, b, r; now rewrite X, B|].
      destruct (is_o b) eqn:O; [right; exists a, b, r; now rewrite X, B, O|]. now left. }
  destruct T as [T | (a & b & r & -> & Ha & Hb)].
  - unfold unsigned_value in H. rewrite T in H. destruct (digits_of 10 p) as [[|d ds]|] eqn:D; try discriminate.
    injection H as <-. rewrite no_prefix by apply (digits_strip _ _ _ D). apply strtol_body; [lia|exact D|exact Hv].
  - destruct (prefix_case a b r _ Ha Hb eq_refl) as [E1 E2]. rewrite E2. unfold unsigned_value in H. rewrite E1 in H.
    destruct (digits_of _ r) as [[|d ds]|] eqn:D; try discriminate. injection H as <-. apply strtol_body; [|exact D|exact Hv].
    destruct (is_x b); [lia|]. destruct (is_b b); lia.
Qed.

Lemma wg_parse_int_ok lx v :
  int_lit_value lx = Some v -> (- 2 ^ 63 < v < 2 ^ 63)%Z -> List.length lx <= 79 -> wg_parse_int lx = s32 v.
Proof.
  intros H Hv Hl. unfold wg_parse_int.
  rewrite firstn_all2 by (eapply Nat.le_trans; [apply filter_le|exact Hl]).
  destruct lx as [|c lx]; [discriminate|]. unfold int_lit_value in H. cbn [nth tl] in H.
  assert (S : forall p, (let (base, body) := int_lit_base p in
      match digits_of base body with Some (d :: ds) => Some (horner base (d :: ds)) | _ => None end) = unsigned_value p) by reflexivity.
  destruct (is_sign c) eqn:Sg.
  - assert (U : Ascii.eqb c "_" = false).
    { unfold is_sign in Sg. apply orb_true_iff in Sg as [E|E]; apply Ascii.eqb_eq in E; now subst. }
    rewrite strip_cons by exact U. rewrite Sg. unfold is_sign in Sg. rewrite Sg in H.
    specialize (S lx). destruct (int_lit_base lx) as [base body]. destruct (digits_of base body) as [[|d ds]|]; try discriminate.
    injection H as <-. destruct (parse_unsigned_ok lx (horner base (d :: ds)) (eq_sym S)) as [E N].
    { destruct (Ascii.eqb c "-"); [|lia]. destruct (Z.neg_nonneg_cases (horner base (d :: ds))); lia. }
    fold (parse_unsigned (strip_separators lx)). now rewrite E.
  - unfold is_sign in Sg. rewrite Sg in H. apply orb_false_iff in Sg as [Sp Sm]. rewrite Sm in H.
    specialize (S (c :: lx)). destruct (int_lit_base (c :: lx)) as [base body] eqn:B. destruct (digits_of base body) as [[|d ds]|] eqn:D; try discriminate.
    injection H as <-. destruct (parse_unsigned_ok (c :: lx) (horner base (d :: ds)) (eq_sym S)) as [E N]; [lia|].
    assert (F : match strip_separators (c :: lx) with c :: _ => is_sign c = false | [] => True end).
    { destruct (strip_separators (c :: lx)) as [|x y] eqn:X; [exact I|].
      unfold int_lit_base in B. cbn [nth skipn] in B.
      assert (C : alnum_value x = 0%Z \/ (alnum_value x <? 16)%Z = true).
      { destruct (Ascii.eqb c "0") eqn:C0.
        - apply Ascii.eqb_eq in C0. subst c. rewrite strip_cons in X by reflexivity. injection X as <- _. now left.
        - cbn [andb] in B. injection B as <- <-. right. destruct (digits_strip _ _ _ D) as [G _]. rewrite X in G.
          inversion G as [|? ? G1 _]; subst. apply Z.ltb_lt in G1. apply Z.ltb_lt. lia. }
      apply digit_plain. destruct C as [-> |C]; [reflexivity|exact C]. }
    destruct (strip_separators (c :: lx)) as [|x y]; [exact (f_equal s32 E)|].
    unfold is_sign in F |- *. rewrite F. apply orb_false_iff in F as [_ F]. rewrite F. exact (f_equal s32 E).
Qed.

(** ** Characters *)

Lemma wg_parse_char_ok lx :
  Ascii.eqb (nth 0 lx NUL) QUOTE = true -> (code (nth 1 lx NUL) <? 128)%Z = true ->
  wg_parse_char lx = char_literal_value lx.
Proof.
  intros Hq Hc. destruct lx as [|q lx]; [discriminate|]. cbn [nth] in *. unfold wg_parse_char. rewrite Hq.
  unfold char_literal_value. cbn [nth]. destruct (Ascii.eqb (nth 0 lx NUL) BACKSLASH) eqn:B.
  - destruct (Ascii.eqb (nth 1 lx NUL) "n"); [reflexivity|]. destruct (Ascii.eqb (nth 1 lx NUL) "t"); [reflexivity|].
    destruct (Ascii.eqb (nth 1 lx NUL) "r"); [reflexivity|].
    destruct (Ascii.eqb (nth 1 lx NUL) BACKSLASH) eqn:E; [apply Ascii.eqb_eq in E; now rewrite E|].
    destruct (Ascii.eqb (nth 1 lx NUL) QUOTE) eqn:E'; [apply Ascii.eqb_eq in E'; now rewrite E'|]. reflexivity.
  - generalize (nth 0 lx NUL) as c, Hc. clear. intros c Hc.
    assert (E : implb (code c <? 128)%Z (code c =? s8 (code c))%Z = true).
    { by_ascii (fun c => implb (code c <? 128)%Z (code c =? s8 (code c))%Z) c. }
    rewrite Hc in E. now apply Z.eqb_eq in E.
Qed.

(** A checked literal gets the instruction that pushes its value. *)
Definition literal_instr (t : HirType) (lx : cstr) : Instr :=
  if is_float t then I_fconst (double_bits (strtod lx))
  else I_const (match lit_value t lx with Some (VI z) => z | _ => 0%Z end).

Lemma strip_none lx : forallb (fun c => negb (Ascii.eqb c "_")) lx = true -> strip_separators lx = lx.
Proof.
  induction lx as [|c lx IH]; [reflexivity|]. cbn [forallb]. intros H. apply andb_true_iff in H as [H1 H2].
  apply negb_true_iff in H1. rewrite strip_cons by exact H1. now rewrite IH.
Qed.

Lemma char_literal_range lx : i32_range (char_literal_value lx).
Proof.
  assert (S : forall c, i32_range (s8 (code c))).
  { intros c. unfold s8, i32_range. cbn zeta. pose proof (Z.mod_pos_bound (code c) (2 ^ 8) ltac:(lia)).
    destruct (_ <? _)%Z; lia. }
  unfold char_literal_value. assert (K : forall z, (0 <= z < 128)%Z -> i32_range z) by (unfold i32_range; lia).
  repeat match goal with |- context [if ?b then _ else _] => destruct b end; auto; apply K; lia.
Qed.

Lemma literal_emits t lx g :
  lit_ok t lx = true ->
  emits g (emit_literal t lx g) [literal_instr t lx] /\
  match lit_value t lx with
  | Some (VI z) => is_float t = false /\ literal_instr t lx = I_const z /\ i32_range z
  | Some (VF b) => is_float t = true /\ literal_instr t lx = I_fconst b /\ f64_range b
  | None => False
  end.
Proof.
  intros H. unfold lit_ok in H. unfold emit_literal, literal_instr, lit_value. fold (is_float t). destruct (is_float t) eqn:Hf.
  { rewrite strip_none by exact H. split; [apply fconst_emits|]. repeat split; apply Z.mod_pos_bound; lia. }
  destruct (is_tag t HIR_TYPE_CHAR).
  { apply andb_true_iff in H as [Hq Hc]. pose proof (char_literal_range lx) as R. rewrite wg_parse_char_ok by assumption.
    split; [|auto]. rewrite <- (s32_id (char_literal_value lx)) at 2 by exact R. apply const_emits. }
  destruct (cstr_eqb lx (lit "true")).
  { split; [apply const_emits|]. repeat split; unfold i32_range; lia. }
  destruct (cstr_eqb lx (lit "false")).
  { split; [apply const_emits|]. repeat split; unfold i32_range; lia. }
  cbn [orb] in H. apply andb_true_iff in H as [Hl H]. apply Nat.leb_le in Hl. rewrite arche_int_lit_wraps.
  destruct (int_lit_value lx) as [v|] eqn:V; [|discriminate]. apply andb_true_iff in H as [H1 H2].
  apply Z.ltb_lt in H1, H2. cbn [option_map]. rewrite s32_s64, (wg_parse_int_ok lx v V) by (auto; lia).
  split; [|auto with arche]. rewrite <- (s32_id (s32 v)) at 2 by apply s32_in. apply const_emits.
Qed.
