(* ===== verification/WasmGenSim.v ===== *)
(** * The emitted expressions compute the value of the expression

    The invariant that ties the emitter's tables to the static check, the relation between an
    environment of [HirSem.v] and a state of the machine, and the simulation of expressions. *)

From S2P Require Import Prelude Hir Lexer LexerFacts WasmEncode WasmProps WasmGen WasmSem HirSem WasmGenFacts WasmGenLits.

(** ** Arrays in memory *)

(** The record of an array agrees with its checked type. *)
Record array_ok (a : WgArray) (ty : ArrTy) : Prop := mkArrayOk {
  ao_wt : wa_elem_wt a = acc_wt (at_acc ty);
  ao_size : wa_elem_size a = Z.of_nat (acc_size (at_acc ty));
  ao_load : load_bytes a = load_code (at_acc ty);
  ao_store : store_bytes a = store_code (at_acc ty);
  ao_total : wa_total a = at_total ty;
  ao_pos : (1 <= wa_total a)%Z
}.

Definition array_end (a : WgArray) : Z := (wa_base a + wa_total a * wa_elem_size a)%Z.

(** Checked types, distinct names, regions one after the other from 16384 up to the cursor. *)
Record arrays_ok (Del : cstr -> option ArrTy) (g : Wg) : Prop := mkArraysOk {
  as_ok : Forall (fun a => exists ty, Del (wa_name a) = Some ty /\ array_ok a ty) (wg_arrays g);
  as_names : NoDup (map wa_name (wg_arrays g));
  as_order : ForallOrdPairs (fun a b => array_end a <= wa_base b)%Z (wg_arrays g);
  as_low : Forall (fun a => 16384 <= wa_base a)%Z (wg_arrays g);
  as_high : Forall (fun a => array_end a <= wg_arrays_cursor g)%Z (wg_arrays g);
  as_cursor : (16384 <= wg_arrays_cursor g)%Z
}.

Definition elem_addr (a : WgArray) (k : nat) : Z := (wa_base a + Z.of_nat k * wa_elem_size a)%Z.

(** The memory holds the values [vs] of the array [a]. *)
Definition holds (m : Z -> Z) (a : WgArray) (ty : ArrTy) (vs : list val) : Prop :=
  Z.of_nat (List.length vs) = wa_total a /\
  forall k v, nth_error vs k = Some v ->
    value_ok v /\ vtype v = acc_wt (at_acc ty) /\ load_val (at_acc ty) (read_mem m (elem_addr a k) (acc_size (at_acc ty))) = v.

Lemma elem_inside a ty k : array_ok a ty -> (Z.of_nat k < wa_total a)%Z ->
  (wa_base a <= elem_addr a k)%Z /\ (elem_addr a k + Z.of_nat (acc_size (at_acc ty)) <= array_end a)%Z.
Proof.
  intros A Hk. unfold elem_addr, array_end. rewrite (ao_size _ _ A). nia.
Qed.

(** ** Operators *)

Definition iop_of (op : Operator) : option IOp :=
  match op with
  | OP_ADD => Some i_add | OP_SUB => Some i_sub | OP_MUL => Some i_mul | OP_DIV => Some i_div_s | OP_MOD => Some i_rem_s
  | OP_EQ => Some i_eq | OP_NEQ => Some i_ne | OP_LT => Some i_lt_s | OP_GT => Some i_gt_s
  | OP_LTE => Some i_le_s | OP_GTE => Some i_ge_s | OP_AND => Some i_and | OP_OR => Some i_or
  | OP_NONE | OP_FMAP => None
  end.

Definition fop_of (op : Operator) : option FOp :=
  match op with
  | OP_ADD => Some f_add | OP_SUB => Some f_sub | OP_MUL => Some f_mul | OP_DIV => Some f_div
  | OP_EQ => Some f_eq | OP_NEQ => Some f_ne | OP_LT => Some f_lt | OP_GT => Some f_gt
  | OP_LTE => Some f_le | OP_GTE => Some f_ge
  | _ => None
  end.

Lemma binop_i_code op : match iop_of op with Some o => binop_i op = iop_code o /\ binop_i op <> 0%Z | None => binop_i op = 0%Z end.
Proof. destruct op; cbn; auto; split; auto; discriminate. Qed.

Lemma binop_f_code op : match fop_of op with Some o => binop_f op = fop_code o /\ binop_f op <> 0%Z | None => binop_f op = 0%Z end.
Proof. destruct op; cbn; auto; split; auto; discriminate. Qed.

(** On the operands for which the language's operator has a meaning, the instruction computes it. *)
Lemma int_op_run op o a b z : iop_of op = Some o -> i32_range a -> i32_range b -> int_op op a b = Some z ->
  run_int o a b = Some z /\ i32_range z.
Proof.
  unfold i32_range. intros Ho Ha Hb Hz.
  destruct op; try discriminate; injection Ho as <-; cbn [int_op run_int] in *; try (injection Hz as <-; split; [reflexivity|]; apply b2z_range || apply s32_in).
  - destruct (_ || _) eqn:E; [discriminate|]. injection Hz as <-. split; [reflexivity|].
    apply orb_false_iff in E as [E1 E2]. apply Z.eqb_neq in E1.
    assert (Q : (Z.abs (Z.quot a b) <= Z.abs a)%Z).
    { rewrite <- Z.quot_abs by exact E1. apply Z.quot_le_upper_bound; [lia|]. nia. }
    destruct (Z.eq_dec a (- 2 ^ 31)) as [-> |N]; [|lia].
    destruct (Z.eqb_spec b (-1)); [subst; discriminate|].
    destruct (Z.eq_dec b 1) as [-> |]; [rewrite Z.quot_1_r; lia|].
    assert (Q2 : (Z.abs (Z.quot (- 2 ^ 31) b) <= 2 ^ 30)%Z).
    { rewrite <- Z.quot_abs by exact E1. apply Z.quot_le_upper_bound; [lia|]. lia. }
    lia.
  - destruct (Z.eqb_spec b 0) as [|Nb]; [discriminate|]. injection Hz as <-. split; [reflexivity|].
    pose proof (Z.rem_bound_abs a b Nb). lia.
  - destruct (Z.eqb_spec a 0), (Z.eqb_spec a 1), (Z.eqb_spec b 0), (Z.eqb_spec b 1); subst; cbn in Hz; try discriminate;
      injection Hz as <-; cbn; split; try reflexivity; lia.
  - destruct (Z.eqb_spec a 0), (Z.eqb_spec a 1), (Z.eqb_spec b 0), (Z.eqb_spec b 1); subst; cbn in Hz; try discriminate;
      injection Hz as <-; cbn; split; try reflexivity; lia.
Qed.

Section Sim.
Context `{F64Ops} `{!F64Law}.
Context {consts : list (cstr * HirExpr)} {Gam : cstr -> option Z} {Del : cstr -> option ArrTy}.

(** The emitter's tables agree with the static check. *)
Record inv (g : Wg) : Prop := mkInv {
  iv_locals : locals_ok Gam g;
  iv_arrays : arrays_ok Del g;
  iv_consts : wg_consts g = consts;
  iv_bases : (wg_strings_base g, wg_args_base g, wg_f_print g, wg_f_printf g) = (1024, 512, 0, 1)%Z
}.

(** The constants are checked. *)
Class ConstsOk : Prop := consts_ok : Forall (fun c => wt_expr consts Gam Del (snd c) = true) consts.

(** The emitter's state [gF] at the end of the program: its tables agree with the check, the
    arrays and the strings fit their regions. *)
Class Final (gF : Wg) : Prop := mkFinal {
  final : inv gF;
  arrays_fit : (wg_arrays_cursor gF <= mem_size)%Z;
  strings_fit : (1024 + Z.of_nat (List.length (wb_data (wg_strings gF))) <= 16384)%Z
}.

(** The environment [r], the machine [st]; the arrays of [r] are declared in [g]. *)
Record agree (gF g : Wg) (r : Env) (st : St) : Prop := mkAgree {
  ag_locals : Forall2 (fun l v => value_ok v /\ vtype v = wl_wt l) (wg_locals gF) (s_locals st);
  ag_scal : forall x v, e_scal r x = Some v ->
    exists i, local_find (wg_locals gF) x 0 = Some i /\ nth_error (s_locals st) i = Some v;
  ag_arr : forall x vs, e_arr r x = Some vs ->
    exists a ty, wg_array_find x g = Some a /\ Del x = Some ty /\ holds (s_mem st) a ty vs;
  ag_seen : forall a x, In a (wg_arrays gF) -> e_seen r (wa_name a) = false ->
    (wa_base a <= x < array_end a)%Z -> s_mem st x = 0%Z;
  ag_vis : forall x vs, e_arr r x = Some vs -> e_seen r x = true;
  ag_text : forall k b, nth_error (wb_data (wg_strings gF)) k = Some b -> s_mem st (1024 + Z.of_nat k)%Z = b
}.

Definition arity (f : Z) : nat := if (f =? 0)%Z then 2 else 4.
Abbreviation run := (exec arity).

(** ** Tables *)

Lemma array_find_in x g a : wg_array_find x g = Some a -> In a (wg_arrays g) /\ wa_name a = x.
Proof.
  intros F. unfold wg_array_find in F. apply find_some in F as [I E]. now apply cstr_eqb_eq in E.
Qed.

Lemma array_find_ext x g g' a : ext g g' -> wg_array_find x g = Some a -> wg_array_find x g' = Some a.
Proof.
  intros [_ [l E] _ _ _] F. unfold wg_array_find in *. rewrite E. clear E.
  induction (wg_arrays g) as [|b bs IH]; [discriminate|]. cbn in *. destruct (cstr_eqb (wa_name b) x); auto.
Qed.

Lemma local_find_ext x g g' i : ext g g' -> local_find (wg_locals g) x 0 = Some i -> local_find (wg_locals g') x 0 = Some i.
Proof. intros [[l E] _ _ _ _] F. rewrite E. now apply local_find_app. Qed.

Lemma array_typed g x a : inv g -> wg_array_find x g = Some a -> exists ty, Del x = Some ty /\ array_ok a ty.
Proof.
  intros I F. apply array_find_in in F as [Hin <-]. exact (proj1 (Forall_forall _ _) (as_ok _ _ (iv_arrays _ I)) a Hin).
Qed.

Lemma float_op_run op o a b v : fop_of op = Some o -> float_op op a b = Some v ->
  run_float o a b = v /\ value_ok v /\ vtype v = (if arith op then WT_F64 else WT_I32).
Proof.
  intros Ho Hv. destruct op; try discriminate; injection Ho as <-; injection Hv as <-; cbn; auto with arche.
Qed.

(** ** Types of values *)

Definition typed (v : val) (t : HirType) : Prop := value_ok v /\ vtype v = wg_wtype t.

Record env_ok (r : Env) : Prop := mkEnvOk {
  eo_scal : forall x v, e_scal r x = Some v -> value_ok v /\ Gam x = Some (vtype v);
  eo_arr : forall x vs, e_arr r x = Some vs -> exists ty, Del x = Some ty /\ (Z.of_nat (List.length vs) < 2 ^ 31)%Z /\
    forall k v, nth_error vs k = Some v -> value_ok v /\ vtype v = acc_wt (at_acc ty)
}.

Section WithFinal.
Context {gF : Wg} {Fin : Final gF}.
Abbreviation agree := (agree gF).

(** The values of the scalars have the types of their names. *)
Lemma agree_scal g r st x v : agree g r st -> e_scal r x = Some v -> value_ok v /\ Gam x = Some (vtype v).
Proof.
  intros A E. destruct (ag_scal _ _ _ _ A x v E) as (i & F & N). apply local_find_nth in F as (_ & l & L & <-).
  rewrite Nat.sub_0_r in L. pose proof (lo_types _ _ (iv_locals _ final)) as T.
  pose proof (proj1 (Forall_forall _ _) T l (nth_error_In _ _ L)) as G.
  assert (P : value_ok v /\ vtype v = wl_wt l).
  { exact (Forall2_nth _ _ _ _ _ _ (ag_locals _ _ _ _ A) L N). }
  destruct P as [P1 P2]. split; [exact P1|]. now rewrite G, P2.
Qed.

Lemma agree_ext g g' r st : ext g g' -> agree g r st -> agree g' r st.
Proof.
  intros X [A1 A2 A3 A4 A5 A6]. split; auto. intros x vs E. destruct (A3 x vs E) as (a & ty & F & D & Hh).
  exists a, ty. split; [now apply (array_find_ext x g g')|auto].
Qed.

(** The places of the arrays in the memory. *)
Lemma array_place g x a : inv g -> ext g gF -> wg_array_find x g = Some a ->
  In a (wg_arrays gF) /\ (16384 <= wa_base a)%Z /\ (array_end a <= mem_size)%Z.
Proof.
  intros I X F. apply (array_find_ext _ _ _ _ X) in F. apply array_find_in in F as [Hin _].
  split; [exact Hin|]. pose proof (iv_arrays _ final) as [_ _ _ L Hh _].
  split; [exact (proj1 (Forall_forall _ _) L a Hin)|].
  pose proof (proj1 (Forall_forall _ _) Hh a Hin) as B. cbn beta in B. pose proof arrays_fit. lia.
Qed.

Lemma agree_env g r st : inv g -> ext g gF -> agree g r st -> env_ok r.
Proof.
  intros I X A. split; [intros x v; exact (agree_scal g r st x v A)|]. intros x vs E.
  destruct (ag_arr _ _ _ _ A x vs E) as (a & ty & F & D & L & K). exists ty. split; [exact D|]. split.
  - destruct (array_typed g x a I F) as (ty' & D' & O). rewrite D in D'. injection D' as <-.
    destruct (array_place g x a I X F) as (_ & Lo & Hi). unfold array_end, mem_size in Hi. rewrite (ao_size _ _ O) in Hi.
    pose proof (ao_pos _ _ O). assert (1 <= Z.of_nat (acc_size (at_acc ty)))%Z by (destruct (at_acc ty); cbn; lia). nia.
  - intros k v N. destruct (K k v N) as (V1 & V2 & _). auto.
Qed.

(** The address of an element, as the machine checks it. *)
Lemma elem_checked g x a ty k arr m r st :
  inv g -> ext g gF -> agree g r st -> wg_array_find x g = Some a -> Del x = Some ty -> e_arr r x = Some arr -> k < List.length arr ->
  m = acc_size (at_acc ty) -> u32 (elem_addr a k) = elem_addr a k /\ in_bounds (elem_addr a k) m = true.
Proof.
  intros Iv X A F D Ea Hk ->. destruct (array_typed g x a Iv F) as (ty' & D' & O). rewrite D in D'. injection D' as <-.
  destruct (ag_arr _ _ _ _ A x arr Ea) as (a' & ty' & F' & _ & L & _). rewrite F in F'. injection F' as <-.
  destruct (array_place g x a Iv X F) as (_ & Lo & Hi). destruct (elem_inside a ty k O ltac:(lia)) as [E1 E2].
  unfold mem_size in Hi. assert (U : u32 (elem_addr a k) = elem_addr a k) by (apply u32_small; lia).
  split; [exact U|]. unfold in_bounds, mem_size. rewrite U. apply Z.leb_le. lia.
Qed.

End WithFinal.

Lemma vtype_int v : vtype v = WT_I32 -> exists z, v = VI z.
Proof. destruct v; [eauto|discriminate]. Qed.

Lemma vtype_float v : vtype v = WT_F64 -> exists b, v = VF b.
Proof. destruct v; [discriminate|eauto]. Qed.

Lemma is_float_wtype t : wg_wtype t = if is_float t then WT_F64 else WT_I32.
Proof. unfold is_float, wg_wtype. destruct (is_tag t HIR_TYPE_FLOAT); reflexivity. Qed.

Lemma as_float_ok v : value_ok v -> f64_range (as_float v).
Proof. destruct v; cbn; auto with arche. Qed.

(** A checked operator on typed values has a typed result. *)
Lemma bin_typed op l r t v w u :
  bin_ok op l r t = true -> typed v l -> typed w r -> bin_op op v w = Some u -> typed u t.
Proof.
  unfold bin_ok, typed. rewrite !is_float_wtype. intros B [V1 V2] [W1 W2] E.
  destruct (is_float l || is_float r) eqn:F.
  - apply andb_true_iff in B as [B Bt]. apply eqb_prop in Bt. rewrite Bt. bool_hyps.
    assert (E' : float_op op (as_float v) (as_float w) = Some u).
    { destruct v, w; try exact E. cbn in V2, W2. destruct (is_float l), (is_float r); discriminate. }
    pose proof (binop_f_code op) as C. destruct (fop_of op) as [o|] eqn:O.
    + now destruct (float_op_run op o _ _ u O E') as (_ & U1 & U2).
    + rewrite C in *. discriminate.
  - apply orb_false_iff in F as [Fl Fr]. rewrite Fl in V2. rewrite Fr in W2. apply andb_true_iff in B as [Bt B].
    apply negb_true_iff in Bt. rewrite Bt. destruct (vtype_int _ V2) as [a ->], (vtype_int _ W2) as [b ->]. cbn in E.
    destruct (int_op op a b) as [z|] eqn:Z; [|discriminate]. injection E as <-. split; [|reflexivity].
    destruct (iop_of op) as [o|] eqn:O; [|destruct op; discriminate].
    now destruct (int_op_run op o a b z O V1 W1 Z).
Qed.

Context {Cok : ConstsOk}.

Lemma const_of_in nm c v : const_of consts nm = Some (c, v) -> wt_expr consts Gam Del v = true.
Proof.
  intros F. apply find_some in F as [I _]. exact (proj1 (Forall_forall _ _) consts_ok _ I).
Qed.

Lemma lit_typed t lx v : lit_ok t lx = true -> lit_value t lx = Some v -> typed v t.
Proof.
  intros L E. destruct (literal_emits t lx wg_start L) as [_ K]. rewrite E in K. unfold typed. rewrite is_float_wtype.
  destruct v as [z|b]; destruct K as (-> & K & R).
  - now split.
  - now split.
Qed.

Lemma index_nth v vs k : index_of v vs = Some k -> exists i, v = VI i /\ (0 <= i < Z.of_nat (List.length vs))%Z /\ k = Z.to_nat i.
Proof.
  unfold index_of. destruct v as [i|]; [|discriminate]. destruct (_ && _) eqn:E; [|discriminate]. intros [= <-].
  apply andb_true_iff in E as [E1 E2]. apply Z.leb_le in E1. apply Z.ltb_lt in E2. eauto.
Qed.

Lemma eval_typed k r e v : env_ok r -> wt_expr consts Gam Del e = true -> eval consts k r e = Some v -> typed v (he_resolved e).
Proof.
  intros R. revert e v; induction k as [|k IH]; intros e v W E; [discriminate|]. destruct e as [loc t d]. cbn [he_resolved].
  cbn [eval he_data he_resolved] in E. destruct d; cbn [wt_expr] in W; try discriminate.
  - exact (lit_typed _ _ _ W E).
  - destruct (const_of consts name) as [[c u]|] eqn:C.
    + apply Z.eqb_eq in W. pose proof (IH u v (const_of_in _ _ _ C) E) as [T1 T2]. unfold typed. now rewrite <- W.
    + destruct (eo_scal _ R name v E) as [V G]. rewrite G in W. apply Z.eqb_eq in W. now split.
  - destruct field_name as [n|]; [|discriminate]. unfold name_of in E. bool_hyps.
    destruct (he_data base); try discriminate. destruct (e_arr r name) as [vs|] eqn:A; [|discriminate]. injection E as <-.
    destruct (eo_arr _ R name vs A) as (ty & _ & L & _). unfold typed. rewrite is_float_wtype.
    match goal with H : is_float t = false |- _ => rewrite H end. split; [|reflexivity]. unfold value_ok, i32_range. lia.
  - destruct indices as [|i [|]]; try discriminate. unfold array_of, name_of in *. destruct (he_data base); try discriminate.
    destruct (Del name) as [ty|] eqn:D; [|discriminate]. bool_hyps. destruct (e_arr r name) as [vs|] eqn:A; [|discriminate].
    destruct (eval consts k r i) as [u|]; [|discriminate]. destruct (index_of u vs) as [j|]; [|discriminate].
    destruct (eo_arr _ R name vs A) as (ty' & D' & _ & K). rewrite D in D'. injection D' as <-.
    destruct (K j v E) as [V1 V2]. split; [exact V1|]. rewrite V2. symmetry. now apply Z.eqb_eq.
  - bool_hyps. destruct (eval consts k r left) as [a|] eqn:El; [|discriminate]. destruct (eval consts k r right) as [b|] eqn:Er; [|discriminate].
    eapply bin_typed; eauto.
Qed.

(** ** Expressions *)

(** [code], emitted from [g] to [g'], leaves the values [res r] gives on the stack, the last one on
    top, and changes nothing else. *)
Definition pushes (g g' : Wg) (code : list Instr) (res : Env -> list val -> Prop) : Prop :=
  emits g g' code /\ wf_code code = true /\ inv g' /\ wg_arrays g' = wg_arrays g /\
  forall gF (Fin : Final gF) r st vs, ext g' gF -> agree gF g r st -> res r vs ->
    forall n stk, run n code st stk = Norm st (vs ++ stk).

Definition value_of (e : HirExpr) (r : Env) (vs : list val) : Prop :=
  exists k v, eval consts k r e = Some v /\ vs = [v].

Lemma inv_body b g : inv g -> inv (set_body b g).
Proof. intros [[L1 L2 L3] [A1 A2 A3 A4 A5 A6] C B]. now repeat split. Qed.

Lemma inv_const v g : inv g -> inv (g_const v g).
Proof. apply inv_body. Qed.

Lemma inv_put vs g : inv g -> inv (put vs g).
Proof. apply inv_body. Qed.

Lemma wf_app a b : wf_code (a ++ b) = wf_code a && wf_code b.
Proof. apply forallb_app. Qed.

(** Two emissions one after the other. *)
Lemma pushes_app a b c x y res1 res2 :
  pushes a b x res1 -> pushes b c y res2 ->
  pushes a c (x ++ y) (fun r vs => exists vs1 vs2, res1 r vs1 /\ res2 r vs2 /\ vs = vs2 ++ vs1).
Proof.
  intros (E1 & W1 & I1 & A1 & R1) (E2 & W2 & I2 & A2 & R2). split; [now apply (emits_app a b c)|]. split; [now rewrite wf_app, W1, W2|].
  split; [exact I2|]. split; [congruence|]. intros gF Fin r st vs X A (vs1 & vs2 & H1 & H2 & ->) n stk. rewrite exec_app.
  rewrite (R1 gF Fin r st vs1); [|exact (ext_trans _ _ _ (proj1 E2) X)|exact A|exact H1].
  rewrite (R2 gF Fin r st vs2); [now rewrite app_assoc|exact X|exact (agree_ext _ _ _ _ (proj1 E1) A)|exact H2].
Qed.

Lemma pushes_impl a b x res res' :
  inv a ->
  (forall gF (Fin : Final gF) r st vs, ext a gF -> agree gF a r st -> env_ok r -> res' r vs -> res r vs) ->
  pushes a b x res -> pushes a b x res'.
Proof.
  intros Ia K (E & W & I & Aq & R). split; [exact E|]. split; [exact W|]. split; [exact I|]. split; [exact Aq|].
  intros gF Fin r st vs X A Hr n stk. apply (R gF Fin r st vs); auto. pose proof (ext_trans _ _ _ (proj1 E) X) as X'.
  exact (K gF Fin r st vs X' A (agree_env a r st Ia X' A) Hr).
Qed.

Lemma pushes_const v g : inv g -> pushes g (g_const v g) [I_const (s32 v)] (fun _ vs => vs = [VI (s32 v)]).
Proof.
  intros I. split; [apply const_emits|]. split.
  - pose proof (s32_range v) as R. unfold wf_code. cbn [forallb wf_instr]. rewrite !andb_true_iff, Z.leb_le, Z.ltb_lt. lia.
  - split; [now apply inv_const|]. split; [reflexivity|]. now intros gF _ r st vs _ _ -> n stk.
Qed.

(** An instruction appended to code that pushes its operands. *)
Lemma pushes_op a b x res vs i (f : Env -> list val -> list val -> Prop) :
  inv a -> pushes a b x res -> vs = enc i -> wf_instr i = true ->
  (match i with I_block _ | I_loop _ | I_if _ _ => False | _ => True end) ->
  (forall gF (Fin : Final gF) r st ws us, env_ok r -> ext b gF -> agree gF a r st -> res r ws -> f r ws us -> forall stk, step arity i st (ws ++ stk) = Norm st (us ++ stk)) ->
  pushes a (put vs b) (x ++ [i]) (fun r us => exists ws, res r ws /\ f r ws us).
Proof.
  intros Ia (E & W & I & Aq & R) -> Wi Li S. split; [|split; [|split; [|split]]].
  - apply (emits_app a b); [exact E|]. apply put_emits. unfold enc_seq. cbn. now rewrite app_nil_r.
  - rewrite wf_app, W. cbn. now rewrite Wi.
  - now apply inv_put.
  - exact Aq.
  - intros gF Fin r st us X A (ws & Hw & Hu) n stk.
    pose proof (ext_trans _ _ _ (put_ext (enc i) b) X) as X'. rewrite exec_app, (R gF Fin r st ws); [|exact X'|exact A|exact Hw].
    pose proof (agree_env a r st Ia (ext_trans _ _ _ (proj1 E) X') A) as Eo.
    rewrite exec_step by exact Li. now rewrite (S gF Fin r st ws us Eo X' A Hw Hu).
Qed.

Definition fint (o : IOp) (_ : Env) (ws us : list val) : Prop :=
  exists a b z rest, ws = VI b :: VI a :: rest /\ run_int o a b = Some z /\ us = VI z :: rest.

Lemma pushes_int o a b x res vs :
  inv a -> pushes a b x res -> vs = [iop_code o] ->
  pushes a (put vs b) (x ++ [I_int o]) (fun r us => exists ws, res r ws /\ fint o r ws us).
Proof.
  intros Ia P ->. eapply pushes_op; [exact Ia|exact P|reflexivity|reflexivity|exact I|].
  intros ? ? r st ws us _ _ _ _ (p & q & z & rest & -> & E & ->) stk. cbn. now rewrite E.
Qed.

(** *** The parts of an expression, for an emitter of its subexpressions *)

Definition emit_sim (emit : HirExpr -> Wg -> res Wg) : Prop :=
  forall e g g', wt_expr consts Gam Del e = true -> inv g -> emit e g = Ok g' -> wg_local_count g' <= 256 ->
  exists code, pushes g g' code (value_of e).

Section Parts.
Variable emit : HirExpr -> Wg -> res Wg.
Hypothesis sim : emit_sim emit.
Hypothesis grows : forall e, extends (emit e).

(** The value of [e] as a float. *)
Definition float_of (e : HirExpr) (r : Env) (vs : list val) : Prop :=
  exists k v, eval consts k r e = Some v /\ vs = [VF (as_float v)].

Lemma as_float_sim e g g' :
  wt_expr consts Gam Del e = true -> inv g -> wg_emit_as_float emit e g = Ok g' -> wg_local_count g' <= 256 ->
  exists code, pushes g g' code (float_of e).
Proof.
  intros W Iv H1 Hc. unfold wg_emit_as_float in H1. ok_hyps. fold (is_float (he_resolved e)) in *.
  destruct (sim e g x W Iv H2 ltac:(destruct (is_float _); exact Hc)) as [code P]. destruct (is_float (he_resolved e)) eqn:F; cbn [negb].
  - exists code. revert P. apply pushes_impl; [exact Iv|]. intros ? ? r ? vs _ _ Eo (k & v & E & ->). exists k, v. split; [exact E|].
    destruct (eval_typed k r e v Eo W E) as [_ T]. rewrite is_float_wtype, F in T. now destruct (vtype_float v T) as [b ->].
  - eexists. eapply (pushes_impl _ _ _ _ _ Iv); [|eapply (pushes_op _ _ _ _ _ I_convert
      (fun r ws us => exists v, ws = [v] /\ us = [VF (as_float v)] /\ vtype v = WT_I32)); [exact Iv|exact P|reflexivity|reflexivity|exact I|]].
    + intros ? ? r ? vs _ _ Eo (k & v & E & ->). exists [v]. split; [now exists k, v|]. exists v. repeat split.
      destruct (eval_typed k r e v Eo W E) as [_ T]. now rewrite is_float_wtype, F in T.
    + intros ? ? r st ws us _ _ _ _ (v & -> & -> & T) stk. now destruct (vtype_int v T) as [z ->].
Qed.

(** Both operands, then the instruction. *)
Lemma binary_sim loc t op l r pol g g' :
  wt_expr consts Gam Del (mkHirExpr loc t (HE_BINARY op l r pol)) = true -> inv g ->
  emit_binary emit op l r g = Ok g' -> wg_local_count g' <= 256 ->
  exists code, pushes g g' code (value_of (mkHirExpr loc t (HE_BINARY op l r pol))).
Proof.
  cbn [wt_expr]. intros W Iv H1 Hc. apply andb_true_iff in W as [W B]. apply andb_true_iff in W as [Wl Wr].
  unfold emit_binary in H1. cbn zeta in H1. fold (is_float (he_resolved l)) (is_float (he_resolved r)) in H1.
  destruct (is_float (he_resolved l) || is_float (he_resolved r)) eqn:F.
  - pose proof (binop_f_code op) as C. unfold bin_ok in B. rewrite F in B. destruct (fop_of op) as [o|] eqn:O; [|rewrite C in B; discriminate].
    destruct C as [C Nz]. destruct (Z.eqb_spec (binop_f op) 0); [contradiction|]. ok_hyps.
    destruct (as_float_sim l g x Wl Iv H2) as [c1 P1]; [pose proof (ex_count _ _ (as_float_ext _ grows _ _ _ H3)); cbn in Hc; lia|].
    destruct (as_float_sim r x x0 Wr (proj1 (proj2 (proj2 P1))) H3 Hc) as [c2 P2].
    eexists. eapply (pushes_impl _ _ _ _ _ Iv); [|eapply (pushes_op _ _ _ _ _ (I_float o)
      (fun r ws us => exists a b u, ws = [VF b; VF a] /\ us = [u] /\ float_op op a b = Some u)); [exact Iv|exact (pushes_app _ _ _ _ _ _ _ P1 P2)|now rewrite C|reflexivity|exact I|]].
    + intros ? ? r0 ? vs _ _ Eo (k & v & E & ->). destruct k as [|k]; [discriminate|]. cbn [eval he_data] in E.
      destruct (eval consts k r0 l) as [a|] eqn:El; [|discriminate]. destruct (eval consts k r0 r) as [b|] eqn:Er; [|discriminate].
      exists [VF (as_float b); VF (as_float a)]. split.
      * exists [VF (as_float a)], [VF (as_float b)]. split; [now exists k, a|]. split; [now exists k, b|reflexivity].
      * exists (as_float a), (as_float b), v. repeat split.
        destruct (eval_typed k r0 l a Eo Wl El) as [_ Ta]. destruct (eval_typed k r0 r b Eo Wr Er) as [_ Tb].
        rewrite is_float_wtype in Ta, Tb. destruct a, b; try exact E.
        destruct (is_float (he_resolved l)), (is_float (he_resolved r)); discriminate.
    + intros ? ? r0 st ws us _ _ _ _ (a & b & u & -> & -> & E) stk. cbn. now rewrite (proj1 (float_op_run op o a b u O E)).
  - pose proof (binop_i_code op) as C. unfold bin_ok in B. rewrite F in B. apply andb_true_iff in B as [_ B].
    destruct (iop_of op) as [o|] eqn:O; [|destruct op; discriminate].
    destruct C as [C Nz]. destruct (Z.eqb_spec (binop_i op) 0); [contradiction|]. ok_hyps.
    destruct (sim l g x Wl Iv H2) as [c1 P1]; [pose proof (ex_count _ _ (grows _ _ _ H3)); cbn in Hc; lia|].
    destruct (sim r x x0 Wr (proj1 (proj2 (proj2 P1))) H3 Hc) as [c2 P2]. apply orb_false_iff in F as [Fl Fr].
    eexists. eapply (pushes_impl _ _ _ _ _ Iv); [|eapply (pushes_op _ _ _ _ _ (I_int o)
      (fun r ws us => exists a b u, ws = [VI b; VI a] /\ us = [VI u] /\ run_int o a b = Some u)); [exact Iv|exact (pushes_app _ _ _ _ _ _ _ P1 P2)|now rewrite C|reflexivity|exact I|]].
    + intros ? ? r0 ? vs _ _ Eo (k & v & E & ->). destruct k as [|k]; [discriminate|]. cbn [eval he_data] in E.
      destruct (eval consts k r0 l) as [a|] eqn:El; [|discriminate]. destruct (eval consts k r0 r) as [b|] eqn:Er; [|discriminate].
      destruct (eval_typed k r0 l a Eo Wl El) as [Va Ta]. destruct (eval_typed k r0 r b Eo Wr Er) as [Vb Tb].
      rewrite is_float_wtype, Fl in Ta. rewrite is_float_wtype, Fr in Tb.
      destruct (vtype_int a Ta) as [i ->], (vtype_int b Tb) as [j ->]. cbn in E.
      destruct (int_op op i j) as [z|] eqn:Z; [|discriminate]. injection E as <-.
      exists [VI j; VI i]. split; [exists [VI i], [VI j]; split; [now exists k, (VI i)|]; split; [now exists k, (VI j)|reflexivity]|].
      exists i, j, z. repeat split. exact (proj1 (int_op_run op o i j z O Va Vb Z)).
    + intros ? ? r0 st ws us _ _ _ _ (a & b & u & -> & -> & E) stk. cbn. now rewrite E.
Qed.

(** The address of element [i] of the array [a] named [x]. *)
Definition addr_of (a : WgArray) (x : cstr) (i : HirExpr) (r : Env) (vs : list val) : Prop :=
  exists k v arr j, eval consts k r i = Some v /\ e_arr r x = Some arr /\ index_of v arr = Some j /\ vs = [VI (elem_addr a j)].

Lemma elem_addr_sim a x i g g' :
  wt_expr consts Gam Del i = true -> inv g -> wg_array_find x g = Some a ->
  wg_emit_elem_addr emit a i g = Ok g' -> wg_local_count g' <= 256 ->
  exists code, pushes g g' code (addr_of a x i).
Proof.
  intros W Iv F H1 Hc. unfold wg_emit_elem_addr in H1. ok_hyps.
  destruct (sim i _ _ W (inv_const (wa_base a) g Iv) H2) as [c P]; [destruct (negb _); exact Hc|].
  pose proof (pushes_app _ _ _ _ _ _ _ (pushes_const (wa_base a) g Iv) P) as Q. clear P.
  destruct (array_typed g x a Iv F) as (ty & D & O).
  (* the numbers stay inside the memory *)
  assert (K : forall gF (Fin : Final gF) r st v arr j, ext g gF -> agree gF g r st -> e_arr r x = Some arr -> index_of v arr = Some j ->
    exists z, v = VI z /\ s32 (wa_base a) = wa_base a /\ s32 (wa_elem_size a) = wa_elem_size a /\ z = Z.of_nat j /\
      s32 (z * wa_elem_size a) = (z * wa_elem_size a)%Z /\ s32 (wa_base a + z * wa_elem_size a) = elem_addr a j).
  { intros gF Fin r st v arr j X A Ea Ej. destruct (index_nth v arr j Ej) as (z & -> & Hz & ->).
    destruct (ag_arr _ _ _ _ A x arr Ea) as (a' & ty' & F' & D' & L & _). rewrite F in F'. injection F' as <-.
    destruct (array_place g x a Iv X F) as (_ & Lo & Hi). unfold array_end, mem_size in Hi. rewrite L in Hz.
    assert (S : (1 <= wa_elem_size a <= 8)%Z) by (rewrite (ao_size _ _ O); destruct (at_acc ty); cbn; lia).
    exists z. unfold elem_addr. rewrite Z2Nat.id by lia. pose proof (ao_pos _ _ O).
    repeat split; try (apply s32_id; unfold i32_range; nia). }
  destruct (Z.eqb_spec (wa_elem_size a) 1) as [S1|S1]; cbn [negb].
  - eexists. eapply (pushes_impl _ _ _ _ _ Iv); [|eapply (pushes_int i_add); [exact Iv|exact Q|reflexivity]].
    intros gF Fin r st vs X A Eo (k & v & arr & j & E & Ea & Ej & ->). destruct (K gF Fin r st v arr j X A Ea Ej) as (z & -> & K1 & _ & _ & K3 & K4).
    rewrite S1, Z.mul_1_r in K4. exists [VI z; VI (wa_base a)]. split.
    + exists [VI (s32 (wa_base a))], [VI z]. split; [reflexivity|]. split; [now exists k, (VI z)|now rewrite K1].
    + exists (wa_base a), z, (elem_addr a j), []. repeat split. cbn. now rewrite K4.
  - pose proof (pushes_app _ _ _ _ _ _ _ Q (pushes_const (wa_elem_size a) _ (proj1 (proj2 (proj2 Q))))) as Q2.
    eexists. eapply (pushes_impl _ _ _ _ _ Iv); [|eapply (pushes_int i_add); [exact Iv| |reflexivity]; eapply (pushes_int i_mul); [exact Iv|exact Q2|reflexivity]].
    intros gF Fin r st vs X A Eo (k & v & arr & j & E & Ea & Ej & ->). destruct (K gF Fin r st v arr j X A Ea Ej) as (z & -> & K1 & K2 & _ & K3 & K4).
    exists [VI (z * wa_elem_size a); VI (wa_base a)]. split.
    + exists [VI (wa_elem_size a); VI z; VI (wa_base a)]. split.
      * exists [VI z; VI (wa_base a)], [VI (s32 (wa_elem_size a))]. split; [|split; [reflexivity|now rewrite K2]].
        exists [VI (s32 (wa_base a))], [VI z]. split; [reflexivity|]. split; [now exists k, (VI z)|now rewrite K1].
      * exists z, (wa_elem_size a), (z * wa_elem_size a)%Z, [VI (wa_base a)]. repeat split. cbn. now rewrite K3.
    + exists (wa_base a), (z * wa_elem_size a)%Z, (elem_addr a j), []. repeat split. cbn. now rewrite K4.
Qed.

(** The element [i] of the array named [x]. *)
Definition elem_of (x : cstr) (i : HirExpr) (r : Env) (vs : list val) : Prop :=
  exists k u arr j v, eval consts k r i = Some u /\ e_arr r x = Some arr /\ index_of u arr = Some j /\ nth_error arr j = Some v /\ vs = [v].

Lemma load_sim a ty x i g g' :
  wt_expr consts Gam Del i = true -> inv g -> wg_array_find x g = Some a -> Del x = Some ty ->
  wg_emit_elem_addr emit a i g = Ok g' -> wg_local_count g' <= 256 ->
  exists code, pushes g (wg_emit_load a g') code (elem_of x i).
Proof.
  intros W Iv F D E Hc. destruct (array_typed g x a Iv F) as (ty' & D' & O). rewrite D in D'. injection D' as <-.
  destruct (elem_addr_sim a x i g g' W Iv F E Hc) as [c P].
  eexists. eapply (pushes_impl _ _ _ _ _ Iv); [|eapply (pushes_op _ _ _ _ _ (I_load (at_acc ty))
    (fun r ws us => exists arr j v, ws = [VI (elem_addr a j)] /\ us = [v] /\ e_arr r x = Some arr /\ nth_error arr j = Some v));
    [exact Iv|exact P|exact (ao_load _ _ O)|reflexivity|exact I|]].
  - intros gF Fin r st vs X A Eo (k & u & arr & j & v & Eu & Ea & Ej & N & ->).
    exists [VI (elem_addr a j)]. split; [now exists k, u, arr, j|]. now exists arr, j, v.
  - intros gF Fin r st ws us Eo X A _ (arr & j & v & -> & -> & Ea & N) stk. cbn.
    destruct (ag_arr _ _ _ _ A x arr Ea) as (a' & ty' & F' & D' & L & K). rewrite F in F'. injection F' as <-. rewrite D in D'. injection D' as <-.
    assert (Hj : j < List.length arr) by (apply nth_error_Some; congruence).
    pose proof (elem_addr_ext _ grows a i g g' E) as Xg.
    destruct (elem_checked g x a ty j arr _ r st Iv (ext_trans _ _ _ Xg X) A F D Ea Hj eq_refl) as [-> ->].
    destruct (K j v N) as (_ & _ & ->). reflexivity.
Qed.
End Parts.

Lemma array_base_ok base x g : name_of base = Some x -> array_base base g = wg_array_find x g.
Proof. unfold name_of, array_base. destruct (he_data base); try discriminate. now intros [= ->]. Qed.

(** A constant zero, for code that has no meaning. *)
Lemma pushes_none g (e : HirExpr) v :
  inv g ->
  (forall gF (Fin : Final gF) r st k w, ext g gF -> agree gF g r st -> eval consts k r e = Some w -> w = VI (s32 v)) ->
  exists code, pushes g (g_const v g) code (value_of e).
Proof.
  intros Iv K. eexists. eapply pushes_impl; [exact Iv| |apply pushes_const, Iv].
  intros gF Fin r st vs X A _ (k & w & E & ->). now rewrite (K gF Fin r st k w X A E).
Qed.

Lemma small_index i : i <= 256 -> small (Z.of_nat i).
Proof. unfold small. lia. Qed.

(** The emitted code of a checked expression computes its value. *)
Lemma expr_sim f : emit_sim (wg_emit_expr f).
Proof.
  induction f as [|f IH]; intros e g g' W Iv H1 Hc; [discriminate|]. destruct e as [loc t d].
  cbn [wg_emit_expr he_data he_resolved] in H1. destruct d; try discriminate.
  - (* a literal *)
    injection H1 as <-. cbn [wt_expr] in W. destruct (literal_emits t lexeme g W) as [E K]. exists [literal_instr t lexeme].
    split; [exact E|]. split; [|split; [|split]].
    + unfold wf_code. cbn [forallb]. rewrite andb_true_r.
      destruct (lit_value t lexeme) as [[z|b]|]; [| |contradiction]; destruct K as (_ & -> & R); cbn [wf_instr];
        rewrite andb_true_iff, Z.leb_le, Z.ltb_lt; [unfold i32_range in R; lia|unfold f64_range in R; lia].
    + unfold emit_literal. repeat match goal with |- context [if ?b then _ else _] => destruct b end; apply inv_body, Iv.
    + unfold emit_literal. repeat match goal with |- context [if ?b then _ else _] => destruct b end; reflexivity.
    + intros gF Fin r st vs _ _ (k & v & Ev & ->) n stk. destruct k as [|k]; [discriminate|]. cbn [eval he_data he_resolved] in Ev.
      rewrite Ev in K. destruct v as [z|b]; destruct K as (_ & -> & _); reflexivity.
  - (* a name *)
    cbn [wt_expr] in W. rewrite (iv_consts _ Iv) in H1. fold (const_of consts name) in H1. destruct (const_of consts name) as [[c u]|] eqn:C.
    + destruct (IH u g g' (const_of_in _ _ _ C) Iv H1 Hc) as [code P]. exists code. revert P. apply pushes_impl; [exact Iv|].
      intros ? ? r st vs _ _ _ (k & v & Ev & ->). destruct k as [|k]; [discriminate|]. cbn [eval he_data] in Ev. rewrite C in Ev. now exists k, v.
    + ok_hyps. cbn [he_resolved] in *. destruct (Gam name) as [wt|] eqn:G; [|discriminate]. apply Z.eqb_eq in W. subst wt.
      destruct (wg_local_ok Gam name _ g n w (iv_locals _ Iv) G H2 Hc) as (E & L & Ea & Ec & Es & F).
      pose proof (lo_bound _ _ L) as B. destruct (local_find_nth _ _ _ _ F) as (_ & l & N & _).
      rewrite Nat.sub_0_r in N. assert (Hn : n < 256).
      { pose proof (proj1 (nth_error_Some (wg_locals w) n) ltac:(congruence)).
        rewrite (lo_count _ _ L) in B. lia. }
      exists [I_get n]. split; [|split; [|split; [|split]]].
      * apply (emits_app g w _ [] [I_get n]); [exact E|]. apply get_emits, small_index. lia.
      * unfold wf_code. cbn [forallb wf_instr]. rewrite andb_true_r. apply Z.ltb_lt. lia.
      * apply inv_body. destruct Iv as [_ [A1 A2 A3 A4 A5 A6] Ic Ib]. destruct E as [[_ _ _ Ef _] _]. injection Ef as _ F1 F2 F3 F4 F5.
        split; [exact L| |congruence|congruence]. split; rewrite ?Ea, ?Ec; assumption.
      * exact Ea.
      * intros gF Fin r st vs X A (k & v & Ev & ->) n' stk. destruct k as [|k]; [discriminate|]. cbn [eval he_data] in Ev. rewrite C in Ev.
        destruct (ag_scal _ _ _ _ A name v Ev) as (i & Fi & Ni). pose proof (local_find_ext name w gF n (ext_trans _ _ _ (get_ext n w) X) F) as Fn.
        rewrite Fn in Fi. injection Fi as <-. cbn. now rewrite Ni.
  - (* the length of an array *)
    cbn [wt_expr] in W. destruct field_name as [fn|]; [|discriminate]. apply andb_true_iff in W as [W _].
    apply andb_true_iff in W as [Wn Wa]. rewrite Wn in H1.
    unfold array_of in *. destruct (name_of base) as [x|] eqn:Nb; [|discriminate]. rewrite (array_base_ok _ _ _ Nb) in H1.
    assert (Z0 : forall gF (Fin : Final gF) r st k v, ext g gF -> agree gF g r st -> eval consts k r (mkHirExpr loc t (HE_FIELD base (Some fn))) = Some v ->
      exists a, wg_array_find x g = Some a /\ v = VI (s32 (wa_total a))).
    { intros gF Fin r st k v X A Ev. destruct k as [|k]; [discriminate|]. cbn [eval he_data] in Ev. rewrite Nb in Ev.
      destruct (e_arr r x) as [arr|] eqn:Ea; [|discriminate]. injection Ev as <-.
      destruct (ag_arr _ _ _ _ A x arr Ea) as (a & ty & F & D & L & _). exists a. split; [exact F|]. rewrite L, s32_id; [reflexivity|].
      destruct (eo_arr _ (agree_env g r st Iv X A) x arr Ea) as (_ & _ & B & _). unfold i32_range. lia. }
    destruct (wg_array_find x g) as [a|] eqn:F; injection H1 as <-; apply (pushes_none _ _ _ Iv); intros gF Fin r st k v X A Ev;
      destruct (Z0 gF Fin r st k v X A Ev) as (a' & E & ->); congruence.
  - (* an element *)
    cbn [wt_expr] in W. destruct indices as [|i [|]]; try discriminate. unfold array_of in W.
    destruct (name_of base) as [x|] eqn:Nb; [|discriminate]. rewrite (array_base_ok _ _ _ Nb) in H1.
    destruct (Del x) as [ty|] eqn:D; [|discriminate]. bool_hyps. destruct (wg_array_find x g) as [a|] eqn:F.
    + ok_hyps. destruct (load_sim _ IH (expr_ext f) a ty x i g x0 ltac:(eassumption) Iv F D ltac:(eassumption) Hc) as [c P].
      exists c. revert P. apply pushes_impl; [exact Iv|]. intros gF Fin r st vs X A Eo (k & v & Ev & ->).
      destruct k as [|k]; [discriminate|]. cbn [eval he_data] in Ev. rewrite Nb in Ev.
      destruct (e_arr r x) as [arr|] eqn:Ea; [|discriminate]. destruct (eval consts k r i) as [u|] eqn:Eu; [|discriminate].
      destruct (index_of u arr) as [j|] eqn:Ej; [|discriminate]. now exists k, u, arr, j, v.
    + injection H1 as <-. apply (pushes_none _ _ _ Iv). intros gF Fin r st k v X A Ev. destruct k as [|k]; [discriminate|].
      cbn [eval he_data] in Ev. rewrite Nb in Ev. destruct (e_arr r x) as [arr|] eqn:Ea; [|discriminate].
      destruct (ag_arr _ _ _ _ A x arr Ea) as (a & ty' & F' & _). congruence.
  - exact (binary_sim _ IH (expr_ext f) loc t op left right policy g g' W Iv H1 Hc).
Qed.
End Sim.
