(* ===== verification/WasmGenStmt.v ===== *)
(** * The emitted statements do what the statements do

    Stores into the local arrays, bindings, assignments, prints, loops and conditionals, and the
    body of the whole program. *)

From S2P Require Import Prelude Hir Lexer LexerFacts WasmEncode WasmProps WasmGen WasmSem HirSem WasmGenFacts WasmGenLits WasmGenSim.

(** ** Elements of arrays *)

Lemma le_bytes_load bits n z : (bits = 8 * Z.of_nat n)%Z -> (0 < bits)%Z ->
  signed bits (of_bytes (le_bytes n z)) = signed bits z.
Proof.
  intros -> Hb. rewrite of_le_bytes. replace (256 ^ Z.of_nat n)%Z with (2 ^ (8 * Z.of_nat n))%Z by (now rewrite Z.pow_mul_r by lia).
  unfold signed. now rewrite Z.mod_mod by (apply Z.pow_nonzero; lia).
Qed.

Section Elements.
Context `{F64Ops} `{!F64Law}.

(** A value as the operand of type [wt]. *)
Definition coerce (wt : Z) (v : val) : val := if (wt =? WT_F64)%Z then VF (as_float v) else v.

(** What is stored for a value reads back as the element. *)
Lemma store_load acc v :
  value_ok v -> vtype v = acc_wt acc \/ acc_wt acc = WT_F64 ->
  exists l, store_val acc (coerce (acc_wt acc) v) = Some l /\ List.length l = acc_size acc /\ load_val acc l = as_elem acc v /\
    value_ok (as_elem acc v) /\ vtype (as_elem acc v) = acc_wt acc.
Proof.
  intros V T. pose proof (as_float_ok v V) as F.
  assert (I : acc_wt acc <> WT_F64 -> exists z, v = VI z) by (intros N; destruct T as [T|T]; [|contradiction];
    destruct acc; try contradiction; now apply vtype_int).
  destruct acc as [|s|s|]; cbn [acc_wt coerce acc_size] in *.
  - destruct (I ltac:(discriminate)) as [z ->]. eexists. split; [reflexivity|]. split; [apply le_bytes_length|].
    cbn [load_val as_elem]. rewrite (le_bytes_load 32 4) by lia. change (signed 32 z) with (s32 z). rewrite s32_id by exact V. exact (conj eq_refl (conj V eq_refl)).
  - destruct (I ltac:(discriminate)) as [z ->]. eexists. split; [reflexivity|]. split; [apply le_bytes_length|].
    cbn [load_val as_elem acc_size]. destruct s.
    + rewrite (le_bytes_load 8 1) by lia. pose proof (signed_range 8 z ltac:(lia)). repeat split; unfold i32_range; lia.
    + rewrite of_le_bytes. change (256 ^ Z.of_nat 1)%Z with 256%Z. pose proof (Z.mod_pos_bound z 256 ltac:(lia)).
      repeat split; unfold i32_range; lia.
  - destruct (I ltac:(discriminate)) as [z ->]. eexists. split; [reflexivity|]. split; [apply le_bytes_length|].
    cbn [load_val as_elem acc_size]. destruct s.
    + rewrite (le_bytes_load 16 2) by lia. pose proof (signed_range 16 z ltac:(lia)). repeat split; unfold i32_range; lia.
    + rewrite of_le_bytes. change (256 ^ Z.of_nat 2)%Z with 65536%Z. pose proof (Z.mod_pos_bound z 65536 ltac:(lia)).
      repeat split; unfold i32_range; lia.
  - eexists. split; [reflexivity|]. split; [apply le_bytes_length|]. cbn [load_val as_elem].
    rewrite of_le_bytes. change (256 ^ Z.of_nat 8)%Z with (2 ^ 64)%Z. unfold f64_range in F. rewrite Z.mod_small by exact F. exact (conj eq_refl (conj F eq_refl)).
Qed.

Lemma load_zero acc : load_val acc (repeat 0%Z (acc_size acc)) = zero_of acc.
Proof. destruct acc as [|[]|[]|]; reflexivity. Qed.
End Elements.

Lemma read_zero m a n : (forall x, a <= x < a + Z.of_nat n -> m x = 0)%Z -> read_mem m a n = repeat 0%Z n.
Proof.
  intros Z0. unfold read_mem. transitivity (map (fun _ : nat => 0%Z) (seq 0 n)).
  - apply map_ext_in. intros k Hk. apply in_seq in Hk. apply Z0. lia.
  - rewrite map_const, length_seq. reflexivity.
Qed.

Section Stmts.
Context `{F64Ops} `{!F64Law}.
Context {consts : list (cstr * HirExpr)} {Gam : cstr -> option Z} {Del : cstr -> option ArrTy}.
Context {Cok : @ConstsOk consts Gam Del}.
Abbreviation inv := (@inv consts Gam Del).
Abbreviation Final := (@Final consts Gam Del).
Abbreviation agree := (@agree Del).
Abbreviation run := (exec arity).
Abbreviation emit_sim := (@emit_sim _ consts Gam Del).
Abbreviation pushes := (@pushes _ consts Gam Del).

(** Memory written inside one array only. *)
Lemma regions_apart gF (Fin : Final gF) a b : In a (wg_arrays gF) -> In b (wg_arrays gF) -> wa_name a <> wa_name b ->
  (array_end a <= wa_base b \/ array_end b <= wa_base a)%Z.
Proof.
  intros Ia Ib N. destruct (ForallOrdPairs_In (as_order _ _ (iv_arrays _ final)) _ _ Ia Ib) as [E|[E|E]]; [now subst|auto|auto].
Qed.

Lemma agree_array gF (Fin : Final gF) g r st x a ty m r1 :
  inv g -> ext g gF -> agree gF g r st -> wg_array_find x g = Some a -> Del x = Some ty ->
  (forall y, ~ (wa_base a <= y < array_end a)%Z -> m y = s_mem st y) ->
  (forall vs, e_arr r1 x = Some vs -> holds m a ty vs) ->
  e_scal r1 = e_scal r -> e_seen r1 x = true ->
  (forall y, y <> x -> e_arr r1 y = e_arr r y /\ e_seen r1 y = e_seen r y) ->
  agree gF g r1 (mkSt (s_locals st) m (s_calls st)).
Proof.
  intros Iv X A F D Out Hh Es En Ey. destruct (array_place g x a Iv X F) as (Ia & Lo & Hi).
  destruct (array_find_in x g a F) as [_ Nx].
  destruct A as [A1 A2 A3 A4 A5 A6]. split; cbn [s_locals s_mem s_calls].
  - exact A1.
  - now rewrite Es.
  - intros y ws Ew. destruct (list_eq_dec ascii_dec y x) as [->|Ny].
    + exists a, ty. auto.
    + rewrite (proj1 (Ey y Ny)) in Ew. destruct (A3 y ws Ew) as (b & tb & Fb & Db & Lb & Kb). exists b, tb.
      split; [exact Fb|]. split; [exact Db|]. split; [exact Lb|]. intros k v N. destruct (Kb k v N) as (K1 & K2 & K3).
      split; [exact K1|]. split; [exact K2|]. rewrite <- K3. f_equal. apply read_ext. intros z Hz. apply Out.
      destruct (array_place g y b Iv X Fb) as (Ib & _ & _). destruct (array_find_in y g b Fb) as [_ Nb].
      destruct (array_typed g y b Iv Fb) as (tb' & Db' & Ob). rewrite Db in Db'. injection Db' as <-.
      assert (Hk : (Z.of_nat k < wa_total b)%Z) by (rewrite <- Lb; apply Nat2Z.inj_lt, nth_error_Some; congruence).
      destruct (elem_inside b tb k Ob Hk) as [E1 E2]. destruct (regions_apart gF Fin a b Ia Ib ltac:(congruence)); lia.
  - intros b z Ib Sb Hz. rewrite Out.
    + apply (A4 b z Ib); [|exact Hz]. destruct (list_eq_dec ascii_dec (wa_name b) x) as [E|N]; [rewrite E in Sb; congruence|].
      now rewrite <- (proj2 (Ey _ N)).
    + destruct (list_eq_dec ascii_dec (wa_name b) x) as [E|N]; [rewrite E in Sb; congruence|].
      destruct (regions_apart gF Fin a b Ia Ib ltac:(congruence)); lia.
  - intros y ws Ew. destruct (list_eq_dec ascii_dec y x) as [->|Ny]; [exact En|].
    destruct (Ey y Ny) as [E1 E2]. rewrite E2. rewrite E1 in Ew. now apply (A5 y ws).
  - intros k b N. rewrite Out; [now apply A6|]. pose proof strings_fit. assert (k < List.length (wb_data (wg_strings gF))) by (apply nth_error_Some; congruence). lia.
Qed.

(** What an expression evaluates to does not depend on the arrays bound before. *)
Lemma eval_seen k r r' e : e_scal r = e_scal r' -> e_arr r = e_arr r' -> eval consts k r e = eval consts k r' e.
Proof.
  intros Es Ea. revert e; induction k as [|k IH]; intros e; [reflexivity|]. cbn [eval].
  destruct (he_data e); try reflexivity.
  - destruct (const_of consts name) as [[c v]|]; [apply IH|now rewrite Es].
  - now rewrite Ea.
  - destruct indices as [|i [|]]; try reflexivity. now rewrite Ea, IH.
  - now rewrite !IH.
Qed.

(** *** The host's view *)

(** An argument in its 8-byte slot. *)
Definition slot_holds (m : Z -> Z) (slot : Z) (a : PArg) : Prop :=
  match a with
  | PA_int z => load_val A_i32 (read_mem m slot 4) = VI z
  | PA_float b => load_val A_f64 (read_mem m slot 8) = VF b
  | PA_text s => exists p, load_val A_i32 (read_mem m slot 4) = VI p /\
      load_val A_i32 (read_mem m (slot + 4) 4) = VI (Z.of_nat (List.length s)) /\ read_mem m p (List.length s) = s
  end.

(** The call that makes the host show a print. *)
Definition shown (e : Event) (p : Print) : Prop :=
  match e, p with
  | Call f [VI ptr; VI n] m, P_text s => f = 0%Z /\ n = Z.of_nat (List.length s) /\ read_mem m ptr (List.length s) = s
  | Call f [VI ptr; VI n; VI slots; VI argc] m, P_fmt s args =>
      f = 1%Z /\ n = Z.of_nat (List.length s) /\ read_mem m ptr (List.length s) = s /\ argc = Z.of_nat (List.length args) /\
      forall j a, nth_error args j = Some a -> slot_holds m (slots + 8 * Z.of_nat j) a
  | _, _ => False
  end.

(** [code], emitted from [g] to [g'] and declaring the arrays [names], takes an environment to the
    environments, and shows the prints, of [act]. *)
Definition does (g g' : Wg) (code : list Instr) (names : list cstr) (act : nat -> Env -> Env -> list Print -> Prop) : Prop :=
  emits g g' code /\ wf_code code = true /\ inv g' /\ map wa_name (wg_arrays g') = map wa_name (wg_arrays g) ++ names /\
  forall gF (Fin : Final gF) n r st r' out, ext g' gF -> agree gF g r st -> act n r r' out ->
    exists st' evs, run n code st [] = Norm st' [] /\ agree gF g' r' st' /\ s_calls st' = s_calls st ++ evs /\ Forall2 shown evs out.

Lemma does_nil g : inv g -> does g g [] [] (fun _ r r' out => r' = r /\ out = []).
Proof.
  intros Iv. split; [apply emits_nil|]. split; [reflexivity|]. split; [exact Iv|]. split; [now rewrite app_nil_r|].
  intros gF Fin n r st r' out _ A [-> ->]. exists st, []. now rewrite app_nil_r.
Qed.

Lemma does_app a b c x y ns ms act1 act2 :
  does a b x ns act1 -> does b c y ms act2 ->
  does a c (x ++ y) (ns ++ ms) (fun n r r' out => exists r1 o1 o2, act1 n r r1 o1 /\ act2 n r1 r' o2 /\ out = o1 ++ o2).
Proof.
  intros (E1 & W1 & I1 & N1 & R1) (E2 & W2 & I2 & N2 & R2). split; [now apply (emits_app a b c)|]. split; [now rewrite wf_app, W1, W2|].
  split; [exact I2|]. split; [now rewrite N2, N1, app_assoc|].
  intros gF Fin n r st r' out X A (r1 & o1 & o2 & H1 & H2 & ->).
  destruct (R1 gF Fin n r st r1 o1 (ext_trans _ _ _ (proj1 E2) X) A H1) as (s1 & v1 & Q1 & G1 & C1 & S1).
  destruct (R2 gF Fin n r1 s1 r' o2 X G1 H2) as (s2 & v2 & Q2 & G2 & C2 & S2).
  exists s2, (v1 ++ v2). split; [now rewrite exec_app, Q1|]. split; [exact G2|]. split; [now rewrite C2, C1, app_assoc|now apply Forall2_app].
Qed.

Lemma does_impl g g' x ns act act' :
  (forall n r r' out, act' n r r' out -> act n r r' out) -> does g g' x ns act -> does g g' x ns act'.
Proof.
  intros K (E & W & I & N & R). split; [exact E|]. split; [exact W|]. split; [exact I|]. split; [exact N|]. intros. eapply R; eauto.
Qed.

(** *** Scalars *)

Lemma set_at_nth {A} (l : list A) i j (v : A) :
  nth_error (set_at l i v) j = if i =? j then option_map (fun _ => v) (nth_error l j) else nth_error l j.
Proof.
  revert i j; induction l as [|x l IH]; intros i j; [destruct j, i; cbn; try reflexivity; now destruct (_ =? _)|].
  destruct i as [|i], j as [|j]; cbn; try reflexivity. apply IH.
Qed.

Lemma Forall2_set_at {A B} (P : A -> B -> Prop) l m i x y :
  Forall2 P l m -> nth_error l i = Some x -> P x y -> Forall2 P l (set_at m i y).
Proof.
  intros F. revert i; induction F as [|a b l m Hab F IH]; intros [|i] Hx Hy; try discriminate; cbn.
  - injection Hx as <-. now constructor.
  - constructor; [exact Hab|]. now apply IH.
Qed.

Lemma Forall2_nth_ex {A B} (P : A -> B -> Prop) l m i x : Forall2 P l m -> nth_error l i = Some x -> exists y, nth_error m i = Some y /\ P x y.
Proof.
  intros F. revert i; induction F as [|a b l m Hab F IH]; intros [|i] Hx; try discriminate.
  - injection Hx as <-. now exists b.
  - exact (IH i Hx).
Qed.

Lemma agree_set gF (Fin : Final gF) g r st x i v :
  agree gF g r st -> local_find (wg_locals gF) x 0 = Some i -> value_ok v -> Gam x = Some (vtype v) ->
  forall n stk, exists st', run n [I_set i] st (v :: stk) = Norm st' stk /\ agree gF g (set_scal r x v) st' /\ s_calls st' = s_calls st.
Proof.
  intros A F V G n stk. destruct (local_find_nth _ _ _ _ F) as (_ & l & L & Nl). rewrite Nat.sub_0_r in L.
  pose proof (proj1 (Forall_forall _ _) (lo_types _ _ (iv_locals _ final)) l (nth_error_In _ _ L)) as T. cbn beta in T.
  rewrite Nl, G in T. injection T as T.
  destruct (Forall2_nth_ex _ _ _ _ _ (ag_locals _ _ _ _ A) L) as (w & Nw & Vw & Tw).
  exists (mkSt (set_at (s_locals st) i v) (s_mem st) (s_calls st)). split; [|split; [|reflexivity]].
  - cbn. rewrite Nw, T, Tw, Z.eqb_refl. reflexivity.
  - destruct A as [A1 A2 A3 A4 A5 A6]. split; cbn [s_locals s_mem s_calls set_scal e_scal e_arr e_seen]; auto.
    + apply (Forall2_set_at _ _ _ _ l); auto.
    + intros y u E. unfold upd in E. destruct (cstr_eqb x y) eqn:C.
      * apply cstr_eqb_eq in C. subst y. injection E as <-. exists i. split; [exact F|]. now rewrite set_at_nth, Nat.eqb_refl, Nw.
      * destruct (A2 y u E) as (j & Fj & Nj). exists j. split; [exact Fj|]. rewrite set_at_nth.
        destruct (Nat.eqb_spec i j) as [->|]; [|exact Nj]. destruct (local_find_nth _ _ _ _ Fj) as (_ & l' & L' & Nl').
        rewrite Nat.sub_0_r, L in L'. injection L' as <-. rewrite <- Nl, Nl', cstr_eqb_refl in C. discriminate.
Qed.

(** *** Operands *)

Definition operand (wt : Z) (e : HirExpr) (r : Env) (vs : list val) : Prop :=
  exists k v, eval consts k r e = Some v /\ vs = [coerce wt v].

Lemma wt_as_expr wt e : wt_as consts Gam Del wt e = true -> wt_expr consts Gam Del e = true.
Proof. intros W. now apply andb_true_iff in W. Qed.

Lemma wt_as_type wt e k r v : env_ok (Gam := Gam) (Del := Del) r -> wt_as consts Gam Del wt e = true -> eval consts k r e = Some v ->
  value_ok v /\ (vtype v = wt \/ wt = WT_F64).
Proof.
  intros Eo W E. apply andb_true_iff in W as [W C]. destruct (eval_typed k r e v Eo W E) as [V T]. split; [exact V|].
  apply orb_true_iff in C as [C|C]; [left|right].
  - apply Z.eqb_eq in C. now rewrite T.
  - apply andb_true_iff in C as [C _]. now apply Z.eqb_eq.
Qed.

Section Parts.
Variable emit : HirExpr -> Wg -> res Wg.
Hypothesis sim : emit_sim emit.
Hypothesis grows : forall e, extends (emit e).

Lemma operand_sim wt e g g' :
  wt_as consts Gam Del wt e = true -> inv g -> emit_operand emit wt e g = Ok g' -> wg_local_count g' <= 256 ->
  exists code, pushes g g' code (operand wt e).
Proof.
  intros W Iv E Hc. unfold emit_operand in E. unfold operand, coerce. destruct (wt =? WT_F64)%Z.
  - exact (as_float_sim emit sim e g g' (wt_as_expr _ _ W) Iv E Hc).
  - exact (sim e g g' (wt_as_expr _ _ W) Iv E Hc).
Qed.

(** *** Stores *)

(** A store ignores the sign of a narrow access. *)
Definition store_acc (a : Acc) : Acc := match a with A_i8 _ => A_i8 false | A_i16 _ => A_i16 false | a => a end.

Lemma store_acc_code a : store_code a = enc (I_store (store_acc a)) /\ wf_instr (I_store (store_acc a)) = true.
Proof. destruct a; now split. Qed.

Lemma store_acc_val a v : store_val (store_acc a) v = store_val a v /\ acc_size (store_acc a) = acc_size a.
Proof. destruct a, v; now split. Qed.

Lemma step_store a st v addr l stk :
  store_val a v = Some l -> in_bounds addr (acc_size a) = true -> u32 addr = addr ->
  step arity (I_store (store_acc a)) st (v :: VI addr :: stk) = Norm (mkSt (s_locals st) (write_mem (s_mem st) addr l) (s_calls st)) stk.
Proof.
  intros S B U. cbn [step]. destruct (store_acc_val a v) as [-> ->]. rewrite S, B, U. reflexivity.
Qed.

(** The address of an element of an array of the program. *)
Lemma elem_place gF (Fin : Final gF) g x a ty k :
  inv g -> ext g gF -> wg_array_find x g = Some a -> Del x = Some ty -> (Z.of_nat k < wa_total a)%Z ->
  u32 (elem_addr a k) = elem_addr a k /\ s32 (elem_addr a k) = elem_addr a k /\ in_bounds (elem_addr a k) (acc_size (at_acc ty)) = true /\
  (wa_base a <= elem_addr a k)%Z /\ (elem_addr a k + Z.of_nat (acc_size (at_acc ty)) <= array_end a)%Z.
Proof.
  intros Iv X F D Hk. destruct (array_typed g x a Iv F) as (ty' & D' & O). rewrite D in D'. injection D' as <-.
  destruct (array_place g x a Iv X F) as (_ & Lo & Hi). destruct (elem_inside a ty k O Hk) as [E1 E2]. unfold mem_size in Hi.
  assert (U : u32 (elem_addr a k) = elem_addr a k) by (apply u32_small; lia).
  split; [exact U|]. split; [apply s32_id; unfold i32_range; lia|]. split; [|auto].
  unfold in_bounds, mem_size. rewrite U. apply Z.leb_le. lia.
Qed.

(** *** The elements of an array literal *)

(** [x] is the array that is being filled: bound before, not visible yet. *)
Record filling (gF g : Wg) (r : Env) (st : St) (x : cstr) : Prop := mkFilling {
  fl_agree : agree gF g r st;
  fl_hidden : e_arr r x = None;
  fl_seen : e_seen r x = true
}.

(** Elements [k ..] of [a] receive [vs]; the rest of the memory stays. *)
Definition filled (m m' : Z -> Z) (a : WgArray) (ty : ArrTy) (k : nat) (vs : list val) : Prop :=
  (forall j v, nth_error vs j = Some v ->
     load_val (at_acc ty) (read_mem m' (elem_addr a (k + j)) (acc_size (at_acc ty))) = as_elem (at_acc ty) v /\
     value_ok (as_elem (at_acc ty) v) /\ vtype (as_elem (at_acc ty) v) = acc_wt (at_acc ty)) /\
  (forall y, ~ (elem_addr a k <= y < elem_addr a (k + List.length vs))%Z -> m' y = m y).

Lemma filled_cons m m1 m2 a ty k v vs l :
  array_ok a ty -> List.length l = acc_size (at_acc ty) -> load_val (at_acc ty) l = as_elem (at_acc ty) v ->
  value_ok (as_elem (at_acc ty) v) -> vtype (as_elem (at_acc ty) v) = acc_wt (at_acc ty) ->
  m1 = write_mem m (elem_addr a k) l -> filled m1 m2 a ty (S k) vs -> filled m m2 a ty k (v :: vs).
Proof.
  intros O Ll Lv V T -> [F1 F2]. assert (Sz : (elem_addr a k + Z.of_nat (acc_size (at_acc ty)) = elem_addr a (S k))%Z).
  { unfold elem_addr. rewrite (ao_size _ _ O). lia. }
  assert (Mono : forall i j, i <= j -> (elem_addr a i <= elem_addr a j)%Z).
  { intros i j Hij. unfold elem_addr. rewrite (ao_size _ _ O). nia. }
  split.
  - intros [|j] w N.
    + injection N as <-. rewrite Nat.add_0_r. split; [|auto]. rewrite <- Lv. f_equal. rewrite <- Ll.
      rewrite <- (read_write m (elem_addr a k) l) at 2. apply read_ext. intros y Hy. apply F2.
      rewrite Ll, Sz in Hy. lia.
    + rewrite Nat.add_succ_r. exact (F1 j w N).
  - intros y Hy. cbn [List.length] in Hy. rewrite Nat.add_succ_r in Hy. rewrite F2.
    + apply write_outside. rewrite Ll, Sz. pose proof (Mono (S k) (S (k + List.length vs)) ltac:(lia)). lia.
    + pose proof (Mono k (S k) ltac:(lia)). cbn [plus] in *. lia.
Qed.

Lemma elements_sim a ty x es : forall k g g',
  forallb (wt_as consts Gam Del (acc_wt (at_acc ty))) es = true -> inv g -> wg_array_find x g = Some a -> Del x = Some ty ->
  emit_elements emit a es (Z.of_nat k) g = Ok g' -> wg_local_count g' <= 256 ->
  exists code, emits g g' code /\ wf_code code = true /\ inv g' /\ wg_arrays g' = wg_arrays g /\
  forall gF (Fin : Final gF) n r st fuel vs, ext g' gF -> filling gF g r st x ->
    eval_list consts fuel r (firstn (Z.to_nat (at_total ty) - k) es) = Some vs ->
    exists m', run n code st [] = Norm (mkSt (s_locals st) m' (s_calls st)) [] /\
      filling gF g' r (mkSt (s_locals st) m' (s_calls st)) x /\ filled (s_mem st) m' a ty k vs.
Proof.
  induction es as [|e es IH]; intros k g g' W Iv F D E Hc.
  - injection E as <-. exists []. split; [apply emits_nil|]. repeat (split; [auto|]).
    intros gF Fin n r st fuel vs _ Fl Ev. rewrite firstn_nil in Ev. injection Ev as <-. exists (s_mem st). destruct st as [ls m cs].
    split; [reflexivity|]. split; [exact Fl|]. split; [now intros [|j]|auto].
  - cbn [emit_elements] in E. cbn [forallb] in W. apply andb_true_iff in W as [We Ws].
    destruct (array_typed g x a Iv F) as (ty' & D' & O). rewrite D in D'. injection D' as <-.
    destruct (Z.ltb_spec (Z.of_nat k) (wa_total a)) as [Hk|Hk].
    2:{ injection E as <-. exists []. split; [apply emits_nil|]. repeat (split; [auto|]).
        intros gF Fin n r st fuel vs _ Fl Ev. replace (Z.to_nat (at_total ty) - k) with 0 in Ev by (rewrite (ao_total _ _ O) in Hk; lia).
        injection Ev as <-. exists (s_mem st). destruct st as [ls m cs].
        split; [reflexivity|]. split; [exact Fl|]. split; [now intros [|j]|auto]. }
    rewrite (ao_wt _ _ O) in E. apply rbind_ok in E as (g2 & E2 & E).
    change (emit_operand emit (acc_wt (at_acc ty)) e (g_const (elem_addr a k) g) = Ok g2) in E2.
    replace (Z.of_nat k + 1)%Z with (Z.of_nat (S k)) in E by lia.
    pose proof (elements_ext _ grows _ _ _ _ _ E) as X3.
    destruct (operand_sim _ e _ g2 We (inv_const (elem_addr a k) g Iv) E2 ltac:(pose proof (ex_count _ _ X3); cbn in *; lia)) as [c2 P2].
    destruct (pushes_app _ _ _ _ _ _ _ (pushes_const (elem_addr a k) g Iv) P2) as (M1 & W1 & I1 & A1 & R1).
    assert (F2 : wg_array_find x (wg_emit_store a g2) = Some a).
    { unfold wg_array_find in *. cbn [wg_arrays wg_emit_store put set_body]. now rewrite A1. }
    destruct (IH (S k) (wg_emit_store a g2) g' Ws (inv_put _ _ I1) F2 D E Hc) as (c3 & M3 & W3 & I3 & A3 & R3).
    exists ((([I_const (s32 (elem_addr a k))] ++ c2) ++ [I_store (store_acc (at_acc ty))]) ++ c3).
    destruct (store_acc_code (at_acc ty)) as [Sc Sw]. split; [|split; [|split; [|split]]].
    + apply (emits_app _ (wg_emit_store a g2)); [|exact M3]. apply (emits_app _ g2); [exact M1|]. apply put_emits.
      rewrite (ao_store _ _ O), Sc. unfold enc_seq. cbn [flat_map]. now rewrite app_nil_r.
    + rewrite !wf_app in *. rewrite W1, W3. unfold wf_code. cbn [forallb]. now rewrite Sw.
    + exact I3.
    + rewrite A3. exact A1.
    + intros gF Fin n r st fuel vs X Fl Ev. replace (Z.to_nat (at_total ty) - k) with (S (Z.to_nat (at_total ty) - S k)) in Ev
        by (rewrite (ao_total _ _ O) in Hk; lia).
      cbn [firstn eval_list] in Ev. destruct (eval consts fuel r e) as [v|] eqn:Ee; [|discriminate].
      destruct (eval_list consts fuel r _) as [vs'|] eqn:Es; [|discriminate]. injection Ev as <-.
      pose proof (ext_trans _ _ _ X3 X) as X2. pose proof (ext_trans _ _ _ (put_ext _ _) X2) as X2'.
      pose proof (ext_trans _ _ _ (proj1 M1) X2') as X0. destruct Fl as [Ag Hid Seen].
      destruct (wt_as_type _ e fuel r v (agree_env g r st Iv X0 Ag) We Ee) as [V T].
      destruct (store_load (at_acc ty) v V T) as (l & Sv & Ll & Lv & Vv & Tv).
      destruct (elem_place gF Fin g x a ty k Iv X0 F D Hk) as (U & S32 & B & Lo & Hi).
      rewrite exec_app, exec_app, (R1 gF Fin r st [coerce (acc_wt (at_acc ty)) v; VI (elem_addr a k)] X2' Ag).
      2:{ exists [VI (s32 (elem_addr a k))], [coerce (acc_wt (at_acc ty)) v]. split; [reflexivity|]. split; [now exists fuel, v|now rewrite S32]. }
      rewrite exec_step by exact Logic.I. cbn [app]. rewrite (step_store (at_acc ty) st _ _ l [] Sv B U). cbn [exec].
      set (m1 := write_mem (s_mem st) (elem_addr a k) l).
      assert (Ag1 : agree gF (wg_emit_store a g2) r (mkSt (s_locals st) m1 (s_calls st))).
      { apply (agree_ext g); [exact (ext_trans _ _ _ (proj1 M1) (put_ext _ _))|].
        apply (agree_array gF Fin g r st x a ty); auto; [|intros ws Ew; congruence].
        intros y Hy. apply write_outside. rewrite Ll. lia. }
      destruct (R3 gF Fin n r (mkSt (s_locals st) m1 (s_calls st)) fuel vs' X (mkFilling _ _ _ _ _ Ag1 Hid Seen) Es) as (m2 & Rn & Fl2 & Fd).
      exists m2. split; [exact Rn|]. split; [exact Fl2|]. exact (filled_cons _ m1 m2 a ty k v vs' l O Ll Lv Vv Tv eq_refl Fd).
Qed.

(** *** Bindings *)

Lemma local_inv g g' : ext g g' -> inv g -> locals_ok Gam g' -> wg_arrays g' = wg_arrays g ->
  wg_arrays_cursor g' = wg_arrays_cursor g -> inv g'.
Proof.
  intros [_ _ _ Ef _] [_ [A1 A2 A3 A4 A5 A6] Ic Ib] L Ea Ec. injection Ef as _ F1 F2 F3 F4 F5.
  split; [exact L| |congruence|congruence]. split; rewrite ?Ea, ?Ec; assumption.
Qed.

Lemma total_pos t : (1 <= wg_total_elems t)%Z.
Proof.
  revert t. fix IH 1. intros [tag nm elem rank fs w sg ps rs pr]. cbn [wg_total_elems].
  assert (E : (1 <= match elem with Some t' => wg_total_elems t' | None => 1 end)%Z) by (destruct elem as [t'|]; [apply IH|lia]).
  destruct tag; try lia. destruct (Z.ltb_spec 0 rank); nia.
Qed.

Lemma decl_array_ok x t g a g1 ty : arr_ty t = Some ty -> wg_array_decl x t g = Some (a, g1) -> array_ok a ty /\ wa_name a = x /\
  wa_base a = wg_arrays_cursor g /\ wg_arrays g1 = wg_arrays g ++ [a] /\ wg_arrays_cursor g1 = array_end a.
Proof.
  unfold arr_ty, wg_array_decl. intros T D. destruct (WG_MAX_ARRAYS <=? _); [discriminate|].
  destruct (elem_acc (wg_base_elem t)) as [acc|] eqn:E; [|discriminate]. injection T as <-. injection D as <- <-.
  split; [|now repeat split]. unfold elem_acc in E.
  assert (K : forall sz wt s, acc_wt acc = wt -> Z.of_nat (acc_size acc) = sz ->
    (match acc with A_i8 s' | A_i16 s' => s = s' | _ => True end) ->
    array_ok (mkArray x (wg_arrays_cursor g) sz wt s (wg_total_elems t)) (mkArrTy acc (wg_total_elems t))).
  { intros sz wt s <- <- S. pose proof (total_pos t). split; cbn [wa_elem_wt wa_elem_size wa_total at_acc at_total]; auto.
    - destruct acc; try reflexivity; cbn in S; now subst.
    - destruct acc; reflexivity. }
  destruct (wg_base_elem t) as [b|].
  - unfold wg_scalar_size in *. destruct (is_tag b HIR_TYPE_FLOAT) eqn:Fl.
    + injection E as <-. now apply K.
    + destruct (Z.eqb_spec (if is_tag b HIR_TYPE_CHAR || is_tag b HIR_TYPE_CHAR_ARRAY then 1
          else if is_tag b HIR_TYPE_INT then if (8 <=? ht_int_width b)%Z then (ht_int_width b / 8)%Z else 4 else 4) 1) as [->|];
        [injection E as <-; now apply K|].
      destruct (Z.eqb_spec (if is_tag b HIR_TYPE_CHAR || is_tag b HIR_TYPE_CHAR_ARRAY then 1
          else if is_tag b HIR_TYPE_INT then if (8 <=? ht_int_width b)%Z then (ht_int_width b / 8)%Z else 4 else 4) 2) as [->|];
        [injection E as <-; now apply K|].
      destruct (Z.eqb_spec (if is_tag b HIR_TYPE_CHAR || is_tag b HIR_TYPE_CHAR_ARRAY then 1
          else if is_tag b HIR_TYPE_INT then if (8 <=? ht_int_width b)%Z then (ht_int_width b / 8)%Z else 4 else 4) 4) as [->|];
        [injection E as <-; now apply K|discriminate].
  - injection E as <-. now apply K.
Qed.

Lemma FOP_app {A} (R : A -> A -> Prop) l x : ForallOrdPairs R l -> Forall (fun y => R y x) l -> ForallOrdPairs R (l ++ [x]).
Proof.
  induction 1 as [|y l Hy _ IH]; intros F; cbn; [repeat constructor|]. inversion F; subst. constructor; [|auto].
  apply Forall_app. split; [exact Hy|]. now repeat constructor.
Qed.

(** The declaration of an array with a new name. *)
Lemma decl_inv x t g a g1 ty : inv g -> arr_ty t = Some ty -> Del x = Some ty -> ~ In x (map wa_name (wg_arrays g)) ->
  wg_array_decl x t g = Some (a, g1) ->
  emits g g1 [] /\ inv g1 /\ wg_array_find x g1 = Some a /\ array_ok a ty /\ wg_local_count g1 = wg_local_count g /\
  wg_arrays g1 = wg_arrays g ++ [a] /\ wa_name a = x.
Proof.
  intros [L [A1 A2 A3 A4 A5 A6] C B] T D Nx E. destruct (decl_array_ok x t g a g1 ty T E) as (O & Na & Ba & Ea & Ec).
  pose proof (array_decl_ext _ _ _ _ _ E) as X. assert (Eb : wg_body g1 = wg_body g /\ wg_locals g1 = wg_locals g /\ wg_local_count g1 = wg_local_count g).
  { unfold wg_array_decl in E. destruct (WG_MAX_ARRAYS <=? _); [discriminate|]. now injection E as _ <-. }
  destruct Eb as (Eb & El & Ek). split; [split; [exact X|cbn; now rewrite Eb, app_nil_r]|].
  pose proof (ao_pos _ _ O) as Pos. assert (Sz : (0 <= wa_elem_size a)%Z) by (rewrite (ao_size _ _ O); lia).
  assert (Hi : (wg_arrays_cursor g <= array_end a)%Z) by (unfold array_end; rewrite Ba; nia).
  split; [|split; [|split; [exact O|split; [exact Ek|split; [exact Ea|exact Na]]]]].
  - split.
    + destruct L as [L1 L2 L3]. split; rewrite ?El, ?Ek; assumption.
    + split; rewrite ?Ea, ?Ec.
      * apply Forall_app. split; [exact A1|]. constructor; [|constructor]. exists ty. now rewrite Na.
      * rewrite map_app. cbn [map]. rewrite Na. apply NoDup_app; [exact A2|repeat constructor; auto|].
        intros y Hy [<-|[]]. contradiction.
      * apply FOP_app; [exact A3|]. rewrite Ba. exact A5.
      * apply Forall_app. split; [exact A4|]. constructor; [|constructor]. now rewrite Ba.
      * apply Forall_app. split; [|repeat constructor; lia]. eapply Forall_impl; [|exact A5]. cbn. intros; lia.
      * lia.
    + destruct X as [_ _ _ Ef _]. injection Ef as _ F1 F2 F3 F4 F5. congruence.
    + destruct X as [_ _ _ Ef _]. injection Ef as _ F1 F2 F3 F4 F5. congruence.
  - unfold wg_array_find. rewrite Ea. clear - Nx Na. induction (wg_arrays g) as [|b bs IH]; cbn in *; [now rewrite Na, cstr_eqb_refl|].
    destruct (cstr_eqb (wa_name b) x) eqn:Eb; [apply cstr_eqb_eq in Eb; tauto|]. apply IH. tauto.
Qed.

Lemma acc_eqb_eq a b : acc_eqb a b = true -> a = b.
Proof. destruct a, b; try discriminate; cbn; auto; intros E; apply eqb_prop in E; now subst. Qed.

Lemma agree_seen gF g r st x : agree gF g r st -> agree gF g (mkEnv (e_scal r) (e_arr r) (upd (e_seen r) x true)) st.
Proof.
  intros [A1 A2 A3 A4 A5 A6]. split; cbn [e_scal e_arr e_seen]; auto.
  - intros a z Ia Sa. apply A4; [exact Ia|]. unfold upd in Sa. now destruct (cstr_eqb x (wa_name a)).
  - intros y vs E. unfold upd. destruct (cstr_eqb x y); [reflexivity|]. exact (A5 y vs E).
Qed.

Lemma eval_list_length fuel r es vs : eval_list consts fuel r es = Some vs -> List.length vs = List.length es.
Proof.
  revert vs; induction es as [|e es IH]; cbn; intros vs E; [now injection E as <-|].
  destruct (eval consts fuel r e); [|discriminate]. destruct (eval_list consts fuel r es); [|discriminate].
  injection E as <-. cbn. f_equal. now apply IH.
Qed.

Lemma eval_list_seen fuel r r' es : e_scal r = e_scal r' -> e_arr r = e_arr r' -> eval_list consts fuel r es = eval_list consts fuel r' es.
Proof. intros Es Ea. induction es as [|e es IH]; cbn; [reflexivity|]. now rewrite IH, (eval_seen fuel r r' e Es Ea). Qed.

Lemma zero_ok a : value_ok (zero_of a) /\ vtype (zero_of a) = acc_wt a.
Proof. destruct a; cbn; split; try reflexivity; unfold i32_range, f64_range; lia. Qed.

Variable fuel : nat.

(** The new array holds its elements and zeros. *)
Lemma array_bound gF (Fin : Final gF) g r st m' x a ty (es : list HirExpr) vs :
  inv g -> ext g gF -> wg_array_find x g = Some a -> Del x = Some ty ->
  agree gF g r st -> e_arr r x = None -> List.length vs = List.length es -> List.length es <= Z.to_nat (at_total ty) ->
  e_seen r x && negb (Z.to_nat (at_total ty) - List.length es =? 0) = false ->
  agree gF g (mkEnv (e_scal r) (e_arr r) (upd (e_seen r) x true)) (mkSt (s_locals st) m' (s_calls st)) ->
  filled (s_mem st) m' a ty 0 vs ->
  agree gF g (bind_arr r x (map (as_elem (at_acc ty)) vs ++ repeat (zero_of (at_acc ty)) (Z.to_nat (at_total ty) - List.length es)))
    (mkSt (s_locals st) m' (s_calls st)).
Proof.
  intros Iv X F D A Hid Lv Le Seen Ag [F1 F2]. destruct (array_typed g x a Iv F) as (ty' & D' & O). rewrite D in D'. injection D' as <-.
  pose proof (ao_pos _ _ O) as Pos. rewrite (ao_total _ _ O) in Pos.
  apply (agree_array gF Fin g (mkEnv (e_scal r) (e_arr r) (upd (e_seen r) x true)) (mkSt (s_locals st) m' (s_calls st)) x a ty m'); auto.
  - intros ws Ew. unfold bind_arr in Ew. cbn [e_arr] in Ew. unfold upd in Ew. rewrite cstr_eqb_refl in Ew. injection Ew as <-. split.
    + rewrite length_app, length_map, repeat_length, (ao_total _ _ O). lia.
    + intros k v N. destruct (Nat.lt_ge_cases k (List.length vs)) as [Hk|Hk].
      * rewrite nth_error_app1, nth_error_map in N by (now rewrite length_map). destruct (nth_error vs k) as [u|] eqn:Nu; [|discriminate].
        injection N as <-. destruct (F1 k u Nu) as (R1 & R2 & R3). auto.
      * rewrite nth_error_app2, length_map in N by (now rewrite length_map). pose proof (nth_error_In _ _ N) as In0.
        apply repeat_spec in In0. subst v. destruct (zero_ok (at_acc ty)) as [Z1 Z2]. split; [exact Z1|]. split; [exact Z2|].
        assert (Hm : k < Z.to_nat (at_total ty)).
        { pose proof (proj1 (nth_error_Some (repeat (zero_of (at_acc ty)) (Z.to_nat (at_total ty) - List.length es)) (k - List.length vs)) ltac:(congruence)) as B.
          rewrite repeat_length in B. lia. }
        destruct (Nat.eqb_spec (Z.to_nat (at_total ty) - List.length es) 0); [lia|]. cbn [negb] in Seen. rewrite andb_true_r in Seen.
        destruct (array_place g x a Iv X F) as (Ia & _ & _). destruct (array_find_in x g a F) as [_ Na].
        destruct (elem_inside a ty k O ltac:(rewrite (ao_total _ _ O); lia)) as [B1 B2].
        rewrite read_zero; [apply load_zero|]. intros y Hy. rewrite F2.
        -- apply (ag_seen _ _ _ _ A a y Ia); [now rewrite Na|lia].
        -- unfold elem_addr in *. rewrite (ao_size _ _ O) in *. nia.
  - cbn. unfold upd. now rewrite cstr_eqb_refl.
  - intros y Ny. cbn. unfold upd. destruct (cstr_eqb x y) eqn:C; [apply cstr_eqb_eq in C; congruence|auto].
Qed.

Lemma bind_sim x type value g g' :
  wt_bind consts Gam Del x type value = true -> inv g -> emit_bind emit x type value g = Ok g' -> wg_local_count g' <= 256 ->
  let names := match bind_array_type type value with Some _ => [x] | None => [] end in
  NoDup (map wa_name (wg_arrays g) ++ names) -> List.length (wg_arrays g) + List.length names <= 128 ->
  exists code, does g g' code names (fun _ r r' out => out = [] /\ eval_bind consts Del fuel r x type value = Some r').
Proof.
  intros W Iv E Hc names Nd Cap. unfold wt_bind in W. unfold emit_bind in E. unfold names, eval_bind in *. clear names.
  destruct (bind_array_type type value) as [t|].
  - apply andb_true_iff in W as [_ W]. destruct (arr_ty t) as [ty|] eqn:T; [|discriminate]. destruct (Del x) as [ty'|] eqn:D; [|discriminate].
    apply andb_true_iff in W as [W Wv]. apply andb_true_iff in W as [Wa Wt]. apply acc_eqb_eq in Wa. apply Z.eqb_eq in Wt.
    assert (ty = ty') by (destruct ty, ty'; cbn in *; now subst). subst ty'.
    assert (Nx : ~ In x (map wa_name (wg_arrays g))) by (apply NoDup_remove_2 in Nd; now rewrite app_nil_r in Nd).
    destruct (wg_array_decl x t g) as [[a g1]|] eqn:Dc.
    2:{ unfold wg_array_decl in Dc. destruct (Nat.leb_spec WG_MAX_ARRAYS (List.length (wg_arrays g))); [unfold WG_MAX_ARRAYS in *; cbn in Cap; lia|discriminate]. }
    destruct (decl_inv x t g a g1 ty Iv T D Nx Dc) as (E1 & I1 & F1 & O & K1 & Ar & Na).
    assert (El : exists es, literal_elems value = es /\ emit_elements emit a es 0 g1 = Ok g' /\ forallb (wt_as consts Gam Del (acc_wt (at_acc ty))) es = true).
    { exists (literal_elems value). split; [reflexivity|]. unfold literal_elems. destruct value as [v|]; [|auto]. destruct (he_data v); try discriminate. auto. }
    destruct El as (es & -> & Ee & We).
    destruct (elements_sim a ty x es 0 g1 g' We I1 F1 D Ee Hc) as (code & E2 & W2 & I2 & A2 & R2).
    exists code. split; [exact (emits_app g g1 g' [] code E1 E2)|]. split; [exact W2|]. split; [exact I2|].
    split; [rewrite A2, Ar, map_app; cbn; now rewrite Na|].
    intros gF Fin n r st r' out X A [-> Ev]. destruct (is_some (e_scal r x) || is_some (e_arr r x)) eqn:Vis; [discriminate|].
    apply orb_false_iff in Vis as [_ Vis]. assert (Hid : e_arr r x = None) by (destruct (e_arr r x); [discriminate|reflexivity]).
    destruct (e_seen r x && _) eqn:Seen; [discriminate|]. destruct (eval_list consts fuel r _) as [vs|] eqn:Es; [|discriminate]. injection Ev as <-.
    pose proof (ext_trans _ _ _ (proj1 E2) X) as X1.
    pose proof (agree_seen gF g1 r st x (agree_ext _ _ _ _ (proj1 E1) A)) as Ag.
    assert (Fl : filling gF g1 (mkEnv (e_scal r) (e_arr r) (upd (e_seen r) x true)) st x).
    { split; [exact Ag|exact Hid|]. cbn. unfold upd. now rewrite cstr_eqb_refl. }
    destruct (R2 gF Fin n _ st fuel vs X Fl) as (m' & Rn & [Ag2 _ _] & Fd).
    { rewrite Nat.sub_0_r, <- Es. now apply eval_list_seen. }
    assert (F2 : wg_array_find x g' = Some a) by (apply (array_find_ext x g1); [exact (proj1 E2)|exact F1]).
    exists (mkSt (s_locals st) m' (s_calls st)), []. split; [exact Rn|]. split; [|split; [now rewrite app_nil_r|constructor]].
    apply (array_bound gF Fin g' r st m' x a ty (firstn (Z.to_nat (at_total ty)) es) vs); auto.
    + apply (agree_ext g); [exact (ext_trans _ _ _ (proj1 E1) (proj1 E2))|exact A].
    + exact (eval_list_length _ _ _ _ Es).
    + apply firstn_le_length.
  - apply andb_true_iff in W as [_ W].
    apply rbind_ok in E as (g1 & E1 & E). apply rbind_ok in E as ([i g2] & E2 & E). cbn [fst snd] in *. injection E as <-.
    cbn [wg_local_count g_set set_body] in Hc.
    assert (P : exists wt c, Gam x = Some wt /\ wt = match value with Some v => wg_wtype (he_resolved v) | None => WT_I32 end /\
      pushes g g1 c (fun r vs => exists v, vs = [v] /\ vtype v = wt /\ value_ok v /\
        match value with Some e => eval consts fuel r e = Some v | None => v = VI 0 end)).
    { pose proof (ex_count _ _ (wg_local_ext _ _ _ _ _ E2)) as Hc2. destruct value as [v|].
      - apply andb_true_iff in W as [Wv G]. destruct (Gam x) as [wt|]; [|discriminate]. apply Z.eqb_eq in G. subst wt.
        destruct (sim v g g1 Wv Iv E1 ltac:(lia)) as [c P]. eexists _, c. split; [reflexivity|]. split; [reflexivity|].
        revert P. apply pushes_impl; [exact Iv|]. intros gF Fin r st vs _ _ _ (u & -> & _ & _ & Eu). now exists fuel, u.
      - destruct (Gam x) as [wt|]; [|discriminate]. apply Z.eqb_eq in W. subst wt. injection E1 as <-.
        eexists _, [I_const 0]. split; [reflexivity|]. split; [reflexivity|].
        apply (pushes_impl _ _ _ (fun _ vs => vs = [VI (s32 0)])); [exact Iv| |apply (pushes_const 0 g Iv)].
        intros gF Fin r st vs _ _ _ (u & -> & _ & _ & ->). reflexivity. }
    destruct P as (wt & c & G & Wt & M1 & W1 & I1 & A1 & R1). rewrite <- Wt in E2.
    destruct (wg_local_ok Gam x wt g1 i g2 (iv_locals _ I1) G E2 Hc) as (M2 & L2 & A2 & C2 & _ & F2).
    pose proof (local_inv g1 g2 (proj1 M2) I1 L2 A2 C2) as I2.
    assert (Hi : small (Z.of_nat i)).
    { destruct (local_find_nth _ _ _ _ F2) as (_ & l & N & _). rewrite Nat.sub_0_r in N.
      pose proof (proj1 (nth_error_Some (wg_locals g2) i) ltac:(congruence)). rewrite (lo_count _ _ L2) in Hc. unfold small. lia. }
    exists (c ++ [I_set i]). pose proof (emits_app _ _ _ _ _ M1 (emits_app _ _ _ _ _ M2 (set_emits g2 i Hi))) as M3. cbn [app] in M3.
    split; [exact M3|]. split.
    { rewrite wf_app, W1. unfold wf_code. cbn [forallb wf_instr]. rewrite andb_true_r. apply Z.ltb_lt. exact (proj2 Hi). }
    split; [exact (inv_body _ _ I2)|]. split; [cbn [wg_arrays g_set set_body]; now rewrite A2, A1, app_nil_r|].
    intros gF Fin n r st r' out X A [-> Ev]. destruct (is_some (e_scal r x) || is_some (e_arr r x)); [discriminate|].
    pose proof (ext_trans _ _ _ (set_ext i g2) X) as X2. pose proof (ext_trans _ _ _ (proj1 M2) X2) as X1.
    pose proof (ext_trans _ _ _ (proj1 M1) X1) as X0.
    assert (V : exists v, vtype v = wt /\ value_ok v /\ r' = set_scal r x v /\ match value with Some e => eval consts fuel r e = Some v | None => v = VI 0 end).
    { destruct value as [e|].
      - destruct (eval consts fuel r e) as [v|] eqn:Ee; [|discriminate]. injection Ev as <-. apply andb_true_iff in W as [We _].
        destruct (eval_typed fuel r e v (agree_env g r st Iv X0 A) We Ee) as [V T]. exists v. split; [now rewrite T, Wt|auto].
      - injection Ev as <-. exists (VI 0). subst wt. repeat split; unfold i32_range; lia. }
    destruct V as (v & Tv & Vv & -> & Ee).
    destruct (agree_set gF Fin g r st x i v A (local_find_ext _ _ _ _ X2 F2) Vv ltac:(congruence) n []) as (st' & Rn & Ag & Cs).
    exists st', []. split; [|split; [|split; [now rewrite Cs, app_nil_r|constructor]]].
    + rewrite exec_app, (R1 gF Fin r st [v] X1 A); [exact Rn|]. now exists v.
    + exact (agree_ext _ _ _ _ (proj1 M3) Ag).
Qed.

(** *** Assignments *)

Lemma pushes_get x i g : inv g -> local_find (wg_locals g) x 0 = Some i ->
  pushes g (g_get i g) [I_get i] (fun r vs => exists v, e_scal r x = Some v /\ vs = [v]).
Proof.
  intros Iv F. destruct (local_find_nth _ _ _ _ F) as (_ & l & N & _). rewrite Nat.sub_0_r in N.
  pose proof (proj1 (nth_error_Some (wg_locals g) i) ltac:(congruence)) as Hi. pose proof (iv_locals _ Iv) as [L1 L2 _]. rewrite L1 in L2.
  split; [apply get_emits; unfold small; lia|]. split.
  { unfold wf_code. cbn [forallb wf_instr]. rewrite andb_true_r. apply Z.ltb_lt. lia. }
  split; [exact (inv_body _ _ Iv)|]. split; [reflexivity|].
  intros gF Fin r st vs X A (v & Ev & ->) n stk. destruct (ag_scal _ _ _ _ A x v Ev) as (j & Fj & Nj).
  rewrite (local_find_ext x g gF i (ext_trans _ _ _ (get_ext i g) X) F) in Fj. injection Fj as <-. cbn. now rewrite Nj.
Qed.

Lemma op_typed op wt i32 old v u :
  op_ok op wt i32 = true -> op <> OP_NONE -> (wt = WT_I32 \/ wt = WT_F64) -> value_ok old -> value_ok v -> vtype old = wt ->
  vtype v = wt \/ wt = WT_F64 -> bin_op op old v = Some u ->
  value_ok u /\ vtype u = wt /\
  (if (wt =? WT_F64)%Z then exists b o, old = VF b /\ fop_of op = Some o /\ op_code wt op = fop_code o /\ run_float o b (as_float v) = u
   else exists a b z o, old = VI a /\ v = VI b /\ u = VI z /\ iop_of op = Some o /\ op_code wt op = iop_code o /\ run_int o a b = Some z) /\
  op_code wt op <> 0%Z.
Proof.
  intros Ok No Hwt Vo Vv To Tv B. unfold op_code. destruct Hwt as [-> | ->]; cbn [Z.eqb WT_I32 WT_F64 Pos.eqb].
  - destruct Tv as [Tv|Tv]; [|discriminate]. destruct (vtype_int old To) as [a ->], (vtype_int v Tv) as [b ->]. cbn [bin_op] in B.
    destruct (int_op op a b) as [z|] eqn:Z; [|discriminate]. injection B as <-. pose proof (binop_i_code op) as C.
    destruct (iop_of op) as [o|] eqn:O; [|destruct op; discriminate]. destruct C as [C Nz].
    destruct (int_op_run op o a b z O Vo Vv Z) as [R1 R2]. split; [exact R2|]. split; [reflexivity|]. split; [|exact Nz]. now exists a, b, z, o.
  - destruct (vtype_float old To) as [b ->]. assert (B' : float_op op b (as_float v) = Some u) by (destruct v; exact B).
    pose proof (binop_f_code op) as C. destruct (fop_of op) as [o|] eqn:O; [|destruct op; discriminate]. destruct C as [C Nz].
    destruct (float_op_run op o b (as_float v) u O B') as (R1 & R2 & R3). split; [exact R2|].
    split; [rewrite R3; destruct op; try discriminate; try reflexivity; now rewrite andb_false_r in Ok|]. split; [|exact Nz]. now exists b, o.
Qed.

(** The operator of a compound assignment, on the old value and the operand. *)
Lemma op_sim op wt i32 a b x res :
  op_ok op wt i32 = true -> op <> OP_NONE -> wt = WT_I32 \/ wt = WT_F64 -> inv a -> pushes a b x res ->
  exists y, pushes a (put_op (op_code wt op) b) (x ++ y) (fun r us => exists old v u rest,
    res r (coerce wt v :: old :: rest) /\ value_ok old /\ value_ok v /\ vtype old = wt /\ (vtype v = wt \/ wt = WT_F64) /\
    bin_op op old v = Some u /\ us = u :: rest).
Proof.
  intros Ok No Hwt Ia P. pose proof (fun old v u => op_typed op wt i32 old v u Ok No Hwt) as T.
  unfold put_op. destruct (Z.eqb_spec (op_code wt op) 0) as [Z0|Nz].
  { exists []. rewrite app_nil_r. revert P. apply pushes_impl; [exact Ia|].
    intros gF Fin r st us _ _ _ (old & v & u & rest & _ & V1 & V2 & T1 & T2 & B & _). destruct (T old v u V1 V2 T1 T2 B) as (_ & _ & _ & N). contradiction. }
  unfold coerce in *. destruct (Z.eqb_spec wt WT_F64) as [->|Nf].
  - assert (O : exists o, fop_of op = Some o /\ op_code WT_F64 op = fop_code o).
    { unfold op_code in *. cbn [Z.eqb WT_F64 Pos.eqb] in *. pose proof (binop_f_code op) as C. destruct (fop_of op) as [o|]; [|contradiction]. exists o. tauto. }
    destruct O as (o & O & C). exists [I_float o].
    eapply (pushes_impl _ _ _ _ _ Ia); [|eapply (pushes_op _ _ _ _ _ (I_float o) (fun r ws us => exists b c rest, ws = VF c :: VF b :: rest /\ us = run_float o b c :: rest));
      [exact Ia|exact P|now rewrite C|reflexivity|exact Logic.I|]].
    + intros gF Fin r st us _ _ _ (old & v & u & rest & Hr & V1 & V2 & T1 & T2 & B & ->). destruct (T old v u V1 V2 T1 T2 B) as (_ & _ & K & _).
      cbn [Z.eqb WT_F64 Pos.eqb] in K. destruct K as (b0 & o' & -> & O' & _ & R). rewrite O in O'. injection O' as <-.
      exists (VF (as_float v) :: VF b0 :: rest). split; [exact Hr|]. exists b0, (as_float v), rest. now rewrite R.
    + intros gF Fin r st ws us _ _ _ _ (b0 & c & rest & -> & ->) stk. reflexivity.
  - destruct Hwt as [-> |]; [|contradiction].
    assert (O : exists o, iop_of op = Some o /\ op_code WT_I32 op = iop_code o).
    { unfold op_code in *. cbn [Z.eqb WT_F64 WT_I32 Pos.eqb] in *. pose proof (binop_i_code op) as C. destruct (iop_of op) as [o|]; [|contradiction]. exists o. tauto. }
    destruct O as (o & O & C). exists [I_int o].
    eapply (pushes_impl _ _ _ _ _ Ia); [|eapply (pushes_int o); [exact Ia|exact P|now rewrite C]].
    intros gF Fin r st us _ _ _ (old & v & u & rest & Hr & V1 & V2 & T1 & T2 & B & ->). destruct (T old v u V1 V2 T1 T2 B) as (_ & _ & K & _).
    cbn [Z.eqb WT_F64 WT_I32 Pos.eqb] in K. destruct K as (p & q & z & o' & -> & -> & -> & O' & _ & R). rewrite O in O'. injection O' as <-.
    exists (VI q :: VI p :: rest). split; [exact Hr|]. now exists p, q, z, rest.
Qed.

Lemma holds_set m m' a ty vs k w v l :
  array_ok a ty -> holds m a ty vs -> k < List.length vs -> List.length l = acc_size (at_acc ty) ->
  load_val (at_acc ty) l = as_elem (at_acc ty) v -> w = as_elem (at_acc ty) v -> value_ok w -> vtype w = acc_wt (at_acc ty) ->
  m' = write_mem m (elem_addr a k) l -> holds m' a ty (set_at vs k w).
Proof.
  intros O [L K] Hk Ll Lv -> Vw Tw ->. assert (Len : List.length (set_at vs k (as_elem (at_acc ty) v)) = List.length vs).
  { clear. revert k; induction vs as [|x vs IH]; intros [|k]; cbn; auto. }
  split; [now rewrite Len|]. intros j u N. rewrite set_at_nth in N. destruct (Nat.eqb_spec k j) as [<-|Nj].
  - destruct (nth_error vs k); [|discriminate]. injection N as <-. split; [exact Vw|]. split; [exact Tw|].
    rewrite <- Lv, <- Ll. f_equal. apply read_write.
  - destruct (K j u N) as (K1 & K2 & K3). split; [exact K1|]. split; [exact K2|]. rewrite <- K3. f_equal. apply read_ext.
    intros y Hy. apply write_outside. rewrite Ll. unfold elem_addr in *. rewrite (ao_size _ _ O) in *.
    destruct (Nat.lt_ge_cases k j); [right|left]; nia.
Qed.
End Parts.
End Stmts.
