(* ===== verification/WasmGenRun.v ===== *)
(** * The emitted program runs like the program

    Assignments, prints, conditionals, loops and the whole body. *)

From S2P Require Import Prelude Hir Lexer LexerFacts WasmEncode WasmProps WasmGen WasmSem HirSem WasmGenFacts WasmGenLits WasmGenSim WasmGenStmt.

Section Run.
Context `{F64Ops} `{!F64Law}.
Context {consts : list (cstr * HirExpr)} {Gam : cstr -> option Z} {Del : cstr -> option ArrTy}.
Context {Cok : @ConstsOk consts Gam Del}.
Abbreviation inv := (@inv consts Gam Del).
Abbreviation Final := (@Final consts Gam Del).
Abbreviation agree := (@agree Del).
Abbreviation run := (exec arity).
Abbreviation emit_sim := (@emit_sim _ consts Gam Del).
Abbreviation pushes := (@pushes _ consts Gam Del).
Abbreviation does := (@does _ consts Gam Del).

(** The emitter of expressions, and the bound on the chains of constants. *)
Variable emit : HirExpr -> Wg -> res Wg.
Hypothesis sim : emit_sim emit.
Hypothesis grows : forall e, extends (emit e).
Variable fuel : nat.

Lemma wt_of_type t : wg_wtype t = WT_I32 \/ wg_wtype t = WT_F64.
Proof. rewrite is_float_wtype. destruct (is_float t); auto. Qed.

(** Code that leaves a value, stored into the local [x]. *)
Lemma does_set g g1 g2 x i c wt (val_of : Env -> val -> Prop) :
  inv g -> emits g g1 [] -> inv g1 -> wg_arrays g1 = wg_arrays g -> Gam x = Some wt -> local_find (wg_locals g1) x 0 = Some i ->
  pushes g1 g2 c (fun r us => exists w, us = [w] /\ val_of r w) ->
  does g (g_set i g2) (c ++ [I_set i]) [] (fun _ r r' out => out = [] /\ exists w, value_ok w /\ vtype w = wt /\ val_of r w /\ r' = set_scal r x w).
Proof.
  intros Iv M1 I1 A1 G F (M2 & W2 & I2 & A2 & R2). pose proof (local_find_ext _ _ _ _ (proj1 M2) F) as F2.
  assert (Hi : small (Z.of_nat i)).
  { destruct (local_find_nth _ _ _ _ F2) as (_ & l & N & _). rewrite Nat.sub_0_r in N.
    pose proof (proj1 (nth_error_Some (wg_locals g2) i) ltac:(congruence)). pose proof (iv_locals _ I2) as [L1 L2 _]. unfold small. lia. }
  pose proof (emits_app _ _ _ _ _ M1 (emits_app _ _ _ _ _ M2 (set_emits g2 i Hi))) as M3. split; [exact M3|]. split.
  { rewrite wf_app, W2. unfold wf_code. cbn [forallb wf_instr]. rewrite andb_true_r. apply Z.ltb_lt. exact (proj2 Hi). }
  split; [exact (inv_body _ _ I2)|]. split; [cbn [wg_arrays g_set set_body]; now rewrite A2, A1, app_nil_r|].
  intros gF Fin n r st r' out X A (-> & w & Vw & Tw & Hw & ->). pose proof (ext_trans _ _ _ (set_ext i g2) X) as X2.
  destruct (agree_set gF Fin g r st x i w A (local_find_ext _ _ _ _ X2 F2) Vw ltac:(congruence) n []) as (st' & Rn & Ag & Cs).
  exists st', []. split; [|split; [|split; [now rewrite Cs, app_nil_r|constructor]]].
  - rewrite exec_app, (R2 gF Fin r st [w] X2 (agree_ext _ _ _ _ (proj1 M1) A)); [exact Rn|]. now exists w.
  - exact (agree_ext _ _ _ _ (proj1 M3) Ag).
Qed.

(** The value an assignment gives a scalar. *)
Definition new_scal (x : cstr) (value : HirExpr) (op : Operator) (r : Env) (w : val) : Prop :=
  exists old v, e_scal r x = Some old /\ eval consts fuel r value = Some v /\ assigned op old v = Some w.

Lemma op_none_dec (op : Operator) : {op = OP_NONE} + {op <> OP_NONE}.
Proof. destruct op; (now left) || (right; discriminate). Qed.

Lemma compound_op op : op <> OP_NONE -> negb (Operator_beq op OP_NONE) = true.
Proof. intros N. destruct op; try reflexivity. contradiction. Qed.

(** The new value is of the type of the local. *)
Lemma new_scal_typed x value op wt r w i32 :
  env_ok (Gam := Gam) (Del := Del) r -> Gam x = Some wt -> wt = WT_I32 \/ wt = WT_F64 -> op_ok op wt i32 = true ->
  (match op with OP_NONE => wt_expr consts Gam Del value && (wg_wtype (he_resolved value) =? wt)%Z | _ => wt_as consts Gam Del wt value end) = true ->
  new_scal x value op r w -> value_ok w /\ vtype w = wt.
Proof.
  intros Eo G Hwt Ok W (old & v & Eold & Ev & As). destruct (eo_scal _ Eo x old Eold) as [Vo To]. rewrite G in To. injection To as To.
  destruct (op_none_dec op) as [->|No].
  - injection As as <-. apply andb_true_iff in W as [W T]. apply Z.eqb_eq in T.
    destruct (eval_typed fuel r value v Eo W Ev) as [V Tv]. split; [exact V|]. now rewrite Tv.
  - assert (W' : wt_as consts Gam Del wt value = true) by (destruct op; try exact W; contradiction).
    destruct (wt_as_type wt value fuel r v Eo W' Ev) as [Vv Tv].
    assert (B : bin_op op old v = Some w) by (destruct op; try exact As; contradiction).
    destruct (op_typed op wt i32 old v w Ok No Hwt Vo Vv (eq_sym To) Tv B) as (V & T & _). auto.
Qed.

Lemma assign_name_sim x target value op g g' :
  he_data target = HE_NAME x -> wt_assign consts Gam Del target value op = true -> inv g ->
  emit_assign emit target value op g = Ok g' -> wg_local_count g' <= 256 ->
  exists code, does g g' code [] (fun _ r r' out => out = [] /\ eval_assign consts Del fuel r target value op = Some r').
Proof.
  intros Hd W Iv E Hc. unfold wt_assign in W. unfold emit_assign in E. rewrite Hd in *. cbn zeta in W. set (wt := wg_wtype (he_resolved target)) in *.
  apply andb_true_iff in W as [W Ok]. apply andb_true_iff in W as [W Wv]. apply andb_true_iff in W as [G _].
  destruct (Gam x) as [wt'|] eqn:Gx; [|discriminate]. apply Z.eqb_eq in G. subst wt'.
  apply rbind_ok in E as ([i g1] & E1 & E). apply rbind_ok in E as (g2 & E2 & E). cbn [fst snd] in *. injection E as <-.
  cbn [wg_local_count g_set set_body] in Hc.
  assert (X12 : ext g1 g2).
  { destruct (negb _) in E2; [|exact (grows _ _ _ E2)]. apply rbind_ok in E2 as (g3 & E3 & E2). injection E2 as <-.
    apply (ext_trans _ _ _ (get_ext i g1)). apply (ext_trans _ _ _ (operand_ext emit grows _ _ _ _ E3)). apply put_op_ext. }
  destruct (wg_local_ok Gam x wt g i g1 (iv_locals _ Iv) Gx E1 ltac:(pose proof (ex_count _ _ X12); lia)) as (M1 & L1 & A1 & C1 & _ & F1).
  pose proof (local_inv g g1 (proj1 M1) Iv L1 A1 C1) as I1. pose proof (wt_of_type (he_resolved target)) as Hwt. fold wt in Hwt.
  assert (P : exists c, pushes g1 g2 c (fun r us => exists w, us = [w] /\ new_scal x value op r w)).
  { destruct (op_none_dec op) as [->|No].
    - cbn in E2. apply andb_true_iff in Wv as [Wv _]. destruct (sim value g1 g2 Wv I1 E2 Hc) as [c P]. exists c. revert P.
      apply pushes_impl; [exact I1|]. intros gF Fin r st vs _ _ _ (w & -> & (old & v & _ & Ev & As)). injection As as <-. now exists fuel, v.
    - rewrite (compound_op op No) in E2. apply rbind_ok in E2 as (g3 & E3 & E2). injection E2 as <-.
      assert (W' : wt_as consts Gam Del wt value = true) by (destruct op; try exact Wv; contradiction).
      assert (Hc3 : wg_local_count g3 <= 256) by (unfold put_op in Hc; destruct (_ =? 0)%Z; exact Hc).
      destruct (operand_sim emit sim wt value _ g3 W' (inv_body _ _ I1) E3 Hc3) as [c2 P2].
      destruct (op_sim op wt _ _ _ _ _ Ok No Hwt I1 (pushes_app _ _ _ _ _ _ _ (pushes_get x i g1 I1 F1) P2)) as [y P3].
      eexists. eapply (pushes_impl _ _ _ _ _ I1); [|exact P3].
      intros gF Fin r st vs _ _ Eo (w & -> & (old & v & Eold & Ev & As)). destruct (eo_scal _ Eo x old Eold) as [Vo To].
      rewrite Gx in To. injection To as To. destruct (wt_as_type wt value fuel r v Eo W' Ev) as [Vv Tv].
      assert (B : bin_op op old v = Some w) by (destruct op; try exact As; contradiction).
      exists old, v, w, []. split; [|auto 10]. exists [old], [coerce wt v]. split; [now exists old|]. split; [now exists fuel, v|reflexivity]. }
  destruct P as [c P]. exists (c ++ [I_set i]). pose proof (does_set g g1 g2 x i c wt (new_scal x value op) Iv M1 I1 A1 Gx F1 P) as Dd.
  destruct Dd as (D1 & D2 & D3 & D4 & D5). split; [exact D1|]. split; [exact D2|]. split; [exact D3|]. split; [exact D4|].
  intros gF Fin n r st r' out X A [-> Ev]. apply (D5 gF Fin n r st r' [] X A). split; [reflexivity|].
  unfold eval_assign in Ev. rewrite Hd in Ev. destruct (e_scal r x) as [old|] eqn:Eo; [|discriminate].
  destruct (eval consts fuel r value) as [v|] eqn:Ee; [|discriminate]. destruct (assigned op old v) as [w|] eqn:As; [|discriminate].
  injection Ev as <-. assert (Ns : new_scal x value op r w) by now exists old, v.
  destruct (new_scal_typed x value op wt r w _ (agree_env g r st Iv (ext_trans _ _ _ (proj1 D1) X) A) Gx Hwt Ok Wv Ns) as [Vw Tw].
  exists w. auto.
Qed.

(** *** Elements of arrays *)

Lemma acc_wt_cases a : acc_wt a = WT_I32 \/ acc_wt a = WT_F64.
Proof. destruct a; auto. Qed.

Lemma coerce_typed wt v : vtype v = wt -> wt = WT_I32 \/ wt = WT_F64 -> coerce wt v = v.
Proof. intros <- _. now destruct v. Qed.

(** The value an assignment gives element [j] of the array [x], at its index [i]. *)
Definition new_elem (x : cstr) (i value : HirExpr) (op : Operator) (r : Env) (arr : list val) (j : nat) (w : val) : Prop :=
  exists vi old v, e_arr r x = Some arr /\ eval consts fuel r i = Some vi /\ index_of vi arr = Some j /\ nth_error arr j = Some old /\
    eval consts fuel r value = Some v /\ assigned op old v = Some w.

(** The type of the new value: the store and the code before it expect it. *)
Lemma new_elem_typed x i value op r arr j w ty i32 :
  env_ok (Gam := Gam) (Del := Del) r -> Del x = Some ty -> wt_as consts Gam Del (acc_wt (at_acc ty)) value = true ->
  op_ok op (acc_wt (at_acc ty)) i32 = true -> new_elem x i value op r arr j w ->
  value_ok w /\ (vtype w = acc_wt (at_acc ty) \/ acc_wt (at_acc ty) = WT_F64) /\ (op <> OP_NONE -> vtype w = acc_wt (at_acc ty)).
Proof.
  intros Eo D Wv Ok (vi & old & v & Ea & _ & _ & No & Ev & As). destruct (wt_as_type _ value fuel r v Eo Wv Ev) as [Vv Tv].
  destruct (eo_arr _ Eo x arr Ea) as (ty' & D' & _ & K). rewrite D in D'. injection D' as <-. destruct (K j old No) as [Vo To].
  destruct (op_none_dec op) as [->|N].
  - injection As as <-. split; [exact Vv|]. split; [exact Tv|contradiction].
  - assert (B : bin_op op old v = Some w) by (destruct op; try exact As; contradiction).
    destruct (op_typed op _ i32 old v w Ok N (acc_wt_cases _) Vo Vv To Tv B) as (V & T & _). auto.
Qed.

(** The address of the element and its new value. *)
Lemma new_elem_sim a ty x i value op g g1 g4 i32 :
  wt_expr consts Gam Del i = true -> wt_as consts Gam Del (acc_wt (at_acc ty)) value = true -> op_ok op (acc_wt (at_acc ty)) i32 = true ->
  inv g -> wg_array_find x g = Some a -> Del x = Some ty ->
  wg_emit_elem_addr emit a i g = Ok g1 ->
  (let compound := negb (Operator_beq op OP_NONE) in
   g2 <- (if compound then g' <- wg_emit_elem_addr emit a i g1 ;; Ok (wg_emit_load a g') else Ok g1) ;;
   g3 <- emit_operand emit (wa_elem_wt a) value g2 ;;
   Ok (if compound then put_op (op_code (wa_elem_wt a) op) g3 else g3)) = Ok g4 ->
  wg_local_count g4 <= 256 ->
  exists c, pushes g g4 c (fun r us => exists arr j w, new_elem x i value op r arr j w /\ us = [coerce (acc_wt (at_acc ty)) w; VI (elem_addr a j)]).
Proof.
  intros Wi Wv Ok Iv F D E1 E Hc. destruct (array_typed g x a Iv F) as (ty' & D' & O). rewrite D in D'. injection D' as <-.
  cbn zeta in E. rewrite (ao_wt _ _ O) in E. destruct (op_none_dec op) as [->|N].
  - cbn [Operator_beq negb] in E. apply rbind_ok in E as (g2 & E2 & E). injection E2 as <-. apply rbind_ok in E as (g3 & E3 & E). injection E as <-.
    pose proof (ex_count _ _ (operand_ext emit grows _ _ _ _ E3)) as C3.
    destruct (elem_addr_sim emit sim a x i g g1 Wi Iv F E1 ltac:(lia)) as [c1 P1].
    destruct (operand_sim emit sim _ value g1 g3 Wv (proj1 (proj2 (proj2 P1))) E3 Hc) as [c2 P2].
    eexists. eapply (pushes_impl _ _ _ _ _ Iv); [|exact (pushes_app _ _ _ _ _ _ _ P1 P2)].
    intros gF Fin r st us _ _ _ (arr & j & w & (vi & old & v & Ea & Ei & Ej & No & Ev & As) & ->). injection As as <-.
    exists [VI (elem_addr a j)], [coerce (acc_wt (at_acc ty)) v]. split; [now exists fuel, vi, arr, j|]. split; [now exists fuel, v|reflexivity].
  - rewrite (compound_op op N) in E. apply rbind_ok in E as (g2 & E2 & E). apply rbind_ok in E2 as (g' & E2 & E2'). injection E2' as <-.
    apply rbind_ok in E as (g3 & E3 & E). injection E as <-.
    assert (Hc3 : wg_local_count g3 <= 256) by (unfold put_op in Hc; destruct (_ =? 0)%Z; exact Hc).
    pose proof (ex_count _ _ (operand_ext emit grows _ _ _ _ E3)) as C3. cbn [wg_local_count wg_emit_load put set_body] in C3.
    pose proof (elem_addr_ext emit grows _ _ _ _ E2) as X2. pose proof (ex_count _ _ X2) as C2.
    destruct (elem_addr_sim emit sim a x i g g1 Wi Iv F E1 ltac:(lia)) as [c1 P1]. pose proof (proj1 (proj2 (proj2 P1))) as I1.
    pose proof (array_find_ext x g g1 a (elem_addr_ext emit grows _ _ _ _ E1) F) as F1.
    destruct (load_sim emit sim grows a ty x i g1 g' Wi I1 F1 D E2 ltac:(lia)) as [c2 P2].
    destruct (operand_sim emit sim _ value _ g3 Wv (proj1 (proj2 (proj2 P2))) E3 Hc3) as [c3 P3].
    destruct (op_sim op _ i32 _ _ _ _ Ok N (acc_wt_cases _) Iv (pushes_app _ _ _ _ _ _ _ (pushes_app _ _ _ _ _ _ _ P1 P2) P3)) as [y P4].
    eexists. eapply (pushes_impl _ _ _ _ _ Iv); [|exact P4].
    intros gF Fin r st us _ _ Eo (arr & j & w & Ne & ->). destruct (new_elem_typed _ _ _ _ _ _ _ _ _ _ Eo D Wv Ok Ne) as (Vw & _ & Tw).
    specialize (Tw N). destruct Ne as (vi & old & v & Ea & Ei & Ej & No & Ev & As).
    destruct (wt_as_type _ value fuel r v Eo Wv Ev) as [Vv Tv]. destruct (eo_arr _ Eo x arr Ea) as (ty' & D' & _ & K).
    rewrite D in D'. injection D' as <-. destruct (K j old No) as [Vo To].
    assert (B : bin_op op old v = Some w) by (destruct op; try exact As; contradiction).
    rewrite (coerce_typed _ w Tw (acc_wt_cases _)). exists old, v, w, [VI (elem_addr a j)]. split; [|auto 10].
    exists [old; VI (elem_addr a j)], [coerce (acc_wt (at_acc ty)) v]. split; [|split; [now exists fuel, v|reflexivity]].
    exists [VI (elem_addr a j)], [old]. split; [now exists fuel, vi, arr, j|]. split; [now exists fuel, vi, arr, j, old|reflexivity].
Qed.

(** The store of a value into an element. *)
Lemma store_sim a ty x g g' c (val_of : Env -> list val -> nat -> val -> Prop) :
  inv g -> wg_array_find x g = Some a -> Del x = Some ty ->
  (forall r arr j w, env_ok (Gam := Gam) (Del := Del) r -> val_of r arr j w -> e_arr r x = Some arr /\ j < List.length arr /\ value_ok w /\
     (vtype w = acc_wt (at_acc ty) \/ acc_wt (at_acc ty) = WT_F64)) ->
  pushes g g' c (fun r us => exists arr j w, val_of r arr j w /\ us = [coerce (acc_wt (at_acc ty)) w; VI (elem_addr a j)]) ->
  does g (wg_emit_store a g') (c ++ [I_store (store_acc (at_acc ty))]) []
    (fun _ r r' out => out = [] /\ exists arr j w, val_of r arr j w /\ r' = set_arr r x (set_at arr j (as_elem (at_acc ty) w))).
Proof.
  intros Iv F D T (M & W & I1 & A1 & R). destruct (array_typed g x a Iv F) as (ty' & D' & O). rewrite D in D'. injection D' as <-.
  destruct (store_acc_code (at_acc ty)) as [Sc Sw]. assert (Ms : emits g' (wg_emit_store a g') [I_store (store_acc (at_acc ty))]).
  { apply put_emits. rewrite (ao_store _ _ O), Sc. unfold enc_seq. cbn [flat_map]. now rewrite app_nil_r. }
  pose proof (emits_app _ _ _ _ _ M Ms) as M2. split; [exact M2|]. split.
  { rewrite wf_app, W. unfold wf_code. cbn [forallb]. now rewrite Sw. }
  split; [exact (inv_put _ _ I1)|]. split; [cbn [wg_arrays wg_emit_store put set_body]; now rewrite A1, app_nil_r|].
  intros gF Fin n r st r' out X A (-> & arr & j & w & Hw & ->). pose proof (ext_trans _ _ _ (put_ext (store_bytes a) g') X) as X1.
  pose proof (ext_trans _ _ _ (proj1 M) X1) as X0. pose proof (agree_env g r st Iv X0 A) as Eo.
  destruct (T r arr j w Eo Hw) as (Ea & Hj & Vw & Tw). destruct (store_load (at_acc ty) w Vw Tw) as (l & Sv & Ll & Lv & Ve & Te).
  destruct (ag_arr _ _ _ _ A x arr Ea) as (a' & ty' & F' & D' & Hh). rewrite F in F'. injection F' as <-. rewrite D in D'. injection D' as <-.
  destruct (elem_place gF Fin g x a ty j Iv X0 F D ltac:(rewrite <- (proj1 Hh); lia)) as (U & _ & B & Lo & Hi).
  exists (mkSt (s_locals st) (write_mem (s_mem st) (elem_addr a j) l) (s_calls st)), []. split; [|split; [|split; [now rewrite app_nil_r|constructor]]].
  - rewrite exec_app, (R gF Fin r st _ X1 A (ex_intro _ arr (ex_intro _ j (ex_intro _ w (conj Hw eq_refl))))).
    rewrite exec_step by exact Logic.I. cbn [app]. now rewrite (step_store (at_acc ty) st _ _ l [] Sv B U).
  - apply (agree_ext g); [exact (proj1 M2)|].
    apply (agree_array gF Fin g r st x a ty); auto.
    + intros y Hy. apply write_outside. rewrite Ll. lia.
    + intros ws Ew. unfold set_arr in Ew. cbn [e_arr] in Ew. unfold upd in Ew. rewrite cstr_eqb_refl in Ew. injection Ew as <-.
      exact (holds_set _ _ a ty arr j _ w l O Hh Hj Ll Lv eq_refl Ve Te eq_refl).
    + exact (ag_vis _ _ _ _ A x arr Ea).
    + intros y Ny. cbn. unfold upd. destruct (cstr_eqb x y) eqn:C; [apply cstr_eqb_eq in C; congruence|auto].
Qed.

(** A state change that never happens. *)
Lemma does_none g (act : nat -> Env -> Env -> list Print -> Prop) :
  inv g -> (forall gF (Fin : Final gF) n r st r' out, ext g gF -> agree gF g r st -> ~ act n r r' out) -> does g g [] [] act.
Proof.
  intros Iv K. split; [apply emits_nil|]. split; [reflexivity|]. split; [exact Iv|]. split; [now rewrite app_nil_r|].
  intros gF Fin n r st r' out X A Hr. now destruct (K gF Fin n r st r' out X A).
Qed.

Lemma nth_lt {A} (l : list A) i x : nth_error l i = Some x -> i < List.length l.
Proof. intros N. apply nth_error_Some. congruence. Qed.

Lemma assign_index_sim x base i pol el t loc value op g g' :
  name_of base = Some x ->
  wt_assign consts Gam Del (mkHirExpr loc t (HE_INDEX base [i] pol el)) value op = true -> inv g ->
  emit_assign emit (mkHirExpr loc t (HE_INDEX base [i] pol el)) value op g = Ok g' -> wg_local_count g' <= 256 ->
  exists code, does g g' code []
    (fun _ r r' out => out = [] /\ eval_assign consts Del fuel r (mkHirExpr loc t (HE_INDEX base [i] pol el)) value op = Some r').
Proof.
  intros Nb W Iv E Hc. unfold wt_assign, array_of in W. unfold emit_assign in E. cbn [he_data] in *. rewrite Nb in W. cbn zeta in W.
  destruct (Del x) as [ty|] eqn:D; [|discriminate]. apply andb_true_iff in W as [W Wo]. apply andb_true_iff in W as [W Wv]. apply andb_true_iff in W as [Wi _].
  rewrite (array_base_ok _ _ _ Nb) in E. destruct (wg_array_find x g) as [a|] eqn:F.
  - apply rbind_ok in E as (g1 & E1 & E).
    assert (E' : exists g4, (let compound := negb (Operator_beq op OP_NONE) in
      g2 <- (if compound then g' <- wg_emit_elem_addr emit a i g1 ;; Ok (wg_emit_load a g') else Ok g1) ;;
      g3 <- emit_operand emit (wa_elem_wt a) value g2 ;;
      Ok (if compound then put_op (op_code (wa_elem_wt a) op) g3 else g3)) = Ok g4 /\ g' = wg_emit_store a g4).
    { apply rbind_ok in E as (g2 & E2 & E). apply rbind_ok in E as (g3 & E3 & E). injection E as <-. eexists. split; [|reflexivity].
      cbn zeta. rewrite E2. cbn [rbind]. now rewrite E3. }
    destruct E' as (g4 & E4 & ->). cbn [wg_local_count wg_emit_store put set_body] in Hc.
    destruct (new_elem_sim a ty x i value op g g1 g4 _ Wi Wv Wo Iv F D E1 E4 Hc) as [c P]. eexists.
    eapply does_impl; [|apply (store_sim a ty x g g4 c (new_elem x i value op) Iv F D); [|exact P]].
    + intros n r r' out [-> Ev]. split; [reflexivity|]. unfold eval_assign in Ev. cbn [he_data] in Ev. rewrite Nb, D in Ev.
      destruct (e_arr r x) as [arr|] eqn:Ea; [|discriminate]. destruct (eval consts fuel r i) as [vi|] eqn:Ei; [|discriminate].
      destruct (eval consts fuel r value) as [v|] eqn:Ee; [|discriminate]. destruct (index_of vi arr) as [j|] eqn:Ej; [|discriminate].
      destruct (nth_error arr j) as [old|] eqn:No; [|discriminate]. destruct (assigned op old v) as [w|] eqn:As; [|discriminate].
      injection Ev as <-. exists arr, j, w. split; [|reflexivity]. now exists vi, old, v.
    + intros r arr j w Eo Ne. destruct (new_elem_typed _ _ _ _ _ _ _ _ _ _ Eo D Wv Wo Ne) as (Vw & Tw & _).
      destruct Ne as (vi & old & v & Ea & _ & _ & No & _). split; [exact Ea|]. split; [exact (nth_lt _ _ _ No)|auto].
  - injection E as <-. exists []. apply (does_none g _ Iv). intros gF Fin n r st r' out X A [_ Ev].
    unfold eval_assign in Ev. cbn [he_data] in Ev. rewrite Nb in Ev. destruct (e_arr r x) as [arr|] eqn:Ea; [|discriminate].
    destruct (ag_arr _ _ _ _ A x arr Ea) as (a & ty' & F' & _). congruence.
Qed.

Lemma assign_sim target value op g g' :
  wt_assign consts Gam Del target value op = true -> inv g -> emit_assign emit target value op g = Ok g' -> wg_local_count g' <= 256 ->
  exists code, does g g' code [] (fun _ r r' out => out = [] /\ eval_assign consts Del fuel r target value op = Some r').
Proof.
  intros W Iv E Hc. destruct target as [loc t d]. destruct d; try discriminate W.
  - exact (assign_name_sim name (mkHirExpr loc t (HE_NAME name)) value op g g' eq_refl W Iv E Hc).
  - destruct indices as [|i [|]]; try discriminate W. destruct (name_of base) as [x|] eqn:Nb.
    + exact (assign_index_sim x base i policy policy_elided t loc value op g g' Nb W Iv E Hc).
    + unfold wt_assign, array_of in W. cbn [he_data] in W. rewrite Nb in W. discriminate.
Qed.
End Run.
