(* ===== verification/WasmGenPrint.v ===== *)
(** * The emitted prints

    The interned texts, the 8-byte slots of the arguments at 512 and up, and the call to the host. *)

From S2P Require Import Prelude Hir Lexer LexerFacts WasmEncode WasmProps WasmGen WasmSem HirSem WasmGenFacts WasmGenLits WasmGenSim WasmGenStmt WasmGenRun.

Lemma unescape_plain s : no_backslash s = true -> unescape s = bytes_of s.
Proof.
  induction s as [|c [|d s] IH]; intros B; [reflexivity|reflexivity|]. cbn [no_backslash forallb] in B.
  apply andb_true_iff in B as [B1 B2]. apply negb_true_iff in B1. cbn [unescape bytes_of map]. rewrite B1. f_equal. exact (IH B2).
Qed.

(** Without the last character no backslash can start an escape; with one before it a text gets shorter. *)
Lemma unescape_shorter s : List.length (unescape s) <= List.length s.
Proof.
  enough (G : List.length (unescape s) <= List.length s /\ forall c, List.length (unescape (c :: s)) <= S (List.length s)) by apply G.
  induction s as [|d s [IH1 IH2]]; [split; [|intros c]; cbn; lia|]. split; [apply IH2|]. intros c.
  change (unescape (c :: d :: s)) with (if Ascii.eqb c BACKSLASH then escape_char d :: unescape s else code c :: unescape (d :: s)).
  case_if; cbn [List.length]; [lia|]. specialize (IH2 d). lia.
Qed.

Lemma unescape_same s : unescape s = bytes_of s <-> no_backslash (removelast s) = true.
Proof.
  induction s as [|c [|d s] IH]; [now split|now split|].
  change (unescape (c :: d :: s)) with (if Ascii.eqb c BACKSLASH then escape_char d :: unescape s else code c :: unescape (d :: s)).
  change (removelast (c :: d :: s)) with (c :: removelast (d :: s)). cbn [no_backslash forallb].
  fold (no_backslash (removelast (d :: s))). destruct (Ascii.eqb c BACKSLASH); cbn [negb andb].
  - split; [|discriminate]. intros E. apply (f_equal (@List.length Z)) in E. unfold bytes_of in E. rewrite length_map in E.
    cbn [List.length] in E. pose proof (unescape_shorter s). lia.
  - rewrite <- IH. split; [now intros [= E]|intros E]. cbn [bytes_of map]. now f_equal.
Qed.

Section Print.
Context `{F64Ops} `{!F64Law}.
Context {consts : list (cstr * HirExpr)} {Gam : cstr -> option Z} {Del : cstr -> option ArrTy}.
Context {Cok : @ConstsOk consts Gam Del}.
Abbreviation inv := (@inv consts Gam Del).
Abbreviation Final := (@Final consts Gam Del).
Abbreviation agree := (@agree Del).
Abbreviation run := (exec arity).
Abbreviation emit_sim := (@emit_sim _ consts Gam Del).
Abbreviation pushes := (@pushes _ consts Gam Del).
Abbreviation does := (@does _ consts Gam Del).

(** ** Memory below the texts *)

Lemma agree_low gF (Fin : Final gF) g r st m cs :
  inv g -> ext g gF -> agree gF g r st -> (forall y, 1024 <= y -> m y = s_mem st y)%Z -> agree gF g r (mkSt (s_locals st) m cs).
Proof.
  intros Iv X [A1 A2 A3 A4 A5 A6] Low. split; cbn [s_locals s_mem]; auto.
  - intros x vs E. destruct (A3 x vs E) as (a & ty & F & D & L & K). exists a, ty. split; [exact F|]. split; [exact D|]. split; [exact L|].
    intros k v N. destruct (K k v N) as (K1 & K2 & K3). split; [exact K1|]. split; [exact K2|]. rewrite <- K3. f_equal. apply read_ext.
    intros y Hy. apply Low. destruct (array_typed g x a Iv F) as (ty' & D' & O). rewrite D in D'. injection D' as <-.
    destruct (array_place g x a Iv X F) as (_ & Lo & _). unfold elem_addr in Hy. rewrite (ao_size _ _ O) in Hy. nia.
  - intros a y Ia Sa Hy. rewrite Low; [now apply (A4 a)|]. pose proof (proj1 (Forall_forall _ _) (as_low _ _ (iv_arrays _ final)) a Ia) as B.
    cbn beta in B. lia.
  - intros k b N. rewrite Low by lia. now apply A6.
Qed.

(** ** Texts *)

Lemma intern_sim s g off len g1 : no_backslash s = true -> inv g -> wg_intern_string s g = (off, len, g1) ->
  emits g g1 [] /\ inv g1 /\ wg_arrays g1 = wg_arrays g /\ wg_local_count g1 = wg_local_count g /\ len = Z.of_nat (List.length (bytes_of s)) /\
  forall gF (Fin : Final gF), ext g1 gF -> (1024 <= off)%Z /\ (off + len <= 16384)%Z /\
    forall g2 r st, agree gF g2 r st -> read_mem (s_mem st) off (List.length (bytes_of s)) = bytes_of s.
Proof.
  intros B Iv E. pose proof (intern_ext s g) as X. unfold wg_intern_string in *. rewrite (unescape_plain s B) in *. injection E as <- <- <-.
  split; [split; [exact X|cbn; now rewrite app_nil_r]|]. split.
  { destruct Iv as [[L1 L2 L3] [A1 A2 A3 A4 A5 A6] C Bs]. now repeat split. }
  split; [reflexivity|]. split; [reflexivity|]. split; [reflexivity|]. intros gF Fin XF.
  pose proof (iv_bases _ Iv) as Bs. injection Bs as Bs _ _ _. rewrite Bs. destruct (ex_strings _ _ XF) as [l El].
  cbn [wg_strings set_strings] in El. rewrite each_data in El. pose proof (strings_fit (Final := Fin)) as Fit.
  rewrite El, !length_app in Fit. unfold wb_len. split; [lia|]. split; [lia|]. intros g2 r st A.
  transitivity (map (fun k => nth k (bytes_of s) 0%Z) (seq 0 (List.length (bytes_of s)))); [|apply map_nth_seq].
  unfold read_mem. apply map_ext_in. intros k Hk. apply in_seq in Hk.
  rewrite <- (ag_text _ _ _ _ A (List.length (wb_data (wg_strings g)) + k) (nth k (bytes_of s) 0%Z)); [f_equal; lia|].
  rewrite El, <- app_assoc, nth_error_app2, Nat.add_comm, Nat.add_sub by lia. rewrite nth_error_app1 by lia. apply nth_error_nth'. lia.
Qed.

(** ** Slots *)

(** The slot keeps its argument while the memory changes only below 1024 and outside the slot. *)
Definition settled (m : Z -> Z) (slot : Z) (p : PArg) : Prop :=
  forall m', (forall y, slot <= y < slot + 8 \/ 1024 <= y -> m' y = m y)%Z -> slot_holds m' slot p.

Definition slot_acc (w : Z) : Acc := if (w =? WT_F64)%Z then A_f64 else A_i32.

(** The store of a scalar below 1024. *)
Lemma low_store v addr st stk :
  value_ok v -> (512 <= addr)%Z -> (addr + Z.of_nat (acc_size (slot_acc (vtype v))) <= 1024)%Z ->
  exists l, step arity (I_store (slot_acc (vtype v))) st (v :: VI addr :: stk) = Norm (mkSt (s_locals st) (write_mem (s_mem st) addr l) (s_calls st)) stk /\
    List.length l = acc_size (slot_acc (vtype v)) /\ load_val (slot_acc (vtype v)) l = v.
Proof.
  intros V Lo Hi. assert (T : vtype v = acc_wt (slot_acc (vtype v))) by now destruct v.
  destruct (store_load (slot_acc (vtype v)) v V (or_introl T)) as (l & S & Ll & Lv & _ & _). exists l.
  rewrite <- T, (coerce_typed (vtype v) v eq_refl) in S by (destruct v; auto).
  assert (U : u32 addr = addr) by (apply u32_small; lia).
  assert (B : in_bounds addr (acc_size (slot_acc (vtype v))) = true).
  { unfold in_bounds, mem_size. rewrite U. apply Z.leb_le. lia. }
  pose proof (step_store (slot_acc (vtype v)) st v addr l stk S B U) as Q.
  replace (store_acc (slot_acc (vtype v))) with (slot_acc (vtype v)) in Q by now destruct v.
  split; [exact Q|]. split; [exact Ll|]. rewrite Lv. now destruct v.
Qed.

(** A 4-byte store made of emitted constants. *)
Definition slot_code (addr v : Z) : list Instr := [I_const (s32 addr); I_const (s32 v); I_store A_i32].

Lemma slot_emits addr v g : emits g (put [54; 2; 0]%Z (g_const v (g_const addr g))) (slot_code addr v).
Proof.
  apply (emits_app _ (g_const addr g) _ [I_const (s32 addr)]); [apply const_emits|].
  apply (emits_app _ (g_const v (g_const addr g)) _ [I_const (s32 v)]); [apply const_emits|]. now apply put_emits.
Qed.

Lemma slot_wf addr v : wf_code (slot_code addr v) = true.
Proof.
  pose proof (s32_range addr). pose proof (s32_range v). unfold wf_code, slot_code. cbn [forallb wf_instr].
  rewrite !andb_true_iff, !Z.leb_le, !Z.ltb_lt. lia.
Qed.

Lemma slot_run n addr v st : i32_range v -> (512 <= addr)%Z -> (addr + 4 <= 1024)%Z ->
  exists l, run n (slot_code addr v) st [] = Norm (mkSt (s_locals st) (write_mem (s_mem st) addr l) (s_calls st)) [] /\
    List.length l = 4 /\ load_val A_i32 l = VI v.
Proof.
  intros Rv Lo Hi. destruct (low_store (VI v) addr st [] Rv Lo Hi) as (l & S & Ll & Lv). exists l. split; [|auto].
  unfold slot_code. rewrite !s32_id by (unfold i32_range in *; lia). do 2 (rewrite exec_step by exact Logic.I; cbn [step]).
  rewrite exec_step by exact Logic.I. change (I_store A_i32) with (I_store (slot_acc (vtype (VI v)))). now rewrite S.
Qed.

(** ** Arguments *)

(** [code] stores arguments in the slots from [slot] on, and changes nothing else. *)
Definition stores (g g' : Wg) (code : list Instr) (slot : Z) (vals : Env -> list PArg -> Prop) : Prop :=
  emits g g' code /\ wf_code code = true /\ inv g' /\ wg_arrays g' = wg_arrays g /\
  forall gF (Fin : Final gF) n r st ps, ext g' gF -> agree gF g r st -> vals r ps ->
    exists m, run n code st [] = Norm (mkSt (s_locals st) m (s_calls st)) [] /\
      (forall y, ~ (slot <= y < slot + 8 * Z.of_nat (List.length ps)) -> m y = s_mem st y)%Z /\
      (forall j p, nth_error ps j = Some p -> settled m (slot + 8 * Z.of_nat j) p).

Lemma stores_app a b c x y slot v1 v2 k :
  inv a -> inv b -> (512 <= slot)%Z -> (forall r ps, v1 r ps -> List.length ps = 1) -> (forall r ps, v2 r ps -> List.length ps = k) ->
  (slot + 8 + 8 * Z.of_nat k <= 1024)%Z ->
  stores a b x slot v1 -> stores b c y (slot + 8) v2 ->
  stores a c (x ++ y) slot (fun r ps => exists ps1 ps2, v1 r ps1 /\ v2 r ps2 /\ ps = ps1 ++ ps2).
Proof.
  intros Ia Ib Lo L1 L2 Hi (E1 & W1 & I1 & A1 & R1) (E2 & W2 & I2 & A2 & R2). pose proof (emits_app _ _ _ _ _ E1 E2) as E.
  split; [exact E|]. split; [now rewrite wf_app, W1, W2|]. split; [exact I2|]. split; [congruence|].
  intros gF Fin n r st ps X A (ps1 & ps2 & V1 & V2 & ->). pose proof (ext_trans _ _ _ (proj1 E2) X) as X1.
  destruct (R1 gF Fin n r st ps1 X1 A V1) as (m1 & Q1 & O1 & S1). rewrite (L1 r ps1 V1) in O1.
  assert (A' : agree gF b r (mkSt (s_locals st) m1 (s_calls st))).
  { apply (agree_ext a); [exact (proj1 E1)|]. apply (agree_low gF Fin a); [exact Ia|exact (ext_trans _ _ _ (proj1 E1) X1)|exact A|].
    intros z Hz. apply O1. lia. }
  destruct (R2 gF Fin n r _ ps2 X A' V2) as (m2 & Q2 & O2 & S2). rewrite (L2 r ps2 V2) in O2. exists m2.
  split; [now rewrite exec_app, Q1|]. rewrite length_app, (L1 r ps1 V1), (L2 r ps2 V2). split.
  - intros z Hz. rewrite O2 by lia. apply O1. lia.
  - intros j p N. destruct ps1 as [|p1 [|]]; [discriminate (L1 r _ V1)| |discriminate (L1 r _ V1)]. destruct j as [|j].
    + injection N as <-. intros m' Hm. apply (S1 0 p1 eq_refl). intros z Hz. rewrite Hm by exact Hz. apply O2. lia.
    + replace (slot + 8 * Z.of_nat (S j))%Z with (slot + 8 + 8 * Z.of_nat j)%Z by lia. exact (S2 j p N).
Qed.

Lemma stores_impl a b x slot vals vals' :
  (forall r ps, vals' r ps -> vals r ps) -> stores a b x slot vals -> stores a b x slot vals'.
Proof. intros K (E & W & I & A & R). repeat (split; [assumption|]). intros. eapply R; eauto. Qed.

Variable emit : HirExpr -> Wg -> res Wg.
Hypothesis sim : emit_sim emit.
Hypothesis grows : forall e, extends (emit e).
Variable fuel : nat.

(** A text: the pointer and the length. *)
Lemma text_sim s slot g g' e :
  he_data e = HE_STRING s -> no_backslash s = true -> inv g -> (512 <= slot)%Z -> (slot + 8 <= 1024)%Z ->
  emit_arg emit e slot g = Ok g' ->
  exists code, stores g g' code slot (fun _ ps => ps = [PA_text (bytes_of s)]).
Proof.
  intros Hd B Iv Lo Hi E. unfold emit_arg, text_arg in E. rewrite Hd in E. cbn [orb] in E.
  destruct (wg_intern_string s g) as [[p l] g1] eqn:Si. injection E as <-.
  destruct (intern_sim s g p l g1 B Iv Si) as (M1 & I1 & A1 & _ & -> & T). set (l := Z.of_nat (List.length (bytes_of s))) in *.
  exists (slot_code slot p ++ slot_code (slot + 4) l).
  pose proof (emits_app _ _ _ _ _ M1 (emits_app _ _ _ _ _ (slot_emits slot p g1) (slot_emits (slot + 4) l _))) as M.
  split; [exact M|]. split; [now rewrite wf_app, !slot_wf|]. split; [now repeat apply inv_body|]. split; [exact A1|].
  intros gF Fin n r st ps X A ->. assert (X1 : ext g1 gF).
  { apply (ext_trans _ _ _ (proj1 (slot_emits slot p g1))). exact (ext_trans _ _ _ (proj1 (slot_emits (slot + 4) l _)) X). }
  destruct (T gF Fin X1) as (P1 & P2 & P3). assert (Hl : (0 <= l)%Z) by lia. rewrite exec_app.
  destruct (slot_run n slot p st ltac:(unfold i32_range; lia) Lo ltac:(lia)) as (l1 & -> & L1 & V1).
  destruct (slot_run n (slot + 4) l (mkSt (s_locals st) (write_mem (s_mem st) slot l1) (s_calls st)) ltac:(unfold i32_range; lia) ltac:(lia) ltac:(lia)) as (l2 & -> & L2 & V2).
  cbn [s_locals s_mem s_calls]. eexists. split; [reflexivity|]. cbn [List.length]. split.
  - intros y Hy. rewrite write_outside by lia. apply write_outside. lia.
  - intros [|j] q N; [|destruct j; discriminate]. injection N as <-. rewrite Z.add_0_r. intros m' Hm. exists p. split; [|split].
    + rewrite <- V1, <- L1. f_equal. rewrite <- (read_write (s_mem st) slot l1) at 2. apply read_ext. intros y Hy.
      rewrite Hm by lia. apply write_outside. lia.
    + etransitivity; [|exact V2]. rewrite <- L2. f_equal.
      rewrite <- (read_write (write_mem (s_mem st) slot l1) (slot + 4) l2) at 2. apply read_ext. intros y Hy. apply Hm. lia.
    + transitivity (read_mem (s_mem st) p (List.length (bytes_of s))); [|exact (P3 g r st A)]. apply read_ext. intros y Hy.
      rewrite Hm by lia. rewrite write_outside by lia. apply write_outside. lia.
Qed.

(** A number. *)
Lemma number_sim e slot g g' :
  (match he_data e with HE_STRING _ => false | _ => true end) = true -> is_tag (he_resolved e) HIR_TYPE_CHAR_ARRAY = false ->
  wt_expr consts Gam Del e = true -> inv g -> (512 <= slot)%Z -> (slot + 8 <= 1024)%Z ->
  emit_arg emit e slot g = Ok g' -> wg_local_count g' <= 256 ->
  exists code, stores g g' code slot (fun r ps => exists p, eval_arg consts fuel r e = Some p /\ ps = [p]).
Proof.
  intros Nt Nc W Iv Lo Hi E Hc. unfold emit_arg in E. rewrite Nc, orb_false_r in E.
  assert (T : (match he_data e with HE_STRING _ => true | _ => false end) = false) by (destruct (he_data e); try reflexivity; discriminate).
  rewrite T in E. apply rbind_ok in E as (g1 & E1 & E). injection E as <-.
  destruct (sim e (g_const slot g) g1 W (inv_const slot g Iv) E1 Hc) as [c P].
  destruct (pushes_app _ _ _ _ _ _ _ (pushes_const slot g Iv) P) as (M & Wf & I1 & A1 & R).
  set (acc := slot_acc (wg_wtype (he_resolved e))).
  assert (M2 : emits g1 (put (if (wg_wtype (he_resolved e) =? WT_F64)%Z then [57; 3; 0] else [54; 2; 0])%Z g1) [I_store acc]).
  { apply put_emits. unfold acc, slot_acc. destruct (_ =? _)%Z; reflexivity. }
  eexists. split; [exact (emits_app _ _ _ _ _ M M2)|]. split.
  { rewrite wf_app, Wf. unfold acc, slot_acc. destruct (_ =? _)%Z; reflexivity. }
  split; [exact (inv_put _ _ I1)|]. split; [exact A1|].
  intros gF Fin n r st ps X A (p & Ep & ->). pose proof (ext_trans _ _ _ (proj1 M2) X) as X1.
  pose proof (agree_env g r st Iv (ext_trans _ _ _ (proj1 M) X1) A) as Eo.
  assert (V : exists v, eval consts fuel r e = Some v /\ p = match v with VI z => PA_int z | VF b => PA_float b end).
  { unfold eval_arg in Ep. destruct (he_data e); try discriminate T; (destruct (eval consts fuel r e) as [v|]; [|discriminate]);
      injection Ep as <-; now exists v. }
  destruct V as (v & Ev & ->). destruct (eval_typed fuel r e v Eo W Ev) as [Vv Tv].
  rewrite exec_app, (R gF Fin r st [v; VI slot] X1 A).
  2:{ exists [VI (s32 slot)], [v]. split; [reflexivity|]. split; [now exists fuel, v|]. now rewrite s32_id by (unfold i32_range; lia). }
  rewrite exec_step by exact Logic.I. unfold acc. rewrite <- Tv. cbn [app].
  assert (Sz : (Z.of_nat (acc_size (slot_acc (vtype v))) <= 8)%Z) by (destruct v; cbn; lia).
  destruct (low_store v slot st [] Vv Lo ltac:(lia)) as (l & -> & Ll & Lv). cbn [exec]. eexists. split; [reflexivity|]. cbn [List.length]. split.
  - intros y Hy. apply write_outside. lia.
  - intros [|j] q N; [|destruct j; discriminate]. injection N as <-. rewrite Z.add_0_r. intros m' Hm.
    assert (K : load_val (slot_acc (vtype v)) (read_mem m' slot (acc_size (slot_acc (vtype v)))) = v).
    { etransitivity; [|exact Lv]. rewrite <- Ll. f_equal. rewrite <- (read_write (s_mem st) slot l) at 2. apply read_ext. intros y Hy. apply Hm. lia. }
    destruct v; cbn [slot_holds vtype slot_acc Z.eqb WT_I32 WT_F64 Pos.eqb acc_size load_val] in *; [exact K|exact K].
Qed.

Lemma arg_sim e slot g g' :
  wt_arg consts Gam Del e = true -> inv g -> (512 <= slot)%Z -> (slot + 8 <= 1024)%Z ->
  emit_arg emit e slot g = Ok g' -> wg_local_count g' <= 256 ->
  exists code, stores g g' code slot (fun r ps => exists p, eval_arg consts fuel r e = Some p /\ ps = [p]).
Proof.
  intros W Iv Lo Hi E Hc. destruct (match he_data e with HE_STRING _ => false | _ => true end) eqn:T.
  - assert (W' : wt_expr consts Gam Del e = true /\ is_tag (he_resolved e) HIR_TYPE_CHAR_ARRAY = false).
    { unfold wt_arg in W. destruct (he_data e); try discriminate T; apply andb_true_iff in W as [W1 W2]; apply negb_true_iff in W2; auto. }
    now apply number_sim.
  - destruct (he_data e) eqn:Hd; try discriminate T. unfold wt_arg in W. rewrite Hd in W.
    destruct (text_sim value slot g g' e Hd W Iv Lo Hi E) as [code S]. exists code. revert S. apply stores_impl.
    intros r ps (p & Ep & ->). unfold eval_arg in Ep. rewrite Hd in Ep. now injection Ep as <-.
Qed.

Lemma eval_args_length r es ps : eval_args consts fuel r es = Some ps -> List.length ps = List.length es.
Proof.
  revert ps; induction es as [|e es IH]; cbn; intros ps E; [now injection E as <-|].
  destruct (eval_arg consts fuel r e); [|discriminate]. destruct (eval_args consts fuel r es); [|discriminate].
  injection E as <-. cbn. f_equal. now apply IH.
Qed.

Lemma args_sim es : forall j g g',
  forallb (wt_arg consts Gam Del) es = true -> inv g -> j + List.length es <= 64 ->
  emit_args emit es (Z.of_nat j) g = Ok g' -> wg_local_count g' <= 256 ->
  exists code, stores g g' code (512 + 8 * Z.of_nat j) (fun r ps => eval_args consts fuel r es = Some ps).
Proof.
  induction es as [|e es IH]; intros j g g' W Iv B E Hc.
  - injection E as <-. exists []. split; [apply emits_nil|]. split; [reflexivity|]. split; [exact Iv|]. split; [reflexivity|].
    intros gF Fin n r st ps X A Ev. injection Ev as <-. exists (s_mem st). destruct st as [ls m cs]. split; [reflexivity|]. split; [reflexivity|].
    now intros [|i].
  - cbn [forallb List.length] in *. apply andb_true_iff in W as [We Ws]. cbn [emit_args] in E. apply rbind_ok in E as (g1 & E1 & E2).
    pose proof (iv_bases _ Iv) as Bs. injection Bs as _ Bs _ _. rewrite Bs in E1.
    replace (512 + Z.of_nat j * 8)%Z with (512 + 8 * Z.of_nat j)%Z in E1 by lia. replace (Z.of_nat j + 1)%Z with (Z.of_nat (S j)) in E2 by lia.
    pose proof (ex_count _ _ (args_ext emit grows _ _ _ _ E2)) as C2.
    destruct (arg_sim e (512 + 8 * Z.of_nat j)%Z g g1 We Iv ltac:(lia) ltac:(lia) E1 ltac:(lia)) as [c1 S1].
    destruct (IH (S j) g1 g' Ws (proj1 (proj2 (proj2 S1))) ltac:(lia) E2 Hc) as [c2 S2].
    replace (512 + 8 * Z.of_nat (S j))%Z with (512 + 8 * Z.of_nat j + 8)%Z in S2 by lia. exists (c1 ++ c2).
    eapply stores_impl; [|eapply (stores_app _ _ _ _ _ _ _ _ (List.length es)); [exact Iv|exact (proj1 (proj2 (proj2 S1)))|lia| | |lia|exact S1|exact S2]].
    + intros r ps Ev. cbn [eval_args] in Ev. destruct (eval_arg consts fuel r e) as [p|] eqn:Ea; [|discriminate].
      destruct (eval_args consts fuel r es) as [qs|] eqn:Es; [|discriminate]. injection Ev as <-. exists [p], qs. eauto.
    + now intros r ps (p & _ & ->).
    + intros r ps. apply eval_args_length.
Qed.

(** ** The call *)

(** The state after a call to the host. *)
Lemma agree_calls gF g r st cs : agree gF g r st -> agree gF g r (mkSt (s_locals st) (s_mem st) cs).
Proof. intros [A1 A2 A3 A4 A5 A6]. now split. Qed.

Lemma consts_wf l : wf_code (map (fun v => I_const (s32 v)) l) = true.
Proof.
  induction l as [|v l IH]; [reflexivity|]. cbn [map wf_code forallb]. unfold wf_code in IH. rewrite IH, andb_true_r. cbn [wf_instr].
  pose proof (s32_range v). rewrite andb_true_iff, Z.leb_le, Z.ltb_lt. lia.
Qed.

(** What a print does. *)
Definition printed (args : list HirExpr) (_ : nat) (r r' : Env) (out : list Print) : Prop :=
  r' = r /\ exists p, eval_print consts fuel r args = Some p /\ out = [p].

(** A text alone. *)
Lemma print_text fmt s g g' :
  he_data fmt = HE_STRING s -> no_backslash s = true -> inv g -> wg_emit_printf emit [fmt] g = Ok g' ->
  exists code, does g g' code [] (printed [fmt]).
Proof.
  intros Hd B Iv E. unfold wg_emit_printf in E. rewrite Hd in E. destruct (wg_intern_string s g) as [[off len] g1] eqn:Si.
  injection E as <-. destruct (intern_sim s g off len g1 B Iv Si) as (M1 & I1 & A1 & _ & -> & T). set (len := Z.of_nat (List.length (bytes_of s))) in *.
  pose proof (iv_bases _ I1) as Bs. injection Bs as _ _ Fp _. rewrite Fp.
  assert (M2 : emits g1 (emit_call 0 (g_const len (g_const off g1))) ([I_const (s32 off)] ++ [I_const (s32 len)] ++ [I_call 0])).
  { apply (emits_app _ (g_const off g1)); [apply const_emits|]. apply (emits_app _ (g_const len (g_const off g1))); [apply const_emits|].
    apply call_emits. unfold small. lia. }
  eexists. split; [exact (emits_app _ _ _ _ _ M1 M2)|]. split.
  { change (wf_code (map (fun v => I_const (s32 v)) [off; len] ++ [I_call 0]) = true). now rewrite wf_app, consts_wf. }
  split; [now repeat apply inv_body|]. split; [cbn [wg_arrays emit_call g_const set_body]; now rewrite A1, app_nil_r|].
  intros gF Fin n r st r' out X A (-> & p & Ep & ->). unfold eval_print in Ep. rewrite Hd in Ep. injection Ep as <-.
  destruct (T gF Fin (ext_trans _ _ _ (proj1 M2) X)) as (P1 & P2 & P3). assert (Hl : (0 <= len)%Z) by lia.
  assert (X0 : ext g (emit_call 0 (g_const len (g_const off g1)))) by exact (ext_trans _ _ _ (proj1 M1) (proj1 M2)).
  exists (mkSt (s_locals st) (s_mem st) (s_calls st ++ [Call 0 [VI off; VI len] (s_mem st)])), [Call 0 [VI off; VI len] (s_mem st)].
  split; [|split; [exact (agree_calls _ _ _ _ _ (agree_ext _ _ _ _ X0 A))|split; [reflexivity|]]].
  - cbn [app]. rewrite !s32_id by (unfold i32_range; lia). reflexivity.
  - repeat constructor. exact (P3 g r st A).
Qed.

(** A format and its arguments. *)
Lemma print_format fmt s e es g g' :
  he_data fmt = HE_STRING s -> no_backslash s = true -> forallb (wt_arg consts Gam Del) (e :: es) = true -> List.length (e :: es) <= 64 ->
  inv g -> wg_emit_printf emit (fmt :: e :: es) g = Ok g' -> wg_local_count g' <= 256 ->
  exists code, does g g' code [] (printed (fmt :: e :: es)).
Proof.
  intros Hd B Wa La Iv E Hc. unfold wg_emit_printf in E. rewrite Hd in E. destruct (wg_intern_string s g) as [[off len] g1] eqn:Si.
  apply rbind_ok in E as (g2 & E2 & E). injection E as <-.
  destruct (intern_sim s g off len g1 B Iv Si) as (M1 & I1 & A1 & _ & -> & T). set (len := Z.of_nat (List.length (bytes_of s))) in *.
  destruct (args_sim (e :: es) 0 g1 g2 Wa I1 La E2 Hc) as (c & M2 & W2 & I2 & A2 & R2). change (512 + 8 * Z.of_nat 0)%Z with 512%Z in R2.
  pose proof (iv_bases _ I2) as Bs. injection Bs as _ Ab _ Fp. set (argc := Z.of_nat (List.length (e :: es))) in *.
  assert (Ha : (0 <= argc <= 64)%Z) by (unfold argc; lia).
  cbn zeta. cbn [wg_f_printf g_const set_body]. rewrite Fp, Ab.
  assert (M3 : emits g2 (emit_call 1 (g_const argc (g_const 512 (g_const len (g_const off g2)))))
    (([I_const (s32 off)] ++ [I_const (s32 len)] ++ [I_const (s32 512)] ++ [I_const (s32 argc)]) ++ [I_call 1])).
  { eapply emits_app; [|apply call_emits; unfold small; lia].
    eapply emits_app; [apply const_emits|]. eapply emits_app; [apply const_emits|]. eapply emits_app; apply const_emits. }
  eexists. split; [exact (emits_app _ _ _ _ _ M1 (emits_app _ _ _ _ _ M2 M3))|]. split.
  { cbn [app]. rewrite wf_app, W2. change (wf_code (map (fun v => I_const (s32 v)) [off; len; 512%Z; argc] ++ [I_call 1]) = true).
    now rewrite wf_app, consts_wf. }
  split; [now repeat apply inv_body|]. split; [cbn [wg_arrays emit_call g_const set_body]; now rewrite A2, A1, app_nil_r|].
  intros gF Fin n r st r' out X A (-> & p & Ep & ->). unfold eval_print in Ep. rewrite Hd in Ep.
  destruct (eval_args consts fuel r (e :: es)) as [ps|] eqn:Ea; [|discriminate]. injection Ep as <-.
  pose proof (ext_trans _ _ _ (proj1 M3) X) as X2. pose proof (ext_trans _ _ _ (proj1 M2) X2) as X1.
  destruct (T gF Fin X1) as (P1 & P2 & P3). assert (Hl : (0 <= len)%Z) by lia.
  destruct (R2 gF Fin n r st ps X2 (agree_ext _ _ _ _ (proj1 M1) A) Ea) as (m & Rn & Out & Sl). pose proof (eval_args_length r _ ps Ea) as Lp.
  assert (Hm : agree gF g r (mkSt (s_locals st) m (s_calls st))).
  { apply (agree_low gF Fin g r st m (s_calls st) Iv); [exact (ext_trans _ _ _ (proj1 M1) X1)|exact A|]. intros y Hy. apply Out. rewrite Lp. fold argc. lia. }
  set (ev := Call 1 [VI off; VI len; VI 512; VI argc] m).
  exists (mkSt (s_locals st) m (s_calls st ++ [ev])), [ev]. split; [|split; [|split; [reflexivity|]]].
  - cbn [app]. rewrite exec_app, Rn. rewrite !s32_id by (unfold i32_range; lia). reflexivity.
  - apply (agree_calls gF _ r (mkSt (s_locals st) m (s_calls st))), (agree_ext g); [|exact Hm].
    exact (ext_trans _ _ _ (proj1 M1) (ext_trans _ _ _ (proj1 M2) (proj1 M3))).
  - constructor; [|constructor]. cbn [shown]. split; [reflexivity|]. split; [reflexivity|]. split; [exact (P3 g r _ Hm)|].
    split; [unfold argc; now rewrite Lp|]. intros j a N. apply (Sl j a N m). reflexivity.
Qed.

Lemma print_sim args g g' :
  wt_print consts Gam Del args = true -> inv g -> wg_emit_printf emit args g = Ok g' -> wg_local_count g' <= 256 ->
  exists code, does g g' code [] (printed args).
Proof.
  intros W Iv E Hc. destruct args as [|fmt rest]; [discriminate|]. unfold wt_print in W. destruct (he_data fmt) eqn:Hd; try discriminate.
  apply andb_true_iff in W as [W Wl]. apply andb_true_iff in W as [B Wa]. apply Nat.leb_le in Wl. destruct rest as [|e es].
  - exact (print_text fmt value g g' Hd B Iv E).
  - exact (print_format fmt value e es g g' Hd B Wa Wl Iv E Hc).
Qed.
End Print.
