(* ===== verification/WasmGenBody.v ===== *)
(** * The emitted body runs like the statements

    Conditionals, loops, sequences and the systems of a program. *)

From S2P Require Import Prelude Hir Lexer LexerFacts WasmEncode WasmProps WasmGen WasmSem HirSem WasmGenFacts WasmGenLits WasmGenSim WasmGenStmt WasmGenRun WasmGenPrint.

(** The names of new arrays: distinct, and room for them. *)
Record fresh (g : Wg) (names : list cstr) : Prop := mkFresh {
  fr_names : NoDup (map wa_name (wg_arrays g) ++ names);
  fr_room : List.length (wg_arrays g) + List.length names <= 128
}.

Lemma fresh_left g a b : fresh g (a ++ b) -> fresh g a.
Proof.
  intros [N L]. rewrite length_app in L. split; [|lia]. rewrite app_assoc in N. exact (NoDup_app_remove_r _ _ N).
Qed.

Lemma fresh_right g g' a b : fresh g (a ++ b) -> map wa_name (wg_arrays g') = map wa_name (wg_arrays g) ++ a -> fresh g' b.
Proof.
  intros [N L] E. split; [now rewrite E, <- app_assoc|]. apply (f_equal (@List.length _)) in E. rewrite length_app, !length_map in E.
  rewrite length_app in L. lia.
Qed.

Lemma fresh_same g g' a : fresh g a -> wg_arrays g' = wg_arrays g -> fresh g' a.
Proof. intros [N L] E. split; now rewrite E. Qed.

Section Body.
Context `{F64Ops} `{!F64Law}.
Context {consts : list (cstr * HirExpr)} {Gam : cstr -> option Z} {Del : cstr -> option ArrTy}.
Context {Cok : @ConstsOk consts Gam Del}.
Abbreviation inv := (@inv consts Gam Del).
Abbreviation Final := (@Final consts Gam Del).
Abbreviation agree := (@agree Del).
Abbreviation run := (exec arity).
Abbreviation pushes := (@pushes _ consts Gam Del).
Abbreviation does := (@does _ consts Gam Del).
Abbreviation wt_stmt := (wt_stmt consts Gam Del).
Variable fuel : nat.
Abbreviation sem := (sem consts Del fuel).
Abbreviation sem_seq := (sem_seq consts Del fuel).

(** ** Scopes *)

Lemma agree_sub gF g r r' st : agree gF g r' st -> agree gF g (restrict r r') st.
Proof.
  intros [A1 A2 A3 A4 A5 A6]. split; cbn [restrict e_scal e_arr e_seen]; auto.
  - intros x v E. destruct (is_some (e_scal r x)); [auto|discriminate].
  - intros x vs E. destruct (is_some (e_arr r x)); [auto|discriminate].
  - intros x vs E. destruct (is_some (e_arr r x)); [|discriminate]. exact (A5 x vs E).
Qed.

(** Back in the scope of [r], the arrays are those declared before. *)
Lemma agree_restrict gF g g' r r' st st' : agree gF g r st -> agree gF g' r' st' -> ext g g' -> agree gF g (restrict r r') st'.
Proof.
  intros A A' X. apply (agree_sub gF g' r) in A'. destruct A' as [A1 A2 A3 A4 A5 A6]. split; auto.
  intros x vs E. destruct (A3 x vs E) as (a & ty & F & D & Hh). cbn [restrict e_arr] in E.
  destruct (e_arr r x) as [ws|] eqn:Er; [|discriminate]. destruct (ag_arr _ _ _ _ A x ws Er) as (a' & ty' & F' & _).
  pose proof (array_find_ext _ _ _ _ X F') as F2. rewrite F in F2. injection F2 as <-. now exists a, ty.
Qed.

Lemma sem_sems n l : forall r, (fix sems (l : list HirStmt) (r : Env) : option (Env * list Print) :=
  match l with [] => Some (r, []) | s :: l' => then_ (sem n s r) (sems l') end) l r = sem_seq n l r.
Proof.
  induction l as [|s l IH]; intros r; [reflexivity|]. cbn [HirSem.sem_seq]. unfold then_. destruct (sem n s r) as [[r1 o1]|]; [|reflexivity]. now rewrite IH.
Qed.

Lemma then_some a k r o : then_ a k = Some (r, o) -> exists r1 o1 o2, a = Some (r1, o1) /\ k r1 = Some (r, o2) /\ o = o1 ++ o2.
Proof.
  unfold then_. destruct a as [[r1 o1]|]; [|discriminate]. destruct (k r1) as [[r2 o2]|] eqn:E; [|discriminate]. intros [= <- <-]. eauto 6.
Qed.

Lemma scoped_some r a r' o : scoped r a = Some (r', o) -> exists r1, a = Some (r1, o) /\ r' = restrict r r1.
Proof. unfold scoped. destruct a as [[r1 o1]|]; [|discriminate]. intros [= <- <-]. eauto. Qed.

(** The code of a scope. *)
Lemma does_scoped g g' c ns act : does g g' c ns act ->
  does g g' c ns (fun n r r' out => exists r1, act n r r1 out /\ r' = restrict r r1).
Proof.
  intros (E & W & I & N & R). repeat (split; [assumption|]). intros gF Fin n r st r' out X A (r1 & Ha & ->).
  destruct (R gF Fin n r st r1 out X A Ha) as (st' & evs & Q & A' & C). exists st', evs. split; [exact Q|]. split; [now apply agree_sub|exact C].
Qed.

(** ** Sequences *)

Definition stmt_sim (emit : HirStmt -> Wg -> res Wg) : Prop :=
  forall s g g', wt_stmt s = true -> inv g -> emit s g = Ok g' -> wg_local_count g' <= 256 -> fresh g (array_names s) ->
  exists code, does g g' code (array_names s) (fun n r r' out => sem n s r = Some (r', out)).

Section Parts.
Variable emit : HirStmt -> Wg -> res Wg.
Hypothesis sim : stmt_sim emit.
Hypothesis grows : forall s, extends (emit s).

Lemma each_sim l : forall g g',
  forallb wt_stmt l = true -> inv g -> each emit l g = Ok g' -> wg_local_count g' <= 256 -> fresh g (flat_map array_names l) ->
  exists code, does g g' code (flat_map array_names l) (fun n r r' out => sem_seq n l r = Some (r', out)).
Proof.
  induction l as [|s l IH]; intros g g' W Iv E Hc Fr.
  - injection E as <-. exists []. eapply does_impl; [|exact (does_nil g Iv)]. cbn. intros n r r' out [= <- <-]. auto.
  - cbn [forallb flat_map] in *. apply andb_true_iff in W as [Ws Wl]. cbn [each] in E. apply rbind_ok in E as (g1 & E1 & E2).
    pose proof (ex_count _ _ (each_ext _ _ (proj2 (Forall_forall _ l) (fun s _ => grows s)) _ _ E2)) as C2.
    destruct (sim s g g1 Ws Iv E1 ltac:(lia) (fresh_left _ _ _ Fr)) as [c1 D1]. pose proof (proj2 (proj2 D1)) as (I1 & N1 & _).
    destruct (IH g1 g' Wl I1 E2 Hc (fresh_right _ _ _ _ Fr N1)) as [c2 D2]. exists (c1 ++ c2).
    eapply does_impl; [|exact (does_app _ _ _ _ _ _ _ _ _ D1 D2)].
    intros n r r' out Ev. cbn [HirSem.sem_seq] in Ev. apply then_some in Ev as (r1 & o1 & o2 & E1' & E2' & ->). eauto 6.
Qed.

Definition opt_names (o : option HirStmt) : list cstr := match o with Some s => array_names s | None => [] end.
Definition opt_sem (n : nat) (o : option HirStmt) (r : Env) : option (Env * list Print) := match o with Some s => sem n s r | None => Some (r, []) end.

Lemma opt_sim o g g' :
  match o with Some s => wt_stmt s | None => true end = true -> inv g -> opt emit o g = Ok g' -> wg_local_count g' <= 256 ->
  fresh g (opt_names o) ->
  exists code, does g g' code (opt_names o) (fun n r r' out => opt_sem n o r = Some (r', out)).
Proof.
  intros W Iv E Hc Fr. destruct o as [s|]; [exact (sim s g g' W Iv E Hc Fr)|]. injection E as <-. exists [].
  eapply does_impl; [|exact (does_nil g Iv)]. cbn. intros n r r' out [= <- <-]. auto.
Qed.
End Parts.

(** ** Conditions *)

(** A condition on the stack. *)
Lemma truth_value g gF (Fin : Final gF) r st c k b :
  inv g -> ext g gF -> agree gF g r st -> wt_expr consts Gam Del c = true -> is_float (he_resolved c) = false ->
  truth (eval consts k r c) = Some b -> exists z, eval consts k r c = Some (VI z) /\ b = negb (z =? 0)%Z.
Proof.
  intros Iv X A W F T. destruct (eval consts k r c) as [[z|]|]; try discriminate. exists z. injection T as <-. auto.
Qed.

Variable emit : HirExpr -> Wg -> res Wg.
Hypothesis sim : @emit_sim _ consts Gam Del emit.
Hypothesis grows : forall e, extends (emit e).

(** The test at the head of a loop. *)
Lemma head_sim cond g g' :
  match cond with Some c => wt_expr consts Gam Del c && negb (is_float (he_resolved c)) | None => true end = true -> inv g ->
  opt (fun c g => g' <- emit c g ;; let g'' := put [69; 13]%Z g' in Ok (set_body (wb_u (wg_body g'') 1) g'')) cond g = Ok g' ->
  wg_local_count g' <= 256 ->
  exists code, emits g g' code /\ wf_code code = true /\ inv g' /\ wg_arrays g' = wg_arrays g /\
    forall gF (Fin : Final gF) n r st b, ext g' gF -> agree gF g r st ->
      match cond with Some c => truth (eval consts fuel r c) | None => Some true end = Some b ->
      run n code st [] = if b then Norm st [] else Br 1 st.
Proof.
  intros W Iv E Hc. destruct cond as [c|]; cbn [opt] in E.
  - apply andb_true_iff in W as [W F]. apply negb_true_iff in F. apply rbind_ok in E as (g1 & E1 & E). injection E as <-.
    destruct (sim c g g1 W Iv E1 Hc) as (code & M & Wc & I1 & A1 & R). exists (code ++ [I_eqz; I_br_if 1]).
    assert (M2 : emits g1 (set_body (wb_u (wg_body (put [69; 13]%Z g1)) 1) (put [69; 13]%Z g1)) [I_eqz; I_br_if 1]).
    { split; [exact (ext_trans _ _ _ (put_ext _ _) (ext_body _ _))|]. cbn [wg_body set_body]. rewrite leb_u64 by (unfold small; lia).
      cbn [put wg_body set_body]. rewrite each_data, <- app_assoc. reflexivity. }
    split; [exact (emits_app _ _ _ _ _ M M2)|]. split; [now rewrite wf_app, Wc|]. split; [now repeat apply inv_body|]. split; [exact A1|].
    intros gF Fin n r st b X A T. pose proof (ext_trans _ _ _ (proj1 M2) X) as X1.
    destruct (truth_value g gF Fin r st c fuel b Iv (ext_trans _ _ _ (proj1 M) X1) A W F T) as (z & Ez & ->).
    rewrite exec_app, (R gF Fin r st [VI z] X1 A) by now exists fuel, (VI z).
    cbn. now destruct (z =? 0)%Z.
  - injection E as <-. exists []. split; [apply emits_nil|]. repeat (split; [auto|]). now intros gF Fin n r st b _ _ [= <-].
Qed.

(** ** Conditionals *)

Variable emits_stmt : HirStmt -> Wg -> res Wg.
Hypothesis ssim : stmt_sim emits_stmt.
Hypothesis sgrows : forall s, extends (emits_stmt s).

Lemma each_grows l : extends (each emits_stmt l).
Proof. apply each_ext, Forall_forall. auto. Qed.

(** The bytes around the branches. *)
Lemma if_emits g1 g2 g3 t e :
  emits (put [4; 64]%Z g1) g2 t -> emits (put [5]%Z g2) g3 e -> emits g1 (put [11]%Z g3) [I_if t (Some e)].
Proof.
  intros [X1 D1] [X2 D2]. split.
  - apply (ext_trans _ (put [4; 64]%Z g1)); [apply put_ext|]. apply (ext_trans _ g2); [exact X1|].
    apply (ext_trans _ (put [5]%Z g2)); [apply put_ext|]. apply (ext_trans _ g3); [exact X2|apply put_ext].
  - unfold enc_seq in *. cbn [flat_map enc put wg_body set_body] in *. rewrite each_data, D2, each_data, D1, each_data, <- !app_assoc. now rewrite app_nil_r.
Qed.

Lemma if_emits_none g1 g2 t : emits (put [4; 64]%Z g1) g2 t -> emits g1 (put [11]%Z g2) [I_if t None].
Proof.
  intros [X1 D1]. split.
  - apply (ext_trans _ (put [4; 64]%Z g1)); [apply put_ext|]. apply (ext_trans _ g2); [exact X1|apply put_ext].
  - unfold enc_seq in *. cbn [flat_map enc put wg_body set_body] in *. rewrite each_data, D1, each_data, <- !app_assoc. now rewrite app_nil_r.
Qed.

(** One of the branches, entered with an empty stack. *)
Definition branches (cond : HirExpr) (t e : list HirStmt) (n : nat) (r r' : Env) (out : list Print) : Prop :=
  match truth (eval consts fuel r cond) with
  | Some true => scoped r (sem_seq n t r)
  | Some false => scoped r (sem_seq n e r)
  | None => None
  end = Some (r', out).

(** A conditional, from the code of its test and of its branches. *)
Lemma if_does cond g g1 g2 g3 g' cc ct ce nt ne t e :
  inv g -> pushes g g1 cc (value_of (consts := consts) cond) -> wt_expr consts Gam Del cond = true -> is_float (he_resolved cond) = false ->
  does (put [4; 64]%Z g1) g2 ct nt (fun n r r' out => sem_seq n t r = Some (r', out)) ->
  ext g2 g3 -> wg_arrays g3 = wg_arrays g2 ->
  does g3 g' (match ce with Some c => c | None => [] end) ne (fun n r r' out => sem_seq n e r = Some (r', out)) ->
  match ce with Some c => wf_code c | None => true end = true -> emits g1 (put [11]%Z g') [I_if ct ce] ->
  does g (put [11]%Z g') (cc ++ [I_if ct ce]) (nt ++ ne) (branches cond t e).
Proof.
  intros Iv (M1 & W1 & I1 & A1 & R1) Wc Fc (M2 & W2 & I2 & N2 & R2) X23 A3 (M3 & W3 & I3 & N3 & R3) We Mi.
  pose proof (emits_app _ _ _ _ _ M1 Mi) as M. split; [exact M|]. split.
  { rewrite wf_app, W1. unfold wf_code in *. cbn [forallb wf_instr]. rewrite W2. destruct ce as [c|]; [now rewrite We|reflexivity]. }
  split; [exact (inv_put _ _ I3)|]. split.
  { cbn [wg_arrays put set_body] in *. rewrite N3, A3, N2. cbn [wg_arrays put set_body]. now rewrite A1, app_assoc. }
  intros gF Fin n r st r' out X A Ev. pose proof (ext_trans _ _ _ (put_ext _ _) X) as X'. pose proof (ext_trans _ _ _ (proj1 M3) X') as X3.
  pose proof (ext_trans _ _ _ (ext_trans _ _ _ (proj1 M2) X23) X3) as Xp. pose proof (ext_trans _ _ _ (put_ext _ _) Xp) as X1.
  unfold branches in Ev. destruct (truth (eval consts fuel r cond)) as [b|] eqn:T; [|discriminate].
  destruct (truth_value g gF Fin r st cond fuel b Iv (ext_trans _ _ _ (proj1 M1) X1) A Wc Fc T) as (z & Ez & ->).
  rewrite exec_app, (R1 gF Fin r st [VI z] X1 A) by now exists fuel, (VI z). cbn [app exec]. rewrite exec_if.
  pose proof (agree_ext _ _ _ _ (ext_trans _ _ _ (proj1 M1) (put_ext [4; 64]%Z g1)) A) as Ap.
  destruct (Z.eqb_spec z 0) as [_|_]; cbn [negb] in Ev; apply scoped_some in Ev as (r1 & Ev & ->).
  - pose proof (agree_ext _ _ _ _ (ext_trans _ _ _ (proj1 M2) X23) Ap) as A3'.
    destruct (R3 gF Fin n r st r1 out X' A3' Ev) as (st' & evs & Q & Ag & C). exists st', evs.
    split; [|split; [exact (agree_ext _ _ _ _ (put_ext _ _) (agree_sub _ _ _ _ _ Ag))|exact C]].
    destruct ce as [c|]; [now rewrite Q|]. cbn in Q. injection Q as <-. reflexivity.
  - destruct (R2 gF Fin n r st r1 out (ext_trans _ _ _ X23 X3) Ap Ev) as (st' & evs & Q & Ag & C). exists st', evs.
    split; [now rewrite Q|]. split; [|exact C]. apply (agree_ext _ _ _ _ (ext_trans _ _ _ X23 (ext_trans _ _ _ (proj1 M3) (put_ext _ _)))).
    exact (agree_sub _ _ _ _ _ Ag).
Qed.

Lemma if_sim cond t e g g' :
  wt_expr consts Gam Del cond && negb (is_float (he_resolved cond)) && forallb wt_stmt t && forallb wt_stmt e = true -> inv g ->
  (g1 <- emit cond g ;; g2 <- each emits_stmt t (put [4; 64]%Z g1) ;;
   g3 <- (match e with [] => Ok g2 | _ => each emits_stmt e (put [5]%Z g2) end) ;; Ok (put [11]%Z g3)) = Ok g' ->
  wg_local_count g' <= 256 -> fresh g (flat_map array_names t ++ flat_map array_names e) ->
  exists code, does g g' code (flat_map array_names t ++ flat_map array_names e) (branches cond t e).
Proof.
  intros W Iv E Hc Fr. apply andb_true_iff in W as [W We]. apply andb_true_iff in W as [W Wt]. apply andb_true_iff in W as [Wc Fc].
  apply negb_true_iff in Fc. apply rbind_ok in E as (g1 & E1 & E). apply rbind_ok in E as (g2 & E2 & E). apply rbind_ok in E as (g3 & E3 & E).
  injection E as <-. cbn [wg_local_count put set_body] in Hc.
  assert (X23 : ext g2 g3).
  { destruct e as [|s e]; [injection E3 as <-; apply ext_refl|]. exact (ext_trans _ _ _ (put_ext _ _) (each_grows _ _ _ E3)). }
  pose proof (ex_count _ _ X23) as C23. pose proof (ex_count _ _ (each_grows _ _ _ E2)) as C12. cbn [wg_local_count put set_body] in C12.
  destruct (sim cond g g1 Wc Iv E1 ltac:(lia)) as [cc P]. pose proof (proj2 (proj2 P)) as (I1 & A1 & _).
  destruct (each_sim emits_stmt ssim sgrows t (put [4; 64]%Z g1) g2 Wt (inv_put _ _ I1) E2 ltac:(lia)
    (fresh_same g (put [4; 64]%Z g1) _ (fresh_left _ _ _ Fr) A1)) as [ct Dt]. pose proof (proj2 (proj2 Dt)) as (I2 & N2 & _).
  assert (N2' : map wa_name (wg_arrays g2) = map wa_name (wg_arrays g) ++ flat_map array_names t).
  { rewrite N2. cbn [wg_arrays put set_body]. now rewrite A1. }
  destruct e as [|s e].
  - injection E3 as <-. exists (cc ++ [I_if ct None]).
    apply (if_does cond g g1 g2 g2 g2 cc ct None _ _ t []); auto; [|exact (if_emits_none _ _ _ (proj1 Dt))].
    eapply does_impl; [|exact (does_nil g2 I2)]. cbn. intros n r r' out [= <- <-]. auto.
  - destruct (each_sim emits_stmt ssim sgrows (s :: e) (put [5]%Z g2) g3 We (inv_put _ _ I2) E3 Hc
      (fresh_same g2 (put [5]%Z g2) _ (fresh_right _ _ _ _ Fr N2') eq_refl)) as [ce De]. exists (cc ++ [I_if ct (Some ce)]).
    apply (if_does cond g g1 g2 (put [5]%Z g2) g3 cc ct (Some ce) _ _ t (s :: e)); auto; [apply put_ext|exact (proj1 (proj2 De))|].
    exact (if_emits _ _ _ _ _ (proj1 Dt) (proj1 De)).
Qed.

(** ** Loops *)

(** The bytes around a loop. *)
Lemma for_emits g1 g3 g4 g5 ch cb ci :
  emits (put [2; 64; 3; 64]%Z g1) g3 ch -> emits g3 g4 cb -> emits g4 g5 ci ->
  emits g1 (put [11; 11]%Z (set_body (wb_u (wg_body (put [12]%Z g5)) 0) (put [12]%Z g5))) [I_block [I_loop (ch ++ cb ++ ci ++ [I_br 0])]].
Proof.
  intros M1 M2 M3. destruct (emits_app _ _ _ _ _ M1 (emits_app _ _ _ _ _ M2 M3)) as [X D]. split.
  - apply (ext_trans _ (put [2; 64; 3; 64]%Z g1)); [apply put_ext|]. apply (ext_trans _ g5); [exact X|].
    apply (ext_trans _ (put [12]%Z g5)); [apply put_ext|]. eapply ext_trans; [apply ext_body|apply put_ext].
  - cbn [put wg_body set_body] in *. rewrite !each_data, leb_u64, each_data, D, each_data by (unfold small; lia).
    replace (ch ++ cb ++ ci ++ [I_br 0]) with ((ch ++ cb ++ ci) ++ [I_br 0]) by (now rewrite <- !app_assoc).
    set (c := ch ++ cb ++ ci). unfold enc_seq. cbn [flat_map enc]. change (flat_map enc (c ++ [I_br 0])) with (enc_seq (c ++ [I_br 0])).
    rewrite enc_seq_app. unfold enc_seq. cbn [flat_map enc app]. rewrite !app_nil_r, <- !app_assoc. cbn [app]. now rewrite <- ?app_assoc.
Qed.

(** The turns of the machine follow the turns of the loop. *)
Lemma turns_sim test turn g gF (Fin : Final gF) n code :
  (forall r st, agree gF g r st -> test r = Some false -> exists st', run n code st [] = Br 1 st' /\ agree gF g r st' /\ s_calls st' = s_calls st) ->
  (forall r st r1 out, agree gF g r st -> test r = Some true -> turn r = Some (r1, out) ->
    exists st' evs, run n code st [] = Br 0 st' /\ agree gF g (restrict r r1) st' /\ s_calls st' = s_calls st ++ evs /\ Forall2 shown evs out) ->
  forall m r st r' out, agree gF g r st -> loop test turn m r = Some (r', out) ->
  exists st' evs, turns (fun s => run n code s []) m st [] = Br 0 st' /\ agree gF g r' st' /\ s_calls st' = s_calls st ++ evs /\ Forall2 shown evs out.
Proof.
  intros Stop Go. induction m as [|m IH]; intros r st r' out A E; [discriminate|]. cbn [loop] in E. cbn [turns].
  destruct (test r) as [[|]|] eqn:T; [| |discriminate].
  - destruct (turn r) as [[r1 o1]|] eqn:Tn; [|discriminate]. destruct (loop test turn m (restrict r r1)) as [[r2 o2]|] eqn:L; [|discriminate].
    injection E as <- <-. destruct (Go r st r1 o1 A T Tn) as (s1 & e1 & -> & A1 & C1 & S1).
    destruct (IH _ s1 r2 o2 A1 L) as (s2 & e2 & -> & A2 & C2 & S2). exists s2, (e1 ++ e2). split; [reflexivity|]. split; [exact A2|].
    split; [now rewrite C2, C1, app_assoc|now apply Forall2_app].
  - injection E as <- <-. destruct (Stop r st A T) as (s1 & -> & A1 & C1). exists s1, []. rewrite C1, app_nil_r. auto.
Qed.

Definition for_test (cond : option HirExpr) (r : Env) : option bool :=
  match cond with Some c => truth (eval consts fuel r c) | None => Some true end.
Definition for_turn (n : nat) (body : list HirStmt) (incr : option HirStmt) (r : Env) : option (Env * list Print) :=
  then_ (scoped r (sem_seq n body r)) (opt_sem n incr).

(** The loop, from the code of its parts. *)
Lemma for_does cond body incr g1 g3 g4 g5 ch cb ci nb ni :
  let g2 := put [2; 64; 3; 64]%Z g1 in
  let g' := put [11; 11]%Z (set_body (wb_u (wg_body (put [12]%Z g5)) 0) (put [12]%Z g5)) in
  emits g2 g3 ch -> wf_code ch = true -> wg_arrays g3 = wg_arrays g2 ->
  (forall gF (Fin : Final gF) n r st b, ext g3 gF -> agree gF g2 r st -> for_test cond r = Some b ->
     run n ch st [] = if b then Norm st [] else Br 1 st) ->
  does g3 g4 cb nb (fun n r r' out => sem_seq n body r = Some (r', out)) ->
  does g4 g5 ci ni (fun n r r' out => opt_sem n incr r = Some (r', out)) ->
  does g1 g' [I_block [I_loop (ch ++ cb ++ ci ++ [I_br 0])]] (nb ++ ni)
    (fun n r r' out => loop (for_test cond) (for_turn n body incr) n r = Some (r', out)).
Proof.
  intros g2 g' Mh Wh Ah Rh (Mb & Wb & Ib & Nb & Rb) (Mi & Wi & Ii & Ni & Ri). pose proof (for_emits g1 g3 g4 g5 ch cb ci Mh Mb Mi) as M.
  split; [exact M|]. split.
  { unfold wf_code in *. cbn [forallb wf_instr]. now rewrite !forallb_app, Wh, Wb, Wi. }
  split; [now repeat apply inv_body|]. split.
  { cbn [g' wg_arrays put set_body]. rewrite Ni, Nb, Ah. cbn [g2 wg_arrays put set_body]. now rewrite app_assoc. }
  intros gF Fin n r st r' out X A Ev.
  assert (X5 : ext g5 gF).
  { eapply ext_trans; [|exact X]. apply (ext_trans _ (put [12]%Z g5)); [apply put_ext|]. eapply ext_trans; [apply ext_body|apply put_ext]. }
  pose proof (ext_trans _ _ _ (proj1 Mi) X5) as X4. pose proof (ext_trans _ _ _ (proj1 Mb) X4) as X3.
  assert (X25 : ext g2 g5) by exact (ext_trans _ _ _ (proj1 Mh) (ext_trans _ _ _ (proj1 Mb) (proj1 Mi))).
  destruct (turns_sim (for_test cond) (for_turn n body incr) g2 gF Fin n (ch ++ cb ++ ci ++ [I_br 0])) with (m := n) (r := r) (st := st) (r' := r') (out := out)
    as (st' & evs & Q & Ag & C); auto.
  - intros r0 s0 A0 T. exists s0. rewrite exec_app, (Rh gF Fin n r0 s0 false X3 A0 T). auto.
  - intros r0 s0 r1 o1 A0 T Tn. unfold for_turn in Tn. apply then_some in Tn as (r2 & p1 & p2 & E1 & E2 & ->).
    apply scoped_some in E1 as (r3 & E1 & ->). pose proof (agree_ext _ _ _ _ (proj1 Mh) A0) as A3.
    destruct (Rb gF Fin n r0 s0 r3 p1 X4 A3 E1) as (s1 & v1 & Q1 & G1 & C1 & S1).
    destruct (Ri gF Fin n _ s1 r1 p2 X5 (agree_sub _ _ r0 _ _ G1) E2) as (s2 & v2 & Q2 & G2 & C2 & S2).
    exists s2, (v1 ++ v2). split; [|split; [exact (agree_restrict _ _ _ _ _ _ _ A0 G2 X25)|split; [now rewrite C2, C1, app_assoc|now apply Forall2_app]]].
    rewrite exec_app, (Rh gF Fin n r0 s0 true X3 A0 T), exec_app, Q1, exec_app, Q2. reflexivity.
  - exact (agree_ext _ _ _ _ (put_ext _ _) A).
  - exists st', evs. split; [|split; [exact (agree_ext _ _ _ _ (ext_trans _ _ _ X25 (ext_trans _ _ _ (put_ext [12]%Z g5) (ext_trans _ _ _ (ext_body _ _) (put_ext _ _)))) Ag)|exact C]].
    cbn [exec]. rewrite exec_block. cbn [exec]. now rewrite exec_loop, Q.
Qed.

Lemma for_sim init cond incr body g g' :
  match init with Some s => wt_stmt s | None => true end &&
    match cond with Some c => wt_expr consts Gam Del c && negb (is_float (he_resolved c)) | None => true end &&
    match incr with Some s => wt_stmt s | None => true end && forallb wt_stmt body = true -> inv g ->
  (g1 <- opt emits_stmt init g ;;
   let g2 := put [2; 64; 3; 64]%Z g1 in
   g3 <- opt (fun c g => g' <- emit c g ;; let g'' := put [69; 13]%Z g' in Ok (set_body (wb_u (wg_body g'') 1) g'')) cond g2 ;;
   g4 <- each emits_stmt body g3 ;;
   g5 <- opt emits_stmt incr g4 ;;
   let g6 := put [12]%Z g5 in
   Ok (put [11; 11]%Z (set_body (wb_u (wg_body g6) 0) g6))) = Ok g' ->
  wg_local_count g' <= 256 -> fresh g (opt_names init ++ flat_map array_names body ++ opt_names incr) ->
  exists code, does g g' code (opt_names init ++ flat_map array_names body ++ opt_names incr) (fun n r r' out =>
    scoped r (then_ (opt_sem n init r) (loop (for_test cond) (for_turn n body incr) n)) = Some (r', out)).
Proof.
  intros W Iv E Hc Fr. apply andb_true_iff in W as [W Wb]. apply andb_true_iff in W as [W Wi]. apply andb_true_iff in W as [Wn Wc].
  apply rbind_ok in E as (g1 & E1 & E). apply rbind_ok in E as (g3 & E3 & E). apply rbind_ok in E as (g4 & E4 & E). apply rbind_ok in E as (g5 & E5 & E).
  injection E as <-. cbn [wg_local_count put set_body] in Hc. pose proof (ex_count _ _ (opt_ext _ _ sgrows _ _ E5)) as C5.
  pose proof (ex_count _ _ (each_grows _ _ _ E4)) as C4.
  assert (C3 : wg_local_count g1 <= wg_local_count g3).
  { apply (opt_ext _ _) in E3; [|intros c u v Hu; apply rbind_ok in Hu as (w & Hw & Hu); injection Hu as <-; apply grows in Hw;
      exact (ext_trans _ _ _ Hw (ext_trans _ _ _ (put_ext _ _) (ext_body _ _)))]. exact (ex_count _ _ E3). }
  destruct (opt_sim emits_stmt ssim init g g1 Wn Iv E1 ltac:(lia) (fresh_left _ _ _ Fr)) as [cn Dn].
  pose proof (proj2 (proj2 Dn)) as (I1 & N1 & _). pose proof (fresh_right _ _ _ _ Fr N1) as Fr1.
  destruct (head_sim cond (put [2; 64; 3; 64]%Z g1) g3 Wc (inv_put _ _ I1) E3 ltac:(lia)) as (ch & Mh & Wh & Ih & Ah & Rh).
  destruct (each_sim emits_stmt ssim sgrows body g3 g4 Wb Ih E4 ltac:(lia) (fresh_same g1 g3 _ (fresh_left _ _ _ Fr1) Ah)) as [cb Db].
  pose proof (proj2 (proj2 Db)) as (I4 & N4 & _). rewrite Ah in N4. cbn [wg_arrays put set_body] in N4.
  destruct (opt_sim emits_stmt ssim incr g4 g5 Wi I4 E5 Hc (fresh_right _ _ _ _ Fr1 N4)) as [ci Di].
  pose proof (for_does cond body incr g1 g3 g4 g5 ch cb ci _ _ Mh Wh Ah Rh Db Di) as Df. cbn zeta in Df.
  exists (cn ++ [I_block [I_loop (ch ++ cb ++ ci ++ [I_br 0])]]).
  eapply does_impl; [|exact (does_scoped _ _ _ _ _ (does_app _ _ _ _ _ _ _ _ _ Dn Df))].
  intros n r r' out Ev. apply scoped_some in Ev as (r1 & Ev & ->). apply then_some in Ev as (r2 & o1 & o2 & Ea & Eb & ->). exists r1. eauto 8.
Qed.
End Body.

Section Statements.
Context `{F64Ops} `{!F64Law}.
Context {consts : list (cstr * HirExpr)} {Gam : cstr -> option Z} {Del : cstr -> option ArrTy}.
Context {Cok : @ConstsOk consts Gam Del}.
Variable fuel : nat.

Lemma loop_ext test test' turn turn' m r : (forall r, test r = test' r) -> (forall r, turn r = turn' r) -> loop test turn m r = loop test' turn' m r.
Proof.
  intros E1 E2. revert r; induction m as [|m IH]; intros r; [reflexivity|]. cbn [loop]. rewrite E1, E2.
  destruct (test' r) as [[|]|]; try reflexivity. destruct (turn' r) as [[r1 o1]|]; [|reflexivity]. now rewrite IH.
Qed.

Lemma sem_for loc v i init cond incr body n r :
  sem consts Del fuel n (mkHirStmt loc (HS_FOR v i init cond incr body)) r =
  scoped r (then_ (opt_sem (consts := consts) (Del := Del) fuel n init r) (loop (for_test (consts := consts) fuel cond) (for_turn (consts := consts) (Del := Del) fuel n body incr) n)).
Proof.
  cbn [sem]. f_equal. unfold then_ at 1 3. unfold opt_sem at 1.
  destruct (match init with Some s => sem consts Del fuel n s r | None => Some (r, []) end) as [[r1 o1]|]; [|reflexivity].
  erewrite loop_ext; [reflexivity|reflexivity|]. intros r2. unfold for_turn. rewrite <- sem_sems. reflexivity.
Qed.

(** The emitted code of a checked statement does what the statement does. *)
Lemma stmt_simulation f : @stmt_sim _ consts Gam Del fuel (wg_emit_stmt f).
Proof.
  induction f as [|f IH]; intros s g g' W Iv E Hc Fr; [discriminate|]. pose proof (expr_sim f) as Es. pose proof (expr_ext f) as Xs.
  destruct s as [loc d]. cbn [wg_emit_stmt hs_data] in E. destruct d; try discriminate W; cbn [wt_stmt array_names] in W, Fr |- *.
  - destruct more; [|discriminate]. destruct Fr as [Fn Fl].
    destruct (bind_sim _ Es Xs fuel name type value g g' W Iv E Hc Fn Fl) as [code Dd]. exists code. revert Dd. apply does_impl.
    cbn [sem]. intros n r r' out Ev. destruct (eval_bind _ _ _ _ _ _ _) as [r1|]; [|discriminate]. now injection Ev as <- <-.
  - destruct (assign_sim _ Es Xs fuel target value op g g' W Iv E Hc) as [code Dd]. exists code. revert Dd. apply does_impl.
    cbn [sem]. intros n r r' out Ev. destruct (eval_assign _ _ _ _ _ _ _) as [r1|]; [|discriminate]. now injection Ev as <- <-.
  - destruct var_name; [discriminate|]. destruct iterable; [discriminate|].
    destruct (for_sim fuel _ Es Xs _ IH (stmt_ext f) init cond incr body g g' W Iv E Hc Fr) as [code Dd]. exists code. revert Dd. apply does_impl.
    intros n r r' out Ev. now rewrite sem_for in Ev.
  - destruct (if_sim fuel _ Es _ IH (stmt_ext f) cond then_body else_body g g' W Iv E Hc Fr) as [code Dd]. exists code. revert Dd. apply does_impl.
    intros n r r' out Ev. cbn [sem] in Ev. rewrite !sem_sems in Ev. exact Ev.
  - apply andb_true_iff in W as [Pc W]. cbn zeta in E. rewrite Pc in E. destruct (he_data (wg_unwrap_eff expr)) eqn:Hd; try discriminate W.
    destruct (print_sim _ Es Xs fuel args g g' W Iv E Hc) as [code Dd]. exists code. revert Dd. apply does_impl.
    cbn [sem]. rewrite Hd. intros n r r' out Ev. destruct (eval_print _ _ _ _) as [p|] eqn:Ep; [|discriminate]. injection Ev as <- <-. split; [reflexivity|]. now exists p.
Qed.
End Statements.
