(* ===== verification/WasmGenModule.v ===== *)
(** * The generated module runs like the program

    The systems of a program in one body, the state a host starts the module in, and the bytes of the
    module. *)

From S2P Require Import Prelude Hir Lexer LexerFacts WasmEncode WasmProps WasmGen WasmSem HirSem WasmGenFacts WasmGenLits WasmGenSim WasmGenStmt WasmGenRun WasmGenPrint WasmGenBody.

(** What the code generator leaves unchecked: the arrays end inside the 4 pages, the texts below the
    arrays, and the locals fit their table; the body's size is a [size_t]. *)
Definition within (g : Wg) : bool :=
  (wg_arrays_cursor g <=? mem_size)%Z && (1024 + Z.of_nat (List.length (wb_data (wg_strings g))) <=? 16384)%Z &&
  (wg_local_count g <=? 256) && (Z.of_nat (List.length (wb_data (wg_body g))) <? 2 ^ 63)%Z.

Lemma emit_decl_each fuel d g : emit_decl fuel d g = each (fun s => each (wg_emit_stmt fuel) s) (decl_system d) g.
Proof.
  unfold emit_decl, decl_system. destruct (hd_data d); try reflexivity. destruct (hk_kind kernel); [reflexivity|].
  destruct (hk_params kernel); [|reflexivity]. cbn [each]. now destruct (each (wg_emit_stmt fuel) (hk_stmts kernel) g).
Qed.

Lemma each_app {A} (f : A -> Wg -> res Wg) a b g : each f (a ++ b) g = rbind (each f a g) (each f b).
Proof.
  revert g; induction a as [|x a IH]; intros g; [reflexivity|]. cbn [app each]. destruct (f x g); cbn [rbind]; auto.
Qed.

(** The body of a program is that of its systems. *)
Lemma emit_systems fuel p g :
  (if existsb is_run (hir_decls p) then each (emit_decl fuel) (hir_decls p) g else Ok g) = each (fun s => each (wg_emit_stmt fuel) s) (declared_systems p) g.
Proof.
  unfold declared_systems. destruct (existsb is_run (hir_decls p)); [|reflexivity].
  revert g.
  induction (hir_decls p) as [|d ds IH]; intros g; [reflexivity|]. cbn [each flat_map]. rewrite each_app, emit_decl_each.
  destruct (each _ (decl_system d) g); cbn [rbind]; auto.
Qed.

Section Systems.
Context `{F64Ops} `{!F64Law}.
Variables (p : HirProgram) (Gam : cstr -> option Z) (Del : cstr -> option ArrTy).
Context {Cok : @ConstsOk (consts_of p) Gam Del}.
Abbreviation inv := (@inv (consts_of p) Gam Del).
Abbreviation does := (@does _ (consts_of p) Gam Del).

Lemma systems_sim f fuel l : forall g g',
  forallb (forallb (wt_stmt (consts_of p) Gam Del)) l = true -> inv g -> each (fun s => each (wg_emit_stmt f) s) l g = Ok g' ->
  wg_local_count g' <= 256 -> fresh g (flat_map (flat_map array_names) l) ->
  exists code, does g g' code (flat_map (flat_map array_names) l) (fun n r r' out => run_systems p Del fuel n l r = Some (r', out)).
Proof.
  pose proof (stmt_ext f) as Xs. assert (Xe : forall l, extends (each (wg_emit_stmt f) l)).
  { intros l0. apply each_ext, Forall_forall. auto. }
  induction l as [|s l IH]; intros g g' W Iv E Hc Fr.
  - injection E as <-. exists []. eapply does_impl; [|exact (does_nil g Iv)]. cbn. intros n r r' out [= <- <-]. auto.
  - cbn [forallb flat_map] in *. apply andb_true_iff in W as [Ws Wl]. cbn [each] in E. apply rbind_ok in E as (g1 & E1 & E2).
    pose proof (ex_count _ _ (each_ext _ _ (proj2 (Forall_forall _ l) (fun s _ => Xe s)) _ _ E2)) as C2.
    destruct (each_sim fuel _ (stmt_simulation fuel f) Xs s g g1 Ws Iv E1 ltac:(lia) (fresh_left _ _ _ Fr)) as [c1 D1].
    pose proof (proj2 (proj2 D1)) as (I1 & N1 & _).
    destruct (IH g1 g' Wl I1 E2 Hc (fresh_right _ _ _ _ Fr N1)) as [c2 D2]. exists (c1 ++ c2).
    eapply does_impl; [|exact (does_app _ _ _ _ _ _ _ _ _ (does_scoped _ _ _ _ _ D1) D2)].
    intros n r r' out Ev. cbn [run_systems] in Ev. apply then_some in Ev as (r1 & o1 & o2 & Ea & Eb & ->).
    apply scoped_some in Ea as (r2 & Ea & ->). exists (restrict r r2), o1, o2. eauto 8.
Qed.
End Systems.

(** ** The start *)

Lemma distinct_NoDup l : distinct l = true -> NoDup l.
Proof.
  induction l as [|x l IH]; [constructor|]. cbn. rewrite andb_true_iff, negb_true_iff. intros [Hx Hl]. constructor; [|auto].
  intros Hi. assert (E : existsb (cstr_eqb x) l = true) by (apply existsb_exists; exists x; split; [exact Hi|apply cstr_eqb_refl]). congruence.
Qed.

Lemma add_const_same g d : let g' := add_const g d in
  (wg_m g', wg_body g', wg_strings g', wg_strings_base g', wg_args_base g', wg_arrays_cursor g', wg_f_print g', wg_f_printf g',
   wg_locals g', wg_local_count g', wg_arrays g') =
  (wg_m g, wg_body g, wg_strings g, wg_strings_base g, wg_args_base g, wg_arrays_cursor g, wg_f_print g, wg_f_printf g,
   wg_locals g, wg_local_count g, wg_arrays g).
Proof.
  unfold add_const. destruct (hd_data d); try reflexivity. destruct value; [|reflexivity]. destruct (_ <? _); reflexivity.
Qed.

Definition wg_with_consts (p : HirProgram) : Wg := fold_left add_const (hir_decls p) wg_start.

Lemma with_consts_same p : let g' := wg_with_consts p in
  (wg_m g', wg_body g', wg_strings g', wg_strings_base g', wg_args_base g', wg_arrays_cursor g', wg_f_print g', wg_f_printf g',
   wg_locals g', wg_local_count g', wg_arrays g') =
  (wg_m wg_start, wg_body wg_start, wg_strings wg_start, wg_strings_base wg_start, wg_args_base wg_start, wg_arrays_cursor wg_start, wg_f_print wg_start,
   wg_f_printf wg_start, wg_locals wg_start, wg_local_count wg_start, wg_arrays wg_start).
Proof.
  unfold wg_with_consts. generalize wg_start as g. induction (hir_decls p) as [|d ds IH]; intros g; [reflexivity|].
  cbn [fold_left]. cbn zeta in *. rewrite IH. apply add_const_same.
Qed.

Section Start.
Context `{F64Ops} `{!F64Law}.
Variables (p : HirProgram) (Gam : cstr -> option Z) (Del : cstr -> option ArrTy).
Abbreviation inv := (@inv (consts_of p) Gam Del).

Lemma start_inv : inv (wg_with_consts p).
Proof.
  pose proof (with_consts_same p) as E. cbn zeta in E. set (g := wg_with_consts p) in *.
  injection E as E1 E2 E3 E4 E5 E6 E7 E8 E9 E10 E11. split.
  - split; [now rewrite E10, E9|rewrite E10; cbn; lia|rewrite E9; constructor].
  - split; rewrite ?E11, ?E6; try constructor. cbn. lia.
  - reflexivity.
  - now rewrite E4, E5, E7, E8.
Qed.

(** The locals and the memory the host gives the module. *)
Definition start_st (g : Wg) : St :=
  mkSt (zero_locals (map (fun l => (1%Z, wl_wt l)) (wg_locals g)))
    (data_mem (if (wb_len (wg_strings g) =? 0)%Z then [] else [(s32 (wg_strings_base g), wb_data (wg_strings g))])) [].

Lemma zero_typed ls : Forall2 (fun l v => value_ok v /\ vtype v = wl_wt l) ls (zero_locals (map (fun l => (1%Z, wl_wt l)) ls)) <->
  Forall (fun l => wl_wt l = WT_I32 \/ wl_wt l = WT_F64) ls.
Proof.
  induction ls as [|l ls IH]; [split; constructor|]. cbn [zero_locals map flat_map fst snd]. change (Z.to_nat 1) with 1%nat. cbn [repeat app].
  split; intros F; inversion F; subst; constructor; try (apply IH; assumption).
  - match goal with Hv : value_ok _ /\ _ |- _ => destruct Hv as [_ <-] end. destruct (wl_wt l =? 124)%Z; auto.
  - match goal with Hv : _ \/ _ |- _ => destruct Hv as [-> | ->] end; (split; [cbn; unfold i32_range, f64_range; lia|reflexivity]).
Qed.

(** Every type of the static check is one of the two value types. *)
Lemma locals_two_types g : locals_ok Gam g -> (forall x wt, Gam x = Some wt -> wt = WT_I32 \/ wt = WT_F64) ->
  Forall (fun l => wl_wt l = WT_I32 \/ wl_wt l = WT_F64) (wg_locals g).
Proof. intros [_ _ T] K. eapply Forall_impl; [|exact T]. intros l Hl. exact (K _ _ Hl). Qed.

Lemma within_spec g : within g = true ->
  (wg_arrays_cursor g <= mem_size)%Z /\ (1024 + Z.of_nat (List.length (wb_data (wg_strings g))) <= 16384)%Z /\ wg_local_count g <= 256 /\
  (Z.of_nat (List.length (wb_data (wg_body g))) < 2 ^ 63)%Z.
Proof. unfold within. rewrite !andb_true_iff, !Z.leb_le, Nat.leb_le, Z.ltb_lt. tauto. Qed.

Lemma start_agree gF : inv gF -> within gF = true -> (forall x wt, Gam x = Some wt -> wt = WT_I32 \/ wt = WT_F64) ->
  @Final (consts_of p) Gam Del gF /\ agree (Del := Del) gF (wg_with_consts p) empty_env (start_st gF).
Proof.
  intros Iv Wi Two. destruct (within_spec gF Wi) as (W1 & W2 & W3 & W4). split; [now split|].
  pose proof (iv_bases _ Iv) as Bs. injection Bs as Bs _ _ _.
  assert (Mem : forall y, (y < 1024 \/ 1024 + Z.of_nat (List.length (wb_data (wg_strings gF))) <= y)%Z -> s_mem (start_st gF) y = 0%Z).
  { intros y Hy. unfold start_st. cbn [s_mem]. destruct (wb_len (wg_strings gF) =? 0)%Z; [reflexivity|]. rewrite Bs.
    unfold data_mem. cbn [fold_left fst snd]. change (u32 (s32 1024)) with 1024%Z. now apply write_outside. }
  split; cbn [e_scal e_arr e_seen empty_env]; try discriminate.
  - apply zero_typed. exact (locals_two_types gF (iv_locals _ Iv) Two).
  - intros a y Ia _ Hy. apply Mem. right. pose proof (proj1 (Forall_forall _ _) (as_low _ _ (iv_arrays _ Iv)) a Ia) as L. cbn beta in L. lia.
  - intros k b N. unfold start_st. cbn [s_mem]. assert (Hk : k < List.length (wb_data (wg_strings gF))) by exact (nth_lt _ _ _ N).
    destruct (Z.eqb_spec (wb_len (wg_strings gF)) 0) as [Z0|_]; [unfold wb_len in Z0; lia|]. rewrite Bs.
    unfold data_mem. cbn [fold_left fst snd]. change (u32 (s32 1024)) with 1024%Z. unfold write_mem.
    destruct (Z.leb_spec 1024 (1024 + Z.of_nat k)); [|lia]. destruct (Z.ltb_spec (1024 + Z.of_nat k) (1024 + Z.of_nat (List.length (wb_data (wg_strings gF))))); [|lia].
    cbn [andb]. replace (Z.to_nat (1024 + Z.of_nat k - 1024)) with k by lia. now apply nth_error_nth.
Qed.
End Start.

(** ** The bytes *)

(** The module the entries of the generator make. *)
Definition image (g : Wg) : Module_ :=
  mkMod [([WT_I32; WT_I32], []); ([WT_I32; WT_I32; WT_I32; WT_I32], []); ([], [])]
    [(bytes_of (lit "arche_print"), 0); (bytes_of (lit "arche_printf"), 1)]%Z [2]%Z []
    [(bytes_of (lit "memory"), (WK_MEM, 0)); (bytes_of (lit "_start"), (WK_FUNC, 2))]%Z
    [(map (fun l => (1%Z, wl_wt l)) (wg_locals g), wb_data (wg_body g))]
    (if (wb_len (wg_strings g) =? 0)%Z then [] else [(s32 (wg_strings_base g), wb_data (wg_strings g))])
    (Some 4%Z) None.

Ltac module_fields H :=
  cbn [mod_types mod_imports mod_funcs mod_globals mod_exports mod_codes mod_datas mod_memory mod_start app] in H.

Lemma start_built : build (wg_m wg_start)
  (mkMod [([WT_I32; WT_I32], []); ([WT_I32; WT_I32; WT_I32; WT_I32], [])]
    [(bytes_of (lit "arche_print"), 0); (bytes_of (lit "arche_printf"), 1)]%Z [] [] [(bytes_of (lit "memory"), (WK_MEM, 0))]%Z [] [] (Some 4%Z) None).
Proof.
  pose proof (bd_memory _ _ 4 bd_init ltac:(lia)) as B; module_fields B.
  pose proof (bd_export _ _ (lit "memory") WK_MEM 0 B ltac:(reflexivity) ltac:(lia)) as B1; module_fields B1.
  pose proof (bd_type _ _ [WT_I32; WT_I32]%Z [] B1 ltac:(cbn; lia) ltac:(cbn; lia)) as B2; module_fields B2.
  pose proof (bd_import _ _ (lit "arche_print") 0 B2 ltac:(reflexivity) ltac:(lia)) as B3; module_fields B3.
  pose proof (bd_type _ _ [WT_I32; WT_I32; WT_I32; WT_I32]%Z [] B3 ltac:(cbn; lia) ltac:(cbn; lia)) as B4; module_fields B4.
  pose proof (bd_import _ _ (lit "arche_printf") 1 B4 ltac:(reflexivity) ltac:(lia)) as B5; module_fields B5.
  exact B5.
Qed.

Lemma code_entry_small ls body : List.length ls <= 256 -> Forall (fun l => fst l = 1%Z) ls -> (Z.of_nat (List.length body) < 2 ^ 63)%Z ->
  (Z.of_nat (List.length (wb_data (code_entry ls body))) < 2 ^ 64)%Z.
Proof.
  intros L F B. rewrite code_entry_data.
  - unfold e_block, e_vec. cbn [fst snd]. rewrite !length_app.
    assert (N : List.length (flat_map e_local ls) = 2 * List.length ls).
    { clear L B. induction F as [|[k t] ls Hk F IH]; [reflexivity|]. cbn [fst] in Hk. subst k. cbn [flat_map]. rewrite length_app, IH.
      unfold e_local. cbn [fst snd]. change (leb_u 1) with [1%Z]. cbn. lia. }
    assert (U : List.length (leb_u (len ls)) <= 10).
    { unfold leb_u. generalize (len ls) as v. generalize 10 as k. induction k as [|k IH]; intros v; [cbn; lia|]. cbn [leb_u_loop].
      destruct (v <? 128)%Z; cbn [List.length]; [lia|]. specialize (IH (v / 128)%Z). lia. }
    rewrite N. lia.
  - unfold short, len. lia.
  - eapply Forall_impl; [|exact F]. intros l ->. unfold small. lia.
Qed.

Lemma link_built g : wg_m g = wg_m wg_start -> wg_local_count g = List.length (wg_locals g) -> wg_strings_base g = 1024%Z -> within g = true ->
  exists m, link_module g = Ok m /\ build m (image g).
Proof.
  intros Em Ec Es W. destruct (within_spec g W) as (W1 & W2 & W3 & W4).
  pose proof (bd_type _ _ [] [] start_built ltac:(cbn; lia) ltac:(cbn; lia)) as B; module_fields B.
  pose proof (bd_func _ _ 2 B ltac:(lia)) as B1; module_fields B1.
  pose proof (bd_code _ _ (map (fun l => (1%Z, wl_wt l)) (wg_locals g)) (wb_data (wg_body g)) B1) as B2.
  specialize (B2 ltac:(rewrite length_map; lia)).
  specialize (B2 ltac:(apply Forall_map, Forall_forall; cbn; lia)).
  assert (Sz : (Z.of_nat (List.length (wb_data (code_entry (map (fun l => (1%Z, wl_wt l)) (wg_locals g)) (wb_data (wg_body g))))) < 2 ^ 64)%Z).
  { apply code_entry_small; [rewrite length_map; lia|apply Forall_map, Forall_forall; reflexivity|exact W4]. }
  specialize (B2 Sz); module_fields B2.
  pose proof (bd_export _ _ (lit "_start") WK_FUNC 2 B2 ltac:(reflexivity) ltac:(lia)) as B3; module_fields B3.
  unfold link_module, image. rewrite Em, Es. destruct (wm_type (wg_m wg_start) [] []) as [tv m0] eqn:Et.
  assert (tv = 2%Z) by (now injection Et as <- _). subst tv. cbn [snd] in *.
  destruct (wm_func m0 2) as [fs m1] eqn:Ef. assert (fs = 2%Z) by (injection Et as <-; now injection Ef as <- _). subst fs. cbn [snd] in *.
  destruct (Nat.ltb_spec WG_MAX_LOCALS (wg_local_count g)); [unfold WG_MAX_LOCALS in *; lia|].
  eexists. split; [reflexivity|]. destruct (wb_len (wg_strings g) =? 0)%Z; [exact B3|].
  pose proof (bd_data _ _ 1024 (wb_data (wg_strings g)) B3 ltac:(lia) ltac:(lia)) as B4; module_fields B4. exact B4.
Qed.

(** The two types of the machine's values. *)
Definition value_types (Gam : cstr -> option Z) : Prop := forall x wt, Gam x = Some wt -> wt = WT_I32 \/ wt = WT_F64.

(** The arrays a program declares. *)
Definition program_arrays (p : HirProgram) : list cstr := flat_map (flat_map array_names) (declared_systems p).

(** The emitted program stays inside the generator's tables and regions. *)
Definition fits_tables (fuel : nat) (p : HirProgram) : bool :=
  (List.length (program_arrays p) <=? 128) && match emit_program fuel p with Ok g => within g | _ => false end.

(** The bytes of the module load as the emitted code. *)
Lemma image_loads g m code :
  build m (image g) -> (wb_len (wm_finish m) < 2 ^ 64)%Z -> wf_code code = true -> wb_data (wg_body g) = enc_seq code ++ [11%Z] ->
  load (wb_data (wm_finish m)) = Some (code, start_st g).
Proof.
  intros B L W E. unfold load. rewrite (finish_decodes m (image g) B L).
  destruct (host_eq_dec _ host) as [_|N]; [|destruct N; reflexivity].
  change (find _ (mod_exports (image g))) with (Some (bytes_of (lit "_start"), (WK_FUNC, 2%Z))). cbn [Z.eqb WK_FUNC].
  change (nth_error (mod_codes (image g)) _) with (Some (map (fun l => (1%Z, wl_wt l)) (wg_locals g), wb_data (wg_body g))).
  rewrite E, (body_decode code W). reflexivity.
Qed.

Section Program.
Context `{F64Ops} `{!F64Law}.

Lemma generated_runs p Gam Del f fuel n bytes ps :
  value_types Gam -> wt_program Gam Del p = true -> arrays_distinct p = true -> fits_tables f p = true ->
  wasmgen_generate f p = Ok bytes -> (Z.of_nat (List.length bytes) < 2 ^ 64)%Z -> run_declared Del fuel n p = Some ps ->
  exists code st st', load bytes = Some (code, st) /\ exec arity n code st [] = Norm st' [] /\ Forall2 shown (s_calls st') ps.
Proof.
  intros Vt Wp Ad Fit Gn Lb Rp. unfold wt_program in Wp. apply andb_true_iff in Wp as [Wc Ws].
  assert (Cok : @ConstsOk (consts_of p) Gam Del) by (unfold ConstsOk; now apply Forall_forall, forallb_forall).
  unfold fits_tables in Fit. apply andb_true_iff in Fit as [Room Wi]. apply Nat.leb_le in Room. unfold wasmgen_generate in Gn.
  destruct (emit_program f p) as [gF| |] eqn:Ep; [|discriminate|discriminate]. cbn [rbind] in Gn.
  unfold emit_program in Ep. fold (wg_with_consts p) in Ep. cbn zeta in Ep. rewrite emit_systems in Ep. apply rbind_ok in Ep as (g1 & E1 & Ep). injection Ep as <-.
  destruct (within_spec _ Wi) as (W1 & W2 & W3 & W4). pose proof (with_consts_same p) as Same. cbn zeta in Same.
  injection Same as Sm Sb Ss _ _ _ _ _ _ _ Sa.
  assert (Fr : fresh (wg_with_consts p) (program_arrays p)).
  { split; rewrite Sa; [exact (distinct_NoDup _ Ad)|exact Room]. }
  destruct (systems_sim p Gam Del f fuel (declared_systems p) (wg_with_consts p) g1 Ws (start_inv p Gam Del) E1 W3 Fr) as (code & M & Wf & I1 & _ & R).
  pose proof (inv_put [11%Z] g1 I1) as IF. set (gF := put [11%Z] g1) in *.
  destruct (start_agree p Gam Del gF IF Wi Vt) as [Fin A].
  unfold run_declared in Rp. destruct (run_systems p Del fuel n (declared_systems p) empty_env) as [[r' out]|] eqn:Rs; [|discriminate]. injection Rp as <-.
  destruct (R gF Fin n empty_env (start_st gF) r' out (put_ext _ _) A Rs) as (st' & evs & Q & _ & Cs & Sh).
  assert (Xf : ext (wg_with_consts p) gF) by exact (ext_trans _ _ _ (proj1 M) (put_ext _ _)).
  pose proof (ex_fixed _ _ Xf) as Fx. injection Fx as Fm _ _ _ _ _. pose proof (iv_bases _ IF) as Bs. injection Bs as Bs _ _ _.
  destruct (link_built gF (eq_trans Fm Sm) (lo_count _ _ (iv_locals _ IF)) Bs Wi) as (m & Lm & Bd). rewrite Lm in Gn. injection Gn as <-.
  exists code, (start_st gF), st'. split; [|split; [exact Q|]].
  - apply (image_loads gF m code Bd Lb Wf). cbn [gF put wg_body set_body]. rewrite each_data, (proj2 M), Sb. reflexivity.
  - rewrite Cs. exact Sh.
Qed.
End Program.
