(* ===== verification/WasmGenFuel.v ===== *)
(** * The generator returns

    The value of a constant is emitted at every use of its name, so the recursion follows the
    references between constants. With no cycle among them, a bound on the fuel. *)

From S2P Require Import Prelude Hir WasmEncode WasmGen HirSem WasmGenFacts WasmGenBody WasmGenModule.

(** The names the emission of an expression looks up. *)
Fixpoint uses (e : HirExpr) : list cstr :=
  match e with
  | mkHirExpr _ _ d =>
      match d with
      | HE_NAME n => [n]
      | HE_BINARY _ l r _ => uses l ++ uses r
      | HE_INDEX _ indices _ _ => flat_map uses indices
      | _ => []
      end
  end.

(** How deep the emission of an expression nests, its constants aside. *)
Fixpoint depth (e : HirExpr) : nat :=
  match e with
  | mkHirExpr _ _ d =>
      S match d with
        | HE_BINARY _ l r _ => Nat.max (depth l) (depth r)
        | HE_INDEX _ indices _ _ => list_max (map depth indices)
        | _ => 0
        end
  end.

(** The constants refer to each other without a cycle: each only to constants of a smaller rank. *)
Definition acyclic (consts : list (cstr * HirExpr)) : Prop :=
  exists rank : cstr -> nat, forall nm c v x, const_of consts nm = Some (c, v) -> In x (uses v) -> is_some (const_of consts x) = true -> rank x < rank nm.

Definition returns (f : Wg -> res Wg) (consts : list (cstr * HirExpr)) : Prop := forall g, wg_consts g = consts -> f g <> NoFuel.

Lemma bind_returns {A B} (m : res A) (k : A -> res B) : m <> NoFuel -> (forall a, m = Ok a -> k a <> NoFuel) -> rbind m k <> NoFuel.
Proof. destruct m; cbn; [auto|discriminate|contradiction]. Qed.

Lemma ext_consts g g' : ext g g' -> wg_consts g' = wg_consts g.
Proof. intros X. pose proof (ex_fixed _ _ X) as E. now injection E. Qed.

Lemma wg_local_returns name wt g : wg_local name wt g <> NoFuel.
Proof. unfold wg_local. destruct (local_find _ _ _); [discriminate|]. destruct (_ <? _); discriminate. Qed.

Section Parts.
Variable consts : list (cstr * HirExpr).
Variable emit : HirExpr -> Wg -> res Wg.
Hypothesis grows : forall e, extends (emit e).

(** [emit] returns on the expressions of [ok]. *)
Variable ok : HirExpr -> Prop.
Hypothesis ret : forall e, ok e -> returns (emit e) consts.

Ltac step := match goal with
  | |- Ok _ <> NoFuel => discriminate
  | |- rbind _ _ <> NoFuel => apply bind_returns; [|let g := fresh "g" in let E := fresh "E" in intros g E]
  end.

Lemma as_float_returns e : ok e -> returns (wg_emit_as_float emit e) consts.
Proof. intros O g C. unfold wg_emit_as_float. step; [exact (ret e O g C)|discriminate]. Qed.

Lemma elem_addr_returns a e : ok e -> returns (wg_emit_elem_addr emit a e) consts.
Proof. intros O g C. unfold wg_emit_elem_addr. step; [apply (ret e O); exact C|discriminate]. Qed.

Lemma binary_returns op l r : ok l -> ok r -> returns (emit_binary emit op l r) consts.
Proof.
  intros Ol Or g C. unfold emit_binary. cbn zeta. destruct (_ =? 0)%Z; [discriminate|]. destruct (_ || _).
  - step; [exact (as_float_returns l Ol g C)|]. step; [|discriminate].
    apply (as_float_returns r Or). now rewrite (ext_consts _ _ (as_float_ext emit grows _ _ _ E)).
  - step; [exact (ret l Ol g C)|]. step; [|discriminate]. apply (ret r Or). now rewrite (ext_consts _ _ (grows _ _ _ E)).
Qed.

Lemma operand_returns wt e : ok e -> returns (emit_operand emit wt e) consts.
Proof. intros O g C. unfold emit_operand. destruct (_ =? _)%Z; [exact (as_float_returns e O g C)|exact (ret e O g C)]. Qed.

Lemma arg_returns e slot : ok e -> returns (emit_arg emit e slot) consts.
Proof.
  intros O g C. unfold emit_arg. destruct (_ || is_tag (he_resolved e) HIR_TYPE_CHAR_ARRAY); [destruct (text_arg e g) as [[p l] g1]; discriminate|].
  step; [apply (ret e O); exact C|discriminate].
Qed.

Lemma args_returns es j : Forall ok es -> returns (emit_args emit es j) consts.
Proof.
  intros F. revert j; induction F as [|e es O F IH]; intros j g C; [discriminate|]. cbn [emit_args]. step; [exact (arg_returns e _ O g C)|].
  apply IH. now rewrite (ext_consts _ _ (arg_ext emit grows _ _ _ _ E)).
Qed.

Lemma printf_returns args : Forall ok (tl args) -> returns (wg_emit_printf emit args) consts.
Proof.
  intros F g C. destruct args as [|fmt rest]; [discriminate|]. cbn [tl] in F. unfold wg_emit_printf.
  destruct (he_data fmt); try discriminate. pose proof (intern_ext value g) as X. destruct (wg_intern_string value g) as [[off len] g1]. cbn [snd] in X.
  destruct rest as [|e es]; [discriminate|]. step; [|discriminate]. apply args_returns; [exact F|]. now rewrite (ext_consts _ _ X).
Qed.

Lemma elements_returns a es k : Forall ok es -> returns (emit_elements emit a es k) consts.
Proof.
  intros F. revert k; induction F as [|e es O F IH]; intros k g C; [discriminate|]. cbn [emit_elements].
  destruct (k <? wa_total a)%Z; [|discriminate]. change (if (wa_elem_wt a =? WT_F64)%Z then _ else _) with
    (emit_operand emit (wa_elem_wt a) e (g_const (wa_base a + k * wa_elem_size a) g)).
  step; [apply (operand_returns _ e O); exact C|]. apply IH. cbn [wg_consts wg_emit_store put set_body].
  rewrite (ext_consts _ _ (operand_ext emit grows _ _ _ _ E)). exact C.
Qed.

Definition value_exprs (v : option HirExpr) : list HirExpr :=
  match v with Some e => e :: match he_data e with HE_ARRAY_LITERAL es => es | _ => [] end | None => [] end.

Lemma bind_stmt_returns name type value : Forall ok (value_exprs value) -> returns (emit_bind emit name type value) consts.
Proof.
  intros F g C. unfold emit_bind. destruct (bind_array_type type value) as [t|].
  - destruct (wg_array_decl name t g) as [[a g1]|] eqn:D; [|discriminate]. destruct value as [v|]; [|discriminate].
    cbn [value_exprs] in F. apply Forall_cons_iff in F as [O F']. destruct (he_data v); try discriminate.
    apply elements_returns; [exact F'|]. now rewrite (ext_consts _ _ (array_decl_ext _ _ _ _ _ D)).
  - step.
    + destruct value as [v|]; [|discriminate]. cbn [value_exprs] in F. apply Forall_cons_iff in F as [O _]. now apply ret.
    + step; [apply wg_local_returns|discriminate].
Qed.

Definition target_exprs (t : HirExpr) : list HirExpr := match he_data t with HE_INDEX _ indices _ _ => indices | _ => [] end.

Lemma assign_returns target value op : Forall ok (target_exprs target) -> ok value -> returns (emit_assign emit target value op) consts.
Proof.
  intros F O g C. unfold emit_assign. unfold target_exprs in F. destruct (he_data target); try discriminate.
  - step; [apply wg_local_returns|]. destruct g0 as [i g1]. cbn [fst snd]. pose proof (ext_consts _ _ (wg_local_ext _ _ _ _ _ E)) as C1.
    step; [|discriminate]. destruct (negb _).
    + step; [|discriminate]. apply operand_returns; [exact O|]. cbn [wg_consts g_get set_body]. now rewrite C1.
    + apply (ret value O). now rewrite C1.
  - destruct (array_base base g) as [a|]; [|discriminate]. destruct indices as [|i [|]]; try discriminate. apply Forall_cons_iff in F as [Oi _].
    step; [exact (elem_addr_returns a i Oi g C)|]. pose proof (ext_consts _ _ (elem_addr_ext emit grows _ _ _ _ E)) as C1. rename g0 into g1.
    assert (K : forall g2, (if negb (Operator_beq op OP_NONE) then g' <- wg_emit_elem_addr emit a i g1 ;; Ok (wg_emit_load a g') else Ok g1) = Ok g2 -> wg_consts g2 = consts).
    { intros g2. destruct (negb _); intros E2.
      - apply rbind_ok in E2 as (g3 & E3 & E2). injection E2 as <-. cbn [wg_consts wg_emit_load put set_body].
        rewrite (ext_consts _ _ (elem_addr_ext emit grows _ _ _ _ E3)). congruence.
      - injection E2 as <-. congruence. }
    step.
    + destruct (negb _); [|discriminate]. step; [|discriminate]. apply elem_addr_returns; [exact Oi|congruence].
    + step; [|discriminate]. apply operand_returns; [exact O|]. now apply K.
Qed.
End Parts.

(** ** Expressions *)

Lemma in_list_max l x : In x l -> x <= list_max l.
Proof. intros I. exact (proj1 (Forall_forall _ _) (proj1 (list_max_le l (list_max l)) (le_n _)) x I). Qed.

Section Consts.
Variable consts : list (cstr * HirExpr).
Variable rank : cstr -> nat.
Hypothesis ranked : forall nm c v x, const_of consts nm = Some (c, v) -> In x (uses v) -> is_some (const_of consts x) = true -> rank x < rank nm.

(** An expression that refers to constants of rank below [k] and nests to [d]. *)
Definition bounded (k d : nat) (e : HirExpr) : Prop :=
  (forall x, In x (uses e) -> is_some (const_of consts x) = true -> rank x < k) /\ depth e <= d.

Definition deep : nat := list_max (map (fun c => depth (snd c)) consts).

Lemma const_bounded nm c v : const_of consts nm = Some (c, v) -> bounded (rank nm) deep v.
Proof.
  intros E. split; [intros x I S; exact (ranked nm c v x E I S)|]. apply find_some in E as [I _].
  unfold deep. apply in_list_max. apply in_map_iff. now exists (c, v).
Qed.

(** Each step down the ranks costs at most the deepest constant. *)
Lemma expr_returns f : forall k d e, bounded k d e -> k * S deep + d <= f -> returns (wg_emit_expr f e) consts.
Proof.
  induction f as [|f IH]; intros k d e [U D] Hf g C; [destruct e; cbn [depth] in D; lia|]. pose proof (expr_ext f) as Xs.
  destruct e as [loc t dt]. cbn [wg_emit_expr he_data he_resolved]. cbn [uses depth] in U, D. destruct d as [|d]; [lia|].
  assert (IHd : forall e, (forall x, In x (uses e) -> is_some (const_of consts x) = true -> rank x < k) -> depth e <= d -> returns (wg_emit_expr f e) consts).
  { intros e Ue De. apply (IH k d); [now split|lia]. }
  destruct dt; try discriminate.
  - rewrite C. fold (const_of consts name). destruct (const_of consts name) as [[c v]|] eqn:E.
    + assert (R : rank name < k) by (apply U; [now left|now rewrite E]).
      apply (IH (rank name) deep v (const_bounded name c v E)); [|exact C]. nia.
    + apply bind_returns; [apply wg_local_returns|discriminate].
  - destruct field_name as [n|]; [|discriminate]. destruct (if cstr_eqb n (lit "length") then _ else _); discriminate.
  - destruct (array_base base g) as [a|]; [|discriminate]. destruct indices as [|i [|]]; try discriminate. apply bind_returns; [|discriminate].
    cbn [map list_max fold_right] in D. apply (elem_addr_returns consts (wg_emit_expr f) (fun e => e = i)); [|reflexivity|exact C].
    intros e ->. apply IHd; [|lia]. intros x Ix. apply U. cbn [flat_map]. now rewrite app_nil_r.
  - apply (binary_returns consts (wg_emit_expr f) Xs (fun e => e = left \/ e = right)); auto.
    intros e [-> | ->]; (apply IHd; [|lia]); intros x Ix; apply U, in_or_app; auto.
Qed.
End Consts.

(** ** Statements *)

(** How deep the emission of a statement nests, its expressions aside. *)
Fixpoint height (s : HirStmt) : nat :=
  match s with
  | mkHirStmt _ d =>
      let of_opt o := match o with Some s => height s | None => 0 end in
      S match d with
        | HS_FOR _ _ init _ incr body => Nat.max (of_opt init) (Nat.max (of_opt incr) (list_max (map height body)))
        | HS_IF _ t e => Nat.max (list_max (map height t)) (list_max (map height e))
        | _ => 0
        end
  end.

(** The expressions the emission of a statement may visit. *)
Fixpoint stmt_exprs (s : HirStmt) : list HirExpr :=
  match s with
  | mkHirStmt _ d =>
      let of_opt o := match o with Some s => stmt_exprs s | None => [] end in
      match d with
      | HS_BIND _ _ _ value => value_exprs value
      | HS_ASSIGN target value _ => value :: target_exprs target
      | HS_FOR _ _ init cond incr body =>
          of_opt init ++ match cond with Some c => [c] | None => [] end ++ flat_map stmt_exprs body ++ of_opt incr
      | HS_IF cond t e => cond :: flat_map stmt_exprs t ++ flat_map stmt_exprs e
      | HS_EXPR e => match he_data (wg_unwrap_eff e) with HE_CALL _ args _ _ => tl args | _ => [] end
      | _ => []
      end
  end.

Section Statements.
Variable consts : list (cstr * HirExpr).

Lemma each_returns {A} (f : A -> Wg -> res Wg) l :
  (forall x, extends (f x)) -> Forall (fun x => returns (f x) consts) l -> returns (each f l) consts.
Proof.
  intros Xf F. induction F as [|x l Hx _ IH]; intros g C; [discriminate|]. cbn [each]. apply bind_returns; [exact (Hx g C)|].
  intros g1 E. apply IH. now rewrite (ext_consts _ _ (Xf x _ _ E)).
Qed.

Lemma opt_returns {A} (f : A -> Wg -> res Wg) o : match o with Some x => returns (f x) consts | None => True end -> returns (opt f o) consts.
Proof. destruct o; [auto|]. intros _ g _. discriminate. Qed.

Variables (ok : HirExpr -> Prop) (base : nat).
Hypothesis ret : forall f e, base <= f -> ok e -> returns (wg_emit_expr f e) consts.

Lemma stmt_returns f : forall s, Forall ok (stmt_exprs s) -> height s + base <= f -> returns (wg_emit_stmt f s) consts.
Proof.
  induction f as [|f IH]; intros s F Hf g C; [destruct s; cbn [height] in Hf; lia|].
  pose proof (expr_ext f) as Xe. pose proof (stmt_ext f) as Xs. destruct s as [loc d]. cbn [height stmt_exprs] in F, Hf.
  pose proof (fun e => ret f e ltac:(lia)) as R. cbn [wg_emit_stmt hs_data].
  assert (All : forall l, Forall ok (flat_map stmt_exprs l) -> list_max (map height l) + base <= f -> returns (each (wg_emit_stmt f) l) consts).
  { intros l Fl Hl. apply each_returns; [exact Xs|]. apply Forall_forall. intros s Is. apply IH.
    - apply Forall_forall. intros e Ie. apply (proj1 (Forall_forall _ _) Fl). apply in_flat_map. eauto.
    - pose proof (in_list_max _ _ (in_map height l s Is)). lia. }
  destruct d; try discriminate.
  - exact (bind_stmt_returns consts _ Xe ok R name type value F g C).
  - apply Forall_cons_iff in F as [Fv Ft]. exact (assign_returns consts _ Xe ok R target value op Ft Fv g C).
  - apply Forall_app in F as [Fn F]. apply Forall_app in F as [Fc F]. apply Forall_app in F as [Fb Fi].
    assert (Opt : forall o, Forall ok (match o with Some s => stmt_exprs s | None => [] end) ->
      match o with Some s => height s | None => 0 end + base <= f -> returns (opt (wg_emit_stmt f) o) consts).
    { intros o Fo Ho. apply opt_returns. destruct o as [s|]; [apply IH; [exact Fo|exact Ho]|trivial]. }
    apply bind_returns; [apply (Opt init Fn); [lia|exact C]|]. intros g1 E1. pose proof (ext_consts _ _ (opt_ext _ _ Xs _ _ E1)) as C1. rewrite C in C1.
    apply bind_returns.
    + apply opt_returns; [|exact C1]. destruct cond as [c|]; [|trivial]. apply Forall_cons_iff in Fc as [Oc _]. intros g2 C2.
      apply bind_returns; [exact (R c Oc g2 C2)|discriminate].
    + intros g3 E3. assert (C3 : wg_consts g3 = consts).
      { apply (opt_ext _ _) in E3; [exact (eq_trans (ext_consts _ _ E3) C1)|]. intros c u v Hu. apply rbind_ok in Hu as (w & Hw & Hu). injection Hu as <-.
        exact (ext_trans _ _ _ (Xe _ _ _ Hw) (ext_trans _ _ _ (put_ext _ _) (ext_body _ _))). }
      apply bind_returns; [apply (All body Fb); [lia|exact C3]|]. intros g4 E4.
      pose proof (ext_consts _ _ (each_ext _ _ (proj2 (Forall_forall _ body) (fun s _ => Xs s)) _ _ E4)) as C4. rewrite C3 in C4.
      apply bind_returns; [apply (Opt incr Fi); [lia|exact C4]|discriminate].
  - apply Forall_cons_iff in F as [Fc F]. apply Forall_app in F as [Ft Fe]. apply bind_returns; [exact (R cond Fc g C)|]. intros g1 E1.
    pose proof (ext_consts _ _ (Xe cond _ _ E1)) as C1. rewrite C in C1. apply bind_returns; [apply (All then_body Ft); [lia|exact C1]|]. intros g2 E2.
    pose proof (ext_consts _ _ (each_ext _ _ (proj2 (Forall_forall _ then_body) (fun s _ => Xs s)) _ _ E2)) as C2. cbn [wg_consts put set_body] in C2. rewrite C1 in C2.
    apply bind_returns; [|discriminate]. destruct else_body as [|s e]; [discriminate|]. apply (All (s :: e) Fe); [lia|exact C2].
  - cbn zeta. destruct (is_print_call _); [|discriminate]. destruct (he_data (wg_unwrap_eff expr)); try discriminate.
    exact (printf_returns consts _ Xe ok R args F g C).
Qed.
End Statements.

(** ** Programs *)

(** All statements of the systems without parameters. *)
Definition all_stmts (p : HirProgram) : list HirStmt := List.concat (declared_systems p).

Lemma program_returns p : acyclic (consts_of p) -> exists bound, forall fuel, bound <= fuel -> wasmgen_generate fuel p <> NoFuel.
Proof.
  intros [rank Ranked]. set (consts := consts_of p) in *.
  set (k := S (list_max (map (fun c => rank (fst c)) consts))). set (d := list_max (map depth (flat_map stmt_exprs (all_stmts p)))).
  set (base := k * S (deep consts) + d). exists (list_max (map height (all_stmts p)) + base). intros fuel Hf.
  assert (K : forall x, is_some (const_of consts x) = true -> rank x < k).
  { intros x Sx. destruct (const_of consts x) as [[c v]|] eqn:E; [|discriminate]. apply find_some in E as [I Q]. apply cstr_eqb_eq in Q. cbn in Q. subst c.
    unfold k. pose proof (in_list_max _ _ (in_map (fun c => rank (fst c)) consts (x, v) I)). cbn in *. lia. }
  assert (Ret : forall f e, base <= f -> depth e <= d -> returns (wg_emit_expr f e) consts).
  { intros f e Hb De. apply (expr_returns consts rank Ranked f k d); [split; [intros x _; apply K|exact De]|exact Hb]. }
  unfold wasmgen_generate. apply bind_returns.
  - unfold emit_program. fold (wg_with_consts p). cbn zeta. rewrite emit_systems. apply bind_returns; [|discriminate].
    assert (St : forall s, In s (all_stmts p) -> returns (wg_emit_stmt fuel s) consts).
    { intros s Is. apply (stmt_returns consts (fun e => depth e <= d) base Ret).
      - apply Forall_forall. intros e Ie. apply in_list_max, in_map, in_flat_map. eauto.
      - pose proof (in_list_max _ _ (in_map height _ s Is)). lia. }
    apply (each_returns consts); [|apply Forall_forall|reflexivity].
    + intros l. apply each_ext, Forall_forall. intros s _. apply stmt_ext.
    + intros l Il. apply each_returns; [apply stmt_ext|]. apply Forall_forall. intros s Is. apply St. apply in_concat. eauto.
  - intros g _. apply bind_returns; [|discriminate]. unfold link_module. destruct (wm_type _ _ _) as [t m]. destruct (wm_func m t) as [f m1].
    destruct (_ <? _); discriminate.
Qed.
