(* ===== verification/WasmGenProps.v ===== *)
(** * Correctness of the WebAssembly generator

    The generated module prints what the program prints when the schedule runs the systems in
    declaration order; the generator returns; where it deviates from the language. *)

From Stdlib Require Import SpecFloat.
From S2P Require Import Prelude Hir Lexer LexerFacts WasmEncode WasmProps WasmGen WasmSem HirSem WasmGenFacts WasmGenLits WasmGenSim WasmGenStmt WasmGenPrint WasmGenModule WasmGenFuel.

(** ** Doubles *)

(** The double a 64-bit pattern stands for. *)
Definition float_of_bits (b : Z) : spec_float :=
  let s := (2 ^ 63 <=? b)%Z in
  let e := ((b / 2 ^ 52) mod 2048)%Z in
  let m := (b mod 2 ^ 52)%Z in
  if (e =? 2047)%Z then (if (m =? 0)%Z then S754_infinity s else S754_nan)
  else
    match (if (e =? 0)%Z then m else m + 2 ^ 52)%Z with
    | Zpos q => S754_finite s q (if (e =? 0)%Z then -1074 else e - 1075)
    | _ => S754_zero s
    end.

(** IEEE 754 arithmetic, rounding to nearest; every not-a-number is the canonical one. *)
#[local] Instance ieee : F64Ops := {
  fl_add a b := double_bits (SFadd 53 1024 (float_of_bits a) (float_of_bits b));
  fl_sub a b := double_bits (SFsub 53 1024 (float_of_bits a) (float_of_bits b));
  fl_mul a b := double_bits (SFmul 53 1024 (float_of_bits a) (float_of_bits b));
  fl_div a b := double_bits (SFdiv 53 1024 (float_of_bits a) (float_of_bits b));
  fl_eq a b := SFeqb (float_of_bits a) (float_of_bits b);
  fl_lt a b := SFltb (float_of_bits a) (float_of_bits b);
  fl_le a b := SFleb (float_of_bits a) (float_of_bits b);
  fl_of_i32 a := double_bits (binary_normalize 53 1024 a 0 false)
}.

#[local] Instance ieee_law : F64Law.
Proof. split; intros; apply Z.mod_pos_bound; lia. Qed.

(** ** Programs to run *)

Definition no_loc : SourceLoc := mkLoc 0 0.
Definition t_int : HirType := hir_type_create HIR_TYPE_INT.
Definition t_float : HirType := hir_type_create HIR_TYPE_FLOAT.
Definition t_ints (n : Z) : HirType := mkHirType HIR_TYPE_SHAPED_ARRAY None (Some t_int) n [] 0 false [] [] false.

Definition e_int (s : string) : HirExpr := mkHirExpr no_loc t_int (HE_LITERAL (lit s)).
Definition e_flt (s : string) : HirExpr := mkHirExpr no_loc t_float (HE_LITERAL (lit s)).
Definition e_name (t : HirType) (s : string) : HirExpr := mkHirExpr no_loc t (HE_NAME (lit s)).
Definition e_bin (op : Operator) (t : HirType) (l r : HirExpr) : HirExpr := mkHirExpr no_loc t (HE_BINARY op l r None).
Definition e_at (a : string) (n : Z) (i : HirExpr) : HirExpr := mkHirExpr no_loc t_int (HE_INDEX (e_name (t_ints n) a) [i] None false).
Definition e_str (s : cstr) : HirExpr := mkHirExpr no_loc (hir_type_create HIR_TYPE_CHAR_ARRAY) (HE_STRING s).
Definition e_array (t : HirType) (es : list HirExpr) : HirExpr := mkHirExpr no_loc t (HE_ARRAY_LITERAL es).

Definition st (d : StmtData HirStmt) : HirStmt := mkHirStmt no_loc d.
Definition s_bind (x : string) (t : option HirType) (v : option HirExpr) : HirStmt := st (HS_BIND (lit x) [] t v).
Definition s_set (t : HirExpr) (op : Operator) (v : HirExpr) : HirStmt := st (HS_ASSIGN t v op).
Definition s_call (f : string) (args : list HirExpr) : HirStmt :=
  st (HS_EXPR (mkHirExpr no_loc (hir_type_create HIR_TYPE_VOID)
    (HE_CALL (Some (mkHirExpr no_loc t_int (HE_FIELD (e_name t_int "fmt") (Some (lit f))))) args None false))).

Definition decl (d : DeclData) : HirDecl := mkDecl no_loc 0 d.
Definition d_system (body : list HirStmt) : HirDecl :=
  decl (HD_KERNEL (mkKernel (Some (lit "main")) HIR_KERNEL_SYSTEM [] body true false [] None None false no_loc)).
Definition d_run : HirDecl := decl (HD_RUN (Some (mkSched SCHED_RUN (Some (lit "main")) [])) no_loc).
Definition prog (ds : list HirDecl) (body : list HirStmt) : HirProgram := mkProgram (ds ++ [d_run; d_system body]) no_loc.

Definition bytes_or_none (r : res (list Z)) : list Z := match r with Ok b => b | _ => [] end.

(** What the host shows for a call of [arche_print]. *)
Definition text_of (e : Event) : option (list Z) :=
  match e with Call f [VI p; VI n] m => if (f =? 0)%Z then Some (read_mem m p (Z.to_nat n)) else None | _ => None end.

(** The texts a module prints, [None] when it does not run to its end. *)
Definition texts (bytes : list Z) (n : nat) : option (list (option (list Z))) :=
  match load bytes with
  | Some (code, s) => match exec arity n code s [] with Norm s' [] => Some (map text_of (s_calls s')) | _ => None end
  | None => None
  end.

(** Squares into an array, a float, a test, a format with three arguments, a text. *)
Definition demo : HirProgram :=
  prog [decl (HD_CONST (lit "K") (Some (e_int "0x4")) None)]
    [s_bind "a" (Some (t_ints 6)) (Some (e_array (t_ints 6) [e_int "7"; e_int "7"]));
     st (HS_FOR None None (Some (s_bind "i" None (Some (e_int "0")))) (Some (e_bin OP_LT t_int (e_name t_int "i") (e_name t_int "K")))
           (Some (s_set (e_name t_int "i") OP_ADD (e_int "1")))
           [s_set (e_at "a" 6 (e_name t_int "i")) OP_MUL (e_name t_int "i");
            s_set (e_at "a" 6 (e_bin OP_ADD t_int (e_name t_int "i") (e_int "1"))) OP_NONE (e_name t_int "i")]);
     s_bind "x" None (Some (e_flt "1.5"));
     st (HS_IF (e_bin OP_EQ t_int (e_at "a" 6 (e_name t_int "K")) (e_int "3")) [s_set (e_name t_float "x") OP_MUL (e_int "2")] []);
     s_call "printf" [e_str (lit "%d %f %s"); e_at "a" 6 (e_int "3"); e_name t_float "x"; e_str (lit "ok")];
     s_call "print" [e_str (lit "done")]].

Definition demo_scalars (x : cstr) : option Z :=
  if cstr_eqb x (lit "i") then Some WT_I32 else if cstr_eqb x (lit "x") then Some WT_F64 else None.
Definition demo_arrays (x : cstr) : option ArrTy := if cstr_eqb x (lit "a") then Some (mkArrTy A_i32 6) else None.
Definition demo_bytes : list Z := bytes_or_none (wasmgen_generate 20 demo).
Definition demo_prints : list Print :=
  [P_fmt (bytes_of (lit "%d %f %s")) [PA_int 6; PA_float (double_bits (strtod (lit "3.0"))); PA_text (bytes_of (lit "ok"))];
   P_text (bytes_of (lit "done"))].

Lemma demo_value_types : value_types demo_scalars.
Proof.
  intros x wt. unfold demo_scalars. destruct (cstr_eqb x (lit "i")); [intros [= <-]; now left|].
  destruct (cstr_eqb x (lit "x")); [intros [= <-]; now right|discriminate].
Qed.

(** A string literal of the source, and what the back end makes of it. *)
Definition print_literal (raw : cstr) : HirProgram := prog [] [s_call "print" [e_str (syntax_decode_string raw)]].

Definition quoted (s : cstr) : cstr := ["034"%char] ++ s ++ ["034"%char].

(** The same name in two scopes, with an integer and with a float. *)
Definition one : HirExpr := e_int "1".
Definition two_scopes (a b : list HirStmt) : HirProgram :=
  prog [] [st (HS_IF one a []); st (HS_IF one b []); s_call "print" [e_str (lit "end")]].
Definition two_types : HirProgram := two_scopes [s_bind "v" None (Some one)] [s_bind "v" None (Some (e_flt "1.5"))].

(** The same name in two scopes, for arrays of different lengths. *)
Definition literal (n : Z) (es : list string) : HirExpr := e_array (t_ints n) (map e_int es).
Definition two_arrays : HirProgram :=
  two_scopes [s_bind "a" None (Some (literal 2 ["1"; "2"]%string))]
    [s_bind "a" None (Some (literal 4 ["1"; "2"; "3"; "4"]%string));
     st (HS_IF (e_bin OP_EQ t_int (e_at "a" 4 (e_int "3")) (e_int "4")) [s_call "print" [e_str (lit "four")]] [s_call "print" [e_str (lit "other")]])].
Definition two_array_types (x : cstr) : option ArrTy := if cstr_eqb x (lit "a") then Some (mkArrTy A_i32 4) else None.

(** More names than the generator's table holds. *)
Definition names (n : nat) : list HirStmt := map (fun k => st (HS_BIND (repeat "x"%char (S k)) [] None (Some one))) (seq 0 n).
Definition many_locals (n : nat) : HirProgram := prog [] (names n).

(** ** Claims *)

(** C15: The WebAssembly back end is correct on the fragment the static check covers (32-bit integers,
    narrow integers and characters in arrays, doubles, one-dimensional local arrays, named constants,
    assignments with and without an operator, conditionals, loops, prints with up to 64 arguments).
    For a checked program whose [#run] schedule runs every system without parameters once in the order
    of their declarations, whose arrays have distinct names and that stays within the generator's
    tables: if the reference evaluation, which follows the schedule, terminates with the prints [ps],
    then the bytes the generator wrote are a loadable module whose [_start] runs without a trap to its
    end and calls the host exactly for [ps], in order: the right function, the text at the passed
    address and length, each argument in its 8-byte slot. *)
Theorem wasmgen_correct `{F64Ops} `{!F64Law} p Gam Del f fuel n bytes ps :
  value_types Gam -> wt_program Gam Del p = true -> schedule_in_order p = true -> arrays_distinct p = true ->
  fits_tables f p = true -> wasmgen_generate f p = Ok bytes -> (Z.of_nat (List.length bytes) < 2 ^ 64)%Z ->
  run_program Del fuel n p = Some ps ->
  exists code s s', load bytes = Some (code, s) /\ exec arity n code s [] = Norm s' [] /\ Forall2 shown (s_calls s') ps.
Proof.
  intros Vt Wp So Ad Fit Gn Lb Rp. apply (generated_runs p Gam Del f fuel n bytes ps); auto.
  unfold run_program in Rp. now rewrite (in_order_systems p So) in Rp.
Qed.

Lemma wasmgen_correct_witness :
  exists code s s', load demo_bytes = Some (code, s) /\ exec arity 20 code s [] = Norm s' [] /\ Forall2 shown (s_calls s') demo_prints.
Proof.
  apply (wasmgen_correct demo demo_scalars demo_arrays 20 20 20 demo_bytes demo_prints demo_value_types); vm_compute; reflexivity.
Defined.

(** C16: The generator returns. It emits the value of a constant at every use of its name, so its
    recursion is not bounded by the program text; when the constants do not refer to each other in a
    cycle, an amount of fuel exists from which on the generator never runs out, for every program. *)
Theorem wasmgen_terminates p :
  acyclic (consts_of p) -> exists bound, forall fuel, bound <= fuel -> wasmgen_generate fuel p <> NoFuel.
Proof. apply program_returns. Qed.

Definition chained : HirProgram :=
  prog [decl (HD_CONST (lit "A") (Some (e_bin OP_ADD t_int (e_name t_int "B") (e_name t_int "B"))) None);
        decl (HD_CONST (lit "B") (Some (e_int "2")) None)]
    [s_bind "x" None (Some (e_name t_int "A"))].

Lemma wasmgen_terminates_witness :
  acyclic (consts_of chained) /\ exists bound, forall fuel, bound <= fuel -> wasmgen_generate fuel chained <> NoFuel.
Proof.
  assert (A : acyclic (consts_of chained)).
  { exists (fun x => if cstr_eqb x (lit "A") then 1 else 0). intros nm c v x E I S. change (consts_of chained) with
      [(lit "A", e_bin OP_ADD t_int (e_name t_int "B") (e_name t_int "B")); (lit "B", e_int "2")] in E.
    unfold const_of in E. cbn [find fst] in E. destruct (cstr_eqb (lit "A") nm) eqn:NA.
    - injection E as <- <-. apply cstr_eqb_eq in NA. subst nm. destruct I as [<-|[<-|[]]]; cbn; lia.
    - destruct (cstr_eqb (lit "B") nm); [injection E as <- <-; destruct I|discriminate]. }
  split; [exact A|]. exact (wasmgen_terminates chained A).
Defined.

(** The token of a string literal for the text [v]. *)
Definition escaped (c : ascii) : cstr :=
  if Ascii.eqb c BACKSLASH || Ascii.eqb c DQUOTE then [BACKSLASH; c] else [c].
Definition literal_of (v : cstr) : cstr := quoted (flat_map escaped v).

Lemma decode_escaped v : syntax_decode_string (literal_of v) = v.
Proof.
  unfold syntax_decode_string, literal_of, quoted. cbn [tl app]. induction v as [|c v IH]; [reflexivity|].
  cbn [flat_map]. rewrite <- app_assoc. set (rest := flat_map escaped v ++ _) in *.
  assert (R : exists x y, rest = x :: y) by (unfold rest; destruct (flat_map escaped v); cbn; eauto). destruct R as (x & y & R).
  rewrite R in *. unfold escaped. destruct (Ascii.eqb_spec c BACKSLASH) as [->|B]; cbn [orb app].
  - cbn [decode_string_from]. cbn -[decode_string_from]. now f_equal.
  - destruct (Ascii.eqb_spec c DQUOTE) as [->|D]; cbn [app].
    { cbn [decode_string_from]. cbn -[decode_string_from]. now f_equal. }
    rewrite <- IH. cbn [decode_string_from]. destruct y; [reflexivity|]. pose proof (proj2 (Ascii.eqb_neq c _) B) as N. change BACKSLASH with "\"%char in N. now rewrite N.
Qed.

(** C17: The texts of string literals. The lowering decodes the literal of a text to that text, whatever
    it contains; the back end then replaces escapes once more: the bytes it interns are the text with
    its backslash sequences replaced, at the offset and of the length it returns, and they are the
    text's own bytes exactly when the text has no backslash before its last character. *)
Theorem strings_decoded_twice v g :
  let s := syntax_decode_string (literal_of v) in
  let '(off, len, g') := wg_intern_string s g in
  s = v /\
  firstn (Z.to_nat len) (skipn (Z.to_nat (off - wg_strings_base g)) (wb_data (wg_strings g'))) = unescape v /\
  (unescape v = bytes_of v <-> no_backslash (removelast v) = true).
Proof.
  cbn zeta. rewrite decode_escaped. unfold wg_intern_string. split; [reflexivity|]. split; [|apply unescape_same].
  cbn [wg_strings set_strings]. rewrite each_data. unfold wb_len.
  replace (Z.to_nat (Z.of_nat _)) with (List.length (unescape v)) by lia.
  replace (Z.to_nat _) with (List.length (wb_data (wg_strings g))) by lia.
  rewrite skipn_app_exact. apply firstn_all.
Qed.

(** The two characters backslash and [n] are printed as a line feed, two backslashes as one. *)
Example double_decoding :
  let print v := texts (bytes_or_none (wasmgen_generate 20 (print_literal (literal_of v)))) 20 in
  run_program (fun _ => None) 20 20 (print_literal (literal_of [BACKSLASH; "n"%char])) = Some [P_text [92; 110]%Z] /\
  print [BACKSLASH; "n"%char] = Some [Some [10]%Z] /\ print [BACKSLASH; BACKSLASH] = Some [Some [92]%Z].
Proof. vm_compute. auto. Qed.




(** The tables of the generator are flat and of fixed size. On these programs: the same name bound to an
    integer in one scope and to a float in another gives a module that does not run; an array declared
    again under a name of another scope is filled in its own region but read from the first one
    ([other] is printed where the program prints [four]); and with 257 names the generator reads past
    its table, while 256 are still fine. *)
Example generator_tables_are_flat :
  run_program (fun _ => None) 20 20 two_types = Some [P_text (bytes_of (lit "end"))] /\
  texts (bytes_or_none (wasmgen_generate 20 two_types)) 20 = None /\
  run_program two_array_types 20 20 two_arrays =
    Some [P_text (bytes_of (lit "four")); P_text (bytes_of (lit "end"))] /\
  texts (bytes_or_none (wasmgen_generate 20 two_arrays)) 20 = Some [Some (bytes_of (lit "other")); Some (bytes_of (lit "end"))] /\
  wasmgen_generate 20 (many_locals 257) = Undef /\
  texts (bytes_or_none (wasmgen_generate 20 (many_locals 256))) 20 = Some [].
Proof. vm_compute. auto 10. Qed.
